(* ===== verification/_CoqProject ===== *)
-Q . S2P
Prelude.v
Reader.v
Aob.v
Snapshot.v
Values.v
TextFormat.v
MemScan.v
PointerScan.v
Taint.v
Zip.v
PeParser.v
FunctionIndex.v
Rtti.v
TypeCatalog.v
Traffic.v
Pool.v
Jobs.v
Deferred.v
Undo.v
Watch.v
EventBus.v
Ir.v
Dce.v
Propagate.v
CopyProp.v
Ssa.v
Dom.v
Phi.v
Rename.v
Build.v
MiddleEnd.v
Lifter.v
LiftSem.v
Lifted.v
LiftFn.v
Decompile.v
CfStruct.v
