(* ===== verification/Prelude.v ===== *)
(** * reverse-slop: a verification library for the engine's core

    reverse-slop is a reverse-engineering workbench: a C++ engine that scans,
    snapshots and follows the memory of a process, parses executables and archives,
    tracks taint through emulated code, stores network traffic, decompiles, and runs
    all of it on a worker pool behind a user interface.  This library is a shallow
    embedding of the engine's own logic: pure functions for the code's functions,
    explicit state for its objects, step relations where threads interleave.

    ** Parts, and how they interact

    - [Prelude] (this file): machine-width integers, bytes and little-endian loads,
      the outcome of code that may touch memory outside a buffer, text helpers of the
      C library, sorting, and the hints and tactics of the development.
    - [Reader]: src/core/memory/reader.hpp, read_util.cpp, core/infra/cancel.hpp.
      The class [Reader] is [reader_t], [ReaderOk] its documented contract (a read
      returns all the bytes asked for or nothing, of one memory); [Paged] is an
      implementation that satisfies it.  [resilient_read] keeps its stack of
      segments.  Every component that reads the target is proved against the class.
    - [Aob]: core/memory/aob.cpp.  Pattern compiler, matcher, printer, the chunked
      scan of many workers.
    - [Snapshot]: core/memory/snapshot.cpp.  Capture and diff.
    - [Values], [MemScan]: core/memory/memscan.cpp.  Value text and the comparison
      kernel; region filter, fast scan, run scanner, and [memscan_t]'s first/next
      scan state machine.
    - [PointerScan]: core/memory/pointer_scan.cpp, with its addresses at 64 bits.
    - [TextFormat]: core/infra/text_format.cpp.  Hex dialects, the hex parser, base64.
    - [Taint]: core/emu/taint.cpp.  Shadow pages, register taint, the driver of one
      instruction, the range report.
    - [Zip]: core/util/zip_reader.cpp.  [PeParser]: core/disasm/pe_parser.cpp.
      Every byte read is checked: [Crash] is a read outside the buffer.
    - [FunctionIndex]: core/disasm/function_index.cpp, over a decoder that is a parameter.
    - [TypeCatalog]: core/re/type_catalog.cpp.  Declaration parser, layout, the
      locked catalog and its persistence.
    - [Traffic]: core/network/traffic_store.cpp.  Packet ring, stream index,
      filters, pcap export.
    - [Pool], [Jobs]: core/infra/work_queue.cpp, jobs.cpp.  The task queue,
      [parallel_for] (with cancellation, [stop] and spurious wake-ups) and the background
      jobs with their threads, as step relations.
    - [Watch]: core/memory/watch_service.cpp, a pass in the parts its mutex separates.
    - [Deferred]: core/infra/deferred.cpp.  [Undo]: hyperion/core/undo.h.  [EventBus]:
      core/infra/event_bus.cpp, each section under a mutex one function.
    - [Rtti]: core/re/rtti.cpp, over the images of [PeParser].

    - [Ir]: hyperion/core/decompiler/ir.h, def_use.h.  Varnodes, operations, blocks,
      use counts; and, as a specification, what it means to run a path of blocks for
      any interpretation of the operations.  [Dce]: dce.cpp.  [Propagate]:
      propagate.cpp, every pass.  [CopyProp]: the proof that copy propagation is sound
      on SSA functions.  ssa.cpp is in five files, in the order [build] calls them:
      [Ssa], the block order, variable keys and the renaming of operations; [Dom], the
      dominator iteration, the tree and the frontiers; [Phi], the placement of phis;
      [Rename], the walk over the dominator tree; [Build], the composition and its
      correctness.  [MiddleEnd] composes [build], [Dce.run] and copy propagation.
    - [Lifter]: lifter.cpp, and the decoded instructions of disassembler.h.  Its state
      is the record [lift_st] under a state monad, as the C++ object is.  [LiftSem]: a
      machine with sixteen registers, the operands of the last comparison and a memory,
      as the specification of the instructions, and the proof that the p-code of a
      block implements it.  [Lifted], [LiftFn]: lifted functions have the shape SSA
      construction assumes.  [Decompile]: decompiler.cpp's calls from the lifter to
      dead code elimination, and their correctness.  [CfStruct]: cf_struct.cpp's
      [structure], with a semantics of labels, gotos and statements.

    A definition carries the name of the code's function, method, type or constant
    where Rocq allows it; a loop or a lambda of a function is a definition of its own
    named after it ([rr_loop] of [resilient_read], [walk_sink] of [walk_region]).
    A [std::mutex] that guards whole operations makes an operation one function; where
    lock and unlock matter (catalog, jobs) the lock is part of the state.

    ** What the theorems show

    - Scanning: the pattern, value, unknown-value and pointer scans report only what
      the target holds ([aob_scan_sound], [first_scan_values], [next_scan_rows],
      [next_scan_stash], [pointer_scan_sound]) and, undisturbed and not truncated,
      everything the definition of a hit allows ([aob_scan_complete],
      [pointer_scan_complete]), for every number of workers, schedule and cancellation,
      and every chunk size that the pattern fits, over regions that do not come near the
      end of the address space, where the code's addresses wrap
      ([sweep_runs_off_the_top]); the bisecting read delivers exactly the readable blocks
      of a range that does not wrap.
    - Parsers: every input is parsed without a read outside it and to an end
      ([zip_open_safe], [zip_extract_safe], [pe_parse_safe], [parse_decls_returns]); the RTTI
      scan also finds exactly the tables ([rtti_scan_exact]), and the function index
      what the seeds and calls reach ([function_index_built]).
    - Round trips: patterns, value text, hex and base64 text ([text_roundtrips]), pcap
      files, the type catalog's store, virtual addresses and file offsets.
    - Refinements: the taint shadow is a set of addresses ([shadow_is_a_set]), the
      traffic store is a function of the packet history ([store_refines_history]),
      the pool's queue is a queue ([queue_is_fifo]), the output ring is the last lines
      of the history ([EventBus.output_since_catches_up]), the undo stacks are a line of worlds
      ([undo_is_a_timeline]).
    - Histories: a subscriber gets the stream of frames with counted gaps
      ([subscriber_gets_stream]); a deferred action runs at most once
      ([deferred_runs_once]); the watch list holds what it freezes and tells its
      subscribers what changed ([pass_holds_frozen], [subscriber_knows_watch]).
    - Concurrency: [parallel_for] runs each index once, and ends but for a lost wake-up
      or tasks that a [stop] drops ([parallel_for_each_index_once],
      [parallel_for_terminates]); a job's state agrees with its thread in every
      interleaving ([jobs_invariant]), and [reap] never gets past a job that failed and
      is still running ([reap_deadlocks]).
    - Decompiler: dead code elimination, copy propagation and constant folding keep
      memory, effects and the variables still read, on every path and for every
      interpretation of the operations ([dce_preserves],
      [copy_propagation_preserves], [constant_fold_preserves]).  SSA construction does
      so too and establishes the SSA form that copy propagation needs
      ([build_preserves], [build_ssa], and the passes together: [middle_end_preserves]) on
      functions of the lifter's shape, on top of the block order ([rpo_spec]) and the
      immediate dominators ([compute_dominators_spec]).  The lifter's p-code does what the
      processor does ([lift_block_correct]), functions of simple instructions
      are of that shape ([lift_liftable]), and so the result of the passes runs like the machine code
      ([decompile_ir_correct]); a graph without phis and the labels and gotos printed for
      it simulate each other block by block ([structure_simulates]).  The hypotheses of these
      theorems are about the input and are needed: [entry_loop_is_lost],
      [second_edge_is_lost], [narrow_phi_is_lost], [phi_is_first_copy] and
      [body_ignores_entry] are what happens without them; the specification has no step where the lifter does not
      follow the processor (narrow operands, frame-relative memory, flags of
      arithmetic, one-operand multiplication and division).
    - What the code does not do: lemmas that end in a concrete run show a lost
      wake-up, a deadlock in [reap], a scan that misses values across chunks, guards
      that wrap, a pass that confuses versions of a flag, and the like; each says which comment or guard it contradicts.

    ** Fuel

    Loops that are not structural take fuel that the definition computes from its
    arguments: the bytes of the span for scans and the bisecting read (each round
    consumes at least one), the bytes left for zip directories, the length of the
    text for the declaration parser, the nodes for parent links, the blocks for the
    depth-first walk and the walk over the dominator tree, the square of the blocks for
    the dominator iteration (each round moves a parent up), definitions and blocks for
    the phi worklist.  [None] or [Crash] is
    the result when it runs out, and the theorems state that a result is returned, so
    they also show that the fuel is enough.

    ** Parameters

    Code outside the repository is a parameter with its documented behaviour as a
    hypothesis: zlib's [inflate] and [crc32], nlohmann's text form of JSON, the file
    system, the C library's float conversions, casts that C++ leaves undefined, the
    target's memory (through [Reader]), the clock (times are arguments), the order in
    which an unordered map is iterated ([Phi.key_order]: each key once), Zydis' numbers of
    registers and mnemonics, fmt's hexadecimal format and the text of an instruction.

    ** Not modelled

    The kernel driver, the mapper and the runtime back ends act on Windows structures
    that the source does not define.  Debugger, process views, capture, Frida, Lua and
    emulation sessions are calls of third-party interfaces.  The MCP tools parse
    arguments and call the components above.  The session store, the ELF and Mach-O
    loaders, the ARM lifters, type inference and the emitter of the decompiler are left
    out.  [Watch]'s shutdown, which publishes nothing and runs when the process exits, is
    a definition but not a step of the interleavings.  [LiftSem] takes the target of an
    indirect call or jump from the lifter: it says nothing about those targets.  User interface, tests and build tools
    have no logic of their own to state.

    This file holds what every component shares. *)

From Stdlib Require Export ZArith Lia Ascii.
From stdpp Require Export base list list_numbers strings gmap sorting.

#[local] Open Scope Z_scope.

(** ** Machine-width integers *)

(** A w-bit unsigned value is a [Z]; arithmetic that can overflow is wrapped. *)
Definition wrap (w z : Z) : Z := z mod 2 ^ w.
Abbreviation u8 := (wrap 8).
Abbreviation u16 := (wrap 16).
Abbreviation u32 := (wrap 32).
Abbreviation u64 := (wrap 64).

(** Two's complement reading of the low [w] bits. *)
Definition signed_of (w z : Z) : Z :=
  let u := wrap w z in if u <? 2 ^ (w - 1) then u else u - 2 ^ w.

Definition is_word (w z : Z) : Prop := 0 <= z < 2 ^ w.
Abbreviation is_byte := (is_word 8).
Definition bytes_ok (l : list Z) : Prop := Forall is_byte l.

(** ** Code that may leave a buffer *)

(** [Crash] is an access the C++ object model leaves undefined. *)
Inductive outcome (A : Type) : Type :=
| Done (a : A)
| Crash.
Arguments Done {A} _.
Arguments Crash {A}.

#[export] Instance outcome_ret : MRet outcome := fun A => @Done A.
#[export] Instance outcome_bind : MBind outcome :=
  fun A B k m => match m with Done a => k a | Crash => Crash end.

Definition byte_at (d : list Z) (off : Z) : outcome Z :=
  if off <? 0 then Crash
  else match d !! Z.to_nat off with Some b => Done b | None => Crash end.

(** [n] bytes from [off], little endian. *)
Fixpoint load_le (n : nat) (d : list Z) (off : Z) : outcome Z :=
  match n with
  | O => Done 0
  | S n' => b ← byte_at d off; r ← load_le n' d (off + 1); Done (b + 256 * r)
  end.

(** [memcpy] of [n] bytes into a zeroed integer. *)
Fixpoint load_bits (n : nat) (data : list Z) : Z :=
  match n, data with
  | S n', b :: data' => b + 256 * load_bits n' data'
  | _, _ => 0
  end.

Definition zlen {A} (l : list A) : Z := Z.of_nat (length l).

Lemma wrap_range w z : 0 <= w -> is_word w (wrap w z).
Proof. intros Hw. apply Z.mod_pos_bound, Z.pow_pos_nonneg; lia. Qed.

Lemma wrap_small w z : is_word w z -> wrap w z = z.
Proof. apply Z.mod_small. Qed.

Lemma signed_of_range n z : 1 <= n -> - 2 ^ (n - 1) <= signed_of n z < 2 ^ (n - 1).
Proof.
  intros Hn. unfold signed_of. pose proof (wrap_range n z ltac:(lia)) as Hw. unfold is_word in Hw.
  assert (2 ^ n = 2 * 2 ^ (n - 1)) by (rewrite <- Z.pow_succ_r by lia; f_equal; lia).
  destruct (Z.ltb_spec (wrap n z) (2 ^ (n - 1))); lia.
Qed.

Lemma wrap_wrap w z : 0 <= w -> wrap w (wrap w z) = wrap w z.
Proof. intros Hw. apply wrap_small, wrap_range, Hw. Qed.

Lemma zlen_nonneg {A} (l : list A) : 0 <= zlen l.
Proof. unfold zlen. lia. Qed.

Lemma zlen_app {A} (l k : list A) : zlen (l ++ k) = zlen l + zlen k.
Proof. unfold zlen. rewrite length_app. lia. Qed.

Lemma byte_at_in d off :
  0 <= off < zlen d -> exists b, byte_at d off = Done b /\ b ∈ d.
Proof.
  unfold byte_at, zlen. intros H.
  destruct (Z.ltb_spec off 0); [lia |].
  destruct (lookup_lt_is_Some_2 d (Z.to_nat off)) as [b Hb]; [lia |].
  exists b. rewrite Hb. split; [done |]. by eapply list_elem_of_lookup_2.
Qed.

Lemma byte_at_out d off : ~ (0 <= off < zlen d) -> byte_at d off = Crash.
Proof.
  unfold byte_at, zlen. intros H.
  destruct (Z.ltb_spec off 0); [done |].
  rewrite lookup_ge_None_2; [done | lia].
Qed.

(** A little-endian load inside the buffer succeeds and fits its width. *)
Lemma load_le_in n d off :
  bytes_ok d -> 0 <= off -> off + Z.of_nat n <= zlen d ->
  exists v, load_le n d off = Done v /\ is_word (8 * Z.of_nat n) v.
Proof.
  intros Hd. revert off. induction n as [|n IH]; intros off H0 H1.
  - exists 0. split; [done |]. unfold is_word. simpl. lia.
  - destruct (byte_at_in d off) as (b & Hb & Hin); [lia |].
    destruct (IH (off + 1)) as (r & Hr & Hw); [lia | lia |].
    exists (b + 256 * r). simpl load_le. rewrite Hb. simpl. rewrite Hr.
    split; [done |].
    pose proof (proj1 (Forall_forall _ _) Hd b Hin) as Hb8. unfold is_word in *.
    replace (8 * Z.of_nat (S n)) with (8 + 8 * Z.of_nat n) by lia.
    rewrite Z.pow_add_r by lia. change (2 ^ 8) with 256 in *. nia.
Qed.

Lemma load_bits_take n data : load_bits n (take n data) = load_bits n data.
Proof.
  revert data. induction n as [|n IH]; intros [|b data]; cbn [take load_bits]; [done.. |].
  by rewrite IH.
Qed.

Lemma load_bits_range n data : bytes_ok data -> is_word (8 * Z.of_nat n) (load_bits n data).
Proof.
  unfold is_word, bytes_ok. revert data. induction n as [|n IH]; intros data Hd; [simpl; lia |].
  replace (8 * Z.of_nat (S n)) with (8 + 8 * Z.of_nat n) by lia. rewrite Z.pow_add_r by lia.
  change (2 ^ 8) with 256. assert (0 < 2 ^ (8 * Z.of_nat n)) by (apply Z.pow_pos_nonneg; lia).
  destruct data as [|b data]; cbn [load_bits]; [lia |].
  apply Forall_cons in Hd as [Hb Hd]. unfold is_word in Hb. change (2 ^ 8) with 256 in Hb.
  specialize (IH data Hd). nia.
Qed.

(** [m] does not leave a buffer and its result satisfies [P]. *)
Definition returns {A} (m : outcome A) (P : A -> Prop) : Prop := exists a, m = Done a /\ P a.

Lemma returns_done {A} (a : A) (P : A -> Prop) : P a -> returns (Done a) P.
Proof. intros HP. by exists a. Qed.

Lemma returns_bind {A B} (m : outcome A) (k : A -> outcome B) (P : A -> Prop) (Q : B -> Prop) :
  returns m P -> (forall a, P a -> returns (k a) Q) -> returns (m ≫= k) Q.
Proof. intros (a & -> & Ha) Hk. by apply Hk. Qed.

Lemma returns_weaken {A} (m : outcome A) (P Q : A -> Prop) :
  returns m P -> (forall a, P a -> Q a) -> returns m Q.
Proof. intros (a & -> & Ha) HQ. exists a. auto. Qed.

Lemma returns_load n d off :
  bytes_ok d -> 0 <= off -> off + Z.of_nat n <= zlen d ->
  returns (load_le n d off) (is_word (8 * Z.of_nat n)).
Proof. intros Hd H0 H1. destruct (load_le_in n d off Hd H0 H1) as (v & E & Hv). by exists v. Qed.

(** A run of bytes inside the buffer. *)
Lemma returns_slice d off n :
  0 <= off -> 0 <= n -> off + n <= zlen d ->
  returns (mapM (fun k => byte_at d (off + k)) (seqZ 0 n))
    (fun l => l = take (Z.to_nat n) (drop (Z.to_nat off) d)).
Proof.
  intros Ho Hn Hlen.
  assert (Hgen : forall m k, (k + m <= Z.to_nat n)%nat ->
    mapM (fun k => byte_at d (off + k)) (seqZ (Z.of_nat k) (Z.of_nat m))
      = Done (take m (drop (Z.to_nat off + k) d))).
  { induction m as [|m IH]; intros k Hk; [done |].
    rewrite Nat2Z.inj_succ, seqZ_cons by lia. cbn [mapM].
    assert (Hb : exists b, d !! (Z.to_nat off + k)%nat = Some b).
    { apply lookup_lt_is_Some_2. unfold zlen in Hlen. lia. }
    destruct Hb as [b Hb].
    assert (byte_at d (off + Z.of_nat k) = Done b) as ->.
    { unfold byte_at. destruct (Z.ltb_spec (off + Z.of_nat k) 0); [lia |].
      replace (Z.to_nat (off + Z.of_nat k)) with (Z.to_nat off + k)%nat by lia. by rewrite Hb. }
    cbn [mbind outcome_bind].
    replace (Z.succ (Z.of_nat k)) with (Z.of_nat (S k)) by lia.
    replace (Z.pred (Z.succ (Z.of_nat m))) with (Z.of_nat m) by lia.
    rewrite (IH (S k)) by lia. cbn [mbind outcome_bind mret outcome_ret].
    rewrite (drop_S _ _ _ Hb). cbn [take].
    by replace (Z.to_nat off + S k)%nat with (S (Z.to_nat off + k)) by lia. }
  eexists. split; [|done]. specialize (Hgen (Z.to_nat n) 0%nat ltac:(lia)).
  rewrite Z2Nat.id, Nat.add_0_r in Hgen by lia. exact Hgen.
Qed.

Create HintDb slop discriminated.

#[export] Hint Resolve wrap_range zlen_nonneg : slop.

(** Conjunctions of bounds and other hypotheses. *)
Ltac bounds := intros; simpl in *; destruct_and?; split_and?; first [done | lia].

(** Case analysis on every boolean comparison of integers in sight. *)
Ltac zcase :=
  repeat match goal with
  | |- context [?a <? ?b] => destruct (Z.ltb_spec a b)
  | |- context [?a <=? ?b] => destruct (Z.leb_spec a b)
  | |- context [?a =? ?b] => destruct (Z.eqb_spec a b)
  end.

(** ** What a step appends to an output that can be truncated *)

(** A step appends good entries and, unless it truncates, all wanted ones. *)
Definition appends {O A} (proj : O -> list A) (trunc : O -> bool) (Q T : A -> Prop) (o o' : O) : Prop :=
  exists hs, proj o' = proj o ++ hs /\ Forall Q hs /\
    (trunc o' = false -> trunc o = false /\ forall h, T h -> h ∈ hs).

Section Appends.
Context {O A : Type} (proj : O -> list A) (trunc : O -> bool).
Implicit Types (Q T : A -> Prop) (o : O).

Lemma adds_none Q T o o' :
  proj o' = proj o -> (trunc o' = false -> trunc o = false) ->
  (trunc o' = false -> forall h, ~ T h) -> appends proj trunc Q T o o'.
Proof.
  intros Hr Ht HT. exists []. rewrite app_nil_r. split_and!; [done | by constructor |].
  intros E. split; [auto |]. intros h Hh. by destruct (HT E h).
Qed.

Lemma adds_refl Q T o : (forall h, ~ T h) -> appends proj trunc Q T o o.
Proof. intros HT. by apply adds_none. Qed.

(** One more entry. *)
Lemma adds_one Q T o o' x :
  proj o' = proj o ++ [x] -> (trunc o' = false -> trunc o = false) -> Q x ->
  (forall h, T h -> h = x) -> appends proj trunc Q T o o'.
Proof.
  intros Hr Ht HQ HT. exists [x]. split_and!; [done | by constructor |].
  intros E. split; [auto |]. intros h Hh. rewrite (HT h Hh). by left.
Qed.

(** A truncated step owes nothing. *)
Lemma adds_truncated Q T T' o o1 o2 :
  appends proj trunc Q T o o1 -> proj o2 = proj o1 -> trunc o2 = true -> appends proj trunc Q T' o o2.
Proof.
  intros (hs & E & F & _) Hp Ht. exists hs. rewrite Hp. split_and!; [done | done | by rewrite Ht].
Qed.

Lemma adds_trans Q T1 T2 T o1 o2 o3 :
  appends proj trunc Q T1 o1 o2 -> appends proj trunc Q T2 o2 o3 -> (forall h, T h -> T1 h \/ T2 h) ->
  appends proj trunc Q T o1 o3.
Proof.
  intros (h1 & E1 & F1 & C1) (h2 & E2 & F2 & C2) HT. exists (h1 ++ h2).
  rewrite E2, E1, <- app_assoc. split; [done |]. split; [by apply Forall_app |].
  intros Ht. destruct (C2 Ht) as [Ht2 C2']. destruct (C1 Ht2) as [Ht1 C1'].
  split; [done |]. intros h Hh. apply elem_of_app. destruct (HT h Hh); auto.
Qed.

Lemma adds_weaken Q Q' T T' o o' :
  (forall h, Q h -> Q' h) -> (forall h, T' h -> T h) ->
  appends proj trunc Q T o o' -> appends proj trunc Q' T' o o'.
Proof.
  intros HQ HT (hs & E & F & C). exists hs. split; [done |].
  split; [eapply Forall_impl; eauto |]. intros Ht. destruct (C Ht). eauto.
Qed.

Lemma adds_start Q T o o1 o2 :
  proj o1 = proj o -> trunc o1 = trunc o -> appends proj trunc Q T o1 o2 -> appends proj trunc Q T o o2.
Proof. unfold appends. by intros -> ->. Qed.

Lemma adds_end Q T o o1 o2 :
  proj o2 = proj o1 -> trunc o2 = trunc o1 -> appends proj trunc Q T o o1 -> appends proj trunc Q T o o2.
Proof. unfold appends. by intros -> ->. Qed.
End Appends.

(** ** Text: a [std::string] is the list of its bytes *)

Definition ch (a : ascii) : Z := Z.of_N (N_of_ascii a).
Arguments ch _%_char_scope.
Definition bs (s : string) : list Z := ch <$> String.list_ascii_of_string s.
Arguments bs _%_string_scope.

(** [t.rfind(p, 0) == 0], also [t.starts_with(p)]. *)
Definition starts_with (p t : list Z) : bool := bool_decide (take (length p) t = p).

(** [t.find(p) != npos]. *)
Fixpoint contains (p t : list Z) : bool :=
  starts_with p t || match t with [] => false | _ :: t' => contains p t' end.

(** [std::isspace], [std::isdigit], [std::isxdigit] of the C locale. *)
Definition isspace (c : Z) : bool := (c =? 32) || ((9 <=? c) && (c <=? 13)).
Definition isdigit (c : Z) : bool := (48 <=? c) && (c <=? 57).
Definition isalpha (c : Z) : bool :=
  ((65 <=? c) && (c <=? 90)) || ((97 <=? c) && (c <=? 122)).
Definition isxdigit (c : Z) : bool :=
  isdigit c || ((65 <=? c) && (c <=? 70)) || ((97 <=? c) && (c <=? 102)).

(** [%X] of one nibble and [%02X] of one byte. *)
Definition hex_digit (n : Z) : Z := if n <? 10 then 48 + n else 55 + n.
Definition hex2 (b : Z) : list Z := [hex_digit (b / 16); hex_digit (b mod 16)].

(** Decimal digits of a natural number ([std::to_string], [%u]). *)
Fixpoint dec_loop (fuel : nat) (n : Z) (acc : list Z) : list Z :=
  match fuel with
  | O => acc
  | S f => if n <? 10 then (48 + n) :: acc
           else dec_loop f (n / 10) ((48 + n mod 10) :: acc)
  end.
Definition dec (n : Z) : list Z := dec_loop (S (Z.to_nat (Z.log2 n))) n [].

(** Value of a run of decimal digits. *)
Definition dec_val (acc : Z) (ds : list Z) : Z := foldl (fun a c => a * 10 + (c - 48)) acc ds.

Lemma isdigit_range c : isdigit c = true -> 48 <= c <= 57.
Proof. unfold isdigit. intros Hc. apply andb_prop in Hc as [Hl Hh]. apply Z.leb_le in Hl, Hh. lia. Qed.

Lemma isdigit_add n : 0 <= n < 10 -> isdigit (48 + n) = true.
Proof. intros Hn. unfold isdigit. apply andb_true_intro. split; apply Z.leb_le; lia. Qed.

Lemma dec_loop_spec fuel n acc :
  0 <= n < 2 ^ Z.of_nat (S fuel) ->
  exists ds, dec_loop (S fuel) n acc = ds ++ acc /\ ds <> [] /\ Forall (fun c => isdigit c = true) ds /\
    dec_val 0 ds = n /\ (length ds <= S fuel)%nat /\ (head ds = Some 48 -> ds = [48]).
Proof.
  revert n acc. induction fuel as [|fuel IH]; intros n acc Hn; cbn [dec_loop];
    (destruct (Z.ltb_spec n 10) as [Hs|Hs];
      [ exists [48 + n]; split_and!;
        [ done | done | constructor; [apply isdigit_add; lia | done] | unfold dec_val; simpl; lia
        | simpl; lia | intros Hh; simplify_eq/=; f_equal; lia ] |]).
  - exfalso. change (2 ^ Z.of_nat 1) with 2 in Hn. lia.
  - pose proof (Z.div_mod n 10 ltac:(lia)). pose proof (Z.mod_pos_bound n 10 ltac:(lia)).
    rewrite (Nat2Z.inj_succ (S fuel)), Z.pow_succ_r in Hn by lia.
    destruct (IH (n / 10) ((48 + n mod 10) :: acc)) as (ds & Hd & Hne & Hf & Hv & Hl & Hz); [lia |].
    exists (ds ++ [48 + n mod 10]). cbn [dec_loop] in Hd. rewrite Hd, <- app_assoc.
    split_and!.
    + done.
    + by destruct ds.
    + apply Forall_app. split; [done |]. constructor; [apply isdigit_add; lia | done].
    + unfold dec_val in *. rewrite foldl_app, Hv. simpl. lia.
    + rewrite length_app. simpl. lia.
    + intros Hh. exfalso. destruct ds as [|c ds']; [done |]. simpl in Hh. simplify_eq.
      rewrite (Hz eq_refl) in *. unfold dec_val in *. simpl in *. lia.
Qed.

(** [dec n] is a non-empty run of digits without leading zeros that reads back as [n]. *)
Lemma dec_spec n :
  0 <= n ->
  dec n <> [] /\ Forall (fun c => isdigit c = true) (dec n) /\ dec_val 0 (dec n) = n /\
  zlen (dec n) <= Z.log2 n + 1 /\ (head (dec n) = Some 48 -> dec n = [48]).
Proof.
  intros Hn. unfold dec.
  destruct (decide (n = 0)) as [->|Hz].
  { split_and!; try done; repeat constructor. }
  destruct (Z.log2_spec n ltac:(lia)) as [_ Hlt]. pose proof (Z.log2_nonneg n).
  destruct (dec_loop_spec (Z.to_nat (Z.log2 n)) n []) as (ds & -> & ? & ? & ? & ? & ?).
  { rewrite Nat2Z.inj_succ, Z2Nat.id by lia. lia. }
  rewrite app_nil_r. unfold zlen. split_and!; (done || lia).
Qed.

Lemma dec_val_lower a ds :
  0 <= a -> Forall (fun c => isdigit c = true) ds -> a * 10 ^ zlen ds <= dec_val a ds.
Proof.
  intros Ha Hd. revert a Ha. induction Hd as [|c ds Hc Hd IH]; intros a Ha.
  - unfold zlen, dec_val. simpl. lia.
  - apply isdigit_range in Hc. specialize (IH (a * 10 + (c - 48)) ltac:(lia)).
    change (dec_val a (c :: ds)) with (dec_val (a * 10 + (c - 48)) ds).
    unfold zlen in *. cbn [length]. rewrite Nat2Z.inj_succ, Z.pow_succ_r by lia.
    assert (0 < 10 ^ Z.of_nat (length ds)) by (apply Z.pow_pos_nonneg; lia). nia.
Qed.

(** At most [k] digits below [10 ^ k]. *)
Lemma dec_length n k : 0 <= n < 10 ^ k -> 1 <= k -> zlen (dec n) <= k.
Proof.
  intros Hn Hk. destruct (dec_spec n ltac:(lia)) as (Hne & Hd & Hv & _ & Hz).
  destruct (dec n) as [|c ds] eqn:E; [done |].
  destruct (Z.eq_dec c 48) as [->|Hc].
  { rewrite (Hz eq_refl). unfold zlen. simpl. lia. }
  inversion Hd as [|? ? Hc' Hds]; subst. apply isdigit_range in Hc'.
  pose proof (dec_val_lower (c - 48) ds ltac:(lia) Hds) as Hlow.
  change (dec_val 0 (c :: ds)) with (dec_val (c - 48) ds) in Hn.
  unfold zlen in *. cbn [length]. destruct (Z.le_gt_cases (Z.of_nat (S (length ds))) k); [done |].
  assert (10 ^ k <= 10 ^ Z.of_nat (length ds)) by (apply Z.pow_le_mono_r; lia).
  assert (0 < 10 ^ Z.of_nat (length ds)) by (apply Z.pow_pos_nonneg; lia). nia.
Qed.

(** The longest prefix of characters in [p], and the rest. *)
Fixpoint span (p : Z -> bool) (t : list Z) : list Z * list Z :=
  match t with
  | c :: t' => if p c then let '(a, r) := span p t' in (c :: a, r) else ([], t)
  | [] => ([], [])
  end.

Lemma span_split p t : t = (span p t).1 ++ (span p t).2 /\ Forall (fun c => p c = true) (span p t).1.
Proof.
  induction t as [|c t [IH1 IH2]]; cbn; [done |]. destruct (p c) eqn:E; [|done].
  destruct (span p t) as [a r]. cbn in *. split; [by f_equal | by constructor].
Qed.

Lemma span_suffix p t : (span p t).2 `suffix_of` t.
Proof. destruct (span_split p t) as [E _]. by exists (span p t).1. Qed.

(** [operator<] of [std::string] is the lexicographic order of bytes; here [<=]. *)
Fixpoint lex_leb (a b : list Z) : bool :=
  match a, b with
  | [], _ => true
  | _ :: _, [] => false
  | x :: a', y :: b' => if x <? y then true else if y <? x then false else lex_leb a' b'
  end.
(** [c_str()] as C functions read it: up to the first NUL. *)
Fixpoint c_str (t : list Z) : list Z :=
  match t with c :: t' => if c =? 0 then [] else c :: c_str t' | [] => [] end.

(** Decimal conversion of [strtoul] and of scanf's [%u]: spaces, a sign, digits;
    whether there is a sign, the magnitude, and the rest, or nothing converted. *)
Definition scan_decimal (t : list Z) : option (bool * Z * list Z) :=
  let t := (span isspace t).2 in
  let '(neg, t) := match t with
                   | c :: t' => if c =? ch "-" then (true, t') else if c =? ch "+" then (false, t') else (false, t)
                   | [] => (false, t)
                   end in
  let '(ds, rest) := span isdigit t in
  if bool_decide (ds = []) then None else Some (neg, dec_val 0 ds, rest).

(** [strtoul(t, nullptr, 10)] with a 32-bit [unsigned long]: saturating. *)
Definition strtoul10 (t : list Z) : Z :=
  match scan_decimal (c_str t) with
  | None => 0
  | Some (neg, v, _) => if v <? 2 ^ 32 then u32 (if neg : bool then - v else v) else 2 ^ 32 - 1
  end.

(** Elements between separators. *)
Fixpoint join (sep : list Z) (l : list (list Z)) : list Z :=
  match l with
  | [] => []
  | [x] => x
  | x :: l' => x ++ sep ++ join sep l'
  end.

(** ** Sorting and deduplication ([std::sort], [std::unique]) *)

(** Drop an element equal to the last one kept. *)
Fixpoint unique (l : list Z) : list Z :=
  match l with
  | x :: ((y :: _) as l') => if x =? y then unique l' else x :: unique l'
  | _ => l
  end.

Definition sort_unique (l : list Z) : list Z := unique (merge_sort Z.le l).

Lemma elem_of_unique x l : x ∈ unique l <-> x ∈ l.
Proof.
  induction l as [|y [|z l'] IH]; [done | done |].
  change (unique (y :: z :: l')) with
    (if y =? z then unique (z :: l') else y :: unique (z :: l')).
  destruct (Z.eqb_spec y z) as [->|Hne]; rewrite ?elem_of_cons, IH, ?elem_of_cons; tauto.
Qed.

Lemma elem_of_sort_unique x l : x ∈ sort_unique l <-> x ∈ l.
Proof.
  unfold sort_unique. rewrite elem_of_unique.
  by rewrite (merge_sort_Permutation Z.le l).
Qed.

Lemma unique_sorted l : StronglySorted Z.le l -> StronglySorted Z.lt (unique l).
Proof.
  induction l as [|y [|z l'] IH]; intros Hs; [by constructor | by repeat constructor |].
  change (unique (y :: z :: l')) with
    (if y =? z then unique (z :: l') else y :: unique (z :: l')).
  apply StronglySorted_inv in Hs as [Hs Hy].
  destruct (Z.eqb_spec y z) as [->|Hne]; [by apply IH |].
  constructor; [by apply IH |].
  apply Forall_forall. intros x Hx. rewrite elem_of_unique in Hx.
  apply StronglySorted_inv in Hs as [_ Hz].
  assert (Hyz : y <= z) by (by inversion Hy).
  apply elem_of_cons in Hx as [->|Hx]; [lia |].
  pose proof (proj1 (Forall_forall _ _) Hz x Hx). lia.
Qed.

(** The result of [std::sort] and [std::unique] is strictly increasing. *)
Lemma sort_unique_sorted l : StronglySorted Z.lt (sort_unique l).
Proof. apply unique_sorted, StronglySorted_merge_sort; apply _. Qed.

(** Two strictly increasing lists with the same elements are equal. *)
Lemma strictly_sorted_ext (l k : list Z) :
  StronglySorted Z.lt l -> StronglySorted Z.lt k ->
  (forall x, x ∈ l <-> x ∈ k) -> l = k.
Proof.
  revert k. induction l as [|x l IH]; intros [|y k] Hl Hk He.
  - done.
  - exfalso. apply (not_elem_of_nil y), He. left.
  - exfalso. apply (not_elem_of_nil x), He. left.
  - apply StronglySorted_inv in Hl as [Hl Hxl], Hk as [Hk Hyk].
    rewrite Forall_forall in Hxl, Hyk.
    assert (x = y) as ->.
    { pose proof (proj1 (He x) ltac:(left)) as H1.
      pose proof (proj2 (He y) ltac:(left)) as H2.
      apply elem_of_cons in H1 as [|H1], H2 as [|H2]; try done.
      specialize (Hxl y H2). specialize (Hyk x H1). lia. }
    f_equal. apply IH; [done | done |]. intros z.
    specialize (He z). rewrite !elem_of_cons in He.
    split; intros Hz.
    + destruct (proj1 He (or_intror Hz)) as [->|]; [|done]. specialize (Hxl y Hz). lia.
    + destruct (proj2 He (or_intror Hz)) as [->|]; [|done]. specialize (Hyk y Hz). lia.
Qed.

#[export] Hint Resolve sort_unique_sorted : slop.

(** ** Folds that may fail *)

Lemma foldl_bind_none {A S} (g : A -> S -> option S) (l : list A) :
  foldl (fun acc x => s ← acc; g x s) None l = None.
Proof. by induction l. Qed.

Fixpoint foldM {A S} (g : S -> A -> option S) (l : list A) (s : S) : option S :=
  match l with
  | [] => Some s
  | x :: l => s ← g s x; foldM g l s
  end.

(** A fold whose steps succeed and keep an invariant of the elements still ahead. *)
Lemma foldM_inv {A S} (g : S -> A -> option S) (I : list A -> S -> Prop) (l : list A) (s : S) :
  (forall x l s, I (x :: l) s -> exists s', g s x = Some s' /\ I l s') ->
  I l s -> exists s', foldM g l s = Some s' /\ I [] s'.
Proof.
  intros Step. revert s. induction l as [|x l IH]; intros s H; [by exists s|].
  destruct (Step x l s H) as (s1 & E & H1). cbn. rewrite E. by apply IH.
Qed.

(** ** Filters that keep all or nothing *)

Lemma filter_all {A} (q : A -> bool) (l : list A) : (forall x, x ∈ l -> q x = true) -> List.filter q l = l.
Proof. induction l as [|x l IH]; intros H; [done|]. cbn. rewrite (H x ltac:(left)), IH; [done|]. intros y Hy. apply H. by right. Qed.

Lemma filter_none {A} (q : A -> bool) (l : list A) : (forall x, x ∈ l -> q x = false) -> List.filter q l = [].
Proof. induction l as [|x l IH]; intros H; [done|]. cbn. rewrite (H x ltac:(left)). apply IH. intros y Hy. apply H. by right. Qed.

Lemma NoDup_join {A} (ls : list (list A)) :
  (forall i l, ls !! i = Some l -> NoDup l) ->
  (forall i j l k x, ls !! i = Some l -> ls !! j = Some k -> (i < j)%nat -> x ∈ l -> x ∈ k -> False) ->
  NoDup (mjoin ls).
Proof.
  induction ls as [|l ls IH]; intros N D; [constructor|]. cbn. apply NoDup_app. split_and!.
  - by apply (N 0%nat).
  - intros x Hx Hj. apply list_elem_of_join in Hj as (k & Hk & Hin). apply list_elem_of_lookup in Hin as [j Hj].
    apply (D 0%nat (S j) l k x); [done|done|lia|done|done].
  - apply IH; [intros i k; apply (N (S i))|]. intros i j k1 k2 x H1 H2 L1. apply (D (S i) (S j) k1 k2 x); [done|done|lia].
Qed.
