(* ===== verification/Reader.v ===== *)
(** * Reading the target: [reader_t], cancel tokens and [resilient_read]

    [Reader] is the interface of src/core/memory/reader.hpp; [ReaderOk] states its
    documented contract (all-or-nothing reads of one memory).  Components that read
    the target are proved against the interface; [Paged] implements it.  The
    bisecting read of src/core/memory/read_util.cpp is modelled with its explicit
    stack and proved to deliver exactly the readable blocks. *)

From S2P Require Import Prelude.

#[local] Open Scope Z_scope.

(** ** Cancel tokens *)

(** A token is watched by polling: [None] is never requested, [Some n] is found
    requested from the [n]-th following poll on. *)
Definition cancel_token_t : Type := option nat.

Definition cancelled (t : cancel_token_t) : bool * cancel_token_t :=
  match t with
  | None => (false, None)
  | Some O => (true, Some O)
  | Some (S n) => (false, Some n)
  end.

(** ** The reader interface *)

Class Reader (R : Type) := read : R -> Z -> Z -> option (list Z).

(** "Returns false if any part is unreadable. Partial reads never happen." *)
Class ReaderOk (R : Type) `{Reader R} := {
  mem : R -> Z -> option Z;
  read_spec r a n : read r a n = mapM (fun i => mem r (a + i)) (seqZ 0 n);
}.

(** ** [detail::resilient_read] *)

Record seg_t := mk_seg { seg_addr : Z; seg_len : Z }.

Definition rr_half (min_leaf len : Z) : Z :=
  Z.max (len / 2 / min_leaf * min_leaf) min_leaf.

Section ResilientRead.
Context {R : Type} `{Reader R} {S : Type}.
Variables (r : R) (sink : S -> Z -> list Z -> S) (min_leaf : Z).

(** The loop over the segment stack; [None] is fuel exhausted. *)
Fixpoint rr_loop (fuel : nat) (stack : list seg_t) (tok : cancel_token_t) (st : S)
  : option (S * cancel_token_t) :=
  match stack with
  | [] => Some (st, tok)
  | s :: stack' =>
      match fuel with
      | O => None
      | Datatypes.S fuel' =>
          let '(stop, tok') := cancelled tok in
          if stop then Some (st, tok')
          else match read r (seg_addr s) (seg_len s) with
               | Some data => rr_loop fuel' stack' tok' (sink st (seg_addr s) data)
               | None =>
                   if seg_len s <=? min_leaf then rr_loop fuel' stack' tok' st
                   else
                     let half := rr_half min_leaf (seg_len s) in
                     rr_loop fuel'
                       (mk_seg (u64 (seg_addr s + half)) (seg_len s - half)
                        :: mk_seg (seg_addr s) half :: stack') tok' st
               end
      end
  end.
End ResilientRead.

(** Iterations one segment can cost. *)
Definition rr_cost (len : Z) : nat := Z.to_nat (Z.max 1 (2 * len - 1)).

Definition resilient_read {R} `{Reader R} {S} (r : R) (addr len min_leaf : Z)
    (tok : cancel_token_t) (sink : S -> Z -> list Z -> S) (st : S)
    : option (S * cancel_token_t) :=
  let min_leaf := if min_leaf =? 0 then 1 else min_leaf in
  rr_loop r sink min_leaf (rr_cost len) [mk_seg addr len] tok st.

(** Memory regions as the scanners see them ([scan_region_t], memscan.hpp). *)
Record scan_region_t := mk_region {
  reg_base : Z; reg_size : Z; reg_protect : Z; reg_type : Z
}.

(** ** Lemmas of the reader interface *)

Section ReaderFacts.
Context {R : Type} `{ReaderOk R}.
Implicit Types (r : R) (a n : Z) (d : list Z).

Definition readable r a n : Prop := forall i, 0 <= i < n -> is_Some (mem r (a + i)).

Lemma read_Some r a n d :
  0 <= n ->
  read r a n = Some d <->
  zlen d = n /\ forall i, 0 <= i < n -> mem r (a + i) = d !! Z.to_nat i.
Proof.
  intros Hn. rewrite read_spec, mapM_Some, Forall2_lookup. split.
  - intros Hd. assert (length d = Z.to_nat n) as Hl.
    { rewrite <- (length_seqZ 0 n). symmetry. by eapply Forall2_length, Forall2_lookup. }
    split; [unfold zlen; lia |]. intros i Hi.
    specialize (Hd (Z.to_nat i)). rewrite lookup_seqZ_lt in Hd by lia.
    replace (0 + Z.of_nat (Z.to_nat i)) with i in Hd by lia.
    inversion Hd; congruence.
  - intros [Hl Hd] i. unfold zlen in Hl. destruct (decide (Z.of_nat i < n)) as [Hi|Hi].
    + rewrite lookup_seqZ_lt by lia. specialize (Hd (Z.of_nat i) ltac:(lia)).
      rewrite Nat2Z.id in Hd. destruct (lookup_lt_is_Some_2 d i) as [b Hb]; [lia |].
      rewrite Hb in *. by constructor.
    + rewrite lookup_seqZ_ge, lookup_ge_None_2 by lia. constructor.
Qed.

Lemma read_zlen r a n d : 0 <= n -> read r a n = Some d -> zlen d = n.
Proof. intros Hn Hd. by apply read_Some in Hd as [? _]. Qed.

Lemma read_mem r a n d i :
  read r a n = Some d -> 0 <= i < n -> mem r (a + i) = d !! Z.to_nat i.
Proof. intros Hd Hi. apply read_Some in Hd as [_ Hd]; [auto | lia]. Qed.

Lemma read_is_Some r a n : 0 <= n -> is_Some (read r a n) <-> readable r a n.
Proof.
  intros Hn. rewrite read_spec, mapM_is_Some, Forall_seqZ. unfold readable.
  split; intros Hr i Hi; apply Hr; lia.
Qed.

Lemma readable_sub r a n b m :
  readable r a n -> a <= b -> b + m <= a + n -> readable r b m.
Proof.
  intros Hr H1 H2 i Hi. replace (b + i) with (a + (b - a + i)) by lia. apply Hr; lia.
Qed.

Lemma read_sub r a n d o m :
  read r a n = Some d -> 0 <= o -> 0 <= m -> o + m <= n ->
  read r (a + o) m = Some (take (Z.to_nat m) (drop (Z.to_nat o) d)).
Proof.
  intros Hd Ho Hm Hom. pose proof (read_zlen r a n d ltac:(lia) Hd) as Hl. unfold zlen in Hl.
  apply read_Some; [done |]. split.
  - unfold zlen. rewrite length_take, length_drop. lia.
  - intros i Hi. rewrite lookup_take_lt, lookup_drop by lia.
    replace (a + o + i) with (a + (o + i)) by lia.
    rewrite (read_mem r a n d) by (done || lia). f_equal; lia.
Qed.
End ReaderFacts.

#[export] Hint Resolve read_zlen : slop.

(** ** What [resilient_read] delivers *)

Lemma rr_half_bounds ml len : 1 <= ml -> ml < len -> 1 <= rr_half ml len < len.
Proof.
  intros H1 H2. unfold rr_half.
  assert (len / 2 / ml * ml <= len / 2) by (rewrite Z.mul_comm; apply Z.mul_div_le; lia).
  assert (len / 2 < len) by (apply Z.div_lt; lia). lia.
Qed.

Lemma rr_half_multiple ml len : 1 <= ml -> rr_half ml len mod ml = 0.
Proof.
  intros H1. unfold rr_half.
  destruct (Z.max_spec (len / 2 / ml * ml) ml) as [[_ ->]|[_ ->]];
    [apply Z.mod_same; lia | apply Z.mod_mul; lia].
Qed.

Section Runs.
Context {R : Type} `{ReaderOk R}.
Variables (r : R) (ml : Z).
Hypothesis Hml : 1 <= ml.

(** The runs delivered for one segment, in delivery order. *)
Fixpoint rr_runs (fuel : nat) (addr len : Z) : list (Z * list Z) :=
  match fuel with
  | O => []
  | S f =>
      match read r addr len with
      | Some d => [(addr, d)]
      | None =>
          if len <=? ml then []
          else rr_runs f (u64 (addr + rr_half ml len)) (len - rr_half ml len)
               ++ rr_runs f addr (rr_half ml len)
      end
  end.

Definition seg_runs (s : seg_t) : list (Z * list Z) :=
  rr_runs (S (Z.to_nat (seg_len s))) (seg_addr s) (seg_len s).

Lemma rr_runs_fuel f g addr len :
  (Z.to_nat len < f)%nat -> (Z.to_nat len < g)%nat ->
  rr_runs f addr len = rr_runs g addr len.
Proof.
  revert g addr len. induction f as [|f IH]; intros g addr len Hf Hg; [lia |].
  destruct g as [|g]; [lia |]. cbn [rr_runs].
  destruct (read r addr len); [done |].
  destruct (Z.leb_spec len ml); [done |].
  pose proof (rr_half_bounds ml len). f_equal; apply IH; lia.
Qed.

Definition stack_cost (stack : list seg_t) : nat :=
  sum_list_with (fun s => rr_cost (seg_len s)) stack.

(** The loop feeds the sink a prefix of the runs, all of them without cancel. *)
Lemma rr_loop_runs {S} (sink : S -> Z -> list Z -> S) fuel stack tok st :
  (stack_cost stack <= fuel)%nat ->
  exists k tok',
    rr_loop r sink ml fuel stack tok st =
      Some (foldl (fun s '(a, d) => sink s a d) st (take k (concat (seg_runs <$> stack))), tok') /\
    (tok = None -> (length (concat (seg_runs <$> stack)) <= k)%nat /\ tok' = None).
Proof.
  revert stack tok st. induction fuel as [|fuel IH]; intros stack tok st Hc.
  - destruct stack as [|s stack]; [by exists 0%nat, tok |].
    unfold stack_cost, rr_cost in Hc. simpl in Hc. lia.
  - destruct stack as [|s stack]; [by exists 0%nat, tok |]. cbn [rr_loop].
    destruct (cancelled tok) as [stop tok1] eqn:Htok.
    assert (Hnone : tok = None -> stop = false /\ tok1 = None).
    { intros ->. simpl in Htok. by simplify_eq. }
    destruct stop.
    { exists 0%nat, tok1. split; [done |]. intros Ht. by destruct (Hnone Ht). }
    unfold stack_cost in Hc. cbn [sum_list_with] in Hc.
    rewrite fmap_cons. cbn [concat].
    unfold seg_runs at 1 3. cbn [rr_runs].
    destruct (read r (seg_addr s) (seg_len s)) as [d|].
    { destruct (IH stack tok1 (sink st (seg_addr s) d)) as (k & tok2 & -> & Hk).
      { unfold stack_cost, rr_cost in *. lia. }
      exists (Datatypes.S k), tok2. split; [done |].
      intros Ht. destruct (Hk (proj2 (Hnone Ht))). simpl. split; [lia | done]. }
    destruct (Z.leb_spec (seg_len s) ml).
    { destruct (IH stack tok1 st) as (k & tok2 & -> & Hk).
      { unfold stack_cost, rr_cost in *. lia. }
      exists k, tok2. split; [done |]. intros Ht. by apply Hk, Hnone. }
    pose proof (rr_half_bounds ml (seg_len s) Hml ltac:(lia)) as Hh.
    destruct (IH (mk_seg (u64 (seg_addr s + rr_half ml (seg_len s))) (seg_len s - rr_half ml (seg_len s))
                   :: mk_seg (seg_addr s) (rr_half ml (seg_len s)) :: stack) tok1 st)
      as (k & tok2 & -> & Hk).
    { unfold stack_cost, rr_cost in *. cbn [sum_list_with seg_len]. lia. }
    assert (Heq : concat (seg_runs <$>
              (mk_seg (u64 (seg_addr s + rr_half ml (seg_len s))) (seg_len s - rr_half ml (seg_len s))
                   :: mk_seg (seg_addr s) (rr_half ml (seg_len s)) :: stack))
            = (rr_runs (Z.to_nat (seg_len s)) (u64 (seg_addr s + rr_half ml (seg_len s)))
                  (seg_len s - rr_half ml (seg_len s)) ++
               rr_runs (Z.to_nat (seg_len s)) (seg_addr s) (rr_half ml (seg_len s))) ++
              concat (seg_runs <$> stack)).
    { rewrite !fmap_cons. cbn [concat]. unfold seg_runs at 1 2. cbn [seg_addr seg_len].
      rewrite <- app_assoc. f_equal; [apply rr_runs_fuel; lia |].
      f_equal. apply rr_runs_fuel; lia. }
    rewrite Heq in *. exists k, tok2. split; [done |].
    intros Ht. by apply Hk, Hnone.
Qed.

(** Every run is memory read inside the segment, when it does not wrap around the
    address space. *)
Lemma rr_runs_sound f addr len a d :
  0 <= addr -> 0 <= len -> addr + len <= 2 ^ 64 -> (a, d) ∈ rr_runs f addr len ->
  addr <= a /\ a + zlen d <= addr + len /\ read r a (zlen d) = Some d.
Proof.
  revert addr len. induction f as [|f IH]; intros addr len H1 Hl H2 Hin; [by apply elem_of_nil in Hin |].
  cbn [rr_runs] in Hin. destruct (read r addr len) as [d'|] eqn:Hr.
  - apply list_elem_of_singleton in Hin. simplify_eq.
    rewrite (read_zlen r addr len d' Hl Hr). repeat split; [lia | lia | done].
  - destruct (Z.leb_spec len ml); [by apply elem_of_nil in Hin |].
    pose proof (rr_half_bounds ml len Hml ltac:(lia)).
    rewrite wrap_small in Hin by (unfold is_word; lia).
    apply elem_of_app in Hin as [Hin|Hin]; apply IH in Hin as (? & ? & ?); repeat split; (done || lia).
Qed.

(** A readable block of the [ml] grid is inside a delivered run. *)
Lemma rr_runs_complete f addr len o :
  (Z.to_nat len < f)%nat -> 0 <= addr -> addr + len <= 2 ^ 64 -> 0 <= o < len -> o mod ml = 0 ->
  readable r (addr + o) (Z.min ml (len - o)) ->
  exists a d, (a, d) ∈ rr_runs f addr len /\
    a <= addr + o /\ addr + o + Z.min ml (len - o) <= a + zlen d.
Proof.
  revert addr len o. induction f as [|f IH]; intros addr len o Hf Ha Hw Ho Hmod Hr; [lia |].
  cbn [rr_runs]. destruct (read r addr len) as [d|] eqn:Hd.
  - exists addr, d. rewrite list_elem_of_singleton.
    rewrite (read_zlen r addr len d ltac:(lia) Hd). repeat split; lia.
  - destruct (Z.leb_spec len ml) as [Hle|Hlt].
    + exfalso. assert (o = 0) as ->.
      { rewrite Z.mod_small in Hmod; lia. }
      replace (addr + 0) with addr in Hr by lia. replace (Z.min ml (len - 0)) with len in Hr by lia.
      apply read_is_Some in Hr; [|lia]. rewrite Hd in Hr. by destruct Hr.
    + pose proof (rr_half_bounds ml len Hml Hlt) as Hh.
      pose proof (rr_half_multiple ml len Hml) as Hhm.
      rewrite wrap_small by (unfold is_word; lia). set (h := rr_half ml len) in *.
      apply Z.mod_divide in Hmod as [q Hq]; [|lia]. apply Z.mod_divide in Hhm as [p Hp]; [|lia].
      destruct (decide (o < h)) as [Hoh|Hoh].
      * assert (q + 1 <= p) as Hqp by nia. assert (ml <= h - o) as Hfit by nia.
        destruct (IH addr h o) as (a & d & Hin & H1 & H2);
          [lia | lia | lia | lia | by rewrite Hq, Z.mod_mul by lia | eapply readable_sub; [done | lia | lia] |].
        exists a, d. split; [apply elem_of_app; by right |]. lia.
      * destruct (IH (addr + h) (len - h) (o - h)) as (a & d & Hin & H1 & H2);
          [lia | lia | lia | lia | replace (o - h) with ((q - p) * ml) by lia; by rewrite Z.mod_mul by lia
          | eapply readable_sub; [done | lia | lia] |].
        exists a, d. split; [apply elem_of_app; by left |]. lia.
Qed.
End Runs.

(** The deliveries of one [resilient_read] call: a prefix of [runs_of]. *)
Definition runs_of {R} `{ReaderOk R} (r : R) (addr len min_leaf : Z) : list (Z * list Z) :=
  seg_runs r (if min_leaf =? 0 then 1 else min_leaf) (mk_seg addr len).

Lemma resilient_read_runs {R} `{ReaderOk R} {S} (r : R) addr len ml tok
    (sink : S -> Z -> list Z -> S) st :
  0 <= ml ->
  exists k tok',
    resilient_read r addr len ml tok sink st =
      Some (foldl (fun s '(a, d) => sink s a d) st (take k (runs_of r addr len ml)), tok') /\
    (tok = None -> (length (runs_of r addr len ml) <= k)%nat /\ tok' = None).
Proof.
  intros Hml. unfold resilient_read, runs_of.
  set (ml' := if ml =? 0 then 1 else ml).
  assert (1 <= ml') by (subst ml'; destruct (Z.eqb_spec ml 0); lia).
  destruct (rr_loop_runs r ml' ltac:(lia) sink (rr_cost len) [mk_seg addr len] tok st)
    as (k & tok' & Hk & Hn); [unfold stack_cost; simpl; lia |].
  simpl in Hk, Hn. rewrite app_nil_r in Hk, Hn. by exists k, tok'.
Qed.

Lemma resilient_read_all {R} `{ReaderOk R} {S} (r : R) addr len ml
    (sink : S -> Z -> list Z -> S) st :
  0 <= ml ->
  resilient_read r addr len ml None sink st =
    Some (foldl (fun s '(a, d) => sink s a d) st (runs_of r addr len ml), None).
Proof.
  intros Hml. destruct (resilient_read_runs r addr len ml None sink st Hml) as (k & t & -> & Hk).
  destruct (Hk eq_refl) as [Hl ->]. by rewrite take_ge by lia.
Qed.

Lemma runs_read {R} `{ReaderOk R} (r : R) addr len ml a d k :
  0 <= addr -> 0 <= len -> addr + len <= 2 ^ 64 -> 0 <= ml -> (a, d) ∈ take k (runs_of r addr len ml) ->
  addr <= a /\ a + zlen d <= addr + len /\ read r a (zlen d) = Some d.
Proof.
  intros Ha Hlen Hw Hml Hin. apply (subseteq_take k (runs_of r addr len ml)) in Hin.
  unfold runs_of, seg_runs in Hin. eapply rr_runs_sound; [| exact Ha | exact Hlen | exact Hw | exact Hin].
  destruct (Z.eqb_spec ml 0); lia.
Qed.

(** ** A reader over mapped segments (the tests' [fake_reader_t]) *)

Module Paged.
(** Disjoint [(base, bytes)] segments of mapped memory; the first match wins. *)
Definition t : Type := list (Z * list Z).

Fixpoint byte_of (m : t) (a : Z) : option Z :=
  match m with
  | [] => None
  | (b, d) :: m' =>
      if (b <=? a) && (a <? b + zlen d) then d !! Z.to_nat (a - b) else byte_of m' a
  end.

#[global] Instance reader : Reader t :=
  fun m a n => mapM (fun i => byte_of m (a + i)) (seqZ 0 n).

#[global] Instance reader_ok : ReaderOk t :=
  {| mem := byte_of; read_spec := fun _ _ _ => eq_refl |}.
End Paged.

(** The sink that keeps every run it is given. *)
Definition collect (l : list (Z * list Z)) (a : Z) (d : list Z) : list (Z * list Z) := l ++ [(a, d)].

Lemma foldl_collect runs acc :
  foldl (fun s '(a, d) => collect s a d) acc runs = acc ++ runs.
Proof.
  revert acc. induction runs as [|[a d] runs IH]; intros acc; simpl; [by rewrite app_nil_r |].
  rewrite IH. unfold collect. by rewrite <- app_assoc.
Qed.

(** C17: for a range that does not wrap around the 64-bit address space, and a leaf
    of at least one byte, the uncancelled bisecting read returns;
    the sink receives only data that one read of that run inside the requested
    range returns, and every readable block of the leaf grid is inside one of
    the runs, whatever the unreadable holes around it are. *)
Theorem resilient_read_delivers {R} `{ReaderOk R} (r : R) addr len ml :
  0 <= addr -> 0 <= len -> addr + len <= 2 ^ 64 -> 1 <= ml ->
  exists runs, resilient_read r addr len ml None collect [] = Some (runs, None) /\
    (forall a d, (a, d) ∈ runs ->
       addr <= a /\ a + zlen d <= addr + len /\ read r a (zlen d) = Some d) /\
    (forall o, 0 <= o < len -> o mod ml = 0 ->
       readable r (addr + o) (Z.min ml (len - o)) ->
       exists a d, (a, d) ∈ runs /\
         a <= addr + o /\ addr + o + Z.min ml (len - o) <= a + zlen d).
Proof.
  intros Ha Hlen Hw Hml. exists (runs_of r addr len ml).
  rewrite resilient_read_all, foldl_collect by lia. split; [done |].
  unfold runs_of. destruct (Z.eqb_spec ml 0); [lia |]. split.
  - intros a d. apply rr_runs_sound; (done || lia).
  - intros o Ho. apply rr_runs_complete; simpl; (done || lia).
Qed.

Lemma resilient_read_delivers_witness :
  exists runs, resilient_read ([(16, [1; 2; 3]); (21, [6; 7; 8])] : Paged.t) 16 8 1 None collect []
    = Some (runs, None) /\
    (forall a d, (a, d) ∈ runs ->
       16 <= a /\ a + zlen d <= 16 + 8 /\
       read ([(16, [1; 2; 3]); (21, [6; 7; 8])] : Paged.t) a (zlen d) = Some d) /\
    (forall o, 0 <= o < 8 -> o mod 1 = 0 ->
       readable ([(16, [1; 2; 3]); (21, [6; 7; 8])] : Paged.t) (16 + o) (Z.min 1 (8 - o)) ->
       exists a d, (a, d) ∈ runs /\
         a <= 16 + o /\ 16 + o + Z.min 1 (8 - o) <= a + zlen d).
Proof. apply (resilient_read_delivers ([(16, [1; 2; 3]); (21, [6; 7; 8])] : Paged.t) 16 8 1); lia. Defined.
