(* ===== verification/Aob.v ===== *)
(** * Byte-pattern scanning: src/core/memory/aob.cpp

    The pattern compiler, the masked matcher, the pattern printer and the chunked
    region scan with its resilient fallback.  Worker threads claim spans from a
    shared counter; a run of the pool is given by its schedule (the spans every
    worker claimed, workers in the order they merge), and the theorems hold for
    every schedule. *)

From S2P Require Import Prelude Reader.

#[local] Open Scope Z_scope.

(** ** Patterns *)

Record aob_pattern_t := mk_pattern { bytes : list Z; nibble_mask : list Z }.

Definition psize (p : aob_pattern_t) : Z := zlen (bytes p).

#[export] Instance aob_pattern_eq_dec : EqDecision aob_pattern_t.
Proof. solve_decision. Defined.

Definition has_wildcards (p : aob_pattern_t) : bool :=
  existsb (fun m => negb (m =? 255)) (nibble_mask p).

Definition hex_val (c : Z) : Z :=
  if (ch "0" <=? c) && (c <=? ch "9") then c - ch "0"
  else if (ch "a" <=? c) && (c <=? ch "f") then c - ch "a" + 10
  else if (ch "A" <=? c) && (c <=? ch "F") then c - ch "A" + 10
  else -1.

(** ** [aob_compile] *)

Definition is_sep (c : Z) : bool := (c =? ch " ") || (c =? 9) || (c =? ch ",").

Fixpoint tokenize (text cur : list Z) (tokens : list (list Z)) : list (list Z) :=
  match text with
  | [] => match cur with [] => tokens | _ => tokens ++ [cur] end
  | c :: text' =>
      if is_sep c then
        match cur with
        | [] => tokenize text' [] tokens
        | _ => tokenize text' [] (tokens ++ [cur])
        end
      else tokenize text' (cur ++ [c]) tokens
  end.

Definition has_0x (t : list Z) : bool := starts_with (bs "0x") t || starts_with (bs "0X") t.

Definition is_wild (c : Z) : bool := (c =? ch "?") || (c =? ch "*").

Definition bad_token (t : list Z) : list Z := bs "bad token '" ++ t ++ bs "'".

(** The compact form: two hex digits per byte. *)
Fixpoint compact_bytes (t : list Z) : list Z :=
  match t with
  | a :: b :: t' => u8 (Z.lor (Z.shiftl (hex_val a) 4) (hex_val b)) :: compact_bytes t'
  | _ => []
  end.

Definition compact (tokens : list (list Z)) (has_wild : bool) : option aob_pattern_t :=
  match tokens with
  | [t0] =>
      if has_wild then None
      else
        let t := if (2 <? zlen t0) && has_0x t0 then drop 2 t0 else t0 in
        let all_hex := negb (bool_decide (t = [])) && forallb isxdigit t in
        if (2 <? zlen t) && (zlen t mod 2 =? 0) && all_hex
        then Some (mk_pattern (compact_bytes t) (replicate (length (compact_bytes t)) 255))
        else None
  | _ => None
  end.

(** One token of the general form: the byte and its nibble mask, or the error. *)
Definition parse_token (t0 : list Z) : list Z + (Z * Z) :=
  let t := if has_0x t0 then drop 2 t0 else t0 in
  match t with
  | [] => inl (bs "empty token")
  | c0 :: rest =>
      if bool_decide (t = bs "??") || bool_decide (t = bs "*") || bool_decide (t = bs "?")
      then inr (0, 0)
      else if 2 <? zlen t then inl (bad_token t)
      else
        let mask := 0 in
        let hi := if is_wild c0 then -1 else hex_val c0 in
        if negb (is_wild c0) && (hi <? 0) then inl (bad_token t)
        else
          let mask := if is_wild c0 then Z.land mask 15 else Z.lor mask 240 in
          let put lo mask :=
            inr (u8 (Z.lor (Z.shiftl (if hi <? 0 then 0 else hi) 4) (if lo <? 0 then 0 else lo)),
                 mask) in
          match rest with
          | c1 :: _ =>
              if is_wild c1 then put (-1) (Z.land mask 240)
              else
                let lo := hex_val c1 in
                if lo <? 0 then inl (bad_token t) else put lo (Z.lor mask 15)
          | [] => put (-1) 15
          end
  end.

Fixpoint parse_tokens (tokens : list (list Z)) (p : aob_pattern_t) : list Z + aob_pattern_t :=
  match tokens with
  | [] => inr p
  | t :: tokens' =>
      match parse_token t with
      | inl e => inl e
      | inr (b, m) => parse_tokens tokens' (mk_pattern (bytes p ++ [b]) (nibble_mask p ++ [m]))
      end
  end.

Definition aob_compile (text : list Z) : list Z + aob_pattern_t :=
  let tokens := tokenize text [] [] in
  match tokens with
  | [] => inl (bs "empty pattern")
  | _ =>
      let has_wild := existsb is_wild text in
      match compact tokens has_wild with
      | Some p => inr p
      | None =>
          match parse_tokens tokens (mk_pattern [] []) with
          | inl e => inl e
          | inr p => if bool_decide (bytes p = []) then inl (bs "empty pattern") else inr p
          end
      end
  end.

(** ** Matching and printing *)

Fixpoint match_cells (ps ms data : list Z) : bool :=
  match ps, ms, data with
  | [], _, _ => true
  | b :: ps', m :: ms', d :: data' =>
      ((m =? 0) || (Z.land d m =? Z.land b m)) && match_cells ps' ms' data'
  | _, _, _ => false
  end.

Definition aob_match (p : aob_pattern_t) (data : list Z) : bool :=
  if (psize p =? 0) || (zlen data <? psize p) then false
  else match_cells (bytes p) (nibble_mask p) data.

Definition aob_contains (p : aob_pattern_t) (data : list Z) : bool :=
  if (psize p =? 0) || (zlen data <? psize p) then false
  else existsb (fun off => aob_match p (drop off data)) (seq 0 (S (length data - length (bytes p)))).

Definition cell_text (b m : Z) : list Z :=
  if m =? 255 then hex2 b
  else if m =? 240 then [hex_digit (Z.land (Z.shiftr b 4) 15); ch "?"]
  else if m =? 15 then [ch "?"; hex_digit (Z.land b 15)]
  else bs "??".

Definition aob_to_string (p : aob_pattern_t) : list Z :=
  join (bs " ") (zip_with cell_text (bytes p) (nibble_mask p)).

Definition aob_from_bytes (data : list Z) : list Z := join (bs " ") (hex2 <$> data).

(** ** [aob_scan] *)

Record aob_scan_options_t := mk_opts {
  alignment : Z; opt_max_results : Z; opt_chunk_bytes : Z
}.

Record aob_stats_t := mk_stats {
  bytes_scanned : Z; stat_matches : Z; truncated : bool; stat_cancelled : bool
}.

Definition max_aob_matches : Z := 100000.
Definition scan_chunk_bytes : Z := 1048576.

(** What one worker accumulates. *)
Record worker_t := mk_worker { local_matches : list Z; local_bytes : Z; w_truncated : bool }.

Definition worker0 : worker_t := mk_worker [] 0 false.

Definition push_match (max_results a : Z) (w : worker_t) : worker_t :=
  if zlen (local_matches w) <? max_results
  then mk_worker (local_matches w ++ [a]) (local_bytes w) (w_truncated w)
  else mk_worker (local_matches w) (local_bytes w) true.

(** [for (a = base; a <= last; a += align)] over one buffer. *)
Definition steps (align base last : Z) : list Z :=
  if last <? base then [] else (fun i => align * i) <$> seqZ 0 ((last - base) / align + 1).

Section Scan.
Context {R : Type} `{Reader R}.
Variables (r : R) (p : aob_pattern_t) (align chunk max_results : Z).

Definition scan_buffer (base last : Z) (data : list Z) (w : worker_t) : worker_t :=
  foldl (fun w o => if aob_match p (drop (Z.to_nat o) data)
                    then push_match max_results (base + o) w else w)
        w (steps align base last).

Definition add_bytes (n : Z) (w : worker_t) : worker_t :=
  mk_worker (local_matches w) (u64 (local_bytes w + n)) (w_truncated w).

(** The sink of the resilient fallback. *)
Definition fallback_sink (w : worker_t) (run_addr : Z) (data : list Z) : worker_t :=
  let w := add_bytes (zlen data) w in
  if zlen data <? psize p then w
  else scan_buffer run_addr (run_addr + zlen data - psize p) data w.

(** The chunk loop over one span; [None] is fuel exhausted. *)
Fixpoint scan_span (fuel : nat) (s_end cursor : Z) (tok : cancel_token_t) (w : worker_t)
  : option (worker_t * cancel_token_t) :=
  if u64 (cursor + psize p) <=? s_end then
    match fuel with
    | O => None
    | S fuel' =>
        let '(stop, tok1) := cancelled tok in
        if stop then Some (w, tok1)
        else
          let want := Z.min chunk (u64 (s_end - cursor)) in
          match read r cursor want with
          | None =>
              match resilient_read r cursor want 4096 tok1 fallback_sink w with
              | None => None
              | Some (w', tok2) => scan_span fuel' s_end (u64 (cursor + want)) tok2 w'
              end
          | Some data =>
              let w1 := add_bytes want w in
              let scan_end := u64 (cursor + want - psize p) in
              let w2 := scan_buffer cursor scan_end data w1 in
              let back := Z.min (psize p - 1) (u64 (want - 1)) in
              scan_span fuel' s_end (u64 (cursor + (want - back))) tok1 w2
          end
    end
  else Some (w, tok).

(** A worker's pass over the spans it claimed. *)
Fixpoint run_worker (spans : list (Z * Z)) (claims : list nat) (tok : cancel_token_t)
    (w : worker_t) : option worker_t :=
  match claims with
  | [] => Some w
  | si :: claims' =>
      let '(stop, tok1) := cancelled tok in
      if stop then Some w
      else match spans !! si with
           | None => Some w
           | Some (b, e) =>
               match scan_span (S (Z.to_nat (e - b))) e b tok1 w with
               | None => None
               | Some (w', tok2) => run_worker spans claims' tok2 w'
               end
           end
  end.
End Scan.

Definition region_spans (p : aob_pattern_t) (align : Z) (regions : list scan_region_t)
  : list (Z * Z) :=
  omap (fun reg =>
    if reg_size reg <? psize p then None
    else
      let b := u64 (u64 (reg_base reg + align - 1) / align * align) in
      let e := u64 (reg_base reg + reg_size reg) in
      if e <=? b then None else Some (b, e)) regions.

(** The merge under the mutex. *)
Fixpoint merge_matches (max_results : Z) (ms matches : list Z) : list Z * bool :=
  match ms with
  | [] => (matches, false)
  | m :: ms' =>
      if max_results <=? zlen matches then (matches, true)
      else merge_matches max_results ms' (matches ++ [m])
  end.

Fixpoint merge_workers (max_results : Z) (ws : list worker_t) (matches : list Z) (n : Z) (t : bool)
  : list Z * Z * bool :=
  match ws with
  | [] => (matches, n, t)
  | w :: ws' =>
      let '(matches', t') := merge_matches max_results (local_matches w) matches in
      merge_workers max_results ws' matches' (u64 (n + local_bytes w)) (t || w_truncated w || t')
  end.

(** [sched]: what every worker claimed and the token it polls; [stop]: the token
    at the final poll. *)
Definition aob_scan {R} `{Reader R} (r : R) (regions : list scan_region_t) (p : aob_pattern_t)
    (opt : aob_scan_options_t) (sched : list (list nat * cancel_token_t)) (stop : bool)
  : option (list Z * aob_stats_t) :=
  if psize p =? 0 then Some ([], mk_stats 0 0 false false)
  else
    let max_results := if opt_max_results opt =? 0 then max_aob_matches else opt_max_results opt in
    let chunk := if opt_chunk_bytes opt =? 0 then scan_chunk_bytes else opt_chunk_bytes opt in
    let align := Z.max (if alignment opt =? 0 then 1 else alignment opt) 1 in
    let spans := region_spans p align regions in
    ws ← mapM (fun '(claims, tok) => run_worker r p align chunk max_results spans claims tok worker0)
              sched;
    let '(matches, n, t) := merge_workers max_results ws [] 0 false in
    let matches := sort_unique matches in
    Some (matches, mk_stats n (zlen matches) t stop).

(** ** Lemmas of the scan *)

(** A pattern as the compiler builds it: one mask per byte. *)
Definition cell_mask_ok (m : Z) : Prop := m = 255 \/ m = 240 \/ m = 15 \/ m = 0.

Definition pattern_ok (p : aob_pattern_t) : Prop :=
  length (nibble_mask p) = length (bytes p) /\ bytes p <> [] /\
  bytes_ok (bytes p) /\ Forall cell_mask_ok (nibble_mask p).

Lemma match_cells_take ps ms data :
  match_cells ps ms (take (length ps) data) = match_cells ps ms data.
Proof.
  revert ms data. induction ps as [|b ps IH]; intros [|m ms] [|d data]; simpl; try done.
  by rewrite IH.
Qed.

Lemma aob_match_take p data n :
  psize p <= Z.of_nat n -> (n <= length data)%nat -> aob_match p (take n data) = aob_match p data.
Proof.
  unfold aob_match, psize, zlen. intros Hp Hn. rewrite length_take.
  destruct (Z.eqb_spec (Z.of_nat (length (bytes p))) 0); [done |]. simpl.
  destruct (Z.ltb_spec (Z.of_nat (n `min` length data)) (Z.of_nat (length (bytes p)))); [lia |].
  destruct (Z.ltb_spec (Z.of_nat (length data)) (Z.of_nat (length (bytes p)))); [lia |].
  rewrite <- match_cells_take, take_take, Nat.min_l by lia. apply match_cells_take.
Qed.

Lemma steps_elem align base last o :
  1 <= align ->
  o ∈ steps align base last <-> 0 <= o /\ base + o <= last /\ o mod align = 0.
Proof.
  intros Ha. unfold steps. destruct (Z.ltb_spec last base) as [Hlt|Hge].
  { rewrite elem_of_nil. split; [done |]. intros (? & ? & ?). lia. }
  rewrite list_elem_of_fmap. split.
  - intros (i & -> & Hi). apply elem_of_seqZ in Hi.
    assert (i <= (last - base) / align) as Hle by lia.
    pose proof (Z.mul_div_le (last - base) align ltac:(lia)).
    rewrite Z.mul_comm, Z.mod_mul by lia. repeat split; nia.
  - intros (H0 & H1 & H2). apply Z.mod_divide in H2 as [q ->]; [|lia].
    exists q. split; [lia |]. apply elem_of_seqZ. split; [nia |].
    assert (q <= (last - base) / align); [|lia]. apply Z.div_le_lower_bound; lia.
Qed.

Abbreviation adds := (appends local_matches w_truncated).

Section ScanFacts.
Context {R : Type} `{ReaderOk R}.
Variables (r : R) (p : aob_pattern_t) (align chunk max_results : Z).

(** The pattern is in memory at [a]. *)
Definition hit (a : Z) : Prop :=
  exists d, read r a (psize p) = Some d /\ aob_match p d = true.

Lemma push_adds (Q : Z -> Prop) a w :
  Q a -> adds Q (fun x => x = a) w (push_match max_results a w).
Proof.
  intros HQ. unfold push_match. destruct (Z.ltb_spec (zlen (local_matches w)) max_results).
  - exists [a]. split; [done |]. split; [by repeat constructor |].
    intros Ht. split; [done |]. intros x ->. by left.
  - exists []. rewrite app_nil_r. split; [done |]. split; [by constructor |]. done.
Qed.

Lemma add_bytes_adds Q n w : adds Q (fun _ => False) w (add_bytes n w).
Proof. exists []. rewrite app_nil_r. by split_and!. Qed.

(** One buffer: the hits on the step grid. *)
Lemma scan_buffer_adds base len data w :
  1 <= align -> 0 < psize p -> psize p <= len -> read r base len = Some data ->
  adds (fun a => base <= a /\ a + psize p <= base + len /\ hit a)
       (fun a => base <= a /\ a + psize p <= base + len /\ (a - base) mod align = 0 /\ hit a)
       w (scan_buffer p align max_results base (base + len - psize p) data w).
Proof.
  intros Ha Hp Hlen Hd. unfold scan_buffer.
  assert (Hm : forall o, 0 <= o -> o + psize p <= len ->
            hit (base + o) <-> aob_match p (drop (Z.to_nat o) data) = true).
  { intros o Ho1 Ho2. pose proof (read_zlen r base len data ltac:(lia) Hd) as Hz.
    unfold hit. rewrite (read_sub r base len data o (psize p)) by (done || lia).
    unfold zlen in Hz. split.
    - intros (d & Hd' & Hm). simplify_eq.
      rewrite aob_match_take in Hm; [done | lia | rewrite length_drop; lia].
    - intros Hm. eexists. split; [done |].
      rewrite aob_match_take; [done | lia | rewrite length_drop; lia]. }
  assert (Hgen : forall os w,
    Forall (fun o => 0 <= o /\ o + psize p <= len) os ->
    adds (fun a => base <= a /\ a + psize p <= base + len /\ hit a)
         (fun a => (a - base) ∈ os /\ hit a) w
      (foldl (fun w o => if aob_match p (drop (Z.to_nat o) data)
                         then push_match max_results (base + o) w else w) w os)).
  { intros os. induction os as [|o os IH]; intros w' Hos; simpl.
    - apply adds_refl. intros a [Hin _]. by apply elem_of_nil in Hin.
    - apply Forall_cons in Hos as [[Ho1 Ho2] Hos]. specialize (Hm o Ho1 Ho2).
      eapply (adds_trans _ _ _ (fun a => a = base + o /\ hit a)); [| by apply IH |].
      + destruct (aob_match p (drop (Z.to_nat o) data)) eqn:Hmo.
        * eapply adds_weaken; [intros x Hx; exact Hx | | apply push_adds]; [by intros a [-> _] |].
          simpl. split; [lia |]. split; [lia |]. by apply Hm.
        * apply adds_refl. intros a [-> Hhit]. by apply Hm in Hhit.
      + intros a [Hin Hhit]. apply elem_of_cons in Hin as [Heq|Hin]; [left | by right].
        split; [lia | done]. }
  eapply adds_weaken; [intros x Hx; exact Hx | | apply Hgen].
  - intros a (H1 & H2 & H3 & H4). split; [|done]. apply steps_elem; [done |]. lia.
  - apply Forall_forall. intros o Ho. apply steps_elem in Ho; lia.
Qed.

Lemma fallback_adds runs w :
  1 <= align -> 0 < psize p ->
  (forall a d, (a, d) ∈ runs -> read r a (zlen d) = Some d) ->
  adds (fun a => (exists b d, (b, d) ∈ runs /\ b <= a /\ a + psize p <= b + zlen d) /\ hit a)
       (fun _ => False) w
       (foldl (fun w '(a, d) => fallback_sink p align max_results w a d) w runs).
Proof.
  intros Ha Hp. revert w. induction runs as [|[b d] runs IH]; intros w Hr; simpl.
  { apply adds_refl. tauto. }
  eapply (adds_trans _ _ _ (fun _ => False) (fun _ => False) _ _
            (fallback_sink p align max_results w b d)); [| | tauto].
  - unfold fallback_sink.
    destruct (Z.ltb_spec (zlen d) (psize p)) as [Hlt|Hge]; [by apply add_bytes_adds |].
    eapply (adds_trans _ _ _ (fun _ => False) (fun _ => False) _ _ (add_bytes (zlen d) w));
      [by apply add_bytes_adds | | tauto].
    eapply adds_weaken; [| | apply (scan_buffer_adds b (zlen d) d)];
      try done; [| apply Hr; by left].
    intros a (H1 & H2 & H3). split; [|done]. exists b, d. split; [by left | lia].
  - eapply adds_weaken; [| | apply IH]; [| done |].
    + intros a [(b' & d' & Hin & Hx) Hh]. split; [|done]. exists b', d'. split; [by right | done].
    + intros a' d' Hin. apply Hr. by right.
Qed.
End ScanFacts.

Section ScanSpan.
Context {R : Type} `{ReaderOk R}.
Variables (r : R) (p : aob_pattern_t) (align chunk max_results : Z).
Hypothesis Halign : 1 <= align.
Hypothesis Hp : 0 < psize p.
Hypothesis Hchunk : psize p <= chunk.

(** What a complete pass over [from, to) must find. *)
Definition wanted (tok : cancel_token_t) (from to a : Z) : Prop :=
  tok = None /\ align = 1 /\ readable r from (to - from) /\
  from <= a /\ a + psize p <= to /\ hit r p a.


Lemma scan_span_adds fuel s_end cursor tok w :
  0 <= cursor -> cursor <= s_end -> s_end + psize p < 2 ^ 64 ->
  (Z.to_nat (s_end - cursor) < fuel)%nat ->
  exists w' tok',
    scan_span r p align chunk max_results fuel s_end cursor tok w = Some (w', tok') /\
    adds (fun a => cursor <= a /\ a + psize p <= s_end /\ hit r p a)
         (wanted tok cursor s_end) w w' /\
    (tok = None -> tok' = None).
Proof using Halign Hp Hchunk.
  revert cursor tok w. induction fuel as [|fuel IH]; intros cursor tok w H1 H2 H3 Hf; [lia |].
  cbn [scan_span]. rewrite (wrap_small 64 (cursor + psize p)) by (unfold is_word; lia).
  destruct (Z.leb_spec (cursor + psize p) s_end) as [Hin|Hout].
  2: { exists w, tok. split; [done |]. split; [|done].
       apply adds_refl. unfold wanted. intros a Ha. lia. }
  destruct (cancelled tok) as [stop tok1] eqn:Htok.
  assert (Hnone : tok = None -> stop = false /\ tok1 = None).
  { intros ->. simpl in Htok. by simplify_eq. }
  destruct stop.
  { exists w, tok1. split; [done |]. split; [| by intros ->; destruct (Hnone eq_refl)].
    apply adds_refl. intros a [-> _]. by destruct (Hnone eq_refl). }
  rewrite (wrap_small 64 (s_end - cursor)) by (unfold is_word; lia).
  set (want := Z.min chunk (s_end - cursor)).
  assert (Hw : psize p <= want <= s_end - cursor) by (unfold want; lia).
  destruct (read r cursor want) as [data|] eqn:Hread.
  - rewrite (wrap_small 64 (cursor + want - psize p)) by (unfold is_word; lia).
    rewrite (wrap_small 64 (want - 1)) by (unfold is_word; lia).
    set (back := Z.min (psize p - 1) (want - 1)).
    assert (Hback : back = psize p - 1) by (unfold back; lia).
    rewrite (wrap_small 64 (cursor + (want - back))) by (unfold is_word; lia).
    set (w2 := scan_buffer _ _ _ _ _ _ _).
    destruct (IH (cursor + (want - back)) tok1 w2) as (w' & tok' & -> & Hadds & Ht); try lia.
    exists w', tok'. split; [done |]. split; [| by intros ->; destruct (Hnone eq_refl); auto].
    eapply (adds_trans _ _ _ (fun a => tok = None /\ align = 1 /\ cursor <= a /\
                             a + psize p <= cursor + want /\ hit r p a) _ _ _ w2).
    + eapply (adds_trans _ _ _ (fun _ => False) _ _ _ (add_bytes want w));
        [apply add_bytes_adds | | intros a Ha; right; exact Ha].
      eapply adds_weaken; [| | apply (scan_buffer_adds r p align max_results cursor want data);
                               (done || lia)].
      * bounds.
      * simpl. intros a (_ & -> & Ha). rewrite Z.mod_1_r. tauto.
    + eapply adds_weaken; [| | exact Hadds]; [bounds | intros a Ha; exact Ha].
    + unfold wanted. intros a (-> & -> & Hrd & Ha1 & Ha2 & Hh).
      destruct (decide (a + psize p <= cursor + want)); [left; done | right].
      split; [by destruct (Hnone eq_refl) |]. split; [done |].
      split; [eapply readable_sub; [exact Hrd | lia | lia] |]. repeat split; (done || lia).
  - destruct (resilient_read_runs r cursor want 4096 tok1
                (fallback_sink p align max_results) w) as (k & tok2 & -> & Hk); [lia |].
    rewrite (wrap_small 64 (cursor + want)) by (unfold is_word; lia).
    set (w1 := foldl _ _ _).
    destruct (IH (cursor + want) tok2 w1) as (w' & tok' & -> & Hadds & Ht); try lia.
    exists w', tok'. split; [done |]. split.
    2: { intros Hn. apply Ht. by apply Hk, Hnone. }
    eapply (adds_trans _ _ _ (fun _ => False) (fun _ => False) _ _ w1).
    + eapply adds_weaken; [| intros a Ha; exact Ha | apply fallback_adds; [done | done |]].
      * simpl. intros a [(b & d & Hbd & Hx) Hh].
        apply runs_read in Hbd as (? & ? & _); [|lia..]. split_and!; (done || lia).
      * intros a d Hbd. by apply runs_read in Hbd as (? & ? & ?); [|lia..].
    + eapply adds_weaken; [| | exact Hadds]; [bounds | done].
    + unfold wanted. intros a (-> & -> & Hrd & _). exfalso.
      assert (is_Some (read r cursor want)) as [d Hd]; [| congruence].
      apply read_is_Some; [lia |]. eapply readable_sub; [exact Hrd | lia | lia].
Qed.

(** A worker over its claims. *)
Definition span_ok (s : Z * Z) : Prop := 0 <= s.1 /\ s.1 <= s.2 /\ s.2 + psize p < 2 ^ 64.

Lemma run_worker_adds spans claims tok w :
  Forall span_ok spans -> (forall i, i ∈ claims -> (i < length spans)%nat) ->
  exists w', run_worker r p align chunk max_results spans claims tok w = Some w' /\
    adds (fun a => exists s, s ∈ spans /\ s.1 <= a /\ a + psize p <= s.2 /\ hit r p a)
         (fun a => exists i s, i ∈ claims /\ spans !! i = Some s /\ wanted tok s.1 s.2 a) w w'.
Proof using Halign Hp Hchunk.
  intros Hs. revert tok w. induction claims as [|i claims IH]; intros tok w Hc; cbn [run_worker].
  { exists w. split; [done |]. apply adds_refl. intros a (i & s & Hi & _).
    by apply elem_of_nil in Hi. }
  destruct (cancelled tok) as [stop tok1] eqn:Htok.
  assert (Hnone : tok = None -> stop = false /\ tok1 = None).
  { intros ->. simpl in Htok. by simplify_eq. }
  destruct stop.
  { exists w. split; [done |]. apply adds_refl.
    intros a (j & s & _ & _ & -> & _). by destruct (Hnone eq_refl). }
  destruct (lookup_lt_is_Some_2 spans i) as [[b e] Hbe]; [apply Hc; by left |].
  rewrite Hbe. assert (Hin : (b, e) ∈ spans) by (by eapply list_elem_of_lookup_2).
  pose proof (proj1 (Forall_forall _ _) Hs _ Hin) as (Hb & He & Hov). cbn [fst snd] in Hb, He, Hov.
  destruct (scan_span_adds (S (Z.to_nat (e - b))) e b tok1 w) as (w1 & tok2 & -> & Ha & Ht);
    try lia.
  destruct (IH tok2 w1) as (w' & -> & Hadds); [intros j Hj; apply Hc; by right |].
  exists w'. split; [done |].
  eapply (adds_trans _ _ _ (wanted tok1 b e) _ _ _ w1); [| exact Hadds |].
  - eapply adds_weaken; [| | exact Ha]; [| intros a Hx; exact Hx].
    simpl. intros a Hx. by exists (b, e).
  - intros a (j & s & Hj & Hsj & Hw). assert (tok = None) as -> by apply Hw.
    destruct (Hnone eq_refl) as [_ ->]. rewrite (Ht eq_refl).
    apply elem_of_cons in Hj as [->|Hj]; [left | right; by exists j, s].
    rewrite Hbe in Hsj. by simplify_eq.
Qed.
End ScanSpan.

Lemma merge_matches_spec mx ms acc ms' t :
  merge_matches mx ms acc = (ms', t) ->
  (forall a, a ∈ ms' -> a ∈ acc \/ a ∈ ms) /\
  (t = false -> forall a, a ∈ acc \/ a ∈ ms -> a ∈ ms').
Proof.
  revert acc. induction ms as [|m ms IH]; intros acc; simpl.
  - intros [= -> ->]. split; [auto |]. intros _ a [?|Ha]; [done | by apply elem_of_nil in Ha].
  - destruct (mx <=? zlen acc).
    + intros [= -> <-]. split; [auto | done].
    + intros Hm. apply IH in Hm as [H1 H2]. split.
      * intros a Ha. apply H1 in Ha. rewrite elem_of_app, list_elem_of_singleton in Ha.
        rewrite elem_of_cons. tauto.
      * intros Ht a Ha. apply H2; [done |]. rewrite elem_of_app, list_elem_of_singleton.
        rewrite elem_of_cons in Ha. tauto.
Qed.

Lemma merge_worker_lists_spec mx ws acc n t ms n' t' :
  merge_workers mx ws acc n t = (ms, n', t') ->
  (forall a, a ∈ ms -> a ∈ acc \/ exists w, w ∈ ws /\ a ∈ local_matches w) /\
  (t' = false -> t = false /\ Forall (fun w => w_truncated w = false) ws /\
     forall a, (a ∈ acc \/ exists w, w ∈ ws /\ a ∈ local_matches w) -> a ∈ ms).
Proof.
  revert acc n t. induction ws as [|w ws IH]; intros acc n t; simpl.
  - intros [= -> -> ->]. split; [auto |]. intros ->. split_and!; [done | by constructor |].
    intros a [?|(w & Hw & _)]; [done | by apply elem_of_nil in Hw].
  - destruct (merge_matches mx (local_matches w) acc) as [acc' t1] eqn:Hm.
    apply merge_matches_spec in Hm as [M1 M2]. intros Hw. apply IH in Hw as [W1 W2]. split.
    + intros a Ha. apply W1 in Ha as [Ha|(w' & Hw' & Ha)].
      * apply M1 in Ha as [?|?]; [by left | right; exists w; split; [by left | done]].
      * right. exists w'. split; [by right | done].
    + intros Ht. destruct (W2 Ht) as (Ht' & HF & HA).
      apply orb_false_iff in Ht' as [Ht' ->]. apply orb_false_iff in Ht' as [-> Hwt].
      split_and!; [done | by constructor |]. intros a Ha. apply HA.
      destruct Ha as [Ha|(w' & Hw' & Ha)]; [left; apply M2; auto |].
      apply elem_of_cons in Hw' as [->|Hw']; [left; apply M2; auto | right; eauto].
Qed.

(** *** The scan as a whole *)

Definition eff_align (opt : aob_scan_options_t) : Z :=
  Z.max (if alignment opt =? 0 then 1 else alignment opt) 1.
Definition eff_chunk (opt : aob_scan_options_t) : Z :=
  if opt_chunk_bytes opt =? 0 then scan_chunk_bytes else opt_chunk_bytes opt.

(** A region whose arithmetic stays inside the address space. *)
Definition region_ok (p : aob_pattern_t) (al : Z) (g : scan_region_t) : Prop :=
  0 <= reg_base g /\ 0 <= reg_size g /\ reg_base g + reg_size g + psize p + al < 2 ^ 64.

(** Every worker claims existing spans. *)
Definition sched_ok (n : nat) (sched : list (list nat * cancel_token_t)) : Prop :=
  forall i, i ∈ concat (fst <$> sched) -> (i < n)%nat.

(** Nobody cancels and every span is claimed. *)
Definition sched_full (n : nat) (sched : list (list nat * cancel_token_t)) : Prop :=
  Forall (fun s => snd s = None) sched /\ concat (fst <$> sched) ≡ₚ seq 0 n.

Section WholeScan.
Context {R : Type} `{ReaderOk R}.
Variables (r : R) (p : aob_pattern_t) (opt : aob_scan_options_t).
Variables (regions : list scan_region_t).
Hypothesis Hp : 0 < psize p.
Hypothesis Hchunk : psize p <= eff_chunk opt.
Hypothesis Hreg : Forall (region_ok p (eff_align opt)) regions.

Lemma region_spans_elem s :
  s ∈ region_spans p (eff_align opt) regions ->
  exists g, g ∈ regions /\ reg_base g <= s.1 /\ s.2 = reg_base g + reg_size g /\ span_ok p s.
Proof using Hp Hreg.
  intros Hs. apply list_elem_of_omap in Hs as (g & Hg & Hs).
  pose proof (proj1 (Forall_forall _ _) Hreg _ Hg) as (H1 & H2 & H3).
  set (al := eff_align opt) in *. assert (1 <= al) by (subst al; unfold eff_align; lia).
  pose proof (zlen_nonneg (bytes p)) as Hz. fold (psize p) in Hz.
  destruct (Z.ltb_spec (reg_size g) (psize p)); [done |].
  assert (Hx : reg_base g <= (reg_base g + al - 1) / al * al <= reg_base g + al - 1).
  { pose proof (Z.div_mod (reg_base g + al - 1) al ltac:(lia)).
    pose proof (Z.mod_pos_bound (reg_base g + al - 1) al ltac:(lia)). nia. }
  cbv zeta in Hs. rewrite (wrap_small 64 (reg_base g + al - 1)) in Hs by (unfold is_word; lia).
  rewrite (wrap_small 64 (reg_base g + reg_size g)) in Hs by (unfold is_word; lia).
  rewrite (wrap_small 64 (_ / al * al)) in Hs by (unfold is_word; lia).
  destruct (Z.leb_spec (reg_base g + reg_size g) ((reg_base g + al - 1) / al * al)); [done |].
  simplify_eq. exists g. unfold span_ok. cbn [fst snd]. bounds.
Qed.

Lemma spans_ok : Forall (span_ok p) (region_spans p (eff_align opt) regions).
Proof using Hp Hreg. apply Forall_forall. intros s Hs. by destruct (region_spans_elem s Hs) as (g & _ & _ & _ & ?). Qed.

Lemma region_span_1 g :
  eff_align opt = 1 -> g ∈ regions -> psize p <= reg_size g ->
  (reg_base g, reg_base g + reg_size g) ∈ region_spans p (eff_align opt) regions.
Proof using Hp Hreg.
  intros Hal Hg Hsz. apply list_elem_of_omap. exists g. split; [done |].
  pose proof (proj1 (Forall_forall _ _) Hreg _ Hg) as (H1 & H2 & H3). rewrite Hal in *.
  destruct (Z.ltb_spec (reg_size g) (psize p)); [lia |].
  cbv zeta. replace (reg_base g + 1 - 1) with (reg_base g) by lia. rewrite Z.div_1_r, Z.mul_1_r.
  rewrite !(wrap_small 64) by (repeat rewrite wrap_small; unfold is_word; lia).
  by destruct (Z.leb_spec (reg_base g + reg_size g) (reg_base g)); [lia |].
Qed.

Lemma workers_adds mx sched :
  sched_ok (length (region_spans p (eff_align opt) regions)) sched ->
  exists ws, mapM (fun '(claims, tok) =>
      run_worker r p (eff_align opt) (eff_chunk opt) mx
        (region_spans p (eff_align opt) regions) claims tok worker0) sched = Some ws /\
    Forall2 (fun s w => adds (fun a => exists s, s ∈ region_spans p (eff_align opt) regions /\
                             s.1 <= a /\ a + psize p <= s.2 /\ hit r p a)
         (fun a => exists i sp, i ∈ s.1 /\
            region_spans p (eff_align opt) regions !! i = Some sp /\
            wanted r p (eff_align opt) s.2 sp.1 sp.2 a) worker0 w) sched ws.
Proof using Hp Hchunk Hreg.
  induction sched as [|[claims tok] sched IH]; intros Hok; [by exists [] |].
  destruct IH as (ws & Hws & HF).
  { intros i Hi. apply Hok. cbn [fmap list_fmap concat]. apply elem_of_app. by right. }
  destruct (run_worker_adds r p (eff_align opt) (eff_chunk opt) mx ltac:(unfold eff_align; lia)
              Hp Hchunk (region_spans p (eff_align opt) regions) claims tok worker0) as (w & Hw & Ha).
  { apply spans_ok. }
  { intros i Hi. apply Hok. cbn [fmap list_fmap concat]. apply elem_of_app. by left. }
  exists (w :: ws). simpl. rewrite Hw. simpl. rewrite Hws. split; [done | by constructor].
Qed.
End WholeScan.

(** *** Compiling and printing *)

Lemma tokenize_word w text cur tokens :
  Forall (fun c => is_sep c = false) w ->
  tokenize (w ++ text) cur tokens = tokenize text (cur ++ w) tokens.
Proof.
  revert cur. induction w as [|c w IH]; intros cur Hw; simpl; [by rewrite app_nil_r |].
  apply Forall_cons in Hw as [-> Hw]. rewrite IH by done. by rewrite <- app_assoc.
Qed.

Lemma tokenize_join ws tokens :
  Forall (fun w => w <> [] /\ Forall (fun c => is_sep c = false) w) ws ->
  tokenize (join (bs " ") ws) [] tokens = tokens ++ ws.
Proof.
  revert tokens. induction ws as [|w ws IH]; intros tokens Hws; [by rewrite app_nil_r |].
  apply Forall_cons in Hws as [[Hne Hw] Hws]. destruct ws as [|w' ws'].
  - change (join (bs " ") [w]) with w. rewrite <- (app_nil_r w) at 1.
    rewrite tokenize_word by done. simpl. by destruct w.
  - change (join (bs " ") (w :: w' :: ws')) with (w ++ bs " " ++ join (bs " ") (w' :: ws')).
    rewrite tokenize_word by done. change (bs " ") with [32] at 1. simpl app at 1.
    cbn [tokenize]. change (is_sep 32) with true. cbv iota. simpl app at 1.
    destruct w as [|c w]; [done |]. rewrite IH by done. by rewrite <- app_assoc.
Qed.

(** Every printed cell is a two-character word that parses back to the cell with
    its wildcard nibbles cleared: all 256 * 4 cells. *)
Definition cell_ok (b m : Z) : bool :=
  (zlen (cell_text b m) =? 2) && forallb (fun c => negb (is_sep c)) (cell_text b m)
  && bool_decide (parse_token (cell_text b m) = inr (Z.land b m, m)).

Lemma cells_ok :
  forallb (fun m => forallb (fun b => cell_ok b m) (seqZ 0 256)) [255; 240; 15; 0] = true.
Proof. by vm_compute. Qed.

Lemma cell_roundtrip b m :
  is_byte b -> cell_mask_ok m ->
  zlen (cell_text b m) = 2 /\ Forall (fun c => is_sep c = false) (cell_text b m) /\
  parse_token (cell_text b m) = inr (Z.land b m, m).
Proof.
  intros Hb Hm. pose proof (proj1 (forallb_forall _ _) cells_ok m) as Hall.
  assert (Hok : cell_ok b m = true).
  { assert (In m [255; 240; 15; 0]) as Hin by (unfold cell_mask_ok in Hm; simpl; intuition lia).
    specialize (Hall Hin). apply (proj1 (forallb_forall _ _) Hall).
    apply list_elem_of_In, elem_of_seqZ. unfold is_word in Hb. lia. }
  unfold cell_ok in Hok. rewrite !andb_true_iff in Hok. destruct Hok as [[H1 H2] H3].
  split_and!; [lia | | by apply bool_decide_eq_true in H3].
  apply Forall_forall. intros c Hc. apply list_elem_of_In in Hc.
  apply (proj1 (forallb_forall _ _) H2) in Hc. by apply negb_true_iff.
Qed.

(** The pattern with its ignored nibbles cleared. *)
Definition clear_wild (p : aob_pattern_t) : aob_pattern_t :=
  mk_pattern (zip_with Z.land (bytes p) (nibble_mask p)) (nibble_mask p).

Lemma parse_cells bl ml p :
  length ml = length bl -> bytes_ok bl -> Forall cell_mask_ok ml ->
  parse_tokens (zip_with cell_text bl ml) p =
    inr (mk_pattern (bytes p ++ zip_with Z.land bl ml) (nibble_mask p ++ ml)).
Proof.
  revert ml p. induction bl as [|b bl IH]; intros [|m ml] p Hl Hb Hm; try done.
  - simpl. rewrite !app_nil_r. by destruct p.
  - apply Forall_cons in Hb as [Hb Hbl]. apply Forall_cons in Hm as [Hm Hml]. simpl.
    destruct (cell_roundtrip b m Hb Hm) as (_ & _ & ->).
    rewrite IH by (done || by simplify_eq/=). simpl. by rewrite <- !app_assoc.
Qed.

(** Printing a pattern and compiling the text gives the pattern back, with
    the nibbles its mask ignores cleared: the printed form loses nothing the
    matcher looks at. *)
Lemma aob_to_string_compile p :
  pattern_ok p -> aob_compile (aob_to_string p) = inr (clear_wild p).
Proof.
  intros (Hl & Hne & Hb & Hm). unfold aob_compile, aob_to_string.
  assert (Hws : Forall (fun w => zlen w = 2 /\ Forall (fun c => is_sep c = false) w)
                  (zip_with cell_text (bytes p) (nibble_mask p))).
  { apply Forall_zip_with_fst with (P := is_byte); [done |].
    eapply Forall_impl; [exact Hm |]. intros m Hcm b Hbb.
    by destruct (cell_roundtrip b m Hbb Hcm) as (? & ? & _). }
  rewrite tokenize_join, app_nil_l.
  2: { eapply Forall_impl; [exact Hws |]. intros w [Hw ?]. split; [by intros -> | done]. }
  destruct (bytes p) as [|b bl] eqn:Hbp; [done |]. destruct (nibble_mask p) as [|m ml] eqn:Hmp; [done |].
  rewrite <- Hbp, <- Hmp in *.
  assert (Hc : forall hw, compact (zip_with cell_text (bytes p) (nibble_mask p)) hw = None).
  { intros hw. rewrite Hbp, Hmp. cbn [zip_with]. unfold compact.
    destruct (zip_with cell_text bl ml); [|done]. destruct hw; [done |].
    rewrite Hbp, Hmp in Hws. cbn [zip_with] in Hws. apply Forall_cons in Hws as [[H2 _] _].
    rewrite H2. simpl. by rewrite H2. }
  rewrite Hc, parse_cells by done. rewrite Hbp, Hmp. cbn [zip_with].
  simpl. unfold clear_wild. by rewrite Hbp, Hmp.
Qed.

Lemma aob_to_string_compile_witness :
  pattern_ok (mk_pattern [222; 0; 171] [255; 0; 240]) /\
  aob_compile (aob_to_string (mk_pattern [222; 0; 171] [255; 0; 240])) =
    inr (clear_wild (mk_pattern [222; 0; 171] [255; 0; 240])).
Proof.
  assert (pattern_ok (mk_pattern [222; 0; 171] [255; 0; 240])) as Hok.
  { split_and!; [done | done | repeat constructor; done |].
    unfold cell_mask_ok. repeat constructor; simpl; lia. }
  split; [exact Hok |]. exact (aob_to_string_compile _ Hok).
Defined.

Lemma compact_bytes_ok t : bytes_ok (compact_bytes t).
Proof.
  induction t as [t IH] using (induction_ltof1 _ (@length Z)). unfold ltof in IH.
  destruct t as [|a [|b t]]; simpl; [constructor | constructor |].
  constructor; [apply wrap_range; lia | apply IH; simpl; lia].
Qed.

Lemma compact_ok tokens hw p : compact tokens hw = Some p -> pattern_ok p.
Proof.
  unfold compact. destruct tokens as [|t0 [|]]; try done. destruct hw; [done |].
  cbv zeta. set (t := if (2 <? zlen t0) && has_0x t0 then drop 2 t0 else t0). destruct (Z.ltb_spec 2 (zlen t)) as [Hl|]; [|done].
  cbn [andb]. case_match; [|done]. intros [= <-].
  split_and!; simpl; [by rewrite length_replicate | | apply compact_bytes_ok |].
  - destruct t as [|a [|b t]]; unfold zlen in Hl; simpl in *; [lia | lia | done].
  - apply Forall_replicate. by left.
Qed.

Lemma parse_token_ok t b m : parse_token t = inr (b, m) -> is_byte b /\ cell_mask_ok m.
Proof.
  unfold parse_token. set (t' := if has_0x t then drop 2 t else t).
  destruct t' as [|c0 rest]; [done |].
  case_match. { intros [= <- <-]. split; [done | unfold cell_mask_ok; auto]. }
  case_match; [done |]. case_match; [done |].
  destruct (is_wild c0), rest as [|c1 rest]; repeat case_match; intros [= <- <-];
    (split; [apply wrap_range; lia | unfold cell_mask_ok; simpl; auto]).
Qed.

Lemma parse_tokens_ok tokens p q :
  parse_tokens tokens p = inr q ->
  length (nibble_mask p) = length (bytes p) -> bytes_ok (bytes p) ->
  Forall cell_mask_ok (nibble_mask p) ->
  length (nibble_mask q) = length (bytes q) /\ bytes_ok (bytes q) /\ Forall cell_mask_ok (nibble_mask q).
Proof.
  revert p. induction tokens as [|t tokens IH]; intros p; simpl; [by intros [= <-] |].
  destruct (parse_token t) as [|[b m]] eqn:Ht; [done |]. intros Hq Hl Hb Hm.
  apply parse_token_ok in Ht as [Hb' Hm'].
  apply (IH _ Hq); simpl; [rewrite !length_app; simpl; lia | |]; apply Forall_app; auto.
Qed.

(** Whatever text the user types, a compiled pattern is well formed: not
    empty, one mask per byte, every cell a byte and every mask one of the four
    nibble masks the printer and the matcher know. *)
Lemma aob_compile_ok text p : aob_compile text = inr p -> pattern_ok p.
Proof.
  unfold aob_compile. destruct (tokenize text [] []) as [|t ts]; [done |].
  destruct (compact (t :: ts) _) as [q|] eqn:Hc.
  { intros [= <-]. by eapply compact_ok. }
  destruct (parse_tokens (t :: ts) _) as [|q] eqn:Hq; [done |].
  case_bool_decide as Hne; [done |]. intros [= <-].
  apply parse_tokens_ok in Hq as (H1 & H2 & H3); [|done | constructor | constructor].
  by split_and!.
Qed.

Lemma aob_compile_ok_witness :
  aob_compile (bs "D? ?E 0xab, *") = inr (mk_pattern [208; 14; 171; 0] [240; 15; 255; 0]) /\
  pattern_ok (mk_pattern [208; 14; 171; 0] [240; 15; 255; 0]).
Proof.
  assert (aob_compile (bs "D? ?E 0xab, *") = inr (mk_pattern [208; 14; 171; 0] [240; 15; 255; 0]))
    as He by (by vm_compute).
  split; [exact He |]. exact (aob_compile_ok _ _ He).
Defined.

Lemma match_cells_spec ps ms data :
  length ms = length ps -> (length ps <= length data)%nat ->
  match_cells ps ms data = true <->
  forall (i : nat) (b m d : Z), ps !! i = Some b -> ms !! i = Some m -> data !! i = Some d -> Z.land d m = Z.land b m.
Proof.
  revert ms data. induction ps as [|b ps IH]; intros [|m ms] [|d data] Hm Hl; try done;
    simpl in *; [split; [intros _ [] ? ? ?; done | done].. | lia |].
  rewrite andb_true_iff, IH, orb_true_iff, !Z.eqb_eq by lia. split.
  - intros [H1 H2] [|i] b' m' d'; simpl; [| apply H2]. intros [= <-] [= <-] [= <-].
    destruct H1 as [->|]; [by rewrite !Z.land_0_r | done].
  - intros H1. split; [right; by apply (H1 0%nat) |]. intros i. apply (H1 (S i)).
Qed.

(** The sliding search finds the pattern exactly when, at some offset of the
    buffer, every byte agrees with the pattern byte on the nibbles of its mask. *)
Lemma aob_contains_spec p data :
  pattern_ok p ->
  aob_contains p data = true <->
  exists off, (off + length (bytes p) <= length data)%nat /\
    forall (i : nat) (b m d : Z), bytes p !! i = Some b -> nibble_mask p !! i = Some m ->
      data !! (off + i)%nat = Some d -> Z.land d m = Z.land b m.
Proof.
  intros (Hl & Hne & _ & _). unfold aob_contains, psize, zlen.
  assert (length (bytes p) <> 0%nat) as Hn by (by destruct (bytes p)).
  destruct (Z.eqb_spec (Z.of_nat (length (bytes p))) 0); [lia |]. cbn [orb].
  destruct (Z.ltb_spec (Z.of_nat (length data)) (Z.of_nat (length (bytes p)))) as [Hlt|Hge].
  { split; [done |]. intros (off & Ho & _). lia. }
  assert (Hm : forall off, (off + length (bytes p) <= length data)%nat ->
    aob_match p (drop off data) = true <->
    forall (i : nat) (b m d : Z), bytes p !! i = Some b -> nibble_mask p !! i = Some m ->
      data !! (off + i)%nat = Some d -> Z.land d m = Z.land b m).
  { intros off Ho. unfold aob_match, psize, zlen. rewrite length_drop.
    destruct (Z.eqb_spec (Z.of_nat (length (bytes p))) 0); [lia |]. cbn [orb].
    destruct (Z.ltb_spec (Z.of_nat (length data - off)) (Z.of_nat (length (bytes p)))); [lia |].
    rewrite match_cells_spec by (rewrite ?length_drop; lia).
    split; intros Hx i b m d Hb Hmm Hd; apply (Hx i b m d Hb Hmm);
      [by rewrite lookup_drop | by rewrite lookup_drop in Hd]. }
  rewrite existsb_exists. split.
  - intros (off & Hin & Hmo). apply in_seq in Hin. exists off. split; [lia |]. apply Hm; [lia | done].
  - intros (off & Ho & Hx). exists off. split; [apply in_seq; lia |]. by apply Hm.
Qed.

Lemma aob_contains_spec_witness :
  pattern_ok (mk_pattern [202; 0; 176] [255; 0; 240]) /\
  (aob_contains (mk_pattern [202; 0; 176] [255; 0; 240]) [0; 202; 254; 186; 153] = true <->
  exists off, (off + 3 <= 5)%nat /\
    forall (i : nat) (b m d : Z), [202; 0; 176] !! i = Some b -> [255; 0; 240] !! i = Some m ->
      [0; 202; 254; 186; 153] !! (off + i)%nat = Some d -> Z.land d m = Z.land b m).
Proof.
  assert (pattern_ok (mk_pattern [202; 0; 176] [255; 0; 240])) as Hok.
  { split_and!; [done | done | repeat constructor; done |].
    unfold cell_mask_ok. repeat constructor; simpl; lia. }
  split; [exact Hok |]. exact (aob_contains_spec _ [0; 202; 254; 186; 153] Hok).
Defined.

(** *** The scan *)

(** The scan always returns; whatever the alignment, the caps, the schedule
    of the workers, cancellation and unreadable holes, its result is strictly
    increasing and every address in it lies, with the whole pattern, in one of
    the regions and holds bytes the pattern matches. *)
Lemma aob_scan_sound {R} `{ReaderOk R} (r : R) regions p opt sched stop :
  0 < psize p -> psize p <= eff_chunk opt -> Forall (region_ok p (eff_align opt)) regions ->
  sched_ok (length (region_spans p (eff_align opt) regions)) sched ->
  exists matches st, aob_scan r regions p opt sched stop = Some (matches, st) /\
    StronglySorted Z.lt matches /\
    Forall (fun a => exists g, g ∈ regions /\ reg_base g <= a /\
              a + psize p <= reg_base g + reg_size g /\ hit r p a) matches.
Proof.
  intros Hp Hc Hreg Hs. unfold aob_scan. destruct (Z.eqb_spec (psize p) 0); [lia |].
  cbv zeta. fold (eff_align opt) (eff_chunk opt).
  set (mx := if opt_max_results opt =? 0 then _ else _).
  destruct (workers_adds r p opt regions Hp Hc Hreg mx sched Hs) as (ws & -> & HF). simpl.
  destruct (merge_workers mx ws [] 0 false) as [[ms n0] t] eqn:Hm.
  apply merge_worker_lists_spec in Hm as [Hm _].
  eexists _, _. split; [done |]. split; [apply sort_unique_sorted |].
  apply Forall_forall. intros a Ha. rewrite elem_of_sort_unique in Ha.
  apply Hm in Ha as [Ha|(w & Hw & Ha)]; [by apply elem_of_nil in Ha |].
  apply list_elem_of_lookup in Hw as [i Hw].
  destruct (Forall2_lookup_r _ _ _ _ _ HF Hw) as (s & _ & hs & Hl & HQ & _).
  rewrite Hl in Ha. simpl in Ha. rewrite Forall_forall in HQ. destruct (HQ a Ha) as (sp & Hsp & H1 & H2 & Hh).
  destruct (region_spans_elem p opt regions Hp Hreg sp Hsp) as (g & Hg & Hb & He & _).
  exists g. rewrite <- He. split_and!; (done || lia).
Qed.

(** C14: at byte alignment, for a pattern that is not empty and fits the effective chunk,
    over readable regions that end below 2^64 by the length of the pattern, when nobody
    cancels, every span is claimed by one worker and the result is not flagged truncated,
    the scan returns exactly the addresses where the pattern is in memory: no match across
    a chunk border is lost, for every such chunk size and every schedule. *)
Theorem aob_scan_complete {R} `{ReaderOk R} (r : R) regions p opt sched matches st :
  0 < psize p -> psize p <= eff_chunk opt -> Forall (region_ok p (eff_align opt)) regions ->
  eff_align opt = 1 ->
  Forall (fun g => readable r (reg_base g) (reg_size g)) regions ->
  sched_full (length (region_spans p (eff_align opt) regions)) sched ->
  aob_scan r regions p opt sched false = Some (matches, st) -> truncated st = false ->
  forall a, a ∈ matches <-> exists g, g ∈ regions /\ reg_base g <= a /\
              a + psize p <= reg_base g + reg_size g /\ hit r p a.
Proof.
  intros Hp Hc Hreg Hal Hrd [Hnc Hfull].
  unfold aob_scan. destruct (Z.eqb_spec (psize p) 0); [lia |].
  cbv zeta. fold (eff_align opt) (eff_chunk opt).
  set (mx := if opt_max_results opt =? 0 then _ else _).
  destruct (workers_adds r p opt regions Hp Hc Hreg mx sched) as (ws & -> & HF).
  { intros i Hi. rewrite Hfull in Hi. apply elem_of_seq in Hi. lia. }
  simpl. destruct (merge_workers mx ws [] 0 false) as [[ms n0] t] eqn:Hm.
  apply merge_worker_lists_spec in Hm as [Hm1 Hm2]. intros [= <- <-] Ht a. simpl in Ht. subst t.
  rewrite elem_of_sort_unique. destruct (Hm2 eq_refl) as (_ & Hnt & HA). split.
  - intros Ha. apply Hm1 in Ha as [Ha|(w & Hw & Ha)]; [by apply elem_of_nil in Ha |].
    apply list_elem_of_lookup in Hw as [i Hw].
    destruct (Forall2_lookup_r _ _ _ _ _ HF Hw) as (s & _ & hs & Hl & HQ & _).
    rewrite Hl in Ha. simpl in Ha. rewrite Forall_forall in HQ. destruct (HQ a Ha) as (sp & Hsp & H1 & H2 & Hh).
    destruct (region_spans_elem p opt regions Hp Hreg sp Hsp) as (g & Hg & Hb & He & _).
    exists g. rewrite <- He. split_and!; (done || lia).
  - intros (g & Hg & Ha1 & Ha2 & Hh). apply HA. right.
    pose proof (region_span_1 p opt regions Hp Hreg g Hal Hg ltac:(lia)) as Hsp.
    apply list_elem_of_lookup in Hsp as [i Hi].
    assert (Hin : i ∈ concat (fst <$> sched)).
    { rewrite Hfull. apply elem_of_seq. apply lookup_lt_Some in Hi. lia. }
    apply list_elem_of_In, in_concat in Hin as (claims & Hcl & Hin).
    apply list_elem_of_In, list_elem_of_fmap in Hcl as ([cl tok] & -> & Hcl).
    apply list_elem_of_lookup in Hcl as [j Hj].
    destruct (Forall2_lookup_l _ _ _ _ _ HF Hj) as (w & Hw & hs & Hl & _ & HC).
    assert (Hinw : w ∈ ws) by (by eapply list_elem_of_lookup_2).
    exists w. split; [done |]. rewrite Hl. simpl.
    apply HC; [by apply (proj1 (Forall_forall _ _) Hnt) |].
    exists i, (reg_base g, reg_base g + reg_size g). cbn [fst snd].
    split; [by apply list_elem_of_In |]. split; [done |].
    pose proof (proj1 (Forall_forall _ _) Hnc _ (list_elem_of_lookup_2 _ _ _ Hj)) as Htok.
    cbn [snd] in Htok. unfold wanted. split_and!; [done | done | | lia | lia | done].
    replace (reg_base g + reg_size g - reg_base g) with (reg_size g) by lia.
    by apply (proj1 (Forall_forall _ _) Hrd).
Qed.

(** A concrete target for the witnesses: two mapped segments and a hole. *)
Definition demo_mem : Paged.t := [(16, [1; 2; 3; 4; 1; 2; 3; 4; 1; 2; 3; 4]); (64, [9; 1; 2])].
Definition demo_regions : list scan_region_t := [mk_region 16 12 4 0; mk_region 64 3 4 0].
Definition demo_pattern : aob_pattern_t := mk_pattern [1; 2] [255; 255].

Lemma demo_regions_ok : Forall (region_ok demo_pattern 1) demo_regions.
Proof. unfold region_ok. repeat constructor; simpl; unfold psize, zlen; simpl; lia. Qed.

Lemma demo_sched_full : sched_full 2 [([1%nat], None); ([0%nat], None)].
Proof. split; [by repeat constructor | simpl; by apply perm_swap]. Qed.

Lemma demo_sched_ok : sched_ok 2 [([1%nat], None); ([0%nat], None)].
Proof. intros i Hi. rewrite (proj2 demo_sched_full) in Hi. apply elem_of_seq in Hi. lia. Qed.

Lemma demo_readable : Forall (fun g => readable demo_mem (reg_base g) (reg_size g)) demo_regions.
Proof.
  repeat constructor; simpl; apply read_is_Some; try lia; by eexists; vm_compute.
Qed.

Lemma aob_scan_sound_witness :
  exists matches st,
    aob_scan demo_mem demo_regions demo_pattern (mk_opts 1 0 5) [([1%nat], None); ([0%nat], None)] true
      = Some (matches, st) /\
    StronglySorted Z.lt matches /\
    Forall (fun a => exists g, g ∈ demo_regions /\ reg_base g <= a /\
              a + psize demo_pattern <= reg_base g + reg_size g /\ hit demo_mem demo_pattern a) matches.
Proof.
  apply (aob_scan_sound demo_mem demo_regions demo_pattern (mk_opts 1 0 5)).
  - reflexivity.
  - vm_compute. discriminate.
  - exact demo_regions_ok.
  - exact demo_sched_ok.
Defined.

Lemma aob_scan_complete_witness :
  65 ∈ [16; 20; 24; 65] <-> exists g, g ∈ demo_regions /\ reg_base g <= 65 /\
    65 + psize demo_pattern <= reg_base g + reg_size g /\ hit demo_mem demo_pattern 65.
Proof.
  apply (aob_scan_complete demo_mem demo_regions demo_pattern (mk_opts 1 0 5)
           [([1%nat], None); ([0%nat], None)] [16; 20; 24; 65] (mk_stats 17 4 false false)).
  - reflexivity.
  - vm_compute. discriminate.
  - exact demo_regions_ok.
  - reflexivity.
  - exact demo_readable.
  - exact demo_sched_full.
  - vm_compute. reflexivity.
  - reflexivity.
Defined.

(** A single-nibble token loses its digit.  The compiler keeps the mask of
    the low nibble but stores the digit in the high one, so for every hex digit
    the pattern it builds matches exactly the bytes whose low nibble is zero. *)
Lemma single_nibble_token n d :
  0 <= n < 16 ->
  exists p, aob_compile [hex_digit n] = inr p /\
    (aob_match p [d] = true <-> Z.land d 15 = 0).
Proof.
  intros Hn. exists (mk_pattern [16 * n] [15]). split.
  - assert (Hall : forallb (fun n => bool_decide (aob_compile [hex_digit n] = inr (mk_pattern [16 * n] [15])))
                     (seqZ 0 16) = true) by (by vm_compute).
    rewrite forallb_forall in Hall. specialize (Hall n).
    rewrite bool_decide_eq_true in Hall. apply Hall, list_elem_of_In, elem_of_seqZ. lia.
  - unfold aob_match. simpl. rewrite andb_true_r, Z.eqb_eq.
    replace (Z.land (16 * n) 15) with 0; [done |].
    change 15 with (Z.ones 4). rewrite Z.land_ones, Z.mul_comm by lia.
    change (2 ^ 4) with 16. by rewrite Z.mod_mul.
Qed.

Lemma single_nibble_token_witness :
  exists p, aob_compile [hex_digit 5] = inr p /\ (aob_match p [5] = true <-> Z.land 5 15 = 0).
Proof. apply (single_nibble_token 5 5). lia. Defined.

Definition drift_mem : Paged.t := [(16, [0; 0; 0; 0; 0; 1; 2; 0; 1; 2; 0; 0])].

(** The alignment option does not survive a chunk border.  The cursor steps
    back by the pattern length minus one and the next candidates start there, so
    with alignment 4 the scan of one readable region reports the unaligned
    address 21 and misses the aligned match at 24. *)
Lemma aob_scan_alignment_drift :
  exists st, aob_scan drift_mem [mk_region 16 12 4 0] demo_pattern (mk_opts 4 0 6)
               [([0%nat], None)] false = Some ([21], st) /\
    truncated st = false /\ 21 mod 4 <> 0 /\ 24 mod 4 = 0 /\ hit drift_mem demo_pattern 24.
Proof.
  eexists. split; [by vm_compute |]. split_and!; [done | done | done |].
  exists [1; 2]. by split; vm_compute.
Qed.
