(* ===== verification/Snapshot.v ===== *)
(** * Region snapshots and byte diffs: src/core/memory/snapshot.cpp

    [snapshot_capture] copies a region chunk by chunk and bisects unreadable
    chunks down to single bytes; [snapshot_diff] coalesces the differing bytes of
    two captures into spans. *)

From S2P Require Import Prelude Reader.

#[local] Open Scope Z_scope.

Record region_snapshot_t := mk_snapshot {
  snap_base : Z; snap_size : Z; snap_bytes : list Z; complete : bool
}.

Record snapshot_span_t := mk_span { offset : Z; length_ : Z }.

Record snapshot_diff_t := mk_diff { changed : list snapshot_span_t; valid : bool }.

Definition kChunk : Z := 1048576.
Definition max_diff_ranges : Z := 250000.

(** [r.read(..., bytes.data() + off, n)] on success. *)
Definition splice (off : Z) (data bytes : list Z) : list Z :=
  take (Z.to_nat off) bytes ++ data ++ drop (Z.to_nat off + length data) bytes.

Section Capture.
Context {R : Type} `{Reader R}.
Variables (r : R) (base : Z).

(** The byte-granular bisection of one unreadable chunk: [(stopped, bytes,
    holes, token)], [None] when the fuel is exhausted. *)
Fixpoint bisect (fuel : nat) (stack : list seg_t) (tok : cancel_token_t)
    (bytes : list Z) (holes : bool) : option (bool * list Z * bool * cancel_token_t) :=
  match stack with
  | [] => Some (false, bytes, holes, tok)
  | s :: stack' =>
      match fuel with
      | O => None
      | S fuel' =>
          let '(stop, tok') := cancelled tok in
          if stop then Some (true, bytes, holes, tok')
          else match read r (u64 (base + seg_addr s)) (seg_len s) with
               | Some data => bisect fuel' stack' tok' (splice (seg_addr s) data bytes) holes
               | None =>
                   if seg_len s =? 1 then bisect fuel' stack' tok' bytes true
                   else
                     let half := seg_len s / 2 in
                     bisect fuel' (mk_seg (seg_addr s + half) (seg_len s - half)
                                   :: mk_seg (seg_addr s) half :: stack') tok' bytes holes
               end
      end
  end.

(** The chunk loop from [cursor]. *)
Fixpoint capture_loop (fuel : nat) (size cursor : Z) (tok : cancel_token_t)
    (bytes : list Z) (holes : bool) : option (bool * list Z * bool * cancel_token_t) :=
  if cursor <? size then
    match fuel with
    | O => None
    | S fuel' =>
        let '(stop, tok') := cancelled tok in
        if stop then Some (true, bytes, holes, tok')
        else
          let want := Z.min kChunk (size - cursor) in
          match read r (u64 (base + cursor)) want with
          | Some data =>
              capture_loop fuel' size (cursor + want) tok' (splice cursor data bytes) holes
          | None =>
              match bisect (rr_cost want) [mk_seg cursor want] tok' bytes holes with
              | Some (false, bytes', holes', tok'') =>
                  capture_loop fuel' size (cursor + want) tok'' bytes' holes'
              | res => res
              end
          end
    end
  else Some (false, bytes, holes, tok).
End Capture.

Definition snapshot_capture {R} `{Reader R} (r : R) (base size : Z) (tok : cancel_token_t)
    (max_bytes : Z) : option region_snapshot_t :=
  if size =? 0 then Some (mk_snapshot base 0 [] true)
  else
    let clamped := max_bytes <? size in
    let size := if clamped then max_bytes else size in
    '(stopped, bytes, holes, _) ←
      capture_loop r base (S (Z.to_nat (size / kChunk))) size 0 tok
        (replicate (Z.to_nat size) 0) false;
    Some (mk_snapshot base size bytes (negb stopped && negb holes && negb clamped)).

(** Length of the differing run at the head of two buffers. *)
Fixpoint run_len (a b : list Z) : nat :=
  match a, b with
  | x :: a', y :: b' => if x =? y then 0%nat else S (run_len a' b')
  | _, _ => 0%nat
  end.

Fixpoint diff_loop (fuel : nat) (i : Z) (a b : list Z) (out : list snapshot_span_t)
  : list snapshot_span_t :=
  match fuel, a, b with
  | S fuel', x :: a', y :: b' =>
      if x =? y then diff_loop fuel' (i + 1) a' b' out
      else
        let n := run_len a b in
        let out := out ++ [mk_span i (Z.of_nat n)] in
        if max_diff_ranges <=? zlen out then out
        else diff_loop fuel' (i + Z.of_nat n) (drop n a) (drop n b) out
  | _, _, _ => out
  end.

Definition snapshot_diff (a b : region_snapshot_t) : snapshot_diff_t :=
  if negb (snap_base a =? snap_base b) || negb (snap_size a =? snap_size b)
     || negb (zlen (snap_bytes a) =? zlen (snap_bytes b))
  then mk_diff [] false
  else mk_diff (diff_loop (length (snap_bytes a)) 0 (snap_bytes a) (snap_bytes b) []) true.

(** ** Lemmas *)

Lemma length_splice off data bytes :
  0 <= off -> off + zlen data <= zlen bytes -> length (splice off data bytes) = length bytes.
Proof.
  unfold splice, zlen. intros H1 H2. rewrite !length_app, length_take, length_drop. lia.
Qed.

Lemma splice_lookup off data bytes i :
  0 <= off -> off + zlen data <= zlen bytes -> 0 <= i ->
  splice off data bytes !! Z.to_nat i =
    if decide (off <= i < off + zlen data) then data !! Z.to_nat (i - off)
    else bytes !! Z.to_nat i.
Proof.
  unfold splice, zlen. intros H1 H2 H3. case_decide as Hc.
  - rewrite lookup_app_r by (rewrite length_take; lia). rewrite length_take.
    rewrite lookup_app_l by lia. f_equal. lia.
  - destruct (decide (i < off)).
    + rewrite lookup_app_l by (rewrite length_take; lia). by rewrite lookup_take_lt by lia.
    + rewrite lookup_app_r by (rewrite length_take; lia). rewrite length_take.
      rewrite lookup_app_r by lia. rewrite lookup_drop. f_equal. lia.
Qed.

Section CaptureFacts.
Context {R : Type} `{ReaderOk R}.
Variables (r : R) (base size : Z).
Hypothesis Hbase : 0 <= base.
Hypothesis Hend : base + size <= 2 ^ 64.

Definition inside (s : seg_t) (i : Z) : Prop := seg_addr s <= i < seg_addr s + seg_len s.
Definition seg_ok (s : seg_t) : Prop := 0 <= seg_addr s /\ 1 <= seg_len s /\ seg_addr s + seg_len s <= size.

(** [bytes'] after copying the readable part of [P] from memory. *)
Definition copied (P : Z -> Prop) (bytes bytes' : list Z) : Prop :=
  length bytes' = length bytes /\
  forall i, 0 <= i < size ->
    (P i -> forall b, mem r (base + i) = Some b -> bytes' !! Z.to_nat i = Some b) /\
    (~ P i \/ mem r (base + i) = None -> bytes' !! Z.to_nat i = bytes !! Z.to_nat i).

(** With cancellation: no byte but memory's is ever written. *)
Definition honest (bytes bytes' : list Z) : Prop :=
  length bytes' = length bytes /\
  forall i, 0 <= i < size ->
    bytes' !! Z.to_nat i = bytes !! Z.to_nat i \/ bytes' !! Z.to_nat i = mem r (base + i).

Lemma honest_trans b1 b2 b3 : honest b1 b2 -> honest b2 b3 -> honest b1 b3.
Proof.
  intros [L1 E1] [L2 E2]. split; [congruence |]. intros i Hi.
  destruct (E2 i Hi) as [->|]; [apply E1; lia | auto].
Qed.

Lemma copied_honest P b1 b2 : (forall i, Decision (P i)) -> copied P b1 b2 -> honest b1 b2.
Proof.
  intros HP [L E]. split; [done |]. intros i Hi. destruct (E i Hi) as [E1 E2].
  destruct (mem r (base + i)) as [b|] eqn:Hm; [|auto].
  destruct (decide (P i)); [right; auto | left; auto].
Qed.

Lemma copied_trans P1 P2 (P : Z -> Prop) b1 b2 b3 :
  (forall i, Decision (P1 i)) -> (forall i, Decision (P2 i)) ->
  copied P1 b1 b2 -> copied P2 b2 b3 -> (forall i, P i <-> P1 i \/ P2 i) -> copied P b1 b3.
Proof.
  intros D1 D2 [L1 E1] [L2 E2] HP. split; [congruence |]. intros i Hi.
  destruct (E1 i Hi) as [A1 A2], (E2 i Hi) as [B1 B2]. split.
  - intros HPi b Hb. destruct (decide (P2 i)); [by apply B1 |].
    rewrite B2 by auto. apply A1; [|done]. apply HP in HPi. tauto.
  - intros Hn. rewrite B2, A2; [done | |]; rewrite HP in Hn; tauto.
Qed.

Lemma copied_read s data bytes :
  seg_ok s -> zlen bytes = size ->
  read r (u64 (base + seg_addr s)) (seg_len s) = Some data ->
  copied (inside s) bytes (splice (seg_addr s) data bytes).
Proof using Hbase Hend.
  intros (H1 & H2 & H3) Hl. rewrite wrap_small by (unfold is_word; lia). intros Hd.
  assert (Hz : zlen data = seg_len s) by (eapply read_zlen; [| exact Hd]; lia).
  split; [apply length_splice; lia |]. intros i Hi.
  rewrite splice_lookup by lia. unfold inside. split.
  - intros Hin b Hb. rewrite decide_True by lia. rewrite <- Hb.
    replace (base + i) with (base + seg_addr s + (i - seg_addr s)) by lia.
    by rewrite (read_mem r _ _ _ (i - seg_addr s) Hd) by lia.
  - intros Hn. rewrite decide_False; [done |]. intros Hin. destruct Hn as [Hn|Hn]; [lia |].
    replace (base + i) with (base + seg_addr s + (i - seg_addr s)) in Hn by lia.
    rewrite (read_mem r _ _ _ (i - seg_addr s) Hd) in Hn by lia.
    apply lookup_ge_None_1 in Hn. unfold zlen in *. lia.
Qed.

Definition in_stack (stack : list seg_t) (i : Z) : Prop := Exists (fun s => inside s i) stack.

#[local] Instance inside_dec s i : Decision (inside s i).
Proof. unfold inside. apply _. Defined.
#[local] Instance in_stack_dec stack i : Decision (in_stack stack i).
Proof. unfold in_stack. apply _. Defined.

(** What one pass over [P] leaves: the copy, and the hole flag. *)
Definition pass (tok : cancel_token_t) (P : Z -> Prop) (bytes : list Z) (holes : bool)
    (res : option (bool * list Z * bool * cancel_token_t)) : Prop :=
  exists stop bytes' holes' tok', res = Some (stop, bytes', holes', tok') /\ honest bytes bytes' /\
    (tok = None -> stop = false /\ tok' = None) /\
    (stop = false -> copied P bytes bytes' /\
      (holes' = true <-> holes = true \/ exists i, 0 <= i < size /\ P i /\ mem r (base + i) = None)).

Lemma bisect_pass fuel stack tok bytes holes :
  (stack_cost stack <= fuel)%nat -> Forall seg_ok stack -> zlen bytes = size ->
  pass tok (in_stack stack) bytes holes (bisect r base fuel stack tok bytes holes).
Proof using Hbase Hend.
  revert stack tok bytes holes. induction fuel as [|fuel IH]; intros stack tok bytes holes Hc Hok Hl.
  all: destruct stack as [|s stack];
    [exists false, bytes, holes, tok; split_and!; try done;
      [split; [done |]; by left | intros _; split;
        [split; [done |]; intros i Hi; split; [by intros ?%Exists_nil | done]
        | split; [by left | intros [?|(i & _ & ?%Exists_nil & _)]; done]]] |].
  { unfold stack_cost, rr_cost in Hc. simpl in Hc. lia. }
  apply Forall_cons in Hok as [Hs Hok]. cbn [bisect].
  destruct (cancelled tok) as [stop tok1] eqn:Htok.
  assert (Hnone : tok = None -> stop = false /\ tok1 = None).
  { intros ->. simpl in Htok. by simplify_eq. }
  destruct stop.
  { exists true, bytes, holes, tok1. split_and!; try done.
    split; [done |]. by left. }
  unfold stack_cost in Hc. cbn [sum_list_with] in Hc. fold (stack_cost stack) in Hc.
  destruct (read r (u64 (base + seg_addr s)) (seg_len s)) as [data|] eqn:Hd.
  - pose proof (copied_read s data bytes Hs Hl Hd) as Hcp.
    destruct (IH stack tok1 (splice (seg_addr s) data bytes) holes) as
      (stop & bytes' & holes' & tok' & -> & Hh & Ht & Hdone); [unfold rr_cost in Hc; lia | done | |].
    { unfold zlen. rewrite (proj1 Hcp). exact Hl. }
    exists stop, bytes', holes', tok'. split; [done |]. split.
    { eapply honest_trans; [eapply copied_honest, Hcp; apply _ | done]. }
    split; [by intros Hn; apply Ht, Hnone |]. intros Hst. destruct (Hdone Hst) as [Hcp2 Hho].
    split.
    { refine (copied_trans (inside s) (in_stack stack) _ _ _ _ _ _ Hcp Hcp2 _).
      intros i. unfold in_stack. by rewrite Exists_cons. }
    rewrite Hho. split; (intros [?|(i & Hi & Hin & Hmi)]; [by left | right]).
    + exists i. split_and!; [lia | lia | by apply Exists_cons; right | done].
    + exists i. split_and!; [lia | lia | | done]. apply Exists_cons in Hin as [Hin|Hin]; [exfalso | done].
      destruct Hs as (Hs1 & Hs2 & Hs3). rewrite wrap_small in Hd by (unfold is_word; lia).
      assert (Hz : zlen data = seg_len s) by (eapply read_zlen; [| exact Hd]; lia). unfold inside in Hin.
      replace (base + i) with (base + seg_addr s + (i - seg_addr s)) in Hmi by lia.
      rewrite (read_mem r _ _ _ (i - seg_addr s) Hd) in Hmi by lia.
      apply lookup_ge_None_1 in Hmi. unfold zlen in Hz. lia.
  - destruct (Z.eqb_spec (seg_len s) 1) as [H1|H1].
    + assert (Hmn : mem r (base + seg_addr s) = None).
      { destruct Hs as (Hs1 & Hs2 & Hs3). rewrite wrap_small, H1 in Hd by (unfold is_word; lia).
        destruct (mem r (base + seg_addr s)) eqn:Hm; [exfalso | done].
        assert (is_Some (read r (base + seg_addr s) 1)) as [? ?]; [| congruence].
        apply read_is_Some; [lia |]. intros i Hi. replace i with 0 by lia. by rewrite Z.add_0_r, Hm. }
      assert (Hone : forall i, inside s i -> i = seg_addr s) by (unfold inside; lia).
      destruct (IH stack tok1 bytes true) as
        (stop & bytes' & holes' & tok' & -> & Hh & Ht & Hdone); [unfold rr_cost in Hc; lia | done | done |].
      exists stop, bytes', holes', tok'. split; [done |]. split; [done |].
      split; [by intros Hn; apply Ht, Hnone |]. intros Hst. destruct (Hdone Hst) as [[HL HE] Hho]. split.
      * split; [done |]. intros i Hi. destruct (HE i Hi) as [E1 E2]. unfold in_stack in *.
        rewrite Exists_cons. split; [| intros Hn; apply E2; tauto].
        intros [Hin|Hin] b Hb; [| by apply E1]. rewrite (Hone i Hin) in Hb. congruence.
      * split; [intros _; right | intros _; apply Hho; by left].
        destruct Hs as (Hs1 & Hs2 & Hs3). exists (seg_addr s).
        split_and!; [lia | lia | apply Exists_cons; left; unfold inside; lia | done].
    + assert (Hh : 1 <= seg_len s / 2 < seg_len s).
      { destruct Hs as (_ & Hs2 & _). split; [apply Z.div_le_lower_bound; lia | apply Z.div_lt; lia]. }
      set (h := seg_len s / 2) in *.
      destruct (IH (mk_seg (seg_addr s + h) (seg_len s - h) :: mk_seg (seg_addr s) h :: stack)
                  tok1 bytes holes) as (stop & bytes' & holes' & tok' & -> & Hho & Ht & Hdone).
      { unfold stack_cost, rr_cost in *. cbn [sum_list_with seg_len]. lia. }
      { unfold seg_ok in *. repeat constructor; simpl; try lia; done. }
      { done. }
      assert (Hst : forall i, in_stack (mk_seg (seg_addr s + h) (seg_len s - h) :: mk_seg (seg_addr s) h :: stack) i
                    <-> in_stack (s :: stack) i).
      { intros i. unfold in_stack. rewrite !Exists_cons. unfold inside. simpl. intuition lia. }
      exists stop, bytes', holes', tok'. split; [done |]. split; [done |].
      split; [by intros Hn; apply Ht, Hnone |]. intros Hs0. destruct (Hdone Hs0) as [[HL HE] Hx]. split.
      * split; [done |]. intros i Hi. rewrite <- Hst. by apply HE.
      * rewrite Hx. by setoid_rewrite Hst.
Qed.
End CaptureFacts.

Section CaptureLoop.
Context {R : Type} `{ReaderOk R}.
Variables (r : R) (base size : Z).
Hypothesis Hbase : 0 <= base.
Hypothesis Hend : base + size <= 2 ^ 64.

Lemma pass_trans tok P1 P2 (P : Z -> Prop) b1 h1 b2 h2 tok1 stop res :
  (forall i, Decision (P1 i)) -> (forall i, Decision (P2 i)) ->
  pass r base size tok P1 b1 h1 (Some (stop, b2, h2, tok1)) -> stop = false ->
  pass r base size tok1 P2 b2 h2 res ->
  (forall i, P i <-> P1 i \/ P2 i) -> pass r base size tok P b1 h1 res.
Proof.
  intros D1 D2 (st1 & b2' & h2' & t1 & E1 & Hh1 & Ht1 & Hd1) -> Hp2 HP.
  injection E1 as <- <- <- <-. destruct (Hd1 eq_refl) as [Hc1 Hho1].
  destruct Hp2 as (st2 & b3 & h3 & t2 & -> & Hh2 & Ht2 & Hd2).
  exists st2, b3, h3, t2. split; [done |]. split; [by eapply honest_trans |].
  split; [by intros Hn; apply Ht2, Ht1 |]. intros Hst. destruct (Hd2 Hst) as [Hc2 Hho2].
  split; [exact (copied_trans r base size P1 P2 P _ _ _ D1 D2 Hc1 Hc2 HP) |].
  rewrite Hho2, Hho1. setoid_rewrite HP. split; [intros [[?|Hx]|Hx] | intros [?|Hx]]; auto.
  - right. destruct Hx as (i & ? & ? & ?). exists i. tauto.
  - right. destruct Hx as (i & ? & ? & ?). exists i. tauto.
  - destruct Hx as (i & Hi & [?|?] & Hm); [left; right | right]; by exists i.
Qed.

Lemma capture_pass fuel cursor tok bytes holes :
  0 <= cursor -> size - cursor <= Z.of_nat fuel * kChunk -> zlen bytes = size ->
  pass r base size tok (fun i => cursor <= i < size) bytes holes
    (capture_loop r base fuel size cursor tok bytes holes).
Proof using Hbase Hend.
  revert cursor tok bytes holes. induction fuel as [|fuel IH]; intros cursor tok bytes holes Hc Hf Hl;
    cbn [capture_loop]; (destruct (Z.ltb_spec cursor size) as [Hlt|Hge];
    [| exists false, bytes, holes, tok; split_and!; try done;
       [split; [done |]; by left | intros _; split;
        [split; [done |]; intros i Hi; split; [lia | done]
        | split; [by left | intros [?|(i & _ & ? & _)]; [done | lia]]]]]).
  { unfold kChunk in Hf. lia. }
  destruct (cancelled tok) as [stop tok1] eqn:Htok.
  assert (Hnone : tok = None -> stop = false /\ tok1 = None).
  { intros ->. simpl in Htok. by simplify_eq. }
  destruct stop.
  { exists true, bytes, holes, tok1. split_and!; try done. split; [done |]. by left. }
  set (want := Z.min kChunk (size - cursor)).
  assert (Hw : 1 <= want <= size - cursor) by (unfold want, kChunk; lia).
  set (s := mk_seg cursor want).
  assert (Hs : seg_ok size s) by (unfold seg_ok, s; simpl; lia).
  assert (HP : forall i, cursor <= i < size <-> inside s i \/ cursor + want <= i < size).
  { unfold inside, s. simpl. lia. }
  assert (Hone : pass r base size tok1 (in_stack [s]) bytes holes
            match read r (u64 (base + cursor)) want with
            | Some data => Some (false, splice cursor data bytes, holes, tok1)
            | None => bisect r base (rr_cost want) [s] tok1 bytes holes
            end).
  { destruct (read r (u64 (base + cursor)) want) as [data|] eqn:Hd.
    - pose proof (copied_read r base size Hbase Hend s data bytes Hs Hl Hd) as Hcp.
      exists false, (splice cursor data bytes), holes, tok1. split_and!; try done.
      { eapply copied_honest, Hcp. intros i. unfold inside. apply _. }
      intros _. split.
      { destruct Hcp as [HL HE]. split; [done |]. intros i Hi. unfold in_stack.
        rewrite Exists_cons, Exists_nil. destruct (HE i Hi) as [E1 E2]. split; [intros [?|[]]; auto |].
        intros Hn. apply E2. tauto. }
      split; [by left |]. intros [?|(i & Hi & Hin & Hm)]; [done |].
      apply Exists_cons in Hin as [Hin|?%Exists_nil]; [|done]. unfold inside in Hin. simpl in Hin.
      rewrite wrap_small in Hd by (unfold is_word; lia).
      assert (is_Some (mem r (base + cursor + (i - cursor)))) as [b Hb].
      { apply (proj1 (read_is_Some r _ want ltac:(lia)) (mk_is_Some _ _ Hd)). lia. }
      replace (base + cursor + (i - cursor)) with (base + i) in Hb by lia. congruence.
    - apply (bisect_pass r base size Hbase Hend); [unfold stack_cost; simpl; lia | by constructor | done]. }
  assert (Hone' : pass r base size tok (in_stack [s]) bytes holes
            match read r (u64 (base + cursor)) want with
            | Some data => Some (false, splice cursor data bytes, holes, tok1)
            | None => bisect r base (rr_cost want) [s] tok1 bytes holes
            end).
  { destruct Hone as (st & b' & h' & t' & E & Hh & Ht & Hd). exists st, b', h', t'.
    split_and!; try done; intros Hn; by apply Ht, Hnone. }
  clear Hone. destruct Hone' as (st & b' & h' & t' & E & Hrest).
  assert (HIH : st = false -> pass r base size tok (fun i => cursor <= i < size) bytes holes
                  (capture_loop r base fuel size (cursor + want) t' b' h')).
  { intros ->. eapply (pass_trans tok (in_stack [s]) (fun i => cursor + want <= i < size)).
    - intros i. unfold in_stack, inside. apply _.
    - intros i. apply _.
    - by exists false, b', h', t'.
    - done.
    - apply IH; [lia | unfold want in *; unfold kChunk in *; lia |].
      unfold zlen. rewrite (proj1 (proj1 Hrest)). exact Hl.
    - intros i. rewrite HP. unfold in_stack. rewrite Exists_cons, Exists_nil. tauto. }
  destruct (read r (u64 (base + cursor)) want) as [data|].
  { injection E as <- <- <- <-. by apply HIH. }
  rewrite E. destruct st; [| by apply HIH]. destruct Hrest as (Hh & Ht & _).
  by exists true, b', h', t'.
Qed.
End CaptureLoop.

(** C20: a capture always returns and never invents data: it has the requested
    size clamped to the limit, every byte of it is the target's byte or zero;
    uncancelled, a byte is the target's exactly where the target is readable and
    zero elsewhere, and [complete] is set exactly when nothing was clamped and
    every byte was readable. *)
Theorem snapshot_capture_spec {R} `{ReaderOk R} (r : R) base size tok max_bytes :
  0 <= base -> 0 <= size -> 0 <= max_bytes -> base + size <= 2 ^ 64 ->
  exists snap, snapshot_capture r base size tok max_bytes = Some snap /\
    zlen (snap_bytes snap) = Z.min size max_bytes /\
    (forall i, 0 <= i < Z.min size max_bytes ->
       snap_bytes snap !! Z.to_nat i = Some 0 \/ snap_bytes snap !! Z.to_nat i = mem r (base + i)) /\
    (tok = None ->
       (forall i, 0 <= i < Z.min size max_bytes ->
          snap_bytes snap !! Z.to_nat i = Some (default 0 (mem r (base + i)))) /\
       (complete snap = true <-> size <= max_bytes /\ readable r base size)) .
Proof.
  intros Hb Hs Hm He. unfold snapshot_capture. destruct (Z.eqb_spec size 0) as [->|Hne].
  { exists (mk_snapshot base 0 [] true). split_and!; [done | simpl; unfold zlen; simpl; lia | lia |].
    intros _. split; [lia |]. split; [| done]. intros _. split; [lia |]. intros i Hi. lia. }
  set (sz := if max_bytes <? size then max_bytes else size).
  assert (Hsz : sz = Z.min size max_bytes) by (unfold sz; destruct (Z.ltb_spec max_bytes size); lia).
  cbv zeta. fold sz. rewrite <- Hsz.
  assert (HL : zlen (replicate (Z.to_nat sz) 0) = sz) by (unfold zlen; rewrite length_replicate; lia).
  destruct (capture_pass r base sz Hb ltac:(lia) (S (Z.to_nat (sz / kChunk))) 0 tok
              (replicate (Z.to_nat sz) 0) false) as (st & b' & h' & t' & -> & Hh & Ht & Hd);
    [lia | | done |].
  { pose proof (Z.mul_succ_div_gt sz kChunk ltac:(done)).
    pose proof (Z.div_pos sz kChunk ltac:(lia) ltac:(done)). unfold kChunk in *. lia. }
  simpl. eexists. split; [done |]. simpl.
  assert (Hrep : forall i, 0 <= i < sz -> replicate (Z.to_nat sz) 0 !! Z.to_nat i = Some 0).
  { intros i Hi. apply lookup_replicate_2. lia. }
  split_and!.
  - unfold zlen. rewrite (proj1 Hh). exact HL.
  - intros i Hi. destruct (proj2 Hh i ltac:(lia)) as [->|]; [left; by apply Hrep | by right].
  - intros Hn. destruct (Ht Hn) as [-> _]. destruct (Hd eq_refl) as [[_ Hcp] Hho]. split.
    + intros i Hi. destruct (Hcp i ltac:(lia)) as [E1 E2].
      destruct (mem r (base + i)) as [b|] eqn:Hmi; simpl; [by apply E1; [lia |] |].
      rewrite E2 by auto. by apply Hrep.
    + rewrite !andb_true_iff, !negb_true_iff. rewrite Z.ltb_ge. split.
      * intros [[_ Hf] Hle]. split; [lia |]. intros i Hi.
        destruct (mem r (base + i)) as [b|] eqn:Hmi; [by eexists | exfalso].
        assert (h' = true); [| congruence]. apply Hho. right. exists i. split_and!; (done || lia).
      * intros [Hle Hrd]. split_and!; [done | | lia]. apply not_true_iff_false. intros Hx.
        apply Hho in Hx as [?|(i & Hi & _ & Hmi)]; [done |].
        destruct (Hrd i ltac:(lia)) as [b Hbb]. congruence.
Qed.

Lemma snapshot_capture_spec_witness :
  exists snap, snapshot_capture ([(16, [1; 2; 3]); (21, [6; 7; 8])] : Paged.t) 16 8 None 100 = Some snap /\
    zlen (snap_bytes snap) = Z.min 8 100 /\
    (forall i, 0 <= i < Z.min 8 100 ->
       snap_bytes snap !! Z.to_nat i = Some 0 \/
       snap_bytes snap !! Z.to_nat i = mem ([(16, [1; 2; 3]); (21, [6; 7; 8])] : Paged.t) (16 + i)) /\
    (None = None :> cancel_token_t ->
       (forall i, 0 <= i < Z.min 8 100 ->
          snap_bytes snap !! Z.to_nat i =
            Some (default 0 (mem ([(16, [1; 2; 3]); (21, [6; 7; 8])] : Paged.t) (16 + i)))) /\
       (complete snap = true <->
          8 <= 100 /\ readable ([(16, [1; 2; 3]); (21, [6; 7; 8])] : Paged.t) 16 8)).
Proof. apply (snapshot_capture_spec ([(16, [1; 2; 3]); (21, [6; 7; 8])] : Paged.t) 16 8 None 100); lia. Defined.

(** ** The diff *)

Definition in_span (s : snapshot_span_t) (i : Z) : Prop := offset s <= i < offset s + length_ s.

Lemma run_len_spec a b :
  length a = length b ->
  (run_len a b <= length a)%nat /\
  (forall j x y, (j < run_len a b)%nat -> a !! j = Some x -> b !! j = Some y -> x <> y) /\
  (forall x y, a !! run_len a b = Some x -> b !! run_len a b = Some y -> x = y).
Proof.
  revert b. induction a as [|x a IH]; intros [|y b] Hl; simpl in *; try done.
  destruct (Z.eqb_spec x y) as [->|Hne]; [split_and!; [lia | intros; exfalso; lia | by intros ?? [= <-] [= <-]] |].
  destruct (IH b ltac:(lia)) as (H1 & H2 & H3). split_and!; [lia | | done].
  intros [|j] x' y' Hj; simpl; [by intros [= <-] [= <-] | apply H2; lia].
Qed.

(** The spans from position [i]: what they cover, and that they are maximal runs
    in order (two neighbours are separated by an equal byte). *)
Definition spans_of (i : Z) (a b : list Z) (out : list snapshot_span_t) : Prop :=
  Forall (fun s => i <= offset s /\ 1 <= length_ s /\ offset s + length_ s <= i + zlen a) out /\
  StronglySorted (fun s t => offset s + length_ s < offset t) out /\
  (forall j x y, a !! j = Some x -> b !! j = Some y ->
     (Exists (fun s => in_span s (i + Z.of_nat j)) out <-> x <> y)).

(** The loop without its cap. *)
Fixpoint all_spans (fuel : nat) (i : Z) (a b : list Z) : list snapshot_span_t :=
  match fuel, a, b with
  | S fuel', x :: a', y :: b' =>
      if x =? y then all_spans fuel' (i + 1) a' b'
      else let n := run_len a b in
           mk_span i (Z.of_nat n) :: all_spans fuel' (i + Z.of_nat n) (drop n a) (drop n b)
  | _, _, _ => []
  end.

Lemma diff_loop_prefix fuel i a b out :
  zlen out < max_diff_ranges ->
  diff_loop fuel i a b out =
    out ++ take (Z.to_nat (max_diff_ranges - zlen out)) (all_spans fuel i a b).
Proof.
  revert i a b out. induction fuel as [|fuel IH]; intros i [|x a] [|y b] out Hout;
    try (simpl; by rewrite take_nil, app_nil_r). cbn [diff_loop all_spans].
  destruct (x =? y); [by apply IH |]. cbv zeta.
  set (n := run_len (x :: a) (y :: b)). set (s := mk_span i (Z.of_nat n)).
  assert (Hz : zlen (out ++ [s]) = zlen out + 1) by (rewrite zlen_app; done).
  replace (Z.to_nat (max_diff_ranges - zlen out)) with
    (S (Z.to_nat (max_diff_ranges - zlen (out ++ [s])))) by lia.
  cbn [take]. destruct (Z.leb_spec max_diff_ranges (zlen (out ++ [s]))) as [Hle|Hgt].
  - replace (Z.to_nat (max_diff_ranges - zlen (out ++ [s]))) with 0%nat by lia. done.
  - rewrite IH by done. by rewrite <- app_assoc.
Qed.

Lemma all_spans_spec fuel i a b :
  length a = length b -> (length a <= fuel)%nat -> spans_of i a b (all_spans fuel i a b).
Proof.
  revert i a b. induction fuel as [|fuel IH]; intros i a b Hl Hf.
  { destruct a; [|simpl in Hf; lia]. split_and!; [constructor | constructor | done]. }
  destruct a as [|x a]; [split_and!; [constructor | constructor | done] |].
  destruct b as [|y b]; [done |]. simpl in Hl, Hf. cbn [all_spans].
  destruct (Z.eqb_spec x y) as [->|Hne].
  - destruct (IH (i + 1) a b ltac:(lia) ltac:(lia)) as (F & S1 & C).
    assert (F' : Forall (fun s => i + 1 <= offset s /\ 1 <= length_ s /\
                   offset s + length_ s <= i + zlen (y :: a)) (all_spans fuel (i + 1) a b)).
    { eapply Forall_impl; [exact F |]. intros t Ht. unfold zlen in *. simpl in *. lia. }
    split_and!; [eapply Forall_impl; [exact F' | simpl; intros t Ht; lia] | done |].
    intros [|j] x' y'; simpl.
    + intros [= <-] [= <-]. split; [| done]. intros Hx. exfalso.
      apply Exists_exists in Hx as (s & Hs & Hin).
      rewrite Forall_forall in F'. specialize (F' s Hs). unfold in_span in Hin. lia.
    + intros Hx Hy. specialize (C j x' y' Hx Hy).
      replace (i + Z.of_nat (S j)) with (i + 1 + Z.of_nat j) by lia. exact C.
  - destruct (run_len_spec (x :: a) (y :: b)) as (H1 & H2 & H3); [simpl; lia |].
    assert (Hn : (1 <= run_len (x :: a) (y :: b))%nat).
    { simpl. destruct (Z.eqb_spec x y); [done | lia]. }
    cbv zeta. set (n := run_len (x :: a) (y :: b)) in *. set (s := mk_span i (Z.of_nat n)).
    destruct (IH (i + Z.of_nat n) (drop n (x :: a)) (drop n (y :: b))) as (F & S1 & C);
      [rewrite !length_drop; simpl; lia | rewrite length_drop; simpl; lia |].
    set (rest := all_spans fuel (i + Z.of_nat n) (drop n (x :: a)) (drop n (y :: b))) in *.
    unfold zlen in F. rewrite length_drop in F. split_and!.
    + constructor; [unfold zlen, s; simpl in *; lia |].
      eapply Forall_impl; [exact F |]. intros t Ht. unfold zlen. simpl in *. lia.
    + constructor; [done |]. apply Forall_forall. intros t Ht. simpl.
      pose proof (proj1 (Forall_forall _ _) F t Ht) as Hb. simpl in Hb.
      destruct (decide (offset t = i + Z.of_nat n)) as [Heq|]; [exfalso | lia].
      (* the byte after the run is equal, so no span starts there *)
      destruct (lookup_lt_is_Some_2 (x :: a) n) as [x' Hx']; [simpl in *; lia |].
      destruct (lookup_lt_is_Some_2 (y :: b) n) as [y' Hy']; [simpl in *; lia |].
      apply (C 0%nat x' y'); rewrite ?lookup_drop, ?Nat.add_0_r; try done; [| by eapply H3].
      apply Exists_exists. exists t. split; [done |]. unfold in_span. lia.
    + intros j x' y' Hx Hy. rewrite Exists_cons. destruct (decide (j < n)%nat) as [Hj|Hj].
      * split; [intros _; by eapply H2 | intros _; left; unfold in_span, s; simpl; lia].
      * rewrite <- (C (j - n)%nat x' y')
          by (rewrite lookup_drop; replace (n + (j - n))%nat with j by lia; done).
        replace (i + Z.of_nat n + Z.of_nat (j - n)) with (i + Z.of_nat j) by lia.
        split; [intros [Hin|?]; [unfold in_span, s in Hin; simpl in Hin; lia | done] | by right].
Qed.

(** Two captures compare as valid exactly when they cover the same region;
    then the spans reported are the first 250000 of the maximal runs of differing
    bytes, in address order and separated by at least one equal byte: a position
    below the cap is inside a span exactly when its bytes differ. *)
Lemma snapshot_diff_spec a b :
  (valid (snapshot_diff a b) = true <->
     snap_base a = snap_base b /\ snap_size a = snap_size b /\
     zlen (snap_bytes a) = zlen (snap_bytes b)) /\
  (valid (snapshot_diff a b) = true ->
     exists all, changed (snapshot_diff a b) = take (Z.to_nat max_diff_ranges) all /\
       spans_of 0 (snap_bytes a) (snap_bytes b) all).
Proof.
  unfold snapshot_diff.
  destruct (Z.eqb_spec (snap_base a) (snap_base b)) as [E1|E1],
    (Z.eqb_spec (snap_size a) (snap_size b)) as [E2|E2],
    (Z.eqb_spec (zlen (snap_bytes a)) (zlen (snap_bytes b))) as [E3|E3]; simpl;
    try (split; [split; [done | tauto] | done]).
  split; [done |]. intros _. exists (all_spans (length (snap_bytes a)) 0 (snap_bytes a) (snap_bytes b)).
  rewrite diff_loop_prefix by done. split; [done |].
  apply all_spans_spec; [unfold zlen in E3; lia | lia].
Qed.

Lemma snapshot_diff_spec_witness :
  valid (snapshot_diff (mk_snapshot 16 4 [1; 2; 3; 4] true) (mk_snapshot 16 4 [1; 7; 8; 4] true)) = true /\
  exists all, changed (snapshot_diff (mk_snapshot 16 4 [1; 2; 3; 4] true)
                         (mk_snapshot 16 4 [1; 7; 8; 4] true)) = take (Z.to_nat max_diff_ranges) all /\
    spans_of 0 [1; 2; 3; 4] [1; 7; 8; 4] all.
Proof.
  split; [reflexivity |].
  apply (snapshot_diff_spec (mk_snapshot 16 4 [1; 2; 3; 4] true) (mk_snapshot 16 4 [1; 7; 8; 4] true)).
  reflexivity.
Defined.
