(* ===== verification/Values.v ===== *)
(** * Scan values: widths, text and the comparison kernel of memscan.cpp

    Width helpers, value text, the float and integer predicates of
    src/core/memory/memscan.cpp.  Doubles and floats are [spec_float] values with
    the IEEE operations of the Standard Library; what a cast of an out-of-range
    double yields (undefined in C++) and the C library's float text conversions
    are parameters. *)

From S2P Require Import Prelude.
From Corelib Require Import SpecFloat.

#[local] Open Scope Z_scope.

Inductive value_width_t : Type := w_i8 | w_u8 | w_i16 | w_u16 | w_i32 | w_u32 | w_i64 | w_u64 | w_f32 | w_f64.

#[export] Instance value_width_eq_dec : EqDecision value_width_t.
Proof. solve_decision. Defined.

Inductive scan_type_t : Type :=
| exact_value | between | bigger_than | smaller_than | unknown_initial
| increased | increased_by | decreased | decreased_by
| increased_percent | decreased_percent | changed | unchanged.

#[export] Instance scan_type_eq_dec : EqDecision scan_type_t.
Proof. solve_decision. Defined.

Inductive rounding_t : Type := r_exact | r_rounded | r_truncated | r_extreme.

Definition value_size (w : value_width_t) : Z :=
  match w with
  | w_i8 | w_u8 => 1
  | w_i16 | w_u16 => 2
  | w_i32 | w_u32 | w_f32 => 4
  | w_i64 | w_u64 | w_f64 => 8
  end.

Definition width_is_signed (w : value_width_t) : bool :=
  match w with w_i8 | w_i16 | w_i32 | w_i64 => true | _ => false end.

Definition width_is_float (w : value_width_t) : bool :=
  match w with w_f32 | w_f64 => true | _ => false end.

Definition sign_extend (bits : Z) (w : value_width_t) : Z :=
  match w with
  | w_i8 => signed_of 8 bits
  | w_i16 => signed_of 16 bits
  | w_i32 => signed_of 32 bits
  | _ => signed_of 64 bits
  end.

(** ** Floats *)

Definition prec_of (w : value_width_t) : Z := match w with w_f32 => 24 | _ => 53 end.
Definition emax_of (w : value_width_t) : Z := match w with w_f32 => 128 | _ => 1024 end.

(** [bits_as<float>], [bits_as<double>]: the IEEE 754 fields. *)
Definition decode_float (w : value_width_t) (bits : Z) : spec_float :=
  let mb := prec_of w - 1 in
  let eb := match w with w_f32 => 8 | _ => 11 end in
  let m := bits mod 2 ^ mb in
  let e := bits / 2 ^ mb mod 2 ^ eb in
  let s := Z.testbit bits (mb + eb) in
  let emin := 3 - emax_of w - prec_of w in
  if e =? 0 then match m with Zpos p => S754_finite s p emin | _ => S754_zero s end
  else if e =? 2 ^ eb - 1 then (if m =? 0 then S754_infinity s else S754_nan)
  else match m + 2 ^ mb with Zpos p => S754_finite s p (emin + e - 1) | _ => S754_nan end.

(** [static_cast<F>]: round to nearest even at the target precision. *)
Definition cast_to (w : value_width_t) (v : spec_float) : spec_float :=
  match v with
  | S754_finite s m e =>
      binary_normalize (prec_of w) (emax_of w) (if s then Zneg m else Zpos m) e s
  | _ => v
  end.
Definition to_double (v : spec_float) : spec_float := cast_to w_f64 v.
Definition double_of_Z (n : Z) : spec_float := binary_normalize 53 1024 n 0 false.

Definition dadd := SFadd 53 1024.
Definition dsub := SFsub 53 1024.
Definition dmul := SFmul 53 1024.
Definition ddiv := SFdiv 53 1024.

Definition flt (a b : spec_float) : bool := match SFcompare a b with Some Lt => true | _ => false end.
Definition feq (a b : spec_float) : bool := match SFcompare a b with Some Eq => true | _ => false end.
Definition fle (a b : spec_float) : bool := flt a b || feq a b.
Definition fne (a b : spec_float) : bool := negb (feq a b).

(** [nearbyint] in the default rounding mode: nearest integer, ties to even. *)
Definition nearbyint (v : spec_float) : spec_float :=
  match v with
  | S754_finite s m e =>
      if 0 <=? e then v
      else
        let d := 2 ^ (- e) in
        let q := Zpos m / d in
        let r := Zpos m mod d in
        let n := if (2 * r <? d) || ((2 * r =? d) && Z.even q) then q else q + 1 in
        if n =? 0 then S754_zero s
        else binary_normalize 53 1024 (if s then - n else n) 0 s
  | _ => v
  end.

(** [std::pow(10.0, n)] for the accuracies in use (0 to 15), exact as a double. *)
Definition pow10 (n : Z) : spec_float := double_of_Z (10 ^ n).

Definition round_to (v : spec_float) (digits : Z) : spec_float :=
  let p := pow10 digits in ddiv (nearbyint (dmul v p)) p.

Definition round_eps (accuracy : Z) : spec_float :=
  if accuracy =? 0 then double_of_Z 1 else ddiv (double_of_Z 1) (pow10 accuracy).

(** Truncation toward zero, [None] for NaN and infinities. *)
Definition trunc_Z (v : spec_float) : option Z :=
  match v with
  | S754_zero _ => Some 0
  | S754_finite s m e =>
      let a := if 0 <=? e then Zpos m * 2 ^ e else Zpos m / 2 ^ (- e) in
      Some (if s then - a else a)
  | _ => None
  end.

Definition width_bits (w : value_width_t) : Z := 8 * value_size w.

Definition int_range (w : value_width_t) (n : Z) : bool :=
  if width_is_signed w
  then (- 2 ^ (width_bits w - 1) <=? n) && (n <? 2 ^ (width_bits w - 1))
  else (0 <=? n) && (n <? 2 ^ width_bits w).

(** ** Configuration *)

Inductive fastscan_method_t : Type := fast_off | fast_align | fast_ends_with.
Inductive region_pref_t : Type := pref_any | pref_include | pref_exclude.

Record scan_config_t := mk_cfg {
  cfg_type : scan_type_t; cfg_width : value_width_t; scan_all_types : bool;
  rounding : rounding_t; value1 : spec_float; value2 : spec_float; float_accuracy : Z;
  fast : fastscan_method_t; fast_alignment : Z; fast_digits : Z; fast_tail : Z;
  writable : region_pref_t; executable : region_pref_t; copy_on_write : region_pref_t;
  mem_private : bool; mem_image : bool; mem_mapped : bool;
  cfg_begin : Z; cfg_end : Z; cfg_max_results : Z; cfg_threads : Z; cfg_chunk_bytes : Z
}.

Definition is_relational (t : scan_type_t) : bool :=
  match t with
  | unknown_initial | increased | increased_by | decreased | decreased_by
  | increased_percent | decreased_percent | changed | unchanged => true
  | _ => false
  end.

Section Kernel.
(** What the compiled cast of an unrepresentable double yields. *)
Variable ub_cast : value_width_t -> spec_float -> Z.
(** [strtod] on a whole text, and ["%.9g"] / ["%.17g"]. *)
Variable strtod : list Z -> option spec_float.
Variable format_g : Z -> spec_float -> list Z.
(** The bit pattern of a float, the inverse of [decode_float]. *)
Variable encode_float : value_width_t -> spec_float -> Z.

Definition value_from_double (w : value_width_t) (v : spec_float) : Z :=
  if width_is_float w then encode_float w (cast_to w v)
  else match trunc_Z v with
       | Some n => if int_range w n then wrap (width_bits w) n else ub_cast w v
       | None => ub_cast w v
       end.

Definition value_to_double (w : value_width_t) (bits : Z) : spec_float :=
  match w with
  | w_f32 => to_double (decode_float w_f32 (u32 bits))
  | w_f64 => decode_float w_f64 bits
  | w_i8 | w_i16 | w_i32 | w_i64 => double_of_Z (sign_extend bits w)
  | _ => double_of_Z bits
  end.

(** *** Value text *)

Definition trim_char (c : Z) : bool := (c =? ch " ") || (c =? 9).

Fixpoint trim_front (t : list Z) : list Z :=
  match t with c :: t' => if trim_char c then trim_front t' else t | [] => [] end.
Definition trim (t : list Z) : list Z := rev (trim_front (rev (trim_front t))).

Definition digit_val (c : Z) : Z :=
  if isdigit c then c - 48
  else if (97 <=? c) && (c <=? 122) then c - 87
  else if (65 <=? c) && (c <=? 90) then c - 55
  else 36.

(** Digits of [base] from the front: value, how many, and what is left. *)
Fixpoint digits (base acc : Z) (n : nat) (t : list Z) : Z * nat * list Z :=
  match t with
  | c :: t' => if digit_val c <? base then digits base (acc * base + digit_val c) (S n) t'
               else (acc, n, t)
  | [] => (acc, n, [])
  end.

Fixpoint skip_space (t : list Z) : list Z :=
  match t with c :: t' => if isspace c then skip_space t' else t | [] => [] end.

(** [strtoll] / [strtoull] with base 0: sign, magnitude and the rest of the text
    from [endp]; [None] when nothing was converted. *)
Definition strto_int (t : list Z) : option (bool * Z * list Z) :=
  let t := skip_space t in
  let '(neg, t) := match t with
                   | c :: t' => if c =? ch "-" then (true, t')
                                else if c =? ch "+" then (false, t') else (false, t)
                   | [] => (false, t)
                   end in
  match t with
  | c0 :: c1 :: c2 :: _ =>
      if (c0 =? ch "0") && ((c1 =? ch "x") || (c1 =? ch "X")) && isxdigit c2 then
        let '(v, _, rest) := digits 16 0 0 (drop 2 t) in Some (neg, v, rest)
      else
        let '(v, n, rest) := digits (if c0 =? ch "0" then 8 else 10) 0 0 t in
        match n with O => None | _ => Some (neg, v, rest) end
  | c0 :: _ =>
      let '(v, n, rest) := digits (if c0 =? ch "0" then 8 else 10) 0 0 t in
      match n with O => None | _ => Some (neg, v, rest) end
  | [] => None
  end.

Definition strtoll (t : list Z) : option (Z * list Z) :=
  match strto_int t with
  | Some (neg, v, rest) =>
      let n := if neg : bool then - v else v in
      if (- 2 ^ 63 <=? n) && (n <? 2 ^ 63) then Some (n, rest) else None
  | None => None
  end.

Definition strtoull (t : list Z) : option (Z * list Z) :=
  match strto_int t with
  | Some (neg, v, rest) =>
      if v <? 2 ^ 64 then Some (u64 (if neg : bool then - v else v), rest) else None
  | None => None
  end.

Definition parse_value_text (w : value_width_t) (text : list Z) : option Z :=
  let buf := trim text in
  if bool_decide (buf = []) || (64 <=? zlen buf) then None
  else if width_is_float w then value_from_double w <$> strtod buf
  else
    out_bits ←
      (if width_is_signed w then
         '((v, rest) : Z * list Z) ← strtoll buf;
         if bool_decide (rest = []) then Some (u64 v) else None
       else if starts_with (bs "-") buf then None
       else
         '((v, rest) : Z * list Z) ← strtoull buf;
         if bool_decide (rest = []) then Some v else None);
    Some (if value_size w <? 8 then Z.land out_bits (Z.shiftl 1 (value_size w * 8) - 1) else out_bits).

(** ["%lld"]. *)
Definition dec_signed (n : Z) : list Z := if n <? 0 then bs "-" ++ dec (- n) else dec n.

Definition format_value_text (w : value_width_t) (bits : Z) : list Z :=
  match w with
  | w_i8 | w_i16 | w_i32 | w_i64 => dec_signed (sign_extend bits w)
  | w_u8 | w_u16 | w_u32 | w_u64 => dec bits
  | w_f32 => format_g 9 (to_double (decode_float w_f32 (u32 bits)))
  | w_f64 => format_g 17 (decode_float w_f64 bits)
  end.

(** *** Predicates *)

(** [float_check<F>] with [F] given by its width. *)
Definition float_check (cfg : scan_config_t) (w : value_width_t) (curr p : spec_float) : bool :=
  let v1 := cast_to w (value1 cfg) in
  let v2 := cast_to w (value2 cfg) in
  let acc := float_accuracy cfg in
  let d := to_double in
  match cfg_type cfg with
  | unknown_initial => true
  | exact_value =>
      match rounding cfg with
      | r_exact => feq curr v1
      | r_rounded => feq (round_to (d curr) acc) (round_to (d v1) acc)
      | r_truncated =>
          let hi := cast_to w (dadd (d v1) (round_eps acc)) in fle v1 curr && flt curr hi
      | r_extreme =>
          let eps := cast_to w (round_eps acc) in
          fle (cast_to w (dsub (d v1) (d eps))) curr &&
          fle curr (cast_to w (dadd (d v1) (d eps)))
      end
  | between => fle v1 curr && fle curr v2
  | bigger_than => flt v1 curr
  | smaller_than => flt curr v1
  | increased => flt p curr
  | increased_by => fne curr p && feq (round_to (d curr) acc) (round_to (dadd (d p) (d v1)) acc)
  | decreased => flt curr p
  | decreased_by => fne curr p && feq (round_to (d curr) acc) (round_to (dsub (d p) (d v1)) acc)
  | increased_percent =>
      flt (dadd (d p) (dmul (d p) (value1 cfg))) (d curr) &&
      flt (d curr) (dadd (d p) (dmul (d p) (value2 cfg)))
  | decreased_percent =>
      flt (dsub (d p) (dmul (d p) (value2 cfg))) (d curr) &&
      flt (d curr) (dsub (d p) (dmul (d p) (value1 cfg)))
  | changed => fne curr p
  | unchanged => feq curr p
  end.

(** The signed 64-bit reading of stored bits. *)
Definition widen (w : value_width_t) (bits : Z) : Z :=
  if width_is_signed w then sign_extend bits w else signed_of 64 bits.

Definition operand (w : value_width_t) (v : spec_float) : Z :=
  let bits := value_from_double w v in
  let bits := if value_size w <? 8 then Z.land bits (Z.shiftl 1 (value_size w * 8) - 1) else bits in
  widen w bits.

Definition int_check (cfg : scan_config_t) (w : value_width_t) (curr prev : Z) : bool :=
  let sc := widen w curr in
  let sp := widen w prev in
  let s1 := operand w (value1 cfg) in
  let s2 := operand w (value2 cfg) in
  match cfg_type cfg with
  | unknown_initial => true
  | changed => negb (curr =? prev)
  | unchanged => curr =? prev
  | increased_percent | decreased_percent => false
  | exact_value => sc =? s1
  | between => (s1 <=? sc) && (sc <=? s2)
  | bigger_than => s1 <? sc
  | smaller_than => sc <? s1
  | increased => sp <? sc
  | decreased => sc <? sp
  | increased_by => signed_of 64 (sc - sp) =? s1
  | decreased_by => signed_of 64 (sp - sc) =? s1
  end.

Definition check_value (cfg : scan_config_t) (w : value_width_t) (curr prev : Z) : bool :=
  if width_is_float w then
    match w with
    | w_f32 => float_check cfg w_f32 (decode_float w_f32 (u32 curr)) (decode_float w_f32 (u32 prev))
    | _ => float_check cfg w_f64 (decode_float w_f64 curr) (decode_float w_f64 prev)
    end
  else int_check cfg w curr prev.
End Kernel.

(** Decimals of a value text. *)
Fixpoint find_char (P : Z -> bool) (t : list Z) : option Z :=
  match t with
  | [] => None
  | c :: t' => if P c then Some 0 else Z.succ <$> find_char P t'
  end.

Definition float_accuracy_from_text (text : list Z) : Z :=
  match find_char (fun c => c =? ch ".") text with
  | None => 0
  | Some dot =>
      let e := find_char (fun c => (c =? ch "e") || (c =? ch "E")) text in
      if match e with Some e => e <? dot | None => false end then 0
      else
        let end_ := match e with None => zlen text | Some e => e end in
        if end_ <=? dot + 1 then 0
        else if 15 <? end_ - dot - 1 then 15
        else end_ - dot - 1
  end.

(** ** Value text round trip *)

Section TextRoundTrip.
Variables (ub_cast : value_width_t -> spec_float -> Z)
  (strtod : list Z -> option spec_float) (format_g : Z -> spec_float -> list Z)
  (encode_float : value_width_t -> spec_float -> Z).

Lemma digits_dec acc n ds :
  Forall (fun c => isdigit c = true) ds ->
  digits 10 acc n ds = (dec_val acc ds, (n + length ds)%nat, []).
Proof.
  intros Hd. revert acc n. induction Hd as [|c ds Hc Hd IH]; intros acc n; cbn [digits length].
  - by rewrite Nat.add_0_r.
  - assert (digit_val c = c - 48 /\ c - 48 < 10) as [-> Hlt].
    { unfold digit_val. rewrite Hc. apply isdigit_range in Hc. lia. }
    rewrite (proj2 (Z.ltb_lt _ _) Hlt), IH. f_equal. f_equal. lia.
Qed.

(** The magnitude read by [strtoll] from printed digits. *)
Lemma strto_int_dec n : 0 <= n -> strto_int (dec n) = Some (false, n, []).
Proof.
  intros Hn. destruct (dec_spec n Hn) as (Hne & Hd & Hv & _ & Hz).
  destruct (dec n) as [|c ds]; [done |]. clear Hne.
  assert (Hr : 48 <= c <= 57) by (apply isdigit_range; by inversion Hd).
  unfold strto_int. cbn [skip_space]. unfold isspace.
  destruct (Z.eqb_spec c 32); [lia |]. destruct (Z.leb_spec 9 c), (Z.leb_spec c 13); try lia. cbn [orb andb].
  change (ch "-") with 45. change (ch "+") with 43. change (ch "0") with 48.
  destruct (Z.eqb_spec c 45); [lia |]. destruct (Z.eqb_spec c 43); [lia |]. destruct (Z.eqb_spec c 48) as [->|Hc0].
  - pose proof (Hz eq_refl) as E. injection E as ->. rewrite <- Hv. done.
  - assert (Hdig : digits 10 0 0 (c :: ds) = (n, S (length ds), [])).
    { rewrite digits_dec by done. by rewrite Hv. }
    destruct ds as [|c1 [|c2 ds]]; cbn [andb]; by rewrite Hdig.
Qed.

(** [strto_int] on digits after their sign. *)
Lemma strto_int_neg n : 0 < n -> strto_int (bs "-" ++ dec n) = Some (true, n, []).
Proof.
  intros Hn. pose proof (strto_int_dec n ltac:(lia)) as Hp.
  destruct (dec_spec n ltac:(lia)) as (Hne & Hdig & Hv & _ & Hz).
  destruct (dec n) as [|c ds]; [done |].
  assert (Hr : 48 <= c <= 57) by (apply isdigit_range; by inversion Hdig).
  change (bs "-" ++ c :: ds) with (45 :: c :: ds).
  unfold strto_int in Hp |- *. change (ch "0") with 48 in *. cbn [skip_space] in *.
  unfold isspace in *. destruct (Z.eqb_spec c 32); [lia |].
  destruct (Z.leb_spec 9 c), (Z.leb_spec c 13); try lia. cbn [orb andb] in Hp.
  change (ch "-") with 45 in *. change (ch "+") with 43 in *.
  destruct (Z.eqb_spec c 45); [lia |]. destruct (Z.eqb_spec c 43); [lia |].
  change ((45 =? 32) || (9 <=? 45) && (45 <=? 13)) with false. cbv iota.
  change (45 =? 45) with true. cbv iota.
  destruct ds as [|c1 [|c2 ds]]; cbv iota in Hp |- *.
  - destruct (digits _ 0 0 [c]) as [[v [|k]] rest]; congruence.
  - destruct (digits _ 0 0 [c; c1]) as [[v [|k]] rest]; congruence.
  - destruct ((c =? 48) && _ && _).
    + destruct (digits 16 _ _ _) as [[v k] rest]; congruence.
    + destruct (digits _ 0 0 _) as [[v [|k]] rest]; congruence.
Qed.

(** Printed integers have no blanks to trim. *)
Lemma trim_plain t :
  Forall (fun c => trim_char c = false) t -> trim t = t.
Proof.
  assert (Hf : forall t, Forall (fun c => trim_char c = false) t -> trim_front t = t).
  { intros [|c t'] Ht; [done |]. inversion Ht as [|? ? Hc]; subst. cbn [trim_front]. by rewrite Hc. }
  intros Ht. unfold trim. rewrite (Hf t Ht), Hf; [apply rev_involutive |].
  by apply Forall_rev.
Qed.

Lemma dec_plain n : 0 <= n -> Forall (fun c => trim_char c = false) (dec n).
Proof.
  intros Hn. destruct (dec_spec n Hn) as (_ & Hd & _). eapply Forall_impl; [exact Hd |].
  intros c Hc. cbv beta. apply isdigit_range in Hc.
  unfold trim_char. change (ch " ") with 32. apply orb_false_intro; apply Z.eqb_neq; lia.
Qed.
End TextRoundTrip.

(** The number that [width_bits w] bits denote in an integer width. *)
Definition int_value (w : value_width_t) (bits : Z) : Z :=
  if width_is_signed w then signed_of (width_bits w) bits else bits.

Lemma wrap_signed n z : 0 <= n -> wrap n (signed_of n z) = wrap n z.
Proof.
  intros Hn. unfold signed_of. destruct (_ <? _); [by apply wrap_wrap |].
  unfold wrap. pose proof (Z.pow_pos_nonneg 2 n ltac:(lia) Hn).
  rewrite Zminus_mod, Z_mod_same_full, Z.sub_0_r, !Zmod_mod. done.
Qed.

Lemma signed_of_small n z : 1 <= n -> - 2 ^ (n - 1) <= z < 2 ^ (n - 1) -> signed_of n z = z.
Proof.
  intros Hn Hz. unfold signed_of, wrap.
  assert (2 ^ n = 2 * 2 ^ (n - 1)) by (rewrite <- Z.pow_succ_r by lia; f_equal; lia).
  destruct (Z_lt_le_dec z 0).
  - replace (z mod 2 ^ n) with (z + 2 ^ n).
    + destruct (Z.ltb_spec (z + 2 ^ n) (2 ^ (n - 1))); lia.
    + rewrite <- (Z_mod_plus_full z 1 (2 ^ n)). rewrite Z.mod_small; lia.
  - rewrite Z.mod_small by lia. destruct (Z.ltb_spec z (2 ^ (n - 1))); lia.
Qed.

Lemma sign_extend_value w bits :
  width_is_signed w = true -> sign_extend bits w = signed_of (width_bits w) bits.
Proof. by destruct w. Qed.

Lemma int_mask w z :
  width_is_float w = false ->
  (if value_size w <? 8 then Z.land z (Z.shiftl 1 (value_size w * 8) - 1) else u64 z) = wrap (width_bits w) z.
Proof.
  assert (Hm : forall n, 0 <= n -> Z.land z (Z.shiftl 1 n - 1) = wrap n z).
  { intros n Hn. replace (Z.shiftl 1 n - 1) with (Z.ones n).
    - by rewrite Z.land_ones by lia.
    - rewrite Z.ones_equiv, Z.shiftl_1_l. lia. }
  intros Hf. destruct w; try done; apply Hm; done.
Qed.

(** Facts about a printed integer: it reads back, has no blanks and fits the buffer. *)
Lemma dec_signed_spec v :
  - 10 ^ 20 < v < 10 ^ 20 ->
  strto_int (dec_signed v) = Some (v <? 0, Z.abs v, []) /\
  trim (dec_signed v) = dec_signed v /\ 1 <= zlen (dec_signed v) <= 21.
Proof.
  intros Hv. unfold dec_signed. destruct (Z.ltb_spec v 0).
  - rewrite strto_int_neg, Z.abs_neq by lia. split; [done |]. split.
    + apply trim_plain. constructor; [done | apply dec_plain; lia].
    + pose proof (dec_length (- v) 20 ltac:(lia) ltac:(lia)). pose proof (zlen_nonneg (dec (- v))).
      rewrite zlen_app. change (zlen (bs "-")) with 1. lia.
  - rewrite strto_int_dec, Z.abs_eq by lia. split; [done |]. split.
    + apply trim_plain, dec_plain. lia.
    + pose proof (dec_length v 20 ltac:(lia) ltac:(lia)).
      destruct (dec_spec v ltac:(lia)) as (Hne & _). destruct (dec v); [done |].
      unfold zlen in *. cbn [length] in *. lia.
Qed.

Lemma dec_not_negative n : 0 <= n -> starts_with (bs "-") (dec n) = false.
Proof.
  intros Hn. destruct (dec_spec n Hn) as (Hne & Hd & _). unfold starts_with.
  apply bool_decide_eq_false_2. destruct (dec n) as [|c ds]; [done |].
  inversion Hd as [|? ? Hc]; subst. apply isdigit_range in Hc.
  change (bs "-") with [45]. cbn [length take]. intros E. injection E. lia.
Qed.

Lemma wrap_le n m z : 0 <= n <= m -> wrap n (wrap m z) = wrap n z.
Proof.
  intros Hn. unfold wrap. apply Z.mod_mod_divide. exists (2 ^ (m - n)).
  rewrite <- Z.pow_add_r by lia. f_equal. lia.
Qed.

(** The number printed for stored bits, and the bits it stores to. *)
Lemma int_value_spec w bits :
  width_is_float w = false -> is_word (width_bits w) bits ->
  wrap (width_bits w) (int_value w bits) = bits /\
  int_range w (int_value w bits) = true.
Proof.
  intros Hf Hb. assert (1 <= width_bits w) by (by destruct w).
  unfold int_value, int_range, is_word in *. destruct (width_is_signed w).
  - rewrite wrap_signed, wrap_small by (lia || done). split; [done |].
    pose proof (signed_of_range (width_bits w) bits ltac:(lia)).
    apply andb_true_intro. split; [apply Z.leb_le | apply Z.ltb_lt]; lia.
  - rewrite wrap_small by done. split; [done |].
    apply andb_true_intro. split; [apply Z.leb_le | apply Z.ltb_lt]; lia.
Qed.

Lemma format_int_value format_g w bits :
  width_is_float w = false -> 0 <= bits ->
  format_value_text format_g w bits = dec_signed (int_value w bits).
Proof.
  intros Hf Hb. unfold int_value.
  destruct w; try done; cbn [format_value_text width_is_signed];
    unfold dec_signed; by rewrite (proj2 (Z.ltb_ge _ _)) by lia.
Qed.

(** Every integer width survives the value box: parsing the text that
    [format_value_text] prints for a stored value gives the same bits back. *)
Lemma value_text_roundtrip ub_cast strtod format_g encode_float w bits :
  width_is_float w = false -> is_word (width_bits w) bits ->
  parse_value_text ub_cast strtod encode_float w (format_value_text format_g w bits) = Some bits.
Proof.
  intros Hf Hb. destruct (int_value_spec w bits Hf Hb) as [Hv Hr].
  rewrite format_int_value by (done || (unfold is_word in Hb; lia)).
  assert (Hw : 8 <= width_bits w <= 64) by (by destruct w).
  assert (2 ^ width_bits w <= 2 ^ 64) by (apply Z.pow_le_mono_r; lia).
  assert (2 ^ (width_bits w - 1) <= 2 ^ 63) by (apply Z.pow_le_mono_r; lia).
  set (v := int_value w bits) in *.
  assert (Hv20 : - 10 ^ 20 < v < 10 ^ 20).
  { unfold int_range in Hr. destruct (width_is_signed w); apply andb_prop in Hr as [H1 H2];
      apply Z.leb_le in H1; apply Z.ltb_lt in H2; lia. }
  destruct (dec_signed_spec v Hv20) as (Hstr & Htrim & Hlen).
  unfold parse_value_text. rewrite Htrim, Hf.
  rewrite bool_decide_eq_false_2 by (intros E; rewrite E in Hlen; unfold zlen in Hlen; simpl in Hlen; lia).
  rewrite (proj2 (Z.leb_gt _ _)) by lia. cbn [orb].
  assert (Hend : forall z, u64 z = u64 v ->
    (if value_size w <? 8 then Z.land (u64 z) (Z.shiftl 1 (value_size w * 8) - 1) else u64 z) = bits).
  { intros z Hz. transitivity (wrap (width_bits w) (u64 z)).
    - rewrite <- (int_mask w (u64 z) Hf). by rewrite wrap_wrap by lia.
    - rewrite Hz, wrap_le by lia. done. }
  unfold int_range in Hr. destruct (width_is_signed w) eqn:Hs;
    apply andb_prop in Hr as [H1 H2]; apply Z.leb_le in H1; apply Z.ltb_lt in H2.
  - unfold strtoll. rewrite Hstr.
    replace (if v <? 0 then - Z.abs v else Z.abs v) with v by (destruct (Z.ltb_spec v 0); lia).
    rewrite (proj2 (Z.leb_le (- 2 ^ 63) v)), (proj2 (Z.ltb_lt v (2 ^ 63))) by lia.
    cbn [andb mbind option_bind]. rewrite bool_decide_eq_true_2 by done. cbn [mbind option_bind]. f_equal. by apply Hend.
  - unfold strtoull. rewrite Hstr. unfold dec_signed. rewrite (proj2 (Z.ltb_ge v 0)) by lia.
    rewrite dec_not_negative, (proj2 (Z.ltb_lt (Z.abs v) (2 ^ 64))) by lia. cbn [mbind option_bind].
    rewrite bool_decide_eq_true_2 by done. cbn [mbind option_bind]. f_equal.
    rewrite Z.abs_eq by lia. by apply Hend.
Qed.

Lemma value_text_roundtrip_witness :
  parse_value_text (fun _ _ => 0) (fun _ => None) (fun _ _ => 0) w_i16
    (format_value_text (fun _ _ => []) w_i16 65279) = Some 65279 /\
  format_value_text (fun _ _ => []) w_i16 65279 = bs "-257".
Proof.
  split; [|reflexivity].
  apply (value_text_roundtrip (fun _ _ => 0) (fun _ => None) (fun _ _ => []) (fun _ _ => 0) w_i16 65279);
    [reflexivity | unfold is_word; vm_compute; split; [discriminate | reflexivity]].
Defined.

(** ** The integer predicate against integer arithmetic *)

(** Stored bits and operands the signed 64-bit comparison can represent. *)
Definition fits (w : value_width_t) (n : Z) : Prop :=
  int_range w n = true /\ (w = w_u64 -> n < 2 ^ 63).

Lemma widen_value w bits :
  width_is_float w = false -> is_word (width_bits w) bits ->
  (w = w_u64 -> bits < 2 ^ 63) -> widen w bits = int_value w bits.
Proof.
  unfold is_word. intros Hf Hb Hu. unfold widen, int_value.
  destruct (width_is_signed w) eqn:Hs; [by apply sign_extend_value |].
  apply signed_of_small; [lia |].
  destruct w; try done; change (width_bits _) with 8 in Hb || change (width_bits _) with 16 in Hb
    || change (width_bits _) with 32 in Hb || specialize (Hu eq_refl); lia.
Qed.

Lemma operand_value ub_cast encode_float w v n :
  width_is_float w = false -> trunc_Z v = Some n -> fits w n ->
  operand ub_cast encode_float w v = n.
Proof.
  intros Hf Hn [Hr Hu]. assert (Hw : 1 <= width_bits w <= 64) by (by destruct w).
  assert (Hop : operand ub_cast encode_float w v = widen w (wrap (width_bits w) n)).
  { unfold operand, value_from_double. rewrite Hf, Hn, Hr. f_equal.
    pose proof (int_mask w (wrap (width_bits w) n) Hf) as Hm.
    destruct (value_size w <? 8) eqn:H8; [|done].
    rewrite Hm. apply wrap_wrap. lia. }
  rewrite Hop. unfold int_range in Hr.
  destruct (width_is_signed w) eqn:Hs; apply andb_prop in Hr as [H1 H2];
    apply Z.leb_le in H1; apply Z.ltb_lt in H2.
  - rewrite widen_value; [|done | apply wrap_range; lia | by intros ->].
    unfold int_value. rewrite Hs. unfold signed_of at 1. rewrite wrap_wrap by lia.
    fold (signed_of (width_bits w) n). apply signed_of_small; lia.
  - rewrite wrap_small by done. rewrite widen_value by done.
    unfold int_value. by rewrite Hs.
Qed.

(** The integer comparison kernel computes the comparison of the stored
    numbers, for every scan type and integer width: signed widths are compared
    as the signed numbers their bits denote, and the operand is the truncated
    text value.  (Unsigned 64-bit values must be below 2^63, see
    [u64_high_half_compared_as_negative].) *)
Lemma int_check_spec ub_cast encode_float cfg w curr prev n1 n2 :
  width_is_float w = false ->
  is_word (width_bits w) curr -> is_word (width_bits w) prev ->
  fits w (int_value w curr) -> fits w (int_value w prev) ->
  - 2 ^ 63 <= int_value w curr - int_value w prev < 2 ^ 63 ->
  - 2 ^ 63 <= int_value w prev - int_value w curr < 2 ^ 63 ->
  trunc_Z (value1 cfg) = Some n1 -> fits w n1 ->
  trunc_Z (value2 cfg) = Some n2 -> fits w n2 ->
  int_check ub_cast encode_float cfg w curr prev =
    let c := int_value w curr in
    let p := int_value w prev in
    match cfg_type cfg with
    | unknown_initial => true
    | exact_value => c =? n1
    | between => (n1 <=? c) && (c <=? n2)
    | bigger_than => n1 <? c
    | smaller_than => c <? n1
    | increased => p <? c
    | increased_by => c =? p + n1
    | decreased => c <? p
    | decreased_by => c =? p - n1
    | increased_percent | decreased_percent => false
    | changed => negb (c =? p)
    | unchanged => c =? p
    end.
Proof.
  intros Hf Hc Hp Fc Fp D1 D2 T1 F1 T2 F2.
  assert (Hbits : (curr =? prev) = (int_value w curr =? int_value w prev)).
  { destruct (int_value_spec w curr Hf Hc) as [E1 _], (int_value_spec w prev Hf Hp) as [E2 _].
    destruct (Z.eqb_spec curr prev) as [->|Hne]; [by rewrite Z.eqb_refl |].
    symmetry. apply Z.eqb_neq. intros E. apply Hne. by rewrite <- E1, <- E2, E. }
  unfold int_check. rewrite !(operand_value _ _ w) with (n := n1) by done.
  rewrite (operand_value _ _ w (value2 cfg) n2) by done.
  rewrite !widen_value by (done || (intros ->; apply Fp + apply Fc; done)).
  cbv zeta. rewrite Hbits.
  destruct (cfg_type cfg); try done; rewrite signed_of_small by lia;
    match goal with |- (?a =? ?b) = (?c =? ?d) => destruct (Z.eqb_spec a b), (Z.eqb_spec c d); lia || done end.
Qed.

(** A configuration of the defaults with the given type, width and operands. *)
Definition cfg_of (t : scan_type_t) (w : value_width_t) (v1 v2 : Z) : scan_config_t :=
  {| cfg_type := t; cfg_width := w; scan_all_types := false; rounding := r_exact;
     value1 := double_of_Z v1; value2 := double_of_Z v2; float_accuracy := 0;
     fast := fast_off; fast_alignment := 4; fast_digits := 0; fast_tail := 0;
     writable := pref_any; executable := pref_any; copy_on_write := pref_any;
     mem_private := true; mem_image := true; mem_mapped := true;
     cfg_begin := 0; cfg_end := 0; cfg_max_results := 0; cfg_threads := 0; cfg_chunk_bytes := 0 |}.

Lemma int_check_spec_witness :
  int_check (fun _ _ => 0) (fun _ _ => 0) (cfg_of increased_by w_i16 (-3) 0) w_i16 65534 1
    = (int_value w_i16 65534 =? int_value w_i16 1 + -3).
Proof.
  apply (int_check_spec (fun _ _ => 0) (fun _ _ => 0) (cfg_of increased_by w_i16 (-3) 0) w_i16 65534 1 (-3) 0);
    try reflexivity; try (split; [reflexivity | discriminate]);
    vm_compute; split; (discriminate || reflexivity).
Defined.

(** Unsigned 64-bit values in the upper half are compared as negative
    numbers: a "bigger than 1" scan rejects 2^63 and a "smaller than 1" scan
    accepts it, against the unsigned width the user chose. *)
Lemma u64_high_half_compared_as_negative ub_cast encode_float :
  check_value ub_cast encode_float (cfg_of bigger_than w_u64 1 0) w_u64 (2 ^ 63) 0 = false /\
  check_value ub_cast encode_float (cfg_of smaller_than w_u64 1 0) w_u64 (2 ^ 63) 0 = true.
Proof. split; reflexivity. Qed.
