(* ===== verification/TextFormat.v ===== *)
(** * Text of bytes: src/core/infra/text_format.cpp

    Hex dialects, the hex parser, addresses, sizes and base64.  [printf] of a double is
    a parameter. *)

From S2P Require Import Prelude Values.
From Corelib Require Import SpecFloat.

#[local] Open Scope Z_scope.

Inductive copy_dialect_t := hex_space | hex_nospace | c_array | python_bytes | rust_array | raw_string | COUNT.

Definition dialect_label (d : copy_dialect_t) : list Z :=
  match d with
  | hex_space => bs "Hex (spaced)" | hex_nospace => bs "Hex (compact)" | c_array => bs "C array"
  | python_bytes => bs "Python bytes" | rust_array => bs "Rust array" | raw_string => bs "Raw string"
  | COUNT => bs "Unknown"
  end.

(** ["%02X"] or ["%02x"]. *)
Definition nibble (uppercase : bool) (n : Z) : Z := if n <? 10 then 48 + n else (if uppercase then 55 else 87) + n.
Definition hex_byte (uppercase : bool) (b : Z) : list Z := [nibble uppercase (b / 16); nibble uppercase (b mod 16)].

Definition format_hex (data : list Z) (uppercase : bool) : list Z := join [32] (hex_byte uppercase <$> data).

Definition raw_byte (b : Z) : list Z := if (32 <=? b) && (b <? 127) then [b] else bs "\x" ++ hex_byte true b.

Definition format_as (data : list Z) (d : copy_dialect_t) : list Z :=
  match d with
  | hex_nospace => mjoin (hex_byte true <$> data)
  | c_array => bs "{ " ++ join (bs ", ") ((fun b => bs "0x" ++ hex_byte true b) <$> data) ++ bs " }"
  | python_bytes => bs "b'" ++ mjoin ((fun b => bs "\x" ++ hex_byte true b) <$> data) ++ bs "'"
  | rust_array => bs "[" ++ join (bs ", ") ((fun b => bs "0x" ++ hex_byte true b) <$> data) ++ bs "]"
  | raw_string => mjoin (raw_byte <$> data)
  | hex_space | COUNT => format_hex data true
  end.

(** ** Parsing *)

Definition separator (c : Z) : bool := (c =? 32) || (c =? 9) || (c =? 10) || (c =? 13) || (c =? 44).
Definition is_x (c : Z) : bool := (c =? 120) || (c =? 88).

(** The digits of the text, or the error. *)
Fixpoint clean (text : list Z) : list Z + list Z :=
  match text with
  | [] => inr []
  | c :: text' =>
      if separator c then clean text'
      else
        match text' with
        | x :: text'' => if ((c =? 48) || (c =? 92)) && is_x x then clean text''
                         else if isxdigit c then match clean text' with inr l => inr (c :: l) | e => e end
                         else inl (bs "invalid hex character '" ++ [c] ++ bs "'")
        | [] => if isxdigit c then inr [c] else inl (bs "invalid hex character '" ++ [c] ++ bs "'")
        end
  end.

(** [std::strtoul] of one hex digit. *)
Definition xdigit_value (c : Z) : Z := if isdigit c then c - 48 else if c <? 97 then c - 55 else c - 87.

Fixpoint pairs (l : list Z) : list Z :=
  match l with a :: b :: l' => (16 * xdigit_value a + xdigit_value b) :: pairs l' | _ => [] end.

(** The result, the bytes and the error text. *)
Definition parse_hex (text err : list Z) : bool * list Z * list Z :=
  match clean text with
  | inl e => (false, [], e)
  | inr l => if negb (zlen l mod 2 =? 0) then (false, [], bs "odd number of hex digits") else (true, pairs l, err)
  end.

(** ** Addresses and sizes *)

Fixpoint hex_digits (n : nat) (v : Z) : list Z :=
  match n with O => [] | S n' => hex_digits n' (v / 16) ++ [nibble true (v mod 16)] end.

Definition format_address (v pointer_width : Z) : list Z :=
  bs "0x" ++ (if pointer_width <=? 4 then hex_digits 8 (u32 v) else hex_digits 16 v).

Section Sizes.
Context (format_f : Z -> spec_float -> list Z).

Definition format_bytes (bytes : Z) : list Z :=
  if bytes <? 1024 then dec bytes ++ bs " B"
  else if bytes <? 1024 * 1024 then format_f 1 (ddiv (double_of_Z bytes) (double_of_Z 1024)) ++ bs " KiB"
  else if bytes <? 1024 * 1024 * 1024 then format_f 1 (ddiv (double_of_Z bytes) (double_of_Z (1024 * 1024))) ++ bs " MiB"
  else format_f 2 (ddiv (double_of_Z bytes) (double_of_Z (1024 * 1024 * 1024))) ++ bs " GiB".
End Sizes.

(** ** Base64 *)

Definition kTable : list Z := bs "ABCDEFGHIJKLMNOPQRSTUVWXYZabcdefghijklmnopqrstuvwxyz0123456789+/".
Definition table (v : Z) : Z := default 0 (kTable !! Z.to_nat (Z.land v 63)).

(** One group: its three bytes, the absent ones zero, and how many there are. *)
Definition group64 (a b c : Z) (n : Z) : list Z :=
  let v := Z.lor (Z.lor (Z.shiftl a 16) (Z.shiftl b 8)) c in
  [table (Z.shiftr v 18); table (Z.shiftr v 12); if 1 <? n then table (Z.shiftr v 6) else 61; if 2 <? n then table v else 61].

Fixpoint base64 (data : list Z) : list Z :=
  match data with
  | [] => []
  | [a] => group64 a 0 0 1
  | [a; b] => group64 a b 0 2
  | a :: b :: c :: data' => group64 a b c 3 ++ base64 data'
  end.

(** *** The decoder of RFC 4648, as a specification *)

Definition sextet (c : Z) : option Z :=
  if (65 <=? c) && (c <=? 90) then Some (c - 65)
  else if (97 <=? c) && (c <=? 122) then Some (c - 71)
  else if (48 <=? c) && (c <=? 57) then Some (c + 4)
  else if c =? 43 then Some 62 else if c =? 47 then Some 63 else None.

Definition take_bytes (n : nat) (v : Z) : list Z := take n [v / 65536; v / 256 mod 256; v mod 256].

Fixpoint decode64 (l : list Z) : option (list Z) :=
  match l with
  | [] => Some []
  | [p; q; r; s] =>
      p ← sextet p; q ← sextet q;
      match sextet r, sextet s with
      | Some r, Some s => Some (take_bytes 3 (((p * 64 + q) * 64 + r) * 64 + s))
      | Some r, None => if s =? 61 then Some (take_bytes 2 (((p * 64 + q) * 64 + r) * 64)) else None
      | None, _ => if (r =? 61) && (s =? 61) then Some (take_bytes 1 ((p * 64 + q) * 4096)) else None
      end
  | p :: q :: r :: s :: l' =>
      p ← sextet p; q ← sextet q; r ← sextet r; s ← sextet s;
      rest ← decode64 l'; Some (take_bytes 3 (((p * 64 + q) * 64 + r) * 64 + s) ++ rest)
  | _ => None
  end.

(** ** What a digit is *)

Lemma nibble_facts up n : 0 <= n < 16 ->
  isxdigit (nibble up n) = true /\ separator (nibble up n) = false /\ (nibble up n =? 92) = false /\
  is_x (nibble up n) = false /\ xdigit_value (nibble up n) = n.
Proof.
  intros H. assert (F : forallb (fun n => isxdigit (nibble up n) && negb (separator (nibble up n)) && negb (nibble up n =? 92) &&
    negb (is_x (nibble up n)) && (xdigit_value (nibble up n) =? n)) (seqZ 0 16) = true) by (by destruct up).
  rewrite forallb_forall in F. specialize (F n). rewrite <-list_elem_of_In, elem_of_seqZ in F. specialize (F ltac:(lia)).
  rewrite !andb_true_iff, !negb_true_iff, Z.eqb_eq in F. tauto.
Qed.

Lemma nibbles_of b : is_byte b -> 0 <= b / 16 < 16 /\ 0 <= b mod 16 < 16 /\ 16 * (b / 16) + b mod 16 = b.
Proof. unfold is_word. change (2 ^ 8) with 256. intros H. pose proof (Z.div_mod b 16 ltac:(lia)). pose proof (Z.mod_pos_bound b 16 ltac:(lia)). lia. Qed.

(** A digit can be followed by anything but an [x]. *)
Definition no_x (t : list Z) : Prop := match t with x :: _ => is_x x = false | [] => True end.

Lemma clean_digit up n t : 0 <= n < 16 -> no_x t -> clean (nibble up n :: t) = match clean t with inr l => inr (nibble up n :: l) | e => e end.
Proof.
  intros H X. destruct (nibble_facts up n H) as (D & S & B & _ & _). cbn [clean]. rewrite S. destruct t as [|x t].
  - by rewrite D.
  - cbn in X. by rewrite X, B, D, andb_false_r.
Qed.

Lemma clean_byte up b t : is_byte b -> no_x t -> clean (hex_byte up b ++ t) = match clean t with inr l => inr (hex_byte up b ++ l) | e => e end.
Proof.
  intros H X. destruct (nibbles_of b H) as (H1 & H2 & _). unfold hex_byte. cbn [app]. rewrite !clean_digit; try done.
  - by destruct (clean t).
  - cbn. by apply nibble_facts.
Qed.

Lemma pairs_bytes up data : bytes_ok data -> pairs (mjoin (hex_byte up <$> data)) = data.
Proof.
  induction 1 as [|b data H _ IH]; [done|]. destruct (nibbles_of b H) as (H1 & H2 & E).
  change (pairs _) with ((16 * xdigit_value (nibble up (b / 16)) + xdigit_value (nibble up (b mod 16))) :: pairs (mjoin (hex_byte up <$> data))).
  destruct (nibble_facts up _ H1) as (_ & _ & _ & _ & ->), (nibble_facts up _ H2) as (_ & _ & _ & _ & ->). by rewrite E, IH.
Qed.

Lemma even_bytes up data : zlen (mjoin (hex_byte up <$> data)) mod 2 = 0.
Proof.
  replace (zlen _) with (zlen data * 2); [apply Z.mod_mul; lia|]. unfold zlen. induction data as [|b data IH]; [done|].
  change (mjoin (hex_byte up <$> b :: data)) with (hex_byte up b ++ mjoin (hex_byte up <$> data)). rewrite length_app. cbn [length hex_byte]. lia.
Qed.

Lemma parse_clean up text data err :
  bytes_ok data -> clean text = inr (mjoin (hex_byte up <$> data)) -> parse_hex text err = (true, data, err).
Proof. intros H E. unfold parse_hex. rewrite E, even_bytes. cbn [negb Z.eqb]. by rewrite pairs_bytes. Qed.

Lemma no_x_byte up b t : is_byte b -> no_x (hex_byte up b ++ t).
Proof. intros H. destruct (nibbles_of b H) as (H1 & _ & _). cbn. by apply nibble_facts. Qed.

Lemma clean_spaced up data : bytes_ok data -> clean (format_hex data up) = inr (mjoin (hex_byte up <$> data)).
Proof.
  unfold format_hex. induction 1 as [|b data H F IH]; [done|]. destruct data as [|b' data].
  - cbn [fmap list_fmap join]. rewrite <-(app_nil_r (hex_byte up b)), clean_byte by done. done.
  - change (join [32] (hex_byte up <$> b :: b' :: data)) with (hex_byte up b ++ 32 :: join [32] (hex_byte up <$> b' :: data)).
    rewrite clean_byte by done. change (clean (32 :: ?t)) with (clean t). by rewrite IH.
Qed.

Lemma clean_packed up data : bytes_ok data -> clean (mjoin (hex_byte up <$> data)) = inr (mjoin (hex_byte up <$> data)).
Proof.
  induction 1 as [|b data H F IH]; [done|]. change (mjoin (hex_byte up <$> b :: data)) with (hex_byte up b ++ mjoin (hex_byte up <$> data)).
  rewrite clean_byte, IH; [done|done|]. destruct F as [|b' data H' F]; [done|]. apply (no_x_byte up b' _ H').
Qed.

Lemma clean_escaped data : bytes_ok data -> clean (mjoin ((fun b => bs "\x" ++ hex_byte true b) <$> data)) = inr (mjoin (hex_byte true <$> data)).
Proof.
  induction 1 as [|b data H F IH]; [done|].
  set (esc := fun b => bs "\x" ++ hex_byte true b) in *.
  change (mjoin (esc <$> b :: data)) with (92 :: 120 :: hex_byte true b ++ mjoin (esc <$> data)).
  change (clean (92 :: 120 :: hex_byte true b ++ ?t)) with (clean (hex_byte true b ++ t)). rewrite clean_byte, IH; [done|done|]. by destruct F.
Qed.

(** ** Base64 groups *)

Lemma sextet_table v : sextet (table v) = Some (v mod 64).
Proof.
  unfold table. change 63 with (Z.ones 6). rewrite Z.land_ones by lia. change (2 ^ 6) with 64.
  assert (F : forallb (fun n => bool_decide (sextet (default 0 (kTable !! Z.to_nat n)) = Some n)) (seqZ 0 64) = true) by (vm_compute; done).
  rewrite forallb_forall in F. specialize (F (v mod 64)). rewrite <-list_elem_of_In, elem_of_seqZ, bool_decide_eq_true in F.
  apply F. pose proof (Z.mod_pos_bound v 64). lia.
Qed.

Lemma lor_shift a b n : 0 <= n -> 0 <= b < 2 ^ n -> Z.lor (Z.shiftl a n) b = a * 2 ^ n + b.
Proof.
  intros Hn Hb. assert (L : Z.land (Z.shiftl a n) b = 0).
  { apply Z.bits_inj'. intros i Hi. rewrite Z.land_spec, Z.bits_0. destruct (Z.lt_ge_cases i n); [by rewrite Z.shiftl_spec_low|].
    destruct (Z.eq_dec b 0) as [->|]; [by rewrite Z.bits_0, andb_false_r|]. rewrite (Z.bits_above_log2 b); [apply andb_false_r|lia|].
    apply Z.log2_lt_pow2; [lia|]. eapply Z.lt_le_trans; [apply Hb|]. by apply Z.pow_le_mono_r. }
  pose proof (Z.add_lor_land (Z.shiftl a n) b). rewrite <-Z.shiftl_mul_pow2 by done. lia.
Qed.

Lemma group_value a b c : is_byte a -> is_byte b -> is_byte c -> Z.lor (Z.lor (Z.shiftl a 16) (Z.shiftl b 8)) c = a * 65536 + b * 256 + c.
Proof.
  unfold is_word. change (2 ^ 8) with 256. intros A B C. replace (Z.shiftl a 16) with (Z.shiftl (a * 256) 8) by (rewrite !Z.shiftl_mul_pow2; lia).
  rewrite <-Z.shiftl_lor. replace (Z.lor (a * 256) b) with (a * 256 + b).
  - rewrite lor_shift by lia. lia.
  - pose proof (lor_shift a b 8 ltac:(lia) ltac:(lia)) as L. rewrite Z.shiftl_mul_pow2 in L by lia. symmetry. exact L.
Qed.

(** The four sextets of 24 bits put them together again. *)
Lemma sextets v : 0 <= v < 2 ^ 24 ->
  (((v / 2 ^ 18) mod 64 * 64 + (v / 2 ^ 12) mod 64) * 64 + (v / 2 ^ 6) mod 64) * 64 + v mod 64 = v.
Proof. intros H. change (2 ^ 18) with 262144. change (2 ^ 12) with 4096. change (2 ^ 6) with 64. change (2 ^ 24) with 16777216 in H. Z.to_euclidean_division_equations. lia. Qed.

Lemma group_sextets a b c n : is_byte a -> is_byte b -> is_byte c ->
  let v := a * 65536 + b * 256 + c in
  exists p q r t, group64 a b c n = [p; q; if 1 <? n then r else 61; if 2 <? n then t else 61] /\
    sextet p = Some ((v / 2 ^ 18) mod 64) /\ sextet q = Some ((v / 2 ^ 12) mod 64) /\
    sextet r = Some ((v / 2 ^ 6) mod 64) /\ sextet t = Some (v mod 64).
Proof.
  intros A B C v. unfold group64. rewrite group_value by done. fold v.
  exists (table (Z.shiftr v 18)), (table (Z.shiftr v 12)), (table (Z.shiftr v 6)), (table v).
  rewrite !sextet_table, !Z.shiftr_div_pow2 by lia. done.
Qed.

Lemma take_bytes_of n a b c : is_byte a -> is_byte b -> is_byte c -> take_bytes n (a * 65536 + b * 256 + c) = take n [a; b; c].
Proof.
  unfold is_word, take_bytes. change (2 ^ 8) with 256. intros A B C. f_equal. f_equal; [|f_equal; [|f_equal]]; Z.to_euclidean_division_equations; lia.
Qed.

Lemma small_value a b c : is_byte a -> is_byte b -> is_byte c -> 0 <= a * 65536 + b * 256 + c < 2 ^ 24.
Proof. unfold is_word. change (2 ^ 8) with 256. change (2 ^ 24) with 16777216. lia. Qed.

Lemma decode_group a b c tail rest :
  is_byte a -> is_byte b -> is_byte c -> decode64 tail = Some rest -> decode64 (group64 a b c 3 ++ tail) = Some (a :: b :: c :: rest).
Proof.
  intros A B C T. destruct (group_sextets a b c 3 A B C) as (p & q & r & t & -> & P & Q & R & S).
  pose proof (sextets _ (small_value a b c A B C)) as V. pose proof (take_bytes_of 3 a b c A B C) as K. destruct tail as [|x tail].
  - cbn in T. injection T as <-. cbn [app decode64 Z.ltb Z.compare Pos.compare Pos.compare_cont]. rewrite P, Q, R, S. cbn [mbind option_bind]. rewrite V, K. done.
  - cbn [app Z.ltb Z.compare Pos.compare Pos.compare_cont].
    change (decode64 (p :: q :: r :: t :: x :: tail)) with
      (p ← sextet p; q ← sextet q; r ← sextet r; s ← sextet t; rest ← decode64 (x :: tail); Some (take_bytes 3 (((p * 64 + q) * 64 + r) * 64 + s) ++ rest)).
    rewrite P, Q, R, S, T. cbn [mbind option_bind]. rewrite V, K. done.
Qed.

Lemma decode_pair a b : is_byte a -> is_byte b -> decode64 (group64 a b 0 2) = Some [a; b].
Proof.
  intros A B. assert (C : is_byte 0) by (split; lia). destruct (group_sextets a b 0 2 A B C) as (p & q & r & t & -> & P & Q & R & _).
  pose proof (sextets _ (small_value a b 0 A B C)) as V. pose proof (take_bytes_of 2 a b 0 A B C) as K.
  cbn [decode64 Z.ltb Z.compare Pos.compare Pos.compare_cont]. rewrite P, Q, R. cbn [mbind option_bind sextet].
  replace ((a * 65536 + b * 256 + 0) mod 64) with 0 in V by (Z.to_euclidean_division_equations; lia). rewrite Z.add_0_r in V. rewrite V, K. done.
Qed.

Lemma decode_single a : is_byte a -> decode64 (group64 a 0 0 1) = Some [a].
Proof.
  intros A. assert (C : is_byte 0) by (split; lia). destruct (group_sextets a 0 0 1 A C C) as (p & q & r & t & -> & P & Q & _ & _).
  pose proof (sextets _ (small_value a 0 0 A C C)) as V. pose proof (take_bytes_of 1 a 0 0 A C C) as K.
  cbn [decode64 Z.ltb Z.compare Pos.compare Pos.compare_cont]. rewrite P, Q. cbn [mbind option_bind].
  replace ((a * 65536 + 0 * 256 + 0) mod 64) with 0 in V by (Z.to_euclidean_division_equations; lia).
  replace ((a * 65536 + 0 * 256 + 0) / 2 ^ 6 mod 64) with 0 in V by (change (2 ^ 6) with 64; Z.to_euclidean_division_equations; lia).
  change (sextet 61) with (@None Z). cbn [Z.eqb Pos.eqb andb]. match goal with |- Some (take_bytes 1 ?x) = _ => replace x with (a * 65536 + 0 * 256 + 0) by lia end. by rewrite K.
Qed.

Lemma three_ind (P : list Z -> Prop) :
  P [] -> (forall a, P [a]) -> (forall a b, P [a; b]) -> (forall a b c l, P l -> P (a :: b :: c :: l)) -> forall l, P l.
Proof.
  intros H0 H1 H2 H3. fix IH 1. intros [|a [|b [|c l]]]; [exact H0|apply H1|apply H2|apply H3, IH].
Qed.

Lemma base64_decodes data : bytes_ok data -> decode64 (base64 data) = Some data.
Proof.
  induction data as [|a|a b|a b c data IH] using three_ind; intros F; [done|..].
  - apply Forall_cons in F as [A _]. by apply decode_single.
  - apply Forall_cons in F as [A F]. apply Forall_cons in F as [B _]. by apply decode_pair.
  - apply Forall_cons in F as [A F]. apply Forall_cons in F as [B F]. apply Forall_cons in F as [C F].
    change (base64 (a :: b :: c :: data)) with (group64 a b c 3 ++ base64 data). by apply decode_group, IH.
Qed.

Lemma base64_length data : zlen (base64 data) = 4 * ((zlen data + 2) / 3).
Proof.
  induction data as [|a|a b|a b c data IH] using three_ind; [done..|].
  change (base64 (a :: b :: c :: data)) with (group64 a b c 3 ++ base64 data). unfold zlen in *. rewrite length_app. cbn [length group64].
  rewrite Nat2Z.inj_add, IH. Z.to_euclidean_division_equations. lia.
Qed.

(** C31: Bytes survive the text.  The hex parser reads the bytes back from the spaced form
    in either case, from the packed form and from a run of \x escapes, leaving the error
    text alone; and the base64 text has four characters per three bytes begun and is decoded
    to the same bytes by a decoder of the standard. *)
Theorem text_roundtrips data err :
  bytes_ok data ->
  (forall uppercase, parse_hex (format_hex data uppercase) err = (true, data, err)) /\
  parse_hex (format_as data hex_space) err = (true, data, err) /\
  parse_hex (format_as data hex_nospace) err = (true, data, err) /\
  parse_hex (mjoin ((fun b => bs "\x" ++ hex_byte true b) <$> data)) err = (true, data, err) /\
  decode64 (base64 data) = Some data /\ zlen (base64 data) = 4 * ((zlen data + 2) / 3).
Proof.
  intros H. split; [intros up; by apply (parse_clean up), clean_spaced|]. split; [by apply (parse_clean true), clean_spaced|].
  split; [by apply (parse_clean true), clean_packed|]. split; [by apply (parse_clean true), clean_escaped|].
  split; [by apply base64_decodes|apply base64_length].
Qed.

Lemma text_roundtrips_witness :
  parse_hex (bs "de ad be ef") [] = (true, [222; 173; 190; 239], []) /\ format_hex [222; 173; 190; 239] false = bs "de ad be ef" /\
  decode64 (bs "3q2+7w==") = Some [222; 173; 190; 239].
Proof.
  assert (H : bytes_ok [222; 173; 190; 239]) by (repeat constructor; done).
  destruct (text_roundtrips [222; 173; 190; 239] [] H) as (A & _ & _ & _ & B & _).
  split; [exact (A false)|]. split; [reflexivity|exact B].
Defined.

(** A backslash is printable, so the raw form of an escape and of its text agree. *)
Lemma raw_string_ambiguous : format_as [92; 120; 48; 49] raw_string = format_as [1] raw_string.
Proof. reflexivity. Qed.

(** The text that the parser rejects. *)
Lemma array_dialects_not_parsed b err : is_byte b ->
  (parse_hex (format_as [b] c_array) err).1.1 = false /\ (parse_hex (format_as [b] rust_array) err).1.1 = false.
Proof. intros _. by split. Qed.
