(* ===== verification/MemScan.v ===== *)
(** * The scan engine: src/core/memory/memscan.cpp

    Region filtering, fastscan stepping, the run scanner and the first/next scan
    state machine.  A scan runs its workers to the join; a worker's share of the
    regions is static, and what the other threads do to it (abort flag, cancel
    token, stash bytes admitted before its own) is its schedule. *)

From S2P Require Import Prelude Reader Values.
From Corelib Require Import SpecFloat.

#[local] Open Scope Z_scope.

(** ** Region filtering *)

Definition kPageNoAccess : Z := 1.
Definition kPageGuard : Z := 256.
Definition kPageNoCache : Z := 512.
Definition kPageWriteCombine : Z := 1024.
Definition kMemImage : Z := 16777216.
Definition kMemMapped : Z := 262144.
Definition kMemPrivate : Z := 131072.

Definition has (flags bit : Z) : bool := negb (Z.land flags bit =? 0).

Definition pref_pass (pref : region_pref_t) (flag : bool) : bool :=
  match pref with pref_any => true | pref_include => flag | pref_exclude => negb flag end.

(** The protection, type and preference tests of one region. *)
Definition region_accepted (cfg : scan_config_t) (prot type : Z) : bool :=
  let writable_ := has prot 4 || has prot 8 || has prot 64 || has prot 128 in
  let executable_ := has prot 16 || has prot 32 || has prot 64 || has prot 128 in
  let cow := has prot 8 || has prot 128 in
  negb (has prot kPageGuard) && negb (has prot kPageNoAccess) &&
  negb (has prot kPageNoCache) && negb (has prot kPageWriteCombine) &&
  negb (has type kMemImage && negb (mem_image cfg)) &&
  negb (has type kMemMapped && negb (mem_mapped cfg)) &&
  negb (has type kMemPrivate && negb (mem_private cfg)) &&
  pref_pass (writable cfg) writable_ && pref_pass (executable cfg) executable_ &&
  pref_pass (copy_on_write cfg) cow.

(** One iteration of the filter loop: the clipped region, or [continue]. *)
Definition filter_region (cfg : scan_config_t) (reg : scan_region_t) : option scan_region_t :=
  let begin_ := cfg_begin cfg in
  let end_ := cfg_end cfg in
  if reg_size reg =? 0 then None
  else
    let rbase := reg_base reg in
    let rend := u64 (reg_base reg + reg_size reg) in
    if negb (end_ =? 0) && (end_ <=? rbase) then None
    else
      let rend := if negb (end_ =? 0) && (end_ <? rend) then end_ else rend in
      if negb (begin_ =? 0) && (rend <=? begin_) then None
      else
        let rbase := if negb (begin_ =? 0) && (rbase <? begin_) then begin_ else rbase in
        if rend <=? rbase then None
        else if region_accepted cfg (reg_protect reg) (reg_type reg)
        then Some (mk_region rbase (u64 (rend - rbase)) (reg_protect reg) (reg_type reg))
        else None.

Definition filter_regions (regions : list scan_region_t) (cfg : scan_config_t) : list scan_region_t :=
  omap (filter_region cfg) regions.

(** ** Fastscan stepping *)

Record fastscan_t := mk_fastscan { fs_step : Z; fs_require : Z; fs_mask : Z }.

Definition first_offset (fs : fastscan_t) (base : Z) : Z :=
  if fs_step fs <=? 1 then 0
  else if fs_mask fs =? 0 then
    let r := base mod fs_step fs in if r =? 0 then 0 else fs_step fs - r
  else
    let cur := Z.land base (fs_mask fs) in
    if cur =? fs_require fs then 0
    else
      let delta := Z.land (u64 (fs_require fs - cur)) (fs_mask fs) in
      if delta =? 0 then fs_step fs else delta.

Definition make_fastscan (cfg : scan_config_t) : fastscan_t :=
  match fast cfg with
  | fast_off => mk_fastscan 1 0 0
  | fast_align => mk_fastscan (if fast_alignment cfg =? 0 then 1 else fast_alignment cfg) 0 0
  | fast_ends_with =>
      let digits := Z.min (fast_digits cfg) 8 in
      let step := 16 ^ digits in
      mk_fastscan step (Z.land (fast_tail cfg) (step - 1)) (step - 1)
  end.

Definition kAllWidths : list value_width_t := [w_u8; w_u16; w_u32; w_u64; w_f32; w_f64].

Definition width_gate (fs : fastscan_t) (w : value_width_t) (addr : Z) : bool :=
  if fs_step fs <=? 1 then true
  else match w with
       | w_u16 | w_i16 => addr mod 2 =? 0
       | w_u32 | w_i32 | w_u64 | w_i64 | w_f32 | w_f64 => addr mod 4 =? 0
       | _ => true
       end.

(** ** Scanning one run *)

Record scan_result_t := mk_result { address : Z; bits : Z; matched : value_width_t }.

#[export] Instance scan_result_eq_dec : EqDecision scan_result_t.
Proof. solve_decision. Defined.

Record region_copy_t := mk_copy { rc_base : Z; rc_bytes : list Z }.

Record worker_out_t := mk_out {
  results : list scan_result_t; stash : list region_copy_t;
  bytes_scanned : Z; slots_scanned : Z; regions_scanned : Z; slots_tracked : Z;
  truncated : bool
}.

Definition out0 : worker_out_t := mk_out [] [] 0 0 0 0 false.

Definition push_result (h : scan_result_t) (o : worker_out_t) : worker_out_t :=
  mk_out (results o ++ [h]) (stash o) (bytes_scanned o) (slots_scanned o) (regions_scanned o)
    (slots_tracked o) (truncated o).
Definition set_truncated (o : worker_out_t) : worker_out_t :=
  mk_out (results o) (stash o) (bytes_scanned o) (slots_scanned o) (regions_scanned o)
    (slots_tracked o) true.
Definition add_slots (n : Z) (o : worker_out_t) : worker_out_t :=
  mk_out (results o) (stash o) (bytes_scanned o) (u64 (slots_scanned o + n)) (regions_scanned o)
    (slots_tracked o) (truncated o).
Definition add_bytes (n : Z) (o : worker_out_t) : worker_out_t :=
  mk_out (results o) (stash o) (u64 (bytes_scanned o + n)) (slots_scanned o) (regions_scanned o)
    (slots_tracked o) (truncated o).
Definition add_region (o : worker_out_t) : worker_out_t :=
  mk_out (results o) (stash o) (bytes_scanned o) (slots_scanned o) (u64 (regions_scanned o + 1))
    (slots_tracked o) (truncated o).
Definition push_stash (rc : region_copy_t) (o : worker_out_t) : worker_out_t :=
  mk_out (results o) (stash o ++ [rc]) (bytes_scanned o) (slots_scanned o) (regions_scanned o)
    (u64 (slots_tracked o + zlen (rc_bytes rc))) (truncated o).

Definition bits_at (w : value_width_t) (data : list Z) (off : Z) : Z :=
  load_bits (Z.to_nat (value_size w)) (drop (Z.to_nat off) data).

Definition max_scan_hits : Z := 5000000.
Definition max_stash_bytes : Z := 1073741824.
Definition scan_chunk_bytes : Z := 1048576.

Section Engine.
Variable ub_cast : value_width_t -> spec_float -> Z.
Variable encode_float : value_width_t -> spec_float -> Z.

Section Run.
Variables (cfg : scan_config_t) (fs : fastscan_t) (base : Z) (data : list Z)
  (old : option (list Z)) (cap : Z).

Definition prev_bits (w : value_width_t) (off : Z) : Z :=
  match old with Some o => bits_at w o off | None => 0 end.

(** Test one width at one offset; [true] stops the run at the cap. *)
Definition try_slot (w : value_width_t) (off : Z) (o : worker_out_t) : bool * worker_out_t :=
  let curr := bits_at w data off in
  if check_value ub_cast encode_float cfg w curr (prev_bits w off) then
    let o := push_result (mk_result (u64 (base + off)) curr w) o in
    if cap <=? zlen (results o) then (true, set_truncated o) else (false, o)
  else (false, o).

Fixpoint try_widths (ws : list value_width_t) (off : Z) (o : worker_out_t) : bool * worker_out_t :=
  match ws with
  | [] => (false, o)
  | w :: ws' =>
      if zlen data <? off + value_size w then try_widths ws' off o
      else if negb (width_gate fs w (u64 (base + off))) then try_widths ws' off o
      else match try_slot w off o with
           | (true, o') => (true, o')
           | (false, o') => try_widths ws' off o'
           end
  end.

Fixpoint scan_offsets (offs : list Z) (o : worker_out_t) : worker_out_t :=
  match offs with
  | [] => o
  | off :: offs' =>
      if scan_all_types cfg then
        match try_widths kAllWidths off o with
        | (true, o') => o'
        | (false, o') => scan_offsets offs' (add_slots 1 o')
        end
      else if zlen data <? off + value_size (cfg_width cfg) then o
      else match try_slot (cfg_width cfg) off (add_slots 1 o) with
           | (true, o') => o'
           | (false, o') => scan_offsets offs' o'
           end
  end.
End Run.

(** [for (off = first; off <= last; off += step)]. *)
Definition offsets (step first last : Z) : list Z :=
  if last <? first then [] else (fun i => first + step * i) <$> seqZ 0 ((last - first) / step + 1).

Definition eff_cap (cfg : scan_config_t) : Z :=
  if cfg_max_results cfg =? 0 then max_scan_hits else cfg_max_results cfg.

Definition eff_chunk (cfg : scan_config_t) : Z :=
  if cfg_chunk_bytes cfg =? 0 then scan_chunk_bytes else cfg_chunk_bytes cfg.

Definition scan_run (cfg : scan_config_t) (fs : fastscan_t) (base : Z) (data : list Z)
    (old : option (list Z)) (o : worker_out_t) : worker_out_t :=
  let slot := value_size (cfg_width cfg) in
  let cap := eff_cap cfg in
  if cap <=? zlen (results o) then set_truncated o
  else if zlen data <? (if scan_all_types cfg then 1 else slot) then o
  else
    let last := if scan_all_types cfg then zlen data - 1 else zlen data - slot in
    scan_offsets cfg fs base data old cap (offsets (fs_step fs) (first_offset fs base) last) o.

(** ** Workers *)

(** What the rest of the process does to one worker: when it sees the abort
    flag raised by another worker, when its token is cancelled, the stash bytes
    the others admitted before each of its own requests, and the batches of rows
    it claims from the shared counter. *)
Record sched_t := mk_sched {
  s_abort : cancel_token_t; s_cancel : cancel_token_t; s_other : nat -> Z; s_claims : list nat
}.

(** A worker inside a walk: its output, the stash bytes it has requested and how often. *)
Record walk_t := mk_walk { w_out : worker_out_t; w_own : Z; w_adds : nat }.

Section Walk.
Context {R : Type} `{Reader R}.
Variables (r : R) (cfg : scan_config_t) (fs : fastscan_t) (stash_mode : bool)
  (stash_budget : Z) (s_other_ : nat -> Z).

Definition walk_sink (w : walk_t) (run_addr : Z) (data : list Z) : walk_t :=
  let len := zlen data in
  let o := add_bytes len (w_out w) in
  if stash_mode then
    let own := w_own w + len in
    let used := u64 (s_other_ (w_adds w) + own) in
    if stash_budget <? used then mk_walk (set_truncated o) own (S (w_adds w))
    else mk_walk (add_slots (len / value_size (cfg_width cfg))
                    (push_stash (mk_copy run_addr data) o)) own (S (w_adds w))
  else mk_walk (scan_run cfg fs run_addr data None o) (w_own w) (w_adds w).

Fixpoint walk_chunks (fuel : nat) (end_ cursor : Z) (tok : cancel_token_t) (w : walk_t)
  : option (walk_t * cancel_token_t) :=
  if cursor <? end_ then
    match fuel with
    | O => None
    | S fuel' =>
        let '(stop, tok1) := cancelled tok in
        if stop then Some (w, tok1)
        else
          let want := Z.min (eff_chunk cfg) (end_ - cursor) in
          match resilient_read r cursor want 4096 tok1 walk_sink w with
          | None => None
          | Some (w', tok2) =>
              if truncated (w_out w') then Some (w', tok2)
              else walk_chunks fuel' end_ (u64 (cursor + want)) tok2 w'
          end
    end
  else Some (w, tok).

Definition walk_region (reg : scan_region_t) (tok : cancel_token_t) (w : walk_t)
  : option (walk_t * cancel_token_t) :=
  let end_ := u64 (reg_base reg + reg_size reg) in
  match walk_chunks (S (Z.to_nat (reg_size reg))) end_ (reg_base reg) tok w with
  | None => None
  | Some (w', tok') => Some (mk_walk (add_region (w_out w')) (w_own w') (w_adds w'), tok')
  end.

(** The loop of one first-scan worker over its regions. *)
Fixpoint first_worker (regions : list scan_region_t) (abort tok : cancel_token_t) (w : walk_t)
  : option worker_out_t :=
  match regions with
  | [] => Some (w_out w)
  | reg :: regions' =>
      let '(ab, abort') := cancelled abort in
      if ab then Some (w_out w)
      else
        let '(stop, tok1) := cancelled tok in
        if stop then Some (w_out w)
        else match walk_region reg tok1 w with
             | None => None
             | Some (w', tok2) =>
                 if negb stash_mode && (eff_cap cfg <=? zlen (results (w_out w')))
                 then Some (set_truncated (w_out w'))
                 else if truncated (w_out w') then Some (w_out w')
                 else first_worker regions' abort' tok2 w'
             end
  end.
End Walk.

Section Rescan.
Context {R : Type} `{Reader R}.
Variables (r : R) (cfg : scan_config_t) (fs : fastscan_t).

(** The sink of the rescan of one stashed copy. *)
Definition rescan_sink (rc : region_copy_t) (o : worker_out_t) (run_addr : Z) (fresh : list Z)
  : worker_out_t :=
  let old_off := u64 (run_addr - rc_base rc) in
  if zlen (rc_bytes rc) <? old_off then o
  else
    let comparable := Z.min (zlen fresh) (zlen (rc_bytes rc) - old_off) in
    if comparable =? 0 then o
    else
      let o := scan_run cfg fs run_addr (take (Z.to_nat comparable) fresh)
                 (Some (drop (Z.to_nat old_off) (rc_bytes rc))) (add_bytes comparable o) in
      if eff_cap cfg <=? zlen (results o) then set_truncated o else o.

Fixpoint rescan_worker (copies : list region_copy_t) (abort tok : cancel_token_t)
    (o : worker_out_t) : option worker_out_t :=
  match copies with
  | [] => Some o
  | rc :: copies' =>
      let '(ab, abort') := cancelled abort in
      if ab then Some o
      else
        let '(stop, tok1) := cancelled tok in
        if stop then Some o
        else match resilient_read r (rc_base rc) (zlen (rc_bytes rc)) 4096 tok1
                     (rescan_sink rc) o with
             | None => None
             | Some (o', tok2) =>
                 if truncated o' then Some o'
                 else rescan_worker copies' abort' tok2 o'
             end
  end.

(** One batch of stored rows; [true] is the early return at the cap. *)
Fixpoint recheck_rows (rows : list scan_result_t) (o : worker_out_t) : bool * worker_out_t :=
  match rows with
  | [] => (false, o)
  | row :: rows' =>
      let vs := value_size (matched row) in
      match read r (address row) vs with
      | None => recheck_rows rows' o
      | Some d =>
          let fresh := load_bits (Z.to_nat vs) d in
          let o := add_slots 1 o in
          if check_value ub_cast encode_float cfg (matched row) fresh (bits row) then
            let o := push_result (mk_result (address row) fresh (matched row)) o in
            if eff_cap cfg <=? zlen (results o) then (true, set_truncated o)
            else recheck_rows rows' o
          else recheck_rows rows' o
      end
  end.

(** [next_item.fetch_add(64)] handed this worker the batches [claims]. *)
Fixpoint recheck_worker (prev : list scan_result_t) (claims : list nat) (tok : cancel_token_t)
    (o : worker_out_t) : worker_out_t :=
  match claims with
  | [] => o
  | b :: claims' =>
      let '(stop, tok') := cancelled tok in
      if stop then o
      else
        let idx := (64 * b)%nat in
        if (length prev <=? idx)%nat then o
        else match recheck_rows (take 64 (drop idx prev)) o with
             | (true, o') => o'
             | (false, o') => recheck_worker prev claims' tok' o'
             end
  end.
End Rescan.

(** ** Merging *)

Record scan_stats_t := mk_stats {
  st_regions : Z; st_regions_scanned : Z; st_bytes_scanned : Z; st_slots_scanned : Z;
  st_found : Z; st_slots_tracked : Z; st_truncated : bool; st_cancelled : bool
}.
Definition stats0 : scan_stats_t := mk_stats 0 0 0 0 0 0 false false.

Fixpoint take_hits (max_results : Z) (hits acc : list scan_result_t) : list scan_result_t * bool :=
  match hits with
  | [] => (acc, false)
  | h :: hits' =>
      if max_results <=? zlen acc then (acc, true) else take_hits max_results hits' (acc ++ [h])
  end.

Fixpoint merge_hits (max_results : Z) (outs : list worker_out_t) (acc : list scan_result_t)
    (t : bool) (st : scan_stats_t) : list scan_result_t * bool * scan_stats_t :=
  match outs with
  | [] => (acc, t, st)
  | o :: outs' =>
      let st := mk_stats (st_regions st) (u64 (st_regions_scanned st + regions_scanned o))
                  (u64 (st_bytes_scanned st + bytes_scanned o))
                  (u64 (st_slots_scanned st + slots_scanned o)) (st_found st)
                  (u64 (st_slots_tracked st + slots_tracked o)) (st_truncated st) (st_cancelled st) in
      let '(acc', full) := take_hits max_results (results o) acc in
      merge_hits max_results outs' acc' (t || truncated o || full) st
  end.

Definition width_index (w : value_width_t) : Z :=
  match w with
  | w_i8 => 0 | w_u8 => 1 | w_i16 => 2 | w_u16 => 3 | w_i32 => 4
  | w_u32 => 5 | w_i64 => 6 | w_u64 => 7 | w_f32 => 8 | w_f64 => 9
  end.

(** [!(b < a)] for the comparator of the result sort. *)
Definition result_le (a b : scan_result_t) : Prop :=
  address a < address b \/
  (address a = address b /\ width_index (matched a) <= width_index (matched b)).

#[global] Instance result_le_dec : RelDecision result_le.
Proof. intros a b. unfold result_le. apply _. Defined.

Definition merge_workers (outs : list worker_out_t) (max_results : Z) (st : scan_stats_t)
  : list scan_result_t * scan_stats_t :=
  let '(acc, t, st) := merge_hits max_results outs [] false st in
  (merge_sort result_le acc,
   mk_stats (st_regions st) (st_regions_scanned st) (st_bytes_scanned st) (st_slots_scanned st)
     (zlen acc) (st_slots_tracked st) (st_truncated st || t) (st_cancelled st)).

(** [hardware_concurrency()] *)
Variable hardware_concurrency : Z.

Definition worker_count (cfg : scan_config_t) : Z :=
  let n := if cfg_threads cfg =? 0 then hardware_concurrency else cfg_threads cfg in
  Z.max 1 (Z.min n 64).

(** [for (k = i; k < l.size(); k += nw) l[k]] *)
Definition share {A} (nw i : nat) (l : list A) : list A :=
  omap (fun k => l !! k) (filter (fun k => (k mod nw)%nat = i) (seq 0 (length l))).

(** ** [memscan_t] *)

Record scan_progress_t := mk_progress { p_bytes : Z; p_found : Z; p_regions_done : Z }.
Definition progress0 : scan_progress_t := mk_progress 0 0 0.

(** The live counters once the workers have joined. *)
Definition after_workers (outs : list worker_out_t) (p : scan_progress_t) : scan_progress_t :=
  foldl (fun p o => mk_progress (u64 (p_bytes p + bytes_scanned o))
                      (u64 (p_found p + zlen (results o)))
                      (u64 (p_regions_done p + regions_scanned o))) p outs.
Definition store_found (n : Z) (p : scan_progress_t) : scan_progress_t :=
  mk_progress (p_bytes p) n (p_regions_done p).

Record memscan_t := mk_memscan {
  results_ : list scan_result_t; stash_ : list region_copy_t; stats_ : scan_stats_t;
  progress_ : scan_progress_t; last_width_ : value_width_t;
  region_scan_active_ : bool; address_list_ : bool
}.

Definition reset : memscan_t := mk_memscan [] [] stats0 progress0 w_u32 false false.

Definition set_type (t : scan_type_t) (c : scan_config_t) : scan_config_t :=
  {| cfg_type := t; cfg_width := cfg_width c; scan_all_types := scan_all_types c;
     rounding := rounding c; value1 := value1 c; value2 := value2 c;
     float_accuracy := float_accuracy c; fast := fast c; fast_alignment := fast_alignment c;
     fast_digits := fast_digits c; fast_tail := fast_tail c; writable := writable c;
     executable := executable c; copy_on_write := copy_on_write c;
     mem_private := mem_private c; mem_image := mem_image c; mem_mapped := mem_mapped c;
     cfg_begin := cfg_begin c; cfg_end := cfg_end c; cfg_max_results := cfg_max_results c;
     cfg_threads := cfg_threads c; cfg_chunk_bytes := cfg_chunk_bytes c |}.

Definition set_cancelled (b : bool) (st : scan_stats_t) : scan_stats_t :=
  mk_stats (st_regions st) (st_regions_scanned st) (st_bytes_scanned st) (st_slots_scanned st)
    (st_found st) (st_slots_tracked st) (st_truncated st) b.
Definition set_found (n : Z) (st : scan_stats_t) : scan_stats_t :=
  mk_stats (st_regions st) (st_regions_scanned st) (st_bytes_scanned st) (st_slots_scanned st)
    n (st_slots_tracked st) (st_truncated st) (st_cancelled st).

Definition copy_le (a b : region_copy_t) : Prop := rc_base a <= rc_base b.
#[global] Instance copy_le_dec : RelDecision copy_le.
Proof. intros a b. unfold copy_le. apply _. Defined.

Section Scans.
Context {R : Type} `{Reader R}.
Variables (r : R) (cfg : scan_config_t) (sched : nat -> sched_t) (stop : bool).

Definition first_scan (regions : list scan_region_t) : option memscan_t :=
  let m := mk_memscan [] [] stats0 progress0 (cfg_width cfg) false false in
  let fs := make_fastscan cfg in
  let regions := filter_regions regions cfg in
  let st := mk_stats (zlen regions) 0 0 0 0 0 false false in
  if bool_decide (regions = [])
  then Some (mk_memscan [] [] st progress0 (cfg_width cfg) false false)
  else
    let run_cfg := if is_relational (cfg_type cfg) then set_type unknown_initial cfg else cfg in
    let region_scan := bool_decide (cfg_type run_cfg = unknown_initial) in
    let stash_budget := if region_scan then max_stash_bytes else 0 in
    let nw := Z.to_nat (Z.max 1 (Z.min (worker_count run_cfg) (zlen regions))) in
    outs ← mapM (fun i =>
             let s := sched i in
             first_worker r run_cfg fs region_scan stash_budget (s_other s)
               (share nw i regions) (s_abort s) (s_cancel s) (mk_walk out0 0 0)) (seq 0 nw);
    let '(res, st) := merge_workers outs (if region_scan then 0 else eff_cap cfg) st in
    let p := after_workers outs progress0 in
    if region_scan then
      let stash := merge_sort copy_le (concat (stash <$> outs)) in
      Some (mk_memscan [] stash (set_cancelled stop (set_found 0 st)) (store_found 0 p)
              (cfg_width cfg) (negb (bool_decide (stash = []))) false)
    else
      Some (mk_memscan res [] (set_cancelled stop st) (store_found (zlen res) p)
              (cfg_width cfg) false (negb (bool_decide (res = [])))).

(** [inl] is the error text, with [m] unchanged. *)
Definition next_scan (m : memscan_t) : option (list Z + memscan_t) :=
  if negb (region_scan_active_ m) && negb (address_list_ m)
  then Some (inl (bs "no previous scan"))
  else if bool_decide (cfg_type cfg = unknown_initial) then Some (inr m)
  else
    let fs := make_fastscan cfg in
    let st := mk_stats (st_regions (stats_ m)) 0 0 0 0 0 false false in
    outs ←
      (if region_scan_active_ m then
         let nw := Z.to_nat (Z.max 1 (Z.min (worker_count cfg)
                      (if bool_decide (stash_ m = []) then 1 else zlen (stash_ m)))) in
         mapM (fun i => rescan_worker r cfg fs (share nw i (stash_ m)) (s_abort (sched i))
                          (s_cancel (sched i)) out0) (seq 0 nw)
       else
         Some ((fun i => recheck_worker r cfg (results_ m) (s_claims (sched i))
                           (s_cancel (sched i)) out0) <$> seq 0 (Z.to_nat (worker_count cfg))));
    let '(res, st) := merge_workers outs (eff_cap cfg) st in
    let st := mk_stats (st_regions st)
                (u64 (st_regions_scanned st + st_regions_scanned (stats_ m)))
                (u64 (st_bytes_scanned st + st_bytes_scanned (stats_ m)))
                (st_slots_scanned st) (st_found st) (st_slots_tracked (stats_ m))
                (st_truncated st) stop in
    let p := after_workers outs (progress_ m) in
    Some (inr (mk_memscan res (if region_scan_active_ m then [] else stash_ m) st
                 (store_found (zlen res) p) (cfg_width cfg)
                 false (negb (bool_decide (res = []))))).
End Scans.
End Engine.

(** ** Fastscan visits exactly the constrained addresses *)

(** The user's fastscan constraint on an address. *)
Definition aligned (cfg : scan_config_t) (a : Z) : Prop :=
  match fast cfg with
  | fast_off => True
  | fast_align => fast_alignment cfg = 0 \/ a mod fast_alignment cfg = 0
  | fast_ends_with =>
      a mod 16 ^ Z.min (fast_digits cfg) 8 = fast_tail cfg mod 16 ^ Z.min (fast_digits cfg) 8
  end.

Definition cfg_ok (cfg : scan_config_t) : Prop :=
  0 <= fast_alignment cfg /\ 0 <= fast_digits cfg /\ 0 <= cfg_max_results cfg /\ 0 <= cfg_chunk_bytes cfg.

(** The residue a fastscan requires. *)
Definition fs_residue (fs : fastscan_t) : Z := if fs_mask fs =? 0 then 0 else fs_require fs.

Lemma mod_of_sub a b n : 0 < n -> 0 <= b < n -> (a - b) mod n = 0 <-> a mod n = b.
Proof.
  intros Hn Hb. split; intros Hm.
  - apply Z.mod_divide in Hm as [q Hq]; [|lia]. replace a with (b + q * n) by lia.
    rewrite Z.mod_add, Z.mod_small by lia. done.
  - rewrite <- Hm, Zminus_mod_idemp_r, Z.sub_diag. by apply Z.mod_0_l; lia.
Qed.

Lemma pow16 d : 0 <= d -> 16 ^ d = 2 ^ (4 * d).
Proof. intros Hd. rewrite Z.pow_mul_r by lia. done. Qed.

Lemma land_mask d z : 0 <= d -> Z.land z (16 ^ d - 1) = z mod 16 ^ d.
Proof.
  intros Hd. rewrite pow16 by done. replace (2 ^ (4 * d) - 1) with (Z.ones (4 * d)).
  - by rewrite Z.land_ones by lia.
  - rewrite Z.ones_equiv. lia.
Qed.

Lemma make_fastscan_spec cfg :
  cfg_ok cfg ->
  1 <= fs_step (make_fastscan cfg) /\
  0 <= fs_residue (make_fastscan cfg) < fs_step (make_fastscan cfg) /\
  (forall a, aligned cfg a <-> a mod fs_step (make_fastscan cfg) = fs_residue (make_fastscan cfg)).
Proof.
  intros (Ha & Hd & _). unfold make_fastscan, aligned, fs_residue. destruct (fast cfg).
  - cbn. split_and!; [lia.. |]. intros a. by rewrite Z.mod_1_r.
  - cbn [fs_mask fs_step fs_require]. cbn. destruct (Z.eqb_spec (fast_alignment cfg) 0) as [->|].
    + split_and!; [lia.. |]. intros a. rewrite Z.mod_1_r. tauto.
    + split_and!; [lia.. |]. intros a. tauto.
  - cbn [fs_mask fs_step fs_require]. set (d := Z.min (fast_digits cfg) 8).
    assert (1 <= 16 ^ d) by (assert (0 < 16 ^ d) by (apply Z.pow_pos_nonneg; lia); lia).
    rewrite land_mask by lia. pose proof (Z.mod_pos_bound (fast_tail cfg) (16 ^ d) ltac:(lia)).
    destruct (Z.eqb_spec (16 ^ d - 1) 0) as [E|E].
    + replace (16 ^ d) with 1 by lia. rewrite Z.mod_1_r. split_and!; [lia.. |]. intros a. rewrite Z.mod_1_r. tauto.
    + split_and!; [lia.. |]. tauto.
Qed.

Lemma first_offset_spec cfg base :
  cfg_ok cfg ->
  first_offset (make_fastscan cfg) base =
    (fs_residue (make_fastscan cfg) - base) mod fs_step (make_fastscan cfg).
Proof.
  intros Hok. pose proof (make_fastscan_spec cfg Hok) as (Hs & Hr & _).
  unfold first_offset. destruct (Z.leb_spec (fs_step (make_fastscan cfg)) 1).
  { replace (fs_step (make_fastscan cfg)) with 1 by lia. by rewrite Z.mod_1_r. }
  unfold fs_residue in *. destruct (Z.eqb_spec (fs_mask (make_fastscan cfg)) 0) as [Hm|Hm].
  - rewrite Z.sub_0_l. cbv zeta.
    set (n := fs_step (make_fastscan cfg)) in *.
    destruct (Z.eqb_spec (base mod n) 0) as [E|E].
    + symmetry. by apply Z_mod_zero_opp_full.
    + symmetry. apply Z_mod_nz_opp_full. done.
  - destruct Hok as (Ha & Hd & _). unfold make_fastscan in *.
    destruct (fast cfg); try (cbn in Hm; lia). cbn [fs_mask fs_step fs_require] in *.
    set (d := Z.min (fast_digits cfg) 8) in *. cbv zeta. rewrite !land_mask in * by lia.
    set (n := 16 ^ d) in *. set (t := fast_tail cfg mod n) in *.
    assert (Hu : u64 (t - base mod n) mod n = (t - base) mod n).
    { unfold wrap. rewrite Z.mod_mod_divide.
      - by rewrite Zminus_mod_idemp_r.
      - unfold n. rewrite pow16 by lia. exists (2 ^ (64 - 4 * d)). rewrite <- Z.pow_add_r by lia.
        f_equal. lia. }
    rewrite Hu. destruct (Z.eqb_spec (base mod n) t) as [E|E].
    + symmetry. rewrite <- Zminus_mod_idemp_r, E, Z.sub_diag. apply Z.mod_0_l. lia.
    + destruct (Z.eqb_spec ((t - base) mod n) 0) as [E0|]; [|done].
      exfalso. apply E. apply Z.mod_divide in E0 as [q Hq]; [|lia].
      replace base with (t + (- q) * n) by lia. rewrite Z.mod_add, Z.mod_small by lia. done.
Qed.

Lemma offsets_elem cfg base last o :
  cfg_ok cfg ->
  o ∈ offsets (fs_step (make_fastscan cfg)) (first_offset (make_fastscan cfg) base) last <->
  0 <= o <= last /\ aligned cfg (base + o).
Proof.
  intros Hok. rewrite first_offset_spec by done.
  pose proof (make_fastscan_spec cfg Hok) as (Hs & Hr & Hal). rewrite Hal. clear Hal.
  set (n := fs_step _) in *. set (t := fs_residue _) in *.
  set (f := (t - base) mod n). pose proof (Z.mod_pos_bound (t - base) n ltac:(lia)) as Hf. fold f in Hf.
  assert (Hiff : (base + o) mod n = t <-> (o - f) mod n = 0).
  { rewrite <- mod_of_sub by lia. unfold f. rewrite Zminus_mod_idemp_r.
    by replace (o - (t - base)) with (base + o - t) by lia. }
  rewrite Hiff. unfold offsets. destruct (Z.ltb_spec last f).
  { rewrite elem_of_nil. split; [done |]. intros [Ho Hm].
    apply Z.mod_divide in Hm as [q Hq]; [|lia]. assert (q < 0) by nia. nia. }
  rewrite list_elem_of_fmap. split.
  - intros (i & -> & Hi). apply elem_of_seqZ in Hi.
    assert (i <= (last - f) / n) by lia. pose proof (Z.mul_div_le (last - f) n ltac:(lia)).
    split; [nia |]. replace (f + n * i - f) with (i * n) by lia. by rewrite Z.mod_mul by lia.
  - intros [Ho Hm]. apply Z.mod_divide in Hm as [q Hq]; [|lia].
    assert (0 <= q) by nia. exists q. split; [lia |]. apply elem_of_seqZ.
    assert (q <= (last - f) / n); [|lia]. apply Z.div_le_lower_bound; nia.
Qed.

Abbreviation gadds proj := (appends proj truncated).
Abbreviation adds := (gadds results).

(** ** One run: exactly the matching slots *)

Section RunFacts.
Variables (ub_cast : value_width_t -> spec_float -> Z) (encode_float : value_width_t -> spec_float -> Z).

Definition widths (cfg : scan_config_t) : list value_width_t :=
  if scan_all_types cfg then kAllWidths else [cfg_width cfg].

Definition gated (cfg : scan_config_t) (w : value_width_t) (a : Z) : Prop :=
  scan_all_types cfg = true -> width_gate (make_fastscan cfg) w a = true.

(** A slot the scan is to report: at [a], of width [w], now [c], before [p]. *)
Definition slot_ok (cfg : scan_config_t) (a : Z) (w : value_width_t) (c p : Z) : Prop :=
  w ∈ widths cfg /\ aligned cfg a /\ gated cfg w a /\
  check_value ub_cast encode_float cfg w c p = true.

(** The rows one run contributes. *)
Definition run_hit (cfg : scan_config_t) (base : Z) (data : list Z) (old : option (list Z))
    (h : scan_result_t) : Prop :=
  exists off, 0 <= off /\ off + value_size (matched h) <= zlen data /\
    address h = base + off /\ bits h = bits_at (matched h) data off /\
    slot_ok cfg (base + off) (matched h) (bits h) (prev_bits old (matched h) off).

Section Run1.
Variables (cfg : scan_config_t) (base : Z) (data : list Z) (old : option (list Z)) (cap : Z).
Hypothesis Hb : 0 <= base.
Hypothesis Hwrap : base + zlen data <= 2 ^ 64.

(** What one offset contributes, restricted to the widths [ws]. *)
Definition at_offset (ws : list value_width_t) (off : Z) (h : scan_result_t) : Prop :=
  matched h ∈ ws /\ off + value_size (matched h) <= zlen data /\
  address h = base + off /\ bits h = bits_at (matched h) data off /\
  gated cfg (matched h) (base + off) /\
  check_value ub_cast encode_float cfg (matched h) (bits h) (prev_bits old (matched h) off) = true.

Lemma value_size_pos w : 1 <= value_size w <= 8.
Proof. destruct w; simpl; lia. Qed.

Lemma addr_small w off : 0 <= off -> off + value_size w <= zlen data -> u64 (base + off) = base + off.
Proof using Hb Hwrap.
  intros Ho Hs. pose proof (value_size_pos w). apply wrap_small. unfold is_word. lia.
Qed.

Lemma try_slot_adds w off o :
  0 <= off -> off + value_size w <= zlen data -> gated cfg w (base + off) ->
  adds (at_offset [w] off) (fun h => at_offset [w] off h) o
       (try_slot ub_cast encode_float cfg base data old cap w off o).2 /\
  ((try_slot ub_cast encode_float cfg base data old cap w off o).1 = true ->
    truncated (try_slot ub_cast encode_float cfg base data old cap w off o).2 = true).
Proof using Hb Hwrap.
  intros Ho Hs Hg. unfold try_slot. rewrite (addr_small w) by done.
  destruct (check_value _ _ _ _ _ _) eqn:Hc.
  - assert (Hhit : at_offset [w] off (mk_result (base + off) (bits_at w data off) w)).
    { unfold at_offset. cbn [matched address bits]. split_and!; (done || by left). }
    destruct (cap <=? _); cbn [fst snd].
    + split; [|done]. exists [mk_result (base + off) (bits_at w data off) w].
      split_and!; [done | by constructor | done].
    + split; [|done]. exists [mk_result (base + off) (bits_at w data off) w].
      split_and!; [done | by constructor |]. intros Ht. split; [done |].
      intros [a b w'] (Hw & _ & Ha & Hbits & _). cbn [matched address bits] in *.
      apply list_elem_of_singleton in Hw. subst. by left.
  - cbn [fst snd]. split; [|done]. apply adds_none; try done.
    intros _ h (Hw & _ & _ & Hbits & _ & Hck). apply list_elem_of_singleton in Hw.
    rewrite Hbits, Hw in Hck. congruence.
Qed.

Lemma try_widths_adds ws off o :
  0 <= off -> scan_all_types cfg = true ->
  adds (at_offset ws off) (at_offset ws off) o
       (try_widths ub_cast encode_float cfg (make_fastscan cfg) base data old cap ws off o).2 /\
  ((try_widths ub_cast encode_float cfg (make_fastscan cfg) base data old cap ws off o).1 = true ->
    truncated (try_widths ub_cast encode_float cfg (make_fastscan cfg) base data old cap ws off o).2 = true).
Proof using Hb Hwrap.
  intros Ho Hall. revert o. induction ws as [|w ws IH]; intros o; cbn [try_widths].
  { split; [|done]. apply adds_none; try done. intros _ h (Hw & _). by apply elem_of_nil in Hw. }
  assert (Hsub : forall h, at_offset ws off h -> at_offset (w :: ws) off h).
  { intros h (Hw & Hrest). split; [by right | done]. }
  assert (Hsplit : forall h, at_offset (w :: ws) off h -> at_offset [w] off h \/ at_offset ws off h).
  { intros h (Hw & Hrest). apply elem_of_cons in Hw as [Hw|Hw].
    - left. split; [by rewrite Hw; left | done].
    - right. by split. }
  assert (Hskip : (forall h, ~ at_offset [w] off h) -> forall o o',
            adds (at_offset ws off) (at_offset ws off) o o' ->
            adds (at_offset (w :: ws) off) (at_offset (w :: ws) off) o o').
  { intros Hno o1 o2. apply adds_weaken; [done |].
    intros h Hh. destruct (Hsplit h Hh) as [Hw|Hw]; [by destruct (Hno h) | done]. }
  destruct (Z.ltb_spec (zlen data) (off + value_size w)) as [Hlt|Hge].
  { destruct (IH o) as [IH1 IH2]. split; [|done]. apply Hskip; [|done].
    intros h (Hw & Hfit & _). apply list_elem_of_singleton in Hw. rewrite Hw in Hfit. lia. }
  rewrite (addr_small w) by done.
  destruct (width_gate (make_fastscan cfg) w (base + off)) eqn:Hgate; cbn [negb].
  2:{ destruct (IH o) as [IH1 IH2]. split; [|done]. apply Hskip; [|done].
      intros h (Hw & _ & _ & _ & Hg & _). apply list_elem_of_singleton in Hw.
      specialize (Hg Hall). congruence. }
  destruct (try_slot_adds w off o Ho Hge) as [Ha Hs]; [by intros _ |].
  destruct (try_slot _ _ _ _ _ _ _ w off o) as [[|] o1]; cbn [fst snd] in *.
  - split; [|done]. destruct Ha as (hs & E & F & _). exists hs.
    split_and!; [done | | intros Ht; rewrite Hs in Ht by done; done].
    eapply Forall_impl; [exact F |]. intros h (Hw & Hrest).
    split; [by apply list_elem_of_singleton in Hw; rewrite Hw; left | done].
  - destruct (IH o1) as [IH1 IH2]. split; [|done].
    eapply (adds_trans _ _ _ (at_offset [w] off) (at_offset ws off) _ _ o1); [| |done].
    + eapply adds_weaken; [|intros h Hh; exact Hh | exact Ha].
      intros h (Hw & Hrest). split; [by apply list_elem_of_singleton in Hw; rewrite Hw; left | done].
    + eapply adds_weaken; [exact Hsub | intros h Hh; exact Hh | exact IH1].
Qed.

(** The rows of a list of candidate offsets. *)
Definition offs_hit (offs : list Z) (h : scan_result_t) : Prop :=
  exists off, off ∈ offs /\ at_offset (widths cfg) off h.

Lemma scan_offsets_adds offs o :
  Forall (fun off => 0 <= off /\
    (scan_all_types cfg = false -> off + value_size (cfg_width cfg) <= zlen data)) offs ->
  adds (offs_hit offs) (offs_hit offs) o
    (scan_offsets ub_cast encode_float cfg (make_fastscan cfg) base data old cap offs o).
Proof using Hb Hwrap.
  revert o. induction offs as [|off offs IH]; intros o Hoffs; cbn [scan_offsets].
  { apply adds_none; try done. intros _ h (off & Hin & _). by apply elem_of_nil in Hin. }
  apply Forall_cons in Hoffs as [[Ho Hfit] Hoffs].
  assert (Hhere : forall h, at_offset (widths cfg) off h -> offs_hit (off :: offs) h).
  { intros h Hh. exists off. split; [by left | done]. }
  assert (Hthere : forall h, offs_hit offs h -> offs_hit (off :: offs) h).
  { intros h (off' & Hin & Hh). exists off'. split; [by right | done]. }
  assert (Hsplit : forall h, offs_hit (off :: offs) h -> at_offset (widths cfg) off h \/ offs_hit offs h).
  { intros h (off' & Hin & Hh). apply elem_of_cons in Hin as [->|Hin]; [by left |].
    right. by exists off'. }
  assert (Hlast : forall o1 o2, truncated o2 = true ->
    adds (at_offset (widths cfg) off) (at_offset (widths cfg) off) o1 o2 ->
    adds (offs_hit (off :: offs)) (offs_hit (off :: offs)) o1 o2).
  { intros o1 o2 Ht (hs & E & F & _). exists hs. split_and!; [done | | by rewrite Ht].
    by eapply Forall_impl. }
  assert (Hmore : forall o1 o2 o3,
    adds (at_offset (widths cfg) off) (at_offset (widths cfg) off) o1 o2 ->
    adds (offs_hit offs) (offs_hit offs) o2 o3 ->
    adds (offs_hit (off :: offs)) (offs_hit (off :: offs)) o1 o3).
  { intros o1 o2 o3 H1 H2. eapply (adds_trans _ _ _ _ _ _ _ o2); [| |exact Hsplit].
    - eapply adds_weaken; [exact Hhere | intros h Hh; exact Hh | exact H1].
    - eapply adds_weaken; [exact Hthere | intros h Hh; exact Hh | exact H2]. }
  unfold widths in *. destruct (scan_all_types cfg) eqn:Hall.
  - destruct (try_widths_adds kAllWidths off o Ho Hall) as [Ha Hs].
    destruct (try_widths _ _ _ _ _ _ _ _ kAllWidths off o) as [[|] o1]; cbn [fst snd] in *.
    + by apply Hlast; [apply Hs |].
    + eapply Hmore; [exact Ha |]. apply (adds_start _ _ _ _ _ (add_slots 1 o1)); [done | done | by apply IH].
  - specialize (Hfit eq_refl).
    destruct (Z.ltb_spec (zlen data) (off + value_size (cfg_width cfg))); [lia |].
    destruct (try_slot_adds (cfg_width cfg) off (add_slots 1 o) Ho Hfit) as [Ha Hs];
      [by unfold gated; rewrite Hall |].
    assert (Ha' : adds (at_offset [cfg_width cfg] off) (at_offset [cfg_width cfg] off) o
              (try_slot ub_cast encode_float cfg base data old cap (cfg_width cfg) off (add_slots 1 o)).2).
    { by apply (adds_start _ _ _ _ _ (add_slots 1 o)). }
    clear Ha. destruct (try_slot _ _ _ _ _ _ _ _ _ _) as [[|] o1]; cbn [fst snd] in *.
    + by apply Hlast; [apply Hs |].
    + eapply Hmore; [exact Ha' | by apply IH].
Qed.
End Run1.

(** The run scanner adds exactly the rows of its run. *)
Lemma scan_run_adds cfg base data old o :
  0 <= base -> base + zlen data <= 2 ^ 64 -> cfg_ok cfg ->
  adds (run_hit cfg base data old) (run_hit cfg base data old) o
    (scan_run ub_cast encode_float cfg (make_fastscan cfg) base data old o).
Proof.
  intros Hb Hwrap Hok. unfold scan_run. destruct (eff_cap cfg <=? _); [by apply adds_none |].
  assert (Hw : forall h off, slot_ok cfg (base + off) (matched h) (bits h) (prev_bits old (matched h) off) ->
            scan_all_types cfg = false -> matched h = cfg_width cfg).
  { intros h off (Hw & _) Hall. unfold widths in Hw. rewrite Hall in Hw.
    by apply list_elem_of_singleton in Hw. }
  destruct (Z.ltb_spec (zlen data) (if scan_all_types cfg then 1 else value_size (cfg_width cfg))) as [Hs|Hs].
  { apply adds_none; try done. intros _ h (off & Ho & Hfit & _ & _ & Hslot).
    pose proof (value_size_pos (matched h)).
    destruct (scan_all_types cfg) eqn:Hall; [lia |].
    pose proof (Hw h off Hslot eq_refl) as E. rewrite E in Hfit. lia. }
  set (last := if scan_all_types cfg then _ else _).
  set (offs := offsets _ _ _).
  assert (Hel : forall off, off ∈ offs <-> 0 <= off <= last /\ aligned cfg (base + off)).
  { intros off. by apply offsets_elem. }
  eapply adds_weaken; [| | apply scan_offsets_adds].
  - intros h (off & Hin & Hh & Hfit & Ha & Hbits & Hg & Hc). apply Hel in Hin as [Hin Hal].
    exists off. split_and!; [lia | done | done | done |]. unfold slot_ok. split_and!; done.
  - intros h (off & Ho & Hfit & Ha & Hbits & Hslot).
    pose proof (value_size_pos (matched h)). exists off. split.
    + apply Hel. destruct Hslot as (Hmw & Hal & _). split; [|done]. unfold last.
      destruct (scan_all_types cfg) eqn:Hall; [lia |].
      unfold widths in Hmw. rewrite Hall in Hmw. apply list_elem_of_singleton in Hmw.
      rewrite Hmw in Hfit. lia.
    + destruct Hslot as (Hmw & Hal & Hg & Hc). unfold at_offset. split_and!; done.
  - done.
  - done.
  - apply Forall_forall. intros off Hin. apply Hel in Hin as [Hin _]. split; [lia |].
    intros Hall. unfold last in Hin. rewrite Hall in Hin. lia.
Qed.
End RunFacts.

(** ** Walking regions *)

Lemma eff_chunk_pos cfg : cfg_ok cfg -> 1 <= eff_chunk cfg.
Proof.
  intros (_ & _ & _ & Hc). unfold eff_chunk, scan_chunk_bytes.
  destruct (Z.eqb_spec (cfg_chunk_bytes cfg) 0); lia.
Qed.

Definition region_fits (g : scan_region_t) : Prop :=
  0 <= reg_base g /\ 0 <= reg_size g /\ reg_base g + reg_size g < 2 ^ 64.

(** The slot lies in the region. *)
Definition in_region (g : scan_region_t) (a n : Z) : Prop :=
  reg_base g <= a /\ a + n <= reg_base g + reg_size g.

Section WalkFacts.
Variables (ub_cast : value_width_t -> spec_float -> Z) (encode_float : value_width_t -> spec_float -> Z).
Context {R : Type} `{ReaderOk R}.
Variables (r : R) (cfg : scan_config_t) (stash_mode : bool) (budget : Z) (other : nat -> Z).
Hypothesis Hok : cfg_ok cfg.

(** What the sink does with one run, for the list [proj] of the output. *)
Context {A : Type} (proj : worker_out_t -> list A) (P : Z -> list Z -> A -> Prop).
Hypothesis proj_region : forall o, proj (add_region o) = proj o.
Hypothesis proj_truncated : forall o, proj (set_truncated o) = proj o.
Hypothesis sink_adds : forall w a d,
  0 <= a -> a + zlen d <= 2 ^ 64 -> read r a (zlen d) = Some d ->
  gadds proj (P a d) (P a d) (w_out w)
    (w_out (walk_sink ub_cast encode_float cfg (make_fastscan cfg) stash_mode budget other w a d)).

(** Entries of readable runs between two addresses. *)
Definition from_runs (lo hi : Z) (x : A) : Prop :=
  exists a d, lo <= a /\ a + zlen d <= hi /\ read r a (zlen d) = Some d /\ P a d x.

(** Entries of one readable chunk of the grid that starts at [lo]. *)
Definition from_chunk (lo hi : Z) (x : A) : Prop :=
  exists k d, 0 <= k /\ lo + k * eff_chunk cfg < hi /\
    read r (lo + k * eff_chunk cfg) (Z.min (eff_chunk cfg) (hi - (lo + k * eff_chunk cfg))) = Some d /\
    P (lo + k * eff_chunk cfg) d x.

Lemma walk_runs_adds lo hi runs w :
  0 <= lo -> hi <= 2 ^ 64 ->
  (forall a d, (a, d) ∈ runs -> lo <= a /\ a + zlen d <= hi /\ read r a (zlen d) = Some d) ->
  gadds proj (from_runs lo hi) (fun x => exists a d, (a, d) ∈ runs /\ P a d x) (w_out w)
    (w_out (foldl (fun w '(a, d) =>
       walk_sink ub_cast encode_float cfg (make_fastscan cfg) stash_mode budget other w a d) w runs)).
Proof using H H0 sink_adds.
  intros Hlo Hhi. revert w. induction runs as [|[a d] runs IH]; intros w Hr; cbn [foldl].
  { apply adds_none; try done. intros _ x (a & d & Hin & _). by apply elem_of_nil in Hin. }
  destruct (Hr a d ltac:(left)) as (Ha & Hw & Hd).
  set (w1 := walk_sink _ _ _ _ _ _ _ w a d).
  apply (adds_trans _ _ _ (P a d) (fun x => exists a d, (a, d) ∈ runs /\ P a d x) _ _ (w_out w1)).
  - eapply adds_weaken; [| intros x Hx; exact Hx | by apply sink_adds; (done || lia)].
    intros x Hx. by exists a, d.
  - apply IH. intros a' d' Hin. apply Hr. by right.
  - intros x (a' & d' & Hin & Hx). apply elem_of_cons in Hin as [[= -> ->]|Hin]; [by left |].
    right. by exists a', d'.
Qed.

(** The chunk loop returns and adds the entries of its readable chunks. *)
Lemma walk_chunks_adds fuel end_ cursor tok w :
  0 <= cursor -> end_ < 2 ^ 64 -> (Z.to_nat (end_ - cursor) < fuel)%nat ->
  exists w' tok',
    walk_chunks ub_cast encode_float r cfg (make_fastscan cfg) stash_mode budget other fuel end_ cursor tok w
      = Some (w', tok') /\
    gadds proj (from_runs cursor end_) (fun x => tok = None /\ from_chunk cursor end_ x)
      (w_out w) (w_out w') /\
    (tok = None -> truncated (w_out w') = false -> tok' = None).
Proof using H H0 Hok sink_adds.
  pose proof (eff_chunk_pos cfg Hok) as Hch.
  revert cursor tok w. induction fuel as [|fuel IH]; intros cursor tok w Hc He Hf; [lia |].
  cbn [walk_chunks]. destruct (Z.ltb_spec cursor end_) as [Hlt|Hge].
  2:{ exists w, tok. split; [done |]. split; [|done]. apply adds_none; try done.
      intros _ x (_ & k & d & Hk & Hlt & _). nia. }
  destruct (cancelled tok) as [stop tok1] eqn:Htok.
  assert (Hnone : tok = None -> stop = false /\ tok1 = None)
    by (intros ->; simpl in Htok; by simplify_eq).
  destruct stop.
  { exists w, tok1. split; [done |]. split; [|intros Ht; by destruct (Hnone Ht)].
    apply adds_none; try done. intros _ x (Ht & _). by destruct (Hnone Ht). }
  set (want := Z.min (eff_chunk cfg) (end_ - cursor)).
  destruct (resilient_read_runs r cursor want 4096 tok1
    (walk_sink ub_cast encode_float cfg (make_fastscan cfg) stash_mode budget other) w ltac:(lia))
    as (k & tok2 & -> & Hk).
  set (w1 := foldl _ w _).
  assert (H1 : gadds proj (from_runs cursor end_)
    (fun x => tok = None /\ exists d, read r cursor want = Some d /\ P cursor d x) (w_out w) (w_out w1)).
  { eapply adds_weaken; [| | apply (walk_runs_adds cursor end_)]; [done | | done | lia |].
    - intros x (Ht & d & Hd & Hx). destruct (Hnone Ht) as [_ Ht1]. destruct (Hk Ht1) as [Hkl _].
      rewrite take_ge by lia. exists cursor, d. split; [|done].
      unfold runs_of, seg_runs. cbn [seg_addr seg_len rr_runs].
      change (4096 =? 0) with false. cbv iota. rewrite Hd. by left.
    - intros a d Hin. apply runs_read in Hin as (? & ? & ?); [|lia..]. split_and!; (done || lia). }
  destruct (truncated (w_out w1)) eqn:Htr.
  { exists w1, tok2. split; [done |]. split; [|intros _; by rewrite Htr].
    by eapply adds_truncated. }
  assert (Hcw : u64 (cursor + want) = cursor + want) by (apply wrap_small; unfold is_word; lia).
  rewrite Hcw. destruct (IH (cursor + want) tok2 w1) as (w2 & tok3 & -> & H2 & Ht3); [lia.. |].
  exists w2, tok3. split; [done |]. split; [|intros Ht; apply Ht3, Hk, Hnone; done].
  eapply (adds_trans _ _ _ _ _ _ _ (w_out w1)); [exact H1 | |].
  - eapply adds_weaken; [| intros h Hh; exact Hh | exact H2].
    intros h (a & d & ? & ? & ?). exists a, d. split_and!; (lia || tauto).
  - intros x (Ht & q & d & Hq & Hlt' & Hd & Hx).
    destruct (Z.eq_dec q 0) as [->|Hq0].
    + left. rewrite Z.mul_0_l, Z.add_0_r in Hd, Hx. split; [done |]. by exists d.
    + right. destruct (Hk (proj2 (Hnone Ht))) as [_ ->]. split; [done |].
      assert (want = eff_chunk cfg) as Hwant by nia.
      exists (q - 1), d. rewrite Hwant.
      replace (cursor + eff_chunk cfg + (q - 1) * eff_chunk cfg) with (cursor + q * eff_chunk cfg) by lia.
      split_and!; (done || lia).
Qed.

Definition region_runs (g : scan_region_t) : A -> Prop :=
  from_runs (reg_base g) (reg_base g + reg_size g).
Definition region_chunk (g : scan_region_t) : A -> Prop :=
  from_chunk (reg_base g) (reg_base g + reg_size g).

Lemma walk_region_adds g tok w :
  region_fits g ->
  exists w' tok',
    walk_region ub_cast encode_float r cfg (make_fastscan cfg) stash_mode budget other g tok w
      = Some (w', tok') /\
    gadds proj (region_runs g) (fun x => tok = None /\ region_chunk g x) (w_out w) (w_out w') /\
    (tok = None -> truncated (w_out w') = false -> tok' = None).
Proof using H H0 Hok sink_adds proj_region.
  intros (H1 & H2 & H3). unfold walk_region.
  rewrite (wrap_small 64 (reg_base g + reg_size g)) by (unfold is_word; lia).
  destruct (walk_chunks_adds (S (Z.to_nat (reg_size g))) (reg_base g + reg_size g) (reg_base g) tok w)
    as (w' & tok' & -> & Ha & Ht); [lia.. |].
  eexists _, tok'. split; [done |]. split; [|done]. cbn [w_out].
  by apply (adds_end _ _ _ _ _ (w_out w')).
Qed.

Lemma first_worker_adds regions abort tok w :
  Forall region_fits regions ->
  exists o,
    first_worker ub_cast encode_float r cfg (make_fastscan cfg) stash_mode budget other regions abort tok w
      = Some o /\
    gadds proj (fun x => exists g, g ∈ regions /\ region_runs g x)
         (fun x => abort = None /\ tok = None /\ exists g, g ∈ regions /\ region_chunk g x)
         (w_out w) o.
Proof using H H0 Hok sink_adds proj_region proj_truncated.
  revert abort tok w. induction regions as [|g regions IH]; intros abort tok w Hf; cbn [first_worker].
  { exists (w_out w). split; [done |]. apply adds_none; try done.
    intros _ h (_ & _ & g & Hg & _). by apply elem_of_nil in Hg. }
  apply Forall_cons in Hf as [Hg Hf].
  destruct (cancelled abort) as [ab abort'] eqn:Hab.
  assert (Habn : abort = None -> ab = false /\ abort' = None)
    by (intros ->; simpl in Hab; by simplify_eq).
  destruct ab.
  { exists (w_out w). split; [done |]. apply adds_none; try done.
    intros _ h (Ht & _). by destruct (Habn Ht). }
  destruct (cancelled tok) as [stop tok1] eqn:Htok.
  assert (Hnone : tok = None -> stop = false /\ tok1 = None)
    by (intros ->; simpl in Htok; by simplify_eq).
  destruct stop.
  { exists (w_out w). split; [done |]. apply adds_none; try done.
    intros _ h (_ & Ht & _). by destruct (Hnone Ht). }
  destruct (walk_region_adds g tok1 w Hg) as (w1 & tok2 & -> & H1 & Ht2).
  assert (Hone : gadds proj (fun x => exists g0, g0 ∈ g :: regions /\ region_runs g0 x)
                   (fun x => abort = None /\ tok = None /\ region_chunk g x) (w_out w) (w_out w1)).
  { eapply adds_weaken; [| | exact H1].
    - intros h Hh. exists g. split; [by left | done].
    - intros h (_ & Ht & Hh). split; [by apply Hnone | done]. }
  destruct (negb stash_mode && _).
  { eexists. split; [done |]. by eapply adds_truncated; [exact Hone | apply proj_truncated |]. }
  destruct (truncated (w_out w1)) eqn:Htr.
  { eexists. split; [done |]. by eapply adds_truncated; [exact Hone | |]. }
  destruct (IH abort' tok2 w1 Hf) as (o & -> & H2). exists o. split; [done |].
  eapply (adds_trans _ _ _ _ _ _ _ (w_out w1)); [exact Hone | |].
  - eapply adds_weaken; [| intros x Hx; exact Hx | exact H2].
    intros h (g0 & Hg0 & Hh). exists g0. split; [by right | done].
  - intros h (Ha & Ht & g0 & Hg0 & Hh). apply elem_of_cons in Hg0 as [->|Hg0]; [by left |].
    right. split; [by apply Habn |]. split; [apply Ht2; [by apply Hnone | done] |]. by exists g0.
Qed.
End WalkFacts.

Section SlotFacts.
Variables (ub_cast : value_width_t -> spec_float -> Z) (encode_float : value_width_t -> spec_float -> Z).
Context {R : Type} `{ReaderOk R}.
Variables (r : R) (cfg : scan_config_t).

(** The row is what the target holds at its address, and [p] was there before. *)
Definition slot_hit (p : Z) (h : scan_result_t) : Prop :=
  exists d, read r (address h) (value_size (matched h)) = Some d /\
    bits h = load_bits (Z.to_nat (value_size (matched h))) d /\
    slot_ok ub_cast encode_float cfg (address h) (matched h) (bits h) p.

Definition region_hit (g : scan_region_t) (h : scan_result_t) : Prop :=
  in_region g (address h) (value_size (matched h)) /\ slot_hit 0 h.

Lemma run_hit_read base data old h :
  read r base (zlen data) = Some data ->
  run_hit ub_cast encode_float cfg base data old h <->
  base <= address h /\ address h + value_size (matched h) <= base + zlen data /\
  slot_hit (prev_bits old (matched h) (address h - base)) h.
Proof using H H0.
  intros Hd. pose proof (value_size_pos (matched h)) as Hs.
  assert (Hrd : forall off, 0 <= off -> off + value_size (matched h) <= zlen data ->
    read r (base + off) (value_size (matched h)) =
      Some (take (Z.to_nat (value_size (matched h))) (drop (Z.to_nat off) data))).
  { intros off Ho Hf. apply (read_sub r base (zlen data)); (done || lia). }
  split.
  - intros (off & Ho & Hfit & Ha & Hb & Hok'). split; [lia |]. split; [lia |].
    exists (take (Z.to_nat (value_size (matched h))) (drop (Z.to_nat off) data)).
    rewrite Ha, load_bits_take. replace (base + off - base) with off by lia.
    split; [by apply Hrd |]. by split.
  - intros (H1 & H2 & (d & Hrd' & Hb & Hok')). exists (address h - base).
    split; [lia |]. split; [lia |]. split; [lia |].
    specialize (Hrd (address h - base) ltac:(lia) ltac:(lia)).
    replace (base + (address h - base)) with (address h) in * by lia.
    rewrite Hrd in Hrd'. simplify_eq. rewrite load_bits_take in Hb. by split.
Qed.

Lemma value_sink_adds budget other w a d :
  cfg_ok cfg -> 0 <= a -> a + zlen d <= 2 ^ 64 ->
  adds (run_hit ub_cast encode_float cfg a d None) (run_hit ub_cast encode_float cfg a d None) (w_out w)
    (w_out (walk_sink ub_cast encode_float cfg (make_fastscan cfg) false budget other w a d)).
Proof using Type.
  intros Hok Ha Hd. unfold walk_sink. cbn [w_out].
  apply (adds_start _ _ _ _ _ (add_bytes (zlen d) (w_out w))); [done | done |].
  by apply scan_run_adds.
Qed.

(** The chunk of a region's grid that holds a slot, when it is readable. *)
Definition chunk_readable (g : scan_region_t) (a n : Z) : Prop :=
  exists k, 0 <= k /\ let c := reg_base g + k * eff_chunk cfg in
    c <= a /\ a + n <= c + eff_chunk cfg /\
    readable r c (Z.min (eff_chunk cfg) (reg_base g + reg_size g - c)).

Lemma region_hit_runs g h :
  region_runs r (fun a d => run_hit ub_cast encode_float cfg a d None) g h -> region_hit g h.
Proof using H H0.
  intros (a & d & H1 & H2 & Hd & Hh). apply (run_hit_read a d None h Hd) in Hh as (? & ? & Hh).
  split; [unfold in_region; lia | done].
Qed.

Lemma region_hit_chunk g h :
  region_hit g h -> chunk_readable g (address h) (value_size (matched h)) ->
  region_chunk r cfg (fun a d => run_hit ub_cast encode_float cfg a d None) g h.
Proof using H H0.
  intros [[Hi1 Hi2] Hh] (k & Hk & Hc1 & Hc2 & Hrd). pose proof (value_size_pos (matched h)).
  set (c := reg_base g + k * eff_chunk cfg) in *.
  set (n := Z.min _ _) in Hrd.
  destruct (proj2 (read_is_Some r c n ltac:(lia)) Hrd) as [d Hd]. exists k, d. fold c.
  split; [done |]. split; [lia |]. split; [done |].
  pose proof (read_zlen r c n d ltac:(lia) Hd) as Hl. rewrite <- Hl in Hd.
  apply (run_hit_read c d None h Hd). split_and!; (done || lia).
Qed.
End SlotFacts.

(** ** Joining the workers *)

Lemma take_hits_spec mx hits acc acc' t :
  take_hits mx hits acc = (acc', t) ->
  (forall h, h ∈ acc' -> h ∈ acc \/ h ∈ hits) /\
  (t = false -> forall h, h ∈ acc \/ h ∈ hits -> h ∈ acc').
Proof.
  revert acc. induction hits as [|m ms IH]; intros acc; simpl.
  - intros [= -> ->]. split; [auto |]. intros _ a [?|Ha]; [done | by apply elem_of_nil in Ha].
  - destruct (mx <=? zlen acc).
    + intros [= -> <-]. split; [auto | done].
    + intros Hm. apply IH in Hm as [H1 H2]. split.
      * intros a Ha. apply H1 in Ha. rewrite elem_of_app, list_elem_of_singleton in Ha.
        rewrite elem_of_cons. tauto.
      * intros Ht a Ha. apply H2; [done |]. rewrite elem_of_app, list_elem_of_singleton.
        rewrite elem_of_cons in Ha. tauto.
Qed.

Lemma merge_hits_spec mx outs acc t st acc' t' st' :
  merge_hits mx outs acc t st = (acc', t', st') ->
  st_truncated st' = st_truncated st /\ st_regions st' = st_regions st /\
  (forall h, h ∈ acc' -> h ∈ acc \/ exists o, o ∈ outs /\ h ∈ results o) /\
  (t' = false -> t = false /\ Forall (fun o => truncated o = false) outs /\
     forall h, (h ∈ acc \/ exists o, o ∈ outs /\ h ∈ results o) -> h ∈ acc').
Proof.
  revert acc t st. induction outs as [|o outs IH]; intros acc t st; cbn [merge_hits].
  - intros [= -> -> ->]. split_and!; [done | done | auto |]. intros ->. split_and!; [done | by constructor |].
    intros a [?|(w & Hw & _)]; [done | by apply elem_of_nil in Hw].
  - destruct (take_hits mx (results o) acc) as [acc1 t1] eqn:Hm.
    apply take_hits_spec in Hm as [M1 M2]. intros Hw. apply IH in Hw as (W0 & W0' & W1 & W2).
    cbn [st_truncated st_regions] in *. split; [done |]. split; [done |]. split.
    + intros a Ha. apply W1 in Ha as [Ha|(w' & Hw' & Ha)].
      * apply M1 in Ha as [?|?]; [by left | right; exists o; split; [by left | done]].
      * right. exists w'. split; [by right | done].
    + intros Ht. destruct (W2 Ht) as (Ht' & HF & HA).
      apply orb_false_iff in Ht' as [Ht' ->]. apply orb_false_iff in Ht' as [-> Hwt].
      split_and!; [done | by constructor |]. intros a Ha. apply HA.
      destruct Ha as [Ha|(w' & Hw' & Ha)]; [left; apply M2; auto |].
      apply elem_of_cons in Hw' as [->|Hw']; [left; apply M2; auto | right; eauto].
Qed.

#[global] Instance result_le_total : Total result_le.
Proof. intros a b. unfold result_le. lia. Qed.
#[global] Instance result_le_trans : Transitive result_le.
Proof. intros a b c. unfold result_le. lia. Qed.
#[global] Instance copy_le_total : Total copy_le.
Proof. intros a b. unfold copy_le. lia. Qed.
#[global] Instance copy_le_trans : Transitive copy_le.
Proof. intros a b c. unfold copy_le. lia. Qed.

(** The rows of the joined scan: sorted, from the workers, all of them unless truncated. *)
Lemma merge_workers_spec outs mx st res st' :
  merge_workers outs mx st = (res, st') ->
  StronglySorted result_le res /\ st_found st' = zlen res /\ st_regions st' = st_regions st /\
  (forall h, h ∈ res -> exists o, o ∈ outs /\ h ∈ results o) /\
  (st_truncated st' = false -> Forall (fun o => truncated o = false) outs /\
     forall h, (exists o, o ∈ outs /\ h ∈ results o) -> h ∈ res).
Proof.
  unfold merge_workers. destruct (merge_hits mx outs [] false st) as [[acc t] st1] eqn:Hm.
  apply merge_hits_spec in Hm as (M0 & M0' & M1 & M2). intros [= <- <-]. cbn.
  pose proof (merge_sort_Permutation result_le acc) as Hp.
  split_and!.
  - apply StronglySorted_merge_sort; apply _.
  - unfold zlen. by rewrite Hp.
  - done.
  - intros h Hh. rewrite Hp in Hh. apply M1 in Hh as [Hh|Hh]; [by apply elem_of_nil in Hh | done].
  - intros Ht. apply orb_false_iff in Ht as [_ Ht]. destruct (M2 Ht) as (_ & HF & HA).
    split; [done |]. intros h Hh. rewrite Hp. apply HA. by right.
Qed.

(** The static shares cover the list. *)
Lemma share_sub {A} nw i (l : list A) x : x ∈ share nw i l -> x ∈ l.
Proof.
  unfold share. rewrite list_elem_of_omap. intros (k & _ & Hk). by eapply list_elem_of_lookup_2.
Qed.

Lemma share_cover {A} nw (l : list A) x :
  (0 < nw)%nat -> x ∈ l -> exists i, i ∈ seq 0 nw /\ x ∈ share nw i l.
Proof.
  intros Hn Hx. apply list_elem_of_lookup in Hx as [k Hk]. exists (k mod nw)%nat. split.
  - apply elem_of_seq. pose proof (Nat.mod_upper_bound k nw). lia.
  - unfold share. apply list_elem_of_omap. exists k. split; [|done].
    apply list_elem_of_filter. split; [done |]. apply elem_of_seq. apply lookup_lt_Some in Hk. lia.
Qed.

(** ** Region filtering *)

(** The caller's clamp and the region preferences of an address of [g]. *)
Definition in_clamp (cfg : scan_config_t) (a : Z) : Prop :=
  (cfg_begin cfg = 0 \/ cfg_begin cfg <= a) /\ (cfg_end cfg = 0 \/ a < cfg_end cfg).

Lemma filter_region_spec cfg g :
  region_fits g -> 0 <= cfg_begin cfg -> 0 <= cfg_end cfg ->
  match filter_region cfg g with
  | Some g' =>
      region_accepted cfg (reg_protect g) (reg_type g) = true /\
      reg_protect g' = reg_protect g /\ reg_type g' = reg_type g /\
      region_fits g' /\ 0 < reg_size g' /\
      forall a, reg_base g' <= a < reg_base g' + reg_size g' <->
        reg_base g <= a < reg_base g + reg_size g /\ in_clamp cfg a
  | None =>
      region_accepted cfg (reg_protect g) (reg_type g) = false \/
      forall a, ~ (reg_base g <= a < reg_base g + reg_size g /\ in_clamp cfg a)
  end.
Proof.
  intros (H1 & H2 & H3) Hb He. unfold filter_region, in_clamp, region_fits.
  rewrite (wrap_small 64 (reg_base g + reg_size g)) by (unfold is_word; lia). cbv zeta.
  zcase; cbn [negb andb] in *; try (right; intros a; lia).
  all: destruct (region_accepted _ _ _); [|by left].
  all: cbn [reg_base reg_size reg_protect reg_type]; rewrite wrap_small by (unfold is_word; lia);
    split_and!; try done; try lia; intros a; lia.
Qed.

(** Region filtering keeps exactly the admissible memory: an address is in
    some kept region iff it is in an input region whose protection, type and
    tri-state preferences pass and it lies inside the caller's clamp; kept regions
    are non-empty, keep their protection and type and do not wrap. *)
Lemma filter_regions_spec cfg regions :
  Forall region_fits regions -> 0 <= cfg_begin cfg -> 0 <= cfg_end cfg ->
  Forall (fun g' => region_fits g' /\ 0 < reg_size g' /\
            region_accepted cfg (reg_protect g') (reg_type g') = true) (filter_regions regions cfg) /\
  forall a, (exists g', g' ∈ filter_regions regions cfg /\ reg_base g' <= a < reg_base g' + reg_size g') <->
    exists g, g ∈ regions /\ reg_base g <= a < reg_base g + reg_size g /\
      region_accepted cfg (reg_protect g) (reg_type g) = true /\ in_clamp cfg a.
Proof.
  intros Hf Hb He. rewrite Forall_forall in Hf. unfold filter_regions. split.
  - apply Forall_forall. intros g' Hg'. apply list_elem_of_omap in Hg' as (g & Hg & Hg').
    pose proof (filter_region_spec cfg g (Hf g Hg) Hb He) as Hs. rewrite Hg' in Hs.
    destruct Hs as (Hacc & Hp & Ht & Hfit & Hsz & _). rewrite Hp, Ht. by split_and!.
  - intros a. split.
    + intros (g' & Hg' & Ha). apply list_elem_of_omap in Hg' as (g & Hg & Hg').
      pose proof (filter_region_spec cfg g (Hf g Hg) Hb He) as Hs. rewrite Hg' in Hs.
      destruct Hs as (Hacc & _ & _ & _ & _ & Hiff). apply Hiff in Ha as [? ?]. by exists g.
    + intros (g & Hg & Ha & Hacc & Hcl).
      pose proof (filter_region_spec cfg g (Hf g Hg) Hb He) as Hs.
      destruct (filter_region cfg g) as [g'|] eqn:E.
      * exists g'. split; [apply list_elem_of_omap; by exists g |]. by apply Hs.
      * destruct Hs as [Hs|Hs]; [congruence | by destruct (Hs a)].
Qed.

Lemma filter_regions_fits cfg regions :
  Forall region_fits regions -> 0 <= cfg_begin cfg -> 0 <= cfg_end cfg ->
  Forall region_fits (filter_regions regions cfg).
Proof.
  intros Hf Hb He. rewrite Forall_forall in *. unfold filter_regions. intros g' Hg'.
  apply list_elem_of_omap in Hg' as (g & Hg & Hg').
  pose proof (filter_region_spec cfg g (Hf g Hg) Hb He) as Hs. rewrite Hg' in Hs. apply Hs.
Qed.

(** ** First scan *)

(** The states a scan can be in between calls. *)
Definition memscan_ok (m : memscan_t) : Prop :=
  (region_scan_active_ m = true <-> stash_ m <> []) /\
  (address_list_ m = true <-> results_ m <> []) /\
  ~ (region_scan_active_ m = true /\ address_list_ m = true).

Definition undisturbed (sched : nat -> sched_t) : Prop :=
  forall i, s_abort (sched i) = None /\ s_cancel (sched i) = None.

Lemma mapM_seq_total {A} (f : nat -> option A) (P : nat -> A -> Prop) n :
  (forall i, exists o, f i = Some o /\ P i o) ->
  exists outs, mapM f (seq 0 n) = Some outs /\ Forall2 P (seq 0 n) outs.
Proof.
  intros Hf. generalize 0%nat. induction n as [|n IH]; intros k; [by exists [] |].
  destruct (Hf k) as (o & E & Ho), (IH (S k)) as (outs & Es & HF).
  exists (o :: outs). cbn [seq mapM]. rewrite E. cbn [mbind option_bind]. rewrite Es.
  split; [done | by constructor].
Qed.

Lemma negb_decide_nil {A} (l : list A) `{!Decision (l = [])} :
  negb (bool_decide (l = [])) = true <-> l <> [].
Proof. rewrite negb_true_iff, bool_decide_eq_false. done. Qed.

Section FirstScan.
Variables (ub_cast : value_width_t -> spec_float -> Z) (encode_float : value_width_t -> spec_float -> Z).
Context {R : Type} `{ReaderOk R}.
Variables (r : R) (cfg : scan_config_t) (sched : nat -> sched_t) (stash_mode : bool) (budget : Z).
Hypothesis Hok : cfg_ok cfg.
Context {A : Type} (proj : worker_out_t -> list A) (P : Z -> list Z -> A -> Prop).
Hypothesis proj_out0 : proj out0 = [].
Hypothesis proj_region : forall o, proj (add_region o) = proj o.
Hypothesis proj_truncated : forall o, proj (set_truncated o) = proj o.
Hypothesis sink_adds : forall other w a d,
  0 <= a -> a + zlen d <= 2 ^ 64 -> read r a (zlen d) = Some d ->
  gadds proj (P a d) (P a d) (w_out w)
    (w_out (walk_sink ub_cast encode_float cfg (make_fastscan cfg) stash_mode budget other w a d)).

(** What the joined first-scan workers hold. *)
Lemma first_workers_adds regions nw :
  Forall region_fits regions -> (0 < nw)%nat ->
  exists outs,
    mapM (fun i => first_worker ub_cast encode_float r cfg (make_fastscan cfg) stash_mode budget
            (s_other (sched i)) (share nw i regions) (s_abort (sched i)) (s_cancel (sched i))
            (mk_walk out0 0 0)) (seq 0 nw) = Some outs /\
    (forall x, (exists o, o ∈ outs /\ x ∈ proj o) -> exists g, g ∈ regions /\ region_runs r P g x) /\
    (Forall (fun o => truncated o = false) outs -> undisturbed sched ->
       forall g x, g ∈ regions -> region_chunk r cfg P g x -> exists o, o ∈ outs /\ x ∈ proj o).
Proof using H H0 Hok proj_out0 proj_region proj_truncated sink_adds.
  intros Hf Hn.
  destruct (mapM_seq_total
    (fun i => first_worker ub_cast encode_float r cfg (make_fastscan cfg) stash_mode budget
            (s_other (sched i)) (share nw i regions) (s_abort (sched i)) (s_cancel (sched i))
            (mk_walk out0 0 0))
    (fun i o => gadds proj (fun x => exists g, g ∈ share nw i regions /\ region_runs r P g x)
         (fun x => s_abort (sched i) = None /\ s_cancel (sched i) = None /\
            exists g, g ∈ share nw i regions /\ region_chunk r cfg P g x) out0 o) nw)
    as (outs & E & HF).
  { intros i. apply (first_worker_adds ub_cast encode_float r cfg stash_mode budget _ Hok proj P
      proj_region proj_truncated (sink_adds _)).
    apply Forall_forall. intros g Hg. apply share_sub in Hg. by apply (proj1 (Forall_forall _ _) Hf). }
  exists outs. split; [exact E |]. split.
  - intros x (o & Ho & Hx). apply list_elem_of_lookup in Ho as [j Ho].
    destruct (Forall2_lookup_r _ _ _ _ _ HF Ho) as (i & _ & (hs & Er & Fr & _)).
    rewrite Er, proj_out0 in Hx. destruct (proj1 (Forall_forall _ _) Fr x Hx) as (g & Hg & Hgx).
    exists g. split; [by eapply share_sub | done].
  - intros Hnt Hun g x Hg Hx. destruct (share_cover nw regions g Hn Hg) as (i & Hi & Hgi).
    apply list_elem_of_lookup in Hi as [j Hj].
    destruct (Forall2_lookup_l _ _ _ _ _ HF Hj) as (o & Ho & (hs & Er & _ & C)).
    assert (Hin : o ∈ outs) by (by eapply list_elem_of_lookup_2).
    exists o. split; [done |]. rewrite Er, proj_out0.
    apply C; [by apply (proj1 (Forall_forall _ _) Hnt) |]. destruct (Hun i). eauto.
Qed.
End FirstScan.

Lemma is_relational_false t : is_relational t = false -> bool_decide (t = unknown_initial) = false.
Proof. by destruct t. Qed.

(** C4: a first value scan always returns, under any schedule of its workers, any
    cancellation and any unreadable memory.  The rows are sorted by address and
    each one is a slot of a filtered region that the target really holds and that
    passes the fastscan constraint and the comparison.  If nothing cancelled or
    aborted the workers and the result is not flagged truncated, every matching
    slot inside a readable chunk of its region is reported, for every chunk size
    and thread count. *)
Theorem first_scan_values ub_cast encode_float hw {R} `{ReaderOk R} (r : R) cfg sched stop regions :
  cfg_ok cfg -> 0 <= cfg_begin cfg -> 0 <= cfg_end cfg ->
  is_relational (cfg_type cfg) = false -> Forall region_fits regions ->
  exists m, first_scan ub_cast encode_float hw r cfg sched stop regions = Some m /\
    memscan_ok m /\ StronglySorted result_le (results_ m) /\
    (forall h, h ∈ results_ m ->
       exists g, g ∈ filter_regions regions cfg /\ region_hit ub_cast encode_float r cfg g h) /\
    (st_truncated (stats_ m) = false -> undisturbed sched ->
     forall g h, g ∈ filter_regions regions cfg -> region_hit ub_cast encode_float r cfg g h ->
       chunk_readable r cfg g (address h) (value_size (matched h)) -> h ∈ results_ m).
Proof.
  intros Hok Hb He Hrel Hfit. pose proof (filter_regions_fits cfg regions Hfit Hb He) as Hff.
  unfold first_scan. rewrite Hrel, (is_relational_false _ Hrel). cbv zeta.
  set (regs := filter_regions regions cfg) in *.
  destruct (decide (regs = [])) as [E|E].
  { rewrite bool_decide_eq_true_2 by done. eexists. split; [done |]. cbn.
    split; [by unfold memscan_ok; cbn; intuition |]. split; [constructor |]. split.
    - intros h Hh. by apply elem_of_nil in Hh.
    - intros _ _ g h Hg. rewrite E in Hg. by apply elem_of_nil in Hg. }
  rewrite bool_decide_eq_false_2 by done.
  set (nw := Z.to_nat (Z.max 1 _)).
  destruct (first_workers_adds ub_cast encode_float r cfg sched false 0 Hok results
    (fun a d => run_hit ub_cast encode_float cfg a d None)) with (regions := regs) (nw := nw)
    as (outs & -> & S1 & S2); try done; [by intros; apply value_sink_adds | subst nw; lia |].
  cbn [mbind option_bind].
  destruct (merge_workers outs (eff_cap cfg) _) as [res st] eqn:Hm.
  apply merge_workers_spec in Hm as (M1 & _ & _ & M2 & M3). eexists. split; [done |].
  cbn [results_ stats_ stash_ region_scan_active_ address_list_].
  split.
  { unfold memscan_ok. cbn [results_ stash_ region_scan_active_ address_list_].
    split; [done |]. split; [apply negb_decide_nil | by intros [? ?]]. }
  split; [done |]. split.
  - intros h Hh. destruct (S1 h (M2 h Hh)) as (g & Hg & Hr). exists g. split; [done |].
    by apply (region_hit_runs ub_cast encode_float r cfg).
  - intros Ht Hun g h Hg Hh Hc. cbn in Ht. destruct (M3 Ht) as [Hnt Hall].
    apply Hall, (S2 Hnt Hun g h Hg). by apply (region_hit_chunk ub_cast encode_float r cfg).
Qed.

(** The stash of a region scan: what [stash_copy] says of each copy. *)
Definition stash_copy {R} `{Reader R} (r : R) (g : scan_region_t) (c : region_copy_t) : Prop :=
  reg_base g <= rc_base c /\ rc_base c + zlen (rc_bytes c) <= reg_base g + reg_size g /\
  read r (rc_base c) (zlen (rc_bytes c)) = Some (rc_bytes c).

Lemma stash_sink_adds ub_cast encode_float cfg budget other w a d :
  gadds stash (fun c => c = mk_copy a d) (fun c => c = mk_copy a d) (w_out w)
    (w_out (walk_sink ub_cast encode_float cfg (make_fastscan cfg) true budget other w a d)).
Proof.
  unfold walk_sink. destruct (_ <? _); cbn [w_out].
  - apply adds_none; done.
  - exists [mk_copy a d]. split_and!; [done | by constructor |]. intros Ht. split; [done |].
    intros c ->. by left.
Qed.

Lemma is_relational_true t : is_relational t = true \/ is_relational t = false.
Proof. destruct t; auto. Qed.

(** A first scan of a relational type keeps no rows but a stash.  Every copy
    is the memory of one readable run of a filtered region, the copies are sorted
    by base; if nothing disturbed the workers and the stash budget held, every
    readable byte of a readable chunk of a region is in the stash. *)
Lemma first_scan_stash ub_cast encode_float hw {R} `{ReaderOk R} (r : R) cfg sched stop regions :
  cfg_ok cfg -> 0 <= cfg_begin cfg -> 0 <= cfg_end cfg ->
  is_relational (cfg_type cfg) = true -> Forall region_fits regions ->
  exists m, first_scan ub_cast encode_float hw r cfg sched stop regions = Some m /\
    memscan_ok m /\ results_ m = [] /\ StronglySorted copy_le (stash_ m) /\
    (forall c, c ∈ stash_ m -> exists g, g ∈ filter_regions regions cfg /\ stash_copy r g c) /\
    (st_truncated (stats_ m) = false -> undisturbed sched ->
     forall g a, g ∈ filter_regions regions cfg ->
       reg_base g <= a < reg_base g + reg_size g -> chunk_readable r cfg g a 1 ->
       exists c, c ∈ stash_ m /\ rc_base c <= a < rc_base c + zlen (rc_bytes c)).
Proof.
  intros Hok Hb He Hrel Hfit. pose proof (filter_regions_fits cfg regions Hfit Hb He) as Hff.
  unfold first_scan. rewrite Hrel. cbv zeta. cbn [cfg_type set_type].
  rewrite (bool_decide_eq_true_2 (unknown_initial = unknown_initial)) by done.
  set (regs := filter_regions regions cfg) in *.
  destruct (decide (regs = [])) as [E|E].
  { rewrite bool_decide_eq_true_2 by done. eexists. split; [done |]. cbn.
    split; [by unfold memscan_ok; cbn; intuition |]. split; [done |]. split; [constructor |]. split.
    - intros h Hh. by apply elem_of_nil in Hh.
    - intros _ _ g h Hg. rewrite E in Hg. by apply elem_of_nil in Hg. }
  rewrite (bool_decide_eq_false_2 (regs = [])) by done.
  set (nw := Z.to_nat (Z.max 1 _)). set (cfg' := set_type unknown_initial cfg).
  destruct (first_workers_adds ub_cast encode_float r cfg' sched true max_stash_bytes Hok stash
    (fun a d c => c = mk_copy a d)) with (regions := regs) (nw := nw)
    as (outs & Eouts & S1 & S2); try done; [by intros; apply stash_sink_adds | subst nw; lia |].
  change (make_fastscan cfg') with (make_fastscan cfg) in Eouts. rewrite Eouts.
  cbn [mbind option_bind].
  destruct (merge_workers outs 0 _) as [res st] eqn:Hm.
  apply merge_workers_spec in Hm as (_ & _ & _ & _ & M3). eexists. split; [done |].
  cbn [results_ stats_ stash_ region_scan_active_ address_list_ set_cancelled set_found st_truncated].
  assert (Hin : forall c, c ∈ merge_sort copy_le (concat (stash <$> outs)) <-> exists o, o ∈ outs /\ c ∈ stash o).
  { intros c. rewrite (merge_sort_Permutation copy_le _), list_elem_of_In, in_concat. split.
    - intros (l & Hl & Hc). apply list_elem_of_In, list_elem_of_fmap in Hl as (o & -> & Ho).
      apply list_elem_of_In in Hc. by exists o.
    - intros (o & Ho & Hc). exists (stash o). rewrite <- !list_elem_of_In.
      split; [apply list_elem_of_fmap; by exists o | done]. }
  split.
  { unfold memscan_ok. cbn [results_ stash_ region_scan_active_ address_list_].
    split; [apply negb_decide_nil | split; [done | by intros [? ?]]]. }
  split; [done |]. split; [apply StronglySorted_merge_sort; apply _ |]. split.
  - intros c Hc. apply Hin, S1 in Hc as (g & Hg & a & d & H1 & H2 & Hd & ->).
    exists g. by split.
  - intros Ht Hun g a Hg Ha (k & Hk & Hc1 & Hc2 & Hrd). destruct (M3 Ht) as [Hnt _].
    set (c := reg_base g + k * eff_chunk cfg) in *. set (n := Z.min _ _) in Hrd.
    destruct (proj2 (read_is_Some r c n ltac:(lia)) Hrd) as [d Hd].
    exists (mk_copy c d). cbn [rc_base rc_bytes].
    rewrite (read_zlen r c n d) by (done || lia). split; [|lia].
    apply Hin, (S2 Hnt Hun g); [done |]. exists k, d.
    split; [done |]. split; [change (eff_chunk cfg') with (eff_chunk cfg); lia | by split].
Qed.

(** ** Next scan *)

Section NextScan.
Variables (ub_cast : value_width_t -> spec_float -> Z) (encode_float : value_width_t -> spec_float -> Z).
Context {R : Type} `{ReaderOk R}.
Variables (r : R) (cfg : scan_config_t).

(** [h] is the stored row [row] read again and still matching. *)
Definition rechecked (row h : scan_result_t) : Prop :=
  address h = address row /\ matched h = matched row /\
  exists d, read r (address row) (value_size (matched row)) = Some d /\
    bits h = load_bits (Z.to_nat (value_size (matched row))) d /\
    check_value ub_cast encode_float cfg (matched row) (bits h) (bits row) = true.

Definition rechecked_in (rows : list scan_result_t) (h : scan_result_t) : Prop :=
  exists row, row ∈ rows /\ rechecked row h.

Lemma recheck_rows_adds rows o :
  adds (rechecked_in rows) (rechecked_in rows) o (recheck_rows ub_cast encode_float r cfg rows o).2 /\
  ((recheck_rows ub_cast encode_float r cfg rows o).1 = true ->
   truncated (recheck_rows ub_cast encode_float r cfg rows o).2 = true).
Proof using Type.
  revert o. induction rows as [|row rows IH]; intros o; cbn [recheck_rows].
  { split; [|done]. apply adds_none; try done. intros _ h (row & Hin & _). by apply elem_of_nil in Hin. }
  assert (Hskip : (forall h, ~ rechecked row h) -> forall o1 o2,
    adds (rechecked_in rows) (rechecked_in rows) o1 o2 ->
    adds (rechecked_in (row :: rows)) (rechecked_in (row :: rows)) o1 o2).
  { intros Hno o1 o2. apply adds_weaken.
    - intros h (row' & Hin & Hh). exists row'. split; [by right | done].
    - intros h (row' & Hin & Hh). apply elem_of_cons in Hin as [->|Hin]; [by destruct (Hno h) |].
      by exists row'. }
  destruct (read r (address row) (value_size (matched row))) as [d|] eqn:Hd.
  2:{ destruct (IH o) as [IH1 IH2]. split; [|done]. apply Hskip; [|done].
      intros h (_ & _ & d & Hd' & _). congruence. }
  set (fresh := load_bits _ d). destruct (check_value _ _ _ _ fresh _) eqn:Hc.
  - set (h0 := mk_result (address row) fresh (matched row)).
    assert (Hh0 : rechecked row h0) by (split; [done | split; [done |]; by exists d]).
    assert (Hone : adds (rechecked_in (row :: rows)) (rechecked row) o (push_result h0 (add_slots 1 o))).
    { exists [h0]. split_and!; [done | |].
      - constructor; [|done]. exists row. split; [by left | done].
      - intros Ht. split; [done |]. intros [a b w] (Ha & Hw & d' & Hd' & Hb & _).
        cbn [address bits matched] in *. rewrite Hd in Hd'. simplify_eq. by left. }
    destruct (eff_cap cfg <=? _); cbn [fst snd].
    + split; [|done]. by eapply adds_truncated; [exact Hone | |].
    + destruct (IH (push_result h0 (add_slots 1 o))) as [IH1 IH2]. split; [|done].
      eapply (adds_trans _ _ _ _ _ _ _ (push_result h0 (add_slots 1 o))); [exact Hone | |].
      * eapply adds_weaken; [| intros h Hh; exact Hh | exact IH1].
        intros h (row' & Hin & Hh). exists row'. split; [by right | done].
      * intros h (row' & Hin & Hh). apply elem_of_cons in Hin as [->|Hin]; [by left |].
        right. by exists row'.
  - destruct (IH (add_slots 1 o)) as [IH1 IH2]. split; [|done]. apply Hskip.
    + intros h (_ & _ & d' & Hd' & Hb & Hck). rewrite Hd in Hd'. simplify_eq. rewrite Hb in Hck.
      unfold fresh in Hc. congruence.
    + by apply (adds_start _ _ _ _ _ (add_slots 1 o)).
Qed.

(** The rows of the batches a worker claimed. *)
Definition batch_rows (prev : list scan_result_t) (b : nat) : list scan_result_t :=
  take 64 (drop (64 * b) prev).

Lemma recheck_worker_adds prev claims tok o :
  adds (rechecked_in prev)
       (fun h => tok = None /\ Forall (fun b => (64 * b < length prev)%nat) claims /\
                 exists b, b ∈ claims /\ rechecked_in (batch_rows prev b) h)
       o (recheck_worker ub_cast encode_float r cfg prev claims tok o).
Proof using Type.
  revert tok o. induction claims as [|b claims IH]; intros tok o; cbn [recheck_worker].
  { apply adds_none; try done. intros _ h (_ & _ & b & Hb & _). by apply elem_of_nil in Hb. }
  destruct (cancelled tok) as [stop tok1] eqn:Htok.
  assert (Hnone : tok = None -> stop = false /\ tok1 = None)
    by (intros ->; simpl in Htok; by simplify_eq).
  destruct stop.
  { apply adds_none; try done. intros _ h (Ht & _). by destruct (Hnone Ht). }
  destruct (Nat.leb_spec (length prev) (64 * b)).
  { apply adds_none; try done. intros _ h (_ & Hf & _). apply Forall_cons in Hf as [? _]. lia. }
  destruct (recheck_rows_adds (take 64 (drop (64 * b) prev)) o) as [Ha Hs].
  assert (Hsub : forall h, rechecked_in (take 64 (drop (64 * b) prev)) h -> rechecked_in prev h).
  { intros h (row & Hin & Hh). exists row. split; [|done].
    apply (subseteq_take 64), (subseteq_drop (64 * b)) in Hin. done. }
  destruct (recheck_rows _ _ _ _ _ o) as [[|] o1]; cbn [fst snd] in *.
  - eapply adds_truncated; [| done | by apply Hs].
    eapply adds_weaken; [exact Hsub | intros h Hh; exact Hh | exact Ha].
  - eapply (adds_trans _ _ _ _ _ _ _ o1); [| apply IH |].
    + eapply adds_weaken; [exact Hsub | intros h Hh; exact Hh | exact Ha].
    + intros h (Ht & Hf & b' & Hb' & Hh). apply Forall_cons in Hf as [_ Hf].
      apply elem_of_cons in Hb' as [->|Hb']; [by left |].
      right. split; [by apply Hnone |]. split; [done |]. by exists b'.
Qed.
End NextScan.

Section Rescans.
Variables (ub_cast : value_width_t -> spec_float -> Z) (encode_float : value_width_t -> spec_float -> Z).
Context {R : Type} `{ReaderOk R}.
Variables (r : R) (cfg : scan_config_t).
Hypothesis Hok : cfg_ok cfg.

Definition copy_fits (c : region_copy_t) : Prop :=
  0 <= rc_base c /\ rc_base c + zlen (rc_bytes c) < 2 ^ 64.

(** A slot of a stashed copy: what the target holds now against the stashed bits. *)
Definition stash_hit (c : region_copy_t) (h : scan_result_t) : Prop :=
  rc_base c <= address h /\
  address h + value_size (matched h) <= rc_base c + zlen (rc_bytes c) /\
  slot_hit ub_cast encode_float r cfg
    (bits_at (matched h) (rc_bytes c) (address h - rc_base c)) h.

Lemma rescan_sink_adds c o a d :
  copy_fits c -> rc_base c <= a -> a + zlen d <= rc_base c + zlen (rc_bytes c) ->
  read r a (zlen d) = Some d ->
  adds (stash_hit c)
       (fun h => stash_hit c h /\ a <= address h /\ address h + value_size (matched h) <= a + zlen d)
       o (rescan_sink ub_cast encode_float cfg (make_fastscan cfg) c o a d).
Proof using H H0 Hok.
  intros [Hc1 Hc2] Ha Hd Hrd. pose proof (zlen_nonneg d). unfold rescan_sink.
  rewrite (wrap_small 64 (a - rc_base c)) by (unfold is_word; lia).
  destruct (Z.ltb_spec (zlen (rc_bytes c)) (a - rc_base c)); [lia |].
  rewrite (Z.min_l (zlen d)) by lia.
  destruct (Z.eqb_spec (zlen d) 0) as [E|E].
  { apply adds_none; try done. intros _ h (_ & ? & ?). pose proof (value_size_pos (matched h)). lia. }
  rewrite take_ge by (unfold zlen; lia).
  set (old := drop (Z.to_nat (a - rc_base c)) (rc_bytes c)). set (o1 := scan_run _ _ _ _ _ _ _ _).
  assert (Hprev : forall h, a <= address h ->
    prev_bits (Some old) (matched h) (address h - a) = bits_at (matched h) (rc_bytes c) (address h - rc_base c)).
  { intros h Hh. unfold prev_bits, bits_at, old. rewrite drop_drop. do 2 f_equal. lia. }
  assert (Hscan : adds (stash_hit c)
    (fun h => stash_hit c h /\ a <= address h /\ address h + value_size (matched h) <= a + zlen d) o o1).
  { apply (adds_start _ _ _ _ _ (add_bytes (zlen d) o)); [done | done |].
    eapply adds_weaken; [| | apply (scan_run_adds ub_cast encode_float cfg a d (Some old))]; try done; [| | lia | lia].
    - intros h Hh. apply (run_hit_read ub_cast encode_float r cfg a d (Some old) h Hrd) in Hh as (? & ? & Hh).
      rewrite Hprev in Hh by done. unfold stash_hit. split_and!; (lia || done).
    - intros h ((_ & _ & Hh) & ? & ?).
      apply (run_hit_read ub_cast encode_float r cfg a d (Some old) h Hrd). rewrite Hprev by done.
      by split_and!. }
  destruct (eff_cap cfg <=? _); [|exact Hscan]. by eapply adds_truncated; [exact Hscan | |].
Qed.

Lemma rescan_runs_adds c runs o :
  copy_fits c ->
  (forall a d, (a, d) ∈ runs -> rc_base c <= a /\ a + zlen d <= rc_base c + zlen (rc_bytes c) /\
     read r a (zlen d) = Some d) ->
  adds (stash_hit c)
    (fun h => stash_hit c h /\ exists a d, (a, d) ∈ runs /\ a <= address h /\
       address h + value_size (matched h) <= a + zlen d)
    o (foldl (fun o '(a, d) => rescan_sink ub_cast encode_float cfg (make_fastscan cfg) c o a d) o runs).
Proof using H H0 Hok.
  intros Hc. revert o. induction runs as [|[a d] runs IH]; intros o Hr; cbn [foldl].
  { apply adds_none; try done. intros _ h (_ & a & d & Hin & _). by apply elem_of_nil in Hin. }
  destruct (Hr a d ltac:(left)) as (Ha & Hd & Hrd).
  eapply (adds_trans _ _ _ _ _ _ _ (rescan_sink ub_cast encode_float cfg (make_fastscan cfg) c o a d));
    [by apply rescan_sink_adds | apply IH |].
  - intros a' d' Hin. apply Hr. by right.
  - intros h (Hh & a' & d' & Hin & Hx). apply elem_of_cons in Hin as [[= -> ->]|Hin]; [by left |].
    right. split; [done |]. by exists a', d'.
Qed.

Lemma rescan_worker_adds copies abort tok o :
  Forall copy_fits copies ->
  exists o', rescan_worker ub_cast encode_float r cfg (make_fastscan cfg) copies abort tok o = Some o' /\
    adds (fun h => exists c, c ∈ copies /\ stash_hit c h)
         (fun h => abort = None /\ tok = None /\ exists c, c ∈ copies /\ stash_hit c h /\
            readable r (rc_base c) (zlen (rc_bytes c))) o o'.
Proof using H H0 Hok.
  revert abort tok o. induction copies as [|c copies IH]; intros abort tok o Hf; cbn [rescan_worker].
  { exists o. split; [done |]. apply adds_none; try done.
    intros _ h (_ & _ & g & Hg & _). by apply elem_of_nil in Hg. }
  apply Forall_cons in Hf as [Hc Hf].
  destruct (cancelled abort) as [ab abort'] eqn:Hab.
  assert (Habn : abort = None -> ab = false /\ abort' = None)
    by (intros ->; simpl in Hab; by simplify_eq).
  destruct ab.
  { exists o. split; [done |]. apply adds_none; try done. intros _ h (Ht & _). by destruct (Habn Ht). }
  destruct (cancelled tok) as [stop tok1] eqn:Htok.
  assert (Hnone : tok = None -> stop = false /\ tok1 = None)
    by (intros ->; simpl in Htok; by simplify_eq).
  destruct stop.
  { exists o. split; [done |]. apply adds_none; try done. intros _ h (_ & Ht & _). by destruct (Hnone Ht). }
  pose proof (zlen_nonneg (rc_bytes c)) as Hlen.
  destruct (resilient_read_runs r (rc_base c) (zlen (rc_bytes c)) 4096 tok1
    (rescan_sink ub_cast encode_float cfg (make_fastscan cfg) c) o ltac:(lia)) as (k & tok2 & -> & Hk).
  set (o1 := foldl _ o _).
  assert (H1 : adds (fun h => exists c0, c0 ∈ c :: copies /\ stash_hit c0 h)
    (fun h => abort = None /\ tok = None /\ stash_hit c h /\ readable r (rc_base c) (zlen (rc_bytes c))) o o1).
  { eapply adds_weaken; [| | apply (rescan_runs_adds c)]; [| | done |].
    - intros h Hh. exists c. split; [by left | done].
    - intros h (_ & Ht & Hh & Hrd). split; [done |].
      destruct (Hnone Ht) as [_ Ht1]. destruct (Hk Ht1) as [Hkl _]. rewrite take_ge by lia.
      apply (read_is_Some r) in Hrd as [d Hd]; [|done].
      exists (rc_base c), d. unfold runs_of, seg_runs. cbn [seg_addr seg_len rr_runs].
      change (4096 =? 0) with false. cbv iota. rewrite Hd.
      rewrite (read_zlen r (rc_base c) _ d) by done. destruct Hh as (? & ? & _).
      split; [by left | done].
    - intros a d Hin. apply runs_read in Hin as (? & ? & ?); [|unfold copy_fits in *; lia..]. split_and!; (done || lia). }
  destruct (truncated o1) eqn:Htr.
  { exists o1. split; [done |]. by eapply adds_truncated; [exact H1 | |]. }
  destruct (IH abort' tok2 o1 Hf) as (o2 & -> & H2). exists o2. split; [done |].
  eapply (adds_trans _ _ _ _ _ _ _ o1); [exact H1 | |].
  - eapply adds_weaken; [| intros x Hx; exact Hx | exact H2].
    intros h (c0 & Hc0 & Hh). exists c0. split; [by right | done].
  - intros h (Ha & Ht & c0 & Hc0 & Hh). apply elem_of_cons in Hc0 as [->|Hc0]; [by left |].
    right. split; [by apply Habn |]. split; [by apply Hk, Hnone |]. by exists c0.
Qed.
End Rescans.

(** The batches handed out by the shared counter: each is a batch of [n] rows and
    all of them are claimed by some of the [nw] workers. *)
Definition claims_ok (n nw : nat) (sched : nat -> sched_t) : Prop :=
  (forall i, s_cancel (sched i) = None /\ Forall (fun b => (64 * b < n)%nat) (s_claims (sched i))) /\
  (forall b, (64 * b < n)%nat -> exists i, (i < nw)%nat /\ b ∈ s_claims (sched i)).

(** C15: a next scan over an address list keeps exactly what still matches.  It
    always returns; each row it keeps is a previous row whose address is still
    readable and whose fresh bits pass the comparison against the stored ones; if
    no worker was cancelled and the result is not flagged truncated, every such
    row is kept. *)
Theorem next_scan_rows ub_cast encode_float hw {R} `{ReaderOk R} (r : R) cfg sched stop m :
  memscan_ok m -> region_scan_active_ m = false -> address_list_ m = true ->
  cfg_type cfg <> unknown_initial ->
  exists m', next_scan ub_cast encode_float hw r cfg sched stop m = Some (inr m') /\
    memscan_ok m' /\ StronglySorted result_le (results_ m') /\
    (forall h, h ∈ results_ m' -> rechecked_in ub_cast encode_float r cfg (results_ m) h) /\
    (st_truncated (stats_ m') = false ->
     claims_ok (length (results_ m)) (Z.to_nat (worker_count hw cfg)) sched ->
     forall h, rechecked_in ub_cast encode_float r cfg (results_ m) h -> h ∈ results_ m').
Proof.
  intros (Hst & _ & _) Hra Hal Ht. unfold next_scan. rewrite Hra, Hal. cbn [negb andb].
  rewrite bool_decide_eq_false_2 by done. cbn [mbind option_bind].
  set (outs := _ <$> seq 0 _).
  destruct (merge_workers outs (eff_cap cfg) _) as [res st] eqn:Hm.
  apply merge_workers_spec in Hm as (M1 & _ & _ & M2 & M3). eexists. split; [done |].
  cbn [results_ stash_ stats_ region_scan_active_ address_list_ st_truncated].
  assert (Hempty : stash_ m = []).
  { destruct (stash_ m) eqn:E; [done |]. assert (region_scan_active_ m = true) by (by apply Hst). congruence. }
  split.
  { unfold memscan_ok. cbn [results_ stash_ region_scan_active_ address_list_]. rewrite Hempty.
    split; [done | split; [apply negb_decide_nil | by intros [? ?]]]. }
  split; [done |]. split.
  - intros h Hh. apply M2 in Hh as (o & Ho & Hh). apply list_elem_of_fmap in Ho as (i & -> & _).
    destruct (recheck_worker_adds ub_cast encode_float r cfg (results_ m) (s_claims (sched i))
      (s_cancel (sched i)) out0) as (hs & Er & F & _). rewrite Er in Hh.
    by apply (proj1 (Forall_forall _ _) F).
  - intros Hnt [Hc1 Hc2] h (row & Hin & Hh). destruct (M3 Hnt) as [Hnts Hall].
    apply Hall. apply list_elem_of_lookup in Hin as [j Hj].
    pose proof (lookup_lt_Some _ _ _ Hj) as Hjl.
    pose proof (Nat.div_mod j 64 ltac:(lia)) as Hdm. pose proof (Nat.mod_upper_bound j 64 ltac:(lia)).
    destruct (Hc2 (j / 64)%nat ltac:(lia)) as (i & Hi & Hb).
    set (o := recheck_worker ub_cast encode_float r cfg (results_ m) (s_claims (sched i))
      (s_cancel (sched i)) out0).
    assert (Hino : o ∈ outs).
    { apply list_elem_of_fmap. exists i. split; [done |]. apply elem_of_seq. lia. }
    exists o. split; [done |].
    destruct (recheck_worker_adds ub_cast encode_float r cfg (results_ m) (s_claims (sched i))
      (s_cancel (sched i)) out0) as (hs & Er & _ & C). fold o in Er, C. rewrite Er.
    apply C; [by apply (proj1 (Forall_forall _ _) Hnts) |]. destruct (Hc1 i) as [Ht1 Ht2].
    split; [done |]. split; [done |]. exists (j / 64)%nat. split; [done |].
    exists row. split; [|done]. unfold batch_rows. apply list_elem_of_lookup. exists (j mod 64)%nat.
    rewrite lookup_take_lt, lookup_drop by lia. by rewrite <- Hdm.
Qed.

(** C16: the next scan after an unknown scan compares the stash with the target.
    It always returns and drops the stash; each row is a slot of a stashed copy
    whose current bits, read from the target, pass the comparison against the bits
    in the stash; if nothing disturbed the workers and the result is not flagged
    truncated, every such slot of a copy that is still readable is reported. *)
Theorem next_scan_stash ub_cast encode_float hw {R} `{ReaderOk R} (r : R) cfg sched stop m :
  cfg_ok cfg -> region_scan_active_ m = true -> Forall copy_fits (stash_ m) ->
  cfg_type cfg <> unknown_initial ->
  exists m', next_scan ub_cast encode_float hw r cfg sched stop m = Some (inr m') /\
    memscan_ok m' /\ stash_ m' = [] /\ StronglySorted result_le (results_ m') /\
    (forall h, h ∈ results_ m' -> exists c, c ∈ stash_ m /\ stash_hit ub_cast encode_float r cfg c h) /\
    (st_truncated (stats_ m') = false -> undisturbed sched ->
     forall c h, c ∈ stash_ m -> readable r (rc_base c) (zlen (rc_bytes c)) ->
       stash_hit ub_cast encode_float r cfg c h -> h ∈ results_ m').
Proof.
  intros Hok Hra Hf Ht. unfold next_scan. rewrite Hra. cbn [negb andb].
  rewrite bool_decide_eq_false_2 by done. set (nw := Z.to_nat (Z.max 1 _)).
  destruct (mapM_seq_total
    (fun i => rescan_worker ub_cast encode_float r cfg (make_fastscan cfg) (share nw i (stash_ m))
                (s_abort (sched i)) (s_cancel (sched i)) out0)
    (fun i o => adds (fun h => exists c, c ∈ share nw i (stash_ m) /\ stash_hit ub_cast encode_float r cfg c h)
       (fun h => s_abort (sched i) = None /\ s_cancel (sched i) = None /\
          exists c, c ∈ share nw i (stash_ m) /\ stash_hit ub_cast encode_float r cfg c h /\
            readable r (rc_base c) (zlen (rc_bytes c))) out0 o) nw) as (outs & -> & HF).
  { intros i. apply (rescan_worker_adds ub_cast encode_float r cfg Hok). apply Forall_forall.
    intros c Hc. apply share_sub in Hc. by apply (proj1 (Forall_forall _ _) Hf). }
  cbn [mbind option_bind].
  destruct (merge_workers outs (eff_cap cfg) _) as [res st] eqn:Hm.
  apply merge_workers_spec in Hm as (M1 & _ & _ & M2 & M3). eexists. split; [done |].
  cbn [results_ stash_ stats_ region_scan_active_ address_list_ st_truncated].
  split.
  { unfold memscan_ok. cbn [results_ stash_ region_scan_active_ address_list_].
    split; [done | split; [apply negb_decide_nil | by intros [? ?]]]. }
  split; [done |]. split; [done |]. split.
  - intros h Hh. apply M2 in Hh as (o & Ho & Hh). apply list_elem_of_lookup in Ho as [j Ho].
    destruct (Forall2_lookup_r _ _ _ _ _ HF Ho) as (i & _ & (hs & Er & Fr & _)).
    rewrite Er in Hh. destruct (proj1 (Forall_forall _ _) Fr h Hh) as (c & Hc & Hch).
    exists c. split; [by eapply share_sub | done].
  - intros Hnt Hun c h Hc Hrd Hh. destruct (M3 Hnt) as [Hnts Hall]. apply Hall.
    destruct (share_cover nw (stash_ m) c ltac:(subst nw; lia) Hc) as (i & Hi & Hci).
    apply list_elem_of_lookup in Hi as [j Hj].
    destruct (Forall2_lookup_l _ _ _ _ _ HF Hj) as (o & Ho & (hs & Er & _ & C)).
    assert (Hin : o ∈ outs) by (by eapply list_elem_of_lookup_2).
    exists o. split; [done |]. rewrite Er.
    apply C; [by apply (proj1 (Forall_forall _ _) Hnts) |]. destruct (Hun i).
    split; [done |]. split; [done |]. by exists c.
Qed.

(** ** Concrete scans *)

Definition demo_ub (_ : value_width_t) (_ : spec_float) : Z := 0.
Definition demo_mem : Paged.t := [(32, [7; 0; 7; 0; 9; 7; 0; 7])].
Definition demo_regions : list scan_region_t := [mk_region 32 8 4 131072].
Definition demo_sched (_ : nat) : sched_t := mk_sched None None (fun _ => 0) [0%nat].
(** Exact u16 value 7 with the given chunk size. *)
Definition demo_cfg (chunk : Z) : scan_config_t :=
  {| cfg_type := exact_value; cfg_width := w_u16; scan_all_types := false; rounding := r_exact;
     value1 := double_of_Z 7; value2 := double_of_Z 0; float_accuracy := 0;
     fast := fast_off; fast_alignment := 4; fast_digits := 0; fast_tail := 0;
     writable := pref_any; executable := pref_any; copy_on_write := pref_any;
     mem_private := true; mem_image := true; mem_mapped := true;
     cfg_begin := 0; cfg_end := 0; cfg_max_results := 0; cfg_threads := 1; cfg_chunk_bytes := chunk |}.

Lemma demo_cfg_ok c : 0 <= c -> cfg_ok (demo_cfg c).
Proof. intros Hc. unfold cfg_ok. cbn. lia. Qed.

Lemma demo_fits : Forall region_fits demo_regions.
Proof. repeat constructor; cbn; lia. Qed.

Lemma demo_undisturbed : undisturbed demo_sched.
Proof. by intros i. Qed.

(** One region of 8 bytes, scanned in chunks of 4. *)
Definition demo_row (a : Z) : scan_result_t := mk_result a 7 w_u16.

Lemma filter_regions_spec_witness :
  Forall (fun g' => region_fits g' /\ 0 < reg_size g' /\
            region_accepted (demo_cfg 4) (reg_protect g') (reg_type g') = true)
    (filter_regions demo_regions (demo_cfg 4)).
Proof.
  apply (filter_regions_spec (demo_cfg 4) demo_regions); [exact demo_fits | cbn; lia | cbn; lia].
Defined.

Lemma first_scan_values_witness :
  exists m, first_scan demo_ub demo_ub 1 demo_mem (demo_cfg 4) demo_sched false demo_regions = Some m /\
    memscan_ok m /\ results_ m = [demo_row 32; demo_row 34; demo_row 37].
Proof.
  destruct (first_scan_values demo_ub demo_ub 1 demo_mem (demo_cfg 4) demo_sched false demo_regions)
    as (m & E & Hok & _).
  - by apply demo_cfg_ok.
  - reflexivity.
  - reflexivity.
  - reflexivity.
  - exact demo_fits.
  - exists m. split; [exact E |]. split; [exact Hok |]. vm_compute in E. by injection E as <-.
Defined.

(** An unknown scan of the same memory, then a "changed" scan of other contents. *)
Definition demo_unknown : scan_config_t := set_type unknown_initial (demo_cfg 4).
Definition demo_changed : scan_config_t := set_type changed (demo_cfg 4).
Definition demo_mem2 : Paged.t := [(32, [7; 0; 7; 0; 9; 7; 0; 8])].

Lemma first_scan_stash_witness :
  exists m, first_scan demo_ub demo_ub 1 demo_mem demo_unknown demo_sched false demo_regions = Some m /\
    memscan_ok m /\ stash_ m = [mk_copy 32 [7; 0; 7; 0]; mk_copy 36 [9; 7; 0; 7]].
Proof.
  destruct (first_scan_stash demo_ub demo_ub 1 demo_mem demo_unknown demo_sched false demo_regions)
    as (m & E & Hok & _).
  - by apply demo_cfg_ok.
  - reflexivity.
  - reflexivity.
  - reflexivity.
  - exact demo_fits.
  - exists m. split; [exact E |]. split; [exact Hok |]. vm_compute in E. by injection E as <-.
Defined.

Definition demo_stashed : memscan_t :=
  mk_memscan [] [mk_copy 32 [7; 0; 7; 0]; mk_copy 36 [9; 7; 0; 7]] stats0 progress0 w_u16 true false.

Lemma next_scan_stash_witness :
  exists m, next_scan demo_ub demo_ub 1 demo_mem2 demo_changed demo_sched false demo_stashed = Some (inr m) /\
    memscan_ok m /\ results_ m = [mk_result 38 2048 w_u16].
Proof.
  destruct (next_scan_stash demo_ub demo_ub 1 demo_mem2 demo_changed demo_sched false demo_stashed)
    as (m & E & Hok & _).
  - by apply demo_cfg_ok.
  - reflexivity.
  - repeat constructor; cbn; unfold zlen; cbn; lia.
  - discriminate.
  - exists m. split; [exact E |]. split; [exact Hok |]. vm_compute in E. by injection E as <-.
Defined.

Definition demo_listed : memscan_t :=
  mk_memscan [demo_row 32; demo_row 34; demo_row 37; demo_row 90] [] stats0 progress0 w_u16 false true.

Lemma next_scan_rows_witness :
  exists m, next_scan demo_ub demo_ub 1 demo_mem (demo_cfg 0) demo_sched false demo_listed = Some (inr m) /\
    memscan_ok m /\ results_ m = [demo_row 32; demo_row 34; demo_row 37].
Proof.
  destruct (next_scan_rows demo_ub demo_ub 1 demo_mem (demo_cfg 0) demo_sched false demo_listed)
    as (m & E & Hok & _).
  - by unfold memscan_ok; cbn; intuition.
  - reflexivity.
  - reflexivity.
  - discriminate.
  - exists m. split; [exact E |]. split; [exact Hok |]. vm_compute in E. by injection E as <-.
Defined.

Definition border_mem : Paged.t := [(32, [0; 0; 0; 7; 0; 0; 0; 0])].

(** Chunks do not overlap, so an unaligned value that straddles a chunk
    border is never seen: with chunks of 4 bytes the scan for the 16-bit value 7
    reports nothing although the readable region holds it at 35, and with one
    chunk of 8 bytes the same scan finds it. *)
Lemma scan_misses_chunk_border :
  results_ <$> first_scan demo_ub demo_ub 1 border_mem (demo_cfg 4) demo_sched false demo_regions = Some [] /\
  results_ <$> first_scan demo_ub demo_ub 1 border_mem (demo_cfg 8) demo_sched false demo_regions
    = Some [demo_row 35].
Proof. split; vm_compute; reflexivity. Qed.

(** A next scan is refused exactly when there is neither a stash nor an
    address list, with "no previous scan" as the error, and [reset] returns to a
    state without results that refuses it. *)
Lemma next_scan_refused ub_cast encode_float hw {R} `{Reader R} (r : R) cfg sched stop m :
  (region_scan_active_ m = false /\ address_list_ m = false <->
   exists e, next_scan ub_cast encode_float hw r cfg sched stop m = Some (inl e)) /\
  next_scan ub_cast encode_float hw r cfg sched stop reset = Some (inl (bs "no previous scan")) /\
  memscan_ok reset.
Proof.
  split; [|by unfold memscan_ok; cbn; intuition]. split.
  - intros [E1 E2]. unfold next_scan. rewrite E1, E2. by eexists.
  - unfold next_scan. destruct (region_scan_active_ m), (address_list_ m); cbn [negb andb];
      [| | |done]; intros [e He]; exfalso; destruct (bool_decide _); try done.
    all: destruct (_ : option (list worker_out_t)); cbn [mbind option_bind] in He; try done.
    all: destruct (merge_workers _ _ _); done.
Qed.
