(* ===== verification/PointerScan.v ===== *)
(** * Backward pointer scan: src/core/memory/pointer_scan.cpp

    One sweep collects every aligned non-null qword as an edge; the level loop
    expands the frontier against the sorted edges; chains are read off the parent
    links.  Addresses and the offset window are 64-bit unsigned and wrap around as in
    the code; a load outside the run that was read is [Crash].  The theorems are for
    regions that end far enough below 2^64 for the cursor of a run not to wrap
    ([regions_fit]); [sweep_runs_off_the_top] is what happens otherwise. *)

From S2P Require Import Prelude Reader.

#[local] Open Scope Z_scope.

Definition max_pointer_edges : Z := 40000000.
Definition max_pointer_depth : Z := 7.
Definition max_pointer_chains : Z := 100000.
Definition kChunk : Z := 1048576.

Record pointer_scan_options_t := mk_opts {
  target : Z; depth : Z; min_offset : Z; max_offset : Z; alignment : Z;
  frontier_cap : Z; only_module_backed : bool
}.

Record pointer_chain_result_t := mk_chain { addresses : list Z; offsets : list Z }.

Record pointer_scan_stats_t := mk_stats {
  edges_explored : Z; truncated : bool; was_cancelled : bool
}.

Record edge_t := mk_edge { value : Z; holder : Z }.

Record node_t := mk_node { n_addr : Z; n_parent : Z; n_offset : Z }.

Definition in_module_backed (addr : Z) (regions : list scan_region_t) : bool :=
  existsb (fun reg => negb (Z.land (reg_type reg) 16777216 =? 0) &&
             (reg_base reg <=? addr) && (addr <? u64 (reg_base reg + reg_size reg))) regions.

(** ** The sweep *)

Definition align_up (align p : Z) : Z := u64 (p + align - 1) / align * align.

Definition spans_of (align : Z) (regions : list scan_region_t) : list (Z * Z) :=
  omap (fun reg =>
    if reg_size reg <? 8 then None
    else
      let b := align_up align (reg_base reg) in
      let e := u64 (reg_base reg + reg_size reg) in
      if e <=? u64 (b + 8) then None else Some (b, e)) regions.

(** Edges collected so far and the statistics of the sweep. *)
Record sweep_t := mk_sweep { edges : list edge_t; sw_stats : pointer_scan_stats_t }.

Definition push_edge (v p : Z) (s : sweep_t) : sweep_t :=
  let n := edges_explored (sw_stats s) + 1 in
  mk_sweep (edges s ++ [mk_edge v p])
    (mk_stats n (truncated (sw_stats s) || (max_pointer_edges <? n)) (was_cancelled (sw_stats s))).

(** [while (p + 8 <= run_end)], with the early return at the edge limit.  Running
    out of fuel counts as [Crash]. *)
Fixpoint sink_loop (fuel : nat) (align run_addr run_end : Z) (data : list Z) (p : Z) (s : sweep_t)
  : outcome sweep_t :=
  if u64 (p + 8) <=? run_end then
    match fuel with
    | O => Crash
    | S fuel' =>
        v ← load_le 8 data (u64 (p - run_addr));
        if v =? 0 then sink_loop fuel' align run_addr run_end data (u64 (p + align)) s
        else
          let s' := push_edge v p s in
          if max_pointer_edges <? edges_explored (sw_stats s') then Done s'
          else sink_loop fuel' align run_addr run_end data (u64 (p + align)) s'
    end
  else Done s.

Definition sink (align : Z) (o : outcome sweep_t) (run_addr : Z) (data : list Z) : outcome sweep_t :=
  s ← o;
  sink_loop (S (length data)) align run_addr (u64 (run_addr + zlen data)) data (align_up align run_addr) s.

Definition set_cancelled (s : sweep_t) : sweep_t :=
  mk_sweep (edges s) (mk_stats (edges_explored (sw_stats s)) (truncated (sw_stats s)) true).

Section Scan.
Context {R : Type} `{Reader R}.
Variables (r : R) (align : Z).

(** Running out of fuel counts as [Crash] here too. *)
Fixpoint sweep_span (fuel : nat) (e cursor : Z) (tok : cancel_token_t) (s : sweep_t)
  : outcome (sweep_t * cancel_token_t) :=
  if (cursor <? e) && negb (truncated (sw_stats s)) then
    match fuel with
    | O => Crash
    | S fuel' =>
        let '(stop, tok1) := cancelled tok in
        if stop then Done (set_cancelled s, tok1)
        else
          let want := Z.min kChunk (u64 (e - cursor)) in
          match resilient_read r cursor want 8 tok1 (sink align) (Done s) with
          | None | Some (Crash, _) => Crash
          | Some (Done s', tok2) => sweep_span fuel' e (u64 (cursor + want)) tok2 s'
          end
    end
  else Done (s, tok).

Fixpoint sweep (spans : list (Z * Z)) (tok : cancel_token_t) (s : sweep_t)
  : outcome (sweep_t * cancel_token_t) :=
  match spans with
  | [] => Done (s, tok)
  | (b, e) :: spans' =>
      if truncated (sw_stats s) then Done (s, tok)
      else
        let '(stop, tok1) := cancelled tok in
        if stop then Done (s, tok1)
        else '(s', tok2) ← sweep_span (S (Z.to_nat (e - b))) e b tok1 s; sweep spans' tok2 s'
  end.
End Scan.

(** ** Expanding the frontier *)

Definition edge_le (a b : edge_t) : Prop := value a <= value b.
#[global] Instance edge_le_dec : RelDecision edge_le.
Proof. intros a b. unfold edge_le. apply _. Defined.

(** [std::lower_bound], [std::upper_bound]: the end of the prefix satisfying [P]. *)
Fixpoint partition_point (P : edge_t -> bool) (l : list edge_t) : nat :=
  match l with
  | e :: l' => if P e then S (partition_point P l') else O
  | [] => O
  end.

Section Levels.
Variables (es : list edge_t) (min_off max_off : Z) (cap : Z).

(** The window of values for one destination; [None] is [continue]. *)
Definition window (dest : Z) : option (Z * Z) :=
  if (0 <? min_off) && (dest <? min_off) then None
  else
    let lo := if (0 <? max_off) && (dest <? max_off) then 0 else u64 (dest - max_off) in
    let hi := u64 (dest - min_off) in
    if hi <? lo then None else Some (lo, hi).

Definition candidates (lo hi : Z) : list edge_t :=
  let first := partition_point (fun e => value e <? lo) es in
  let last := partition_point (fun e => negb (hi <? value e)) es in
  take (last - first) (drop first es).

(** Nodes, next frontier, [frontier_full]. *)
Record level_t := mk_level { nodes : list node_t; next_frontier : list nat; full : bool }.

Fixpoint expand_edges (cands : list edge_t) (fidx : nat) (dest : Z) (l : level_t) : level_t :=
  match cands with
  | [] => l
  | e :: cands' =>
      let off := signed_of 64 (dest - value e) in
      let next := next_frontier l ++ [length (nodes l)] in
      let nodes' := nodes l ++ [mk_node (holder e) (Z.of_nat fidx) off] in
      if cap <=? zlen next then mk_level nodes' next true
      else expand_edges cands' fidx dest (mk_level nodes' next (full l))
  end.

(** One frontier pass: [(level, cancelled, token)]. *)
Fixpoint expand (frontier : list nat) (tok : cancel_token_t) (l : level_t)
  : level_t * bool * cancel_token_t :=
  match frontier with
  | [] => (l, false, tok)
  | fidx :: frontier' =>
      let '(stop, tok1) := cancelled tok in
      if stop then (l, true, tok1)
      else if full l then (l, false, tok1)
      else
        let dest := match nodes l !! fidx with Some n => n_addr n | None => 0 end in
        match window dest with
        | None => expand frontier' tok1 l
        | Some (lo, hi) => expand frontier' tok1 (expand_edges (candidates lo hi) fidx dest l)
        end
  end.

(** The level loop: [(nodes, truncated, cancelled)]. *)
Fixpoint levels (n : nat) (frontier : list nat) (tok : cancel_token_t) (ns : list node_t)
    (trunc canc : bool) : list node_t * bool * bool :=
  match n, frontier with
  | O, _ | _, [] => (ns, trunc, canc)
  | S n', _ =>
      let '(stop, tok1) := cancelled tok in
      if stop then (ns, trunc, true)
      else
        let '(l, c, tok2) := expand frontier tok1 (mk_level ns [] false) in
        levels n' (next_frontier l) tok2 (nodes l) (trunc || full l) (canc || c)
  end.
End Levels.

(** ** Reading the chains *)

(** The parent walk from node [n] while [n > 0]. *)
Fixpoint chain_of (fuel : nat) (ns : list node_t) (n : Z) : list (Z * Z) :=
  if 0 <? n then
    match fuel, ns !! Z.to_nat n with
    | S fuel', Some nd => (n_addr nd, n_offset nd) :: chain_of fuel' ns (n_parent nd)
    | _, _ => []
    end
  else [].

(** [while (nodes[n].parent > 0) n = nodes[n].parent]: the address of the last node. *)
Fixpoint walk_end (fuel : nat) (ns : list node_t) (n : Z) : Z :=
  match ns !! Z.to_nat n with
  | Some nd =>
      if 0 <? n_parent nd then
        match fuel with O => n_addr nd | S fuel' => walk_end fuel' ns (n_parent nd) end
      else n_addr nd
  | None => 0
  end.

Fixpoint build_chains (regions : list scan_region_t) (module_only : bool) (ns : list node_t)
    (idxs : list nat) (acc : list pointer_chain_result_t) (trunc : bool)
  : list pointer_chain_result_t * bool :=
  match idxs with
  | [] => (acc, trunc)
  | i :: idxs' =>
      if max_pointer_chains <=? zlen acc then (acc, true)
      else if module_only && negb (in_module_backed (walk_end (length ns) ns (Z.of_nat i)) regions)
      then build_chains regions module_only ns idxs' acc trunc
      else
        let c := chain_of (length ns) ns (Z.of_nat i) in
        build_chains regions module_only ns idxs' (acc ++ [mk_chain c.*1 c.*2]) trunc
  end.

Definition pointer_scan {R} `{Reader R} (r : R) (regions : list scan_region_t)
    (opt : pointer_scan_options_t) (tok : cancel_token_t)
  : outcome (list pointer_chain_result_t * pointer_scan_stats_t) :=
  let depth_ := Z.min (if depth opt =? 0 then 1 else depth opt) max_pointer_depth in
  let min_off := min_offset opt in
  let max_off := Z.max (max_offset opt) (min_offset opt) in
  let align := if alignment opt =? 0 then 1 else alignment opt in
  match sweep r align (spans_of align regions) tok (mk_sweep [] (mk_stats 0 false false)) with
  | Crash => Crash
  | Done (s, tok1) =>
      let '(stop, tok2) := cancelled tok1 in
      let st := sw_stats s in
      let canc := was_cancelled st || stop in
      let root := mk_node (target opt) (-1) 0 in
      let '(ns, trunc, canc') :=
        if negb (bool_decide (edges s = [])) && negb canc then
          levels (merge_sort edge_le (edges s)) min_off max_off (frontier_cap opt)
            (Z.to_nat depth_) [0%nat] tok2 [root] (truncated st) canc
        else ([root], truncated st, canc) in
      let '(chains, trunc') :=
        build_chains regions (only_module_backed opt) ns (seq 1 (length ns - 1)) [] trunc in
      Done (chains, mk_stats (edges_explored st) trunc' canc')
  end.

(** ** The sweep collects exactly the aligned qwords *)

(** [(p + align - 1) / align * align] where it does not wrap. *)
Definition ceil_to (align p : Z) : Z := (p + align - 1) / align * align.

Lemma align_up_ceil align p :
  0 <= p -> 1 <= align -> p + align <= 2 ^ 64 -> align_up align p = ceil_to align p.
Proof. intros. unfold align_up. by rewrite wrap_small by (unfold is_word; lia). Qed.

Lemma ceil_to_spec align p :
  1 <= align -> p <= ceil_to align p < p + align /\ ceil_to align p mod align = 0.
Proof.
  intros Ha. unfold ceil_to. pose proof (Z.div_mod (p + align - 1) align ltac:(lia)).
  pose proof (Z.mod_pos_bound (p + align - 1) align ltac:(lia)).
  split; [lia | apply Z.mod_mul; lia].
Qed.

(** The aligned addresses from [p] on with eight bytes before [e]. *)
Definition grid (align p e : Z) : list Z :=
  if e <? p + 8 then [] else (fun i => p + align * i) <$> seqZ 0 ((e - 8 - p) / align + 1).

(** The holders of one run. *)
Definition holders (align run_addr run_end : Z) : list Z := grid align (ceil_to align run_addr) run_end.

Lemma grid_step align p e : 1 <= align -> p + 8 <= e -> grid align p e = p :: grid align (p + align) e.
Proof.
  intros Ha He. unfold grid. rewrite (proj2 (Z.ltb_ge e (p + 8))) by done.
  pose proof (Z.div_pos (e - 8 - p) align ltac:(lia) ltac:(lia)).
  rewrite seqZ_cons by lia. rewrite fmap_cons, Z.mul_0_r, Z.add_0_r. f_equal.
  destruct (Z.ltb_spec e (p + align + 8)) as [Hlt|Hge].
  - by rewrite (Z.div_small (e - 8 - p) align) by lia.
  - replace (e - 8 - p) with (e - 8 - (p + align) + 1 * align) by lia. rewrite Z.div_add by lia.
    change (Z.succ 0) with (1 + 0). rewrite <- (fmap_add_seqZ 1 0), <- list_fmap_compose.
    replace (Z.pred ((e - 8 - (p + align)) / align + 1 + 1)) with ((e - 8 - (p + align)) / align + 1) by lia.
    apply list_fmap_ext. intros _ i _. cbn. lia.
Qed.

(** What the loop over one run collects, with the holders as a list. *)
Fixpoint push_holders (ps : list Z) (run_addr : Z) (data : list Z) (s : sweep_t) : sweep_t :=
  match ps with
  | [] => s
  | p :: ps' =>
      let v := load_bits 8 (drop (Z.to_nat (p - run_addr)) data) in
      if v =? 0 then push_holders ps' run_addr data s
      else
        let s' := push_edge v p s in
        if max_pointer_edges <? edges_explored (sw_stats s') then s'
        else push_holders ps' run_addr data s'
  end.

Lemma load_le_bits n d off :
  0 <= off -> off + Z.of_nat n <= zlen d -> load_le n d off = Done (load_bits n (drop (Z.to_nat off) d)).
Proof.
  revert off. induction n as [|n IH]; intros off Ho Hn; cbn [load_le]; [done |].
  unfold zlen in Hn. destruct (lookup_lt_is_Some_2 d (Z.to_nat off)) as [b Hb]; [lia |].
  unfold byte_at. rewrite (proj2 (Z.ltb_ge off 0)) by done. rewrite Hb. cbn [mbind outcome_bind].
  rewrite IH by (unfold zlen; lia). rewrite (drop_S d b (Z.to_nat off) Hb). cbn [load_bits mbind outcome_bind].
  by replace (Z.to_nat (off + 1)) with (S (Z.to_nat off)) by lia.
Qed.

(** Away from the top of the address space the loop reads only the run and ends. *)
Lemma sink_loop_grid align a d fuel p s :
  1 <= align -> 0 <= a -> a + zlen d + align + 8 <= 2 ^ 64 -> a <= p < a + zlen d + align ->
  (Z.to_nat (a + zlen d - p) < fuel)%nat ->
  sink_loop fuel align a (a + zlen d) d p s = Done (push_holders (grid align p (a + zlen d)) a d s).
Proof.
  intros Hal Ha Hw. revert p s. induction fuel as [|fuel IH]; intros p s Hp Hf; [lia |]. cbn [sink_loop].
  destruct (decide (p + 8 <= a + zlen d)) as [Hle|Hgt].
  - rewrite !wrap_small by (unfold is_word; lia). rewrite (proj2 (Z.leb_le _ _)) by done.
    rewrite load_le_bits by lia. cbn [mbind outcome_bind]. rewrite grid_step by done. cbn [push_holders].
    destruct (_ =? 0); [apply IH; lia |]. destruct (max_pointer_edges <? _); [done |]. apply IH; lia.
  - unfold grid. rewrite (proj2 (Z.ltb_lt (a + zlen d) (p + 8))) by lia. cbn [push_holders].
    rewrite wrap_small by (unfold is_word; lia). by rewrite (proj2 (Z.leb_gt _ _)) by lia.
Qed.

(** The sink of one run, stated without the cursor. *)
Definition sink_spec (align : Z) (s : sweep_t) (a : Z) (d : list Z) : sweep_t :=
  push_holders (holders align a (a + zlen d)) a d s.

Lemma sink_spec_ok align a d s :
  1 <= align -> 0 <= a -> a + zlen d + align + 8 <= 2 ^ 64 ->
  sink align (Done s) a d = Done (sink_spec align s a d).
Proof.
  intros Hal Ha Hw. pose proof (zlen_nonneg d). pose proof (ceil_to_spec align a Hal) as [Hc _].
  unfold sink. cbn [mbind outcome_bind]. rewrite align_up_ceil by lia.
  rewrite wrap_small by (unfold is_word; lia). apply sink_loop_grid; [lia.. | unfold zlen; lia].
Qed.

Lemma holders_elem align a e p :
  1 <= align -> p ∈ holders align a e <-> a <= p /\ p + 8 <= e /\ p mod align = 0.
Proof.
  intros Ha. pose proof (ceil_to_spec align a Ha) as [Hb Hm]. unfold holders, grid.
  set (p0 := ceil_to align a) in *. apply Z.mod_divide in Hm as [q Hq]; [|lia].
  assert (Hgrid : forall x, a <= x -> x mod align = 0 -> exists i, 0 <= i /\ x = p0 + align * i).
  { intros x Hx Hxm. apply Z.mod_divide in Hxm as [j ->]; [|lia]. exists (j - q). nia. }
  destruct (Z.ltb_spec e (p0 + 8)).
  - rewrite elem_of_nil. split; [done |]. intros (H1 & H2 & H3).
    destruct (Hgrid p H1 H3) as (i & Hi & ->). nia.
  - rewrite list_elem_of_fmap. split.
    + intros (i & -> & Hi). apply elem_of_seqZ in Hi.
      assert (i <= (e - 8 - p0) / align) by lia.
      pose proof (Z.mul_div_le (e - 8 - p0) align ltac:(lia)).
      split; [nia |]. split; [nia |]. rewrite Hq. replace (q * align + align * i) with ((q + i) * align) by lia.
      apply Z.mod_mul. lia.
    + intros (H1 & H2 & H3). destruct (Hgrid p H1 H3) as (i & Hi & ->). exists i. split; [done |].
      apply elem_of_seqZ. assert (i <= (e - 8 - p0) / align); [|lia]. apply Z.div_le_lower_bound; lia.
Qed.

Definition sw_trunc (s : sweep_t) : bool := truncated (sw_stats s).
Abbreviation adds := (appends edges sw_trunc).

Section SweepFacts.
Context {R : Type} `{ReaderOk R}.
Variables (r : R) (align : Z).
Hypothesis Halign : 1 <= align.

(** The edge of a holder the target really has. *)
Definition edge_at (e : edge_t) : Prop :=
  holder e mod align = 0 /\ value e <> 0 /\
  exists d, read r (holder e) 8 = Some d /\ value e = load_bits 8 d.

Lemma sink_spec_adds s a d :
  read r a (zlen d) = Some d ->
  adds edge_at (fun e => edge_at e /\ a <= holder e /\ holder e + 8 <= a + zlen d) s (sink_spec align s a d).
Proof using H0 Halign.
  intros Hd. unfold sink_spec.
  assert (Hin : Forall (fun p => a <= p /\ p + 8 <= a + zlen d /\ p mod align = 0)
                  (holders align a (a + zlen d))).
  { apply Forall_forall. intros p Hp. by apply holders_elem in Hp. }
  assert (Hval : forall p, a <= p -> p + 8 <= a + zlen d ->
    exists d', read r p 8 = Some d' /\ load_bits 8 (drop (Z.to_nat (p - a)) d) = load_bits 8 d').
  { intros p H1 H2. exists (take 8 (drop (Z.to_nat (p - a)) d)). split; [|by rewrite load_bits_take].
    pose proof (read_sub r a (zlen d) d (p - a) 8 Hd ltac:(lia) ltac:(lia) ltac:(lia)) as E.
    by replace (a + (p - a)) with p in E by lia. }
  assert (Hgen : forall ps s, Forall (fun p => a <= p /\ p + 8 <= a + zlen d /\ p mod align = 0) ps ->
    adds edge_at (fun e => edge_at e /\ holder e ∈ ps) s (push_holders ps a d s)).
  { clear Hin. intros ps. induction ps as [|p ps IH]; intros s0 Hps; cbn [push_holders].
    - apply adds_refl. intros e (_ & He). by apply elem_of_nil in He.
    - apply Forall_cons in Hps as [(H1 & H2 & H3) Hps]. specialize (IH).
      destruct (Hval p H1 H2) as (d' & Hd' & Hv). rewrite Hv.
      assert (Hhd : forall e, edge_at e -> holder e = p -> e = mk_edge (load_bits 8 d') p).
      { intros [v h] (_ & _ & d0 & Hd0 & Hv0) E. cbn in *. subst h. rewrite Hd' in Hd0. by simplify_eq. }
      destruct (Z.eqb_spec (load_bits 8 d') 0) as [E|E].
      + eapply adds_weaken; [intros e He; exact He | | by apply IH].
        intros e [He Hh]. split; [done |]. apply elem_of_cons in Hh as [Hh|Hh]; [|done].
        pose proof (Hhd e He Hh) as ->. by destruct He as (_ & He & _).
      + set (s1 := push_edge _ p s0).
        assert (Hone : adds edge_at (fun e => edge_at e /\ holder e = p) s0 s1).
        { apply (adds_one _ _ _ _ _ _ (mk_edge (load_bits 8 d') p)); [done | | | ].
          - unfold s1, sw_trunc, push_edge. cbn. intros Ht. by apply orb_false_iff in Ht as [-> _].
          - split; [done |]. split; [done |]. by exists d'.
          - intros e [He Hh]. by apply Hhd. }
        destruct (Z.ltb_spec max_pointer_edges (edges_explored (sw_stats s1))) as [Hlt|Hge].
        * eapply adds_truncated; [exact Hone | done |].
          unfold s1, sw_trunc, push_edge in *. cbn in *. rewrite (proj2 (Z.ltb_lt _ _)) by done.
          by rewrite orb_true_r.
        * eapply (adds_trans _ _ _ _ _ _ _ s1); [exact Hone | by apply IH |].
          intros e [He Hh]. apply elem_of_cons in Hh as [Hh|Hh]; auto. }
  eapply adds_weaken; [intros e He; exact He | | by apply Hgen].
  intros e (He & H1 & H2). split; [done |]. apply holders_elem; [done |].
  destruct He as (Hm & _). by split_and!.
Qed.

Lemma push_holders_cancel ps a d s :
  was_cancelled (sw_stats (push_holders ps a d s)) = was_cancelled (sw_stats s).
Proof.
  revert s. induction ps as [|p ps IH]; intros s; cbn [push_holders]; [done |].
  destruct (_ =? 0); [apply IH |]. destruct (_ <? _); [done |]. by rewrite IH.
Qed.

(** The deliveries of one chunk: the sink never leaves a run. *)
Lemma sink_runs_adds runs s :
  (forall a d, (a, d) ∈ runs -> 0 <= a /\ a + zlen d + align + 8 <= 2 ^ 64 /\ read r a (zlen d) = Some d) ->
  exists s', foldl (fun s '(a, d) => sink align s a d) (Done s) runs = Done s' /\
    adds edge_at (fun x => edge_at x /\ exists a d, (a, d) ∈ runs /\ a <= holder x /\ holder x + 8 <= a + zlen d) s s' /\
    was_cancelled (sw_stats s') = was_cancelled (sw_stats s).
Proof using H0 Halign.
  revert s. induction runs as [|[a d] runs IH]; intros s Hr; cbn [foldl].
  { exists s. split; [done |]. split; [|done]. apply adds_refl.
    intros x (_ & a & d & Hin & _). by apply elem_of_nil in Hin. }
  destruct (Hr a d ltac:(by left)) as (Ha & Hw & Hrd). rewrite sink_spec_ok by done.
  destruct (IH (sink_spec align s a d)) as (s' & -> & I1 & I2); [intros a' d' Hin; apply Hr; by right |].
  exists s'. split; [done |]. split; [|by rewrite I2; apply push_holders_cancel].
  eapply (adds_trans _ _ _ _ _ _ _ (sink_spec align s a d)); [by apply sink_spec_adds | exact I1 |].
  intros x (Hx & a' & d' & Hin & Hb). apply elem_of_cons in Hin as [[= -> ->]|Hin]; [by left |].
  right. split; [done |]. by exists a', d'.
Qed.

(** A holder the sweep of a span is sure to see. *)
Definition swept (b e : Z) (p : Z) : Prop :=
  readable r b (e - b) /\ exists k, 0 <= k /\ b + k * kChunk <= p /\ p + 8 <= Z.min e (b + (k + 1) * kChunk).

Lemma sweep_span_adds fuel e cursor tok s :
  0 <= cursor -> e + align + 8 <= 2 ^ 64 -> (Z.to_nat (e - cursor) < fuel)%nat ->
  exists s' tok', sweep_span r align fuel e cursor tok s = Done (s', tok') /\
    adds edge_at (fun x => tok = None /\ edge_at x /\ swept cursor e (holder x)) s s' /\
    (tok = None -> tok' = None /\ was_cancelled (sw_stats s') = was_cancelled (sw_stats s)).
Proof using H0 Halign.
  revert cursor tok s. induction fuel as [|fuel IH]; intros cursor tok s Hcur He Hf; [lia |].
  cbn [sweep_span]. destruct (Z.ltb_spec cursor e) as [Hlt|Hge]; cbn [andb].
  2:{ exists s, tok. split; [done |]. split; [|done]. apply adds_refl.
      intros x (_ & _ & _ & k & Hk & H1 & H2). unfold kChunk in *. nia. }
  destruct (truncated (sw_stats s)) eqn:Htr; cbn [negb].
  { exists s, tok. split; [done |]. split; [|done]. apply adds_none; [done | done |].
    unfold sw_trunc. congruence. }
  destruct (cancelled tok) as [stop tok1] eqn:Htok.
  assert (Hnone : tok = None -> stop = false /\ tok1 = None)
    by (intros ->; simpl in Htok; by simplify_eq).
  destruct stop.
  { exists (set_cancelled s), tok1. split; [done |]. split; [|intros Ht; by destruct (Hnone Ht)].
    apply adds_none; [done | done |]. intros _ x (Ht & _). by destruct (Hnone Ht). }
  rewrite (wrap_small 64 (e - cursor)) by (unfold is_word; lia).
  set (want := Z.min kChunk (e - cursor)).
  assert (Hwant : 0 <= want) by (unfold want, kChunk; lia).
  destruct (resilient_read_runs r cursor want 8 tok1 (sink align) (Done s) ltac:(lia)) as (k & tok2 & -> & Hk).
  destruct (sink_runs_adds (take k (runs_of r cursor want 8)) s) as (s1 & -> & Ha & Hc).
  { intros a d Hin. apply runs_read in Hin as (? & ? & ?); [|lia..]. split_and!; (done || lia). }
  rewrite (wrap_small 64 (cursor + want)) by (unfold is_word; lia).
  destruct (IH (cursor + want) tok2 s1) as (s2 & tok3 & -> & H2 & Ht3); [unfold kChunk in *; lia.. |].
  exists s2, tok3. split; [done |]. split.
  - eapply (adds_trans _ _ _ _ _ _ _ s1); [exact Ha | exact H2 |].
    intros x (Ht & Hx & Hr & q & Hq & Hq1 & Hq2). destruct (Hk (proj2 (Hnone Ht))) as [Hkl ->].
    destruct (Z.eq_dec q 0) as [->|Hq0].
    + left. split; [done |]. rewrite take_ge by lia. rewrite Z.mul_0_l, Z.add_0_r in *.
      destruct (proj2 (read_is_Some r cursor want ltac:(lia))) as [d Hd].
      { eapply readable_sub; [exact Hr | lia | lia]. }
      exists cursor, d. unfold runs_of, seg_runs. cbn [seg_addr seg_len rr_runs].
      change (8 =? 0) with false. cbv iota. rewrite Hd.
      rewrite (read_zlen r cursor want d) by (done || lia). split; [by left |]. unfold want, kChunk in *. lia.
    + right. split; [done |]. split; [done |]. unfold kChunk in *.
      assert (want = 1048576) as Hw by lia.
      split; [eapply readable_sub; [exact Hr | lia | lia] |]. exists (q - 1). unfold kChunk. lia.
  - intros Ht. destruct (Hk (proj2 (Hnone Ht))) as [_ ->]. destruct (Ht3 eq_refl) as [-> ->]. by split.
Qed.

Lemma sweep_adds spans tok s :
  Forall (fun '(b, e) => 0 <= b /\ e + align + 8 <= 2 ^ 64) spans ->
  exists s' tok', sweep r align spans tok s = Done (s', tok') /\
    adds edge_at (fun x => tok = None /\ edge_at x /\ exists b e, (b, e) ∈ spans /\ swept b e (holder x)) s s' /\
    (tok = None -> tok' = None /\ was_cancelled (sw_stats s') = was_cancelled (sw_stats s)).
Proof using H0 Halign.
  revert tok s. induction spans as [|[b e] spans IH]; intros tok s Hsp; cbn [sweep].
  { exists s, tok. split; [done |]. split; [|done]. apply adds_refl.
    intros x (_ & _ & b & e & Hin & _). by apply elem_of_nil in Hin. }
  destruct (truncated (sw_stats s)) eqn:Htr.
  { exists s, tok. split; [done |]. split; [|done]. apply adds_none; [done | done |].
    unfold sw_trunc. congruence. }
  destruct (cancelled tok) as [stop tok1] eqn:Htok.
  assert (Hnone : tok = None -> stop = false /\ tok1 = None)
    by (intros ->; simpl in Htok; by simplify_eq).
  destruct stop.
  { exists s, tok1. split; [done |]. split; [|intros Ht; by destruct (Hnone Ht)].
    apply adds_none; [done | done |]. intros _ x (Ht & _). by destruct (Hnone Ht). }
  apply Forall_cons in Hsp as [[Hb He] Hsp].
  destruct (sweep_span_adds (S (Z.to_nat (e - b))) e b tok1 s) as (s1 & tok2 & -> & H1 & Ht2); [lia.. |].
  cbn [mbind outcome_bind]. destruct (IH tok2 s1 Hsp) as (s2 & tok3 & -> & H2 & Ht3). exists s2, tok3. split; [done |]. split.
  - eapply (adds_trans _ _ _ _ _ _ _ s1); [exact H1 | exact H2 |].
    intros x (Ht & Hx & b' & e' & Hin & Hs). destruct (Ht2 (proj2 (Hnone Ht))) as [-> _].
    apply elem_of_cons in Hin as [[= -> ->]|Hin]; [left | right].
    + by split; [apply Hnone |].
    + split; [done |]. split; [done |]. by exists b', e'.
  - intros Ht. destruct (Ht2 (proj2 (Hnone Ht))) as [-> <-]. by destruct (Ht3 eq_refl) as [-> ->].
Qed.
End SweepFacts.

(** ** The window of one destination *)

Lemma partition_point_lookup P l i e :
  StronglySorted edge_le l ->
  (forall a b, edge_le a b -> P b = true -> P a = true) ->
  l !! i = Some e -> (i < partition_point P l)%nat <-> P e = true.
Proof.
  intros Hs HP. revert i. induction Hs as [|x l Hs IH Hx]; intros i Hi; [done |].
  cbn [partition_point]. destruct (P x) eqn:Px.
  - destruct i as [|i]; cbn in Hi; [simplify_eq; split; [done | lia] |].
    rewrite <- (IH i Hi). lia.
  - split; [lia |]. intros Pe. exfalso.
    assert (edge_le x e).
    { destruct i as [|i]; cbn in Hi; [simplify_eq; unfold edge_le; lia |].
      apply (proj1 (Forall_forall _ _) Hx). by eapply list_elem_of_lookup_2. }
    by rewrite (HP x e) in Px.
Qed.

Lemma candidates_elem es lo hi e :
  StronglySorted edge_le es ->
  e ∈ candidates es lo hi <-> e ∈ es /\ lo <= value e <= hi.
Proof.
  intros Hs. unfold candidates.
  set (f := partition_point (fun e => value e <? lo) es). set (g := partition_point (fun e => negb (hi <? value e)) es).
  assert (Hf : forall i x, es !! i = Some x -> (i < f)%nat <-> value x < lo).
  { intros i x Hi. unfold f. rewrite (partition_point_lookup _ es i x Hs); [apply Z.ltb_lt | | done].
    unfold edge_le. intros a b Hab. rewrite !Z.ltb_lt. lia. }
  assert (Hg : forall i x, es !! i = Some x -> (i < g)%nat <-> value x <= hi).
  { intros i x Hi. unfold g. rewrite (partition_point_lookup _ es i x Hs); [| | done].
    - rewrite negb_true_iff, Z.ltb_ge. done.
    - unfold edge_le. intros a b Hab. rewrite !negb_true_iff, !Z.ltb_ge. lia. }
  rewrite list_elem_of_lookup. split.
  - intros (i & Hi). destruct (decide (i < g - f)%nat) as [Hlt|Hge].
    + rewrite lookup_take_lt, lookup_drop in Hi by done.
      split; [by eapply list_elem_of_lookup_2 |].
      pose proof (proj1 (Hg _ _ Hi)). pose proof (proj2 (Hf _ _ Hi)). lia.
    + rewrite lookup_take_ge in Hi by lia. done.
  - intros [Hin Hv]. apply list_elem_of_lookup in Hin as [i Hi].
    pose proof (proj1 (Hf _ _ Hi)). pose proof (proj2 (Hg _ _ Hi)).
    assert (f <= i)%nat by lia. exists (i - f)%nat. rewrite lookup_take_lt, lookup_drop by lia.
    by replace (f + (i - f))%nat with i by lia.
Qed.

Section Window.
Variables (min_off max_off : Z).
Hypothesis Hmin : - 2 ^ 31 <= min_off.
Hypothesis Hle : min_off <= max_off.
Hypothesis Hmax : max_off < 2 ^ 31.

(** A value in the window is an offset in range away from the destination. *)
Lemma window_sound dest v lo hi :
  is_word 64 dest -> is_word 64 v -> window min_off max_off dest = Some (lo, hi) -> lo <= v <= hi ->
  min_off <= signed_of 64 (dest - v) <= max_off /\ u64 (v + signed_of 64 (dest - v)) = dest.
Proof using Hmin Hle Hmax.
  unfold is_word, window, signed_of, wrap. intros Hd Hv.
  change (2 ^ (64 - 1)) with 9223372036854775808. change (2 ^ 64) with 18446744073709551616 in *.
  change (2 ^ 31) with 2147483648 in *.
  destruct (Z.ltb_spec 0 min_off), (Z.ltb_spec dest min_off), (Z.ltb_spec 0 max_off), (Z.ltb_spec dest max_off);
    cbn [andb]; try done.
  all: destruct (_ <? _) eqn:E; [done |]; apply Z.ltb_ge in E; intros [= <- <-] Hw.
  all: destruct (Z.ltb_spec ((dest - v) mod 18446744073709551616) 9223372036854775808);
    Z.to_euclidean_division_equations; lia.
Qed.

(** The window misses no offset in range (destinations in the lower half). *)
Lemma window_complete v o :
  is_word 64 v -> 0 <= v + o < 2 ^ 63 -> min_off <= o <= max_off ->
  exists lo hi, window min_off max_off (v + o) = Some (lo, hi) /\ lo <= v <= hi /\
    signed_of 64 (v + o - v) = o.
Proof using Hmin Hle Hmax.
  unfold is_word, window. intros Hv Hd Ho.
  assert (Hs : signed_of 64 (v + o - v) = o).
  { unfold signed_of, wrap. change (2 ^ (64 - 1)) with 9223372036854775808.
    change (2 ^ 64) with 18446744073709551616. change (2 ^ 31) with 2147483648 in *.
    destruct (Z.ltb_spec ((v + o - v) mod 18446744073709551616) 9223372036854775808);
      Z.to_euclidean_division_equations; lia. }
  rewrite Hs. change (2 ^ 31) with 2147483648 in *. change (2 ^ 63) with 9223372036854775808 in *.
  assert (H1 : (0 <? min_off) && (v + o <? min_off) = false).
  { destruct (Z.ltb_spec 0 min_off), (Z.ltb_spec (v + o) min_off); cbn; try done.
    exfalso. lia. }
  rewrite H1. rewrite (wrap_small 64 (v + o - min_off)).
  2:{ unfold is_word. change (2 ^ 64) with 18446744073709551616. lia. }
  destruct (Z.ltb_spec 0 max_off), (Z.ltb_spec (v + o) max_off); cbn [andb].
  all: try rewrite (wrap_small 64 (v + o - max_off))
    by (unfold is_word; change (2 ^ 64) with 18446744073709551616; lia).
  all: rewrite (proj2 (Z.ltb_ge _ _)) by lia; eexists _, _; split; [done |]; lia.
Qed.
End Window.

(** ** Nodes and chains *)

Section NodeFacts.
Variables (tgt : Z) (es : list edge_t) (min_off max_off : Z).

Definition root : node_t := mk_node tgt (-1) 0.

(** [*a + o] is [dest] for an edge of the sweep, with the offset in range. *)
Definition link (a o dest : Z) : Prop :=
  min_off <= o <= max_off /\ exists e, e ∈ es /\ holder e = a /\ u64 (value e + o) = dest.

(** The same without wrap-around, below 2^63. *)
Definition plain_link (a o dest : Z) : Prop :=
  min_off <= o <= max_off /\ 0 <= dest < 2 ^ 63 /\ exists e, e ∈ es /\ holder e = a /\ value e + o = dest.

Definition head_addr (c : list (Z * Z)) : Z := match c with (a, _) :: _ => a | [] => tgt end.

Section Leads.
Variable P : Z -> Z -> Z -> Prop.
(** Each hop leads to the next holder and the last one to the target. *)
Fixpoint leads (c : list (Z * Z)) : Prop :=
  match c with
  | [] => True
  | (a, o) :: c' => P a o (head_addr c') /\ leads c'
  end.
End Leads.

Definition nodes_ok (ns : list node_t) : Prop :=
  ns !! 0%nat = Some root /\
  forall (i : nat) nd, ns !! i = Some nd -> (1 <= i)%nat ->
    exists (p : nat) pn, (p < i)%nat /\ n_parent nd = Z.of_nat p /\ ns !! p = Some pn /\
      link (n_addr nd) (n_offset nd) (n_addr pn).

Definition chain (ns : list node_t) (i : nat) : list (Z * Z) := chain_of i ns (Z.of_nat i).

Lemma chain_of_fuel ns f i :
  nodes_ok ns -> (i < length ns)%nat -> (i <= f)%nat -> chain_of f ns (Z.of_nat i) = chain ns i.
Proof using Type.
  intros [H0 Hok] Hi Hf. unfold chain.
  assert (Hgen : forall f g i, (i < length ns)%nat -> (i <= f)%nat -> (i <= g)%nat ->
    chain_of f ns (Z.of_nat i) = chain_of g ns (Z.of_nat i)).
  { clear i f Hi Hf. induction f as [|f IH]; intros g i Hi Hf Hg.
    - assert (i = 0)%nat as -> by lia. by destruct g.
    - destruct i as [|i]; [by destruct g |]. destruct g as [|g]; [lia |].
      cbn [chain_of]. destruct (0 <? _); [|done]. rewrite Nat2Z.id.
      destruct (lookup_lt_is_Some_2 ns (S i)) as [nd Hnd]; [lia |]. rewrite Hnd.
      destruct (Hok _ _ Hnd ltac:(lia)) as (p & pn & Hp & -> & Hpn & _).
      f_equal. apply IH; [by eapply lookup_lt_Some | lia | lia]. }
  apply Hgen; lia.
Qed.

Lemma chain_S ns i nd p :
  nodes_ok ns -> ns !! i = Some nd -> (1 <= i)%nat -> n_parent nd = Z.of_nat p -> (p < i)%nat ->
  chain ns i = (n_addr nd, n_offset nd) :: chain ns p.
Proof using Type.
  intros Hok Hnd Hi Hp Hpi. pose proof (lookup_lt_Some _ _ _ Hnd).
  unfold chain at 1. destruct i as [|i]; [lia |]. cbn [chain_of].
  rewrite (proj2 (Z.ltb_lt _ _)) by lia. rewrite Nat2Z.id, Hnd, Hp. f_equal.
  apply chain_of_fuel; [done | lia | lia].
Qed.

Lemma chain_0 ns : chain ns 0 = [].
Proof using Type. done. Qed.

Lemma chain_ok ns i nd :
  nodes_ok ns -> ns !! i = Some nd ->
  head_addr (chain ns i) = n_addr nd /\ leads link (chain ns i).
Proof using Type.
  intros Hok. revert nd. induction (lt_wf i) as [i _ IH]. intros nd Hnd.
  destruct (decide (i = 0)%nat) as [->|Hi].
  - destruct Hok as [H0 _]. rewrite H0 in Hnd. by simplify_eq.
  - destruct (proj2 Hok i nd Hnd ltac:(lia)) as (p & pn & Hp & Hpar & Hpn & Hl).
    rewrite (chain_S ns i nd p) by (done || lia). destruct (IH p Hp pn Hpn) as [Hh Hlead].
    split; [done |]. cbn [leads]. by rewrite Hh.
Qed.

Lemma chain_app ns new i :
  nodes_ok ns -> nodes_ok (ns ++ new) -> (i < length ns)%nat -> chain (ns ++ new) i = chain ns i.
Proof using Type.
  intros Hok Hok'. induction (lt_wf i) as [i _ IH]. intros Hi.
  destruct (decide (i = 0)%nat) as [->|Hi0]; [done |].
  destruct (lookup_lt_is_Some_2 ns i Hi) as [nd Hnd].
  destruct (proj2 Hok i nd Hnd ltac:(lia)) as (p & pn & Hp & Hpar & Hpn & Hl).
  rewrite (chain_S ns i nd p) by (done || lia).
  rewrite (chain_S (ns ++ new) i nd p); [| done | by apply lookup_app_l_Some | lia | done | done].
  f_equal. apply IH; lia.
Qed.
End NodeFacts.

Section LevelFacts.
Variables (tgt : Z) (es : list edge_t) (min_off max_off cap : Z).
Hypothesis Hsorted : StronglySorted edge_le es.
Hypothesis Hwords : Forall (fun e => is_word 64 (value e) /\ is_word 64 (holder e)) es.
Hypothesis Htgt : is_word 64 tgt.
Hypothesis Hmin : - 2 ^ 31 <= min_off.
Hypothesis Hle : min_off <= max_off.
Hypothesis Hmax : max_off < 2 ^ 31.

Definition edge_node (fidx : nat) (dest : Z) (e : edge_t) : node_t :=
  mk_node (holder e) (Z.of_nat fidx) (signed_of 64 (dest - value e)).

(** What an expansion adds: nodes, and their indices to the next frontier. *)
Definition grows (Q T : node_t -> Prop) (l l' : level_t) : Prop :=
  exists new, nodes l' = nodes l ++ new /\
    next_frontier l' = next_frontier l ++ seq (length (nodes l)) (length new) /\
    Forall Q new /\ (full l' = false -> full l = false /\ forall nd, T nd -> nd ∈ new).

Lemma grows_trans Q T1 T2 T l1 l2 l3 :
  grows Q T1 l1 l2 -> grows Q T2 l2 l3 -> (forall nd, T nd -> T1 nd \/ T2 nd) -> grows Q T l1 l3.
Proof using Type.
  intros (n1 & E1 & F1 & Q1 & C1) (n2 & E2 & F2 & Q2 & C2) HT. exists (n1 ++ n2).
  rewrite E2, E1, <- app_assoc. split; [done |]. split.
  - rewrite F2, F1, <- app_assoc, E1, !length_app, seq_app. done.
  - split; [by apply Forall_app |]. intros Hf. destruct (C2 Hf) as [Hf2 C2'].
    destruct (C1 Hf2) as [Hf1 C1']. split; [done |]. intros nd Hnd. apply elem_of_app.
    destruct (HT nd Hnd); auto.
Qed.

Lemma grows_refl Q (T : node_t -> Prop) l : (full l = false -> forall nd, ~ T nd) -> grows Q T l l.
Proof using Type.
  intros HT. exists []. rewrite !app_nil_r. split_and!; [done | done | by constructor |].
  intros Hf. split; [done |]. intros nd Hnd. by destruct (HT Hf nd).
Qed.

Lemma expand_edges_grows cands fidx dest l :
  grows (fun nd => exists e, e ∈ cands /\ nd = edge_node fidx dest e)
        (fun nd => exists e, e ∈ cands /\ nd = edge_node fidx dest e) l
        (expand_edges cap cands fidx dest l).
Proof using Type.
  revert l. induction cands as [|e cands IH]; intros l; cbn [expand_edges].
  { apply grows_refl. intros _ nd (e & He & _). by apply elem_of_nil in He. }
  assert (Hone : forall f, (f = false -> full l = false) ->
    grows (fun nd => exists e', e' ∈ e :: cands /\ nd = edge_node fidx dest e')
      (fun nd => nd = edge_node fidx dest e) l
      (mk_level (nodes l ++ [edge_node fidx dest e]) (next_frontier l ++ [length (nodes l)]) f)).
  { intros f Hf. exists [edge_node fidx dest e]. split_and!; [done | done | |].
    - constructor; [|done]. exists e. split; [by left | done].
    - intros Hf'. split; [by apply Hf |]. intros nd ->. by left. }
  destruct (cap <=? _).
  - destruct (Hone true ltac:(done)) as (new & E & F & Q & _). exists new. by split_and!.
  - eapply (grows_trans _ _ (fun nd => exists e', e' ∈ cands /\ nd = edge_node fidx dest e'));
      [by apply Hone | |].
    + destruct (IH (mk_level (nodes l ++ [edge_node fidx dest e])
                       (next_frontier l ++ [length (nodes l)]) (full l))) as (new & E & F & Q & C).
      exists new. split_and!; [done | done | | exact C].
      eapply Forall_impl; [exact Q |]. intros nd (e' & He' & ->). exists e'. split; [by right | done].
    + intros nd (e' & He' & ->). apply elem_of_cons in He' as [->|He']; [by left |].
      right. by exists e'.
Qed.

(** A node hanging off frontier node [fidx]. *)
Definition hangs (P : Z -> Z -> Z -> Prop) (ns : list node_t) (frontier : list nat) (nd : node_t) : Prop :=
  exists fidx pn, fidx ∈ frontier /\ ns !! fidx = Some pn /\ n_parent nd = Z.of_nat fidx /\
    P (n_addr nd) (n_offset nd) (n_addr pn).

Lemma expand_one fidx pn l :
  nodes l !! fidx = Some pn -> is_word 64 (n_addr pn) ->
  grows (hangs (link es min_off max_off) (nodes l) [fidx])
        (hangs (plain_link es min_off max_off) (nodes l) [fidx]) l
    (match window min_off max_off (n_addr pn) with
     | None => l
     | Some (lo, hi) => expand_edges cap (candidates es lo hi) fidx (n_addr pn) l
     end).
Proof using Hsorted Hwords Hmin Hle Hmax.
  intros Hpn Hw. rewrite Forall_forall in Hwords.
  assert (Hplain : forall nd, hangs (plain_link es min_off max_off) (nodes l) [fidx] nd ->
    exists e lo hi, e ∈ es /\ window min_off max_off (n_addr pn) = Some (lo, hi) /\ lo <= value e <= hi /\
      nd = edge_node fidx (n_addr pn) e).
  { intros [a p o] (f & pn' & Hf & Hpn' & Hpar & (Ho & Hd & e & He & Hh & Hv)).
    apply list_elem_of_singleton in Hf as ->. rewrite Hpn in Hpn'. simplify_eq. cbn in *. subst.
    destruct (Hwords e He) as [Hve _].
    destruct (window_complete min_off max_off Hmin Hle Hmax (value e) o) as (lo & hi & W1 & W2 & W3);
      [done | by rewrite Hv | done |].
    exists e, lo, hi. rewrite <- Hv. split_and!; try done; try lia. unfold edge_node. by rewrite W3. }
  destruct (window min_off max_off (n_addr pn)) as [[lo hi]|] eqn:Ew.
  - destruct (expand_edges_grows (candidates es lo hi) fidx (n_addr pn) l) as (new & E & F & Q & C).
    exists new. split; [done |]. split; [done |]. split.
    + eapply Forall_impl; [exact Q |]. intros nd (e & He & ->).
      apply candidates_elem in He as [He Hv]; [|done]. destruct (Hwords e He) as [Hve _].
      destruct (window_sound min_off max_off Hmin Hle Hmax (n_addr pn) (value e) lo hi) as [W1 W2]; try done.
      exists fidx, pn. split_and!; [by left | done | done |]. split; [done |]. by exists e.
    + intros Hf. destruct (C Hf) as [Hfl C']. split; [done |]. intros nd Hnd.
      destruct (Hplain nd Hnd) as (e & lo' & hi' & He & [= <- <-] & Hv & ->). apply C'.
      exists e. split; [|done]. by apply candidates_elem.
  - apply grows_refl. intros _ nd Hnd. destruct (Hplain nd Hnd) as (e & lo & hi & _ & [=] & _).
Qed.

Lemma hangs_app (P : Z -> Z -> Z -> Prop) ns new fr nd :
  Forall (fun i => (i < length ns)%nat) fr -> hangs P ns fr nd <-> hangs P (ns ++ new) fr nd.
Proof using Type.
  intros Hfr. rewrite Forall_forall in Hfr. split; intros (f & pn & Hf & Hpn & Hx);
    exists f, pn; split_and!; try done; try tauto; specialize (Hfr f Hf).
  - by apply lookup_app_l_Some.
  - by rewrite lookup_app_l in Hpn by lia.
Qed.

Lemma expand_grows frontier tok l l' c tok' :
  Forall (fun i => exists pn, nodes l !! i = Some pn /\ is_word 64 (n_addr pn)) frontier ->
  expand es min_off max_off cap frontier tok l = (l', c, tok') ->
  grows (hangs (link es min_off max_off) (nodes l) frontier)
        (fun nd => tok = None /\ hangs (plain_link es min_off max_off) (nodes l) frontier nd) l l' /\
  (tok = None -> tok' = None /\ c = false).
Proof using Hsorted Hwords Hmin Hle Hmax.
  revert tok l. induction frontier as [|f frontier IH]; intros tok l Hfr; cbn [expand].
  { intros [= <- <- <-]. split; [|done]. apply grows_refl.
    intros _ nd (_ & f & pn & Hf & _). by apply elem_of_nil in Hf. }
  destruct (cancelled tok) as [stop tok1] eqn:Htok.
  assert (Hnone : tok = None -> stop = false /\ tok1 = None)
    by (intros ->; simpl in Htok; by simplify_eq).
  destruct stop.
  { intros [= <- <- <-]. split; [|intros Ht; by destruct (Hnone Ht)].
    apply grows_refl. intros _ nd (Ht & _). by destruct (Hnone Ht). }
  destruct (full l) eqn:Hfull.
  { intros [= <- <- <-]. split; [|intros Ht; by split; [apply Hnone |]].
    apply grows_refl. congruence. }
  apply Forall_cons in Hfr as [(pn & Hpn & Hw) Hfr]. rewrite Hpn. intros Hexp.
  set (l1 := match window min_off max_off (n_addr pn) with
             | None => l
             | Some (lo, hi) => expand_edges cap (candidates es lo hi) f (n_addr pn) l
             end).
  pose proof (expand_one f pn l Hpn Hw) as H1. fold l1 in H1.
  assert (Hexp' : expand es min_off max_off cap frontier tok1 l1 = (l', c, tok')).
  { subst l1. by destruct (window min_off max_off (n_addr pn)) as [[lo hi]|]. }
  clear Hexp. pose proof H1 as (new & E1 & _).
  assert (Hlt : Forall (fun i => (i < length (nodes l))%nat) frontier).
  { eapply Forall_impl; [exact Hfr |]. intros i (p & Hp & _). by eapply lookup_lt_Some. }
  destruct (IH tok1 l1) as [H2 Ht2]; [| done |].
  { eapply Forall_impl; [exact Hfr |]. intros i (p & Hp & Hpw). exists p.
    split; [rewrite E1; by apply lookup_app_l_Some | done]. }
  split; [|intros Ht; by apply Ht2, Hnone].
  rewrite E1 in H2.
  assert (Hsub : forall P nd, hangs P (nodes l) [f] nd -> hangs P (nodes l) (f :: frontier) nd).
  { intros P nd (f' & pn' & Hf & Hx). exists f', pn'. split; [|done].
    apply list_elem_of_singleton in Hf as ->. by left. }
  assert (Hsub2 : forall P nd, hangs P (nodes l ++ new) frontier nd -> hangs P (nodes l) (f :: frontier) nd).
  { intros P nd Hh. apply hangs_app in Hh; [|done]. destruct Hh as (f' & pn' & Hf & Hx).
    exists f', pn'. split; [by right | done]. }
  eapply (grows_trans _ (fun nd => tok = None /\ hangs (plain_link es min_off max_off) (nodes l) [f] nd)
            (fun nd => tok1 = None /\ hangs (plain_link es min_off max_off) (nodes l ++ new) frontier nd) _ l l1).
  - destruct H1 as (n1 & A1 & A2 & A3 & A4). exists n1. split_and!; [done | done | |].
    + eapply Forall_impl; [exact A3 |]. apply Hsub.
    + intros Hf. destruct (A4 Hf) as [? A5]. split; [done |]. intros nd [_ Hnd]. by apply A5.
  - destruct H2 as (n2 & B1 & B2 & B3 & B4). exists n2. split_and!; [done | done | | exact B4].
    eapply Forall_impl; [exact B3 |]. apply Hsub2.
  - intros nd (Ht & f' & pn' & Hf & Hx). apply elem_of_cons in Hf as [->|Hf].
    + left. split; [done |]. exists f, pn'. split; [by left | done].
    + right. split; [by apply Hnone |]. apply hangs_app; [done |]. by exists f', pn'.
Qed.
End LevelFacts.

Section LevelInv.
Variables (tgt : Z) (es : list edge_t) (min_off max_off cap : Z).
Hypothesis Hsorted : StronglySorted edge_le es.
Hypothesis Hwords : Forall (fun e => is_word 64 (value e) /\ is_word 64 (holder e)) es.
Hypothesis Htgt : is_word 64 tgt.
Hypothesis Hmin : - 2 ^ 31 <= min_off.
Hypothesis Hle : min_off <= max_off.
Hypothesis Hmax : max_off < 2 ^ 31.

Abbreviation oks := (nodes_ok tgt es min_off max_off).
Abbreviation lnk := (link es min_off max_off).
Abbreviation pln := (plain_link es min_off max_off).

(** The nodes after level [L]: sound always, complete when [comp] holds. *)
Record level_inv (L : nat) (ns : list node_t) (frontier : list nat) (comp : Prop) : Prop := {
  li_ok : oks ns;
  li_words : Forall (fun nd => is_word 64 (n_addr nd)) ns;
  li_frontier : forall i, i ∈ frontier -> (i < length ns)%nat /\ length (chain ns i) = L;
  li_depth : forall i, (i < length ns)%nat -> (length (chain ns i) <= L)%nat;
  li_all : comp -> forall c, leads tgt pln c -> (1 <= length c <= L)%nat ->
    exists i, (1 <= i < length ns)%nat /\ chain ns i = c;
  li_last : comp -> forall c, leads tgt pln c -> length c = L -> exists i, i ∈ frontier /\ chain ns i = c
}.

Lemma hangs_node ns frontier new nd (k : nat) :
  oks ns -> Forall (hangs lnk ns frontier) new -> new !! k = Some nd ->
  exists (p : nat) pn, (p < length ns)%nat /\ p ∈ frontier /\ ns !! p = Some pn /\
    n_parent nd = Z.of_nat p /\ lnk (n_addr nd) (n_offset nd) (n_addr pn).
Proof using Type.
  intros Hok Hf Hk. destruct (Forall_lookup_1 _ _ _ _ Hf Hk) as (p & pn & H1 & H2 & H3 & H4).
  exists p, pn. split; [by eapply lookup_lt_Some |].
  split; [done |]. split; [done |]. by split.
Qed.

Lemma nodes_ok_app ns frontier new :
  oks ns -> Forall (hangs lnk ns frontier) new -> oks (ns ++ new).
Proof using Type.
  intros Hok Hf. destruct Hok as [H0 Hrest]. split; [by apply lookup_app_l_Some |].
  intros i nd Hi H1. apply lookup_app_Some in Hi as [Hi|[Hge Hi]].
  - destruct (Hrest i nd Hi H1) as (p & pn & ? & ? & Hpn & ?). exists p, pn.
    split_and!; try done; try tauto. by apply lookup_app_l_Some.
  - destruct (hangs_node ns frontier new nd _ (conj H0 Hrest) Hf Hi) as (p & pn & Hp & _ & Hpn & Hpar & Hl).
    exists p, pn. split; [lia |]. split; [done |]. split; [by apply lookup_app_l_Some | done].
Qed.

Lemma level_step L ns frontier comp l c tok tok' :
  level_inv L ns frontier comp ->
  expand es min_off max_off cap frontier tok (mk_level ns [] false) = (l, c, tok') ->
  (tok = None -> tok' = None /\ c = false) /\
  level_inv (S L) (nodes l) (next_frontier l) (comp /\ tok = None /\ full l = false).
Proof using Hsorted Hwords Hmin Hle Hmax.
  intros [Iok Iw If Id Ia Il] Hexp.
  destruct (expand_grows es min_off max_off cap Hsorted Hwords Hmin Hle Hmax frontier tok
    (mk_level ns [] false) l c tok') as [(new & En & Ef & Q & C) Ht]; [|done|].
  { apply Forall_forall. intros i Hi. destruct (If i Hi) as [Hlt _].
    destruct (lookup_lt_is_Some_2 ns i Hlt) as [pn Hpn]. exists pn. split; [done |].
    by apply (Forall_lookup_1 _ _ _ _ Iw Hpn). }
  split; [done |]. cbn [nodes next_frontier full] in *.
  pose proof (nodes_ok_app ns frontier new Iok Q) as Hok'.
  assert (Hnew : forall (k : nat) nd, new !! k = Some nd ->
    exists p, p ∈ frontier /\ n_parent nd = Z.of_nat p /\
      chain (ns ++ new) (length ns + k) = (n_addr nd, n_offset nd) :: chain ns p).
  { intros k nd Hk. destruct (hangs_node ns frontier new nd k Iok Q Hk) as (p & pn & Hp & Hpf & Hpn & Hpar & Hl).
    assert (length ns <> 0)%nat by lia.
    exists p. split_and!; [done | done |].
    rewrite (chain_S tgt es min_off max_off _ _ nd p Hok'); [| | lia | done | lia].
    - f_equal. by apply (chain_app tgt es min_off max_off).
    - rewrite lookup_app_r by lia. by replace (length ns + k - length ns)%nat with k by lia. }
  assert (Hnext : comp /\ tok = None /\ full l = false -> forall ch, leads tgt pln ch -> length ch = S L ->
    exists k : nat, (k < length new)%nat /\ chain (ns ++ new) (length ns + k) = ch).
  { intros (Hcomp & Htk & Hfl) ch Hl E. destruct ch as [|[a o] ch]; [done |]. destruct Hl as [Hlink Hl].
    destruct (Il Hcomp ch Hl) as (p & Hp & Hch); [by injection E |].
    destruct (If p Hp) as [Hplt _]. destruct (lookup_lt_is_Some_2 ns p Hplt) as [pn Hpn].
    destruct (chain_ok tgt es min_off max_off ns p pn Iok Hpn) as [Hhead _]. rewrite Hch in Hhead.
    assert (Hin : mk_node a (Z.of_nat p) o ∈ new).
    { destruct (C Hfl) as [_ C']. apply C'. split; [done |]. exists p, pn. rewrite <- Hhead.
      split; [done |]. split; [done |]. by split. }
    apply list_elem_of_lookup in Hin as [k Hk].
    destruct (Hnew _ _ Hk) as (p' & _ & Hpar & Hchain). cbn in Hpar. assert (p' = p) as -> by lia.
    exists k. split; [by eapply lookup_lt_Some |]. by rewrite Hchain, Hch. }
  rewrite En. rewrite Ef. constructor.
  - done.
  - apply Forall_app. split; [done |]. apply Forall_forall. intros nd Hnd.
    apply list_elem_of_lookup in Hnd as [k Hk].
    destruct (hangs_node ns frontier new nd k Iok Q Hk) as (_ & _ & _ & _ & _ & _ & _ & e & He & <- & _).
    by apply (proj1 (Forall_forall _ _) Hwords e He).
  - intros i Hi. apply elem_of_seq in Hi. rewrite length_app. split; [lia |].
    destruct (lookup_lt_is_Some_2 new (i - length ns)) as [nd Hnd]; [lia |].
    destruct (Hnew _ _ Hnd) as (p & Hpf & _ & Hch).
    replace (length ns + (i - length ns))%nat with i in Hch by lia. rewrite Hch. cbn [length].
    f_equal. by apply If.
  - intros i Hi. rewrite length_app in Hi. destruct (decide (i < length ns)%nat) as [Hlt|Hge].
    + rewrite (chain_app tgt es min_off max_off) by done. specialize (Id i Hlt). lia.
    + destruct (lookup_lt_is_Some_2 new (i - length ns)) as [nd Hnd]; [lia |].
      destruct (Hnew _ _ Hnd) as (p & Hpf & _ & Hch).
      replace (length ns + (i - length ns))%nat with i in Hch by lia. rewrite Hch. cbn [length].
      rewrite (proj2 (If p Hpf)). done.
  - intros Hcomp ch Hl Hlen. destruct (decide (length ch = S L)) as [E|E].
    + destruct (Hnext Hcomp ch Hl E) as (k & Hk & Hch). exists (length ns + k)%nat.
      rewrite length_app. destruct (lookup_lt_is_Some_2 new k Hk) as [nd Hnd].
      destruct (hangs_node ns frontier new nd k Iok Q Hnd) as (p & _ & Hp & _).
      split; [lia | done].
    + destruct (Ia (proj1 Hcomp) ch Hl) as (i & Hi & Hch); [lia |]. exists i. rewrite length_app.
      split; [lia |]. rewrite (chain_app tgt es min_off max_off); [done | done | done | lia].
  - intros Hcomp ch Hl E. destruct (Hnext Hcomp ch Hl E) as (k & Hk & Hch).
    exists (length ns + k)%nat. split; [apply elem_of_seq; lia | done].
Qed.

Lemma leads_drop (P : Z -> Z -> Z -> Prop) k c : leads tgt P c -> leads tgt P (drop k c).
Proof using Type.
  revert c. induction k as [|k IH]; intros c Hc; [done |].
  destruct c as [|[a o] c]; [done |]. apply IH, Hc.
Qed.

(** What the level loop leaves behind. *)
Definition nodes_done (L : nat) (comp : Prop) (ns : list node_t) : Prop :=
  oks ns /\ (forall i, (i < length ns)%nat -> (length (chain ns i) <= L)%nat) /\
  (comp -> forall c, leads tgt pln c -> (1 <= length c <= L)%nat ->
     exists i, (1 <= i < length ns)%nat /\ chain ns i = c).

Lemma levels_spec n L frontier tok ns trunc canc ns' t' c' comp :
  level_inv L ns frontier comp ->
  levels es min_off max_off cap n frontier tok ns trunc canc = (ns', t', c') ->
  (t' = false -> trunc = false) /\ (c' = false -> canc = false) /\ (tok = None -> c' = canc) /\
  nodes_done (L + n) (comp /\ tok = None /\ t' = false) ns'.
Proof using Hsorted Hwords Hmin Hle Hmax.
  revert L frontier tok ns trunc canc comp. induction n as [|n IH];
    intros L frontier tok ns trunc canc comp Hinv; cbn [levels].
  { intros [= <- <- <-]. split_and!; try done. destruct Hinv. rewrite Nat.add_0_r.
    unfold nodes_done. split; [done |]. split; [done |]. tauto. }
  destruct frontier as [|f frontier].
  { intros [= <- <- <-]. split_and!; try done. destruct Hinv as [Iok Iw If Id Ia Il].
    split; [done |]. split; [intros i Hi; specialize (Id i Hi); lia |].
    intros (Hcomp & _ & _) c Hc Hlen. destruct (decide (length c <= L)%nat) as [Hle'|Hgt].
    - apply Ia; [done | done | lia].
    - exfalso. destruct (Il Hcomp (drop (length c - L) c)) as (i & Hi & _).
      + by apply leads_drop.
      + rewrite length_drop. lia.
      + by apply elem_of_nil in Hi. }
  destruct (cancelled tok) as [stop tok1] eqn:Htok.
  assert (Hnone : tok = None -> stop = false /\ tok1 = None)
    by (intros ->; simpl in Htok; by simplify_eq).
  destruct stop.
  { intros [= <- <- <-]. destruct Hinv as [Iok Iw If Id Ia Il]. unfold nodes_done. split_and!; try done.
    - intros Ht. by destruct (Hnone Ht).
    - intros i Hi. specialize (Id i Hi). lia.
    - intros (_ & Ht & _). by destruct (Hnone Ht). }
  destruct (expand es min_off max_off cap (f :: frontier) tok1 (mk_level ns [] false))
    as [[l c] tok2] eqn:Hexp. intros Hlev.
  destruct (level_step L ns (f :: frontier) comp l c tok1 tok2 Hinv Hexp) as [Ht2 Hinv2].
  destruct (IH _ _ _ _ _ _ _ Hinv2 Hlev) as (R1 & R2 & R3 & Hd1 & Hd2 & Hd3).
  split; [intros Ht; specialize (R1 Ht); by apply orb_false_iff in R1 as [-> _] |].
  split; [intros Hc'; specialize (R2 Hc'); by apply orb_false_iff in R2 as [-> _] |].
  split.
  { intros Ht. destruct (Ht2 (proj2 (Hnone Ht))) as [Ht2' ->]. rewrite (R3 Ht2'). apply orb_false_r. }
  replace (L + S n)%nat with (S L + n)%nat by lia. split; [done |]. split; [done |].
  intros (Hcomp & Ht & Htr) ch. apply Hd3. destruct (Hnone Ht) as [_ ->].
  destruct (Ht2 eq_refl) as [-> _]. specialize (R1 Htr). apply orb_false_iff in R1 as [_ Hf].
  by split_and!.
Qed.

Lemma level_inv_root : level_inv 0 [root tgt] [0%nat] True.
Proof using Htgt.
  constructor.
  - split; [done |]. intros i nd Hi H1. destruct i as [|[|i]]; [lia | done | done].
  - by constructor.
  - intros i Hi. apply list_elem_of_singleton in Hi as ->. split; [cbn; lia | done].
  - intros i Hi. cbn in Hi. by assert (i = 0)%nat as -> by lia.
  - intros _ c _ Hl. lia.
  - intros _ c _ Hl. exists 0%nat. split; [by left |]. destruct c; [done | done].
Qed.
End LevelInv.

(** ** Reading off the chains *)

Lemma build_chains_spec regions mo ns idxs acc t acc' t' :
  build_chains regions mo ns idxs acc t = (acc', t') ->
  (forall c, c ∈ acc' -> c ∈ acc \/ exists i, i ∈ idxs /\
     c = mk_chain (chain_of (length ns) ns (Z.of_nat i)).*1 (chain_of (length ns) ns (Z.of_nat i)).*2) /\
  (t' = false -> t = false /\ (forall c, c ∈ acc -> c ∈ acc') /\
     (mo = false -> forall i, i ∈ idxs ->
        mk_chain (chain_of (length ns) ns (Z.of_nat i)).*1 (chain_of (length ns) ns (Z.of_nat i)).*2 ∈ acc')).
Proof.
  revert acc. induction idxs as [|i idxs IH]; intros acc; cbn [build_chains].
  { intros [= -> ->]. split; [auto |]. intros ->. split_and!; try done.
    intros _ i Hi. by apply elem_of_nil in Hi. }
  destruct (_ <=? _); [intros [= -> <-]; by split; [auto |] |].
  destruct mo; cbn [andb]; [destruct (negb _)|].
  2, 3: set (c0 := mk_chain _ _); intros Hb; apply IH in Hb as [B1 B2]; split;
    [ intros c Hc; apply B1 in Hc as [Hc|(j & Hj & Hc)];
      [ apply elem_of_app in Hc as [Hc|Hc];
        [by left | apply list_elem_of_singleton in Hc; right; exists i; split; [by left | done]]
      | right; exists j; split; [by right | done]]
    | intros Ht; destruct (B2 Ht) as (-> & Hacc & Hall); split; [done |]; split;
      [ intros c Hc; apply Hacc, elem_of_app; by left
      | intros Hmo j Hj; apply elem_of_cons in Hj as [->|Hj];
        [apply Hacc, elem_of_app; right; by left | by apply Hall] ] ].
  intros Hb; apply IH in Hb as [B1 B2]; split.
  - intros c Hc. apply B1 in Hc as [Hc|(j & Hj & Hc)]; [by left |].
    right. exists j. split; [by right | done].
  - intros Ht. destruct (B2 Ht) as (-> & Hacc & _). by split_and!.
Qed.

Lemma zip_fst_snd {A B} (c : list (A * B)) : zip c.*1 c.*2 = c.
Proof. induction c as [|[a b] c IH]; [done |]. cbn. by rewrite IH. Qed.

#[global] Instance edge_le_total : Total edge_le.
Proof. intros a b. unfold edge_le. lia. Qed.
#[global] Instance edge_le_trans : Transitive edge_le.
Proof. intros a b c. unfold edge_le. lia. Qed.

Definition opt_ok (opt : pointer_scan_options_t) : Prop :=
  is_word 64 (target opt) /\ 0 <= depth opt < 2 ^ 32 /\ 0 <= alignment opt < 2 ^ 32 /\
  - 2 ^ 31 <= min_offset opt < 2 ^ 31 /\ - 2 ^ 31 <= max_offset opt < 2 ^ 31.

Definition eff_align (opt : pointer_scan_options_t) : Z := if alignment opt =? 0 then 1 else alignment opt.
Definition eff_max (opt : pointer_scan_options_t) : Z := Z.max (max_offset opt) (min_offset opt).
Definition eff_depth (opt : pointer_scan_options_t) : Z :=
  Z.min (if depth opt =? 0 then 1 else depth opt) max_pointer_depth.

(** Regions that end below 2^64 by the alignment and one qword, as the regions of a
    user-mode address space do. *)
Definition regions_fit (align : Z) (regions : list scan_region_t) : Prop :=
  Forall (fun g => 0 <= reg_base g /\ 0 <= reg_size g /\ reg_base g + reg_size g + align + 8 <= 2 ^ 64) regions.

Lemma spans_fit align regions :
  1 <= align -> regions_fit align regions ->
  Forall (fun '(b, e) => 0 <= b /\ e + align + 8 <= 2 ^ 64) (spans_of align regions).
Proof.
  intros Ha Hf. apply Forall_forall. intros [b e] Hin. unfold spans_of in Hin.
  apply list_elem_of_omap in Hin as (g & Hg & E).
  destruct (proj1 (Forall_forall _ _) Hf g Hg) as (H1 & H2 & H3).
  destruct (reg_size g <? 8); [done |].
  rewrite align_up_ceil, (wrap_small 64 (reg_base g + reg_size g)) in E by (unfold is_word; lia).
  destruct (_ <=? _); [done |]. injection E as <- <-.
  pose proof (ceil_to_spec align (reg_base g) Ha). lia.
Qed.

(** One hop of a chain in the target: the qword at [a], plus [o], is [dest]. *)
Definition hop {R} `{Reader R} (r : R) (opt : pointer_scan_options_t) (a o dest : Z) : Prop :=
  min_offset opt <= o <= eff_max opt /\ a mod eff_align opt = 0 /\
  exists d, read r a 8 = Some d /\ load_bits 8 d <> 0 /\ u64 (load_bits 8 d + o) = dest.

Definition byte_memory {R} `{ReaderOk R} (r : R) : Prop :=
  forall a b, mem r a = Some b -> 0 <= a < 2 ^ 64 /\ is_byte b.

Lemma edge_words {R} `{ReaderOk R} (r : R) align e :
  byte_memory r -> edge_at r align e -> is_word 64 (value e) /\ is_word 64 (holder e).
Proof.
  intros Hb (_ & _ & d & Hd & ->). apply read_Some in Hd as [Hl Hd]; [|lia]. split.
  - apply (load_bits_range 8). apply Forall_lookup. intros i x Hx.
    pose proof (lookup_lt_Some _ _ _ Hx) as Hi. unfold zlen in Hl.
    specialize (Hd (Z.of_nat i) ltac:(lia)). rewrite Nat2Z.id, Hx in Hd. destruct (Hb _ _ Hd) as [_ Hby]. exact Hby.
  - specialize (Hd 0 ltac:(lia)). rewrite Z.add_0_r in Hd.
    destruct d as [|x d]; [done |]. destruct (Hb _ _ Hd) as [Hw _]. exact Hw.
Qed.

(** C6: over regions that end far enough below 2^64 for the cursor of the sweep not
    to wrap, and options in their ranges, a pointer scan returns without reading
    outside a run, and every chain it returns is a real
    pointer path: it has between one and [depth] (at most seven) hops, each
    holder is an aligned address whose non-null qword in the target, plus the
    recorded offset, is the next holder of the chain or, for the last one, the
    target, and every offset is within the configured window. *)
Theorem pointer_scan_sound {R} `{ReaderOk R} (r : R) regions opt tok :
  byte_memory r -> opt_ok opt -> regions_fit (eff_align opt) regions ->
  exists chains st, pointer_scan r regions opt tok = Done (chains, st) /\
    Forall (fun c => length (addresses c) = length (offsets c) /\
              1 <= zlen (addresses c) <= eff_depth opt /\
              leads (target opt) (hop r opt) (zip (addresses c) (offsets c))) chains.
Proof.
  intros Hb (Ht & Hd & Ha & Hmn & Hmx) Hfit. unfold pointer_scan. cbv zeta.
  fold (eff_align opt) (eff_max opt) (eff_depth opt).
  assert (Hal : 1 <= eff_align opt) by (unfold eff_align; destruct (Z.eqb_spec (alignment opt) 0); lia).
  assert (Hdp : 0 <= eff_depth opt).
  { unfold eff_depth, max_pointer_depth. destruct (Z.eqb_spec (depth opt) 0); lia. }
  destruct (sweep_adds r (eff_align opt) Hal (spans_of (eff_align opt) regions) tok
    (mk_sweep [] (mk_stats 0 false false)) (spans_fit _ _ Hal Hfit)) as (s & tok1 & -> & (es & Es & Fs & _) & _).
  cbn in Es. destruct (cancelled tok1) as [stop tok2].
  set (c0 := was_cancelled (sw_stats s) || stop).
  set (lv := if negb _ && negb c0 then _ else _).
  assert (Hnodes : exists comp, nodes_done (target opt) (merge_sort edge_le (edges s)) (min_offset opt) (eff_max opt)
            (Z.to_nat (eff_depth opt)) comp lv.1.1).
  { set (srt := merge_sort edge_le (edges s)). assert (Hperm : srt ≡ₚ edges s) by apply merge_sort_Permutation.
    assert (Hroot : level_inv (target opt) srt (min_offset opt) (eff_max opt) 0 [root (target opt)] [0%nat] True)
      by (by apply level_inv_root).
    unfold lv. destruct (negb (bool_decide (edges s = [])) && negb c0).
    - destruct (levels _ _ _ _ _ _ _ _ _ _) as [[ns' t'] c'] eqn:Hlev.
      apply (levels_spec (target opt) srt (min_offset opt) (eff_max opt) (frontier_cap opt)) with (L := 0%nat) (comp := True) in Hlev
        as (_ & _ & _ & Hdone); [eexists; exact Hdone | | | lia | unfold eff_max; lia | unfold eff_max; lia | done].
      + apply StronglySorted_merge_sort; apply _.
      + apply Forall_forall. intros e He. rewrite Hperm, Es in He. apply (edge_words r (eff_align opt)); [done |].
        by apply (proj1 (Forall_forall _ _) Fs).
    - exists False. destruct Hroot. split; [done |]. split; [|done]. intros i Hi. etrans; [exact (li_depth0 i Hi) | lia]. }
  destruct lv as [[ns tr] ca]. cbn [fst] in Hnodes. destruct Hnodes as (comp & Hok & Hdep & _).
  destruct (build_chains _ _ ns _ [] tr) as [chains t'] eqn:Hbc.
  apply build_chains_spec in Hbc as [B1 _]. eexists _, _. split; [done |].
  apply Forall_forall. intros c Hc. apply B1 in Hc as [Hc|(i & Hi & ->)]; [by apply elem_of_nil in Hc |].
  apply elem_of_seq in Hi. cbn [addresses offsets]. rewrite zip_fst_snd.
  rewrite (chain_of_fuel (target opt) _ (min_offset opt) (eff_max opt) ns _ i Hok) by lia.
  split; [by rewrite !length_fmap |]. unfold zlen. rewrite length_fmap.
  destruct (lookup_lt_is_Some_2 ns i) as [nd Hnd]; [lia |]. split.
  - specialize (Hdep i ltac:(lia)). split; [|lia].
    destruct (proj2 Hok i nd Hnd ltac:(lia)) as (p & pn & Hp & Hpar & _).
    rewrite (chain_S (target opt) _ (min_offset opt) (eff_max opt) ns i nd p) by (done || lia). cbn [length]. lia.
  - destruct (chain_ok (target opt) _ (min_offset opt) (eff_max opt) ns i nd Hok Hnd) as [_ Hl].
    revert Hl. generalize (chain ns i). intros l. induction l as [|[a o] l IHl]; [done |].
    cbn [leads]. intros [(Ho & e & He & Hh & Hv) Hl]. split; [|by apply IHl].
    rewrite (merge_sort_Permutation edge_le (edges s)), Es in He.
    destruct (proj1 (Forall_forall _ _) Fs e He) as (Hm & Hnz & d & Hrd & Hve).
    subst a. split; [done |]. split; [done |]. exists d. by rewrite <- Hve.
Qed.

(** A hop whose holder the sweep reaches: it lies inside one readable span, in one
    of its 1 MiB chunks, and no address involved is in the upper half. *)
Definition swept_hop {R} `{ReaderOk R} (r : R) (regions : list scan_region_t)
    (opt : pointer_scan_options_t) (a o dest : Z) : Prop :=
  min_offset opt <= o <= eff_max opt /\ 0 <= dest < 2 ^ 63 /\ a mod eff_align opt = 0 /\
  (exists d, read r a 8 = Some d /\ load_bits 8 d <> 0 /\ load_bits 8 d + o = dest) /\
  exists b e, (b, e) ∈ spans_of (eff_align opt) regions /\ swept r b e a.

(** C5: over regions that end far enough below 2^64 for the cursor of the sweep not
    to wrap, without the module-backed option, an uncancelled pointer scan that is
    not flagged truncated misses no path over the memory it sweeps: every chain of
    at most [depth] hops with every offset in the window is among its results,
    where each holder is an aligned qword inside one 1 MiB chunk of a wholly
    readable span and each destination is in the lower half of the address space. *)
Theorem pointer_scan_complete {R} `{ReaderOk R} (r : R) regions opt chains st c :
  byte_memory r -> opt_ok opt -> regions_fit (eff_align opt) regions -> only_module_backed opt = false ->
  pointer_scan r regions opt None = Done (chains, st) -> truncated st = false ->
  1 <= zlen c <= eff_depth opt -> leads (target opt) (swept_hop r regions opt) c ->
  mk_chain c.*1 c.*2 ∈ chains.
Proof.
  intros Hb (Ht & Hd & Ha & Hmn & Hmx) Hfit Hmo. unfold pointer_scan. cbv zeta.
  fold (eff_align opt) (eff_max opt) (eff_depth opt). rewrite Hmo.
  assert (Hal : 1 <= eff_align opt) by (unfold eff_align; destruct (Z.eqb_spec (alignment opt) 0); lia).
  destruct (sweep_adds r (eff_align opt) Hal (spans_of (eff_align opt) regions) None
    (mk_sweep [] (mk_stats 0 false false)) (spans_fit _ _ Hal Hfit)) as (s & tok1 & -> & (es & Es & Fs & Cs) & Hn).
  destruct (Hn eq_refl) as [-> Hc]. cbn in Es, Hc. cbn [cancelled]. rewrite Hc. cbn [orb].
  set (srt := merge_sort edge_le (edges s)). assert (Hperm : srt ≡ₚ edges s) by apply merge_sort_Permutation.
  destruct (levels srt (min_offset opt) (eff_max opt) (frontier_cap opt) (Z.to_nat (eff_depth opt))
    [0%nat] None [mk_node (target opt) (-1) 0] (truncated (sw_stats s)) false) as [[ns' t'] c'] eqn:Hlev.
  apply (levels_spec (target opt) srt (min_offset opt) (eff_max opt) (frontier_cap opt)) with (L := 0%nat) (comp := True) in Hlev
    as (Htr & _ & _ & Hok & _ & Hall);
    [ | | | lia | unfold eff_max; lia | unfold eff_max; lia | by apply level_inv_root].
  2: apply StronglySorted_merge_sort; apply _.
  2:{ apply Forall_forall. intros e He. rewrite Hperm, Es in He. apply (edge_words r (eff_align opt)); [done |].
      by apply (proj1 (Forall_forall _ _) Fs). }
  intros Hscan Hst Hlen Hlead.
  assert (Hedge : truncated (sw_stats s) = false -> leads (target opt) (plain_link srt (min_offset opt) (eff_max opt)) c).
  { intros Htrs. destruct (Cs Htrs) as [_ Call]. clear Hlen. induction c as [|[a o] c IHc]; [done |].
    destruct Hlead as [(Ho & Hdst & Hm & (d & Hrd & Hnz & Hv) & b & e & Hspan & Hsw) Hlead].
    split; [|by apply IHc]. split; [done |]. split; [done |]. exists (mk_edge (load_bits 8 d) a).
    split; [|done]. rewrite Hperm, Es. apply Call. split; [done |]. split.
    - split; [done |]. split; [done |]. by exists d.
    - by exists b, e. }
  destruct (bool_decide_reflect (edges s = [])) as [E|E]; cbn [negb andb] in Hscan.
  - exfalso. destruct (build_chains _ _ _ _ _ _) as [ch' tr'] eqn:Hbc.
    apply build_chains_spec in Hbc as [_ B2]. injection Hscan as <- <-. cbn in Hst.
    destruct (B2 Hst) as (Htrs & _). specialize (Hedge Htrs).
    destruct c as [|[a o] c]; [unfold zlen in Hlen; cbn in Hlen; lia |].
    destruct Hedge as [(_ & _ & e & He & _) _]. rewrite Hperm, E in He. by apply elem_of_nil in He.
  - destruct (build_chains _ _ ns' _ [] t') as [ch' tr'] eqn:Hbc.
    apply build_chains_spec in Hbc as [_ B2]. injection Hscan as <- <-. cbn in Hst.
    destruct (B2 Hst) as (Htrs & _ & Hin). specialize (Hedge (Htr Htrs)).
    destruct (Hall ltac:(by split_and!) c Hedge) as (i & Hi & Hch); [unfold zlen in Hlen; lia |].
    specialize (Hin eq_refl i ltac:(apply elem_of_seq; lia)).
    rewrite (chain_of_fuel (target opt) srt (min_offset opt) (eff_max opt) ns' _ i Hok) in Hin by lia.
    by rewrite Hch in Hin.
Qed.

(** A two-hop target: 64 holds 96, 100 holds 200 (the target is 204). *)
Definition demo_mem : Paged.t :=
  [(64, [96; 0; 0; 0; 0; 0; 0; 0; 0; 0; 0; 0; 0; 0; 0; 0]);
   (96, [0; 0; 0; 0; 200; 0; 0; 0; 0; 0; 0; 0; 0; 0; 0; 0])].
Definition demo_regions : list scan_region_t := [mk_region 64 16 4 16777216; mk_region 96 16 4 131072].
Definition demo_opt (module_only : bool) : pointer_scan_options_t :=
  mk_opts 204 2 0 8 4 100 module_only.

Lemma demo_bytes : byte_memory demo_mem.
Proof.
  intros a b Hab. unfold mem, Paged.reader_ok, demo_mem in Hab. cbn [Paged.byte_of] in Hab.
  unfold zlen in Hab. cbn [length] in Hab.
  repeat match type of Hab with (if ?c then _ else _) = _ => destruct c eqn:? end; try done.
  all: match goal with E : _ && _ = true |- _ => apply andb_prop in E as [E1 E2];
         apply Z.leb_le in E1; apply Z.ltb_lt in E2 end.
  all: split; [lia |].
  all: apply list_elem_of_lookup_2 in Hab; repeat apply elem_of_cons in Hab as [->|Hab];
    try (unfold is_word; lia); by apply elem_of_nil in Hab.
Qed.

Lemma pointer_scan_sound_witness :
  exists chains st, pointer_scan demo_mem demo_regions (demo_opt false) None = Done (chains, st) /\
    chains = [mk_chain [100] [4]; mk_chain [64; 100] [4; 4]] /\
    Forall (fun c => leads 204 (hop demo_mem (demo_opt false)) (zip (addresses c) (offsets c))) chains.
Proof.
  destruct (pointer_scan_sound demo_mem demo_regions (demo_opt false) None demo_bytes) as (ch & st & E & F).
  - unfold opt_ok, is_word; cbn; lia.
  - repeat constructor; cbn; lia.
  - exists ch, st. split; [exact E |]. split.
    + vm_compute in E. by injection E as <- _.
    + eapply Forall_impl; [exact F |]. intros c (_ & _ & Hc). exact Hc.
Defined.

Lemma pointer_scan_complete_witness :
  mk_chain [64; 100] [4; 4] ∈ [mk_chain [100] [4]; mk_chain [64; 100] [4; 4]].
Proof.
  apply (pointer_scan_complete demo_mem demo_regions (demo_opt false)
           [mk_chain [100] [4]; mk_chain [64; 100] [4; 4]] (mk_stats 3 false false) [(64, 4); (100, 4)] demo_bytes).
  - unfold opt_ok, is_word; cbn; lia.
  - repeat constructor; cbn; lia.
  - reflexivity.
  - vm_compute. reflexivity.
  - reflexivity.
  - vm_compute. split; discriminate.
  - split; [|split; [|exact I]]; (split; [vm_compute; split; discriminate |]; split; [vm_compute; split; [discriminate | reflexivity] |];
      split; [reflexivity |]; split).
    + eexists. split; [vm_compute; reflexivity |]. split; [discriminate | reflexivity].
    + exists 64, 80. split; [by left |]. split.
      * apply (read_is_Some demo_mem); [lia |]. vm_compute. by eexists.
      * exists 0. unfold kChunk. lia.
    + eexists. split; [vm_compute; reflexivity |]. split; [discriminate | reflexivity].
    + exists 96, 112. split; [by right; left |]. split.
      * apply (read_is_Some demo_mem); [lia |]. vm_compute. by eexists.
      * exists 0. unfold kChunk. lia.
Defined.

(** "roots must live in MEM_IMAGE regions" is checked at the wrong end of the
    chain.  The parent walk starts at the root-most holder and stops at the one
    next to the target, so with the module-backed option the scan drops the path
    whose root 64 is in the image region, because its last holder 100 is not; and
    with the region types swapped it keeps that path although its root 64 is not
    module backed. *)
Lemma module_filter_checks_last_holder :
  in_module_backed 64 demo_regions = true /\
  pointer_scan demo_mem demo_regions (demo_opt true) None = Done ([], mk_stats 3 false false) /\
  let swapped := [mk_region 64 16 4 131072; mk_region 96 16 4 16777216] in
  in_module_backed 64 swapped = false /\
  pointer_scan demo_mem swapped (demo_opt true) None =
    Done ([mk_chain [100] [4]; mk_chain [64; 100] [4; 4]], mk_stats 3 false false).
Proof. cbv zeta. split_and!; vm_compute; reflexivity. Qed.

(** Nothing keeps the cursor of a run from wrapping.  In a region that ends at
    2^64 - 8, scanned with alignment 16, the cursor after the holder 2^64 - 16 is 0,
    which passes [p + 8 <= run_end], and the next load is outside the run. *)
Definition top_mem : Paged.t := [(2 ^ 64 - 32, replicate 24 0)].

Lemma sweep_runs_off_the_top :
  pointer_scan top_mem [mk_region (2 ^ 64 - 32) 24 4 131072] (mk_opts 204 1 0 8 16 100 false) None = Crash.
Proof. vm_compute. reflexivity. Qed.
