(* ===== verification/Taint.v ===== *)
(** * Taint tracking: src/core/emu/taint.cpp

    The page-backed memory shadow, the register taint map, the per-instruction
    driver (boundary, analyze, note calls) and the range report.  The shadow is
    proved to implement a set of tainted addresses. *)

From S2P Require Import Prelude.

#[local] Open Scope Z_scope.

Definition kPageBits : Z := 4096.
Definition kPageBytes : Z := 512.
Definition event_cap : Z := 512.

Record taint_range_t := mk_range { r_addr : Z; r_len : Z }.
Record taint_event_t := mk_event { e_ip : Z; e_insn : list Z; e_kind : list Z; e_target : list Z }.
Record deferred_dest_t := mk_dest { canonical : Z; zeroing : bool; d_name : list Z }.
Record insn_sources_t := mk_sources { s_regs_tainted : bool; reads_memory : bool; dests : list deferred_dest_t }.

Record taint_tracker_t := mk_tracker {
  pages_ : gmap Z (list Z);
  reg_taint_ : gmap Z bool;
  read_flag_ : bool;
  src_regs_tainted_ : bool;
  cur_ : insn_sources_t;
  cur_ip_ : Z;
  cur_text_ : list Z;
  events_ : list taint_event_t
}.

Definition no_sources : insn_sources_t := mk_sources false false [].
Definition reset : taint_tracker_t := mk_tracker ∅ ∅ false false no_sources 0 [] [].

Definition set_pages (p : gmap Z (list Z)) (t : taint_tracker_t) : taint_tracker_t :=
  mk_tracker p (reg_taint_ t) (read_flag_ t) (src_regs_tainted_ t) (cur_ t) (cur_ip_ t) (cur_text_ t) (events_ t).
Definition set_regs (r : gmap Z bool) (t : taint_tracker_t) : taint_tracker_t :=
  mk_tracker (pages_ t) r (read_flag_ t) (src_regs_tainted_ t) (cur_ t) (cur_ip_ t) (cur_text_ t) (events_ t).
Definition set_read_flag (b : bool) (t : taint_tracker_t) : taint_tracker_t :=
  mk_tracker (pages_ t) (reg_taint_ t) b (src_regs_tainted_ t) (cur_ t) (cur_ip_ t) (cur_text_ t) (events_ t).
Definition set_events (e : list taint_event_t) (t : taint_tracker_t) : taint_tracker_t :=
  mk_tracker (pages_ t) (reg_taint_ t) (read_flag_ t) (src_regs_tainted_ t) (cur_ t) (cur_ip_ t) (cur_text_ t) e.

(** ** Memory shadow *)

(** [bm[bit >> 3] & (1u << (bit & 7))] *)
Definition test_bit (bm : list Z) (bit : Z) : bool :=
  match bm !! Z.to_nat (Z.shiftr bit 3) with Some b => Z.testbit b (Z.land bit 7) | None => false end.

(** [bm[bit >> 3] |= 1u << (bit & 7)] *)
Definition set_bit (bm : list Z) (bit : Z) : list Z :=
  alter (fun b => Z.lor b (Z.shiftl 1 (Z.land bit 7))) (Z.to_nat (Z.shiftr bit 3)) bm.

(** [bm.resize(kPageBytes, 0)] *)
Definition fresh_page : list Z := replicate (Z.to_nat kPageBytes) 0.

Definition mark_byte (p : gmap Z (list Z)) (a : Z) : gmap Z (list Z) :=
  let bm := default [] (p !! (a / kPageBits)) in
  let bm := if bool_decide (bm = []) then fresh_page else bm in
  <[a / kPageBits := set_bit bm (a mod kPageBits)]> p.

Definition mark_memory (addr len : Z) (t : taint_tracker_t) : taint_tracker_t :=
  set_pages (foldl (fun p i => mark_byte p (u64 (addr + i))) (pages_ t) (seqZ 0 len)) t.

Definition byte_tainted (p : gmap Z (list Z)) (a : Z) : bool :=
  match p !! (a / kPageBits) with Some bm => test_bit bm (a mod kPageBits) | None => false end.

Definition memory_any (t : taint_tracker_t) (addr len : Z) : bool :=
  existsb (fun i => byte_tainted (pages_ t) (u64 (addr + i))) (seqZ 0 len).

(** ** Registers *)

Definition set_reg (c : Z) (tainted : bool) (t : taint_tracker_t) : taint_tracker_t :=
  if c =? 0 then t else set_regs (<[c := tainted]> (reg_taint_ t)) t.

Definition reg (t : taint_tracker_t) (c : Z) : bool :=
  if c =? 0 then false else default false (reg_taint_ t !! c).

(** ** The driver *)

(** The loop over the deferred destinations; [true] is the return at the event cap. *)
Fixpoint resolve (ds : list deferred_dest_t) (dest_taint : bool) (t : taint_tracker_t)
  : bool * taint_tracker_t :=
  match ds with
  | [] => (false, t)
  | d :: ds' =>
      let value := if zeroing d then false else dest_taint in
      let prev := reg t (canonical d) in
      let t1 := set_reg (canonical d) value t in
      if value && negb prev && negb (bool_decide (d_name d = [])) then
        let t2 := set_events (events_ t1 ++ [mk_event (cur_ip_ t1) (cur_text_ t1) (bs "reg") (d_name d)]) t1 in
        if event_cap <=? zlen (events_ t2) then (true, t2) else resolve ds' dest_taint t2
      else resolve ds' dest_taint t1
  end.

Definition boundary (t : taint_tracker_t) : taint_tracker_t :=
  if bool_decide (dests (cur_ t) = []) then set_read_flag false t
  else
    let dest_taint := src_regs_tainted_ t || (reads_memory (cur_ t) && read_flag_ t) in
    match resolve (dests (cur_ t)) dest_taint t with
    | (true, t') => t'
    | (false, t') => set_read_flag false t'
    end.

Definition analyze (ip : Z) (text : list Z) (src : insn_sources_t) (t : taint_tracker_t) : taint_tracker_t :=
  mk_tracker (pages_ t) (reg_taint_ t) (read_flag_ t) (s_regs_tainted src) src ip text (events_ t).

Definition note_mem_read (addr len : Z) (t : taint_tracker_t) : bool * taint_tracker_t :=
  if memory_any t addr len then (true, set_read_flag true t) else (false, t).

Definition note_mem_write (t : taint_tracker_t) : bool := read_flag_ t || src_regs_tainted_ t.

Definition record_event (e : taint_event_t) (t : taint_tracker_t) : taint_tracker_t :=
  if zlen (events_ t) <? event_cap then set_events (events_ t ++ [e]) t else t.

(** ** Ranges *)

Record run_t := mk_run { out : list taint_range_t; run_start : Z; in_run : bool }.

(** The bits of one page from [bit]; [inl] is the return at the limit. *)
Fixpoint scan_bits (max_ranges : Z) (ts : list bool) (addr : Z) (s : run_t) : list taint_range_t + run_t :=
  match ts with
  | [] => inr s
  | t :: ts' =>
      if t && negb (in_run s) then scan_bits max_ranges ts' (addr + 1) (mk_run (out s) addr true)
      else if negb t && in_run s then
        if max_ranges <=? zlen (out s) then inl (out s)
        else scan_bits max_ranges ts' (addr + 1)
               (mk_run (out s ++ [mk_range (run_start s) (addr - run_start s)]) (run_start s) false)
      else scan_bits max_ranges ts' (addr + 1) s
  end.

Definition page_bits (bm : list Z) : list bool := test_bit bm <$> seqZ 0 kPageBits.

Fixpoint scan_pages (max_ranges : Z) (ps : list (Z * list Z)) (s : run_t) : list taint_range_t + run_t :=
  match ps with
  | [] => inr s
  | (page, bm) :: ps' =>
      match scan_bits max_ranges (page_bits bm) (page * kPageBits) s with
      | inl o => inl o
      | inr s' => scan_pages max_ranges ps' s'
      end
  end.

(** Iteration order of [std::map]. *)
Definition page_le (a b : Z * list Z) : Prop := a.1 <= b.1.
#[global] Instance page_le_dec : RelDecision page_le.
Proof. intros a b. unfold page_le. apply _. Defined.
Definition page_list (p : gmap Z (list Z)) : list (Z * list Z) := merge_sort page_le (map_to_list p).

Definition tainted_ranges (max_ranges : Z) (t : taint_tracker_t) : list taint_range_t :=
  match scan_pages max_ranges (page_list (pages_ t)) (mk_run [] 0 false) with
  | inl o => o
  | inr s => if in_run s && (zlen (out s) <? max_ranges)
             then out s ++ [mk_range (run_start s) kPageBits] else out s
  end.

(** ** The shadow implements a set of addresses *)

(** Every page that exists has its full bitmap of bytes. *)
Definition pages_ok (p : gmap Z (list Z)) : Prop :=
  forall k bm, p !! k = Some bm -> length bm = Z.to_nat kPageBytes.

Lemma bit_index b : 0 <= b < kPageBits -> 0 <= Z.shiftr b 3 < kPageBytes /\ 0 <= Z.land b 7 < 8 /\
  b = 8 * Z.shiftr b 3 + Z.land b 7.
Proof.
  unfold kPageBits, kPageBytes. intros Hb. rewrite Z.shiftr_div_pow2 by lia. change (2 ^ 3) with 8.
  change 7 with (Z.ones 3). rewrite Z.land_ones by lia. change (2 ^ 3) with 8.
  pose proof (Z.div_mod b 8 ltac:(lia)). pose proof (Z.mod_pos_bound b 8 ltac:(lia)). lia.
Qed.

Lemma test_set_bit bm b b' :
  length bm = Z.to_nat kPageBytes -> 0 <= b < kPageBits -> 0 <= b' < kPageBits ->
  test_bit (set_bit bm b) b' = (b =? b') || test_bit bm b'.
Proof.
  intros Hl Hb Hb'. destruct (bit_index b Hb) as (Hs & Hm & He), (bit_index b' Hb') as (Hs' & Hm' & He').
  unfold test_bit, set_bit.
  destruct (decide (Z.shiftr b 3 = Z.shiftr b' 3)) as [E|E].
  - rewrite E, list_lookup_alter_eq.
    destruct (lookup_lt_is_Some_2 bm (Z.to_nat (Z.shiftr b' 3))) as [x Hx]; [lia |].
    rewrite Hx. cbn. rewrite Z.lor_spec, Z.shiftl_spec by lia.
    replace (Z.testbit 1 (Z.land b' 7 - Z.land b 7)) with (b =? b'); [apply orb_comm |].
    destruct (Z.eqb_spec b b') as [->|Hne]; [by rewrite Z.sub_diag |].
    symmetry.
    destruct (Z_lt_le_dec (Z.land b' 7 - Z.land b 7) 0) as [Hlt|Hge]; [by apply Z.testbit_neg_r |].
    rewrite (Z.bits_above_log2 1); [done | lia | change (Z.log2 1) with 0; lia].
  - rewrite list_lookup_alter_ne by lia. destruct (Z.eqb_spec b b') as [->|Hne]; [done | done].
Qed.

Lemma mark_byte_ok p a : 0 <= a -> pages_ok p -> pages_ok (mark_byte p a).
Proof.
  intros Ha Hok k bm. unfold mark_byte. destruct (decide (a / kPageBits = k)) as [->|Hne].
  - rewrite lookup_insert_eq. intros E0. apply (inj Some) in E0. subst bm.
    unfold set_bit. rewrite length_alter.
    destruct (bool_decide_reflect (default [] (p !! k) = [])) as [E|E].
    + apply length_replicate.
    + destruct (p !! k) as [bm|] eqn:Hp; [by apply (Hok k) | done].
  - rewrite lookup_insert_ne by done. apply Hok.
Qed.

Lemma test_bit_zero b : test_bit fresh_page b = false.
Proof.
  unfold test_bit, fresh_page. destruct (_ !! _) as [x|] eqn:E; [|done].
  apply lookup_replicate in E as [-> _]. apply Z.testbit_0_l.
Qed.

Lemma mark_byte_spec p a x :
  pages_ok p -> 0 <= a -> 0 <= x -> byte_tainted (mark_byte p a) x = (a =? x) || byte_tainted p x.
Proof.
  intros Hok Ha Hx. unfold byte_tainted, mark_byte.
  assert (Hpb : forall z, 0 <= z mod kPageBits < kPageBits) by (intros z; apply Z.mod_pos_bound; done).
  destruct (decide (a / kPageBits = x / kPageBits)) as [E|E].
  - rewrite E, lookup_insert_eq. set (k := x / kPageBits).
    assert (Hax : (a mod kPageBits =? x mod kPageBits) = (a =? x)).
    { pose proof (Z.div_mod a kPageBits ltac:(done)). pose proof (Z.div_mod x kPageBits ltac:(done)).
      destruct (Z.eqb_spec (a mod kPageBits) (x mod kPageBits)), (Z.eqb_spec a x); try done; [lia | congruence]. }
    destruct (bool_decide_reflect (default [] (p !! k) = [])) as [Ed|Ed].
    + rewrite test_set_bit, test_bit_zero, Hax; [| apply length_replicate | done | done].
      destruct (p !! k) as [bm|] eqn:Hp; [|done]. cbn in Ed. subst bm. pose proof (Hok k [] Hp). done.
    + destruct (p !! k) as [bm|] eqn:Hp; [|done]. cbn [default from_option id].
      rewrite test_set_bit, Hax; [done | by apply (Hok k) | done | done].
  - rewrite lookup_insert_ne by done. destruct (Z.eqb_spec a x) as [->|]; [done | done].
Qed.

Lemma mark_memory_pages addr is_ p x :
  pages_ok p -> 0 <= x ->
  pages_ok (foldl (fun p i => mark_byte p (u64 (addr + i))) p is_) /\
  byte_tainted (foldl (fun p i => mark_byte p (u64 (addr + i))) p is_) x =
    existsb (fun i => u64 (addr + i) =? x) is_ || byte_tainted p x.
Proof.
  intros Hok Hx. revert p Hok. induction is_ as [|i is_ IH]; intros p Hok; cbn [foldl existsb]; [done |].
  pose proof (wrap_range 64 (addr + i) ltac:(lia)) as Hw. unfold is_word in Hw.
  destruct (IH (mark_byte p (u64 (addr + i)))) as [H1 H2]; [apply mark_byte_ok; (done || lia) |].
  split; [done |]. rewrite H2, mark_byte_spec by (done || lia).
  destruct (_ =? x), (existsb _ is_); done.
Qed.

(** Addresses the tracker considers tainted. *)
Definition tainted (t : taint_tracker_t) (a : Z) : Prop := byte_tainted (pages_ t) a = true.

(** C25: the page-backed shadow implements a set of tainted bytes: a reset empties it;
    over bitmaps of their full size, marking a range adds exactly its bytes (modulo
    2^64), leaves every other byte and the registers alone and keeps the bitmaps at
    their full size, and a query over a range is true iff some byte of it is in the
    set. *)
Theorem shadow_is_a_set t addr len x qaddr qlen :
  pages_ok (pages_ t) -> is_word 64 x ->
  pages_ok (pages_ (mark_memory addr len t)) /\
  (tainted (mark_memory addr len t) x <->
     tainted t x \/ exists i, 0 <= i < len /\ x = u64 (addr + i)) /\
  reg_taint_ (mark_memory addr len t) = reg_taint_ t /\
  (memory_any t qaddr qlen = true <-> exists i, 0 <= i < qlen /\ tainted t (u64 (qaddr + i))) /\
  pages_ok (pages_ reset) /\ ~ tainted reset x.
Proof.
  intros Hok [Hx _]. unfold tainted, mark_memory. cbn [pages_ set_pages reg_taint_].
  destruct (mark_memory_pages addr (seqZ 0 len) (pages_ t) x Hok Hx) as [H1 H2].
  split; [done |]. split; [|split; [done |split; [|split]]].
  - rewrite H2, orb_true_iff, existsb_exists. split.
    + intros [(i & Hi & E)|Ht]; [right | by left]. apply list_elem_of_In, elem_of_seqZ in Hi.
      apply Z.eqb_eq in E. exists i. split; [lia | done].
    + intros [Ht|(i & Hi & ->)]; [by right | left]. exists i. split; [|by apply Z.eqb_eq].
      apply list_elem_of_In, elem_of_seqZ. lia.
  - unfold memory_any. rewrite existsb_exists. split; intros (i & Hi & E); exists i.
    + apply list_elem_of_In, elem_of_seqZ in Hi. split; [lia | done].
    + split; [apply list_elem_of_In, elem_of_seqZ; lia | done].
  - intros k bm Hk. change (pages_ reset) with (∅ : gmap Z (list Z)) in Hk. by rewrite lookup_empty in Hk.
  - unfold byte_tainted. change (pages_ reset) with (∅ : gmap Z (list Z)). by rewrite lookup_empty.
Qed.

Lemma shadow_is_a_set_witness :
  tainted (mark_memory (2 ^ 64 - 1) 2 reset) 0 <->
    tainted reset 0 \/ exists i, 0 <= i < 2 /\ 0 = u64 (2 ^ 64 - 1 + i).
Proof.
  apply (shadow_is_a_set reset (2 ^ 64 - 1) 2 0 0 0).
  - intros k bm Hk. change (pages_ reset) with (∅ : gmap Z (list Z)) in Hk. by rewrite lookup_empty in Hk.
  - unfold is_word. lia.
Defined.

(** ** The driver resolves destinations as the taint policy says *)

(** The last destination of register [c], if any. *)
Definition last_dest (ds : list deferred_dest_t) (c : Z) : option deferred_dest_t :=
  last (filter (fun d => canonical d = c) ds).

Lemma reg_set_reg t c c' b :
  c' <> 0 -> reg (set_reg c b t) c' = if c =? c' then b else reg t c'.
Proof.
  intros Hc'. unfold reg, set_reg. destruct (Z.eqb_spec c' 0); [done |].
  destruct (Z.eqb_spec c 0) as [->|Hc].
  - destruct (Z.eqb_spec 0 c'); congruence.
  - cbn [reg_taint_ set_regs]. destruct (Z.eqb_spec c c') as [->|Hne].
    + by rewrite lookup_insert_eq.
    + by rewrite lookup_insert_ne.
Qed.

Lemma resolve_spec ds v t :
  zlen (events_ t) + zlen ds < event_cap ->
  exists t', resolve ds v t = (false, t') /\
    (forall c, c <> 0 -> reg t' c =
       match last_dest ds c with
       | Some d => if zeroing d then false else v
       | None => reg t c
       end) /\
    pages_ t' = pages_ t /\ cur_ t' = cur_ t /\ src_regs_tainted_ t' = src_regs_tainted_ t.
Proof.
  revert t. induction ds as [|d ds IH]; intros t Hcap; cbn [resolve].
  { exists t. split_and!; try done. }
  set (value := if zeroing d then false else v).
  set (t1 := set_reg (canonical d) value t).
  assert (Hreg1 : forall c, c <> 0 -> reg t1 c = if canonical d =? c then value else reg t c)
    by (intros c Hc; by apply reg_set_reg).
  assert (Hsame : pages_ t1 = pages_ t /\ cur_ t1 = cur_ t /\ src_regs_tainted_ t1 = src_regs_tainted_ t /\
            events_ t1 = events_ t).
  { subst t1. unfold set_reg. by destruct (_ =? 0). }
  destruct Hsame as (S1 & S2 & S3 & S4).
  assert (Hlast : forall c, last_dest (d :: ds) c =
    match last_dest ds c with Some d' => Some d' | None => if canonical d =? c then Some d else None end).
  { intros c. unfold last_dest. rewrite filter_cons. destruct (decide (canonical d = c)) as [E|E].
    - rewrite last_cons, (proj2 (Z.eqb_eq _ _)) by done. done.
    - rewrite (proj2 (Z.eqb_neq _ _)) by done. by destruct (last _). }
  assert (Hstep : forall t2, reg_taint_ t2 = reg_taint_ t1 -> pages_ t2 = pages_ t1 -> cur_ t2 = cur_ t1 ->
    src_regs_tainted_ t2 = src_regs_tainted_ t1 -> zlen (events_ t2) + zlen ds < event_cap ->
    exists t', resolve ds v t2 = (false, t') /\
      (forall c, c <> 0 -> reg t' c = match last_dest (d :: ds) c with
         | Some d => if zeroing d then false else v | None => reg t c end) /\
      pages_ t' = pages_ t /\ cur_ t' = cur_ t /\ src_regs_tainted_ t' = src_regs_tainted_ t).
  { intros t2 E1 E2 E3 E4 Hc2. destruct (IH t2 Hc2) as (t' & -> & Hr & P1 & P2 & P3).
    exists t'. split_and!; try congruence. intros c Hc. rewrite Hr, Hlast by done.
    destruct (last_dest ds c); [done |].
    transitivity (reg t1 c); [unfold reg; by rewrite E1 |]. rewrite Hreg1 by done.
    by destruct (canonical d =? c). }
  unfold zlen in *. cbn [length] in Hcap.
  destruct (value && negb _ && _).
  - rewrite (proj2 (Z.leb_gt event_cap _)).
    + apply Hstep; try done. cbn [events_ set_events]. rewrite S4, length_app. cbn [length]. lia.
    + cbn [events_ set_events]. rewrite S4, length_app. cbn [length]. lia.
  - apply Hstep; try done. rewrite S4. lia.
Qed.

(** One instruction of the emulator: decode, its memory reads, the next boundary. *)
Definition run_insn (ip : Z) (text : list Z) (src : insn_sources_t) (reads : list (Z * Z))
    (t : taint_tracker_t) : taint_tracker_t :=
  boundary (foldl (fun t '(a, n) => (note_mem_read a n t).2) (analyze ip text src t) reads).

Lemma note_reads reads t :
  let t' := foldl (fun t '(a, n) => (note_mem_read a n t).2) t reads in
  t' = set_read_flag (read_flag_ t || existsb (fun '(a, n) => memory_any t a n) reads) t.
Proof.
  revert t. induction reads as [|[a n] reads IH]; intros t; cbn [foldl existsb].
  - rewrite orb_false_r. by destruct t.
  - cbv zeta in *. rewrite IH. unfold note_mem_read.
    destruct (memory_any t a n) eqn:E; cbn [snd orb].
    + cbn [read_flag_ set_read_flag]. rewrite orb_true_r. done.
    + done.
Qed.


Definition demo_src : insn_sources_t := mk_sources false true [mk_dest 5 false (bs "rax"); mk_dest 7 true (bs "rbx")].


(** The event cap stops propagation, not only reporting.  With 511 events
    recorded, an instruction with two tainted destinations fills the list at the
    first one; the second register keeps its old state and the read flag stays
    set, so the next instruction's stores look tainted. *)
Lemma event_cap_loses_taint :
  let evs := replicate 511 (mk_event 0 [] [] []) in
  let src := mk_sources true false [mk_dest 5 false (bs "rax"); mk_dest 7 false (bs "rbx")] in
  let t := mk_tracker ∅ ∅ true true src 0 [] evs in
  reg (boundary t) 5 = true /\ reg (boundary t) 7 = false /\ read_flag_ (boundary t) = true /\
  note_mem_write (analyze 1 [] no_sources (boundary t)) = true.
Proof. cbv zeta. split_and!; vm_compute; reflexivity. Qed.

(** ** The range report *)

Definition covers (l : list taint_range_t) (a : Z) : Prop :=
  exists rg, rg ∈ l /\ r_addr rg <= a < r_addr rg + r_len rg.

(** What a scan state has reported up to [addr]. *)
Definition reported (s : run_t) (addr a : Z) : Prop :=
  covers (out s) a \/ (in_run s = true /\ run_start s <= a < addr).

Definition run_ok (s : run_t) (addr : Z) : Prop := in_run s = true -> run_start s < addr.

Lemma covers_app l l' a : covers (l ++ l') a <-> covers l a \/ covers l' a.
Proof.
  unfold covers. split.
  - intros (rg & Hin & Ha). apply elem_of_app in Hin as [?|?]; [left | right]; by exists rg.
  - intros [(rg & Hin & Ha)|(rg & Hin & Ha)]; exists rg; split; try done; apply elem_of_app; auto.
Qed.

Lemma covers_one x n a : covers [mk_range x n] a <-> x <= a < x + n.
Proof.
  unfold covers. split; [intros (rg & Hin & Ha); apply list_elem_of_singleton in Hin; by subst |].
  intros Ha. exists (mk_range x n). split; [by left | done].
Qed.

Lemma scan_bits_spec mx ts addr s :
  run_ok s addr ->
  match scan_bits mx ts addr s with
  | inl o => mx <= zlen o
  | inr s' =>
      run_ok s' (addr + zlen ts) /\ in_run s' = default (in_run s) (last ts) /\
      forall a, reported s' (addr + zlen ts) a <->
        reported s addr a \/ exists i : nat, ts !! i = Some true /\ a = addr + Z.of_nat i
  end.
Proof.
  revert addr s. induction ts as [|t ts IH]; intros addr s Hok; cbn [scan_bits].
  { unfold zlen. cbn [length]. rewrite Z.add_0_r. split_and!; [done | done |].
    intros a. split; [auto |]. intros [?|(i & Hi & _)]; [done | by rewrite lookup_nil in Hi]. }
  assert (Hcont : forall s1, run_ok s1 (addr + 1) -> in_run s1 = t ->
    (forall a, reported s1 (addr + 1) a <-> reported s addr a \/ (t = true /\ a = addr)) ->
    match scan_bits mx ts (addr + 1) s1 with
    | inl o => mx <= zlen o
    | inr s' => run_ok s' (addr + zlen (t :: ts)) /\ in_run s' = default (in_run s) (last (t :: ts)) /\
        forall a, reported s' (addr + zlen (t :: ts)) a <->
          reported s addr a \/ exists i : nat, (t :: ts) !! i = Some true /\ a = addr + Z.of_nat i
    end).
  { intros s1 Hok1 Hin1 Hrep. specialize (IH (addr + 1) s1 Hok1).
    destruct (scan_bits mx ts (addr + 1) s1) as [o|s']; [done |]. destruct IH as (I1 & I2 & I3).
    replace (addr + zlen (t :: ts)) with (addr + 1 + zlen ts) by (unfold zlen; cbn [length]; lia).
    split; [done |]. split; [rewrite I2, Hin1, last_cons; by destruct (last ts) |].
    intros a. rewrite I3, Hrep. split.
    - intros [[?|[-> ->]]|(i & Hi & ->)]; [by left | right; exists 0%nat; split; [done | lia] |].
      right. exists (S i). split; [done | lia].
    - intros [?|(i & Hi & ->)]; [by do 2 left |]. destruct i as [|i]; cbn in Hi.
      + injection Hi as ->. left. right. split; [done | lia].
      + right. exists i. split; [done | lia]. }
  unfold run_ok, reported in *. destruct t; cbn [andb negb].
  - destruct (in_run s) eqn:Hin; cbn [negb].
    + apply Hcont; [intros _; specialize (Hok eq_refl); lia | done |].
      intros a. specialize (Hok eq_refl). rewrite ?Hin. split.
      * intros [?|[_ ?]]; [by do 2 left |]. destruct (Z.eq_dec a addr); [right; by split | left; right; split; [done | lia]].
      * intros [[?|[_ ?]]|[_ ->]]; [by left | right; split; [done | lia] | right; split; [done | lia]].
    + apply Hcont; [cbn; lia | done |]. cbn [out in_run run_start]. intros a. rewrite ?Hin. split.
      * intros [?|[_ ?]]; [by do 2 left | right; split; [done | lia]].
      * intros [[?|[? _]]|[_ ->]]; [by left | done | right; split; [done | lia]].
  - destruct (in_run s) eqn:Hin; cbn [negb].
    + destruct (Z.leb_spec mx (zlen (out s))); [done |].
      apply Hcont; [cbn; done | done |]. cbn [out in_run run_start]. intros a.
      rewrite ?Hin, covers_app, covers_one. replace (run_start s + (addr - run_start s)) with addr by lia. intuition congruence.
    + apply Hcont; [by rewrite ?Hin | done |]. intros a. rewrite ?Hin. intuition congruence.
Qed.

Lemma page_bits_spec bm i b :
  page_bits bm !! i = Some b <-> (i < Z.to_nat kPageBits)%nat /\ b = test_bit bm (Z.of_nat i).
Proof.
  unfold page_bits. rewrite list_lookup_fmap. destruct (decide (Z.of_nat i < kPageBits)) as [Hi|Hi].
  - rewrite lookup_seqZ_lt by done. cbn. unfold kPageBits in *. rewrite Z.add_0_l.
    split; [intros [= <-]; split; [lia | done] | by intros [_ ->]].
  - rewrite lookup_seqZ_ge by lia. cbn. unfold kPageBits in *. split; [done | lia].
Qed.

Lemma last_page_bits bm : last (page_bits bm) = Some (test_bit bm (kPageBits - 1)).
Proof.
  rewrite last_lookup. apply page_bits_spec.
  assert (length (page_bits bm) = Z.to_nat kPageBits) as ->
    by (unfold page_bits; by rewrite length_fmap, length_seqZ).
  unfold kPageBits. split; [lia | f_equal; lia].
Qed.

Lemma zlen_page_bits bm : zlen (page_bits bm) = kPageBits.
Proof. unfold zlen, page_bits. rewrite length_fmap, length_seqZ. unfold kPageBits. lia. Qed.

Lemma scan_pages_spec mx ps s :
  in_run s = false -> (forall k bm, (k, bm) ∈ ps -> test_bit bm (kPageBits - 1) = false) ->
  match scan_pages mx ps s with
  | inl o => mx <= zlen o
  | inr s' => in_run s' = false /\
      forall a, covers (out s') a <-> covers (out s) a \/
        exists k bm b, (k, bm) ∈ ps /\ 0 <= b < kPageBits /\ test_bit bm b = true /\ a = k * kPageBits + b
  end.
Proof.
  revert s. induction ps as [|[k bm] ps IH]; intros s Hin Hend; cbn [scan_pages].
  { split; [done |]. intros a. split; [auto |]. intros [?|(k & bm & b & Hk & _)]; [done | by apply elem_of_nil in Hk]. }
  pose proof (scan_bits_spec mx (page_bits bm) (k * kPageBits) s) as Hb.
  destruct (scan_bits mx (page_bits bm) (k * kPageBits) s) as [o|s1].
  { apply Hb. unfold run_ok. by rewrite Hin. }
  destruct Hb as (_ & Hin1 & Hrep); [unfold run_ok; by rewrite Hin |].
  rewrite last_page_bits, (Hend k bm ltac:(by left)) in Hin1. cbn in Hin1.
  specialize (IH s1 Hin1 ltac:(intros k' bm' Hk; apply (Hend k' bm'); by right)).
  destruct (scan_pages mx ps s1) as [o|s2]; [done |]. destruct IH as [I1 I2]. split; [done |].
  intros a. rewrite I2. unfold reported in Hrep. specialize (Hrep a). rewrite Hin, Hin1 in Hrep.
  assert (Hhere : covers (out s1) a <-> covers (out s) a \/
     exists b, 0 <= b < kPageBits /\ test_bit bm b = true /\ a = k * kPageBits + b).
  { transitivity (covers (out s1) a \/ false = true /\ run_start s1 <= a < k * kPageBits + zlen (page_bits bm));
      [split; [auto | intros [?|[? _]]; done] |]. rewrite Hrep. split.
    - intros [[?|[? _]]|(i & Hi & ->)]; [by left | done |]. right. apply page_bits_spec in Hi as [Hi Ht].
      exists (Z.of_nat i). split; [unfold kPageBits in *; lia | done].
    - intros [?|(b & Hb & Ht & ->)]; [by do 2 left | right]. exists (Z.to_nat b).
      rewrite page_bits_spec, Z2Nat.id by lia. split; [split; [unfold kPageBits in *; lia | done] | done]. }
  rewrite Hhere. split.
  - intros [[?|(b & Hb & Ht & ->)]|(k' & bm' & b & Hk & Hx)]; [by left | right | right].
    + exists k, bm, b. split; [by left | done].
    + exists k', bm', b. split; [by right | done].
  - intros [?|(k' & bm' & b & Hk & Hb & Ht & ->)]; [by do 2 left |].
    apply elem_of_cons in Hk as [[= -> ->]|Hk]; [left; right; by exists b |].
    right. by exists k', bm', b.
Qed.

(** When no run of tainted bytes reaches the end of a page, the range report
    is exact: the ranges returned cover the tainted addresses and no others, or
    the report stopped at the requested maximum. *)
Lemma tainted_ranges_exact t mx :
  pages_ok (pages_ t) ->
  (forall k bm, pages_ t !! k = Some bm -> test_bit bm (kPageBits - 1) = false) ->
  zlen (tainted_ranges mx t) < mx ->
  forall a, 0 <= a -> tainted t a <-> covers (tainted_ranges mx t) a.
Proof.
  intros Hok Hend Hlen a Ha.
  assert (Hmem : forall k bm, (k, bm) ∈ page_list (pages_ t) <-> pages_ t !! k = Some bm).
  { intros k bm. unfold page_list. rewrite (merge_sort_Permutation page_le _).
    apply elem_of_map_to_list. }
  pose proof (scan_pages_spec mx (page_list (pages_ t)) (mk_run [] 0 false) eq_refl) as Hs.
  unfold tainted_ranges in *.
  destruct (scan_pages mx (page_list (pages_ t)) (mk_run [] 0 false)) as [o|s].
  { exfalso. assert (mx <= zlen o); [|lia]. apply Hs. intros k bm Hk. apply Hmem in Hk. by eapply Hend. }
  destruct Hs as [Hin Hcov]; [intros k bm Hk; apply Hmem in Hk; by eapply Hend |].
  rewrite Hin in *. cbn [andb] in *. rewrite Hcov. unfold tainted, byte_tainted.
  pose proof (Z.div_mod a kPageBits ltac:(done)) as Hdm.
  pose proof (Z.mod_pos_bound a kPageBits ltac:(done)) as Hmb. split.
  - destruct (pages_ t !! (a / kPageBits)) as [bm|] eqn:Hp; [|done]. intros Hbit. right.
    exists (a / kPageBits), bm, (a mod kPageBits). split; [by apply Hmem |]. split_and!; (done || lia).
  - intros [(rg & Hrg & _)|(k & bm & b & Hk & Hb & Ht & ->)]; [by apply elem_of_nil in Hrg |].
    apply Hmem in Hk. rewrite Z.div_add_l, (Z.div_small b), Z.add_0_r, Hk by (done || lia).
    rewrite Z.add_comm, Z.mod_add, Z.mod_small by (done || lia). done.
Qed.

Lemma tainted_ranges_exact_witness :
  let t := mark_memory 4098 3 (mark_memory 16 2 reset) in
  tainted_ranges 10 t = [mk_range 16 2; mk_range 4098 3] /\
  (tainted t 4100 <-> covers (tainted_ranges 10 t) 4100).
Proof.
  cbv zeta. split; [vm_compute; reflexivity |].
  set (t := mark_memory 4098 3 (mark_memory 16 2 reset)).
  assert (Hok0 : pages_ok (pages_ reset)).
  { intros k bm Hk. change (pages_ reset) with (∅ : gmap Z (list Z)) in Hk. by rewrite lookup_empty in Hk. }
  assert (Hok : pages_ok (pages_ t)).
  { apply mark_memory_pages with (x := 0); [|lia]. by apply mark_memory_pages with (x := 0). }
  apply (tainted_ranges_exact t 10); [exact Hok | | vm_compute; reflexivity | lia].
  intros k bm Hk. apply elem_of_map_to_list in Hk.
  assert (Hall : forallb (fun kb => negb (test_bit kb.2 (kPageBits - 1))) (map_to_list (pages_ t)) = true)
    by (vm_compute; reflexivity).
  rewrite forallb_forall in Hall. specialize (Hall (k, bm) (proj1 (list_elem_of_In _ _) Hk)).
  by apply negb_true_iff in Hall.
Defined.

(** A run that reaches the end of a page is reported wrongly.  One tainted
    byte at 4095 is reported as 4096 bytes, and when the next page that exists is
    page 9 the run is stretched over the eight clean pages in between. *)
Lemma page_end_run_overreported :
  tainted_ranges 10 (mark_memory 4095 1 reset) = [mk_range 4095 4096] /\
  byte_tainted (pages_ (mark_memory 4095 1 reset)) 4096 = false /\
  tainted_ranges 10 (mark_memory 36865 1 (mark_memory 4095 1 reset)) = [mk_range 4095 32769; mk_range 36865 1] /\
  byte_tainted (pages_ (mark_memory 36865 1 (mark_memory 4095 1 reset))) 5000 = false.
Proof. split_and!; vm_compute; reflexivity. Qed.
