(* ===== verification/Zip.v ===== *)
(** * Zip archives: src/core/util/zip_reader.cpp

    The central-directory parser (zip64 aware) and the entry extractor over raw
    bytes.  Every access is a checked [byte_at]: [Crash] is a read outside the
    buffer.  zlib ([inflate], [crc32]) is a parameter. *)

From S2P Require Import Prelude.

#[local] Open Scope Z_scope.

Definition kLocalSig : Z := 67324752.
Definition kCentralSig : Z := 33639248.
Definition kEocdSig : Z := 101010256.
Definition kEocd64LocSig : Z := 117853008.
Definition kEocd64Sig : Z := 101075792.
Definition kEocdSize : Z := 22.
Definition kEocd64LocSize : Z := 20.
Definition kEocd64Size : Z := 56.
Definition kCentralSize : Z := 46.
Definition kLocalSize : Z := 30.
Definition kMaxComment : Z := 65535.

Definition rd16 (d : list Z) (off : Z) : outcome Z := load_le 2 d off.
Definition rd32 (d : list Z) (off : Z) : outcome Z := load_le 4 d off.
Definition rd64 (d : list Z) (off : Z) : outcome Z := load_le 8 d off.

Definition in_range (off size len : Z) : bool := (off <=? len) && (size <=? u64 (len - off)).

Record entry_t := mk_entry {
  name : list Z; method : Z; flags : Z; crc32_ : Z;
  compressed_size : Z; uncompressed_size : Z; local_header_offset : Z
}.

Definition is_directory (e : entry_t) : bool :=
  match last (name e) with Some c => c =? ch "/" | None => false end.
Definition is_encrypted (e : entry_t) : bool := negb (Z.land (flags e) 1 =? 0).

(** [data_] is borrowed: [None] until an open succeeds. *)
Record archive_t := mk_archive {
  data_ : option (list Z); entries_ : list entry_t; index_ : gmap (list Z) nat
}.

Definition has_zip_magic (data : option (list Z)) : outcome bool :=
  match data with
  | None => Done false
  | Some d => if zlen d <? 4 then Done false
              else sig ← rd32 d 0; Done ((sig =? kLocalSig) || (sig =? kEocdSig))
  end.

(** ** [archive_t::open] *)

(** The backwards scan: the first position that holds a signature with a comment
    that fits. *)
Fixpoint find_eocd (d : list Z) (ps : list Z) : outcome (option Z) :=
  match ps with
  | [] => Done None
  | pos :: ps' =>
      sig ← rd32 d pos;
      if negb (sig =? kEocdSig) then find_eocd d ps'
      else
        comment ← rd16 d (pos + 20);
        if comment <=? zlen d - pos - kEocdSize then Done (Some pos) else find_eocd d ps'
  end.

(** Saturated fields of one entry still to be read. *)
Record need_t := mk_need { need_u : bool; need_c : bool; need_o : bool }.

(** [take(v)]: 8 bytes of the field, if [fpos] leaves room; [None] is [false]. *)
Definition take8 (d : list Z) (f sz fpos : Z) : outcome (option Z) :=
  if u64 (sz - fpos) <? 8 then Done None else v ← rd64 d (f + fpos); Done (Some v).

(** The fields of the zip64 record at [f], in order; [None] is a short field. *)
Definition zip64_fields (d : list Z) (f sz : Z) (n : need_t) (e : entry_t) : outcome (option entry_t) :=
  u ← (if need_u n then take8 d f sz 0 else Done (Some (uncompressed_size e)));
  match u with
  | None => Done None
  | Some u =>
      let fpos := if need_u n then 8 else 0 in
      c ← (if need_c n then take8 d f sz fpos else Done (Some (compressed_size e)));
      match c with
      | None => Done None
      | Some c =>
          let fpos := if need_c n then fpos + 8 else fpos in
          o ← (if need_o n then take8 d f sz fpos else Done (Some (local_header_offset e)));
          match o with
          | None => Done None
          | Some o => Done (Some (mk_entry (name e) (method e) (flags e) (crc32_ e) c u o))
          end
      end
  end.

(** The loop over the extra fields: [inl] an error, [inr] the entry.  Running out
    of fuel is [Crash], so safety also says the fuel is enough. *)
Fixpoint extra_loop (fuel : nat) (d : list Z) (x extra_len xpos : Z) (n : need_t) (e : entry_t)
  : outcome (list Z + entry_t) :=
  let missing := bs "zip: missing zip64 extra field in '" ++ name e ++ bs "'" in
  if u64 (extra_len - xpos) <? 4 then Done (inl missing)
  else match fuel with
  | O => Crash
  | S fuel' =>
      id ← rd16 d (x + xpos);
      sz ← rd16 d (x + xpos + 2);
      if u64 (extra_len - xpos - 4) <? sz then Done (inl missing)
      else if id =? 1 then
        r ← zip64_fields d (x + xpos + 4) sz n e;
        match r with
        | None => Done (inl (bs "zip: short zip64 extra field in '" ++ name e ++ bs "'"))
        | Some e' => Done (inr e')
        end
      else extra_loop fuel' d x extra_len (xpos + (4 + sz)) n e
  end.

Definition saturated : Z := 4294967295.

(** One central-directory header at [h = cd + pos]: an error, or the entry and
    the bytes it takes. *)
Definition read_central (d : list Z) (cd end_ pos i : Z) : outcome (list Z + entry_t * Z) :=
  bad ← (if u64 (end_ - pos) <? kCentralSize then Done true
         else sig ← rd32 d (cd + pos); Done (negb (sig =? kCentralSig)));
  if bad : bool then Done (inl (bs "zip: corrupt central directory entry " ++ dec i))
  else
    let h := cd + pos in
    name_len ← rd16 d (h + 28);
    extra_len ← rd16 d (h + 30);
    comment_len ← rd16 d (h + 32);
    let var_len := name_len + extra_len + comment_len in
    if u64 (end_ - pos - kCentralSize) <? var_len
    then Done (inl (bs "zip: truncated central directory entry " ++ dec i))
    else
      flags ← rd16 d (h + 8);
      method ← rd16 d (h + 10);
      crc ← rd32 d (h + 16);
      csize ← rd32 d (h + 20);
      usize ← rd32 d (h + 24);
      off ← rd32 d (h + 42);
      nm ← mapM (fun k => byte_at d (h + kCentralSize + k)) (seqZ 0 name_len);
      let ent := mk_entry nm method flags crc csize usize off in
      let n := mk_need (usize =? saturated) (csize =? saturated) (off =? saturated) in
      if need_u n || need_c n || need_o n then
        r ← extra_loop (Z.to_nat extra_len) d (h + kCentralSize + name_len) extra_len 0 n ent;
        match r with
        | inl err => Done (inl err)
        | inr ent' => Done (inr (ent', kCentralSize + var_len))
        end
      else Done (inr (ent, kCentralSize + var_len)).

(** [emplace]: the first entry of a name keeps its slot. *)
Definition emplace (k : list Z) (i : nat) (m : gmap (list Z) nat) : gmap (list Z) nat :=
  match m !! k with Some _ => m | None => <[k := i]> m end.

(** The entry loop; the partial tables stay in the archive when it fails. *)
Fixpoint entry_loop (n : nat) (d : list Z) (cd end_ pos i : Z) (a : archive_t)
  : outcome (list Z * archive_t + archive_t) :=
  match n with
  | O => Done (inr a)
  | S n' =>
      r ← read_central d cd end_ pos i;
      match r with
      | inl err => Done (inl (err, a))
      | inr (ent, len) =>
          entry_loop n' d cd end_ (pos + len) (i + 1)
            (mk_archive (data_ a) (entries_ a ++ [ent])
               (emplace (name ent) (length (entries_ a)) (index_ a)))
      end
  end.

Definition closed : archive_t := mk_archive None [] ∅.

(** Error and archive left behind, or the opened archive. *)
Definition open (data : option (list Z)) : outcome (list Z * archive_t + archive_t) :=
  match data with
  | None => Done (inl (bs "zip: file too small", closed))
  | Some d =>
      let len := zlen d in
      if len <? kEocdSize then Done (inl (bs "zip: file too small", closed))
      else
        let last := len - kEocdSize in
        let first := if kMaxComment <? last then last - kMaxComment else 0 in
        eo ← find_eocd d (rev (seqZ first (last + 1 - first)));
        match eo with
        | None => Done (inl (bs "zip: end of central directory not found", closed))
        | Some eocd =>
            total0 ← rd16 d (eocd + 10);
            size0 ← rd32 d (eocd + 12);
            off0 ← rd32 d (eocd + 16);
            loc ← (if kEocd64LocSize <=? eocd
                   then sig ← rd32 d (eocd - kEocd64LocSize); Done (sig =? kEocd64LocSig)
                   else Done false);
            dir ← (if loc : bool then
                     rec ← rd64 d (eocd - kEocd64LocSize + 8);
                     bad ← (if in_range rec kEocd64Size len
                            then sig ← rd32 d rec; Done (negb (sig =? kEocd64Sig)) else Done true);
                     if bad : bool then Done (inl (bs "zip: bad zip64 end of central directory"))
                     else
                       total ← rd64 d (rec + 32); size ← rd64 d (rec + 40); off ← rd64 d (rec + 48);
                       Done (inr (total, size, off))
                   else if (total0 =? 65535) || (size0 =? saturated) || (off0 =? saturated)
                   then Done (inl (bs "zip: zip64 locator missing"))
                   else Done (inr (total0, size0, off0)));
            match dir with
            | inl err => Done (inl (err, closed))
            | inr (total, cd_size, cd_off) =>
                if negb (in_range cd_off cd_size len)
                then Done (inl (bs "zip: central directory outside the file", closed))
                else if cd_size / kCentralSize <? total
                then Done (inl (bs "zip: entry count exceeds central directory size", closed))
                else
                  r ← entry_loop (Z.to_nat total) d cd_off cd_size 0 0 closed;
                  match r with
                  | inl e => Done (inl e)
                  | inr a => Done (inr (mk_archive (Some d) (entries_ a) (index_ a)))
                  end
            end
        end
  end.

Definition find (a : archive_t) (n : list Z) : option entry_t :=
  match index_ a !! n with Some i => entries_ a !! i | None => None end.

(** ** [archive_t::extract] *)

(** A loop over [o] that takes [next o] bytes at a time. *)
Fixpoint chunked {S} (next : list Z -> nat) (f : S -> list Z -> S) (fuel : nat) (s : S) (o : list Z) : S :=
  match fuel, o with
  | Datatypes.S fuel', _ :: _ => chunked next f fuel' (f s (take (next o) o)) (drop (next o) o)
  | _, _ => s
  end.

(** The pieces [UINT_MAX] bounds. *)
Definition uint_max : Z := 4294967295.
Definition next_chunk (o : list Z) : nat := if zlen o <? uint_max then length o else Z.to_nat uint_max.

(** What one call of zlib's [inflate] returns. *)
Inductive z_rc := Z_STREAM_END | Z_OK | Z_BUF_ERROR | Z_FAILED (msg : option (list Z)).

Section Extract.
(** zlib: its decoder state, [inflateInit2], one [inflate] call on the available
    input and room (new state, return code, bytes taken, bytes written), and
    [crc32(crc, p, n)]. *)
Variable zstate : Type.
Variable inflate_init : option zstate.
Variable inflate : zstate -> list Z -> Z -> zstate * z_rc * Z * list Z.
Variable crc32 : Z -> list Z -> Z.

Definition slice (d : list Z) (off n : Z) : outcome (list Z) :=
  mapM (fun k => byte_at d (off + k)) (seqZ 0 n).

Definition quoted (pre n post : list Z) : list Z := pre ++ bs "'" ++ n ++ bs "'" ++ post.

(** The stream fields of the driver loop: the window [zlib] sees, what is left
    behind it, and the output so far. *)
Record z_stream := mk_z {
  zst : zstate; avail_in : list Z; in_left : list Z; avail_out : Z; out_left : Z; produced : list Z
}.

Definition refill_in (z : z_stream) : z_stream :=
  if bool_decide (avail_in z = []) then
    mk_z (zst z) (take (next_chunk (in_left z)) (in_left z)) (drop (next_chunk (in_left z)) (in_left z)) (avail_out z) (out_left z) (produced z)
  else z.

Definition refill_out (z : z_stream) : z_stream :=
  if avail_out z =? 0 then
    let chunk := Z.min (out_left z) uint_max in
    mk_z (zst z) (avail_in z) (in_left z) chunk (out_left z - chunk) (produced z)
  else z.

(** The output and the error text, if any. *)
Fixpoint inflate_loop (fuel : nat) (n : list Z) (z : z_stream) : outcome (list Z * option (list Z)) :=
  match fuel with
  | O => Crash
  | S fuel' =>
      let z := refill_out (refill_in z) in
      let '(st, rc, taken, made) := inflate (zst z) (avail_in z) (avail_out z) in
      let z' := mk_z st (drop (Z.to_nat taken) (avail_in z)) (in_left z) (avail_out z - zlen made)
                  (out_left z) (produced z ++ made) in
      match rc with
      | Z_STREAM_END => Done (produced z', None)
      | Z_OK => inflate_loop fuel' n z'
      | Z_BUF_ERROR =>
          Done (produced z', Some (if (avail_out z' =? 0) && (out_left z' =? 0)
            then quoted (bs "zip: ") n (bs " inflates past its declared size")
            else quoted (bs "zip: deflate stream of ") n (bs " is truncated")))
      | Z_FAILED msg =>
          Done (produced z', Some (quoted (bs "zip: corrupt deflate stream in ") n
            (match msg with Some m => bs " (" ++ m ++ bs ")" | None => [] end)))
      end
  end.

Definition crc_loop (fuel : nat) (crc : Z) (o : list Z) : Z := chunked next_chunk crc32 fuel crc o.

(** Error text, or the extracted bytes. *)
Definition extract (a : archive_t) (e : entry_t) (max_size : Z) : outcome (list Z + list Z) :=
  let n := name e in
  match data_ a with
  | None => Done (inl (bs "zip: archive not open"))
  | Some d =>
      if is_encrypted e then Done (inl (quoted (bs "zip: ") n (bs " is encrypted")))
      else if negb (method e =? 0) && negb (method e =? 8)
      then Done (inl (quoted (bs "zip: ") n (bs " uses unsupported compression method " ++ dec (method e))))
      else if max_size <? uncompressed_size e
      then Done (inl (quoted (bs "zip: ") n (bs " is too large (" ++ dec (uncompressed_size e) ++ bs " bytes)")))
      else
        bad ← (if in_range (local_header_offset e) kLocalSize (zlen d)
               then sig ← rd32 d (local_header_offset e); Done (negb (sig =? kLocalSig)) else Done true);
        if bad : bool then Done (inl (quoted (bs "zip: bad local header for ") n []))
        else
          nl ← rd16 d (local_header_offset e + 26);
          xl ← rd16 d (local_header_offset e + 28);
          let data_off := u64 (local_header_offset e + kLocalSize + nl + xl) in
          if negb (in_range data_off (compressed_size e) (zlen d))
          then Done (inl (quoted (bs "zip: data for ") n (bs " is truncated")))
          else
            src ← slice d data_off (compressed_size e);
            res ← (
              if method e =? 0 then
                Done (if negb (compressed_size e =? uncompressed_size e)
                      then inl (quoted (bs "zip: stored entry ") n (bs " has mismatched sizes"))
                      else inr src)
              else match inflate_init with
                   | None => Done (inl (bs "zip: inflateInit failed"))
                   | Some st =>
                       r ← inflate_loop (S (Z.to_nat (compressed_size e + uncompressed_size e))) n
                             (mk_z st [] src 0 (uncompressed_size e) []);
                       match r with
                       | (_, Some err) => Done (inl err)
                       | (o, None) =>
                           Done (if negb (zlen o =? uncompressed_size e)
                                 then inl (quoted (bs "zip: ") n (bs " inflated to " ++ dec (zlen o) ++
                                        bs " bytes, expected " ++ dec (uncompressed_size e)))
                                 else inr o)
                       end
                   end);
            match res with
            | inl err => Done (inl err)
            | inr o =>
                if negb (u32 (crc_loop (length o) (crc32 0 []) o) =? crc32_ e)
                then Done (inl (quoted (bs "zip: crc-32 mismatch in ") n []))
                else Done (inr o)
            end
  end.
End Extract.

(** ** Every access stays inside the file *)

Lemma in_range_spec off size len :
  0 <= off -> is_word 64 len -> in_range off size len = true -> off + size <= len.
Proof.
  unfold in_range, is_word. intros Ho Hl H. apply andb_prop in H as [H1 H2].
  apply Z.leb_le in H1, H2. rewrite wrap_small in H2 by (unfold is_word; lia). lia.
Qed.

Lemma u64_sub a b : 0 <= b <= a -> is_word 64 a -> u64 (a - b) = a - b.
Proof. unfold is_word. intros Hb Ha. apply wrap_small. unfold is_word. lia. Qed.

(** A load at an offset the guards keep inside the file, then the continuation. *)
Ltac load :=
  eapply returns_bind; [apply returns_load; [eassumption | lia | lia] |];
  let v := fresh "v" in let Hv := fresh "Hv" in
  intros v Hv; unfold is_word in Hv; cbn [Z.of_nat Z.mul Pos.mul Pos.add Pos.of_succ_nat Pos.succ] in Hv.

Definition entry_ok (e : entry_t) : Prop :=
  is_word 64 (compressed_size e) /\ is_word 64 (uncompressed_size e) /\ is_word 64 (local_header_offset e).

(** The first entry of a name, in directory order. *)
Fixpoint first_named (n : list Z) (es : list entry_t) : option entry_t :=
  match es with
  | [] => None
  | e :: es' => if decide (name e = n) then Some e else first_named n es'
  end.

Definition index_ok (a : archive_t) : Prop :=
  forall n, match index_ a !! n with
            | Some i => entries_ a !! i = first_named n (entries_ a) /\ (i < length (entries_ a))%nat
            | None => first_named n (entries_ a) = None
            end.

Definition archive_ok (a : archive_t) : Prop := index_ok a /\ Forall entry_ok (entries_ a).

Lemma first_named_app n es e :
  first_named n (es ++ [e]) =
    match first_named n es with
    | Some e' => Some e'
    | None => if decide (name e = n) then Some e else None
    end.
Proof. induction es as [|e' es IH]; [done |]. cbn. by destruct (decide (name e' = n)). Qed.

Lemma push_entry_ok a e :
  archive_ok a -> entry_ok e ->
  archive_ok (mk_archive (data_ a) (entries_ a ++ [e]) (emplace (name e) (length (entries_ a)) (index_ a))).
Proof.
  intros [Hi Hf] He. split; [|apply Forall_app; split; [done | by constructor]].
  intros n. cbn [index_ entries_]. rewrite first_named_app, length_app. cbn [length].
  assert (Hn : forall m, index_ a !! n = m -> match m with
    | Some i => (entries_ a ++ [e]) !! i = first_named n (entries_ a) /\ is_Some (first_named n (entries_ a)) /\
        (i < length (entries_ a) + 1)%nat
    | None => first_named n (entries_ a) = None end).
  { intros m Hm. specialize (Hi n). rewrite Hm in Hi. destruct m as [i|]; [|done].
    destruct Hi as [E Hlt]. rewrite lookup_app_l by done. split; [done |]. split; [|lia].
    rewrite <- E. by apply lookup_lt_is_Some_2. }
  unfold emplace. destruct (index_ a !! name e) as [j|] eqn:Hj.
  - specialize (Hn _ eq_refl). destruct (index_ a !! n) as [i|] eqn:Hni.
    + destruct Hn as (E & [x Hx] & Hlt). rewrite E, Hx. done.
    + rewrite Hn. destruct (decide (name e = n)) as [<-|]; [congruence | done].
  - destruct (decide (name e = n)) as [<-|Hne].
    + rewrite lookup_insert_eq. specialize (Hn _ eq_refl). rewrite Hj in Hn. rewrite Hn.
      rewrite lookup_app_r, Nat.sub_diag by lia. split; [done | lia].
    + rewrite lookup_insert_ne by done. specialize (Hn _ eq_refl).
      destruct (index_ a !! n) as [i|]; [|by rewrite Hn].
      destruct Hn as (E & [x Hx] & Hlt). rewrite E, Hx. done.
Qed.

Section Safe.
Variable d : list Z.
Hypothesis Hd : bytes_ok d.
Hypothesis Hlen : is_word 64 (zlen d).

Lemma find_eocd_safe ps :
  Forall (fun p => 0 <= p /\ p + kEocdSize <= zlen d) ps ->
  returns (find_eocd d ps)
    (fun r => match r with Some p => 0 <= p /\ p + kEocdSize <= zlen d | None => True end).
Proof using Hd.
  unfold kEocdSize. induction 1 as [|p ps Hp Hps IH]; cbn [find_eocd]; [by apply returns_done |].
  unfold rd32, rd16. load. destruct (negb _); [exact IH |]. load.
  destruct (_ <=? _); [by apply returns_done | exact IH].
Qed.

Lemma take8_safe f sz fpos :
  0 <= f -> 0 <= fpos <= sz -> sz <= 2 ^ 16 -> f + sz <= zlen d ->
  returns (take8 d f sz fpos) (fun r => match r with Some v => is_word 64 v /\ fpos + 8 <= sz | None => True end).
Proof using Hd Hlen.
  intros Hf Hp Hs Hfit. unfold take8. rewrite u64_sub by (unfold is_word in *; lia).
  destruct (Z.ltb_spec (sz - fpos) 8); [by apply returns_done |].
  unfold rd64. load. apply returns_done. split; [exact Hv | lia].
Qed.

Lemma zip64_fields_safe f sz n e :
  0 <= f -> 0 <= sz < 2 ^ 16 -> f + sz <= zlen d -> entry_ok e ->
  returns (zip64_fields d f sz n e)
    (fun r => match r with Some e' => entry_ok e' /\ name e' = name e | None => True end).
Proof using Hd Hlen.
  intros Hf Hsz Hfit (H1 & H2 & H3). unfold zip64_fields.
  apply returns_bind with (P := fun r => match r with
    Some v => is_word 64 v /\ (need_u n = true -> 8 <= sz) | None => True end).
  { destruct (need_u n); [|by apply returns_done].
    eapply returns_weaken; [apply take8_safe; lia |]. intros [v|]; [|done]. intros [? ?]. split; [done | lia]. }
  intros [u|] Hu; [|by apply returns_done]. destruct Hu as [Hu Hu8].
  set (p1 := if need_u n then 8 else 0). assert (Hp1 : 0 <= p1 <= sz).
  { unfold p1. destruct (need_u n); [specialize (Hu8 eq_refl); lia | lia]. }
  apply returns_bind with (P := fun r => match r with
    Some v => is_word 64 v /\ (need_c n = true -> p1 + 8 <= sz) | None => True end).
  { destruct (need_c n); [|by apply returns_done].
    eapply returns_weaken; [apply take8_safe; lia |]. intros [v|]; [|done]. intros [? ?]. split; [done | lia]. }
  intros [c|] Hc; [|by apply returns_done]. destruct Hc as [Hc Hc8].
  set (p2 := if need_c n then p1 + 8 else p1). assert (Hp2 : 0 <= p2 <= sz).
  { unfold p2. destruct (need_c n); [specialize (Hc8 eq_refl); lia | lia]. }
  apply returns_bind with (P := fun r => match r with Some v => is_word 64 v | None => True end).
  { destruct (need_o n); [|by apply returns_done].
    eapply returns_weaken; [apply take8_safe; lia |]. intros [v|]; [|done]. by intros [? ?]. }
  intros [o|] Ho; apply returns_done; [|done]. by split.
Qed.

Lemma extra_loop_safe fuel x extra_len xpos n e :
  0 <= x -> 0 <= xpos <= extra_len -> extra_len < 2 ^ 16 -> x + extra_len <= zlen d ->
  (Z.to_nat (extra_len - xpos) <= fuel)%nat -> entry_ok e ->
  returns (extra_loop fuel d x extra_len xpos n e)
    (fun r => match r with inr e' => entry_ok e' /\ name e' = name e | inl _ => True end).
Proof using Hd Hlen.
  intros Hx. revert xpos. induction fuel as [|fuel IH]; intros xpos Hp He Hfit Hf Hok; cbn [extra_loop];
    rewrite !u64_sub by (unfold is_word in *; lia).
  { destruct (Z.ltb_spec (extra_len - xpos) 4); [by apply returns_done | lia]. }
  destruct (Z.ltb_spec (extra_len - xpos) 4); [by apply returns_done |].
  unfold rd16. load. load.
  replace (extra_len - xpos - 4) with (extra_len - (xpos + 4)) by lia.
  rewrite u64_sub by (unfold is_word in *; lia).
  destruct (Z.ltb_spec (extra_len - (xpos + 4)) v0); [by apply returns_done |].
  destruct (v =? 1).
  - eapply returns_bind; [apply zip64_fields_safe; (done || lia) |].
    intros [e'|] He'; apply returns_done; done.
  - apply IH; (done || lia).
Qed.

Lemma read_central_safe cd end_ pos i :
  0 <= cd -> 0 <= pos <= end_ -> cd + end_ <= zlen d ->
  returns (read_central d cd end_ pos i)
    (fun r => match r with inr (e, n) => entry_ok e /\ 0 <= n /\ pos + n <= end_ | inl _ => True end).
Proof using Hd Hlen.
  intros Hcd Hp Hfit. unfold read_central, kCentralSize.
  rewrite (u64_sub end_ pos) by (unfold is_word in *; lia).
  apply returns_bind with (P := fun b => b = false -> 46 <= end_ - pos).
  { destruct (Z.ltb_spec (end_ - pos) 46); [by apply returns_done |]. unfold rd32. load. by apply returns_done. }
  intros [] Hb; [by apply returns_done |]. specialize (Hb eq_refl). cbv zeta. unfold rd16 at 1 2 3. load. load. load.
  replace (end_ - pos - 46) with (end_ - (pos + 46)) by lia. rewrite u64_sub by (unfold is_word in *; lia).
  destruct (Z.ltb_spec (end_ - (pos + 46)) (v + v0 + v1)); [by apply returns_done |].
  unfold rd16, rd32. load. load. load. load. load. load.
  eapply returns_bind; [apply (returns_slice d (cd + pos + 46) v); lia |].
  intros nm ->. set (ent := mk_entry _ _ _ _ _ _ _).
  assert (He : entry_ok ent).
  { assert (2 ^ 32 < 2 ^ 64) by done. unfold entry_ok, ent, is_word. cbn. lia. }
  cbn [need_u need_c need_o]. destruct (_ || _ || _).
  - eapply returns_bind; [apply extra_loop_safe; (done || lia) |].
    intros [err|e'] He'; apply returns_done; [done |]. split; [apply He' | lia].
  - apply returns_done. split; [done | lia].
Qed.

Lemma entry_loop_safe n cd end_ pos i a :
  0 <= cd -> 0 <= pos <= end_ -> cd + end_ <= zlen d -> archive_ok a ->
  returns (entry_loop n d cd end_ pos i a)
    (fun r => match r with inr a' => archive_ok a' | inl (_, a') => data_ a' = data_ a end).
Proof using Hd Hlen.
  revert pos i a. induction n as [|n IH]; intros pos i a Hcd Hp Hfit Ha; cbn [entry_loop]; [by apply returns_done |].
  eapply returns_bind; [by apply read_central_safe |].
  intros [err|[e m]] He; [by apply returns_done |]. destruct He as (He & Hm & Hpm).
  eapply returns_weaken; [apply IH; try lia; by apply push_entry_ok |].
  intros [[err a']|a'] Ha'; done.
Qed.
End Safe.

Lemma closed_ok : archive_ok closed.
Proof. split; [|constructor]. intros n. cbn [index_ closed]. by rewrite lookup_empty. Qed.

(** C23: opening any byte buffer as an archive reads only inside the buffer and
    always returns: a refusal leaves the archive unopened, and on success looking
    a name up gives the first entry of that name in directory order, or nothing
    when there is none. *)
Theorem zip_open_safe d :
  bytes_ok d -> zlen d < 2 ^ 64 ->
  exists r, open (Some d) = Done r /\
    match r with
    | inl (_, a) => data_ a = None
    | inr a => data_ a = Some d /\ Forall entry_ok (entries_ a) /\
        forall n, find a n = first_named n (entries_ a)
    end.
Proof.
  intros Hd Hl. assert (Hlen : is_word 64 (zlen d)) by (pose proof (zlen_nonneg d); unfold is_word; lia).
  change (returns (open (Some d)) (fun r => match r with
    | inl (_, a) => data_ a = None
    | inr a => data_ a = Some d /\ Forall entry_ok (entries_ a) /\ forall n, find a n = first_named n (entries_ a)
    end)).
  unfold open. destruct (Z.ltb_spec (zlen d) kEocdSize) as [Hs|Hs]; [by apply returns_done |]. cbv zeta.
  eapply returns_bind; [apply (find_eocd_safe d Hd) |].
  { apply Forall_forall. intros p Hp. apply list_elem_of_In, in_rev, list_elem_of_In, elem_of_seqZ in Hp.
    unfold kEocdSize, kMaxComment in *. destruct (Z.ltb_spec 65535 (zlen d - 22)); lia. }
  intros [eo|] He; [|by apply returns_done]. unfold kEocdSize, kEocd64LocSize in *.
  unfold rd16 at 1. load. unfold rd32 at 1. load. unfold rd32 at 1. load.
  apply returns_bind with (P := fun b => b = true -> 20 <= eo).
  { destruct (Z.leb_spec 20 eo); [unfold rd32; load|]; by apply returns_done. }
  intros loc Hloc.
  apply returns_bind with (P := fun r : list Z + Z * Z * Z => match r with
    | inr (total, cs, co) => 0 <= total /\ 0 <= cs /\ 0 <= co | inl _ => True end).
  { destruct loc.
    - specialize (Hloc eq_refl). unfold rd64 at 1. load.
      apply returns_bind with (P := fun b : bool => b = false -> v2 + 56 <= zlen d).
      { destruct (in_range v2 kEocd64Size (zlen d)) eqn:Hr; [|by apply returns_done].
        apply in_range_spec in Hr; [|lia | done]. unfold kEocd64Size in Hr. unfold rd32. load.
        apply returns_done. by intros _. }
      intros [] Hb; [by apply returns_done |]. specialize (Hb eq_refl). unfold rd64. load. load. load.
      apply returns_done. lia.
    - destruct (_ || _ || _); apply returns_done; [done | lia]. }
  intros [err|[[total cs] co]] Hdir; [by apply returns_done |]. destruct Hdir as (Ht & Hcs & Hco).
  destruct (in_range co cs (zlen d)) eqn:Hr; cbn [negb]; [|by apply returns_done].
  apply in_range_spec in Hr; [|lia | done].
  destruct (_ <? total); [by apply returns_done |].
  eapply returns_bind; [apply (entry_loop_safe d Hd Hlen); [lia | lia | lia | apply closed_ok] |].
  intros [[err a]|a] Ha; apply returns_done; [done |]. destruct Ha as [Hi Hf].
  cbn [data_ entries_]. split; [done |]. split; [done |]. intros n. unfold find. cbn [index_ entries_].
  specialize (Hi n). destruct (index_ a !! n); [by destruct Hi | done].
Qed.

(** ** Driving zlib *)

Section Driver.
Variable zstate : Type.
Variable inflate : zstate -> list Z -> Z -> zstate * z_rc * Z * list Z.
Variable crc32 : Z -> list Z -> Z.

(** zlib's manual: a call stays within the space offered, and [Z_OK] means it
    consumed input or produced output. *)
Definition inflate_doc : Prop := forall st i room st' rc taken made,
  0 <= room -> inflate st i room = (st', rc, taken, made) ->
  0 <= taken <= zlen i /\ zlen made <= room /\ (rc = Z_OK -> 0 < taken + zlen made).

(** zlib's manual: a checksum can be computed piecewise; nothing added is the identity. *)
Definition crc_doc : Prop :=
  (forall c a b, crc32 (crc32 c a) b = crc32 c (a ++ b)) /\ crc32 0 [] = 0.

Lemma chunked_spec next f fuel (c : Z) o :
  (forall x o', (1 <= next (x :: o'))%nat) -> (forall c a b, f (f c a) b = f c (a ++ b)) ->
  (length o <= fuel)%nat -> chunked next f fuel c o = match o with [] => c | _ => f c o end.
Proof.
  intros Hnext Happ. revert c o. induction fuel as [|fuel IH]; intros c [|x o] Hf; cbn [chunked]; try done.
  { cbn in Hf. lia. }
  specialize (Hnext x o). revert Hnext. generalize (next (x :: o)). intros k Hk.
  rewrite IH by (rewrite length_drop; cbn [length] in *; lia).
  destruct (drop k (x :: o)) as [|y rest] eqn:E.
  - f_equal. rewrite <- (take_drop k (x :: o)) at 2. by rewrite E, app_nil_r.
  - rewrite Happ, <- E. by rewrite take_drop.
Qed.

Lemma next_chunk_le (o : list Z) : Z.of_nat (next_chunk o) = Z.min (zlen o) uint_max.
Proof.
  unfold next_chunk. destruct (Z.ltb_spec (zlen o) uint_max) as [H|H].
  - unfold zlen in *. lia.
  - rewrite Z2Nat.id by done. lia.
Qed.

Lemma inflate_loop_returns fuel n z room :
  inflate_doc -> 0 <= avail_out zstate z -> 0 <= out_left zstate z ->
  zlen (produced zstate z) + avail_out zstate z + out_left zstate z = room ->
  zlen (avail_in zstate z) + zlen (in_left zstate z) + avail_out zstate z + out_left zstate z < Z.of_nat fuel ->
  returns (inflate_loop zstate inflate fuel n z) (fun r => zlen r.1 <= room).
Proof.
  intros Hdoc. revert z. induction fuel as [|fuel IH]; intros z Ho Hl Hr Hf.
  { pose proof (zlen_nonneg (avail_in zstate z)). pose proof (zlen_nonneg (in_left zstate z)). lia. }
  cbn [inflate_loop].
  set (z1 := refill_out zstate (refill_in zstate z)).
  assert (Hz1 : 0 <= avail_out zstate z1 /\ 0 <= out_left zstate z1 /\
    zlen (produced zstate z1) + avail_out zstate z1 + out_left zstate z1 = room /\
    zlen (avail_in zstate z1) + zlen (in_left zstate z1) + avail_out zstate z1 + out_left zstate z1 < Z.of_nat (S fuel)).
  { pose proof (next_chunk_le (in_left zstate z)). unfold z1, refill_out, refill_in, uint_max in *.
    destruct (bool_decide_reflect (avail_in zstate z = [])) as [E|E]; cbn;
      (destruct (Z.eqb_spec (avail_out zstate z) 0) as [E0|E0]; cbn);
      try (rewrite E in Hf); unfold zlen in *; rewrite ?length_take, ?length_drop; cbn [length] in *; lia. }
  destruct Hz1 as (H1 & H2 & H3 & H4).
  destruct (inflate (zst zstate z1) (avail_in zstate z1) (avail_out zstate z1)) as [[[st rc] taken] made] eqn:E.
  destruct (Hdoc _ _ _ _ _ _ _ H1 E) as (Ht & Hm & Hok).
  assert (Hp : zlen (produced zstate z1 ++ made) <= room) by (rewrite zlen_app; lia).
  destruct rc; try (apply returns_done; exact Hp).
  specialize (Hok eq_refl). apply IH; cbn [avail_in in_left avail_out out_left produced]; [lia | lia | rewrite zlen_app; lia |].
  unfold zlen in *. rewrite length_drop. lia.
Qed.

Lemma crc_loop_spec fuel c o :
  crc_doc -> (length o <= fuel)%nat -> crc_loop crc32 fuel c o = match o with [] => c | _ => crc32 c o end.
Proof.
  intros [Happ _]. unfold crc_loop. apply chunked_spec; [|exact Happ].
  intros x o'. pose proof (next_chunk_le (x :: o')). unfold zlen, uint_max in *. cbn [length] in *. lia.
Qed.
End Driver.

(** C24: extracting any entry from an archive over any bytes reads only inside the
    buffer and always returns; success means the entry is neither encrypted nor
    over the limit, the output has exactly the declared size and the recorded
    checksum, and for a stored entry it is the run of archive bytes behind its
    local header. *)
Theorem zip_extract_safe (zstate : Type) (init : option zstate) inflate crc32 a d e max_size :
  inflate_doc zstate inflate -> crc_doc crc32 -> data_ a = Some d -> bytes_ok d -> zlen d < 2 ^ 63 -> entry_ok e ->
  exists r, extract zstate init inflate crc32 a e max_size = Done r /\
    match r with
    | inl _ => True
    | inr o => is_encrypted e = false /\ zlen o = uncompressed_size e /\ uncompressed_size e <= max_size /\
        u32 (crc32 0 o) = crc32_ e /\ (method e = 0 \/ method e = 8) /\
        (method e = 0 -> exists off, local_header_offset e + kLocalSize <= off /\
           o = take (Z.to_nat (compressed_size e)) (drop (Z.to_nat off) d))
    end.
Proof.
  intros Hinf Hcrc Ha Hd Hl (Hc & Hu & Ho). assert (Hlen : is_word 64 (zlen d)) by (pose proof (zlen_nonneg d); unfold is_word; lia).
  match goal with |- exists r, ?m = Done r /\ @?P r => change (returns m P) end.
  unfold extract. rewrite Ha. destruct (is_encrypted e) eqn:Henc; [by apply returns_done |].
  destruct (negb (method e =? 0) && negb (method e =? 8)) eqn:Hm; [by apply returns_done |].
  assert (Hm' : method e = 0 \/ method e = 8).
  { destruct (Z.eqb_spec (method e) 0), (Z.eqb_spec (method e) 8); auto; done. }
  destruct (Z.ltb_spec max_size (uncompressed_size e)) as [|Hmax]; [by apply returns_done |].
  apply returns_bind with (P := fun b : bool => b = false -> local_header_offset e + 30 <= zlen d).
  { destruct (in_range (local_header_offset e) kLocalSize (zlen d)) eqn:Hr; [|by apply returns_done].
    apply in_range_spec in Hr; [|unfold is_word in Ho; lia | done]. unfold kLocalSize in Hr.
    unfold is_word in Ho. unfold rd32. load. apply returns_done. by intros _. }
  intros [] Hb; [by apply returns_done |]. specialize (Hb eq_refl). unfold is_word in Ho, Hc, Hlen.
  unfold rd16. load. load. cbv zeta. set (off := u64 _).
  destruct (in_range off (compressed_size e) (zlen d)) eqn:Hr; cbn [negb]; [|by apply returns_done].
  assert (Hoff : 0 <= off < 2 ^ 64) by (apply (wrap_range 64); lia).
  apply in_range_spec in Hr; [|lia | unfold is_word; lia].
  eapply returns_bind; [unfold slice; apply (returns_slice d off (compressed_size e)); lia |].
  intros src ->. set (src := take _ _).
  assert (Hsrc : zlen src = compressed_size e).
  { unfold zlen, src in *. rewrite length_take, length_drop. lia. }
  apply returns_bind with (P := fun r => match r with
    | inr o => zlen o = uncompressed_size e /\ (method e = 0 -> o = src) | inl _ => True end).
  { destruct (Z.eqb_spec (method e) 0) as [E0|E0].
    - destruct (Z.eqb_spec (compressed_size e) (uncompressed_size e)) as [Es|Es]; apply returns_done; [|done].
      cbn. split; [by rewrite Hsrc | done].
    - destruct init as [st|]; [|by apply returns_done]. unfold is_word in Hu.
      eapply returns_bind; [apply (inflate_loop_returns _ _ _ _ _ (uncompressed_size e) Hinf); cbn; unfold zlen in *; cbn; lia |].
      intros [o [err|]] _; [by apply returns_done |].
      destruct (Z.eqb_spec (zlen o) (uncompressed_size e)); apply returns_done; [|done]. by split. }
  intros [err|o] Hres; [by apply returns_done |]. destruct Hres as [Hsz Hst].
  destruct (Z.eqb_spec (u32 (crc_loop crc32 (length o) (crc32 0 []) o)) (crc32_ e)) as [Ec|]; cbn [negb];
    [|by apply returns_done].
  apply returns_done. split_and!; try done.
  - rewrite <- Ec, crc_loop_spec by done. destruct o; [done |]. by rewrite (proj2 Hcrc).
  - intros E0. rewrite (Hst E0). exists off. split; [|done]. unfold off, kLocalSize.
    rewrite wrap_small; [lia |]. unfold is_word. lia.
Qed.

(** An archive with the stored file "a" holding "hi" and a directory "d/". *)
Definition demo_zip : list Z :=
  [80; 75; 3; 4; 20; 0; 0; 0; 0; 0; 0; 0; 33; 0; 172; 42; 147; 216; 2; 0; 0; 0; 2; 0; 0; 0; 1;
   0; 0; 0; 97; 104; 105; 80; 75; 3; 4; 20; 0; 0; 0; 0; 0; 0; 0; 33; 0; 0; 0; 0; 0; 0; 0; 0; 0;
   0; 0; 0; 0; 2; 0; 0; 0; 100; 47; 80; 75; 1; 2; 20; 3; 20; 0; 0; 0; 0; 0; 0; 0; 33; 0; 172;
   42; 147; 216; 2; 0; 0; 0; 2; 0; 0; 0; 1; 0; 0; 0; 0; 0; 0; 0; 0; 0; 0; 0; 128; 1; 0; 0; 0; 0;
   97; 80; 75; 1; 2; 20; 3; 20; 0; 0; 0; 0; 0; 0; 0; 33; 0; 0; 0; 0; 0; 0; 0; 0; 0; 0; 0; 0; 0;
   2; 0; 0; 0; 0; 0; 0; 0; 0; 0; 0; 0; 128; 1; 33; 0; 0; 0; 100; 47; 80; 75; 5; 6; 0; 0; 0; 0;
   2; 0; 2; 0; 95; 0; 0; 0; 65; 0; 0; 0; 0; 0].

(** CRC-32 with the polynomial of zlib, bit by bit. *)
Definition crc_bit (c : Z) : Z :=
  if Z.testbit c 0 then Z.lxor (Z.shiftr c 1) 3988292384 else Z.shiftr c 1.
Definition demo_crc (c : Z) (o : list Z) : Z :=
  Z.lxor (foldl (fun c b => Nat.iter 8 crc_bit (Z.lxor c b)) (Z.lxor c 4294967295) o) 4294967295.

Lemma demo_crc_doc : crc_doc demo_crc.
Proof.
  split; [|reflexivity]. intros c a b. unfold demo_crc.
  rewrite Z.lxor_assoc, Z.lxor_nilpotent, Z.lxor_0_r, foldl_app. reflexivity.
Qed.

(** A decoder that ends every stream at once. *)
Definition demo_inflate (st : unit) (i : list Z) (room : Z) : unit * z_rc * Z * list Z :=
  (st, Z_FAILED None, 0, []).

Lemma demo_inflate_doc st i room st' rc taken made :
  0 <= room -> demo_inflate st i room = (st', rc, taken, made) ->
  0 <= taken <= zlen i /\ zlen made <= room /\ (rc = Z_OK -> 0 < taken + zlen made).
Proof. intros Hr E. injection E as <- <- <- <-. pose proof (zlen_nonneg i). unfold zlen in *. cbn. split_and!; (lia || done). Qed.

Definition demo_archive : archive_t :=
  match open (Some demo_zip) with Done (inr a) => a | _ => closed end.

Lemma demo_zip_bytes : bytes_ok demo_zip.
Proof. unfold demo_zip, bytes_ok. repeat constructor; done. Qed.

Lemma zip_open_safe_witness :
  exists r, open (Some demo_zip) = Done r /\
    match r with
    | inl _ => False
    | inr a => (name <$> entries_ a) = [bs "a"; bs "d/"] /\
        find a (bs "a") = first_named (bs "a") (entries_ a)
    end.
Proof.
  destruct (zip_open_safe demo_zip demo_zip_bytes ltac:(reflexivity)) as (r & E & Hr).
  exists r. split; [exact E |].
  assert (Hd : match r with inl _ => False | inr a => (name <$> entries_ a) = [bs "a"; bs "d/"] end)
    by (vm_compute in E; injection E as <-; reflexivity).
  destruct r as [x|a]; [exact Hd |]. split; [exact Hd | apply (proj2 (proj2 Hr))].
Defined.

Lemma zip_extract_safe_witness :
  exists e, find demo_archive (bs "a") = Some e /\
    exists r, extract unit (Some tt) demo_inflate demo_crc demo_archive e 100 = Done r /\
      match r with inl _ => False | inr o => o = bs "hi" /\ zlen o = uncompressed_size e end.
Proof.
  eexists. split; [vm_compute; reflexivity |].
  match goal with |- exists r, extract _ _ _ _ _ ?e _ = _ /\ _ =>
    destruct (zip_extract_safe unit (Some tt) demo_inflate demo_crc demo_archive demo_zip e 100
      demo_inflate_doc demo_crc_doc ltac:(reflexivity) demo_zip_bytes ltac:(reflexivity)) as (r & E & Hr)
  end.
  - unfold entry_ok, is_word. vm_compute. repeat split; (discriminate || reflexivity).
  - exists r. split; [exact E |]. vm_compute in E. injection E as <-. split; [reflexivity | apply Hr].
Defined.
