(* ===== verification/PeParser.v ===== *)
(** * PE images: src/core/disasm/pe_parser.cpp

    The whole header, section, import, export and exception-directory parser over
    raw bytes, with each read a checked load ([Crash] is a read outside the file),
    and the address translations of [pe_image_t].  Integer widths are those of the
    code: 32-bit sums wrap where the code adds 32-bit values, and the optional
    header offset is truncated to 16 bits. *)

From S2P Require Import Prelude.

#[local] Open Scope Z_scope.

Record pe_section_t := mk_section {
  sec_name : list Z; rva : Z; virtual_size : Z; raw_offset : Z; raw_size : Z; characteristics : Z
}.

#[export] Instance section_eq_dec : EqDecision pe_section_t.
Proof. solve_decision. Defined.

Definition is_executable (s : pe_section_t) : bool := negb (Z.land (characteristics s) 536870912 =? 0).

Definition contains_rva (s : pe_section_t) (r : Z) : bool :=
  (rva s <=? r) && (r <? u32 (rva s + (if virtual_size s =? 0 then raw_size s else virtual_size s))).

Record pe_import_func_t := mk_import { if_name : list Z; if_ordinal : Z; by_ordinal : bool; iat_rva : Z }.
Record pe_import_dll_t := mk_dll { dll : list Z; functions : list pe_import_func_t }.
Record pe_export_t := mk_export {
  ex_name : list Z; ex_rva : Z; ex_ordinal : Z; forwarded : bool; forwarder : list Z
}.
Record pe_runtime_func_t := mk_runtime { begin_rva : Z; end_rva : Z }.
Record pe_data_dir_t := mk_dir { dir_rva : Z; dir_size : Z }.

Record pe_image_t := mk_image {
  ok : bool; pe32plus : bool; machine : Z; subsystem : Z; image_base : Z; entry_rva : Z;
  size_of_image : Z; sections : list pe_section_t; imports : list pe_import_dll_t;
  exports : list pe_export_t; runtime_funcs : list pe_runtime_func_t; data_dirs : list pe_data_dir_t
}.

Definition image0 : pe_image_t := mk_image false false 0 0 0 0 0 [] [] [] [] (replicate 16 (mk_dir 0 0)).

(** ** Address translation *)

(** The first section that contains the address decides. *)
Fixpoint section_offset (ss : list pe_section_t) (r : Z) : option Z :=
  match ss with
  | [] => None
  | s :: ss' =>
      if negb (contains_rva s r) then section_offset ss' r
      else if raw_size s <=? r - rva s then None
      else Some (raw_offset s + (r - rva s))
  end.

Definition rva_to_offset_in (ss : list pe_section_t) (r : Z) : option Z :=
  match section_offset ss r with
  | Some o => Some o
  | None => if r <? 1024 then Some r else None
  end.

Definition rva_to_offset (img : pe_image_t) (r : Z) : option Z := rva_to_offset_in (sections img) r.

Definition va_to_offset (img : pe_image_t) (va : Z) : option Z :=
  if negb (ok img) then None
  else if (va <? image_base img) || (4294967295 <? va - image_base img) then None
  else rva_to_offset img (u32 (va - image_base img)).

Fixpoint section_va (base : Z) (ss : list pe_section_t) (off : Z) : option Z :=
  match ss with
  | [] => None
  | s :: ss' =>
      if (off <? raw_offset s) || (u32 (raw_offset s + raw_size s) <=? off) then section_va base ss' off
      else Some (u64 (base + rva s + u32 (off - raw_offset s)))
  end.

Definition offset_to_va (img : pe_image_t) (off : Z) : option Z :=
  section_va (image_base img) (sections img) off.

Fixpoint section_for_rva_in (ss : list pe_section_t) (r : Z) : option pe_section_t :=
  match ss with
  | [] => None
  | s :: ss' => if contains_rva s r then Some s else section_for_rva_in ss' r
  end.
Definition section_for_rva (img : pe_image_t) (r : Z) : option pe_section_t :=
  section_for_rva_in (sections img) r.

(** ** Reads *)

Definition rd16 (d : list Z) (off : Z) : outcome Z := load_le 2 d off.
Definition rd32 (d : list Z) (off : Z) : outcome Z := load_le 4 d off.
Definition rd64 (d : list Z) (off : Z) : outcome Z := load_le 8 d off.

(** [read_at]: the guard is computed in [size_t]. *)
Definition read_at32 (d : list Z) (off : Z) : outcome (option Z) :=
  if zlen d <? u64 (off + 4) then Done None else v ← rd32 d off; Done (Some v).

(** The loop of [read_cstring_at], every byte checked. *)
Fixpoint cstring_loop (n : nat) (d : list Z) (off : Z) : outcome (list Z) :=
  match n with
  | O => Done []
  | S n' =>
      c ← byte_at d off;
      if c =? 0 then Done [] else s ← cstring_loop n' d (off + 1); Done (c :: s)
  end.

Definition read_cstring_at (d : list Z) (off : Z) : outcome (list Z) :=
  if zlen d <=? off then Done []
  else cstring_loop (Z.to_nat (Z.min (u64 (zlen d - off)) 4096)) d off.

(** ** Headers *)

(** The data directories from [dd_off], up to the end of the file. *)
Fixpoint read_dirs (n : nat) (d : list Z) (o : Z) : outcome (list pe_data_dir_t) :=
  match n with
  | O => Done []
  | S n' =>
      if zlen d <? o + 8 then Done (replicate n (mk_dir 0 0))
      else r ← rd32 d o; s ← rd32 d (o + 4); ds ← read_dirs n' d (o + 8); Done (mk_dir r s :: ds)
  end.

Fixpoint read_sections (n : nat) (d : list Z) (o : Z) : outcome (list pe_section_t) :=
  match n with
  | O => Done []
  | S n' =>
      nm ← mapM (fun k => byte_at d (o + k)) (seqZ 0 8);
      vs ← rd32 d (o + 8);
      r ← rd32 d (o + 12);
      rs ← rd32 d (o + 16);
      ro ← rd32 d (o + 20);
      c ← rd32 d (o + 36);
      ss ← read_sections n' d (o + 40);
      Done (mk_section (nm ++ replicate 26 0) r vs ro rs c :: ss)
  end.

(** Up to the section table: [inl] is an early [return img]. *)
Definition parse_headers (d : list Z) : outcome (pe_image_t + pe_image_t) :=
  let len := zlen d in
  if len <? 64 then Done (inl image0)
  else
    m0 ← byte_at d 0;
    if negb (m0 =? ch "M") then Done (inl image0)
    else
      m1 ← byte_at d 1;
      if negb (m1 =? ch "Z") then Done (inl image0)
      else
        lf ← read_at32 d 60;
        match lf with
        | None => Done (inl image0)
        | Some e_lfanew =>
            if (e_lfanew =? 0) || (len <? u32 (e_lfanew + 24)) then Done (inl image0)
            else
              sig ← mapM (fun k => byte_at d (e_lfanew + k)) (seqZ 0 4);
              if negb (bool_decide (sig = [80; 69; 0; 0])) then Done (inl image0)
              else
                let coff := u32 (e_lfanew + 4) in
                if len <? coff + 20 then Done (inl image0)
                else
                  mach ← rd16 d coff;
                  let img := mk_image false false mach 0 0 0 0 [] [] [] [] (data_dirs image0) in
                  num_sections ← rd16 d (coff + 2);
                  let opt_header_off := u16 (e_lfanew + 24) in
                  opt_size ← rd16 d (coff + 16);
                  if (opt_size =? 0) || (len <? opt_header_off + opt_size) then Done (inl img)
                  else
                    magic ← rd16 d opt_header_off;
                    if negb (magic =? 267) && negb (magic =? 523) then Done (inl img)
                    else
                      let plus := magic =? 523 in
                      let img := mk_image false plus mach 0 0 0 0 [] [] [] [] (data_dirs image0) in
                      if opt_size <? (if plus then 112 else 96) then Done (inl img)
                      else
                        base ← (if plus then rd64 d (opt_header_off + 24) else rd32 d (opt_header_off + 28));
                        entry ← rd32 d (opt_header_off + 16);
                        sub ← rd16 d (opt_header_off + 68);
                        soi ← rd32 d (opt_header_off + 56);
                        let dd_off := u16 (opt_header_off + (if plus then 112 else 96)) in
                        dirs ← (if (if plus then 120 else 104) <=? opt_size
                                then read_dirs 16 d dd_off else Done (data_dirs image0));
                        let img := mk_image false plus mach sub base entry soi [] [] [] [] dirs in
                        let sec_table := opt_header_off + opt_size in
                        if len <? sec_table + num_sections * 40 then Done (inl img)
                        else
                          ss ← read_sections (Z.to_nat num_sections) d sec_table;
                          Done (inr (mk_image true plus mach sub base entry soi ss [] [] [] dirs))
        end.

(** ** Imports *)

Section Tables.
Variables (d : list Z) (ss : list pe_section_t) (plus : bool).

Abbreviation to_off := (rva_to_offset_in ss).

(** The thunk loop of one descriptor, [f] thunks in. *)
Fixpoint thunk_loop (n : nat) (f t iat : Z) (iat_ok : bool) : outcome (list pe_import_func_t) :=
  let size := if plus then 8 else 4 in
  match n with
  | O => Done []
  | S n' =>
      if zlen d <? t + size then Done []
      else
        thunk ← (if plus then rd64 d t else rd32 d t);
        if thunk =? 0 then Done []
        else
          let slot := u32 (iat + u32 f * size) in
          let next f := thunk_loop n' (f + 1) (t + size) iat iat_ok in
          if Z.testbit thunk (if plus then 63 else 31) then
            fs ← next f;
            Done (mk_import [] (Z.land thunk 65535) true slot :: fs)
          else match to_off (u32 thunk) with
               | None => Done []
               | Some noff =>
                   nm ← read_cstring_at d (noff + 2);
                   if bool_decide (nm = []) then (if iat_ok then Done [] else next f)
                   else fs ← next f; Done (mk_import nm 0 false slot :: fs)
               end
  end.

(** The descriptor loop; at most 256 libraries. *)
Fixpoint import_loop (n : nat) (desc : Z) : outcome (list pe_import_dll_t) :=
  match n with
  | O => Done []
  | S n' =>
      if zlen d <? desc + 20 then Done []
      else
        oft ← rd32 d desc;
        name_rva ← rd32 d (desc + 12);
        if (oft =? 0) && (name_rva =? 0) then Done []
        else
          nm ← read_cstring_at d (default 0 (to_off name_rva));
          iat ← rd32 d (desc + 16);
          let thunk_rva := if oft =? 0 then iat else oft in
          fs ← (match to_off thunk_rva with
                | Some t => if bool_decide (nm = []) then Done []
                            else thunk_loop 4096 0 t iat (bool_decide (is_Some (to_off iat)))
                | None => Done []
                end);
          rest ← import_loop n' (desc + 20);
          Done (mk_dll nm fs :: rest)
  end.

Definition parse_imports (dir : pe_data_dir_t) : outcome (list pe_import_dll_t) :=
  if (dir_rva dir =? 0) || (dir_size dir =? 0) then Done []
  else match to_off (dir_rva dir) with
       | Some desc => import_loop 256 desc
       | None => Done []
       end.

(** ** Exports *)

(** The name table; the names land at the function index of their ordinal. *)
Fixpoint names_loop (n : nat) (no oo : Z) (names : list (list Z)) : outcome (list (list Z)) :=
  match n with
  | O => Done names
  | S n' =>
      if (zlen d <? no + 4) || (zlen d <? oo + 2) then Done names
      else
        index ← rd16 d oo;
        sr ← rd32 d no;
        names' ← (match to_off sr with
                  | Some off => nm ← read_cstring_at d off; Done (<[Z.to_nat index := nm]> names)
                  | None => Done names
                  end);
        names_loop n' (no + 4) (oo + 2) names'
  end.

Fixpoint funcs_loop (n : nat) (index fo base exp_rva exp_end : Z) (names : list (list Z))
  : outcome (list pe_export_t) :=
  match n with
  | O => Done []
  | S n' =>
      if zlen d <? fo + 4 then Done []
      else
        func ← rd32 d fo;
        if func =? 0 then funcs_loop n' (index + 1) (fo + 4) base exp_rva exp_end names
        else
          let fwd := (exp_rva <=? func) && (func <? exp_end) in
          target ← (if fwd then match to_off func with
                                | Some o => read_cstring_at d o | None => Done [] end else Done []);
          rest ← funcs_loop n' (index + 1) (fo + 4) base exp_rva exp_end names;
          Done (mk_export (default [] (names !! Z.to_nat index)) func (u16 (base + index)) fwd target :: rest)
  end.

Definition parse_exports (dir : pe_data_dir_t) : outcome (list pe_export_t) :=
  if dir_rva dir =? 0 then Done []
  else match to_off (dir_rva dir) with
       | None => Done []
       | Some o =>
           if zlen d <? o + 40 then Done []
           else
             base ← rd32 d (o + 16);
             nf ← rd32 d (o + 20);
             nn ← rd32 d (o + 24);
             funcs ← rd32 d (o + 28);
             nrva ← rd32 d (o + 32);
             orva ← rd32 d (o + 36);
             let num_funcs := Z.min nf 65536 in
             let num_names := Z.min nn 65536 in
             match to_off funcs with
             | None => Done []
             | Some fo =>
                 names ← (match to_off nrva, to_off orva with
                          | Some no, Some oo =>
                              names_loop (Z.to_nat num_names) no oo (replicate (Z.to_nat num_funcs) [])
                          | _, _ => Done (replicate (Z.to_nat num_funcs) [])
                          end);
                 funcs_loop (Z.to_nat num_funcs) 0 fo base (dir_rva dir) (dir_rva dir + dir_size dir) names
             end
       end.

(** ** The exception directory *)

Fixpoint runtime_loop (n : nat) (o : Z) : outcome (list pe_runtime_func_t) :=
  match n with
  | O => Done []
  | S n' =>
      b ← rd32 d o;
      e ← rd32 d (o + 4);
      rest ← runtime_loop n' (o + 12);
      Done (if (b =? 0) || (e <=? b) then rest else mk_runtime b e :: rest)
  end.

Definition parse_runtime (dir : pe_data_dir_t) : outcome (list pe_runtime_func_t) :=
  if (dir_rva dir =? 0) || (dir_size dir <? 12) then Done []
  else match to_off (dir_rva dir) with
       | None => Done []
       | Some o =>
           if zlen d <? o + 12 then Done []
           else
             let count := Z.min (Z.min (dir_size dir / 12) 500000) ((zlen d - o) / 12) in
             runtime_loop (Z.to_nat count) o
       end.
End Tables.

Definition dir_at (img : pe_image_t) (i : nat) : pe_data_dir_t := default (mk_dir 0 0) (data_dirs img !! i).

Definition pe_parse (d : list Z) : outcome pe_image_t :=
  h ← parse_headers d;
  match h with
  | inl img => Done img
  | inr img =>
      im ← parse_imports d (sections img) (pe32plus img) (dir_at img 1);
      ex ← parse_exports d (sections img) (dir_at img 0);
      rt ← parse_runtime d (sections img) (dir_at img 3);
      Done (mk_image true (pe32plus img) (machine img) (subsystem img) (image_base img) (entry_rva img)
              (size_of_image img) (sections img) im ex rt (data_dirs img))
  end.

(** ** What a parsed image satisfies *)

Definition extent (s : pe_section_t) : Z := if virtual_size s =? 0 then raw_size s else virtual_size s.

Definition section_ok (s : pe_section_t) : Prop :=
  length (sec_name s) = 34%nat /\ is_word 32 (rva s) /\ is_word 32 (virtual_size s) /\
  is_word 32 (raw_offset s) /\ is_word 32 (raw_size s).

Definition import_ok (i : pe_import_dll_t) : Prop := (length (functions i) <= 4096)%nat.
Definition export_ok (e : pe_export_t) : Prop :=
  0 < ex_rva e < 2 ^ 32 /\ is_word 16 (ex_ordinal e) /\ (forwarded e = false -> forwarder e = []).
Definition runtime_ok (f : pe_runtime_func_t) : Prop := 0 < begin_rva f < end_rva f /\ end_rva f < 2 ^ 32.
Definition dir_ok (x : pe_data_dir_t) : Prop := is_word 32 (dir_rva x) /\ is_word 32 (dir_size x).

Definition image_ok (img : pe_image_t) : Prop :=
  Forall section_ok (sections img) /\ Forall import_ok (imports img) /\ (length (imports img) <= 256)%nat /\
  Forall export_ok (exports img) /\ zlen (exports img) <= 65536 /\
  Forall runtime_ok (runtime_funcs img) /\ zlen (runtime_funcs img) <= 500000 /\
  length (data_dirs img) = 16%nat /\ Forall dir_ok (data_dirs img).

(** An image that was not accepted carries no tables. *)
Definition no_tables (img : pe_image_t) : Prop :=
  sections img = [] /\ imports img = [] /\ exports img = [] /\ runtime_funcs img = [].

(** A load at an offset the guards keep inside the file, then the continuation. *)
Ltac load :=
  eapply returns_bind; [apply returns_load; [eassumption | lia | lia] |];
  let v := fresh "v" in let Hv := fresh "Hv" in
  intros v Hv; unfold is_word in Hv; cbn [Z.of_nat Z.mul Pos.mul Pos.add Pos.of_succ_nat Pos.succ] in Hv.

Lemma section_offset_nonneg ss r o :
  Forall section_ok ss -> 0 <= r -> rva_to_offset_in ss r = Some o -> 0 <= o.
Proof.
  intros Hs Hr. unfold rva_to_offset_in. destruct (section_offset ss r) as [o'|] eqn:E.
  - intros [= <-]. revert E. induction Hs as [|s ss (_ & H1 & H2 & H3 & H4) Hss IH]; cbn; [done |].
    unfold is_word in *. unfold contains_rva.
    destruct (Z.leb_spec (rva s) r); cbn; [|exact IH]. destruct (_ <? _); cbn; [|exact IH].
    destruct (_ <=? _); [done |]. intros [= <-]. lia.
  - destruct (_ <? _); [|done]. by intros [= <-].
Qed.

Section Safe.
Variable d : list Z.
Hypothesis Hd : bytes_ok d.

Lemma returns_byte off : 0 <= off < zlen d -> returns (byte_at d off) is_byte.
Proof using Hd.
  intros H. destruct (byte_at_in d off H) as (b & E & Hb). exists b. split; [done |].
  exact (proj1 (Forall_forall _ _) Hd b Hb).
Qed.

(** The prefix of a buffer before its first NUL. *)
Fixpoint until_nul (l : list Z) : list Z :=
  match l with c :: l' => if c =? 0 then [] else c :: until_nul l' | [] => [] end.

Lemma cstring_loop_spec n off :
  0 <= off -> off + Z.of_nat n <= zlen d ->
  cstring_loop n d off = Done (until_nul (take n (drop (Z.to_nat off) d))).
Proof.
  revert off. induction n as [|n IH]; intros off Ho Hn; cbn [cstring_loop]; [done |].
  unfold zlen in Hn. destruct (lookup_lt_is_Some_2 d (Z.to_nat off)) as [b Hb]; [lia |].
  unfold byte_at. rewrite (proj2 (Z.ltb_ge off 0)) by done. rewrite Hb, (drop_S d b _ Hb).
  cbn [mbind outcome_bind take until_nul]. destruct (b =? 0); [done |].
  rewrite IH by (unfold zlen; lia). cbn [mbind outcome_bind].
  by replace (Z.to_nat (off + 1)) with (S (Z.to_nat off)) by lia.
Qed.

Lemma read_cstring_safe off : 0 <= off -> returns (read_cstring_at d off) (fun _ => True).
Proof.
  intros Ho. unfold read_cstring_at. destruct (Z.leb_spec (zlen d) off); [by apply returns_done |].
  assert (0 <= u64 (zlen d - off) <= zlen d - off).
  { unfold wrap. pose proof (Z.mod_pos_bound (zlen d - off) (2 ^ 64)).
    pose proof (Z.mod_le (zlen d - off) (2 ^ 64)). lia. }
  rewrite cstring_loop_spec by lia. by apply returns_done.
Qed.

Lemma read_dirs_safe n o :
  0 <= o -> returns (read_dirs n d o) (fun ds => length ds = n /\ Forall dir_ok ds).
Proof using Hd.
  revert o. induction n as [|n IH]; intros o Ho; cbn [read_dirs]; [by apply returns_done |].
  destruct (Z.ltb_spec (zlen d) (o + 8)).
  { apply returns_done. rewrite length_replicate. split; [done |]. by apply Forall_replicate. }
  unfold rd32. load. load. eapply returns_bind; [apply IH; lia |].
  intros ds [Hl Hf]. apply returns_done. split; [cbn; lia |]. by constructor.
Qed.

Lemma read_sections_safe n o :
  0 <= o -> o + 40 * Z.of_nat n <= zlen d ->
  returns (read_sections n d o) (fun ss => length ss = n /\ Forall section_ok ss).
Proof using Hd.
  revert o. induction n as [|n IH]; intros o Ho Hlen; cbn [read_sections]; [by apply returns_done |].
  eapply returns_bind; [apply returns_slice; lia |]. intros nm Hnm.
  unfold rd32. load. load. load. load. load.
  eapply returns_bind; [apply IH; lia |].
  intros ss [Hl Hf]. apply returns_done. split; [cbn; lia |]. constructor; [|done].
  unfold section_ok. cbn [sec_name rva virtual_size raw_offset raw_size]. split_and!; try done.
  rewrite length_app, length_replicate, Hnm, length_take, length_drop.
  unfold zlen in *. change (Z.to_nat 8) with 8%nat. lia.
Qed.
End Safe.

(** ** The header parser *)

Lemma dirs0_ok : Forall dir_ok (data_dirs image0).
Proof. apply Forall_replicate. done. Qed.

Section Headers.
Variable d : list Z.
Hypothesis Hd : bytes_ok d.
(** The sum with [e_lfanew] does not wrap, and the optional header is not a lone byte. *)
Hypothesis Hlf : forall e, rd32 d 60 = Done e -> e < 2 ^ 32 - 24.
Hypothesis Hopt : forall e s, rd32 d 60 = Done e -> rd16 d (e + 20) = Done s -> s <> 1.

Definition headers_ok (h : pe_image_t + pe_image_t) : Prop :=
  match h with
  | inl img => ok img = false /\ no_tables img /\ image_ok img
  | inr img => ok img = true /\ image_ok img
  end.

Lemma headers_inl p m b e s i ss :
  length ss = 16%nat -> Forall dir_ok ss ->
  returns (Done (inl (mk_image false p m s b e i [] [] [] [] ss))) headers_ok.
Proof.
  intros. apply returns_done. cbn. split; [done |]. split; [done |].
  unfold image_ok, zlen; cbn. split_and!; (done || lia || by constructor).
Qed.

Lemma parse_headers_safe : returns (parse_headers d) headers_ok.
Proof using Hd Hlf Hopt.
  assert (D0 : length (data_dirs image0) = 16%nat) by done. pose proof dirs0_ok as D1.
  unfold parse_headers. cbv zeta. destruct (Z.ltb_spec (zlen d) 64); [by apply headers_inl |].
  eapply returns_bind; [apply returns_byte; [done | lia] |]. intros m0 _.
  destruct (negb (m0 =? _)); [by apply headers_inl |].
  eapply returns_bind; [apply returns_byte; [done | lia] |]. intros m1 _.
  destruct (negb (m1 =? _)); [by apply headers_inl |].
  unfold read_at32, rd16, rd32, rd64. change (u64 (60 + 4)) with 64.
  destruct (Z.ltb_spec (zlen d) 64); [lia |].
  destruct (returns_load 4 d 60 Hd ltac:(lia) ltac:(lia)) as (e & He & Hew). rewrite He.
  change (is_word (8 * Z.of_nat 4) e) with (0 <= e < 2 ^ 32) in Hew. pose proof (Hlf e He) as Hle.
  cbn [mbind outcome_bind].
  rewrite !wrap_small by (unfold is_word; lia).
  destruct (Z.eqb_spec e 0); cbn [orb]; [by apply headers_inl |].
  destruct (Z.ltb_spec (zlen d) (e + 24)); [by apply headers_inl |].
  eapply returns_bind; [apply returns_slice; lia |]. intros sig _.
  destruct (negb _); [by apply headers_inl |].
  destruct (Z.ltb_spec (zlen d) (e + 4 + 20)); [by apply headers_inl |].
  load. rename v into mach. load. rename v into ns.
  replace (e + 4 + 16) with (e + 20) by lia.
  destruct (returns_load 2 d (e + 20) Hd ltac:(lia) ltac:(lia)) as (os & Hos & Hosw).
  pose proof (Hopt e os He Hos) as Hos1. rewrite Hos. cbn [mbind outcome_bind].
  change (is_word (8 * Z.of_nat 2) os) with (0 <= os < 2 ^ 16) in Hosw.
  pose proof (wrap_range 16 (e + 24) ltac:(lia)) as Hoh. set (oh := u16 (e + 24)) in *.
  unfold is_word in Hoh.
  destruct (Z.eqb_spec os 0); cbn [orb]; [by apply headers_inl |].
  destruct (Z.ltb_spec (zlen d) (oh + os)); [by apply headers_inl |].
  load. rename v into magic.
  destruct (negb _ && negb _); [by apply headers_inl |].
  set (plus := magic =? 523).
  assert (Hmin : forall a b, (if plus then a else b) = a \/ (if plus then a else b) = b :> Z)
    by (intros; destruct plus; auto).
  destruct (Z.ltb_spec os (if plus then 112 else 96)); [by apply headers_inl |].
  assert (96 <= os) by (destruct plus; lia).
  apply returns_bind with (P := is_word 64).
  { destruct plus.
    - eapply returns_weaken; [apply returns_load; [done | lia | cbn; lia] |]. by intros a.
    - eapply returns_weaken; [apply returns_load; [done | lia | cbn; lia] |]. unfold is_word; intros a; cbn; lia. }
  intros base Hbase. load. rename v into entry. load. rename v into sub.
  load. rename v into soi.
  apply returns_bind with (P := fun ds => length ds = 16%nat /\ Forall dir_ok ds).
  { destruct (_ <=? os); [|by apply returns_done]. apply read_dirs_safe; [done |].
    apply (wrap_range 16). lia. }
  intros dirs [Hdl Hdf]. destruct (Z.ltb_spec (zlen d) (oh + os + ns * 40)); [by apply headers_inl |].
  eapply returns_bind; [apply read_sections_safe; [done | lia | lia] |]. intros ss [_ Hss].
  apply returns_done. split; [done |]. unfold image_ok, zlen; cbn.
  split_and!; (done || lia || by constructor).
Qed.
End Headers.

(** ** The tables *)

Section TablesSafe.
Variables (d : list Z) (ss : list pe_section_t) (plus : bool).
Hypothesis Hd : bytes_ok d.
Hypothesis Hss : Forall section_ok ss.

Lemma to_off_nonneg r o : 0 <= r -> rva_to_offset_in ss r = Some o -> 0 <= o.
Proof using Hss. apply section_offset_nonneg, Hss. Qed.

Lemma thunk_loop_safe n f t iat b :
  0 <= t -> returns (thunk_loop d ss plus n f t iat b) (fun fs => (length fs <= n)%nat).
Proof using Hd Hss.
  revert f t. induction n as [|n IH]; intros f t Ht; cbn [thunk_loop]; [by apply returns_done |].
  destruct (Z.ltb_spec (zlen d) (t + (if plus then 8 else 4))); [apply returns_done; cbn; lia |].
  assert (Hnext : forall f', returns (thunk_loop d ss plus n f' (t + (if plus then 8 else 4)) iat b)
    (fun fs => (length fs <= n)%nat)) by (intros; apply IH; destruct plus; lia).
  apply returns_bind with (P := fun _ => True).
  { unfold rd64, rd32. destruct plus; (eapply returns_weaken; [apply returns_load; [done | lia | cbn; lia] | done]). }
  intros thunk _. destruct (thunk =? 0); [apply returns_done; cbn; lia |]. cbv zeta.
  destruct (Z.testbit _ _).
  { eapply returns_bind; [apply Hnext |]. intros fs Hl. apply returns_done. cbn in *. lia. }
  destruct (rva_to_offset_in ss (u32 thunk)) as [noff|] eqn:Hno; [|apply returns_done; cbn; lia].
  apply to_off_nonneg in Hno; [|apply (wrap_range 32); lia].
  eapply returns_bind; [apply read_cstring_safe; lia |]. intros nm _.
  destruct (bool_decide _); [destruct b; [apply returns_done; cbn; lia |] |].
  - eapply returns_weaken; [apply Hnext |]. cbn. lia.
  - eapply returns_bind; [apply Hnext |]. intros fs Hl. apply returns_done. cbn in *. lia.
Qed.

Lemma import_loop_safe n desc :
  0 <= desc ->
  returns (import_loop d ss plus n desc) (fun im => (length im <= n)%nat /\ Forall import_ok im).
Proof using Hd Hss.
  revert desc. induction n as [|n IH]; intros desc Hde; cbn [import_loop]; [by apply returns_done |].
  assert (Hnil : (length (@nil pe_import_dll_t) <= S n)%nat /\ Forall import_ok []) by (split; [unfold zlen; cbn; lia | done]).
  destruct (Z.ltb_spec (zlen d) (desc + 20)); [by apply returns_done |].
  unfold rd32. load. load. destruct (_ && _); [by apply returns_done |].
  eapply returns_bind; [apply read_cstring_safe |].
  { destruct (rva_to_offset_in ss v0) as [o|] eqn:Ho; [|done]. eapply to_off_nonneg; [|exact Ho]. lia. }
  intros nm _. load. cbv zeta.
  apply returns_bind with (P := fun fs => (length fs <= 4096)%nat).
  { destruct (rva_to_offset_in ss _) as [t|] eqn:Ht; [|apply returns_done; cbn; lia].
    destruct (bool_decide _); [apply returns_done; cbn; lia |].
    apply thunk_loop_safe. eapply to_off_nonneg; [|exact Ht]. destruct (_ =? 0); lia. }
  intros fs Hfs. eapply returns_bind; [apply IH; lia |]. intros rest [Hl Hf]. apply returns_done.
  split; [cbn; lia |]. by constructor.
Qed.

Lemma parse_imports_safe dir :
  dir_ok dir ->
  returns (parse_imports d ss plus dir) (fun im => (length im <= 256)%nat /\ Forall import_ok im).
Proof using Hd Hss.
  intros [Hr _]. unfold parse_imports.
  destruct (_ || _); [apply returns_done; split; [cbn; lia | done] |].
  destruct (rva_to_offset_in ss (dir_rva dir)) as [o|] eqn:E;
    [|apply returns_done; split; [cbn; lia | done]].
  apply import_loop_safe. eapply to_off_nonneg; [|exact E]. apply Hr.
Qed.

Lemma names_loop_safe n no oo names :
  0 <= no -> 0 <= oo -> returns (names_loop d ss n no oo names) (fun r => length r = length names).
Proof using Hd Hss.
  revert no oo names. induction n as [|n IH]; intros no oo names Hn Ho; cbn [names_loop]; [by apply returns_done |].
  destruct (Z.ltb_spec (zlen d) (no + 4)); [by apply returns_done |].
  destruct (Z.ltb_spec (zlen d) (oo + 2)); [by apply returns_done |].
  cbn [orb]. unfold rd16, rd32. load. load.
  apply returns_bind with (P := fun r => length r = length names).
  { destruct (rva_to_offset_in ss v0) as [off|] eqn:E; [|by apply returns_done].
    apply to_off_nonneg in E; [|lia]. eapply returns_bind; [by apply read_cstring_safe |].
    intros nm _. apply returns_done, length_insert. }
  intros names' Hn'. rewrite <- Hn'. apply IH; lia.
Qed.

Lemma funcs_loop_safe n i fo base er ee names :
  0 <= fo ->
  returns (funcs_loop d ss n i fo base er ee names) (fun es => (length es <= n)%nat /\ Forall export_ok es).
Proof using Hd Hss.
  revert i fo. induction n as [|n IH]; intros i fo Ho; cbn [funcs_loop]; [by apply returns_done |].
  destruct (Z.ltb_spec (zlen d) (fo + 4)); [apply returns_done; split; [cbn; lia | done] |].
  unfold rd32. load. destruct (Z.eqb_spec v 0).
  { eapply returns_weaken; [apply IH; lia |]. intros es [Hl Hf]. split; [lia | done]. }
  cbv zeta. set (fwd := (er <=? v) && (v <? ee)).
  apply returns_bind with (P := fun t => fwd = false -> t = []).
  { destruct fwd; [|by apply returns_done].
    destruct (rva_to_offset_in ss v) as [o|] eqn:E; [|by apply returns_done].
    apply to_off_nonneg in E; [|lia]. eapply returns_weaken; [by apply read_cstring_safe | done]. }
  intros t Ht. eapply returns_bind; [apply IH; lia |]. intros rest [Hl Hf].
  apply returns_done. split; [cbn; lia |]. constructor; [|done].
  split; [cbn; lia |]. split; [by apply wrap_range | exact Ht].
Qed.

Lemma parse_exports_safe dir :
  dir_ok dir -> returns (parse_exports d ss dir) (fun es => zlen es <= 65536 /\ Forall export_ok es).
Proof using Hd Hss.
  intros [Hr _]. unfold parse_exports.
  assert (Hnil : zlen (@nil pe_export_t) <= 65536 /\ Forall export_ok []) by (split; [unfold zlen; cbn; lia | done]).
  destruct (_ =? 0); [by apply returns_done |].
  destruct (rva_to_offset_in ss (dir_rva dir)) as [o|] eqn:E; [|by apply returns_done].
  assert (0 <= o) by (eapply to_off_nonneg; [|exact E]; apply Hr).
  destruct (Z.ltb_spec (zlen d) (o + 40)); [by apply returns_done |].
  unfold rd32. load. load. load. load. load. load. cbv zeta.
  destruct (rva_to_offset_in ss v2) as [fo|] eqn:Ef; [|by apply returns_done].
  apply returns_bind with (P := fun _ => True).
  { destruct (rva_to_offset_in ss v3) as [no|] eqn:E3; [|by apply returns_done].
    destruct (rva_to_offset_in ss v4) as [oo|] eqn:E4; [|by apply returns_done].
    eapply returns_weaken; [apply names_loop_safe; [eapply to_off_nonneg; [|exact E3]; lia
      | eapply to_off_nonneg; [|exact E4]; lia] | done]. }
  intros names _. eapply returns_weaken; [apply funcs_loop_safe; eapply to_off_nonneg; [|exact Ef]; lia |].
  intros es [Hl Hf]. split; [unfold zlen; lia | done].
Qed.

Lemma runtime_loop_safe n o :
  0 <= o -> o + 12 * Z.of_nat n <= zlen d ->
  returns (runtime_loop d n o) (fun fs => (length fs <= n)%nat /\ Forall runtime_ok fs).
Proof using Hd.
  revert o. induction n as [|n IH]; intros o Ho Hlen; cbn [runtime_loop]; [by apply returns_done |].
  unfold rd32. load. load. eapply returns_bind; [apply IH; lia |]. intros rest [Hl Hf]. apply returns_done.
  destruct (Z.eqb_spec v 0); cbn [orb]; [split; [lia | done] |].
  destruct (Z.leb_spec v0 v); [split; [lia | done] |].
  split; [cbn; lia |]. constructor; [|done]. unfold runtime_ok. cbn. lia.
Qed.

Lemma parse_runtime_safe dir :
  dir_ok dir -> returns (parse_runtime d ss dir) (fun fs => zlen fs <= 500000 /\ Forall runtime_ok fs).
Proof using Hd Hss.
  intros [Hr Hsz]. unfold parse_runtime.
  assert (Hnil : zlen (@nil pe_runtime_func_t) <= 500000 /\ Forall runtime_ok []) by (split; [unfold zlen; cbn; lia | done]).
  destruct (_ || _); [by apply returns_done |].
  destruct (rva_to_offset_in ss (dir_rva dir)) as [o|] eqn:E; [|by apply returns_done].
  assert (0 <= o) by (eapply to_off_nonneg; [|exact E]; apply Hr).
  destruct (Z.ltb_spec (zlen d) (o + 12)); [by apply returns_done |]. cbv zeta.
  set (c := Z.min _ _). assert (c <= 500000 /\ o + 12 * c <= zlen d /\ 0 <= c).
  { unfold c. unfold is_word in Hsz.
    pose proof (Z.div_pos (dir_size dir) 12 ltac:(lia) ltac:(lia)).
    pose proof (Z.div_pos (zlen d - o) 12 ltac:(lia) ltac:(lia)).
    pose proof (Z.mul_div_le (zlen d - o) 12 ltac:(lia)). lia. }
  eapply returns_weaken; [apply runtime_loop_safe; lia |]. intros fs [Hl Hf]. split; [unfold zlen; lia | done].
Qed.
End TablesSafe.

Lemma dir_at_ok img i : Forall dir_ok (data_dirs img) -> dir_ok (dir_at img i).
Proof.
  intros H. unfold dir_at. destruct (data_dirs img !! i) as [x|] eqn:E; [|done]. by eapply Forall_lookup_1.
Qed.

(** C21: Parsing an arbitrary file touches no byte outside it and always returns,
    with bounded tables and well-formed entries, and with no table at all in an
    image that is not accepted, unless the 32-bit sum with [e_lfanew] wraps or the
    optional header is declared to be one byte. *)
Theorem pe_parse_safe (d : list Z) :
  bytes_ok d ->
  (forall e, rd32 d 60 = Done e -> e < 2 ^ 32 - 24) ->
  (forall e s, rd32 d 60 = Done e -> rd16 d (e + 20) = Done s -> s <> 1) ->
  returns (pe_parse d) (fun img => image_ok img /\ (ok img = false -> no_tables img)).
Proof.
  intros Hd Hlf Hopt. unfold pe_parse.
  eapply returns_bind; [by apply parse_headers_safe |]. intros [img|img] H.
  { apply returns_done. destruct H as (? & ? & ?). by split. }
  destruct H as (_ & Hs & _ & _ & _ & _ & _ & _ & Hdl & Hdf).
  eapply returns_bind; [apply parse_imports_safe; [done.. | by apply dir_at_ok] |]. intros im [Hil Hif].
  eapply returns_bind; [apply parse_exports_safe; [done.. | by apply dir_at_ok] |]. intros ex [Hel Hef].
  eapply returns_bind; [apply parse_runtime_safe; [done.. | by apply dir_at_ok] |]. intros rt [Hrl Hrf].
  apply returns_done. split; [|done]. unfold image_ok; cbn. by split_and!.
Qed.

(** A PE32+ file with one section and no directories, at [e_lfanew = 64]. *)
Definition sample_pe : list Z :=
  [77; 90] ++ replicate 58 0 ++ [64; 0; 0; 0] ++ [80; 69; 0; 0] ++
  [100; 134; 1; 0] ++ replicate 12 0 ++ [112; 0; 34; 0] ++
  [11; 2] ++ replicate 14 0 ++ [0; 16; 0; 0] ++ replicate 4 0 ++ [0; 0; 0; 64; 1; 0; 0; 0] ++ replicate 80 0 ++
  [46; 116; 101; 120; 116; 0; 0; 0] ++ [16; 0; 0; 0] ++ [0; 16; 0; 0] ++ [8; 0; 0; 0] ++ [64; 0; 0; 0] ++
  replicate 12 0 ++ [32; 0; 0; 96].

Lemma pe_parse_safe_witness :
  returns (pe_parse sample_pe) (fun img => image_ok img /\ (ok img = false -> no_tables img)) /\
  (match pe_parse sample_pe with Done img => (ok img, length (sections img), image_base img) | Crash => (false, 0%nat, 0) end
    = (true, 1%nat, 5368709120)).
Proof.
  split; [|vm_compute; reflexivity]. apply (pe_parse_safe sample_pe).
  - apply (proj1 (bool_decide_eq_true (Forall (fun b => 0 <= b < 256) sample_pe))). vm_compute. reflexivity.
  - intros e He. assert (E : rd32 sample_pe 60 = Done 64) by (vm_compute; reflexivity).
    rewrite E in He. injection He as <-. lia.
  - intros e s He. assert (E : rd32 sample_pe 60 = Done 64) by (vm_compute; reflexivity).
    rewrite E in He. injection He as <-. assert (E2 : rd16 sample_pe (64 + 20) = Done 112) by (vm_compute; reflexivity).
    rewrite E2. intros Hs. injection Hs as <-. lia.
Defined.

(** In every file below 4 GB that starts with MZ and whose [e_lfanew] is one of
    the last 24 32-bit values, the sum of the header guard wraps to at most 23, the
    guard passes, and the signature comparison reads outside the file. *)
Lemma lfanew_guard_wraps (d : list Z) (e : Z) :
  64 <= zlen d <= 2 ^ 32 - 24 -> byte_at d 0 = Done (ch "M") -> byte_at d 1 = Done (ch "Z") ->
  rd32 d 60 = Done e -> 2 ^ 32 - 24 <= e < 2 ^ 32 -> pe_parse d = Crash.
Proof.
  intros Hl H0 H1 He Hr. unfold pe_parse, parse_headers. cbv zeta.
  destruct (Z.ltb_spec (zlen d) 64); [lia |].
  rewrite H0. cbn [mbind outcome_bind]. rewrite Z.eqb_refl. cbn [negb].
  rewrite H1. cbn [mbind outcome_bind]. rewrite Z.eqb_refl. cbn [negb].
  unfold read_at32. change (u64 (60 + 4)) with 64. destruct (Z.ltb_spec (zlen d) 64); [lia |].
  rewrite He. cbn [mbind outcome_bind].
  assert (Hw : u32 (e + 24) = e + 24 - 2 ^ 32).
  { unfold wrap. rewrite <- (Z_mod_plus_full _ (-1)), Z.mod_small; lia. }
  rewrite Hw. destruct (Z.eqb_spec e 0); [lia |]. destruct (Z.ltb_spec (zlen d) (e + 24 - 2 ^ 32)); [lia |].
  cbn [orb]. change (seqZ 0 4) with [0; 1; 2; 3]. cbn [mapM].
  rewrite (byte_at_out d (e + 0)) by lia. done.
Qed.

Definition wrapping_pe : list Z := [77; 90] ++ replicate 58 0 ++ [240; 255; 255; 255].

Lemma lfanew_guard_wraps_witness : pe_parse wrapping_pe = Crash.
Proof.
  apply (lfanew_guard_wraps wrapping_pe 4294967280); try (vm_compute; reflexivity).
  - change (zlen wrapping_pe) with 64. lia.
  - lia.
Defined.

(** An optional header of one byte at the end of the file passes the length
    guard, and the two-byte magic is read one byte past the end. *)
Lemma lone_optional_byte_overread :
  pe_parse ([77; 90] ++ replicate 58 0 ++ [64; 0; 0; 0] ++ [80; 69; 0; 0] ++
            replicate 16 0 ++ [1; 0; 0; 0] ++ [11]) = Crash.
Proof. vm_compute. reflexivity. Qed.

(** A file rejected after its COFF header keeps the machine and the image base
    it had read: the result is not zeroed. *)
Lemma failed_parse_keeps_fields :
  match pe_parse (take 200 sample_pe) with
  | Done img => ok img = false /\ machine img = 34404 /\ image_base img = 5368709120
  | Crash => False
  end.
Proof. vm_compute. done. Qed.

(** ** Address translation round trip *)

Definition geo (s : pe_section_t) : Prop :=
  section_ok s /\ 1024 <= rva s /\ raw_size s <= extent s /\ rva s + extent s < 2 ^ 32 /\
  raw_offset s + raw_size s < 2 ^ 32.

Definition apart (s s' : pe_section_t) : Prop :=
  s <> s' ->
  (rva s + extent s <= rva s' \/ rva s' + extent s' <= rva s) /\
  (raw_offset s + raw_size s <= raw_offset s' \/ raw_offset s' + raw_size s' <= raw_offset s).

Lemma geo_contains s r : geo s -> contains_rva s r = true <-> rva s <= r < rva s + extent s.
Proof.
  intros ((_ & Hr & Hv & _ & Hs) & _ & _ & Hb & _). unfold contains_rva, is_word, extent in *.
  rewrite wrap_small by (unfold is_word; destruct (_ =? 0); lia).
  rewrite andb_true_iff, Z.leb_le, Z.ltb_lt. done.
Qed.

Lemma section_for_some ss r :
  Forall geo ss ->
  is_Some (section_for_rva_in ss r) <-> exists s, s ∈ ss /\ rva s <= r < rva s + extent s.
Proof.
  induction 1 as [|s ss Hs Hss IH]; cbn.
  { split; [by intros [? ?] |]. intros (s & Hs & _). by apply elem_of_nil in Hs. }
  pose proof (geo_contains s r Hs) as Hc. destruct (contains_rva s r).
  - split; [|done]. intros _. exists s. split; [left | by apply Hc].
  - rewrite IH. split; intros (x & Hx & Hr).
    + exists x. split; [by right | done].
    + apply elem_of_cons in Hx as [->|Hx]; [by apply Hc in Hr | by exists x].
Qed.

(** The file offset [off] and the address [r] meet in the section [s]. *)
Definition backs (s : pe_section_t) (r off : Z) : Prop :=
  rva s <= r < rva s + raw_size s /\ off = raw_offset s + (r - rva s).

Section Geometry.
Variable ss0 : list pe_section_t.
Hypothesis Hgeo : Forall geo ss0.
Hypothesis Hapart : ForallPairs apart ss0.

Lemma section_offset_spec ss r off :
  ss ⊆ ss0 -> section_offset ss r = Some off <-> exists s, s ∈ ss /\ backs s r off.
Proof using Hgeo Hapart.
  intros Hin. split.
  - induction ss as [|s ss IH]; cbn; [done |].
    assert (Hs : geo s) by (eapply (proj1 (Forall_forall _ _)); [done | apply Hin; left]).
    pose proof (geo_contains s r Hs) as Hc. destruct (contains_rva s r); cbn.
    + assert (Hr : rva s <= r < rva s + extent s) by (by apply Hc). destruct (Z.leb_spec (raw_size s) (r - rva s)); [done |].
      intros [= <-]. exists s. split; [left |]. unfold backs. lia.
    + intros E. destruct IH as (x & Hx & Hb); [intros z Hz; apply Hin; by right | done |]. exists x. split; [by right | done].
  - intros (s & Hs & Hb). induction ss as [|x ss IH]; [by apply elem_of_nil in Hs |]. cbn.
    assert (Hgs : geo s) by (eapply (proj1 (Forall_forall _ _)); [done | by apply Hin]).
    assert (Hgx : geo x) by (eapply (proj1 (Forall_forall _ _)); [done | apply Hin; left]).
    pose proof (geo_contains s r Hgs) as Hc. pose proof (geo_contains x r Hgx) as Hcx.
    destruct Hb as [Hr ->]. destruct Hgs as (_ & _ & Hext & _).
    destruct (decide (s = x)) as [<-|Hne].
    + rewrite (proj2 Hc ltac:(lia)). cbn. destruct (Z.leb_spec (raw_size s) (r - rva s)); [lia | done].
    + destruct (Hapart s x) as [Hd _]; [apply list_elem_of_In; by apply Hin | apply list_elem_of_In, Hin; left | done |].
      destruct (contains_rva x r); [destruct (proj1 Hcx eq_refl); lia |]. cbn.
      apply IH; [intros z Hz; apply Hin; by right |]. apply elem_of_cons in Hs as [->|Hs]; [done | exact Hs].
Qed.

Lemma section_va_spec base ss off va :
  0 <= base <= 2 ^ 64 - 2 ^ 32 -> ss ⊆ ss0 ->
  section_va base ss off = Some va <-> exists s, s ∈ ss /\ backs s (va - base) off.
Proof using Hgeo Hapart.
  intros Hbase Hin. induction ss as [|x ss IH].
  { cbn. split; [done |]. intros (s & Hs & _). by apply elem_of_nil in Hs. }
  assert (Hgx : geo x) by (eapply (proj1 (Forall_forall _ _)); [done | apply Hin; left]).
  specialize (IH (ltac:(intros z Hz; apply Hin; by right))). cbn.
  pose proof Hgx as ((_ & Hr & Hv & Ho & Hz) & Hlow & Hext & Hb & Hraw). unfold is_word in *.
  rewrite (wrap_small 32 (raw_offset x + raw_size x)) by (unfold is_word; lia).
  destruct (Z.ltb_spec off (raw_offset x)) as [H1|H1]; cbn [orb].
  { rewrite IH. split.
    - intros (s & Hs & Hk). exists s. split; [by right | done].
    - intros (s & Hs & Hk). apply elem_of_cons in Hs as [->|Hs]; [unfold backs in Hk; lia | by exists s]. }
  destruct (Z.leb_spec (raw_offset x + raw_size x) off) as [H2|H2].
  { rewrite IH. split.
    - intros (s & Hs & Hk). exists s. split; [by right | done].
    - intros (s & Hs & Hk). apply elem_of_cons in Hs as [->|Hs]; [unfold backs in Hk; lia | by exists s]. }
  rewrite (wrap_small 32 (off - raw_offset x)) by (unfold is_word; lia).
  rewrite (wrap_small 64) by (unfold is_word; lia). split.
  - intros [= <-]. exists x. split; [left |]. unfold backs. lia.
  - intros (s & Hs & Hk). destruct (decide (s = x)) as [->|Hne].
    { unfold backs in Hk. f_equal. lia. }
    exfalso. destruct (Hapart s x) as [_ Hd]; [by apply list_elem_of_In, Hin | apply list_elem_of_In, Hin; left | done |].
    unfold backs in Hk. lia.
Qed.

End Geometry.

(** In an image whose sections overlap neither in memory nor in the file and
    are backed by the file from their start, the two address translations are inverse:
    an offset has the address [va] iff [va] lies in a section and has that offset. *)
Lemma va_offset_inverse (img : pe_image_t) (off va : Z) :
  ok img = true -> 0 <= image_base img <= 2 ^ 64 - 2 ^ 32 ->
  Forall geo (sections img) -> ForallPairs apart (sections img) ->
  offset_to_va img off = Some va <->
  va_to_offset img va = Some off /\ is_Some (section_for_rva img (va - image_base img)).
Proof.
  intros Hok Hbase Hg Ha. unfold offset_to_va, va_to_offset, rva_to_offset, section_for_rva.
  rewrite Hok, section_va_spec, section_for_some by done. cbn [negb].
  set (r := va - image_base img). split.
  - intros (s & Hs & Hb). pose proof (proj1 (Forall_forall _ _) Hg s Hs) as ((_ & Hr & _) & _ & He & Hu & _).
    assert (0 <= r < 2 ^ 32) by (unfold backs, is_word in *; lia).
    destruct (Z.ltb_spec va (image_base img)); [lia |]. destruct (Z.ltb_spec 4294967295 r); [lia |]. cbn [orb].
    rewrite wrap_small by (unfold is_word; lia). unfold rva_to_offset_in.
    rewrite (proj2 (section_offset_spec _ Hg Ha (sections img) r off ltac:(done))) by (by exists s).
    split; [done |]. exists s. split; [done |]. unfold backs in Hb. lia.
  - destruct (Z.ltb_spec va (image_base img)); [by intros [? _] |]. destruct (Z.ltb_spec 4294967295 r); [by intros [? _] |].
    cbn [orb]. rewrite wrap_small by (unfold is_word; lia). unfold rva_to_offset_in.
    destruct (section_offset (sections img) r) as [o|] eqn:E.
    + intros [[= ->] _]. by apply (section_offset_spec _ Hg Ha (sections img) r off ltac:(done)).
    + intros [E1 (s & Hs & Hr)]. pose proof (proj1 (Forall_forall _ _) Hg s Hs) as (_ & Hlow & _).
      destruct (Z.ltb_spec r 1024); [lia | done].
Qed.

Definition sample_image : pe_image_t :=
  mk_image true true 34404 3 5368709120 4096 12288
    [ mk_section (replicate 34 0) 4096 512 1024 512 1610612768; mk_section (replicate 34 0) 8192 4096 1536 256 0 ]
    [] [] [] (data_dirs image0).

Lemma va_offset_inverse_witness :
  offset_to_va sample_image 1600 = Some 5368717376 /\
  (offset_to_va sample_image 1600 = Some 5368717376 <->
   va_to_offset sample_image 5368717376 = Some 1600 /\ is_Some (section_for_rva sample_image (5368717376 - 5368709120))).
Proof.
  split; [vm_compute; reflexivity |].
  apply (va_offset_inverse sample_image 1600 5368717376); [done | cbn; lia | |].
  - repeat constructor; done.
  - intros s s' Hs Hs'. unfold apart. cbn in Hs, Hs'.
    destruct Hs as [<-|[<-|[]]]; destruct Hs' as [<-|[<-|[]]]; intros Hne; cbn; try lia; by destruct Hne.
Defined.
