(* ===== verification/FunctionIndex.v ===== *)
(** * The function index: src/core/disasm/function_index.cpp

    Functions of an image, by recursive descent from entry, exports and unwind data, and
    by a sweep for prologues; the lookup of the function that contains an address.  The
    decoder (Zydis through [engine_t]), the order in which an unordered map is iterated
    and what [std::sort] does with equal keys are parameters. *)

From S2P Require Import Prelude PeParser.

#[local] Open Scope Z_scope.

(** ** Data *)

Inductive flow_t := none | call | jmp | jcc | ret.

(** The fields of a decoded instruction that the index reads. *)
Record insn_t := mk_insn { length : Z; flow : flow_t; has_rel_target : bool; rel_target : Z }.

Record function_t := mk_fn { va : Z; size : Z }.
Record function_stats_t := mk_stats { seeds : Z; rd_functions : Z; heuristic_fns : Z; truncated : bool }.
Record function_index_t := mk_index { fns_ : list function_t; stats_ : function_stats_t }.

Definition stats0 : function_stats_t := mk_stats 0 0 0 false.
Definition index0 : function_index_t := mk_index [] stats0.

Record exec_range_t := mk_range { r_va : Z; file_off : Z; r_len : Z }.

Definition exec_ranges (pe : pe_image_t) (base : Z) (file : list Z) : list exec_range_t :=
  omap (fun s =>
    if negb (is_executable s) || (raw_size s =? 0) then None
    else if zlen file <? raw_offset s + raw_size s then None
    else Some (mk_range (u64 (base + rva s)) (raw_offset s) (raw_size s))) (sections pe).

Definition in_range (v : Z) (r : exec_range_t) : bool := (r_va r <=? v) && (v <? u64 (r_va r + r_len r)).
Definition range_for_va (rs : list exec_range_t) (v : Z) : option exec_range_t := snd <$> list_find (in_range v) rs.

(** ** Prologues *)

Definition kP1 : list Z := [72; 137; 92; 36].
Definition kP2 : list Z := [72; 137; 76; 36].
Definition kP3 : list Z := [72; 137; 116; 36].
Definition kP4 : list Z := [76; 137; 68; 36].
Definition kP5 : list Z := [72; 131; 236].
Definition kP6 : list Z := [72; 129; 236].
Definition kP7 : list Z := [72; 139; 196].

(** [p] is the bytes at the pointer, as many as are available. *)
Definition looks_like_prologue (p : list Z) : bool :=
  if zlen p <? 5 then false else existsb (fun k => starts_with k p) [kP1; kP2; kP3; kP4; kP5; kP6; kP7].

Definition good_preceding_boundary (c : Z) : bool := (c =? 204) || (c =? 195).

(** ** Sorting and clipping *)

(** [std::unique] by address. *)
Fixpoint unique_fns (l : list function_t) : list function_t :=
  match l with
  | [] => []
  | f :: l' => match unique_fns l' with
               | g :: k => if va f =? va g then f :: k else f :: g :: k
               | [] => [f]
               end
  end.

Fixpoint clip (l : list function_t) : list function_t :=
  match l with
  | f :: ((g :: _) as l') => mk_fn (va f) (Z.min (size f) (u64 (va g - va f))) :: clip l'
  | _ => l
  end.

(** The element before [std::upper_bound]: the last whose address is not above [v]. *)
Fixpoint last_le {A} (key : A -> Z) (v : Z) (l : list A) : option A :=
  match l with
  | [] => None
  | x :: l' => if v <? key x then None else match last_le key v l' with Some y => Some y | None => Some x end
  end.

Definition containing (idx : function_index_t) (v : Z) : option Z :=
  match last_le va v (fns_ idx) with
  | Some f => if v <? u64 (va f + size f) then Some (va f) else None
  | None => None
  end.

Section Build.
Context (decode : Z -> list Z -> option insn_t) (key_order : gmap Z Z -> list (Z * Z)) (sort_fns : list function_t -> list function_t).
Context (file : list Z).

(** The file's bytes from an offset into a range to its end. *)
Definition bytes_from (rng : exec_range_t) (off : Z) : list Z :=
  take (Z.to_nat (r_len rng - off)) (drop (Z.to_nat (file_off rng + off)) file).

(** ** Recursive descent *)

(** One function: the end of the last instruction and the targets of its calls. *)
Fixpoint walk (fuel : nat) (rng : exec_range_t) (v end_ : Z) (targets : list Z) : option (Z * list Z) :=
  match fuel with
  | O => None
  | S fuel =>
      let off_in_range := u64 (v - r_va rng) in
      if r_len rng <=? off_in_range then Some (end_, targets)
      else
        match decode v (bytes_from rng off_in_range) with
        | None => Some (end_, targets)
        | Some insn =>
            let end_ := u64 (v + length insn) in
            let targets := match flow insn with call => if has_rel_target insn then targets ++ [rel_target insn] else targets | _ => targets end in
            match flow insn with
            | ret | jmp => Some (end_, targets)
            | _ => walk fuel rng (u64 (v + length insn)) end_ targets
            end
        end
  end.

Definition walk_fuel (rng : exec_range_t) : nat := S (Z.to_nat (r_len rng)).

Definition push_target (ranges : list exec_range_t) (worklist : list Z) (v : Z) : list Z :=
  if bool_decide (is_Some (range_for_va ranges v)) then v :: worklist else worklist.

(** The size recorded for a walked function. *)
Definition extent_of (pdata_end : gmap Z Z) (start end_ : Z) : Z :=
  let sz := u64 (end_ - start) in
  let sz := match pdata_end !! start with Some e => Z.max sz (u64 (e - start)) | None => sz end in
  if sz =? 0 then 1 else sz.

(** The worklist is a stack, its top first; the result says whether the cap was met. *)
Fixpoint descend (fuel : nat) (ranges : list exec_range_t) (pdata_end : gmap Z Z) (max_functions : Z)
    (worklist : list Z) (claimed : gset Z) (extent : gmap Z Z) : option (gset Z * gmap Z Z * bool) :=
  match worklist with
  | [] => Some (claimed, extent, false)
  | start :: worklist =>
      match fuel with
      | O => None
      | S fuel =>
          if max_functions <=? Z.of_nat (base.size claimed) then Some (claimed, extent, true)
          else if bool_decide (start ∈ claimed) then descend fuel ranges pdata_end max_functions worklist claimed extent
          else
            let claimed := {[start]} ∪ claimed in
            match range_for_va ranges start with
            | None => descend fuel ranges pdata_end max_functions worklist claimed extent
            | Some rng =>
                '(end_, targets) ← walk (walk_fuel rng) rng start start [];
                descend fuel ranges pdata_end max_functions (foldl (push_target ranges) worklist targets) claimed
                  (<[start := extent_of pdata_end start end_]> extent)
            end
      end
  end.

(** Seeds: the entry, the exports and the starts of the unwind data. *)
Definition seed_exports (ranges : list exec_range_t) (base : Z) (w : list Z * Z) (e : pe_export_t) : list Z * Z :=
  if negb (ex_rva e =? 0) && negb (forwarded e) then (push_target ranges w.1 (u64 (base + ex_rva e)), w.2 + 1) else w.

Definition seed_pdata (ranges : list exec_range_t) (base : Z) (w : list Z * Z * gmap Z Z) (rf : pe_runtime_func_t) : list Z * Z * gmap Z Z :=
  let '(worklist, n, pdata_end) := w in
  if (begin_rva rf =? 0) || (end_rva rf <=? begin_rva rf) then w
  else
    let start := u64 (base + begin_rva rf) in
    let end_ := u64 (base + end_rva rf) in
    match range_for_va ranges start with
    | None => w
    | Some rng =>
        let range_end := u64 (r_va rng + r_len rng) in
        let clipped := if end_ <? range_end then end_ else range_end in
        if clipped <=? start then w
        else
          (start :: worklist, n + 1,
           if match pdata_end !! start with None => true | Some e => e <? clipped end then <[start := clipped]> pdata_end else pdata_end)
    end.

(** Unwind starts that the descent did not reach. *)
Fixpoint add_pdata (max_functions : Z) (l : list (Z * Z)) (fns : list function_t) (extent : gmap Z Z) : list function_t * gmap Z Z * bool :=
  match l with
  | [] => (fns, extent, false)
  | (start, stop) :: l =>
      if bool_decide (is_Some (extent !! start)) then add_pdata max_functions l fns extent
      else if max_functions <=? zlen fns + Z.of_nat (base.size extent) then (fns, extent, true)
      else add_pdata max_functions l (fns ++ [mk_fn start (u64 (stop - start))]) (<[start := u64 (stop - start)]> extent)
  end.

(** ** The sweep *)

Definition pair_le (a b : Z * Z) : Prop := a.1 < b.1 \/ (a.1 = b.1 /\ a.2 <= b.2).
#[local] Instance pair_le_dec a b : Decision (pair_le a b).
Proof. unfold pair_le. apply _. Defined.

Definition covered_of (extent : gmap Z Z) : list (Z * Z) :=
  merge_sort pair_le ((fun p => (p.1, u64 (p.1 + p.2))) <$> key_order extent).
Definition is_covered (covered : list (Z * Z)) (v : Z) : bool :=
  match last_le fst v covered with Some p => v <? p.2 | None => false end.

(** The address of the first return on the way down, in at most [steps] instructions. *)
Fixpoint validate (steps : nat) (rng : exec_range_t) (v : Z) : option Z :=
  match steps with
  | O => None
  | S steps =>
      let o := u64 (v - r_va rng) in
      if r_len rng <=? o then None
      else
        match decode v (bytes_from rng o) with
        | None => None
        | Some insn => match flow insn with ret => Some v | _ => validate steps rng (u64 (v + length insn)) end
        end
  end.

Definition candidate (claimed : gset Z) (covered : list (Z * Z)) (rng : exec_range_t) (off : Z) : option function_t :=
  let p := bytes_from rng off in
  let prev := head (bytes_from rng (off - 1)) in
  let cand := u64 (r_va rng + off) in
  if negb (from_option good_preceding_boundary false prev) then None
  else if negb (looks_like_prologue p) then None
  else if bool_decide (cand ∈ claimed) || is_covered covered cand then None
  else v ← validate 2048 rng cand; Some (mk_fn cand (u64 (v + 1 - cand))).

Fixpoint sweep_range (max_functions : Z) (cand : Z -> option function_t) (offs : list Z) (fns : list function_t) : list function_t * bool :=
  match offs with
  | [] => (fns, false)
  | off :: offs =>
      if max_functions <=? zlen fns then (fns, true)
      else sweep_range max_functions cand offs (match cand off with Some f => fns ++ [f] | None => fns end)
  end.

Definition sweep_offs (rng : exec_range_t) : list Z := seqZ 1 ((if 1 <? r_len rng then r_len rng - 1 else 0) - 1).

Fixpoint sweep (max_functions : Z) (claimed : gset Z) (covered : list (Z * Z)) (ranges : list exec_range_t) (fns : list function_t) : list function_t * bool :=
  match ranges with
  | [] => (fns, false)
  | rng :: ranges =>
      if max_functions <=? zlen fns then (fns, true)
      else
        let '(fns, t) := sweep_range max_functions (candidate claimed covered rng) (sweep_offs rng) fns in
        let '(fns, t') := sweep max_functions claimed covered ranges fns in (fns, t || t')
  end.

(** ** The two ways to build *)

Definition max_len (ranges : list exec_range_t) : Z := foldr (fun r m => Z.max (r_len r) m) 0 ranges.

(** Each claimed function pushes at most one target per byte of its range. *)
Definition descend_fuel (worklist : list Z) (max_functions : Z) (ranges : list exec_range_t) : nat :=
  S (Datatypes.length worklist + Z.to_nat (max_functions * (max_len ranges + 1))).

Definition seed_all (pe : pe_image_t) (ranges : list exec_range_t) (base : Z) : list Z * Z * gmap Z Z :=
  let w := foldl (seed_exports ranges base) (push_target ranges [] (u64 (base + entry_rva pe)), 1) (exports pe) in
  foldl (seed_pdata ranges base) (w.1, w.2, ∅) (runtime_funcs pe).

Definition merge_fns (fns : list function_t) : list function_t := clip (unique_fns (sort_fns fns)).

Definition build (pe : pe_image_t) (eng_ok : bool) (base max_functions : Z) : option (bool * function_index_t) :=
  if negb (ok pe) || negb eng_ok then Some (false, index0)
  else
    let ranges := exec_ranges pe base file in
    if bool_decide (ranges = []) then Some (false, index0)
    else
      let '(worklist, n, pdata_end) := seed_all pe ranges base in
      '(claimed, extent, t1) ← descend (descend_fuel worklist max_functions ranges) ranges pdata_end max_functions worklist ∅ ∅;
      let fns := (fun p => mk_fn p.1 p.2) <$> List.filter (fun p => 1 <=? p.2) (key_order extent) in
      let '(fns, extent, t2) := add_pdata max_functions (key_order pdata_end) fns extent in
      let rd := zlen fns in
      let '(fns, t3) := sweep max_functions claimed (covered_of extent) ranges fns in
      Some (true, mk_index (merge_fns fns) (mk_stats n rd (zlen fns - rd) (t1 || t2 || t3))).

(** Without decoding. *)
Definition add_bound (ranges : list exec_range_t) (m : gmap Z Z) (b : Z * Z) : gmap Z Z :=
  if bool_decide (is_Some (range_for_va ranges b.1)) then
    match m !! b.1 with
    | None => <[b.1 := b.2]> m
    | Some e => if e <? b.2 then <[b.1 := b.2]> m else m
    end
  else m.

Definition bounds_of (pe : pe_image_t) (base : Z) : list (Z * Z) :=
  ((fun rf => (u64 (base + begin_rva rf), u64 (base + end_rva rf))) <$> List.filter (fun rf => begin_rva rf <? end_rva rf) (runtime_funcs pe))
  ++ [(u64 (base + entry_rva pe), 0)]
  ++ ((fun e => (u64 (base + ex_rva e), 0)) <$> List.filter (fun e => negb (ex_rva e =? 0) && negb (forwarded e)) (exports pe)).

Fixpoint bound_fns (ranges : list exec_range_t) (known_end : gmap Z Z) (starts : list Z) : list function_t :=
  match starts with
  | [] => []
  | start :: starts' =>
      let end_ := match range_for_va ranges start with Some rng => u64 (r_va rng + r_len rng) | None => 0 end in
      let end_ := match starts' with next :: _ => Z.min end_ next | [] => end_ end in
      let recorded := default 0 (known_end !! start) in
      let end_ := if start <? recorded then Z.min end_ recorded else end_ in
      mk_fn start (Z.max (u64 (end_ - start)) 1) :: bound_fns ranges known_end starts'
  end.

Definition build_from_bounds (pe : pe_image_t) (base max_functions : Z) : bool * function_index_t :=
  if negb (ok pe) then (false, index0)
  else
    let ranges := exec_ranges pe base file in
    let known_end := foldl (add_bound ranges) ∅ (bounds_of pe base) in
    let starts := merge_sort Z.le (key_order known_end).*1 in
    let t := max_functions <? zlen starts in
    let starts := if t then take (Z.to_nat max_functions) starts else starts in
    (true, mk_index (bound_fns ranges known_end starts) (mk_stats (Z.of_nat (base.size known_end)) 0 0 t)).
End Build.

(** ** Ranges and functions that fit *)

Definition range_ok (r : exec_range_t) : Prop := 0 <= r_va r /\ 0 < r_len r /\ r_va r + r_len r < 2 ^ 64.

(** The executable sections lie below the end of the address space. *)
Definition image_fits (pe : pe_image_t) (base : Z) : Prop :=
  0 <= base /\ Forall (fun s => 0 <= rva s /\ 0 <= raw_size s /\ base + rva s + raw_size s < 2 ^ 64) (sections pe).

Definition inside (r : exec_range_t) (v : Z) : Prop := r_va r <= v < r_va r + r_len r.

(** A function inside an executable range. *)
Definition fn_ok (rs : list exec_range_t) (f : function_t) : Prop :=
  1 <= size f /\ exists r, r ∈ rs /\ r_va r <= va f /\ va f + size f <= r_va r + r_len r.

Lemma exec_ranges_ok pe base file : image_fits pe base -> Forall range_ok (exec_ranges pe base file).
Proof.
  intros [B F]. unfold exec_ranges. apply Forall_forall. intros r (s & Hs & E)%list_elem_of_omap.
  rewrite Forall_forall in F. destruct (F s Hs) as (R & S & T).
  destruct (negb (is_executable s) || (raw_size s =? 0)) eqn:X; [done|]. destruct (zlen file <? _); [done|]. injection E as <-.
  apply orb_false_iff in X as [_ X%Z.eqb_neq]. unfold range_ok. cbn. rewrite wrap_small by (split; lia). lia.
Qed.

Lemma in_range_inside r v : range_ok r -> in_range v r = true <-> inside r v.
Proof. intros (A & B & C). unfold in_range, inside. rewrite wrap_small by (split; lia). rewrite andb_true_iff, Z.leb_le, Z.ltb_lt. done. Qed.

Lemma range_for_va_Some rs v r : Forall range_ok rs -> range_for_va rs v = Some r -> r ∈ rs /\ range_ok r /\ inside r v.
Proof.
  intros F H. unfold range_for_va in H. destruct (list_find _ rs) as [[n x]|] eqn:L; [|done]. injection H as <-.
  apply list_find_Some in L as (Hx & I & _). assert (Hr : x ∈ rs) by (by eapply list_elem_of_lookup_2).
  rewrite Forall_forall in F. pose proof (F x Hr) as O. split; [done|]. split; [done|]. apply in_range_inside; [done|]. by apply Is_true_true.
Qed.

(** ** What the lookup of an address needs *)

Definition before (f g : function_t) : Prop := va f + size f <= va g.
Definition starts_sorted (l : list function_t) : Prop := StronglySorted Z.lt (va <$> l).

Lemma unique_elem l f : f ∈ unique_fns l -> f ∈ l.
Proof.
  revert f. induction l as [|x l IH]; intros f H; [done|]. cbn in H. destruct (unique_fns l) as [|g k]; [set_solver|].
  destruct (va x =? va g); set_solver.
Qed.

Lemma unique_starts l : forall v, v ∈ va <$> unique_fns l <-> v ∈ va <$> l.
Proof.
  induction l as [|x l IH]; intros v; [done|]. cbn. rewrite elem_of_cons, <-IH. destruct (unique_fns l) as [|g k]; cbn; [by rewrite elem_of_cons|].
  destruct (Z.eqb_spec (va x) (va g)) as [E|_]; cbn; rewrite !elem_of_cons, ?E; tauto.
Qed.

Lemma unique_strict l : StronglySorted Z.le (va <$> l) -> starts_sorted (unique_fns l).
Proof.
  unfold starts_sorted. induction l as [|x l IH]; intros S; [constructor|]. cbn in S |- *. apply StronglySorted_inv in S as [S F].
  specialize (IH S). pose proof (unique_starts l) as U. destruct (unique_fns l) as [|g k]; cbn in *; [repeat constructor|].
  apply StronglySorted_inv in IH as [IH G]. assert (L : va x <= va g).
  { rewrite Forall_forall in F. apply F, U. left. }
  destruct (Z.eqb_spec (va x) (va g)) as [E|N]; cbn; constructor; try done.
  - by rewrite E.
  - by constructor.
  - constructor; [lia|]. eapply Forall_impl; [exact G|]. cbn. lia.
Qed.

Lemma clip_starts l : va <$> clip l = va <$> l.
Proof. induction l as [|f [|g l] IH]; [done..|]. cbn in *. by rewrite IH. Qed.

Lemma clip_disjoint l : starts_sorted l -> Forall (fun f => 0 <= va f < 2 ^ 64) l -> StronglySorted before (clip l).
Proof.
  unfold starts_sorted. induction l as [|f [|g l] IH]; intros S B; [constructor|by repeat constructor|].
  apply StronglySorted_inv in S as [S F]. apply Forall_cons in B as [Bf B]. cbn [clip]. constructor; [by apply IH|].
  assert (F' : Forall (fun v => va g <= v) (va <$> clip (g :: l))).
  { rewrite clip_starts. apply StronglySorted_inv in S as [_ S]. cbn. constructor; [lia|]. eapply Forall_impl; [exact S|]. cbn. lia. }
  apply Forall_cons in F as [Lt _]. apply Forall_cons in B as [Bg _]. rewrite Forall_fmap in F'.
  eapply Forall_impl; [exact F'|]. intros h Hh. cbn in Hh. unfold before. cbn. rewrite wrap_small by (split; lia). lia.
Qed.

Lemma clip_ok rs l : starts_sorted l -> Forall (fun f => 0 <= va f < 2 ^ 64) l -> Forall (fn_ok rs) l -> Forall (fn_ok rs) (clip l).
Proof.
  unfold starts_sorted. induction l as [|f [|g l] IH]; intros S B F; [done..|].
  apply StronglySorted_inv in S as [S L]. apply Forall_cons in B as [Bf B]. apply Forall_cons in F as [(Sz & r & Hr & A & E) F].
  cbn [clip]. constructor; [|by apply IH]. apply Forall_cons in L as [Lt _]. apply Forall_cons in B as [Bg _].
  unfold fn_ok. cbn. rewrite wrap_small by (split; lia). split; [lia|]. exists r. split; [done|]. lia.
Qed.

Section LastLe.
Context {A : Type} (key : A -> Z).

(** The search on a sorted list: the greatest element that is not above. *)
Lemma last_le_spec v l :
  StronglySorted Z.le (key <$> l) ->
  match last_le key v l with
  | Some x => x ∈ l /\ key x <= v /\ forall y, y ∈ l -> key y <= v -> key y <= key x
  | None => forall y, y ∈ l -> v < key y
  end.
Proof.
  induction l as [|x l IH]; intros S; [by intros y ?%elem_of_nil|]. cbn [fmap list_fmap] in S. apply StronglySorted_inv in S as [S F].
  specialize (IH S). cbn [last_le]. rewrite Forall_fmap, Forall_forall in F. cbn in F.
  destruct (Z.ltb_spec v (key x)) as [L|L].
  - intros y [->|Hy]%elem_of_cons; [done|]. specialize (F y Hy). lia.
  - destruct (last_le key v l) as [y|].
    + destruct IH as (Hy & Ly & G). split; [by right|]. split; [done|]. intros z [->|Hz]%elem_of_cons; [by intros; apply F|auto].
    + split; [left|]. split; [done|]. intros z [->|Hz]%elem_of_cons; [lia|]. specialize (IH z Hz). lia.
Qed.
End LastLe.

(** What holds of an index: its functions are disjoint, in order, inside the ranges. *)
Record index_ok (rs : list exec_range_t) (idx : function_index_t) : Prop := mk_index_ok {
  io_disjoint : StronglySorted before (fns_ idx);
  io_inside : Forall (fn_ok rs) (fns_ idx)
}.

Lemma before_pair l f g : StronglySorted before l -> f ∈ l -> g ∈ l -> f = g \/ before f g \/ before g f.
Proof.
  induction 1 as [|x l S IH F]; intros Hf Hg; [by apply elem_of_nil in Hf|]. rewrite Forall_forall in F.
  apply elem_of_cons in Hf as [->|Hf], Hg as [->|Hg]; auto.
Qed.

Lemma before_starts l : Forall (fun f => 1 <= size f) l -> StronglySorted before l -> starts_sorted l.
Proof.
  unfold starts_sorted. intros F S. induction S as [|x l S IH B]; [constructor|]. apply Forall_cons in F as [Sx F]. cbn. constructor; [by apply IH|].
  rewrite Forall_fmap. eapply Forall_impl; [exact B|]. unfold before. cbn. lia.
Qed.

Lemma lt_le_sorted l : StronglySorted Z.lt l -> StronglySorted Z.le l.
Proof. induction 1 as [|x l S IH F]; constructor; [done|]. eapply Forall_impl; [exact F|]. lia. Qed.

Lemma containing_spec rs idx v s :
  Forall range_ok rs -> index_ok rs idx ->
  containing idx v = Some s <-> exists f, f ∈ fns_ idx /\ va f = s /\ va f <= v < va f + size f.
Proof.
  intros R [D I]. assert (N : forall f, f ∈ fns_ idx -> 1 <= size f /\ u64 (va f + size f) = va f + size f).
  { rewrite Forall_forall in I. rewrite Forall_forall in R. intros f Hf. destruct (I f Hf) as (Sz & r & Hr & A & E). split; [done|].
    destruct (R r Hr) as (? & ? & ?). apply wrap_small. split; lia. }
  assert (S : StronglySorted Z.le (va <$> fns_ idx)).
  { apply lt_le_sorted, before_starts; [|done]. eapply Forall_impl; [exact I|]. by intros f [? _]. }
  pose proof (last_le_spec va v (fns_ idx) S) as L. unfold containing. destruct (last_le va v (fns_ idx)) as [f|].
  - destruct L as (Hf & Lf & G). destruct (N f Hf) as [Sz ->]. destruct (Z.ltb_spec v (va f + size f)) as [B|B].
    + split; [intros [= <-]; eauto|]. intros (g & Hg & <- & Lg). f_equal.
      destruct (before_pair _ f g D Hf Hg) as [->|[Be|Be]]; [done|..]; unfold before in Be; specialize (G g Hg); lia.
    + split; [done|]. intros (g & Hg & <- & Lg). exfalso. destruct (N g Hg) as [Sg _].
      destruct (before_pair _ f g D Hf Hg) as [->|[Be|Be]]; [lia|..]; unfold before in Be; specialize (G g Hg); lia.
  - split; [done|]. intros (g & Hg & <- & Lg). specialize (L g Hg). lia.
Qed.

(** ** The linear walk *)

(** The decoder's contract: an instruction has at least one byte and lies in the buffer. *)
Definition decode_ok (decode : Z -> list Z -> option insn_t) : Prop :=
  forall v l i, decode v l = Some i -> 1 <= length i <= zlen l.

Section Walk.
Context (decode : Z -> list Z -> option insn_t) (Dec : decode_ok decode) (file : list Z).

Definition insn_at (rng : exec_range_t) (v : Z) (i : insn_t) : Prop :=
  inside rng v /\ decode v (bytes_from file rng (v - r_va rng)) = Some i.

Definition ends (i : insn_t) : bool := match flow i with ret | jmp => true | _ => false end.

(** The instructions met from an address on, up to a return or a jump. *)
Inductive linear (rng : exec_range_t) : Z -> Z -> insn_t -> Prop :=
  | lin_here v i : insn_at rng v i -> linear rng v v i
  | lin_step v i w j : insn_at rng v i -> ends i = false -> linear rng (v + length i) w j -> linear rng v w j.

Definition call_from (rng : exec_range_t) (v t : Z) : Prop :=
  exists w i, linear rng v w i /\ flow i = call /\ has_rel_target i = true /\ rel_target i = t.

Lemma insn_fits rng v i : range_ok rng -> insn_at rng v i -> v + length i <= r_va rng + r_len rng.
Proof using Dec.
  intros O [I D]. destruct (Dec _ _ _ D) as [_ L]. unfold inside in I. revert L. unfold bytes_from, zlen. rewrite length_take. lia.
Qed.

Lemma offset_inside rng v : range_ok rng -> r_va rng <= v <= r_va rng + r_len rng -> u64 (v - r_va rng) = v - r_va rng /\ u64 v = v.
Proof. intros (A & B & C) I. split; apply wrap_small; split; lia. Qed.

(** The targets a single instruction adds. *)
Definition target_of (i : insn_t) : list Z := match flow i with call => if has_rel_target i then [rel_target i] else [] | _ => [] end.

Lemma target_of_elem i t : t ∈ target_of i <-> flow i = call /\ has_rel_target i = true /\ rel_target i = t.
Proof. unfold target_of. destruct (flow i), (has_rel_target i); set_solver. Qed.

Lemma call_from_here rng v i t :
  insn_at rng v i -> call_from rng v t <-> t ∈ target_of i \/ (ends i = false /\ call_from rng (v + length i) t).
Proof.
  intros A. assert (Det : forall j, insn_at rng v j -> j = i) by (intros j [_ E]; destruct A as [_ F]; congruence). split.
  - intros (w & j & L & C). inversion L as [v' j' A'|v' k w' j' A' En L']; subst.
    + left. rewrite (Det j A') in C. by apply target_of_elem.
    + rewrite (Det k A') in *. right. split; [done|]. by exists w, j.
  - intros [T|[En (w & j & L & C)]].
    + exists v, i. split; [by constructor|by apply target_of_elem].
    + exists w, j. split; [by eapply lin_step|done].
Qed.

Lemma call_from_none rng v t : (forall i, ~ insn_at rng v i) -> ~ call_from rng v t.
Proof. intros N (w & i & L & _). inversion L; subst; by eapply N. Qed.

(** The walk returns, inside the range, with the targets of the calls it meets. *)
Lemma walk_spec fuel rng v ts :
  range_ok rng -> r_va rng <= v <= r_va rng + r_len rng -> r_va rng + r_len rng - v < Z.of_nat fuel ->
  exists e ts', walk decode file fuel rng v v ts = Some (e, ts ++ ts') /\ v <= e <= r_va rng + r_len rng /\
    zlen ts' <= r_va rng + r_len rng - v /\ forall t, t ∈ ts' <-> call_from rng v t.
Proof using Dec.
  intros O. revert v ts. induction fuel as [|fuel IH]; intros v ts I F; [lia|]. cbn [walk].
  destruct (offset_inside rng v O I) as [-> _].
  destruct (Z.leb_spec (r_len rng) (v - r_va rng)) as [L|L].
  { exists v, []. rewrite app_nil_r. split_and!; [done|lia|lia|unfold zlen; cbn; lia|]. intros t. split; [by intros ?%elem_of_nil|].
    intros C. exfalso. eapply call_from_none; [|exact C]. intros i [J _]. unfold inside in J. lia. }
  destruct (decode v _) as [i|] eqn:D.
  2: { exists v, []. rewrite app_nil_r. split_and!; [done|lia|lia|unfold zlen; cbn; lia|]. intros t. split; [by intros ?%elem_of_nil|].
    intros C. exfalso. eapply call_from_none; [|exact C]. intros i [_ E]. congruence. }
  assert (A : insn_at rng v i) by (split; [unfold inside; lia|done]). pose proof (insn_fits rng v i O A) as Fit.
  destruct (Dec _ _ _ D) as [L1 _]. destruct (offset_inside rng (v + length i) O) as [_ ->]; [lia|].
  assert (T : match flow i with call => if has_rel_target i then ts ++ [rel_target i] else ts | _ => ts end = ts ++ target_of i).
  { unfold target_of. destruct (flow i), (has_rel_target i); by rewrite ?app_nil_r. }
  rewrite T. assert (Zt : zlen (target_of i) <= 1) by (unfold target_of, zlen; destruct (flow i), (has_rel_target i); cbn; lia).
  destruct (ends i) eqn:En.
  - exists (v + length i), (target_of i). split; [unfold ends in En; by destruct (flow i)|]. split; [lia|]. split; [lia|].
    intros t. rewrite (call_from_here rng v i t A), En. naive_solver.
  - destruct (IH (v + length i) (ts ++ target_of i)) as (e & ts' & W & Be & Z' & C); [lia..|].
    exists e, (target_of i ++ ts'). split; [rewrite app_assoc; unfold ends in En; by destruct (flow i)|]. split; [lia|]. split.
    + unfold zlen in *. rewrite length_app. lia.
    + intros t. rewrite elem_of_app, C, (call_from_here rng v i t A), En. naive_solver.
Qed.
End Walk.

(** ** The descent *)

(** The addresses that the descent is to find: the seeds in the ranges, and the targets
    of the calls met from one of them. *)
Inductive reached (decode : Z -> list Z -> option insn_t) (file : list Z) (ranges : list exec_range_t) (is_seed : Z -> Prop) : Z -> Prop :=
  | rch_seed v : is_seed v -> is_Some (range_for_va ranges v) -> reached decode file ranges is_seed v
  | rch_call c rng t : reached decode file ranges is_seed c -> range_for_va ranges c = Some rng ->
      call_from decode file rng c t -> is_Some (range_for_va ranges t) -> reached decode file ranges is_seed t.

Section Descent.
Context (decode : Z -> list Z -> option insn_t) (Dec : decode_ok decode) (file : list Z).
Context (ranges : list exec_range_t) (R : Forall range_ok ranges).
Context (pdata_end : gmap Z Z).

(** Unwind ends lie in the range of their start. *)
Definition pdata_ok : Prop := forall v e, pdata_end !! v = Some e ->
  exists rng, range_for_va ranges v = Some rng /\ v < e <= r_va rng + r_len rng.

Definition covers (worklist : list Z) (claimed : gset Z) (v : Z) : Prop := v ∈ claimed \/ v ∈ worklist.

Record descent_ok (worklist : list Z) (claimed : gset Z) (extent : gmap Z Z) : Prop := mk_descent_ok {
  d_work : forall v, v ∈ worklist -> is_Some (range_for_va ranges v);
  d_dom : dom extent = claimed;
  d_ext : forall v n, extent !! v = Some n -> fn_ok ranges (mk_fn v n);
  d_calls : forall c rng t, c ∈ claimed -> range_for_va ranges c = Some rng -> call_from decode file rng c t ->
    is_Some (range_for_va ranges t) -> covers worklist claimed t
}.

Lemma push_targets_elem l w v : v ∈ foldl (push_target ranges) w l <-> v ∈ w \/ (v ∈ l /\ is_Some (range_for_va ranges v)).
Proof.
  revert w. induction l as [|x l IH]; intros w; cbn; [set_solver|]. rewrite IH. unfold push_target.
  destruct (bool_decide_reflect (is_Some (range_for_va ranges x))); rewrite !elem_of_cons; naive_solver.
Qed.

Lemma push_targets_length l w : (Datatypes.length (foldl (push_target ranges) w l) <= Datatypes.length w + Datatypes.length l)%nat.
Proof.
  revert w. induction l as [|x l IH]; intros w; cbn; [lia|]. specialize (IH (push_target ranges w x)). unfold push_target in *.
  destruct (bool_decide _); cbn in *; lia.
Qed.

Lemma extent_of_ok v rng e :
  pdata_ok -> range_for_va ranges v = Some rng -> v <= e <= r_va rng + r_len rng -> fn_ok ranges (mk_fn v (extent_of pdata_end v e)).
Proof using R.
  intros P H E. destruct (range_for_va_Some _ _ _ R H) as (Hr & (A & B & C) & I). unfold inside in I. unfold fn_ok, extent_of. cbn.
  rewrite (wrap_small 64 (e - v)) by (split; lia). destruct (pdata_end !! v) as [x|] eqn:X.
  - destruct (P v x X) as (r & Hv & Bx). assert (r = rng) as -> by congruence. rewrite wrap_small by (split; lia).
    destruct (Z.eqb_spec (Z.max (e - v) (x - v)) 0); (split; [lia|]); exists rng; (split; [done|lia]).
  - destruct (Z.eqb_spec (e - v) 0); (split; [lia|]); exists rng; (split; [done|lia]).
Qed.

Lemma max_len_le rng : rng ∈ ranges -> r_len rng <= max_len ranges.
Proof. clear R. unfold max_len. induction ranges as [|r rs IH]; [by intros ?%elem_of_nil|]. cbn. intros [->|H]%elem_of_cons; [lia|]. specialize (IH H). lia. Qed.

Lemma max_len_nonneg : 0 <= max_len ranges.
Proof. clear R. unfold max_len. induction ranges as [|r rs IH]; cbn; lia. Qed.

(** The descent ends; without the cap everything that was on the list, and every target of
    a call of a claimed function, is claimed. *)
Lemma descend_spec fuel mx worklist claimed extent :
  pdata_ok -> descent_ok worklist claimed extent ->
  (Z.of_nat (Datatypes.length worklist) + Z.max 0 (mx - Z.of_nat (base.size claimed)) * (max_len ranges + 1) < Z.of_nat fuel) ->
  exists claimed' extent' t, descend decode file fuel ranges pdata_end mx worklist claimed extent = Some (claimed', extent', t) /\
    dom extent' = claimed' /\ (forall v n, extent' !! v = Some n -> fn_ok ranges (mk_fn v n)) /\
    (if t then mx <= Z.of_nat (base.size claimed') else descent_ok [] claimed' extent' /\ forall v, covers worklist claimed v -> v ∈ claimed').
Proof using Dec R.
  intros P. revert worklist claimed extent. induction fuel as [|fuel IH]; intros worklist claimed extent D F.
  { pose proof max_len_nonneg. nia. }
  destruct worklist as [|v worklist]; cbn [descend].
  { exists claimed, extent, false. split; [done|]. destruct D as [W Do E C]. split_and!; [done|done|done|]. intros v [H|H]; [done|by apply elem_of_nil in H]. }
  destruct (Z.leb_spec mx (Z.of_nat (base.size claimed))) as [L|L].
  { exists claimed, extent, true. by destruct D. }
  destruct (bool_decide_reflect (v ∈ claimed)) as [Cl|Cl].
  { destruct (IH worklist claimed extent) as (c & x & t & E & Do & Ex & T).
    - destruct D as [W Do E C]. split; [intros u Hu; apply W; by right|done|done|]. intros c rng t Hc Hr Ht It.
      destruct (C c rng t Hc Hr Ht It) as [?|[->|?]%elem_of_cons]; [by left|by left|by right].
    - cbn [Datatypes.length] in F. lia.
    - exists c, x, t. split_and!; try done. destruct t; [done|]. destruct T as [T1 T2]. split; [done|].
      intros u [?|[->|?]%elem_of_cons]; apply T2; [by left|by left|by right]. }
  assert (Sz : base.size ({[v]} ∪ claimed) = S (base.size claimed)).
  { rewrite size_union by set_solver. by rewrite size_singleton. }
  assert (Vr : is_Some (range_for_va ranges v)) by (apply (d_work _ _ _ D); left). destruct Vr as [rng Hr]. rewrite Hr.
  destruct (range_for_va_Some _ _ _ R Hr) as (Hin & O & I). unfold inside in I.
  destruct (walk_spec decode Dec file (walk_fuel rng) rng v [] O) as (e & ts & W & Be & Zt & Ct); [lia|unfold walk_fuel; lia|].
  rewrite W. cbn [mbind option_bind app]. cbn [app] in W.
  destruct (IH (foldl (push_target ranges) worklist ts) ({[v]} ∪ claimed) (<[v := extent_of pdata_end v e]> extent)) as (c & x & t & E & Do & Ex & T).
  - destruct D as [Wk Do Ex C]. split.
    + intros u [Hu|[_ Hu]]%push_targets_elem; [apply Wk; by right|done].
    + by rewrite dom_insert_L, Do.
    + intros u n [[<- <-]|[_ H]]%lookup_insert_Some; [by eapply extent_of_ok|by apply Ex].
    + intros c rng' t [->%elem_of_singleton|Hc]%elem_of_union Hr' Ht It.
      * assert (rng' = rng) as -> by congruence. right. apply push_targets_elem. right. by split; [apply Ct|].
      * destruct (C c rng' t Hc Hr' Ht It) as [?|[->|?]%elem_of_cons].
        -- left. set_solver.
        -- left. set_solver.
        -- right. apply push_targets_elem. by left.
  - pose proof (push_targets_length ts worklist) as Pl. pose proof (max_len_le rng Hin) as Ml. unfold zlen in Zt. rewrite Sz.
    cbn [Datatypes.length] in F. nia.
  - exists c, x, t. split_and!; [exact E|done|done|]. destruct t; [done|]. destruct T as [T1 T2]. split; [done|].
    intros u [Hu|[->|Hu]%elem_of_cons]; apply T2.
    + left. set_solver.
    + left. set_solver.
    + right. apply push_targets_elem. by left.
Qed.
End Descent.

(** ** Seeds *)

(** The entry, the exports that are code, and the starts of non-empty unwind entries. *)
Definition is_seed (pe : pe_image_t) (base v : Z) : Prop :=
  v = u64 (base + entry_rva pe) \/
  (exists e, e ∈ exports pe /\ ex_rva e <> 0 /\ forwarded e = false /\ v = u64 (base + ex_rva e)) \/
  exists rf, rf ∈ runtime_funcs pe /\ begin_rva rf <> 0 /\ begin_rva rf < end_rva rf /\ v = u64 (base + begin_rva rf) /\ v < u64 (base + end_rva rf).

Section Seeds.
Context (ranges : list exec_range_t) (R : Forall range_ok ranges) (base : Z).

Lemma push_target_elem w x v : v ∈ push_target ranges w x <-> v ∈ w \/ (v = x /\ is_Some (range_for_va ranges v)).
Proof. unfold push_target. destruct (bool_decide_reflect (is_Some (range_for_va ranges x))); rewrite ?elem_of_cons; naive_solver. Qed.

Lemma seed_exports_elem l w v :
  v ∈ (foldl (seed_exports ranges base) w l).1 <->
  v ∈ w.1 \/ (is_Some (range_for_va ranges v) /\ exists e, e ∈ l /\ ex_rva e <> 0 /\ forwarded e = false /\ v = u64 (base + ex_rva e)).
Proof.
  revert w. induction l as [|e l IH]; intros w; cbn [foldl]; [split; [auto|intros [?|(_ & e & H & _)]; [done|by apply elem_of_nil in H]]|].
  rewrite IH. unfold seed_exports at 1. destruct (Z.eqb_spec (ex_rva e) 0) as [E|E]; cbn [negb andb].
  - split; [intros [?|(S & x & H & T)]; [by left|right; split; [done|exists x; split; [by right|done]]]|].
    intros [?|(S & x & [->|H]%elem_of_cons & T)]; [by left|naive_solver|right; eauto].
  - destruct (forwarded e) eqn:F; cbn [negb fst].
    + split; [intros [?|(S & x & H & T)]; [by left|right; split; [done|exists x; split; [by right|done]]]|].
      intros [?|(S & x & [->|H]%elem_of_cons & T)]; [by left|destruct T as (_ & T & _); congruence|right; eauto].
    + rewrite push_target_elem. split.
      * intros [[?|[-> S]]|(S & x & H & T)]; [by left|right; split; [done|exists e; split; [left|done]]|].
        right. split; [done|]. exists x. split; [by right|done].
      * intros [?|(S & x & [->|H]%elem_of_cons & T)]; [by left; left|destruct T as (_ & _ & ->); left; by right|right; eauto].
Qed.

(** What seeding from the unwind data keeps. *)
Definition pdata_inv (w : list Z * Z * gmap Z Z) : Prop :=
  pdata_ok ranges w.2 /\ forall v e, w.2 !! v = Some e -> v ∈ w.1.1.

Lemma seed_pdata_step w rf :
  pdata_inv w ->
  pdata_inv (seed_pdata ranges base w rf) /\
  forall v, v ∈ (seed_pdata ranges base w rf).1.1 <-> v ∈ w.1.1 \/
    (is_Some (range_for_va ranges v) /\ begin_rva rf <> 0 /\ begin_rva rf < end_rva rf /\ v = u64 (base + begin_rva rf) /\ v < u64 (base + end_rva rf)).
Proof using R.
  destruct w as [[w n] pd]. intros [P Q]. unfold seed_pdata.
  destruct (Z.eqb_spec (begin_rva rf) 0) as [E0|E0]; cbn [orb]; [split; [done|]; naive_solver|].
  destruct (Z.leb_spec (end_rva rf) (begin_rva rf)) as [L|L]; [split; [done|]; intros v; split; [by left|intros [?|(_ & _ & ? & _)]; [done|lia]]|].
  destruct (range_for_va ranges (u64 (base + begin_rva rf))) as [rng|] eqn:Rg.
  2: { split; [done|]. intros v. split; [by left|]. intros [?|([r Hr] & _ & _ & -> & _)]; [done|congruence]. }
  destruct (range_for_va_Some _ _ _ R Rg) as (_ & (A & B & C) & I). unfold inside in I.
  rewrite (wrap_small 64 (r_va rng + r_len rng)) by (split; lia).
  set (start := u64 (base + begin_rva rf)) in *. set (e := u64 (base + end_rva rf)). set (cl := if e <? r_va rng + r_len rng then e else r_va rng + r_len rng).
  assert (Cl : cl = Z.min e (r_va rng + r_len rng)) by (unfold cl; destruct (Z.ltb_spec e (r_va rng + r_len rng)); lia).
  destruct (Z.leb_spec cl start) as [Le|Gt].
  { split; [done|]. intros v. split; [by left|]. intros [?|(_ & _ & _ & -> & ?)]; [done|]. fold start in H. fold e in H. lia. }
  split.
  - assert (Ok : exists rng, range_for_va ranges start = Some rng /\ start < cl <= r_va rng + r_len rng) by (exists rng; split; [done|lia]).
    assert (Ins : forall v x, <[start:=cl]> pd !! v = Some x -> (exists r, range_for_va ranges v = Some r /\ v < x <= r_va r + r_len r) /\ v ∈ start :: w).
    { intros v x [[<- <-]|[N H]]%lookup_insert_Some; [split; [done|left]|]. split; [by apply P|]. right. by apply (Q v x). }
    assert (Keep : forall v x, pd !! v = Some x -> v ∈ start :: w) by (intros v x H; right; by apply (Q v x)).
    destruct (pd !! start) as [x|]; [destruct (x <? cl)|]; split; cbn; try done; intros v y H; by apply (Ins v y).
  - intros v. cbn. rewrite elem_of_cons. split.
    + intros [->|?]; [right|by left]. split_and!; [by eexists|done|done|done|]. fold e. lia.
    + intros [?|(_ & _ & _ & -> & _)]; [by right|by left].
Qed.

Lemma seed_pdata_spec l w :
  pdata_inv w ->
  pdata_inv (foldl (seed_pdata ranges base) w l) /\
  forall v, v ∈ (foldl (seed_pdata ranges base) w l).1.1 <-> v ∈ w.1.1 \/
    (is_Some (range_for_va ranges v) /\ exists rf, rf ∈ l /\ begin_rva rf <> 0 /\ begin_rva rf < end_rva rf /\ v = u64 (base + begin_rva rf) /\ v < u64 (base + end_rva rf)).
Proof using R.
  revert w. induction l as [|rf l IH]; intros w P; cbn [foldl].
  - split; [done|]. intros v. split; [by left|]. intros [?|(_ & rf & H & _)]; [done|by apply elem_of_nil in H].
  - destruct (seed_pdata_step w rf P) as [P' E]. destruct (IH _ P') as [P'' E']. split; [done|]. intros v. rewrite E', E. split.
    + intros [[?|(S & T)]|(S & x & H & T)]; [by left|right; split; [done|exists rf; split; [left|done]]|].
      right. split; [done|]. exists x. split; [by right|done].
    + intros [?|(S & x & [->|H]%elem_of_cons & T)]; [by left; left|left; by right|right; eauto].
Qed.

Lemma seed_all_spec pe :
  let '(w, n, pd) := seed_all pe ranges base in
  pdata_ok ranges pd /\ (forall v e, pd !! v = Some e -> v ∈ w) /\ forall v, v ∈ w <-> is_seed pe base v /\ is_Some (range_for_va ranges v).
Proof using R.
  unfold seed_all. set (w0 := foldl (seed_exports ranges base) _ _).
  destruct (seed_pdata_spec (runtime_funcs pe) (w0.1, w0.2, ∅)) as [[P Q] E]; [split; intros v e H; cbn in H; by rewrite lookup_empty in H|].
  destruct (foldl (seed_pdata ranges base) _ _) as [[w n] pd]. cbn in *. split_and!; [done|done|]. intros v. rewrite E. unfold w0.
  rewrite seed_exports_elem. cbn. rewrite push_target_elem. unfold is_seed. split.
  - intros [[[H|[-> S]]|(S & x)]|(S & x)]; [by apply elem_of_nil in H|auto..].
  - intros [[->|[x|x]] S]; [left; left; by right|left; right; by split|right; by split].
Qed.
End Seeds.

(** ** The sweep and the merge *)

Section Sweep.
Context (decode : Z -> list Z -> option insn_t) (Dec : decode_ok decode) (file : list Z).
Context (ranges : list exec_range_t) (R : Forall range_ok ranges).

Lemma validate_inside steps rng v w :
  range_ok rng -> r_va rng <= v <= r_va rng + r_len rng -> validate decode file steps rng v = Some w -> v <= w < r_va rng + r_len rng.
Proof using Dec.
  intros O. revert v. induction steps as [|n IH]; intros v I H; [done|]. cbn [validate] in H.
  destruct (offset_inside rng v O I) as [E _]. rewrite E in H. destruct (Z.leb_spec (r_len rng) (v - r_va rng)) as [L|L]; [done|].
  destruct (decode v _) as [i|] eqn:D; [|done]. assert (A : insn_at decode file rng v i) by (split; [unfold inside; lia|done]).
  pose proof (insn_fits decode Dec file rng v i O A) as Fit. destruct (Dec _ _ _ D) as [L1 _].
  destruct (offset_inside rng (v + length i) O) as [_ E']; [lia|]. rewrite E' in H.
  assert (H' : w = v \/ validate decode file n rng (v + length i) = Some w) by (destruct (flow i); naive_solver).
  destruct H' as [->|H']; [lia|]. specialize (IH (v + length i) ltac:(lia) H'). lia.
Qed.

Lemma candidate_ok claimed covered rng off f :
  rng ∈ ranges -> 1 <= off < r_len rng -> candidate decode file claimed covered rng off = Some f -> fn_ok ranges f.
Proof using Dec R.
  intros Hr Ho. pose proof R as R'. rewrite Forall_forall in R'. pose proof (R' rng Hr) as O. destruct O as (A & B & C). unfold candidate.
  destruct (negb _); [done|]. destruct (negb _); [done|]. destruct (_ || _); [done|].
  rewrite (wrap_small 64 (r_va rng + off)) by (split; lia). intros (w & V & E)%bind_Some. injection E as <-.
  pose proof (validate_inside _ rng (r_va rng + off) w (R' rng Hr) ltac:(lia) V) as W. unfold fn_ok. cbn. rewrite wrap_small by (split; lia).
  split; [lia|]. exists rng. split; [done|lia].
Qed.

Lemma sweep_range_spec mx cand offs fns :
  (forall off f, off ∈ offs -> cand off = Some f -> fn_ok ranges f) -> Forall (fn_ok ranges) fns ->
  let r := sweep_range mx cand offs fns in Forall (fn_ok ranges) r.1 /\ forall f, f ∈ fns -> f ∈ r.1.
Proof.
  revert fns. induction offs as [|o offs IH]; intros fns C F; cbn [sweep_range]; [done|]. destruct (mx <=? _); [done|].
  destruct (IH (match cand o with Some f => fns ++ [f] | None => fns end)) as [F' S].
  - intros off f Ho. apply C. by right.
  - destruct (cand o) as [f|] eqn:E; [|done]. apply Forall_app. split; [done|]. apply Forall_singleton. apply (C o); [left|done].
  - split; [done|]. intros f Hf. apply S. destruct (cand o); [|done]. apply elem_of_app. by left.
Qed.

Lemma sweep_spec mx claimed covered rs fns :
  (forall r, r ∈ rs -> r ∈ ranges) -> Forall (fn_ok ranges) fns ->
  let r := sweep decode file mx claimed covered rs fns in Forall (fn_ok ranges) r.1 /\ forall f, f ∈ fns -> f ∈ r.1.
Proof using Dec R.
  revert fns. induction rs as [|rng rs IH]; intros fns I F; cbn [sweep]; [done|]. destruct (mx <=? _); [done|].
  pose proof (sweep_range_spec mx (candidate decode file claimed covered rng) (sweep_offs rng) fns) as S. cbn in S.
  destruct (sweep_range _ _ _ fns) as [fns1 t1]. destruct S as [F1 S1].
  - intros off f Ho. apply candidate_ok; [apply I; left|]. unfold sweep_offs in Ho. apply elem_of_seqZ in Ho.
    destruct (1 <? r_len rng); lia.
  - done.
  - specialize (IH fns1 (fun r Hr => I r (list_elem_of_further _ _ _ Hr)) F1). cbn in IH. destruct (sweep _ _ _ _ _ rs fns1) as [fns2 t2].
    cbn in *. destruct IH as [F2 S2]. split; [done|]. intros f Hf. by apply S2, S1.
Qed.

Context (sort_fns : list function_t -> list function_t).
Context (Srt : forall l, sort_fns l ≡ₚ l /\ StronglySorted Z.le (va <$> sort_fns l)).

Lemma merge_spec fns st :
  Forall (fn_ok ranges) fns ->
  index_ok ranges (mk_index (merge_fns sort_fns fns) st) /\ forall v, v ∈ va <$> merge_fns sort_fns fns <-> v ∈ va <$> fns.
Proof using R Srt.
  intros F. destruct (Srt fns) as [P S]. unfold merge_fns. pose proof (unique_strict _ S) as U.
  assert (F' : Forall (fn_ok ranges) (unique_fns (sort_fns fns))).
  { apply Forall_forall. intros f Hf%unique_elem. rewrite Forall_forall in F. apply F. by rewrite <-P. }
  assert (B : Forall (fun f => 0 <= va f < 2 ^ 64) (unique_fns (sort_fns fns))).
  { eapply Forall_impl; [exact F'|]. intros f (Sz & r & Hr & A & E). rewrite Forall_forall in R. destruct (R r Hr) as (? & ? & ?). lia. }
  split; [split; cbn; [by apply clip_disjoint|by apply clip_ok]|].
  intros v. rewrite clip_starts, unique_starts. by rewrite P.
Qed.
End Sweep.

(** The loop over the unwind starts adds nothing: without the cap the descent has claimed
    them all, and with it the sum that is compared has passed the cap. *)
Lemma add_pdata_nothing mx l fns extent :
  (forall v e, (v, e) ∈ l -> is_Some (extent !! v)) \/ mx <= Z.of_nat (base.size extent) ->
  (add_pdata mx l fns extent).1 = (fns, extent).
Proof.
  intros H. induction l as [|[v e] l IH]; [done|]. cbn [add_pdata].
  destruct (bool_decide_reflect (is_Some (extent !! v))) as [S|S].
  - apply IH. destruct H as [H|H]; [left|by right]. intros u x Hu. apply (H u x). by right.
  - destruct H as [H|H]; [exfalso; apply S, (H v e); left|]. rewrite (proj2 (Z.leb_le _ _)); [done|]. unfold zlen. lia.
Qed.

(** The functions of the descent, in any order of the map. *)
Lemma extent_fns (key_order : gmap Z Z -> list (Z * Z)) ranges ext :
  (forall m, key_order m ≡ₚ map_to_list m) -> (forall v n, ext !! v = Some n -> fn_ok ranges (mk_fn v n)) ->
  let fns := (fun p => mk_fn p.1 p.2) <$> List.filter (fun p => 1 <=? p.2) (key_order ext) in
  Forall (fn_ok ranges) fns /\ forall v, v ∈ dom ext -> v ∈ va <$> fns.
Proof.
  intros Ord Ex fns. assert (El : forall v n, (v, n) ∈ key_order ext <-> ext !! v = Some n) by (intros v n; by rewrite Ord, elem_of_map_to_list).
  split.
  - apply Forall_forall. intros f ([v n] & -> & H)%list_elem_of_fmap. apply list_elem_of_In, filter_In in H as [H%list_elem_of_In _].
    by apply Ex, El.
  - intros v [n Hn]%elem_of_dom. unfold fns. rewrite <-list_fmap_compose. apply list_elem_of_fmap. exists (v, n). split; [done|].
    apply list_elem_of_In, filter_In. split; [by apply list_elem_of_In, El|]. destruct (Ex v n Hn) as [S _]. cbn in *. by apply Z.leb_le.
Qed.

(** Without the cap the descent claims what is reached. *)
Lemma reached_claimed decode file ranges seed cl ext :
  descent_ok decode file ranges [] cl ext -> (forall v, seed v -> is_Some (range_for_va ranges v) -> v ∈ cl) ->
  forall v, reached decode file ranges seed v -> v ∈ cl.
Proof.
  intros D S v. induction 1 as [v Hs Hr|c rng t H IH Hr C Ht]; [by apply S|].
  destruct (d_calls _ _ _ _ _ _ D c rng t IH Hr C Ht) as [?|?%elem_of_nil]; done.
Qed.

(** C22: For every image whose sections lie below the end of the address space, and whatever the
    decoder says, the index is built: its functions are in order, do not overlap and lie
    in executable ranges; [containing] finds the one that contains an address; and when the
    cap was not met, every seed in a range and every target of a call met from a found
    function is the start of a function. *)
Theorem function_index_built decode key_order sort_fns file pe eng_ok base max_functions :
  decode_ok decode -> (forall m, key_order m ≡ₚ map_to_list m) ->
  (forall l, sort_fns l ≡ₚ l /\ StronglySorted Z.le (va <$> sort_fns l)) -> image_fits pe base ->
  exists b idx, build decode key_order sort_fns file pe eng_ok base max_functions = Some (b, idx) /\
    StronglySorted before (fns_ idx) /\ Forall (fn_ok (exec_ranges pe base file)) (fns_ idx) /\
    (forall v s, containing idx v = Some s <-> exists f, f ∈ fns_ idx /\ va f = s /\ va f <= v < va f + size f) /\
    (b = true -> truncated (stats_ idx) = false ->
     forall v, reached decode file (exec_ranges pe base file) (is_seed pe base) v -> v ∈ va <$> fns_ idx).
Proof.
  intros Dec Ord Srt Fit. pose proof (exec_ranges_ok pe base file Fit) as R. set (ranges := exec_ranges pe base file) in *.
  assert (Done : forall b idx, build decode key_order sort_fns file pe eng_ok base max_functions = Some (b, idx) -> index_ok ranges idx ->
    (b = true -> truncated (stats_ idx) = false -> forall v, reached decode file ranges (is_seed pe base) v -> v ∈ va <$> fns_ idx) ->
    exists b idx, build decode key_order sort_fns file pe eng_ok base max_functions = Some (b, idx) /\
      StronglySorted before (fns_ idx) /\ Forall (fn_ok ranges) (fns_ idx) /\
      (forall v s, containing idx v = Some s <-> exists f, f ∈ fns_ idx /\ va f = s /\ va f <= v < va f + size f) /\
      (b = true -> truncated (stats_ idx) = false -> forall v, reached decode file ranges (is_seed pe base) v -> v ∈ va <$> fns_ idx)).
  { intros b idx E I C. exists b, idx. split_and!; [done|apply I|apply I|intros v s; by eapply containing_spec|done]. }
  assert (Zero : index_ok ranges index0) by (split; constructor).
  unfold build in Done |- *. fold ranges in Done |- *.
  destruct (negb (ok pe) || negb eng_ok); [by apply (Done false index0)|].
  destruct (bool_decide (ranges = [])); [by apply (Done false index0)|].
  pose proof (seed_all_spec ranges R base pe) as Sd. destruct (seed_all pe ranges base) as [[w n] pd]. destruct Sd as (Pd & Pw & Sw).
  destruct (descend_spec decode Dec file ranges R pd (descend_fuel w max_functions ranges) max_functions w ∅ ∅ Pd) as (cl & ext & t1 & E & Do & Ex & T).
  - split; [intros v Hv; by apply Sw|by rewrite dom_empty_L|intros v k H; by rewrite lookup_empty in H|intros c rng t Hc; set_solver].
  - unfold descend_fuel. rewrite size_empty. pose proof (max_len_nonneg ranges). nia.
  - rewrite E in Done |- *. cbn [mbind option_bind] in Done |- *.
    assert (Skip : (add_pdata max_functions (key_order pd) ((fun p => mk_fn p.1 p.2) <$> List.filter (fun p => 1 <=? p.2) (key_order ext)) ext).1
      = ((fun p => mk_fn p.1 p.2) <$> List.filter (fun p => 1 <=? p.2) (key_order ext), ext)).
    { apply add_pdata_nothing. destruct t1; [right; by rewrite <-size_dom, Do|left]. intros v e He.
      rewrite Ord, elem_of_map_to_list in He. apply elem_of_dom. rewrite Do. apply T. right. by apply (Pw v e). }
    destruct (extent_fns key_order ranges ext Ord Ex) as [F0 S0]. cbn zeta in F0, S0. set (fns := _ <$> _) in *.
    destruct (add_pdata _ _ fns ext) as [[fns' ext'] t2]. cbn in Skip. injection Skip as -> ->.
    pose proof (sweep_spec decode Dec file ranges R max_functions cl (covered_of key_order ext) ranges fns (fun r Hr => Hr) F0) as Sw'. cbn in Sw'.
    destruct (sweep _ _ _ _ _ ranges fns) as [fns3 t3]. destruct Sw' as [F3 S3]. cbn [fst] in F3, S3.
    eapply (Done true); [done|by apply merge_spec|]. cbn [stats_ truncated]. intros _ Tr v Hv.
    destruct t1; [done|]. destruct T as [D T]. apply (merge_spec ranges R sort_fns Srt fns3 stats0 F3).
    assert (Hc : v ∈ dom ext). { rewrite Do. eapply reached_claimed; [exact D| |exact Hv]. intros u Hs Hr. apply T. right. by apply Sw. }
    apply S0, list_elem_of_fmap in Hc as (f & -> & Hf). apply list_elem_of_fmap. exists f. split; [done|]. by apply S3.
Qed.

(** ** Without decoding *)

Section Bounds.
Context (ranges : list exec_range_t) (R : Forall range_ok ranges) (known_end : gmap Z Z).

Lemma bound_fns_starts starts : va <$> bound_fns ranges known_end starts = starts.
Proof. induction starts as [|s l IH]; [done|]. cbn. by rewrite IH. Qed.

Lemma bound_fns_ok starts :
  StronglySorted Z.lt starts -> (forall v, v ∈ starts -> is_Some (range_for_va ranges v)) ->
  StronglySorted before (bound_fns ranges known_end starts) /\ Forall (fn_ok ranges) (bound_fns ranges known_end starts).
Proof using R.
  induction 1 as [|s l S IH F]; intros I; [by split; constructor|].
  destruct IH as [Sb Fb]; [intros v Hv; apply I; by right|].
  destruct (I s ltac:(left)) as [rng Hr]. destruct (range_for_va_Some _ _ _ R Hr) as (Hin & (A & B & C) & J). unfold inside in J.
  cbn [bound_fns]. rewrite Hr, (wrap_small 64 (r_va rng + r_len rng)) by (split; lia).
  set (e1 := match l with next :: _ => _ | [] => _ end). set (e2 := if _ <? _ then _ else e1).
  assert (E1 : s < e1 <= r_va rng + r_len rng /\ forall v, v ∈ l -> e1 <= v).
  { unfold e1. destruct l as [|x l]; [split; [lia|by intros v ?%elem_of_nil]|]. apply Forall_cons in F as [Lx F].
    split; [lia|]. intros v [->|Hv]%elem_of_cons; [lia|]. apply StronglySorted_inv in S as [_ G]. rewrite Forall_forall in G. specialize (G v Hv). lia. }
  assert (E2 : s < e2 <= e1) by (unfold e2; destruct (Z.ltb_spec s (default 0 (known_end !! s))); lia).
  rewrite wrap_small by (split; lia). destruct E1 as [E1 Nx]. split; constructor; try done.
  - apply Forall_forall. intros f Hf. unfold before. cbn. assert (Hv : va f ∈ l).
    { rewrite <-(bound_fns_starts l). by apply list_elem_of_fmap_2. }
    specialize (Nx _ Hv). lia.
  - split; cbn; [lia|]. exists rng. split; [done|lia].
Qed.
End Bounds.

Lemma add_bounds_dom ranges l m v :
  v ∈ dom (foldl (add_bound ranges) m l) <-> v ∈ dom m \/ (is_Some (range_for_va ranges v) /\ exists e, (v, e) ∈ l).
Proof.
  revert m. induction l as [|[s e] l IH]; intros m; cbn [foldl]; [split; [by left|intros [?|(_ & e & H%elem_of_nil)]; done]|].
  rewrite IH. assert (D : v ∈ dom (add_bound ranges m (s, e)) <-> v ∈ dom m \/ (is_Some (range_for_va ranges v) /\ v = s)).
  { unfold add_bound. cbn. destruct (bool_decide_reflect (is_Some (range_for_va ranges s))) as [S|S]; [|naive_solver].
    destruct (m !! s) as [x|] eqn:M; [|rewrite dom_insert; set_solver].
    assert (s ∈ dom m) by (apply elem_of_dom; by eexists). destruct (x <? e); [rewrite dom_insert|]; set_solver. }
  rewrite D. setoid_rewrite elem_of_cons. naive_solver.
Qed.

Lemma le_nodup_lt l : StronglySorted Z.le l -> NoDup l -> StronglySorted Z.lt l.
Proof.
  induction 1 as [|x l S IH F]; intros N; [constructor|]. apply NoDup_cons in N as [Nx N]. constructor; [by apply IH|].
  rewrite Forall_forall in *. intros y Hy. specialize (F y Hy). assert (x <> y) by (by intros ->). lia.
Qed.

Lemma take_strict n l : StronglySorted Z.lt l -> StronglySorted Z.lt (take n l).
Proof.
  intros S. revert n. induction S as [|x l S IH F]; intros [|n]; cbn; [constructor..|]. constructor; [apply IH|]. by apply Forall_take.
Qed.

(** The index of the bounds alone: the starts that the unwind data, the entry and the
    exports give in the ranges, in order, each up to the next at most. *)
Lemma bounds_index_built key_order file pe base max_functions :
  (forall m, key_order m ≡ₚ map_to_list m) -> image_fits pe base ->
  let '(b, idx) := build_from_bounds key_order file pe base max_functions in
  b = ok pe /\ StronglySorted before (fns_ idx) /\ Forall (fn_ok (exec_ranges pe base file)) (fns_ idx) /\
  (forall v s, containing idx v = Some s <-> exists f, f ∈ fns_ idx /\ va f = s /\ va f <= v < va f + size f) /\
  (b = true -> truncated (stats_ idx) = false -> forall v, v ∈ va <$> fns_ idx <->
    is_Some (range_for_va (exec_ranges pe base file) v) /\ exists e, (v, e) ∈ bounds_of pe base).
Proof.
  intros Ord Fit. pose proof (exec_ranges_ok pe base file Fit) as R. set (ranges := exec_ranges pe base file) in *.
  unfold build_from_bounds. destruct (ok pe); cbn [negb].
  2: { cbn. split_and!; [done|constructor|constructor| |done]. intros v s. split; [done|]. intros (f & H & _). by apply elem_of_nil in H. }
  fold ranges. set (m := foldl _ ∅ _). set (keys := merge_sort Z.le (key_order m).*1).
  assert (Ek : forall v, v ∈ keys <-> v ∈ dom m).
  { intros v. unfold keys. rewrite merge_sort_Permutation, Ord. rewrite elem_of_dom, list_elem_of_fmap. split.
    - intros ([u n] & -> & H%elem_of_map_to_list). by eexists.
    - intros [n H]. exists (v, n). split; [done|]. by apply elem_of_map_to_list. }
  assert (Sk : StronglySorted Z.lt keys).
  { apply le_nodup_lt; [apply StronglySorted_merge_sort; apply _|]. unfold keys. rewrite merge_sort_Permutation, Ord. apply NoDup_fst_map_to_list. }
  set (starts := if max_functions <? zlen keys then take (Z.to_nat max_functions) keys else keys).
  assert (Sub : StronglySorted Z.lt starts /\ forall v, v ∈ starts -> v ∈ keys).
  { unfold starts. destruct (max_functions <? zlen keys); [|done]. split; [by apply take_strict|]. intros v (i & Hi & _)%elem_of_take. by eapply list_elem_of_lookup_2. }
  destruct Sub as [Ss Sub]. destruct (bound_fns_ok ranges R m starts Ss) as [Sb Fb].
  { intros v Hv%Sub%Ek. apply add_bounds_dom in Hv as [H|[? _]]; [by rewrite dom_empty_L in H|done]. }
  cbn [fns_ stats_ truncated]. split; [done|]. split; [done|]. split; [done|]. split; [intros v s; exact (containing_spec ranges (mk_index (bound_fns ranges m starts) _) v s R (mk_index_ok _ (mk_index _ _) Sb Fb))|]. intros _ T v.
  rewrite bound_fns_starts. unfold starts. rewrite T, Ek. unfold m. rewrite add_bounds_dom, dom_empty_L. set_solver.
Qed.

(** ** An image of three functions *)

(** [call rel], [ret], [nop] and [sub rsp, imm]. *)
Definition tiny (v : Z) (l : list Z) : option insn_t :=
  match l with
  | 195 :: _ => Some (mk_insn 1 ret false 0)
  | 144 :: _ => Some (mk_insn 1 none false 0)
  | 232 :: a :: _ :: _ :: _ :: _ => Some (mk_insn 5 call true (v + 5 + a))
  | 72 :: 131 :: 236 :: _ :: _ => Some (mk_insn 4 none false 0)
  | _ => None
  end.

Lemma tiny_ok : decode_ok tiny.
Proof.
  intros v l i H. unfold tiny, zlen in *. repeat (case_match; try done); simplify_eq; cbn; lia.
Qed.

Definition fn_le (a b : function_t) : Prop := va a <= va b.
#[local] Instance fn_le_dec a b : Decision (fn_le a b).
Proof. unfold fn_le. apply _. Defined.
#[local] Instance fn_le_total : Total fn_le.
Proof. intros a b. unfold fn_le. lia. Qed.
#[local] Instance fn_le_trans : Transitive fn_le.
Proof. intros a b c. unfold fn_le. lia. Qed.

Lemma merge_sorts l : merge_sort fn_le l ≡ₚ l /\ StronglySorted Z.le (va <$> merge_sort fn_le l).
Proof.
  split; [apply merge_sort_Permutation|]. pose proof (StronglySorted_merge_sort fn_le l) as S. induction S as [|x k S IH F]; cbn; constructor; [done|].
  rewrite Forall_fmap. exact F.
Qed.

(** The entry calls the last function; the one between is found by its prologue. *)
Definition three_file : list Z :=
  [232; 11; 0; 0; 0; 195; 204; 204; 204; 204; 72; 131; 236; 40; 195; 204; 144; 195; 204; 204; 204; 204].
Definition three_image : pe_image_t :=
  mk_image true true 34404 3 4194304 4096 8192 [mk_section [] 4096 22 0 22 536870912] [] [] [] [].

Lemma three_fits : image_fits three_image 4194304.
Proof. split; [lia|]. cbn. repeat constructor; cbn; lia. Qed.

Lemma function_index_built_witness :
  exists idx, build tiny map_to_list (merge_sort fn_le) three_file three_image true 4194304 100 = Some (true, idx) /\
    fns_ idx = [mk_fn 4198400 6; mk_fn 4198410 5; mk_fn 4198416 2] /\ StronglySorted before (fns_ idx) /\
    containing idx 4198415 = None /\ containing idx 4198417 = Some 4198416.
Proof.
  destruct (function_index_built tiny map_to_list (merge_sort fn_le) three_file three_image true 4194304 100
    tiny_ok (fun m => Permutation_refl _) merge_sorts three_fits) as (b & idx & E & D & _).
  assert (X : build tiny map_to_list (merge_sort fn_le) three_file three_image true 4194304 100 =
    Some (true, mk_index [mk_fn 4198400 6; mk_fn 4198410 5; mk_fn 4198416 2] (mk_stats 1 2 1 false))) by (vm_compute; reflexivity).
  rewrite X in E. injection E as <- <-. eexists. split; [exact X|]. split; [reflexivity|]. split; [exact D|]. split; reflexivity.
Defined.
