(* ===== verification/Rtti.v ===== *)
(** * RTTI recovery: src/core/re/rtti.cpp

    The three passes over the sections of an image: type descriptors, the locators that
    name them, the tables whose slot before the first points to a locator.  Every byte
    read is checked against the file. *)

From S2P Require Import Prelude PeParser.

#[local] Open Scope Z_scope.

Record rtti_class_t := mk_class { name : list Z; td_va : Z; col_vas : list Z; vftables : list Z }.
Record rtti_result_t := mk_result { classes : list rtti_class_t; scanned_bytes : Z }.
Record section_span_t := mk_span { va : Z; file_off : Z; span_size : Z; writable : bool }.
Record td_hit_t := mk_td { td_hit_va : Z; td_hit_rva : Z; td_hit_name : list Z }.
Record col_hit_t := mk_col { col_hit_va : Z; col_td_rva : Z }.

(** The name without the prefix and the trailing marks; every other mark is a colon. *)
Fixpoint drop_marks (l : list Z) : list Z :=
  match l with c :: l' => if c =? ch "@" then drop_marks l' else l | [] => [] end.

Definition demangle_msvc_name (raw : list Z) : list Z :=
  let prefix := bs ".?AV" in
  if negb (starts_with prefix raw) then raw
  else (fun c => if c =? ch "@" then ch ":" else c) <$> reverse (drop_marks (reverse (drop (length prefix) raw))).

(** [for (i = start; i + width <= size; i += inc)] with a body that may move [i]. *)
Fixpoint for_loop {A} (fuel : nat) (size width inc i : Z) (body : Z -> A -> outcome (A * Z)) (acc : A) : outcome A :=
  match fuel with
  | O => Crash
  | S fuel => if size <? i + width then Done acc else r ← body i acc; for_loop fuel size width inc (r.2 + inc) body r.1
  end.

Section Scan.
Context (pe : pe_image_t) (file : list Z).

Definition data_spans : list section_span_t :=
  omap (fun s =>
    if (raw_size s =? 0) || (virtual_size s =? 0) then None
    else if zlen file <? raw_offset s + raw_size s then None
    else Some (mk_span (u64 (image_base pe + rva s)) (raw_offset s) (Z.min (raw_size s) (virtual_size s))
                 (negb (Z.land (characteristics s) 2147483648 =? 0)))) (sections pe).

Definition fuel_of (sp : section_span_t) : nat := S (Z.to_nat (span_size sp)).

(** The first zero from [e] on, or the size of the span. *)
Fixpoint name_end (fuel : nat) (sp : section_span_t) (e : Z) : outcome Z :=
  match fuel with
  | O => Crash
  | S fuel =>
      if span_size sp <=? e then Done e
      else b ← byte_at file (file_off sp + e); if b =? 0 then Done e else name_end fuel sp (e + 1)
  end.

Definition slice (off n : Z) : outcome (list Z) := mapM (fun k => byte_at file (off + k)) (seqZ 0 n).

(** The test for the start of a name; the bytes are read as far as they match. *)
Definition name_starts (sp : section_span_t) (i : Z) : outcome bool :=
  b0 ← byte_at file (file_off sp + i);
  if negb (b0 =? ch ".") then Done false
  else
    b1 ← byte_at file (file_off sp + (i + 1));
    if negb (b1 =? ch "?") then Done false
    else b2 ← byte_at file (file_off sp + (i + 2)); Done ((b2 =? ch "A") || (b2 =? ch "W")).

Definition td_body (sp : section_span_t) (i : Z) (tds : gmap Z td_hit_t) : outcome (gmap Z td_hit_t * Z) :=
  starts ← name_starts sp i;
  if negb starts then Done (tds, i)
  else
    e ← name_end (fuel_of sp) sp i;
    if (span_size sp <=? e) || (e =? i) then Done (tds, i)
    else
      raw ← slice (file_off sp + i) (e - i);
      let v := u64 (va sp + (i - 16)) in
      let r := u32 (v - image_base pe) in
      Done (<[r := mk_td v r (demangle_msvc_name raw)]> tds, e).

Definition td_span (tds : gmap Z td_hit_t) (sp : section_span_t) : outcome (gmap Z td_hit_t) :=
  if span_size sp <? 20 then Done tds else for_loop (fuel_of sp) (span_size sp) 4 1 16 (td_body sp) tds.

Definition rd32 (sp : section_span_t) (o : Z) : outcome Z := load_le 4 file (file_off sp + o).

Definition col_body (tds : gmap Z td_hit_t) (sp : section_span_t) (i : Z) (cols : gmap Z col_hit_t) : outcome (gmap Z col_hit_t * Z) :=
  signature ← rd32 sp i;
  if negb (signature =? 0) then Done (cols, i)
  else
    td_rva ← rd32 sp (i + 12);
    self_rva ← rd32 sp (i + 20);
    let self_calc := u32 (va sp + i - image_base pe) in
    if negb (self_rva =? self_calc) then Done (cols, i)
    else if negb (bool_decide (is_Some (tds !! td_rva))) then Done (cols, i)
    else Done (<[self_calc := mk_col (u64 (va sp + i)) td_rva]> cols, i).

Definition col_span (tds : gmap Z td_hit_t) (cols : gmap Z col_hit_t) (sp : section_span_t) : outcome (gmap Z col_hit_t) :=
  if span_size sp <? 24 then Done cols else for_loop (fuel_of sp) (span_size sp) 24 4 0 (col_body tds sp) cols.

(** The class of a descriptor, made when it is not there yet. *)
Fixpoint add_table (td : td_hit_t) (col v : Z) (l : list rtti_class_t) : list rtti_class_t :=
  match l with
  | [] => [mk_class (td_hit_name td) (td_hit_va td) [col] [v]]
  | c :: l' =>
      if td_va c =? td_hit_va td then mk_class (name c) (td_va c) (col_vas c ++ [col]) (vftables c ++ [v]) :: l'
      else c :: add_table td col v l'
  end.

Definition vft_body (tds : gmap Z td_hit_t) (cols : gmap Z col_hit_t) (sp : section_span_t) (i : Z) (l : list rtti_class_t) :
    outcome (list rtti_class_t * Z) :=
  ptr ← load_le 8 file (file_off sp + i);
  if (ptr <? image_base pe) || (ptr <? u64 (image_base pe + 4096)) then Done (l, i)
  else
    match cols !! u32 (ptr - image_base pe) with
    | None => Done (l, i)
    | Some col => Done (add_table (default (mk_td 0 0 []) (tds !! col_td_rva col)) (col_hit_va col) (u64 (va sp + i + 8)) l, i)
    end.

Definition vft_span (tds : gmap Z td_hit_t) (cols : gmap Z col_hit_t) (l : list rtti_class_t) (sp : section_span_t) : outcome (list rtti_class_t) :=
  if span_size sp <? 8 then Done l else for_loop (fuel_of sp) (span_size sp) 8 8 0 (vft_body tds cols sp) l.

(** A pass over the spans. *)
Fixpoint over {A} (f : A -> section_span_t -> outcome A) (acc : A) (spans : list section_span_t) : outcome A :=
  match spans with [] => Done acc | sp :: spans' => acc ← f acc sp; over f acc spans' end.

(** [std::sort] by name: which of two equal names comes first is open. *)
Context (sort_by_name : list rtti_class_t -> list rtti_class_t).

Definition rtti_scan : outcome rtti_result_t :=
  if negb (ok pe) || (image_base pe =? 0) then Done (mk_result [] 0)
  else
    tds ← over td_span ∅ data_spans;
    cols ← over (col_span tds) ∅ data_spans;
    l ← over (vft_span tds cols) [] data_spans;
    Done (mk_result (sort_by_name l) (foldl (fun n sp => u64 (n + span_size sp)) 0 data_spans)).

(** ** [read_vftable] *)

Fixpoint slots_from (n : nat) (off : Z) : outcome (list Z) :=
  match n with
  | O => Done []
  | S n =>
      ptr ← load_le 8 file off;
      if ptr =? 0 then Done []
      else if (ptr <? image_base pe) || (u64 (image_base pe + size_of_image pe) <=? ptr) then Done []
      else r ← slots_from n (off + 8); Done (ptr :: r)
  end.

Definition read_vftable (vftable_va max_slots : Z) : outcome (option (list Z)) :=
  match va_to_offset pe vftable_va with
  | None => Done None
  | Some off => if zlen file <? u64 (off + u64 (max_slots * 8)) then Done None else r ← slots_from (Z.to_nat max_slots) off; Done (Some r)
  end.
End Scan.

(** ** Loops *)

Lemma for_loop_spec {A} (P : Z -> A -> Prop) fuel size width inc i body acc :
  1 <= inc -> 1 <= width ->
  (forall i acc, P i acc -> i + width <= size -> returns (body i acc) (fun r => i <= r.2 /\ P (r.2 + inc) r.1)) ->
  P i acc -> size - i < Z.of_nat fuel -> (0 < fuel)%nat ->
  returns (for_loop fuel size width inc i body acc) (fun acc => exists i, size < i + width /\ P i acc).
Proof.
  intros Hi Hw Hb. revert i acc. induction fuel as [|fuel IH]; intros i acc HP Hf Hp; [lia|]. cbn [for_loop].
  destruct (Z.ltb_spec size (i + width)); [apply returns_done; by exists i|].
  eapply returns_bind; [by apply Hb|]. intros [acc' i'] [L HP']. cbn in *. apply IH; [done|lia|lia].
Qed.

Lemma over_spec {A} (f : A -> section_span_t -> outcome A) (P : list section_span_t -> A -> Prop) spans past acc :
  (forall past sp acc, sp ∈ spans -> P past acc -> returns (f acc sp) (P (past ++ [sp]))) ->
  P past acc -> returns (over f acc spans) (P (past ++ spans)).
Proof.
  revert past acc. induction spans as [|sp spans IH]; intros past acc H HP; [apply returns_done; by rewrite app_nil_r|]. cbn [over].
  eapply returns_bind; [apply H; [left|exact HP]|]. intros a Ha. rewrite cons_middle, app_assoc. apply IH; [|done].
  intros p s x Hs. apply H. by right.
Qed.

(** ** What the passes look for *)

Section Spec.
Context (pe : pe_image_t) (file : list Z).

Definition rva_of (sp : section_span_t) (i : Z) : Z := u32 (u64 (va sp + i) - image_base pe).

(** The text from [i] up to the first zero, at [e]. *)
Definition text_at (sp : section_span_t) (i e : Z) (t : list Z) : Prop :=
  i < e < span_size sp /\ byte_at file (file_off sp + e) = Done 0 /\ t = take (Z.to_nat (e - i)) (drop (Z.to_nat (file_off sp + i)) file) /\
  forall k, i <= k < e -> exists b, byte_at file (file_off sp + k) = Done b /\ b <> 0.

(** A descriptor: the name starts 16 bytes after it. *)
Definition is_td (sp : section_span_t) (i : Z) (t : list Z) : Prop :=
  16 <= i /\ i + 4 <= span_size sp /\ name_starts file sp i = Done true /\ exists e, text_at sp i e t.

Definition td_of (sp : section_span_t) (i : Z) (t : list Z) (h : td_hit_t) : Prop :=
  td_hit_va h = u64 (va sp + (i - 16)) /\ td_hit_rva h = rva_of sp (i - 16) /\ td_hit_name h = demangle_msvc_name t.

(** A locator for the descriptor at [td]: the signature, the two addresses. *)
Definition is_col (sp : section_span_t) (i td : Z) : Prop :=
  0 <= i /\ i mod 4 = 0 /\ i + 24 <= span_size sp /\ rd32 file sp i = Done 0 /\ rd32 file sp (i + 12) = Done td /\
  rd32 file sp (i + 20) = Done (u32 (va sp + i - image_base pe)).

(** A slot that points to the address [r] of the image. *)
Definition is_slot (sp : section_span_t) (i r : Z) : Prop :=
  0 <= i /\ i mod 8 = 0 /\ i + 8 <= span_size sp /\
  exists ptr, load_le 8 file (file_off sp + i) = Done ptr /\ image_base pe <= ptr /\ u64 (image_base pe + 4096) <= ptr /\ r = u32 (ptr - image_base pe).

Record span_ok (sp : section_span_t) : Prop := mk_span_ok {
  so_off : 0 <= file_off sp; so_size : 0 <= span_size sp; so_in : file_off sp + span_size sp <= zlen file
}.

Lemma data_spans_ok : Forall section_ok (sections pe) -> Forall span_ok (data_spans pe file).
Proof.
  intros F. apply Forall_forall. intros sp (s & Hs & E)%list_elem_of_omap. rewrite Forall_forall in F.
  destruct (F s Hs) as (_ & _ & Hv & Ho & Hr). unfold is_word in *. destruct (_ || _); [done|].
  destruct (Z.ltb_spec (zlen file) (raw_offset s + raw_size s)); [done|]. injection E as <-. split; cbn; lia.
Qed.

Context (Bytes : bytes_ok file).

Lemma byte_returns sp k : span_ok sp -> 0 <= k < span_size sp -> exists b, byte_at file (file_off sp + k) = Done b.
Proof. intros [] Hk. destruct (byte_at_in file (file_off sp + k)) as (b & E & _); [lia|by exists b]. Qed.

Lemma name_starts_returns sp i : span_ok sp -> 0 <= i -> i + 4 <= span_size sp -> exists b, name_starts file sp i = Done b.
Proof.
  intros S H0 H1. unfold name_starts. destruct (byte_returns sp i S ltac:(lia)) as [b0 E0]. rewrite E0. cbn. destruct (negb _); [eauto|].
  destruct (byte_returns sp (i + 1) S ltac:(lia)) as [b1 E1]. rewrite E1. cbn. destruct (negb _); [eauto|].
  destruct (byte_returns sp (i + 2) S ltac:(lia)) as [b2 E2]. rewrite E2. cbn. eauto.
Qed.

Lemma name_end_spec fuel sp i : span_ok sp -> 0 <= i -> span_size sp - i < Z.of_nat fuel -> (0 < fuel)%nat ->
  returns (name_end file fuel sp i) (fun e => i <= e /\ (forall k, i <= k < e -> exists b, byte_at file (file_off sp + k) = Done b /\ b <> 0) /\
    (e < span_size sp -> byte_at file (file_off sp + e) = Done 0)).
Proof.
  intros S. revert i. induction fuel as [|fuel IH]; intros i H0 Hf Hp; [lia|]. cbn [name_end].
  destruct (Z.leb_spec (span_size sp) i); [apply returns_done; split_and!; [lia|lia|lia]|].
  destruct (byte_returns sp i S ltac:(lia)) as [b E]. rewrite E. cbn. destruct (Z.eqb_spec b 0) as [->|N].
  - apply returns_done. split_and!; [lia|lia|done].
  - eapply returns_weaken; [apply IH; lia|]. cbn. intros e (L & A & B). split_and!; [lia| |done].
    intros k Hk. destruct (decide (k = i)) as [->|]; [by exists b|apply A; lia].
Qed.

Lemma rva_of_sub sp i : rva_of sp i = u32 (va sp + i - image_base pe).
Proof.
  unfold rva_of, wrap. rewrite Zminus_mod, (Zminus_mod (va sp + i)). f_equal. f_equal. symmetry. rewrite <-(Z.mod_mod_divide _ (2 ^ 64) (2 ^ 32)); [done|]. by exists (2 ^ 32).
Qed.

Lemma slice_returns sp i n : span_ok sp -> 0 <= i -> 0 <= n -> i + n <= span_size sp ->
  returns (slice file (file_off sp + i) n) (fun l => l = take (Z.to_nat n) (drop (Z.to_nat (file_off sp + i)) file)).
Proof. intros [] H0 H1 H2. apply returns_slice; lia. Qed.

(** *** Descriptors *)

Context (spans : list section_span_t) (Sok : Forall span_ok spans).

Lemma span_in sp : sp ∈ spans -> span_ok sp.
Proof using Sok. apply (proj1 (Forall_forall _ _) Sok). Qed.

(** A name after a zero byte is not inside another one. *)
Definition after_zero (sp : section_span_t) (i : Z) : Prop := byte_at file (file_off sp + (i - 1)) = Done 0.

Definition td_sound (tds : gmap Z td_hit_t) : Prop :=
  forall r h, tds !! r = Some h -> r = td_hit_rva h /\ exists sp i t, sp ∈ spans /\ is_td sp i t /\ td_of sp i t h.

Definition td_found (tds : gmap Z td_hit_t) (sp : section_span_t) (n : Z) : Prop :=
  forall i t, is_td sp i t -> after_zero sp i -> i < n -> is_Some (tds !! rva_of sp (i - 16)).

Definition td_inv (past : list section_span_t) (tds : gmap Z td_hit_t) : Prop :=
  td_sound tds /\ forall sp n, sp ∈ past -> td_found tds sp n.

Lemma text_unique sp i e t e' t' : text_at sp i e t -> text_at sp i e' t' -> e = e' /\ t = t'.
Proof.
  intros ([L1 L2] & Z1 & -> & N1) ([L1' L2'] & Z2 & -> & N2).
  assert (e = e') as ->; [|done]. destruct (Z.lt_trichotomy e e') as [H|[H|H]]; [exfalso| done|exfalso].
  - destruct (N2 e ltac:(lia)) as (b & E & Nb). congruence.
  - destruct (N1 e' ltac:(lia)) as (b & E & Nb). congruence.
Qed.

Lemma insert_found (tds : gmap Z td_hit_t) k h r : is_Some (tds !! r) -> is_Some (<[k := h]> tds !! r).
Proof. intros H. destruct (decide (k = r)) as [->|N]; [rewrite lookup_insert_eq; by eexists|by rewrite lookup_insert_ne]. Qed.

Lemma td_body_spec past sp i tds :
  sp ∈ spans -> 16 <= i -> i + 4 <= span_size sp -> td_inv past tds -> td_found tds sp i ->
  returns (td_body pe file sp i tds) (fun r => i <= r.2 /\ td_inv past r.1 /\ td_found r.1 sp (r.2 + 1)).
Proof using Sok.
  intros Hsp H0 H1 [Sd Fd] Fi. pose proof (span_in sp Hsp) as S. unfold td_body.
  destruct (name_starts_returns sp i S ltac:(lia) H1) as [st Est]. rewrite Est. cbn.
  assert (Skip : (forall t, ~ is_td sp i t) -> returns (Done (tds, i)) (fun r => i <= r.2 /\ td_inv past r.1 /\ td_found r.1 sp (r.2 + 1))).
  { intros N. apply returns_done. cbn. split; [lia|]. split; [done|]. intros j t T A Lj. destruct (decide (j = i)) as [->|]; [by apply N in T|].
    apply (Fi j t T A). lia. }
  destruct st; cbn; [|apply Skip; intros t (_ & _ & E & _); congruence].
  pose proof (so_size sp S). eapply returns_bind; [apply (name_end_spec (fuel_of sp) sp i S ltac:(lia)); unfold fuel_of; lia|].
  intros e (Le & Nz & Ze). destruct (_ || _) eqn:C.
  - apply Skip. intros t (_ & _ & _ & e' & (Ie & Es) & Ez' & _ & Nz'). apply orb_true_iff in C as [C|C].
    + destruct (Nz e' ltac:(lia)) as (b & E & Nb). congruence.
    + apply Z.eqb_eq in C. subst e. destruct (Nz' i ltac:(lia)) as (b & E & Nb). rewrite Ze in E by lia. congruence.
  - apply orb_false_iff in C as [C1 C2]. apply Z.leb_gt in C1. apply Z.eqb_neq in C2.
    eapply returns_bind; [apply (slice_returns sp i (e - i) S); lia|]. intros t ->. apply returns_done. cbn [fst snd].
    set (t := take _ _). assert (T : is_td sp i t). { split_and!; [done|done|done|]. exists e. split_and!; [lia|lia|by apply Ze|done|exact Nz]. }
    split; [lia|]. split; [split|].
    + intros r h. destruct (decide (r = rva_of sp (i - 16))) as [->|N].
      * unfold rva_of. rewrite lookup_insert_eq. intros [= <-]. split; [done|]. exists sp, i, t. by split_and!.
      * unfold rva_of in N. rewrite lookup_insert_ne by congruence. apply Sd.
    + intros sp' n Hp j t' T' A' L'. apply insert_found. by apply (Fd sp' n Hp j t').
    + intros j t' T' A' L'. destruct (Z.lt_trichotomy j i) as [Lj|[->|Lj]].
      * apply insert_found. by apply (Fi j t').
      * unfold rva_of. rewrite lookup_insert_eq. by eexists.
      * exfalso. unfold after_zero in A'. destruct (Nz (j - 1) ltac:(lia)) as (b & E & Nb). congruence.
Qed.

Lemma td_span_spec past sp tds : sp ∈ spans -> td_inv past tds -> returns (td_span pe file tds sp) (td_inv (past ++ [sp])).
Proof using Sok Bytes.
  intros Hsp I. unfold td_span. pose proof (so_size sp (span_in sp Hsp)).
  assert (G : forall tds, td_inv past tds -> (forall n, td_found tds sp n) -> td_inv (past ++ [sp]) tds).
  { intros T [A B] F. split; [done|]. intros sp' n [Hp|Hp]%elem_of_app; [by apply B|]. apply list_elem_of_singleton in Hp as ->. apply F. }
  destruct (Z.ltb_spec (span_size sp) 20).
  - apply returns_done, G; [done|]. intros n i t (? & ? & _). lia.
  - eapply returns_weaken.
    + apply (for_loop_spec (fun i tds => 16 <= i /\ td_inv past tds /\ td_found tds sp i)); [lia|lia| | |unfold fuel_of; lia|unfold fuel_of; lia].
      * intros i t (L & It & Ft) Li. eapply returns_weaken; [by apply (td_body_spec past)|]. cbn. intros r (L' & I' & F'). split_and!; [lia|lia|done|done].
      * split_and!; [lia|done|]. intros i t (? & _) _ ?. lia.
    + cbn. intros t (i & Li & _ & It & Ft). apply G; [done|]. intros n j t' T A _. apply (Ft j t' T A). destruct T as (_ & ? & _). lia.
Qed.

(** *** Locators *)

Section Cols.
Context (tds : gmap Z td_hit_t) (Tds : td_sound tds).

Definition col_sound (cols : gmap Z col_hit_t) : Prop :=
  forall r h, cols !! r = Some h -> is_Some (tds !! col_td_rva h) /\
    exists sp i, sp ∈ spans /\ is_col sp i (col_td_rva h) /\ col_hit_va h = u64 (va sp + i) /\ r = rva_of sp i.

Definition col_found (cols : gmap Z col_hit_t) (sp : section_span_t) (n : Z) : Prop :=
  forall i td, is_col sp i td -> is_Some (tds !! td) -> i < n -> is_Some (cols !! rva_of sp i).

Definition col_inv (past : list section_span_t) (cols : gmap Z col_hit_t) : Prop :=
  col_sound cols /\ forall sp n, sp ∈ past -> col_found cols sp n.

Lemma rd32_returns sp o : span_ok sp -> 0 <= o -> o + 4 <= span_size sp -> exists v, rd32 file sp o = Done v.
Proof using Bytes. intros [] H0 H1. destruct (load_le_in 4 file (file_off sp + o) Bytes ltac:(lia) ltac:(lia)) as (v & E & _). by exists v. Qed.

Lemma insert_col_found (cols : gmap Z col_hit_t) k h r : is_Some (cols !! r) -> is_Some (<[k := h]> cols !! r).
Proof. intros H. destruct (decide (k = r)) as [->|N]; [rewrite lookup_insert_eq; by eexists|by rewrite lookup_insert_ne]. Qed.

Lemma step_mod i n k : 0 < k -> i mod k = 0 -> n mod k = 0 -> i < n -> i < n - k \/ i = n - k.
Proof.
  intros Hk Hi Hn L. apply Z.mod_divide in Hi as [a ->], Hn as [b ->]; [|lia..].
  assert (a < b) by nia. destruct (decide (a < b - 1)); [left; nia|right; replace a with (b - 1) by lia; lia].
Qed.

Lemma col_body_spec past sp i cols :
  sp ∈ spans -> 0 <= i -> i mod 4 = 0 -> i + 24 <= span_size sp -> col_inv past cols -> col_found cols sp i ->
  returns (col_body pe file tds sp i cols) (fun r => r.2 = i /\ col_inv past r.1 /\ col_found r.1 sp (i + 4)).
Proof using Sok Bytes.
  intros Hsp H0 M H1 [Sd Fd] Fi. pose proof (span_in sp Hsp) as S. unfold col_body.
  assert (Skip : (forall td, is_Some (tds !! td) -> ~ is_col sp i td) ->
    returns (Done (cols, i)) (fun r => r.2 = i /\ col_inv past r.1 /\ col_found r.1 sp (i + 4))).
  { intros N. apply returns_done. cbn. split; [done|]. split; [done|]. intros j td C T L. pose proof C as (_ & Mj & _).
    destruct (step_mod j (i + 4) 4) as [?|Ej]; [lia|done|by rewrite Z.add_mod, M by lia|lia|apply (Fi j td); [done|done|lia]|].
    assert (j = i) as -> by lia. by apply N in C. }
  destruct (rd32_returns sp i S ltac:(lia) ltac:(lia)) as [sg Es]. rewrite Es. cbn [mbind outcome_bind].
  destruct (Z.eqb_spec sg 0) as [->|Ns]; cbn [negb]; [|apply Skip; intros td _ (_ & _ & _ & E & _); congruence].
  destruct (rd32_returns sp (i + 12) S ltac:(lia) ltac:(lia)) as [td Et]. rewrite Et. cbn [mbind outcome_bind].
  destruct (rd32_returns sp (i + 20) S ltac:(lia) ltac:(lia)) as [self Ef]. rewrite Ef. cbn [mbind outcome_bind].
  destruct (Z.eqb_spec self (u32 (va sp + i - image_base pe))) as [->|Nf]; cbn [negb]; [|apply Skip; intros td' _ (_ & _ & _ & _ & _ & E); congruence].
  case_bool_decide as T; cbn [negb]; [|apply Skip; intros td' T' (_ & _ & _ & _ & E & _); congruence].
  apply returns_done. cbn. split; [done|]. rewrite <-rva_of_sub.
  assert (C : is_col sp i td) by (by split_and!). split; [split|].
  - intros r h. destruct (decide (r = rva_of sp i)) as [->|N].
    + rewrite lookup_insert_eq. intros [= <-]. cbn. split; [done|]. exists sp, i. by split_and!.
    + rewrite lookup_insert_ne by congruence. apply Sd.
  - intros sp' n Hp j td' C' T' L'. apply insert_col_found. by apply (Fd sp' n Hp j td').
  - intros j td' C' T' L'. pose proof C' as (_ & Mj & _).
    destruct (step_mod j (i + 4) 4) as [?|Ej]; [lia|done|by rewrite Z.add_mod, M by lia|lia|apply insert_col_found, (Fi j td'); [done|done|lia]|].
    assert (j = i) as -> by lia. rewrite lookup_insert_eq. by eexists.
Qed.

Lemma col_span_spec past sp cols : sp ∈ spans -> col_inv past cols -> returns (col_span pe file tds cols sp) (col_inv (past ++ [sp])).
Proof using Sok Bytes.
  intros Hsp I. unfold col_span. pose proof (so_size sp (span_in sp Hsp)).
  assert (G : forall c, col_inv past c -> (forall n, col_found c sp n) -> col_inv (past ++ [sp]) c).
  { intros c [A B] F. split; [done|]. intros sp' n [Hp|Hp]%elem_of_app; [by apply B|]. apply list_elem_of_singleton in Hp as ->. apply F. }
  destruct (Z.ltb_spec (span_size sp) 24).
  - apply returns_done, G; [done|]. intros n i td (? & _ & ? & _). lia.
  - eapply returns_weaken.
    + apply (for_loop_spec (fun i c => 0 <= i /\ i mod 4 = 0 /\ col_inv past c /\ col_found c sp i)); [lia|lia| | |unfold fuel_of; lia|unfold fuel_of; lia].
      * intros i c (L & M & Ic & Fc) Li. eapply returns_weaken; [by apply (col_body_spec past)|]. cbn. intros r (-> & I' & F').
        split_and!; [lia|lia|by rewrite Z.add_mod, M by lia|done|done].
      * split_and!; [lia|done|done|]. intros i td (? & _) _ ?. lia.
    + cbn. intros c (i & Li & _ & _ & Ic & Fc). apply G; [done|]. intros n j td C T _. apply (Fc j td C T). destruct C as (_ & _ & ? & _). lia.
Qed.

(** *** Tables *)

Section Tables.
Context (cols : gmap Z col_hit_t) (Cols : col_sound cols).

Definition slot_of (h : td_hit_t) (col v : Z) : Prop :=
  exists sp j r k, sp ∈ spans /\ is_slot sp j r /\ v = u64 (va sp + j + 8) /\ cols !! r = Some k /\ col = col_hit_va k /\ col_td_rva k = td_hit_rva h.

Definition class_ok (c : rtti_class_t) : Prop :=
  exists h, tds !! td_hit_rva h = Some h /\ td_va c = td_hit_va h /\ name c = td_hit_name h /\ Forall2 (slot_of h) (col_vas c) (vftables c).

Definition vft_found (l : list rtti_class_t) (sp : section_span_t) (n : Z) : Prop :=
  forall j r, is_slot sp j r -> is_Some (cols !! r) -> j < n -> exists c, c ∈ l /\ u64 (va sp + j + 8) ∈ vftables c.

Definition vft_inv (past : list section_span_t) (l : list rtti_class_t) : Prop :=
  Forall class_ok l /\ NoDup (td_va <$> l) /\ forall sp n, sp ∈ past -> vft_found l sp n.

(** A descriptor of the map is determined by its address. *)
Lemma td_by_va r h h' : tds !! r = Some h -> tds !! td_hit_rva h' = Some h' -> td_hit_va h' = td_hit_va h -> h' = h.
Proof using Tds.
  intros E E' V. destruct (Tds _ _ E) as (-> & sp & i & t & _ & _ & A & B & _). destruct (Tds _ _ E') as (_ & sp' & i' & t' & _ & _ & A' & B' & _).
  assert (R : td_hit_rva h' = td_hit_rva h) by (rewrite B, B'; unfold rva_of; by rewrite <-A, <-A', V). rewrite R, E in E'. by injection E'.
Qed.

Lemma add_table_spec h col v l r :
  tds !! r = Some h -> r = td_hit_rva h -> slot_of h col v -> Forall class_ok l -> NoDup (td_va <$> l) ->
  let l' := add_table h col v l in
  Forall class_ok l' /\ NoDup (td_va <$> l') /\ (forall x, x ∈ td_va <$> l' -> x ∈ td_va <$> l \/ x = td_hit_va h) /\
  (forall x, (exists c, c ∈ l /\ x ∈ vftables c) \/ x = v -> exists c, c ∈ l' /\ x ∈ vftables c).
Proof using Bytes Cols Sok Tds.
  intros E -> Sl F N. induction F as [|c l Hc F IH]; cbn.
  - split_and!; [|apply NoDup_singleton|set_solver|].
    + apply Forall_singleton. exists h. cbn. by repeat constructor.
    + intros x [(c & Hc & _)| ->]; [by apply not_elem_of_nil in Hc|]. eexists. split; [left|]. cbn. left.
  - cbn in N. apply NoDup_cons in N as [Nc N]. destruct (Z.eqb_spec (td_va c) (td_hit_va h)) as [Ev|Ev].
    + destruct Hc as (h' & E' & V & Nm & F2). assert (h' = h) as -> by (eapply td_by_va; [exact E|done|congruence]).
      split_and!; [|cbn; by constructor|cbn; set_solver|].
      * constructor; [|done]. exists h. cbn. split_and!; [done|done|done|]. apply Forall2_app; [done|]. by repeat constructor.
      * intros x [(c' & [->|Hc']%elem_of_cons & Hx)| ->].
        -- eexists. split; [left|]. cbn. set_solver.
        -- exists c'. split; [by right|done].
        -- eexists. split; [left|]. cbn. set_solver.
    + destruct (IH N) as (I1 & I2 & I3 & I4). split_and!.
      * by constructor.
      * cbn. constructor; [|done]. intros [H|H]%I3; [by apply Nc|]. congruence.
      * cbn. intros x [->|Hx]%elem_of_cons; [set_solver|]. apply I3 in Hx as [?|?]; [left; by right|by right].
      * intros x H. assert (D : x ∈ vftables c \/ (exists c', c' ∈ l /\ x ∈ vftables c') \/ x = v).
        { destruct H as [(c' & [->|Hc']%elem_of_cons & Hx)|H]; [by left|right; left; eauto|right; by right]. }
        destruct D as [Hx|(c' & Hc' & Hx)%I4]; [exists c; split; [left|done]|exists c'; split; [by right|done]].
Qed.

Lemma vft_body_spec past sp i l :
  sp ∈ spans -> 0 <= i -> i mod 8 = 0 -> i + 8 <= span_size sp -> vft_inv past l -> vft_found l sp i ->
  returns (vft_body pe file tds cols sp i l) (fun r => r.2 = i /\ vft_inv past r.1 /\ vft_found r.1 sp (i + 8)).
Proof using Sok Bytes Tds Cols.
  intros Hsp H0 M H1 (F & N & Fd) Fi. pose proof (span_in sp Hsp) as S. unfold vft_body.
  destruct (load_le_in 8 file (file_off sp + i) Bytes) as (ptr & Ep & _); [destruct S; lia|destruct S; lia|]. rewrite Ep. cbn.
  assert (Cases : forall l', vft_inv past l' -> vft_found l' sp i ->
    (forall r, is_slot sp i r -> is_Some (cols !! r) -> exists c, c ∈ l' /\ u64 (va sp + i + 8) ∈ vftables c) ->
    returns (Done (l', i)) (fun r => r.2 = i /\ vft_inv past r.1 /\ vft_found r.1 sp (i + 8))).
  { intros l' I' F' H. apply returns_done. cbn. split; [done|]. split; [done|]. intros j r Hs Hc L. pose proof Hs as (_ & Mj & _).
    destruct (step_mod j (i + 8) 8) as [?|Ej]; [lia|done|by rewrite Z.add_mod, M by lia|lia|apply (F' j r); [done|done|lia]|].
    assert (j = i) as -> by lia. by apply (H r). }
  destruct (_ || _) eqn:C.
  - apply Cases; [done|done|]. intros r (_ & _ & _ & p & E' & L1 & L2 & _). assert (p = ptr) as -> by congruence.
    apply orb_true_iff in C as [C|C]; lia.
  - apply orb_false_iff in C as [C1 C2]. apply Z.ltb_ge in C1, C2. destruct (cols !! u32 (ptr - image_base pe)) as [k|] eqn:Ek.
    + destruct (Cols _ _ Ek) as ([h Eh] & _). rewrite Eh. cbn [default].
      destruct (Tds _ _ Eh) as (Er & _).
      assert (Sl : slot_of h (col_hit_va k) (u64 (va sp + i + 8))).
      { exists sp, i, (u32 (ptr - image_base pe)), k. split_and!; [done| |done|done|done|done]. split_and!; [done|done|done|]. exists ptr. by split_and!. }
      destruct (add_table_spec h _ _ l _ Eh Er Sl F N) as (A1 & A2 & _ & A4). apply Cases.
      * split; [done|]. split; [done|]. intros sp' n Hp j r Hs Hc L. apply A4. left. by apply (Fd sp' n Hp j r).
      * intros j r Hs Hc L. apply A4. left. by apply (Fi j r).
      * intros r _ _. apply A4. by right.
    + apply Cases; [done|done|]. intros r (_ & _ & _ & p & E' & _ & _ & ->) [k Hk]. assert (p = ptr) as -> by congruence. congruence.
Qed.

Lemma vft_span_spec past sp l : sp ∈ spans -> vft_inv past l -> returns (vft_span pe file tds cols l sp) (vft_inv (past ++ [sp])).
Proof using Sok Bytes Tds Cols.
  intros Hsp I. unfold vft_span. pose proof (so_size sp (span_in sp Hsp)).
  assert (G : forall c, vft_inv past c -> (forall n, vft_found c sp n) -> vft_inv (past ++ [sp]) c).
  { intros c (A & A' & B) F. split; [done|]. split; [done|]. intros sp' n [Hp|Hp]%elem_of_app; [by apply B|]. apply list_elem_of_singleton in Hp as ->. apply F. }
  destruct (Z.ltb_spec (span_size sp) 8).
  - apply returns_done, G; [done|]. intros n j r (? & _ & ? & _). lia.
  - eapply returns_weaken.
    + apply (for_loop_spec (fun i c => 0 <= i /\ i mod 8 = 0 /\ vft_inv past c /\ vft_found c sp i)); [lia|lia| | |unfold fuel_of; lia|unfold fuel_of; lia].
      * intros i c (L & M & Ic & Fc) Li. eapply returns_weaken; [by apply (vft_body_spec past)|]. cbn. intros r (-> & I' & F').
        split_and!; [lia|lia|by rewrite Z.add_mod, M by lia|done|done].
      * split_and!; [lia|done|done|]. intros j r (? & _) _ ?. lia.
    + cbn. intros c (i & Li & _ & _ & Ic & Fc). apply G; [done|]. intros n j r Hs Hc _. apply (Fc j r Hs Hc). destruct Hs as (_ & _ & ? & _). lia.
Qed.
End Tables.
End Cols.
End Spec.

(** ** The theorems *)

(** A table at [v] whose slot before points to the locator at [col], which names the
    descriptor at the address [td] of the image. *)
Definition table_of (pe : pe_image_t) (file : list Z) (td col v : Z) : Prop :=
  exists sp j sp' k, sp ∈ data_spans pe file /\ sp' ∈ data_spans pe file /\ is_slot pe file sp j (rva_of pe sp' k) /\
    is_col pe file sp' k td /\ v = u64 (va sp + j + 8) /\ col = u64 (va sp' + k).

(** C37: the scan of an accepted image reads only inside the file and returns; there is
    one class per type descriptor, with the demangled name behind it, and its tables
    are tables of that descriptor, each with its locator; and no table is missed whose
    locator names a descriptor with a zero byte before its name. *)
Theorem rtti_scan_exact pe file sort :
  bytes_ok file -> Forall section_ok (sections pe) -> (forall l, sort l ≡ₚ l) -> ok pe = true -> image_base pe <> 0 ->
  returns (rtti_scan pe file sort) (fun res =>
    NoDup (td_va <$> classes res) /\
    (forall c, c ∈ classes res -> exists sp i t, sp ∈ data_spans pe file /\ is_td file sp i t /\ td_va c = u64 (va sp + (i - 16)) /\
       name c = demangle_msvc_name t /\ Forall2 (table_of pe file (rva_of pe sp (i - 16))) (col_vas c) (vftables c)) /\
    (forall sp i t sp' k sp'' j, sp ∈ data_spans pe file -> is_td file sp i t -> after_zero file sp i ->
       sp' ∈ data_spans pe file -> is_col pe file sp' k (rva_of pe sp (i - 16)) ->
       sp'' ∈ data_spans pe file -> is_slot pe file sp'' j (rva_of pe sp' k) ->
       exists c, c ∈ classes res /\ u64 (va sp'' + j + 8) ∈ vftables c)).
Proof.
  intros Hb Hs Hp Hok Hbase. pose proof (data_spans_ok pe file Hs) as So. unfold rtti_scan. rewrite Hok.
  destruct (Z.eqb_spec (image_base pe) 0) as [|_]; [done|]. cbn [negb orb].
  eapply returns_bind; [apply (over_spec _ (td_inv pe file (data_spans pe file)) _ [])|].
  { intros past sp acc Hsp I. by apply td_span_spec. }
  { split; [done|]. by intros sp n Hsp%not_elem_of_nil. }
  intros tds [Ts Tf]. eapply returns_bind; [apply (over_spec _ (col_inv pe file (data_spans pe file) tds) _ [])|].
  { intros past sp acc Hsp I. by apply col_span_spec. }
  { split; [done|]. by intros sp n Hsp%not_elem_of_nil. }
  intros cols [Cs Cf]. eapply returns_bind; [apply (over_spec _ (vft_inv pe file (data_spans pe file) tds cols) _ [])|].
  { intros past sp acc Hsp I. by apply vft_span_spec. }
  { split; [constructor|]. split; [constructor|]. by intros sp n Hsp%not_elem_of_nil. }
  intros l (Lf & Ln & Lc). apply returns_done. cbn [classes]. split; [by rewrite Hp|]. split.
  - intros c Hc. rewrite Hp in Hc. destruct (proj1 (Forall_forall _ _) Lf c Hc) as (h & Eh & V & N & F).
    destruct (Ts _ _ Eh) as (_ & sp & i & t & Hsp & T & A & B & C). exists sp, i, t. split_and!; [done|done|congruence|congruence|].
    eapply Forall2_impl; [exact F|]. intros col v (sp' & j & r & k & Hsp' & Hsl & -> & Ek & -> & Et).
    destruct (Cs _ _ Ek) as (_ & s2 & i2 & H2 & Hc2 & V2 & ->). rewrite <-B, <-Et. exists sp', j, s2, i2. by split_and!.
  - intros sp i t sp' k sp'' j H1 T Z0 H2 C H3 Sl.
    destruct (Lc sp'' (j + 1) H3 j _ Sl) as (c & Hc & Hv); [|lia|exists c; by rewrite Hp].
    apply (Cf sp' (k + 1) H2 k _ C); [|lia]. by apply (Tf sp (i + 1) H1 i t T Z0); lia.
Qed.

(** A section with a descriptor, its locator and a table of one slot. *)
Definition le_bytes_of (n : nat) (v : Z) : list Z := (fun k => v / 256 ^ k mod 256) <$> seqZ 0 (Z.of_nat n).

Definition sample_file : list Z :=
  replicate 16 0 ++ bs ".?AVA@@" ++ [0] ++
  replicate 12 0 ++ le_bytes_of 4 4096 ++ replicate 4 0 ++ le_bytes_of 4 4120 ++
  le_bytes_of 8 (5368709120 + 4120) ++ le_bytes_of 8 (5368709120 + 4096).

Definition sample_image : pe_image_t :=
  mk_image true true 34404 3 5368709120 4096 8192 [mk_section (replicate 34 0) 4096 64 0 64 1073741888] [] [] [] [].

Lemma rtti_scan_exact_witness :
  returns (rtti_scan sample_image sample_file (fun l => l)) (fun res =>
    classes res = [mk_class (bs "A") 5368713216 [5368713240] [5368713272]] /\ NoDup (td_va <$> classes res)).
Proof.
  destruct (rtti_scan_exact sample_image sample_file (fun l => l)) as (res & E & N & _).
  - apply (bool_decide_unpack _). by vm_compute.
  - apply Forall_singleton. split; [done|]. unfold is_word. cbn. lia.
  - done.
  - done.
  - done.
  - exists res. split; [exact E|]. split; [|exact N].
    assert (E' : rtti_scan sample_image sample_file (fun l => l) = Done (mk_result [mk_class (bs "A") 5368713216 [5368713240] [5368713272]] 64))
      by (vm_compute; reflexivity).
    rewrite E' in E. injection E as <-. reflexivity.
Defined.

(** ** [read_vftable] *)

Lemma slots_from_spec pe file n off :
  bytes_ok file -> 0 <= off -> off + 8 * Z.of_nat n <= zlen file ->
  returns (slots_from pe file n off) (fun l => (length l <= n)%nat /\ forall k p, l !! k = Some p ->
    load_le 8 file (off + 8 * Z.of_nat k) = Done p /\ p <> 0 /\ image_base pe <= p < u64 (image_base pe + size_of_image pe)).
Proof.
  intros Hb. revert off. induction n as [|n IH]; intros off H0 H1; cbn [slots_from]; [apply returns_done; by split|].
  destruct (load_le_in 8 file off Hb ltac:(lia) ltac:(lia)) as (p & Ep & _). rewrite Ep. cbn [mbind outcome_bind].
  destruct (Z.eqb_spec p 0); [apply returns_done; split; [cbn; lia|done]|].
  destruct (_ || _) eqn:C; [apply returns_done; split; [cbn; lia|done]|]. apply orb_false_iff in C as [C1%Z.ltb_ge C2%Z.leb_gt].
  eapply returns_bind; [apply (IH (off + 8)); lia|]. intros l [L H]. apply returns_done. split; [cbn; lia|]. intros [|k] q Hq.
  - injection Hq as <-. by rewrite Z.add_0_r.
  - cbn in Hq. destruct (H k q Hq) as (A & B). split; [|done]. rewrite <-A. f_equal. lia.
Qed.

(** Reading a table of at most 2^32 slots stays inside the file: it gives the
    nonzero pointers into the image from the table's address on, up to the first other
    one. *)
Lemma read_vftable_safe pe file v n :
  bytes_ok file -> Forall section_ok (sections pe) -> 0 <= n < 2 ^ 32 ->
  returns (read_vftable pe file v n) (fun r => forall l, r = Some l -> exists off, va_to_offset pe v = Some off /\ zlen l <= n /\
    forall k p, l !! k = Some p -> load_le 8 file (off + 8 * Z.of_nat k) = Done p /\ p <> 0 /\
      image_base pe <= p < u64 (image_base pe + size_of_image pe)).
Proof.
  intros Hb Hs Hn. unfold read_vftable. destruct (va_to_offset pe v) as [off|] eqn:Eo; [|by apply returns_done].
  assert (B : 0 <= off < 2 ^ 34).
  { unfold va_to_offset in Eo. destruct (negb _); [done|]. destruct (_ || _); [done|]. unfold rva_to_offset, rva_to_offset_in in Eo.
    pose proof (wrap_range 32 (v - image_base pe) ltac:(lia)) as W. set (r := u32 (v - image_base pe)) in *. unfold is_word in W. clearbody r.
    destruct (section_offset (sections pe) r) as [o|] eqn:So; [|destruct (Z.ltb_spec r 1024); [injection Eo as <-; lia|done]].
    injection Eo as <-. clear -So Hs W. induction Hs as [|s ss Hs _ IH]; cbn in So; [done|]. destruct (negb (contains_rva s r)) eqn:C; [by apply IH|].
    apply negb_false_iff in C. unfold contains_rva in C. apply andb_true_iff in C as [C _]. apply Z.leb_le in C.
    destruct (Z.leb_spec (raw_size s) (r - rva s)); [done|]. injection So as <-. destruct Hs as (_ & Hr & _ & Ho & _). unfold is_word in *. lia. }
  rewrite (wrap_small 64 (n * 8)) by (split; lia). rewrite wrap_small by (split; lia).
  destruct (Z.ltb_spec (zlen file) (off + n * 8)); [by apply returns_done|].
  eapply returns_bind; [apply (slots_from_spec pe file (Z.to_nat n) off Hb); lia|]. intros l [L H']. apply returns_done.
  intros l' [= <-]. exists off. split; [done|]. split; [unfold zlen; lia|exact H'].
Qed.

Lemma read_vftable_safe_witness :
  read_vftable sample_image sample_file 5368713272 1 = Done (Some [5368713216]) /\
  returns (read_vftable sample_image sample_file 5368713272 1) (fun r => forall l, r = Some l -> zlen l <= 1).
Proof.
  split; [vm_compute; reflexivity|].
  destruct (read_vftable_safe sample_image sample_file 5368713272 1) as (r & E & H).
  - apply (bool_decide_unpack _). by vm_compute.
  - apply Forall_singleton. split; [done|]. unfold is_word. cbn. lia.
  - lia.
  - exists r. split; [exact E|]. intros l El. by destruct (H l El) as (off & _ & L & _).
Defined.

(** With 2^61 slots the length of the table wraps to 0: a table that runs to the end of
    the file is read past it. *)
Lemma vftable_length_wraps : slots_from sample_image sample_file 2 56 = Crash /\ u64 (56 + u64 (2 ^ 61 * 8)) <= zlen sample_file.
Proof. by vm_compute. Qed.

(** A nested name keeps single colons in the order of the mangling. *)
Lemma demangle_single_colon : demangle_msvc_name (bs ".?AVns@Inner@@") = bs "ns:Inner".
Proof. by vm_compute. Qed.

(** A pointer 4 GB above a locator counts as a pointer to it. *)
Lemma far_pointer_hits :
  u32 (5368709120 + 4120 + 2 ^ 32 - image_base sample_image) = u32 (5368709120 + 4120 - image_base sample_image).
Proof. by vm_compute. Qed.
