(* ===== verification/TypeCatalog.v ===== *)
(** * The type catalog: src/core/re/type_catalog.cpp

    The tokenizer and the mini C declaration parser, the struct layout, the locked
    catalog with its JSON persistence, and field reads.  The mutex is a flag of the
    state: locking it while the same thread holds it is undefined for [std::mutex]
    and is [Crash]; so is signed overflow of the enumerator counter, and running
    out of fuel.  A [json] value is what nlohmann holds; its text form, the store
    directory and the file system are parameters. *)

From S2P Require Import Prelude.
From S2P Require Values.
From Stdlib Require Import SpecFloat.

#[local] Open Scope Z_scope.

Record field_t := mk_field {
  f_name : list Z; f_type : list Z; f_offset : Z; f_size : Z; array_count : Z
}.
Record struct_def_t := mk_struct {
  s_name : list Z; s_size : Z; packed : bool; fields : list field_t
}.
Record enum_def_t := mk_enum {
  e_name : list Z; underlying : list Z; e_values : list (list Z * Z)
}.

(** ** Tokens *)

Definition ident_start (c : Z) : bool := isalpha c || (c =? ch "_").
Definition ident_char (c : Z) : bool := isalpha c || isdigit c || (c =? ch "_").
Definition number_char (c : Z) : bool := isxdigit c || (c =? ch "x") || (c =? ch "X").

Fixpoint skip_ws (t : list Z) : list Z :=
  match t with c :: t' => if isspace c then skip_ws t' else t | [] => [] end.

(** [tokenizer_t::next]: the token (empty at the end) and the text after it. *)
Definition next (t : list Z) : list Z * list Z :=
  match skip_ws t with
  | [] => ([], [])
  | c :: t' =>
      if ident_start c then let '(a, r) := span ident_char t' in (c :: a, r)
      else if isdigit c ||
              (((c =? ch "-") || (c =? ch "+")) && match t' with d :: _ => isdigit d | [] => false end)
      then let '(a, r) := span number_char t' in (c :: a, r)
      else ([c], t')
  end.

Definition peek (t : list Z) : list Z := (next t).1.

Definition teq (a : list Z) (s : list Z) : bool := bool_decide (a = s).

(** ** Sizes and layout *)

Definition ends_star (t : list Z) : bool :=
  match last t with Some c => c =? ch "*" | None => false end.

Definition one_of (t : list Z) (ss : list (list Z)) : bool := bool_decide (t ∈ ss).

Definition base_type_size (t : list Z) : Z :=
  if ends_star t then 8
  else if one_of t [bs "u8"; bs "i8"; bs "int8"; bs "uint8"; bs "char"; bs "bool"] then 1
  else if one_of t [bs "u16"; bs "i16"; bs "int16"; bs "uint16"; bs "wchar_t"] then 2
  else if one_of t [bs "u32"; bs "i32"; bs "int32"; bs "uint32"; bs "float"] then 4
  else if one_of t [bs "u64"; bs "i64"; bs "int64"; bs "uint64"; bs "double"; bs "__int64"] then 8
  else 0.

(** A type name without its trailing star, and whether it had one. *)
Definition strip_star (t : list Z) : list Z * bool :=
  if ends_star t then (take (length t - 1) t, true) else (t, false).

(** [(off + a - 1) / a * a] in 64 bits. *)
Definition round_up (off a : Z) : Z := u64 (u64 (off + a - 1) / a * a).

Definition align_for (pk : bool) (sz : Z) : Z := if pk then 1 else Z.min sz 8.

(** The loop both layouts share: placed fields, end offset, largest alignment. *)
Fixpoint layout_fields (size_of : list Z -> outcome Z) (pk : bool) (fs : list field_t) (off ma : Z)
  : outcome (list field_t * Z * Z) :=
  match fs with
  | [] => Done ([], off, ma)
  | f :: fs' =>
      sz0 ← size_of (f_type f);
      let sz := if array_count f =? 0 then sz0 else u64 (sz0 * array_count f) in
      if sz =? 0 then
        r ← layout_fields size_of pk fs' off ma;
        Done (mk_field (f_name f) (f_type f) off (f_size f) (array_count f) :: r.1.1, r.1.2, r.2)
      else
        let a := align_for pk sz in
        let o := round_up off a in
        r ← layout_fields size_of pk fs' (u64 (o + sz)) (Z.max ma a);
        Done (mk_field (f_name f) (f_type f) o sz (array_count f) :: r.1.1, r.1.2, r.2)
  end.

Definition layout_with (size_of : list Z -> outcome Z) (def : struct_def_t) : outcome struct_def_t :=
  r ← layout_fields size_of (packed def) (fields def) 0 1;
  Done (mk_struct (s_name def) (if packed def then r.1.2 else round_up r.1.2 r.2) (packed def) r.1.1).

(** [layout_batch]: sizes of the structs declared earlier in the same text. *)
Definition batch_size_of (sizes : gmap (list Z) Z) (t : list Z) : outcome Z :=
  let sz := base_type_size t in
  if sz =? 0 then
    let '(nm, ptr) := strip_star t in
    let sz := default 0 (sizes !! nm) in
    Done (if (sz =? 0) && ptr then 8 else sz)
  else Done sz.

Definition layout_batch (sizes : gmap (list Z) Z) (def : struct_def_t)
  : outcome (struct_def_t * gmap (list Z) Z) :=
  d ← layout_with (batch_size_of sizes) def;
  Done (d, <[s_name d := s_size d]> sizes).

(** ** The parser: [inl] is the error text *)

(** [std::stoull(.., nullptr, 0)] as an [int64_t]; [std::stoul] with its 32-bit [unsigned long]. *)
Definition stoull (t : list Z) : option Z :=
  match Values.strtoull t with Some (v, _) => Some (signed_of 64 v) | None => None end.
Definition stoul (t : list Z) : option Z :=
  match Values.strto_int t with
  | Some (neg, v, _) => if v <? 2 ^ 32 then Some (u32 (if neg : bool then - v else v)) else None
  | None => None
  end.

(** [next_val++]. *)
Definition incr (v : Z) : outcome Z := if v =? 2 ^ 63 - 1 then Crash else Done (v + 1).

Fixpoint enum_values (fuel : nat) (t : list Z) (next_val : Z) (acc : list (list Z * Z))
  : outcome (list Z + list (list Z * Z) * list Z) :=
  match fuel with
  | O => Crash
  | S fuel' =>
      let '(vn, t) := next t in
      if teq vn [] then Done (inl (bs "enum: unexpected end"))
      else if teq vn (bs "}") then Done (inr (acc, t))
      else if teq vn (bs ",") then enum_values fuel' t next_val acc
      else
        let '(eq, t) := next t in
        if teq eq (bs "=") then
          let '(num, t) := next t in
          match stoull num with
          | None => Done (inl (bs "enum: bad value"))
          | Some v => v' ← incr v; enum_values fuel' t v' (acc ++ [(vn, v)])
          end
        else if negb (teq eq (bs ",")) && negb (teq eq (bs "}"))
        then Done (inl (bs "enum: expected '=' after '" ++ vn ++ bs "'"))
        else
          v' ← incr next_val;
          if teq eq (bs "}") then Done (inr (acc ++ [(vn, next_val)], t))
          else enum_values fuel' t v' (acc ++ [(vn, next_val)])
  end.

Definition parse_enum (fuel : nat) (nm : list Z) (t : list Z) : outcome (list Z + enum_def_t * list Z) :=
  let '(und, t) := if teq (peek t) (bs ":") then next (next t).2 else (bs "u32", t) in
  let '(brace, t) := next t in
  if negb (teq brace (bs "{")) then Done (inl (bs "enum: expected '{'"))
  else
    r ← enum_values fuel t 0 [];
    match r with
    | inl err => Done (inl err)
    | inr (vs, t) => Done (inr (mk_enum nm und vs, t))
    end.

(** The stars after a type name. *)
Fixpoint stars (fuel : nat) (ftype t : list Z) : outcome (list Z * list Z) :=
  match fuel with
  | O => Crash
  | S fuel' => if teq (peek t) (bs "*") then stars fuel' (ftype ++ bs "*") (next t).2 else Done (ftype, t)
  end.

Fixpoint members (fuel : nat) (t : list Z) (acc : list field_t) : outcome (list Z + list field_t * list Z) :=
  match fuel with
  | O => Crash
  | S fuel' =>
      let '(ftype, t) := next t in
      if teq ftype (bs "}") || teq ftype [] then Done (inr (acc, t))
      else if teq ftype (bs ";") then members fuel' t acc
      else
        st ← stars fuel ftype t;
        let '(ftype, t) := st in
        let '(fname, t) := next t in
        if teq fname [] then Done (inl (bs "struct: missing member name"))
        else
          let '(post, t) := next t in
          let count :=
            if teq post (bs "[") then
              let '(num, t) := next t in
              match stoul num with
              | None => inl (bs "struct: bad array count")
              | Some n =>
                  let '(close, t) := next t in
                  if negb (teq close (bs "]")) then inl (bs "struct: expected ']'")
                  else let '(post, t) := next t in inr (n, post, t)
              end
            else inr (0, post, t) in
          match count with
          | inl err => Done (inl err)
          | inr (n, post, t) =>
              if negb (teq post (bs ";")) && negb (teq post (bs "}"))
              then Done (inl (bs "struct: expected ';' after member"))
              else
                let acc := acc ++ [mk_field fname ftype 0 0 n] in
                if teq post (bs "}") then Done (inr (acc, t)) else members fuel' t acc
          end
  end.

Definition parse_struct (fuel : nat) (nm : list Z) (sizes : gmap (list Z) Z) (t : list Z)
  : outcome (list Z + struct_def_t * gmap (list Z) Z * list Z) :=
  let '(pk, t) := if teq (peek t) (bs "packed") then (true, (next t).2) else (false, t) in
  let '(brace, t) := next t in
  if negb (teq brace (bs "{")) then Done (inl (bs "struct: expected '{'"))
  else
    r ← members fuel t [];
    match r with
    | inl err => Done (inl err)
    | inr (fs, t) =>
        let '(pk, t) :=
          if teq (peek t) (bs "packed") then
            let t := (next t).2 in
            (true, if teq (peek t) (bs ";") then (next t).2 else t)
          else (pk, t) in
        d ← layout_batch sizes (mk_struct nm 0 pk fs);
        Done (inr (d.1, d.2, t))
    end.

Record decl_parse_result_t := mk_decls {
  d_structs : list struct_def_t; d_enums : list enum_def_t; d_error : list Z
}.

Fixpoint decls (fuel : nat) (t : list Z) (sizes : gmap (list Z) Z)
  (ss : list struct_def_t) (es : list enum_def_t) : outcome decl_parse_result_t :=
  let fail err := Done (mk_decls ss es err) in
  match fuel with
  | O => Crash
  | S fuel' =>
      let '(kw, t) := next t in
      if teq kw [] then fail []
      else if teq kw (bs ";") then decls fuel' t sizes ss es
      else if negb (teq kw (bs "struct")) && negb (teq kw (bs "enum"))
      then fail (bs "expected 'struct' or 'enum', got '" ++ kw ++ bs "'")
      else
        let '(nm, t) := next t in
        if teq nm [] || teq nm (bs "{") then fail (bs "missing type name")
        else if teq kw (bs "enum") then
          r ← parse_enum fuel nm t;
          match r with
          | inl err => fail err
          | inr (e, t) => decls fuel' t sizes ss (es ++ [e])
          end
        else
          r ← parse_struct fuel nm sizes t;
          match r with
          | inl err => fail err
          | inr (s, sizes, t) => decls fuel' t sizes (ss ++ [s]) es
          end
  end.

(** Every token takes a character, so one more round than characters is enough. *)
Definition parse_decls (text : list Z) : outcome decl_parse_result_t :=
  decls (S (length text)) text ∅ [] [].

(** ** The catalog *)

Record catalog_t := mk_catalog {
  mu : bool;  (** the mutex, held or free *)
  structs : gmap (list Z) struct_def_t;
  enums : gmap (list Z) enum_def_t;
  bound_hash : Z
}.

(** [std::lock_guard lk(g_cat.mu)] around [f]. *)
Definition with_lock {A} (c : catalog_t) (f : catalog_t -> outcome (A * catalog_t)) : outcome (A * catalog_t) :=
  if mu c then Crash
  else
    r ← f (mk_catalog true (structs c) (enums c) (bound_hash c));
    Done (r.1, mk_catalog false (structs r.2) (enums r.2) (bound_hash r.2)).

Definition get_struct (c : catalog_t) (n : list Z) : outcome (option struct_def_t) :=
  r ← with_lock c (fun c => Done (structs c !! n, c)); Done r.1.

Definition get_enum (c : catalog_t) (n : list Z) : outcome (option enum_def_t) :=
  r ← with_lock c (fun c => Done (enums c !! n, c)); Done r.1.

(** The size of a member type in [layout_struct]. *)
Definition type_size (c : catalog_t) (t : list Z) : outcome Z :=
  let sz := base_type_size t in
  if sz =? 0 then
    let '(nm, ptr) := strip_star t in
    inner ← get_struct c nm;
    sz ← match inner with
         | Some s => Done (s_size s)
         | None =>
             en ← get_enum c nm;
             Done (match en with Some e => base_type_size (underlying e) | None => if ptr then 8 else 0 end)
         end;
    Done (if ptr then 8 else sz)
  else Done sz.

Definition layout_struct (c : catalog_t) (def : struct_def_t) : outcome struct_def_t :=
  layout_with (type_size c) def.

(** [std::map] iterates by key. *)
Definition key_le {A} (p q : list Z * A) : Prop := lex_leb p.1 q.1 = true.
#[export] Instance key_le_dec {A} : RelDecision (@key_le A) := fun p q => bool_eq_dec (lex_leb p.1 q.1) true.
Definition items {A} (m : gmap (list Z) A) : list (list Z * A) := merge_sort key_le (map_to_list m).

Definition matches (filter n : list Z) : bool := bool_decide (filter = []) || contains filter n.

Definition list_structs (c : catalog_t) (filter : list Z) : outcome (list struct_def_t) :=
  r ← with_lock c (fun c => Done (snd <$> List.filter (fun p => matches filter p.1) (items (structs c)), c));
  Done r.1.

Definition list_enums (c : catalog_t) (filter : list Z) : outcome (list enum_def_t) :=
  r ← with_lock c (fun c => Done (snd <$> List.filter (fun p => matches filter p.1) (items (enums c)), c));
  Done r.1.

(** *** JSON *)

#[local] Set Warnings "-register-all".

Inductive json :=
| JNum (n : Z) | JBool (b : bool) | JStr (s : list Z)
| JArr (l : list json) | JObj (m : list (list Z * json))
| JFloat (n : Z)  (** a floating-point number, by its truncation to an integer *)
| JNull.

Fixpoint find_key (k : list Z) (m : list (list Z * json)) : option json :=
  match m with [] => None | (k', v) :: m' => if decide (k' = k) then Some v else find_key k m' end.

Definition field_json (f : field_t) : json :=
  JObj [(bs "array_count", JNum (array_count f)); (bs "name", JStr (f_name f)); (bs "offset", JNum (f_offset f));
        (bs "size", JNum (f_size f)); (bs "type", JStr (f_type f))].

Definition struct_json (s : struct_def_t) : json :=
  JObj [(bs "fields", JArr (field_json <$> fields s)); (bs "packed", JBool (packed s)); (bs "size", JNum (s_size s))].

Definition enum_json (e : enum_def_t) : json :=
  JObj [(bs "underlying", JStr (underlying e));
        (bs "values", JArr ((fun p => JObj [(bs "name", JStr p.1); (bs "value", JNum p.2)]) <$> e_values e))].

Definition to_json (c : catalog_t) : json :=
  JObj [(bs "enums", JObj ((fun p => (p.1, enum_json p.2)) <$> items (enums c)));
        (bs "structs", JObj ((fun p => (p.1, struct_json p.2)) <$> items (structs c)))].

(** [j.value(key, default)]: an exception ([None]) unless [j] is an object and the
    value there converts.  A 32-bit target also takes a boolean. *)
Definition value_num (wrap_to : Z -> Z) (j : json) (k : list Z) (dflt : Z) : option Z :=
  match j with
  | JObj m =>
      match find_key k m with
      | None => Some dflt
      | Some (JNum n) | Some (JFloat n) => Some (wrap_to n)
      | Some _ => None
      end
  | _ => None
  end.
Definition value_u32 (j : json) (k : list Z) (dflt : Z) : option Z :=
  match j with
  | JObj m =>
      match find_key k m with
      | Some (JBool b) => Some (if b then 1 else 0)
      | _ => value_num u32 j k dflt
      end
  | _ => None
  end.
Definition value_bool (j : json) (k : list Z) (dflt : bool) : option bool :=
  match j with
  | JObj m => match find_key k m with None => Some dflt | Some (JBool b) => Some b | Some _ => None end
  | _ => None
  end.
Definition value_str (j : json) (k : list Z) (dflt : list Z) : option (list Z) :=
  match j with
  | JObj m => match find_key k m with None => Some dflt | Some (JStr s) => Some s | Some _ => None end
  | _ => None
  end.

(** [j.contains(key)], then iterating [j[key]] as an array or as an object. *)
Definition key_of (j : json) (k : list Z) : option json := match j with JObj m => find_key k m | _ => None end.
Definition elements (j : option json) : list json :=
  match j with
  | None | Some JNull => []
  | Some (JArr l) => l
  | Some (JObj m) => snd <$> m
  | Some x => [x]
  end.
Definition entries (j : option json) : option (list (list Z * json)) :=
  match j with
  | None | Some JNull | Some (JArr []) => Some []
  | Some (JObj m) => Some m
  | Some _ => None  (** [it.key()] throws *)
  end.

Definition field_of_json (j : json) : option field_t :=
  n ← value_str j (bs "name") [];
  t ← value_str j (bs "type") [];
  o ← value_num u64 j (bs "offset") 0;
  s ← value_num u64 j (bs "size") 0;
  a ← value_u32 j (bs "array_count") 0;
  Some (mk_field n t o s a).

Definition struct_of_json (k : list Z) (j : json) : option struct_def_t :=
  s ← value_num u64 j (bs "size") 0;
  p ← value_bool j (bs "packed") false;
  fs ← mapM field_of_json (elements (key_of j (bs "fields")));
  Some (mk_struct k s p fs).

Definition enum_of_json (k : list Z) (j : json) : option enum_def_t :=
  u ← value_str j (bs "underlying") (bs "u32");
  vs ← mapM (fun v => n ← value_str v (bs "name") []; x ← value_num (signed_of 64) v (bs "value") 0; Some (n, x))
         (elements (key_of j (bs "values")));
  Some (mk_enum k u vs).

(** [c.structs[s.name] = s] for each entry: a later entry of a key replaces an earlier one. *)
Definition table_of {A} (f : list Z -> json -> option A) (es : list (list Z * json)) : option (gmap (list Z) A) :=
  vs ← mapM (fun p => a ← f p.1 p.2; Some (p.1, a)) es;
  Some (foldl (fun m p => <[p.1 := p.2]> m) ∅ vs).

(** The two tables, or an exception. *)
Definition from_json (j : json) : option (gmap (list Z) struct_def_t * gmap (list Z) enum_def_t) :=
  ses ← entries (key_of j (bs "structs"));
  ss ← table_of struct_of_json ses;
  ees ← entries (key_of j (bs "enums"));
  es ← table_of enum_of_json ees;
  Some (ss, es).

(** *** Persistence *)

(** [%016llX]. *)
Definition hex16 (n : Z) : list Z := (fun i => hex_digit (Z.land (Z.shiftr n (4 * i)) 15)) <$> rev (seqZ 0 16).

(** The files, and the [LOCALAPPDATA] directory if it is set and fits. *)
Record world_t := mk_world { local_app_data : option (list Z); files : gmap (list Z) (list Z) }.

Definition store_dir (w : world_t) : list Z :=
  match local_app_data w with Some base => base ++ bs "\reverse-slop\types" | None => [] end.

Definition store_path (w : world_t) (h : Z) : list Z :=
  let dir := store_dir w in
  if bool_decide (dir = []) then [] else dir ++ bs "\" ++ hex16 h ++ bs ".json".

(** [h ^= b; h *= prime] over the bytes. *)
Definition fnv (bytes : list Z) : Z :=
  foldl (fun h b => u64 (Z.lxor h b * 1099511628211)) 1469598103934665603 bytes.

Section Store.
(** [json::dump(2)] and [operator>>] ([None]: an exception), and whether a path
    can be opened for writing. *)
Variable dump : json -> list Z.
Variable parse : list Z -> option json.
Variable writable : list Z -> bool.

Definition save_locked (c : catalog_t) (w : world_t) : bool * world_t :=
  if bound_hash c =? 0 then (false, w)
  else
    let path := store_path w (bound_hash c) in
    if bool_decide (path = []) || negb (writable path) then (false, w)
    else (true, mk_world (local_app_data w) (<[path := dump (to_json c)]> (files w))).

Definition load_locked (c : catalog_t) (w : world_t) : catalog_t :=
  if bound_hash c =? 0 then c
  else
    let path := store_path w (bound_hash c) in
    match files w !! path with
    | Some text =>
        if bool_decide (path = []) then c
        else match parse text ≫= from_json with
             | Some (ss, es) => mk_catalog (mu c) ss es (bound_hash c)
             | None => mk_catalog (mu c) ∅ ∅ (bound_hash c)
             end
    | None => c
    end.

Definition bind_binary (bytes : list Z) (c : catalog_t) (w : world_t) : outcome catalog_t :=
  r ← with_lock c (fun c => Done (tt, load_locked (mk_catalog (mu c) ∅ ∅ (fnv bytes)) w));
  Done r.2.

(** [Some err] is [false] with the error text. *)
Definition saved (r : bool * world_t) : option (list Z) * world_t :=
  (if r.1 then None else Some (bs "persist failed"), r.2).

Definition create_struct (def : struct_def_t) (c : catalog_t) (w : world_t)
  : outcome (option (list Z) * world_t * catalog_t) :=
  if bool_decide (s_name def = []) then Done (Some (bs "missing name"), w, c)
  else
    def ← layout_struct c def;
    with_lock c (fun c =>
      let c := mk_catalog (mu c) (<[s_name def := def]> (structs c)) (enums c) (bound_hash c) in
      Done (saved (save_locked c w), c)).

Definition add_member (n : list Z) (f : field_t) (c : catalog_t) (w : world_t)
  : outcome (option (list Z) * world_t * catalog_t) :=
  with_lock c (fun c =>
    match structs c !! n with
    | None => Done (Some (bs "unknown struct"), w, c)
    | Some s =>
        let s := mk_struct (s_name s) (s_size s) (packed s) (fields s ++ [f]) in
        s ← layout_struct (mk_catalog (mu c) (<[n := s]> (structs c)) (enums c) (bound_hash c)) s;
        let c := mk_catalog (mu c) (<[n := s]> (structs c)) (enums c) (bound_hash c) in
        Done (saved (save_locked c w), c)
    end).

Definition remove_struct (n : list Z) (c : catalog_t) (w : world_t) : outcome (bool * world_t * catalog_t) :=
  with_lock c (fun c =>
    match structs c !! n with
    | None => Done (false, w, c)
    | Some _ =>
        let c := mk_catalog (mu c) (delete n (structs c)) (enums c) (bound_hash c) in
        Done (true, (save_locked c w).2, c)
    end).

Definition create_enum (def : enum_def_t) (c : catalog_t) (w : world_t)
  : outcome (option (list Z) * world_t * catalog_t) :=
  if bool_decide (e_name def = []) || bool_decide (e_values def = [])
  then Done (Some (bs "missing name/values"), w, c)
  else
    with_lock c (fun c =>
      let c := mk_catalog (mu c) (structs c) (<[e_name def := def]> (enums c)) (bound_hash c) in
      Done (saved (save_locked c w), c)).

Definition remove_enum (n : list Z) (c : catalog_t) (w : world_t) : outcome (bool * world_t * catalog_t) :=
  with_lock c (fun c =>
    match enums c !! n with
    | None => Done (false, w, c)
    | Some _ =>
        let c := mk_catalog (mu c) (structs c) (delete n (enums c)) (bound_hash c) in
        Done (true, (save_locked c w).2, c)
    end).
End Store.

(** ** Field reads *)

Record field_value_t := mk_value {
  v_ok : bool; v_error : list Z; hex : list Z; uint_val : Z; int_val : Z; dbl_val : spec_float
}.

Definition value0 (err : list Z) : field_value_t := mk_value false err [] 0 0 (S754_zero false).

(** [d[b >> 4]], [d[b & 15]] with lower-case digits. *)
Definition hex_lower (n : Z) : Z := if n <? 10 then 48 + n else 87 + n.
Definition hex_pair (b : Z) : list Z := [hex_lower (Z.shiftr b 4); hex_lower (Z.land b 15)].

Definition find_field (n : list Z) (fs : list field_t) : option field_t :=
  head (List.filter (fun f => bool_decide (f_name f = n)) fs).

Definition field_len (f : field_t) : Z :=
  Z.min (if f_size f =? 0 then base_type_size (f_type f) else f_size f) 64.

(** The integers and the floating-point value of the first bytes. *)
Definition decode (f : field_t) (buf : list Z) : Z * Z * spec_float :=
  let len := field_len f in
  let v n := load_bits n buf in
  if 8 <=? len then
    (v 8%nat, signed_of 64 (v 8%nat),
     if teq (f_type f) (bs "double") then Values.decode_float Values.w_f64 (v 8%nat) else S754_zero false)
  else if 4 <=? len then
    (v 4%nat, signed_of 32 (v 4%nat),
     if teq (f_type f) (bs "float") then Values.to_double (Values.decode_float Values.w_f32 (v 4%nat)) else S754_zero false)
  else if 2 <=? len then (v 2%nat, signed_of 16 (v 2%nat), S754_zero false)
  else if 1 <=? len then (v 1%nat, signed_of 8 (v 1%nat), S754_zero false)
  else (0, 0, S754_zero false).

(** [file] is the image when there is one; [reader] the live memory callback,
    which fills the buffer or fails. *)
Definition read_field (s : struct_def_t) (n : list Z) (base_va : Z)
  (file : option (list Z)) (reader : option (Z -> Z -> option (list Z))) : field_value_t :=
  match find_field n (fields s) with
  | None => value0 (bs "unknown field '" ++ n ++ bs "'")
  | Some f =>
      let rel_off := u64 (base_va + f_offset f) in
      let len := field_len f in
      let from_file :=
        match file with
        | Some bytes =>
            if rel_off <? zlen bytes then
              let got := take (Z.to_nat (Z.min len (zlen bytes - rel_off))) (drop (Z.to_nat rel_off) bytes) in
              Some (got ++ replicate (64 - length got) 0)
            else None
        | None => None
        end in
      let got := match from_file, reader with
                 | Some b, _ => Some b
                 | None, Some r => (fun b => b ++ replicate (64 - length b) 0) <$> r rel_off len
                 | None, None => None
                 end in
      match got with
      | None => value0 (bs "read failed at requested range")
      | Some buf =>
          let '(u, i, d) := decode f buf in
          mk_value true [] (flat_map hex_pair (take (Z.to_nat len) buf)) u i d
      end
  end.

(** ** The layout *)

(** The bytes a member takes when a value of its type takes [sz] bytes. *)
Definition full (sz : list Z -> Z) (f : field_t) : Z :=
  if array_count f =? 0 then sz (f_type f) else sz (f_type f) * array_count f.

Definition sum_of (g : field_t -> Z) (fs : list field_t) : Z := foldr (fun f a => g f + a) 0 fs.

Definition end_of (sz : list Z -> Z) (f : field_t) : Z := f_offset f + full sz f.

(** Only offset and size of a member are computed. *)
Definition same_member (sz : list Z -> Z) (f f' : field_t) : Prop :=
  f_name f' = f_name f /\ f_type f' = f_type f /\ array_count f' = array_count f /\
  (full sz f <> 0 -> f_size f' = full sz f).

Definition aligned (sz : list Z -> Z) (pk : bool) (a : Z) (f : field_t) : Prop :=
  full sz f <> 0 -> f_offset f mod align_for pk (full sz f) = 0 /\ align_for pk (full sz f) <= a.

(** What a layout promises: members in order without overlap, each at a multiple of
    its alignment and inside the struct; the size a multiple of the largest
    alignment, at most seven bytes of padding per member and at the end, and
    none in a packed struct. *)
Definition layout_ok (sz : list Z -> Z) (d d' : struct_def_t) : Prop :=
  s_name d' = s_name d /\ packed d' = packed d /\
  Forall2 (same_member sz) (fields d) (fields d') /\
  StronglySorted (fun a b => end_of sz a <= f_offset b) (fields d') /\
  Forall (fun f => 0 <= f_offset f /\ end_of sz f <= s_size d') (fields d') /\
  (exists a, 1 <= a <= 8 /\ s_size d' mod a = 0 /\ Forall (aligned sz (packed d) a) (fields d')) /\
  sum_of (full sz) (fields d) <= s_size d' <= sum_of (fun f => full sz f + 7) (fields d) + 7 /\
  (packed d = true -> s_size d' = sum_of (full sz) (fields d)).

Lemma sum_of_cons g f fs : sum_of g (f :: fs) = g f + sum_of g fs.
Proof. done. Qed.

Lemma round_up_spec off a :
  0 <= off -> 1 <= a <= 8 -> off + 8 < 2 ^ 64 ->
  off <= round_up off a < off + a /\ round_up off a mod a = 0.
Proof.
  intros Ho Ha Hb. unfold round_up.
  rewrite (wrap_small 64 (off + a - 1)) by (unfold is_word; lia).
  pose proof (Z.div_mod (off + a - 1) a ltac:(lia)). pose proof (Z.mod_pos_bound (off + a - 1) a ltac:(lia)).
  rewrite wrap_small by (unfold is_word; nia). split; [nia | by rewrite Z.mod_mul by lia].
Qed.

Lemma align_for_range pk s : 0 < s -> 1 <= align_for pk s <= 8.
Proof. unfold align_for. destruct pk; lia. Qed.

Section Layout.
Variables (sz : list Z -> Z) (pk : bool).
Hypothesis Hsz : forall t, 0 <= sz t.

Definition counts_ok (fs : list field_t) : Prop := Forall (fun f => 0 <= array_count f) fs.

Lemma full_nonneg f : 0 <= array_count f -> 0 <= full sz f.
Proof using Hsz. intros Hc. unfold full. pose proof (Hsz (f_type f)). destruct (_ =? 0); nia. Qed.

Lemma sum_of_nonneg fs : counts_ok fs -> 0 <= sum_of (full sz) fs.
Proof using Hsz. induction 1 as [|f fs Hf Hfs IH]; rewrite ?sum_of_cons; [done |]. pose proof (full_nonneg f Hf). lia. Qed.

Lemma sum_of_7_8 fs : sum_of (fun f => full sz f + 7) fs <= sum_of (fun f => full sz f + 8) fs.
Proof using. induction fs as [|f fs IH]; rewrite ?sum_of_cons; [done | lia]. Qed.

Definition placed (fs fs' : list field_t) (off off' ma ma' : Z) : Prop :=
  Forall2 (same_member sz) fs fs' /\
  StronglySorted (fun a b => end_of sz a <= f_offset b) fs' /\
  Forall (fun f => off <= f_offset f /\ end_of sz f <= off') fs' /\
  Forall (aligned sz pk ma') fs' /\ ma <= ma' <= 8 /\
  off + sum_of (full sz) fs <= off' <= off + sum_of (fun f => full sz f + 7) fs /\
  (pk = true -> off' = off + sum_of (full sz) fs /\ ma' = ma).

Lemma layout_fields_placed fs off ma :
  counts_ok fs -> 0 <= off -> 1 <= ma <= 8 -> off + sum_of (fun f => full sz f + 8) fs + 8 < 2 ^ 64 ->
  (pk = true -> ma = 1) ->
  exists fs' off' ma', layout_fields (fun t => Done (sz t)) pk fs off ma = Done (fs', off', ma') /\
    placed fs fs' off off' ma ma'.
Proof using Hsz.
  intros Hc. revert off ma. induction Hc as [|f fs Hf Hfs IH]; intros off ma Ho Hma Hb Hpk.
  { exists [], off, ma. split; [done |]. unfold placed; cbn. split_and!; first [lia | by constructor | intros; lia]. }
  pose proof (full_nonneg f Hf) as Hfull. rewrite sum_of_cons in Hb. pose proof (sum_of_nonneg fs Hfs) as Hsn.
  pose proof (sum_of_7_8 fs).
  assert (Hrest : 0 <= sum_of (fun f => full sz f + 8) fs).
  { clear -Hfs Hsz. induction Hfs as [|g gs Hg Hgs IHg]; rewrite ?sum_of_cons; [done |]. pose proof (full_nonneg g Hg). lia. }
  cbn [layout_fields mbind outcome_bind].
  assert (Hw : (if array_count f =? 0 then sz (f_type f) else u64 (sz (f_type f) * array_count f)) = full sz f).
  { unfold full in *. destruct (Z.eqb_spec (array_count f) 0); [done |]. apply wrap_small. unfold is_word. lia. }
  rewrite Hw. destruct (Z.eqb_spec (full sz f) 0) as [E0|E0].
  - destruct (IH off ma) as (fs' & off' & ma' & -> & Hp); try done; [lia |].
    cbn [mbind outcome_bind fst snd]. eexists _, _, _. split; [reflexivity |].
    destruct Hp as (H1 & H2 & H3 & H4 & H5 & H6 & H7).
    assert (Hz : forall o s, full sz (mk_field (f_name f) (f_type f) o s (array_count f)) = full sz f) by done.
    unfold placed. rewrite !sum_of_cons. split_and!.
    + constructor; [|exact H1]. unfold same_member; cbn. split_and!; done.
    + constructor; [exact H2 |]. eapply Forall_impl; [exact H3 |]. intros g [Hg _]. unfold end_of. rewrite Hz. cbn. lia.
    + constructor; [unfold end_of; rewrite Hz; cbn; lia | exact H3].
    + constructor; [|exact H4]. intros Hne. by rewrite Hz in Hne.
    + lia.
    + lia.
    + lia.
    + lia.
    + intros Ep. destruct (H7 Ep) as [-> ->]. lia.
  - pose proof (align_for_range pk (full sz f) ltac:(lia)) as Ha.
    destruct (round_up_spec off (align_for pk (full sz f)) Ho Ha ltac:(lia)) as [Hr Hm].
    set (o := round_up off (align_for pk (full sz f))) in *.
    rewrite wrap_small by (unfold is_word; lia).
    destruct (IH (o + full sz f) (Z.max ma (align_for pk (full sz f)))) as (fs' & off' & ma' & -> & Hp);
      [lia | lia | lia | intros ->; rewrite (Hpk eq_refl); reflexivity |].
    cbn [mbind outcome_bind fst snd]. eexists _, _, _. split; [reflexivity |].
    destruct Hp as (H1 & H2 & H3 & H4 & H5 & H6 & H7).
    assert (Hz : forall o s, full sz (mk_field (f_name f) (f_type f) o s (array_count f)) = full sz f) by done.
    unfold placed. rewrite !sum_of_cons. split_and!.
    + constructor; [|exact H1]. unfold same_member; cbn. split_and!; done.
    + constructor; [exact H2 |]. eapply Forall_impl; [exact H3 |]. intros g [Hg _]. unfold end_of. rewrite Hz. cbn. lia.
    + constructor; [unfold end_of; rewrite Hz; cbn; lia |].
      eapply Forall_impl; [exact H3 |]. intros g [Hg1 Hg2]. lia.
    + constructor; [|exact H4]. intros _. rewrite Hz. cbn [f_offset]. split; [exact Hm | lia].
    + lia.
    + lia.
    + lia.
    + lia.
    + intros Ep. destruct (H7 Ep) as [-> ->]. rewrite Ep in *. unfold align_for in *.
      split; [lia |]. by rewrite (Hpk eq_refl).
Qed.

Lemma layout_with_ok d :
  packed d = pk -> counts_ok (fields d) -> sum_of (fun f => full sz f + 8) (fields d) + 16 < 2 ^ 64 ->
  exists d', layout_with (fun t => Done (sz t)) d = Done d' /\ layout_ok sz d d'.
Proof using Hsz.
  intros Ep Hc Hb. unfold layout_with. rewrite Ep.
  destruct (layout_fields_placed (fields d) 0 1 Hc) as (fs' & off' & ma' & -> & Hp); [lia | lia | lia | done |].
  cbn [mbind outcome_bind fst snd]. eexists. split; [reflexivity |].
  destruct Hp as (H1 & H2 & H3 & H4 & H5 & H6 & H7). unfold layout_ok. cbn [s_name packed fields s_size].
  pose proof (sum_of_7_8 (fields d)).
  pose proof (sum_of_nonneg (fields d) Hc).
  destruct (round_up_spec off' ma') as [Hr Hm]; [lia | lia | lia |].
  set (s := if pk then off' else round_up off' ma').
  assert (Hs : off' <= s <= off' + 7) by (unfold s; destruct pk; lia).
  split_and!; try done.
  - eapply Forall_impl; [exact H3 |]. intros f [? ?]. lia.
  - exists ma'. rewrite Ep. split; [lia |]. split; [|exact H4]. unfold s. destruct pk; [|exact Hm].
    destruct (H7 eq_refl) as [_ ->]. apply Z.mod_1_r.
  - lia.
  - lia.
  - rewrite Ep. unfold s. intros Hpk. rewrite Hpk in *. destruct (H7 eq_refl). lia.
Qed.
End Layout.

(** The size [layout_struct] finds for a member type. *)
Definition member_size (c : catalog_t) (t : list Z) : Z :=
  let sz := base_type_size t in
  if sz =? 0 then
    let '(nm, ptr) := strip_star t in
    if ptr : bool then 8
    else match structs c !! nm with
         | Some s => s_size s
         | None => match enums c !! nm with Some e => base_type_size (underlying e) | None => 0 end
         end
  else sz.

Definition sizes_ok (c : catalog_t) : Prop := forall n s, structs c !! n = Some s -> 0 <= s_size s.

Lemma base_type_size_cases t : base_type_size t = 0 \/ 1 <= base_type_size t <= 8.
Proof. unfold base_type_size. repeat case_match; lia. Qed.

Lemma type_size_free c t : mu c = false -> type_size c t = Done (member_size c t).
Proof.
  intros Hm. unfold type_size, member_size, get_struct, get_enum, with_lock. rewrite Hm.
  cbn [structs enums mbind outcome_bind fst snd].
  destruct (_ =? 0); [|done]. destruct (strip_star t) as [nm ptr].
  destruct (structs c !! nm); cbn [mbind outcome_bind]; [by destruct ptr |].
  destruct (enums c !! nm); cbn [mbind outcome_bind]; by destruct ptr.
Qed.

Lemma type_size_held c t : mu c = true -> base_type_size t = 0 -> type_size c t = Crash.
Proof.
  intros Hm Hb. unfold type_size, get_struct, with_lock. rewrite Hb, Hm. cbn. by destruct (strip_star t).
Qed.

Lemma member_size_nonneg c t : sizes_ok c -> 0 <= member_size c t.
Proof.
  intros Hs. unfold member_size. destruct (base_type_size_cases t) as [->|]; [|destruct (Z.eqb_spec (base_type_size t) 0); lia].
  cbn. destruct (strip_star t) as [nm []]; [lia |].
  destruct (structs c !! nm) eqn:E; [by eapply Hs |].
  destruct (enums c !! nm) as [e|]; [|lia]. destruct (base_type_size_cases (underlying e)); lia.
Qed.

Lemma layout_fields_ext f g pk fs off ma :
  (forall t, f t = g t) -> layout_fields f pk fs off ma = layout_fields g pk fs off ma.
Proof.
  intros E. revert off ma. induction fs as [|x fs IH]; intros off ma; [done |]. cbn [layout_fields].
  rewrite E. destruct (g (f_type x)); [|done]. cbn [mbind outcome_bind]. by rewrite !IH.
Qed.

(** C30: laying out a struct against an unlocked catalog always returns, and without
    64-bit overflow the result keeps the members, places them in order without
    overlap at multiples of their alignment inside the struct, with a size that
    is a multiple of the largest alignment and at most seven bytes of padding
    per member and at the end, and no padding when packed. *)
Theorem layout_struct_sound (c : catalog_t) (d : struct_def_t) :
  mu c = false -> sizes_ok c -> counts_ok (fields d) ->
  sum_of (fun f => full (member_size c) f + 8) (fields d) + 16 < 2 ^ 64 ->
  exists d', layout_struct c d = Done d' /\ layout_ok (member_size c) d d'.
Proof.
  intros Hm Hs Hc Hb.
  destruct (layout_with_ok (member_size c) (packed d) (fun t => member_size_nonneg c t Hs) d eq_refl Hc Hb)
    as (d' & E & Hok).
  exists d'. split; [|exact Hok]. rewrite <- E. unfold layout_struct, layout_with.
  by rewrite (layout_fields_ext _ _ _ _ _ _ (fun t => type_size_free c t Hm)).
Qed.

Definition demo_catalog : catalog_t :=
  mk_catalog false {[ bs "Vec" := mk_struct (bs "Vec") 12 false [] ]} {[ bs "Tag" := mk_enum (bs "Tag") (bs "u16") [] ]} 0.

Definition demo_struct : struct_def_t :=
  mk_struct (bs "Actor") 0 false
    [ mk_field (bs "id") (bs "u8") 0 0 0; mk_field (bs "pos") (bs "Vec") 0 0 2;
      mk_field (bs "tag") (bs "Tag") 0 0 0; mk_field (bs "next") (bs "Actor*") 0 0 0 ].

Lemma layout_struct_sound_witness :
  exists d', layout_struct demo_catalog demo_struct = Done d' /\ layout_ok (member_size demo_catalog) demo_struct d' /\
    (f_offset <$> fields d') = [0; 8; 32; 40] /\ s_size d' = 48.
Proof.
  destruct (layout_struct_sound demo_catalog demo_struct) as (d' & E & Hok).
  - reflexivity.
  - intros n s Hs. cbn in Hs. apply lookup_singleton_Some in Hs as [_ <-]. cbn. lia.
  - repeat constructor; cbn; lia.
  - vm_compute. reflexivity.
  - exists d'. split; [exact E |]. split; [exact Hok |]. vm_compute in E. injection E as <-. split; reflexivity.
Defined.

(** The alignment of an array is that of its whole extent, not of its elements. *)
Lemma array_alignment_of_extent :
  match layout_struct demo_catalog
          (mk_struct (bs "P") 0 false [mk_field (bs "a") (bs "u8") 0 0 0; mk_field (bs "b") (bs "char") 0 0 3]) with
  | Done d => (f_offset <$> fields d) = [0; 3] /\ s_size d = 6
  | Crash => False
  end.
Proof. vm_compute. done. Qed.

(** ** The catalog's lock *)

Lemma layout_fields_crash f pk fs off ma x :
  x ∈ fs -> f (f_type x) = Crash -> layout_fields f pk fs off ma = Crash.
Proof.
  intros Hx Hf. revert off ma. induction fs as [|y fs IH]; intros off ma; [by apply elem_of_nil in Hx |].
  cbn [layout_fields]. apply elem_of_cons in Hx as [<-|Hx]; [by rewrite Hf |].
  destruct (f (f_type y)) as [s|]; [|done]. cbn [mbind outcome_bind]. rewrite !(IH Hx). by destruct (_ =? 0).
Qed.

(** Adding a member to a struct that then has a member of a named type locks
    the catalog's mutex while it is held: [add_member] keeps the lock over
    [layout_struct], which looks the type up through [get_struct]. *)
Lemma add_member_relocks dump writable (n : list Z) (f : field_t) (c : catalog_t) (w : world_t) (s : struct_def_t) :
  structs c !! n = Some s -> (exists x, x ∈ fields s ++ [f] /\ base_type_size (f_type x) = 0) ->
  add_member dump writable n f c w = Crash.
Proof.
  intros Hs (x & Hx & Hb). unfold add_member, with_lock. destruct (mu c); [done |]. cbn [structs].
  rewrite Hs. unfold layout_struct, layout_with. cbn [fields packed].
  erewrite layout_fields_crash; [done | exact Hx | by apply type_size_held].
Qed.

Lemma add_member_relocks_witness :
  add_member (fun _ => []) (fun _ => true) (bs "Vec") (mk_field (bs "t") (bs "Tag") 0 0 0) demo_catalog
    (mk_world None ∅) = Crash.
Proof.
  apply (add_member_relocks (fun _ => []) (fun _ => true) (bs "Vec") (mk_field (bs "t") (bs "Tag") 0 0 0)
    demo_catalog (mk_world None ∅) (mk_struct (bs "Vec") 12 false [])).
  - reflexivity.
  - exists (mk_field (bs "t") (bs "Tag") 0 0 0). split; [apply elem_of_app; right; left | reflexivity].
Defined.

(** ** Persistence *)

Definition field_words (f : field_t) : Prop :=
  is_word 64 (f_offset f) /\ is_word 64 (f_size f) /\ is_word 32 (array_count f).
Definition struct_words (s : struct_def_t) : Prop := is_word 64 (s_size s) /\ Forall field_words (fields s).
Definition enum_words (e : enum_def_t) : Prop := Forall (fun p => - 2 ^ 63 <= p.2 < 2 ^ 63) (e_values e).

(** The invariant of the tables: each key is the name of its definition. *)
Definition catalog_ok (c : catalog_t) : Prop :=
  map_Forall (fun n s => s_name s = n /\ struct_words s) (structs c) /\
  map_Forall (fun n e => e_name e = n /\ enum_words e) (enums c).

Lemma signed_of_id v : - 2 ^ 63 <= v < 2 ^ 63 -> signed_of 64 v = v.
Proof.
  intros Hv. unfold signed_of, wrap. change (2 ^ (64 - 1)) with (2 ^ 63).
  destruct (Z.leb_spec 0 v).
  - rewrite Z.mod_small by lia. destruct (Z.ltb_spec v (2 ^ 63)); lia.
  - rewrite <- (Z_mod_plus_full v 1), Z.mod_small by lia. destruct (Z.ltb_spec (v + 1 * 2 ^ 64) (2 ^ 63)); lia.
Qed.

Lemma mapM_map {A B C} (f : B -> option C) (g : A -> B) (h : A -> C) l :
  Forall (fun x => f (g x) = Some (h x)) l -> mapM f (g <$> l) = Some (h <$> l).
Proof. induction 1 as [|x l Hx Hl IH]; cbn; [done |]. rewrite Hx. cbn. by rewrite IH. Qed.

Lemma field_json_inv f : field_words f -> field_of_json (field_json f) = Some f.
Proof.
  intros (H1 & H2 & H3).
  transitivity (Some (mk_field (f_name f) (f_type f) (u64 (f_offset f)) (u64 (f_size f)) (u32 (array_count f)))).
  - reflexivity.
  - rewrite !wrap_small by done. by destruct f.
Qed.

Lemma struct_json_inv s : struct_words s -> struct_of_json (s_name s) (struct_json s) = Some s.
Proof.
  intros [Hs Hf].
  transitivity (fs ← mapM field_of_json (field_json <$> fields s);
    Some (mk_struct (s_name s) (u64 (s_size s)) (packed s) fs)); [reflexivity |].
  rewrite (mapM_map _ _ id) by (eapply Forall_impl; [exact Hf | apply field_json_inv]).
  cbn. rewrite list_fmap_id, wrap_small by done. by destruct s.
Qed.

Lemma enum_json_inv e : enum_words e -> enum_of_json (e_name e) (enum_json e) = Some e.
Proof.
  intros He.
  transitivity (vs ← mapM (fun v => n ← value_str v (bs "name") []; x ← value_num (signed_of 64) v (bs "value") 0; Some (n, x))
      ((fun p => JObj [(bs "name", JStr p.1); (bs "value", JNum p.2)]) <$> e_values e);
    Some (mk_enum (e_name e) (underlying e) vs)); [reflexivity |].
  rewrite (mapM_map _ _ id).
  - cbn. rewrite list_fmap_id. by destruct e.
  - eapply Forall_impl; [exact He |]. intros [n v] Hv.
    transitivity (Some (n, signed_of 64 v)); [reflexivity |]. by rewrite signed_of_id.
Qed.

Lemma foldl_insert {A} (l : list (list Z * A)) (m : gmap (list Z) A) :
  NoDup l.*1 -> (forall k, k ∈ l.*1 -> m !! k = None) ->
  foldl (fun m p => <[p.1 := p.2]> m) m l = list_to_map l ∪ m.
Proof.
  revert m. induction l as [|[k v] l IH]; intros m Hnd Hm; cbn; [by rewrite (left_id_L ∅ (∪)) |].
  apply NoDup_cons in Hnd as [Hk Hnd]. rewrite IH; [|done|].
  - rewrite <- insert_union_r by (by apply not_elem_of_list_to_map_1). by rewrite insert_union_l.
  - intros k' Hk'. rewrite lookup_insert_ne; [apply Hm; by right |]. intros ->. done.
Qed.

Lemma items_perm {A} (m : gmap (list Z) A) : items m ≡ₚ map_to_list m.
Proof. apply merge_sort_Permutation. Qed.

Lemma table_of_items {A} (f : list Z -> json -> option A) (g : A -> json) (m : gmap (list Z) A) :
  map_Forall (fun k a => f k (g a) = Some a) m ->
  table_of f ((fun p => (p.1, g p.2)) <$> items m) = Some m.
Proof.
  intros H. unfold table_of. rewrite (mapM_map _ _ id).
  - cbn. f_equal. rewrite list_fmap_id.
    assert (Hnd : NoDup (items m).*1) by (rewrite (items_perm m); apply NoDup_fst_map_to_list).
    rewrite foldl_insert by (done || (intros; apply lookup_empty)).
    rewrite (right_id_L ∅ (∪)), (list_to_map_proper _ (map_to_list m)) by (done || apply items_perm).
    apply list_to_map_to_list.
  - apply Forall_forall. intros [k a] Hka. rewrite (items_perm m) in Hka. apply elem_of_map_to_list in Hka.
    cbn. rewrite (H k a Hka). done.
Qed.

Lemma to_json_inv c : catalog_ok c -> from_json (to_json c) = Some (structs c, enums c).
Proof.
  intros [Hs He].
  transitivity (ss ← table_of struct_of_json ((fun p => (p.1, struct_json p.2)) <$> items (structs c));
    es ← table_of enum_of_json ((fun p => (p.1, enum_json p.2)) <$> items (enums c)); Some (ss, es)); [reflexivity |].
  rewrite !table_of_items; [done | |].
  - intros n s Hn. destruct (Hs n s Hn) as [<- Hw]. by apply struct_json_inv.
  - intros n e Hn. destruct (He n e Hn) as [<- Hw]. by apply enum_json_inv.
Qed.

Lemma layout_fields_words f pk fs off ma fs' off' ma' :
  (forall t v, f t = Done v -> is_word 64 v) -> Forall field_words fs -> is_word 64 off ->
  layout_fields f pk fs off ma = Done (fs', off', ma') -> Forall field_words fs' /\ is_word 64 off'.
Proof.
  intros Hf Hfs. revert off ma fs' off' ma'. induction Hfs as [|x fs (H1 & H2 & H3) Hfs IH];
    intros off ma fs' off' ma' Ho; cbn [layout_fields]; [by intros [= <- <- _] |].
  destruct (f (f_type x)) as [v|] eqn:Ev; [|done]. cbn [mbind outcome_bind].
  assert (Hv : is_word 64 (if array_count x =? 0 then v else u64 (v * array_count x))).
  { destruct (array_count x =? 0); [exact (Hf _ _ Ev) | by apply (wrap_range 64)]. }
  set (sz := if array_count x =? 0 then v else _) in *. destruct (sz =? 0) eqn:E0.
  - destruct (layout_fields f pk fs off ma) as [[[fs1 o1] m1]|] eqn:E; [|done].
    intros [= <- <- _]. destruct (IH _ _ _ _ _ Ho E) as [Hf1 Ho1]. split; [|done]. by constructor.
  - destruct (layout_fields f pk fs _ _) as [[[fs1 o1] m1]|] eqn:E; [|done].
    intros [= <- <- _]. destruct (IH _ _ _ _ _ ltac:(by apply (wrap_range 64)) E) as [Hf1 Ho1]. split; [|done].
    constructor; [|done]. split; [by apply (wrap_range 64) |]. split; [exact Hv | exact H3].
Qed.

Lemma layout_struct_words c d d' :
  mu c = false -> catalog_ok c -> Forall field_words (fields d) -> layout_struct c d = Done d' ->
  struct_words d' /\ s_name d' = s_name d.
Proof.
  intros Hm [Hs _] Hf. unfold layout_struct, layout_with.
  destruct (layout_fields (type_size c) (packed d) (fields d) 0 1) as [[[fs off] ma]|] eqn:E; [|done].
  cbn [mbind outcome_bind fst snd]. intros [= <-]. split; [|done].
  eapply layout_fields_words in E as [Hfs Ho]; [|clear E|done|by vm_compute].
  - split; [|done]. cbn. destruct (packed d); [done | by apply wrap_range].
  - intros t v. rewrite type_size_free by done. intros [= <-]. unfold member_size.
    assert (Hb : forall u, is_word 64 (base_type_size u)).
    { intros u. unfold is_word. destruct (base_type_size_cases u); lia. }
    destruct (_ =? 0); [|apply Hb]. destruct (strip_star t) as [nm []]; [by vm_compute |].
    destruct (structs c !! nm) eqn:Es; [by apply (Hs nm) |]. destruct (enums c !! nm); [apply Hb | by vm_compute].
Qed.

(** C28: a struct that [create_struct] accepts is laid out, replaces any earlier one of
    its name, and is persisted: binding the same binary again loads exactly the
    tables as they are after the call, in any process state.  The invariant of
    the tables is kept. *)
Theorem create_struct_persists dump parse writable (def : struct_def_t) (bytes : list Z)
  (c c0 c' : catalog_t) (w w' : world_t) :
  parse (dump (to_json c')) = Some (to_json c') ->
  mu c = false -> mu c0 = false -> catalog_ok c -> Forall field_words (fields def) ->
  fnv bytes = bound_hash c ->
  create_struct dump writable def c w = Done (None, w', c') ->
  exists d, layout_struct c def = Done d /\ structs c' = <[s_name def := d]> (structs c) /\ enums c' = enums c /\
    mu c' = false /\ catalog_ok c' /\
    bind_binary parse bytes c0 w' = Done (mk_catalog false (structs c') (enums c') (bound_hash c)).
Proof.
  intros Hdoc Hm Hm0 Hok Hf Hh. unfold create_struct.
  destruct (bool_decide _); [intros E; discriminate E |].
  destruct (layout_struct c def) as [d|] eqn:El; [|intros E; discriminate E]. cbn [mbind outcome_bind].
  destruct (layout_struct_words c def d Hm Hok Hf El) as [Hw Hn].
  unfold with_lock. rewrite Hm. unfold save_locked, saved. cbn [mu structs enums bound_hash mbind outcome_bind fst snd].
  destruct (Z.eqb_spec (bound_hash c) 0) as [|Hb]; [intros E; discriminate E |].
  destruct (bool_decide_reflect (store_path w (bound_hash c) = [])) as [|Hp]; [intros E; discriminate E |].
  destruct (writable _); [|intros E; discriminate E]. cbn [negb orb fst snd]. intros E.
  set (t := <[s_name d := d]> (structs c)) in *.
  assert (Hok' : catalog_ok (mk_catalog true t (enums c) (bound_hash c))).
  { destruct Hok as [Hs He]. split; [|exact He]. cbn. unfold t. by apply map_Forall_insert_2. }
  assert (Ew : w' = mk_world (local_app_data w)
    (<[store_path w (bound_hash c) := dump (to_json (mk_catalog true t (enums c) (bound_hash c)))]> (files w)))
    by (injection E; congruence).
  assert (Ec : c' = mk_catalog false t (enums c) (bound_hash c)) by (injection E; congruence).
  clear E. subst w' c'. exists d. cbn [structs enums mu]. unfold t at 1. rewrite Hn. split_and!; try done.
  unfold bind_binary, with_lock, load_locked. rewrite Hm0. cbn [bound_hash mu mbind outcome_bind fst snd structs enums].
  rewrite Hh. destruct (Z.eqb_spec (bound_hash c) 0); [done |].
  change (store_path (mk_world _ _) ?h) with (store_path w h). cbn [files]. rewrite lookup_insert_eq.
  rewrite bool_decide_eq_false_2 by done.
  change (to_json (mk_catalog true t (enums c) (bound_hash c))) with (to_json (mk_catalog false t (enums c) (bound_hash c))).
  rewrite Hdoc. cbn [mbind option_bind]. by rewrite to_json_inv.
Qed.

Definition bound_catalog : catalog_t := mk_catalog false ∅ ∅ (fnv (bs "MZ")).

Definition demo_world : world_t := mk_world (Some (bs "C:")) ∅.

Definition created : option (list Z) * world_t * catalog_t :=
  match create_struct (fun _ => bs "x") (fun _ => true) demo_struct bound_catalog demo_world with
  | Done r => r
  | Crash => (Some [], demo_world, bound_catalog)
  end.

Lemma create_struct_persists_witness :
  exists w' c', create_struct (fun _ => bs "x") (fun _ => true) demo_struct bound_catalog demo_world = Done (None, w', c') /\
    (s_size <$> structs c' !! bs "Actor") = Some 16 /\
    bind_binary (fun _ => Some (to_json c')) (bs "MZ") demo_catalog w'
      = Done (mk_catalog false (structs c') (enums c') (bound_hash bound_catalog)).
Proof.
  exists created.1.2, created.2. split; [vm_compute; reflexivity |]. split; [vm_compute; reflexivity |].
  destruct (create_struct_persists (fun _ => bs "x") (fun _ => Some (to_json created.2)) (fun _ => true) demo_struct
    (bs "MZ") bound_catalog demo_catalog created.2 demo_world created.1.2) as (d & _ & _ & _ & _ & _ & E).
  - reflexivity.
  - reflexivity.
  - reflexivity.
  - split; intros n s Hs; cbn in Hs; by rewrite lookup_empty in Hs.
  - repeat constructor; cbn; lia.
  - reflexivity.
  - vm_compute. reflexivity.
  - exact E.
Defined.

(** ** The parser always returns *)

Lemma skip_ws_suffix t : skip_ws t `suffix_of` t.
Proof.
  induction t as [|c t IH]; cbn; [done |]. destruct (isspace c); [|done]. by apply suffix_cons_r.
Qed.

(** The text after a token is a suffix, and a proper one unless the token is empty. *)
Lemma next_suffix t : (next t).2 `suffix_of` t.
Proof.
  unfold next. destruct (skip_ws t) as [|c t'] eqn:E; [apply suffix_nil |].
  assert (H : t' `suffix_of` t).
  { etransitivity; [|apply skip_ws_suffix]. rewrite E. by apply suffix_cons_r. }
  destruct (ident_start c).
  { pose proof (span_suffix ident_char t'). destruct (span ident_char t') as [a r]. by etransitivity. }
  destruct (isdigit c || _); [|done].
  pose proof (span_suffix number_char t'). destruct (span number_char t') as [a r]. by etransitivity.
Qed.

Lemma next_shorter t : (next t).1 <> [] -> (length (next t).2 < length t)%nat.
Proof.
  unfold next. destruct (skip_ws t) as [|c t'] eqn:E; [done |].
  pose proof (suffix_length _ _ (skip_ws_suffix t)) as Hl. rewrite E in Hl. cbn [length] in Hl.
  pose proof (suffix_length _ _ (span_suffix ident_char t')).
  pose proof (suffix_length _ _ (span_suffix number_char t')).
  destruct (ident_start c); [destruct (span ident_char t'); cbn in *; lia |].
  destruct (isdigit c || _); [destruct (span number_char t'); cbn in *; lia | cbn; lia].
Qed.

(** A token test that rules out the end of the text. *)
Lemma teq_eq a b : teq a b = true <-> a = b.
Proof. apply bool_decide_eq_true. Qed.

Definition size_map_ok (sizes : gmap (list Z) Z) : Prop := map_Forall (fun _ v => is_word 64 v) sizes.

Definition member_ok (f : field_t) : Prop := f_name f <> [] /\ f_type f <> [] /\ field_words f.
Definition struct_parsed (s : struct_def_t) : Prop :=
  s_name s <> [] /\ struct_words s /\ Forall (fun f => f_name f <> [] /\ f_type f <> []) (fields s).
Definition enum_parsed (e : enum_def_t) : Prop := e_name e <> [] /\ enum_words e.

Lemma layout_fields_returns f pk fs off ma :
  (forall t, exists v, f t = Done v) ->
  returns (layout_fields f pk fs off ma)
    (fun r => f_name <$> r.1.1 = f_name <$> fs /\ f_type <$> r.1.1 = f_type <$> fs).
Proof.
  intros Hf. revert off ma. induction fs as [|x fs IH]; intros off ma; cbn [layout_fields]; [by apply returns_done |].
  destruct (Hf (f_type x)) as [v ->]. cbn [mbind outcome_bind].
  destruct (_ =? 0); (eapply returns_bind; [apply IH |]; intros r [H1 H2]; apply returns_done; cbn; by rewrite H1, H2).
Qed.

Lemma base_type_size_word t : is_word 64 (base_type_size t).
Proof. unfold is_word. destruct (base_type_size_cases t); lia. Qed.

Lemma batch_size_returns sizes t : size_map_ok sizes -> returns (batch_size_of sizes t) (is_word 64).
Proof.
  intros Hs. unfold batch_size_of. pose proof (base_type_size_word t).
  destruct (_ =? 0); [|by apply returns_done]. destruct (strip_star t) as [nm ptr]. apply returns_done.
  destruct (_ && _); [by vm_compute |]. destruct (sizes !! nm) eqn:E; [by apply (Hs nm) | by vm_compute].
Qed.

Lemma layout_batch_returns sizes d :
  size_map_ok sizes -> s_name d <> [] -> Forall member_ok (fields d) ->
  returns (layout_batch sizes d) (fun r => struct_parsed r.1 /\ size_map_ok r.2).
Proof.
  intros Hs Hn Hf. unfold layout_batch, layout_with.
  assert (Hsz : forall t v, batch_size_of sizes t = Done v -> is_word 64 v).
  { intros t v E. destruct (batch_size_returns sizes t Hs) as (v' & E' & Hv). rewrite E in E'. by injection E' as ->. }
  destruct (layout_fields_returns (batch_size_of sizes) (packed d) (fields d) 0 1) as ([[fs off] ma] & E & H1 & H2).
  { intros t. destruct (batch_size_returns sizes t Hs) as (v & E & _). by exists v. }
  assert (Hw : Forall field_words (fields d)) by (eapply Forall_impl; [exact Hf | by intros x (_ & _ & H)]).
  assert (H0 : is_word 64 0) by (unfold is_word; lia).
  cbn [fst snd] in H1, H2. destruct (layout_fields_words _ _ _ _ _ _ _ _ Hsz Hw H0 E) as [Hw' Ho].
  rewrite E. cbn [mbind outcome_bind fst snd]. apply returns_done. cbn [fst snd s_name s_size].
  assert (Hsize : is_word 64 (if packed d then off else round_up off ma)).
  { destruct (packed d); [done | by apply (wrap_range 64)]. }
  split.
  - split; [done |]. split; [by split |]. cbn [fields] in *.
    apply Forall_forall. intros x Hx.
    assert (Hnx : Forall (fun n => n <> []) (f_name <$> fs)).
    { rewrite H1. apply Forall_fmap. eapply Forall_impl; [exact Hf | by intros y (H & _)]. }
    assert (Htx : Forall (fun n => n <> []) (f_type <$> fs)).
    { rewrite H2. apply Forall_fmap. eapply Forall_impl; [exact Hf | by intros y (_ & H & _)]. }
    rewrite !Forall_fmap, !Forall_forall in Hnx, Htx. split; [by apply Hnx | by apply Htx].
  - by apply map_Forall_insert_2.
Qed.

Section ParserReturns.
(** Below this no enumerator value of the text comes near the signed maximum. *)
Variable text : list Z.
Hypothesis Hlits : forall t v, t `suffix_of` text -> stoull (next t).1 = Some v -> v + zlen text < 2 ^ 63 - 1.
Hypothesis Hlen : zlen text < 2 ^ 63 - 1.

Lemma stoull_low t v : stoull t = Some v -> - 2 ^ 63 <= v < 2 ^ 63.
Proof.
  unfold stoull. destruct (Values.strtoull t) as [[u r]|]; [|done]. intros E. injection E as <-.
  unfold signed_of. pose proof (wrap_range 64 u ltac:(lia)) as Hw. unfold is_word in Hw.
  change (2 ^ (64 - 1)) with (2 ^ 63). destruct (Z.ltb_spec (u64 u) (2 ^ 63)); lia.
Qed.

Lemma stoul_word t v : stoul t = Some v -> is_word 32 v.
Proof.
  unfold stoul. destruct (Values.strto_int t) as [[[neg u] r]|]; [|done]. destruct (_ <? _); [|done].
  intros E. injection E as <-. by apply (wrap_range 32).
Qed.

Lemma enum_values_returns fuel t nv acc :
  t `suffix_of` text -> (length t < fuel)%nat -> - 2 ^ 63 <= nv -> nv + zlen t < 2 ^ 63 - 1 ->
  Forall (fun p => - 2 ^ 63 <= p.2 < 2 ^ 63) acc ->
  returns (enum_values fuel t nv acc) (fun r => match r with
    | inr (vs, t') => Forall (fun p => - 2 ^ 63 <= p.2 < 2 ^ 63) vs /\ (length t' < length t)%nat /\ t' `suffix_of` text
    | inl _ => True end).
Proof using Hlits Hlen.
  revert t nv acc. induction fuel as [|fuel IH]; intros t nv acc Ht Hf Hnv Hb Hacc; [lia |]. cbn [enum_values].
  pose proof (next_suffix t) as S1. pose proof (next_shorter t) as L1. destruct (next t) as [vn t1]. cbn [fst snd] in *.
  destruct (teq vn []) eqn:E0; [by apply returns_done |].
  specialize (L1 ltac:(intros ->; discriminate E0)). assert (Ht1 : t1 `suffix_of` text) by (by etransitivity).
  destruct (teq vn (bs "}")); [by apply returns_done |].
  assert (Hweak : forall (t' : list Z) (r : list Z + list (list Z * Z) * list Z), (length t' <= length t)%nat ->
    match r with inr (vs, t2) => Forall (fun p => - 2 ^ 63 <= p.2 < 2 ^ 63) vs /\ (length t2 < length t')%nat /\ t2 `suffix_of` text | inl _ => True end ->
    match r with inr (vs, t2) => Forall (fun p => - 2 ^ 63 <= p.2 < 2 ^ 63) vs /\ (length t2 < length t)%nat /\ t2 `suffix_of` text | inl _ => True end).
  { intros t' [?|[vs t2]] Hle; [done |]. intros (? & ? & ?). split_and!; (done || lia). }
  destruct (teq vn (bs ",")).
  { eapply returns_weaken; [apply IH; unfold zlen in *; (done || lia) | intros r; apply Hweak; lia]. }
  pose proof (next_suffix t1) as S2. pose proof (suffix_length _ _ S2) as L2.
  destruct (next t1) as [eq t2]. cbn [fst snd] in *. assert (Ht2 : t2 `suffix_of` text) by (by etransitivity).
  destruct (teq eq (bs "=")).
  - pose proof (next_suffix t2) as S3. pose proof (suffix_length _ _ S3) as L3. pose proof (Hlits t2) as Hl.
    destruct (next t2) as [num t3]. cbn [fst snd] in *. assert (Ht3 : t3 `suffix_of` text) by (by etransitivity).
    destruct (stoull num) as [v|] eqn:Ev; [|by apply returns_done].
    specialize (Hl v Ht2 eq_refl). pose proof (stoull_low _ _ Ev).
    pose proof (suffix_length _ _ Ht). unfold incr, zlen in *.
    destruct (Z.eqb_spec v (2 ^ 63 - 1)); [lia |]. cbn [mbind outcome_bind].
    eapply returns_weaken; [apply IH; unfold zlen; try (done || lia) | intros r; apply Hweak; lia].
    apply Forall_app. split; [done |]. constructor; [done | constructor].
  - destruct (_ && _); [by apply returns_done |]. unfold incr, zlen in *.
    destruct (Z.eqb_spec nv (2 ^ 63 - 1)); [lia |]. cbn [mbind outcome_bind].
    assert (Hacc' : Forall (fun p => - 2 ^ 63 <= p.2 < 2 ^ 63) (acc ++ [(vn, nv)])).
    { apply Forall_app. split; [done |]. constructor; [cbn; lia | constructor]. }
    destruct (teq eq (bs "}")); [apply returns_done; split_and!; (done || lia) |].
    eapply returns_weaken; [apply IH; unfold zlen; (done || lia) | intros r; apply Hweak; lia].
Qed.

Lemma parse_enum_returns fuel nm t :
  t `suffix_of` text -> (length t < fuel)%nat -> nm <> [] ->
  returns (parse_enum fuel nm t) (fun r => match r with
    | inr (e, t') => enum_parsed e /\ (length t' <= length t)%nat /\ t' `suffix_of` text
    | inl _ => True end).
Proof using Hlits Hlen.
  intros Ht Hf Hn. unfold parse_enum.
  assert (Hu : exists und t1, (if teq (peek t) (bs ":") then next (next t).2 else (bs "u32", t)) = (und, t1) /\
    t1 `suffix_of` t).
  { destruct (teq (peek t) (bs ":")); [|by eexists _, _].
    eexists _, _. split; [apply surjective_pairing |]. etransitivity; apply next_suffix. }
  destruct Hu as (und & t1 & -> & S1). pose proof (next_suffix t1) as S2.
  destruct (next t1) as [brace t2]. cbn [snd] in S2. destruct (negb _); [by apply returns_done |].
  assert (S3 : t2 `suffix_of` t) by (by etransitivity). pose proof (suffix_length _ _ S3).
  assert (S4 : t2 `suffix_of` text) by (by etransitivity). pose proof (suffix_length _ _ S4).
  eapply returns_bind; [apply enum_values_returns; unfold zlen in *; (done || lia) |].
  intros [err|[vs t']]; intros Hr; apply returns_done; [done |]. destruct Hr as (? & ? & ?).
  split_and!; (done || lia).
Qed.

Lemma stars_returns fuel ty t :
  (length t < fuel)%nat -> ty <> [] ->
  returns (stars fuel ty t) (fun r => r.1 <> [] /\ r.2 `suffix_of` t).
Proof using.
  revert ty t. induction fuel as [|fuel IH]; intros ty t Hf Hty; [lia |]. cbn [stars].
  destruct (teq (peek t) (bs "*")) eqn:E; [|by apply returns_done].
  apply teq_eq in E. pose proof (next_shorter t) as L. unfold peek in E. rewrite E in L. specialize (L ltac:(done)).
  eapply returns_weaken; [apply IH; [lia | by destruct ty] |]. intros r [H1 H2]. split; [done |].
  etransitivity; [exact H2 | apply next_suffix].
Qed.

Lemma members_returns fuel t acc :
  (length t < fuel)%nat -> Forall member_ok acc ->
  returns (members fuel t acc) (fun r => match r with
    | inr (fs, t') => Forall member_ok fs /\ t' `suffix_of` t | inl _ => True end).
Proof using.
  revert t acc. induction fuel as [|fuel IH]; intros t acc Hf Hacc; [lia |]. cbn [members].
  pose proof (next_suffix t) as S1. pose proof (next_shorter t) as L1. destruct (next t) as [ty t1]. cbn [fst snd] in *.
  destruct (teq ty (bs "}")); [by apply returns_done |]. cbn [orb].
  destruct (teq ty []) eqn:E0; [by apply returns_done |].
  assert (Hty : ty <> []) by (intros ->; discriminate E0). specialize (L1 Hty).
  assert (Hweak : forall (t' : list Z) (r : list Z + list field_t * list Z), t' `suffix_of` t ->
    match r with inr (fs, t2) => Forall member_ok fs /\ t2 `suffix_of` t' | inl _ => True end ->
    match r with inr (fs, t2) => Forall member_ok fs /\ t2 `suffix_of` t | inl _ => True end).
  { intros t' [?|[fs t2]] Hle; [done |]. intros (? & ?). split; [done |]. by etransitivity. }
  destruct (teq ty (bs ";")).
  { eapply returns_weaken; [apply IH; (done || lia) | intros r; by apply Hweak]. }
  eapply returns_bind; [apply stars_returns; (done || lia) |]. intros [ty' t2] [Hty' S2]. cbn [fst snd] in *.
  pose proof (next_suffix t2) as S3. destruct (next t2) as [fname t3]. cbn [fst snd] in *.
  destruct (teq fname []) eqn:E1; [by apply returns_done |].
  assert (Hname : fname <> []) by (intros ->; discriminate E1).
  pose proof (next_suffix t3) as S4. destruct (next t3) as [post t4]. cbn [fst snd] in *.
  assert (Hs4 : t4 `suffix_of` t1) by (etransitivity; [|exact S2]; by etransitivity).
  set (count := if teq post (bs "[") then _ else _).
  assert (Hc : match count with inr (n, _, t5) => is_word 32 n /\ t5 `suffix_of` t1 | inl _ => True end).
  { unfold count. destruct (teq post (bs "[")); [|split; [unfold is_word; lia | done]].
    pose proof (next_suffix t4) as S5. destruct (next t4) as [num t5]. cbn [snd] in *.
    destruct (stoul num) as [n|] eqn:En; [|done]. pose proof (next_suffix t5) as S6.
    destruct (next t5) as [cl t6]. cbn [snd] in *. destruct (negb _); [done |].
    pose proof (next_suffix t6) as S7. destruct (next t6) as [post' t7]. cbn [snd] in *.
    split; [by eapply stoul_word |]. do 3 (etransitivity; [eassumption |]). done. }
  destruct count as [err|[[n post'] t5]]; [by apply returns_done |]. destruct Hc as [Hn Hs5].
  destruct (_ && _); [by apply returns_done |].
  assert (Hacc' : Forall member_ok (acc ++ [mk_field fname ty' 0 0 n])).
  { apply Forall_app. split; [done |]. constructor; [|constructor]. unfold member_ok, field_words, is_word in *; cbn.
    split_and!; (done || lia). }
  assert (t5 `suffix_of` t) by (by etransitivity). pose proof (suffix_length _ _ Hs5).
  destruct (teq post' (bs "}")); [by apply returns_done |].
  eapply returns_weaken; [apply IH; (done || lia) | intros r; by apply Hweak].
Qed.

Lemma parse_struct_returns fuel nm sizes t :
  (length t < fuel)%nat -> nm <> [] -> size_map_ok sizes ->
  returns (parse_struct fuel nm sizes t) (fun r => match r with
    | inr (s, sizes', t') => struct_parsed s /\ size_map_ok sizes' /\ t' `suffix_of` t | inl _ => True end).
Proof using.
  intros Hf Hn Hs. unfold parse_struct.
  assert (Hp : exists pk t1, (if teq (peek t) (bs "packed") then (true, (next t).2) else (false, t)) = (pk, t1) /\
    t1 `suffix_of` t).
  { destruct (teq (peek t) _); eexists _, _; (split; [reflexivity |]); [apply next_suffix | done]. }
  destruct Hp as (pk & t1 & -> & S1). pose proof (next_suffix t1) as S2.
  destruct (next t1) as [brace t2]. cbn [snd] in S2. destruct (negb _); [by apply returns_done |].
  assert (S3 : t2 `suffix_of` t) by (by etransitivity). pose proof (suffix_length _ _ S3).
  eapply returns_bind; [apply members_returns; [lia | constructor] |].
  intros [err|[fs t3]]; [by intros _; apply returns_done |]. intros [Hfs S4].
  assert (Hq : exists pk' t4, (if teq (peek t3) (bs "packed") then
    (true, if teq (peek (next t3).2) (bs ";") then (next (next t3).2).2 else (next t3).2) else (pk, t3)) = (pk', t4) /\
    t4 `suffix_of` t3).
  { destruct (teq (peek t3) _); eexists _, _; (split; [reflexivity |]); [|done].
    destruct (teq _ _); [etransitivity; apply next_suffix | apply next_suffix]. }
  destruct Hq as (pk' & t4 & E & S5). cbv zeta. rewrite E.
  eapply returns_bind; [by apply (layout_batch_returns sizes (mk_struct nm 0 pk' fs)) |].
  intros r [Hr1 Hr2]. apply returns_done. split; [done |]. split; [done |]. by repeat (etransitivity; [eassumption |]).
Qed.

Definition decls_ok (r : decl_parse_result_t) : Prop :=
  Forall struct_parsed (d_structs r) /\ Forall enum_parsed (d_enums r).

Lemma decls_returns fuel t sizes ss es :
  t `suffix_of` text -> (length t < fuel)%nat -> size_map_ok sizes ->
  Forall struct_parsed ss -> Forall enum_parsed es -> returns (decls fuel t sizes ss es) decls_ok.
Proof using Hlits Hlen.
  revert t sizes ss es. induction fuel as [|fuel IH]; intros t sizes ss es Ht Hf Hs Hss Hes; [lia |].
  cbn [decls]. assert (Hfail : forall err, returns (Done (mk_decls ss es err)) decls_ok) by (intros; by apply returns_done).
  pose proof (next_suffix t) as S1. pose proof (next_shorter t) as L1. destruct (next t) as [kw t1]. cbn [fst snd] in *.
  destruct (teq kw []) eqn:E0; [apply Hfail |]. specialize (L1 ltac:(intros ->; discriminate E0)).
  assert (Ht1 : t1 `suffix_of` text) by (by etransitivity).
  destruct (teq kw (bs ";")); [apply IH; (done || lia) |].
  destruct (_ && _); [apply Hfail |].
  pose proof (next_suffix t1) as S2. pose proof (suffix_length _ _ S2). destruct (next t1) as [nm t2]. cbn [snd] in *.
  assert (Ht2 : t2 `suffix_of` text) by (by etransitivity).
  destruct (teq nm []) eqn:E1; [apply Hfail |]. cbn [orb]. destruct (teq nm (bs "{")); [apply Hfail |].
  assert (Hn : nm <> []) by (intros ->; discriminate E1).
  destruct (teq kw (bs "enum")).
  - eapply returns_bind; [apply parse_enum_returns; (done || lia) |]. intros [err|[e t3]]; [intros _; apply Hfail |].
    intros (He & ? & ?). apply IH; try (done || lia). apply Forall_app_2; [done | by apply Forall_singleton].
  - eapply returns_bind; [apply parse_struct_returns; (done || lia) |].
    intros [err|[[s sizes'] t3]]; [intros _; apply Hfail |]. intros (Hst & Hs' & S3).
    pose proof (suffix_length _ _ S3). apply IH; try (done || lia); [by etransitivity |].
    apply Forall_app_2; [done | by apply Forall_singleton].
Qed.
End ParserReturns.

(** C29: parsing any text returns, with a complete description in each struct and
    enum it yields: non-empty names, machine-width offsets, sizes and counts and
    64-bit enumerators, as the catalog stores them.  The one exception is an
    enumerator so close to the signed maximum that the next value would overflow. *)
Theorem parse_decls_returns (text : list Z) :
  zlen text < 2 ^ 63 - 1 ->
  (forall t v, t `suffix_of` text -> stoull (next t).1 = Some v -> v + zlen text < 2 ^ 63 - 1) ->
  exists r, parse_decls text = Done r /\ decls_ok r.
Proof.
  intros Hlen Hlits. apply (decls_returns text Hlits Hlen); first [done | lia | apply map_Forall_empty].
Qed.

Lemma parse_decls_returns_witness :
  exists r, parse_decls (bs "enum E { A = 7, B }") = Done r /\ decls_ok r /\ e_values <$> d_enums r = [[(bs "A", 7); (bs "B", 8)]].
Proof.
  destruct (parse_decls_returns (bs "enum E { A = 7, B }")) as (r & E & Hr).
  - vm_compute. reflexivity.
  - intros t v (p & Ep) Hv.
    assert (Hall : forallb (fun n => match stoull (next (drop n (bs "enum E { A = 7, B }"))).1 with
      | Some v => v + 19 <? 2 ^ 63 - 1 | None => true end) (seq 0 20) = true) by (vm_compute; reflexivity).
    rewrite forallb_forall in Hall. specialize (Hall (length p)).
    rewrite Ep, drop_app_length, Hv in Hall. apply Z.ltb_lt, Hall, in_seq.
    apply (f_equal length) in Ep. rewrite length_app in Ep.
    change (length (bs "enum E { A = 7, B }")) with 19%nat in Ep. lia.
  - exists r. split; [exact E |]. split; [exact Hr |]. vm_compute in E. injection E as <-. reflexivity.
Defined.

(** The counter after an enumerator of [INT64_MAX] overflows although the value is never used. *)
Lemma enumerator_overflow : parse_decls (bs "enum E { A = 9223372036854775807 };") = Crash.
Proof. vm_compute. reflexivity. Qed.
