(* ===== verification/Traffic.v ===== *)
(** * The traffic store: src/core/network/traffic_store.cpp

    The bounded packet ring, the per-conversation stream index, paging, the display
    filter and the pcap writer.  The mutex guards whole operations that never
    nest, so each operation is one function on the state.  Wall-clock times are
    as the caller gives them; [size_t] counters do not wrap. *)

From S2P Require Import Prelude.

#[local] Open Scope Z_scope.

Record packet_record_t := mk_packet {
  p_id : Z; at_ms : Z; pid : Z; protocol : Z; direction : Z;
  local_addr : list Z; local_port : Z; remote_addr : list Z; remote_port : Z; payload : list Z
}.

Record stream_summary_t := mk_summary {
  sum_id : Z; sum_key : list Z; sum_client_addr : list Z; sum_client_port : Z;
  sum_server_addr : list Z; sum_server_port : Z; sum_bytes : Z; sum_packets : Z;
  sum_first_ms : Z; sum_last_ms : Z
}.

Record stream_key_t := mk_key {
  k_protocol : Z; a_addr : list Z; a_port : Z; b_addr : list Z; b_port : Z
}.

#[export] Instance stream_key_eq_dec : EqDecision stream_key_t.
Proof. solve_decision. Defined.
#[export] Instance stream_key_countable : Countable stream_key_t.
Proof.
  apply (inj_countable' (fun k => (k_protocol k, a_addr k, a_port k, b_addr k, b_port k))
    (fun x => mk_key x.1.1.1.1 x.1.1.1.2 x.1.1.2 x.1.2 x.2)).
  by intros [].
Defined.

(** [operator<], as its reflexive form. *)
Definition key_leb (k o : stream_key_t) : bool :=
  if negb (k_protocol k =? k_protocol o) then k_protocol k <? k_protocol o
  else if negb (bool_decide (a_addr k = a_addr o)) then lex_leb (a_addr k) (a_addr o)
  else if negb (a_port k =? a_port o) then a_port k <? a_port o
  else if negb (bool_decide (b_addr k = b_addr o)) then lex_leb (b_addr k) (b_addr o)
  else b_port k <=? b_port o.

Record stream_rec_t := mk_stream {
  st_key : stream_key_t; c2s : list Z; s2c : list Z; c2s_packets : Z; s2c_packets : Z;
  first_ms : Z; last_ms : Z; st_id : Z; has_client : bool;
  client_addr : list Z; client_port : Z; server_addr : list Z; server_port : Z
}.

Record traffic_store_t := mk_store {
  pkts_ : list packet_record_t; next_id_ : Z; max_packets_ : Z;
  streams_ : gmap stream_key_t stream_rec_t; next_stream_id_ : Z
}.

Definition init (max_packets : Z) : traffic_store_t := mk_store [] 1 max_packets ∅ 1.

Definition clear (s : traffic_store_t) : traffic_store_t := mk_store [] 1 (max_packets_ s) ∅ 1.

(** ** Indexing a packet *)

Definition addr_lt (x y : list Z) : bool := lex_leb x y && negb (bool_decide (x = y)).

Definition local_is_a (p : packet_record_t) : bool :=
  addr_lt (local_addr p) (remote_addr p) ||
  (bool_decide (local_addr p = remote_addr p) && (local_port p <=? remote_port p)).

Definition key_of (p : packet_record_t) : stream_key_t :=
  if local_is_a p
  then mk_key (protocol p) (local_addr p) (local_port p) (remote_addr p) (remote_port p)
  else mk_key (protocol p) (remote_addr p) (remote_port p) (local_addr p) (local_port p).

Definition kMaxStreamPayloadBytes : Z := 1048576.

(** One direction's bytes after a packet: at most 1 MiB is kept. *)
Definition append_capped (buf pay : list Z) : list Z :=
  if zlen buf <? kMaxStreamPayloadBytes
  then buf ++ take (Z.to_nat (Z.min (zlen pay) (kMaxStreamPayloadBytes - zlen buf))) pay
  else buf.

(** The stream after a packet. *)
Definition feed (p : packet_record_t) (s : stream_rec_t) : stream_rec_t :=
  let out := direction p =? 0 in
  let adopt := negb (has_client s) && out in
  mk_stream (st_key s)
    (if out then append_capped (c2s s) (payload p) else c2s s)
    (if out then s2c s else append_capped (s2c s) (payload p))
    (if out then c2s_packets s + 1 else c2s_packets s)
    (if out then s2c_packets s else s2c_packets s + 1)
    (first_ms s) (at_ms p) (st_id s) (has_client s || adopt)
    (if adopt then local_addr p else client_addr s) (if adopt then local_port p else client_port s)
    (if adopt then remote_addr p else server_addr s) (if adopt then remote_port p else server_port s).

Definition new_stream (k : stream_key_t) (id ms : Z) : stream_rec_t :=
  mk_stream k [] [] 0 0 ms 0 id false [] 0 [] 0.

Definition index_stream (p : packet_record_t) (s : traffic_store_t) : traffic_store_t :=
  let k := key_of p in
  match streams_ s !! k with
  | Some r => mk_store (pkts_ s) (next_id_ s) (max_packets_ s) (<[k := feed p r]> (streams_ s)) (next_stream_id_ s)
  | None =>
      let r := new_stream k (next_stream_id_ s) (at_ms p) in
      mk_store (pkts_ s) (next_id_ s) (max_packets_ s) (<[k := feed p r]> (streams_ s)) (u64 (next_stream_id_ s + 1))
  end.

(** [while (pkts_.size() > max_packets_) pkts_.pop_front()]. *)
Fixpoint pop_front (l : list packet_record_t) (mx : Z) : list packet_record_t :=
  match l with
  | [] => []
  | _ :: l' => if mx <? zlen l then pop_front l' mx else l
  end.

(** The map in key order. *)
Definition entry_le (x y : stream_key_t * stream_rec_t) : Prop := key_leb x.1 y.1 = true.
#[export] Instance entry_le_dec : RelDecision entry_le := fun x y => bool_eq_dec (key_leb x.1 y.1) true.
Definition items (m : gmap stream_key_t stream_rec_t) : list (stream_key_t * stream_rec_t) :=
  merge_sort entry_le (map_to_list m).

(** The first stream with the smallest [last_ms]. *)
Fixpoint oldest (best : stream_key_t * stream_rec_t) (l : list (stream_key_t * stream_rec_t)) : stream_key_t :=
  match l with
  | [] => best.1
  | x :: l' => oldest (if last_ms x.2 <? last_ms best.2 then x else best) l'
  end.

Definition kMaxStreams : Z := 4096.

Definition evict (m : gmap stream_key_t stream_rec_t) : gmap stream_key_t stream_rec_t :=
  if kMaxStreams <? Z.of_nat (size m) then
    match items m with [] => m | x :: l => delete (oldest x (x :: l)) m end
  else m.

Definition with_id (p : packet_record_t) (i : Z) : packet_record_t :=
  mk_packet i (at_ms p) (pid p) (protocol p) (direction p) (local_addr p) (local_port p)
    (remote_addr p) (remote_port p) (payload p).

Definition add (p : packet_record_t) (s : traffic_store_t) : traffic_store_t :=
  let p := with_id p (next_id_ s) in
  let s := index_stream p (mk_store (pkts_ s) (u64 (next_id_ s + 1)) (max_packets_ s) (streams_ s) (next_stream_id_ s)) in
  mk_store (pop_front (pkts_ s ++ [p]) (max_packets_ s)) (next_id_ s) (max_packets_ s)
    (evict (streams_ s)) (next_stream_id_ s).

(** ** Queries *)

Record page_t := mk_page { page_items : list packet_record_t; truncated : bool }.

(** The loop both page queries share; [keep] is the filter. *)
Fixpoint page_loop (keep : packet_record_t -> bool) (from_id limit : Z) (l : list packet_record_t)
  (items : list packet_record_t) : page_t :=
  match l with
  | [] => mk_page items false
  | p :: l' =>
      if p_id p <=? from_id then page_loop keep from_id limit l' items
      else if negb (keep p) then page_loop keep from_id limit l' items
      else if limit <=? zlen items then mk_page items true
      else page_loop keep from_id limit l' (items ++ [p])
  end.

Definition packets (from_id limit : Z) (s : traffic_store_t) : page_t :=
  page_loop (fun _ => true) from_id limit (pkts_ s) [].

Definition size_ (s : traffic_store_t) : Z := zlen (pkts_ s).

(** The text of a key, through a 256-byte buffer. *)
Definition key_text (k : stream_key_t) : list Z :=
  take 255 ((if k_protocol k =? 6 then bs "tcp" else if k_protocol k =? 17 then bs "udp" else bs "ip") ++
    bs " " ++ c_str (a_addr k) ++ bs ":" ++ dec (a_port k) ++ bs "<->" ++ c_str (b_addr k) ++ bs ":" ++ dec (b_port k)).

Definition summary (e : stream_key_t * stream_rec_t) : stream_summary_t :=
  let '(k, s) := e in
  mk_summary (st_id s) (key_text k)
    (if has_client s then client_addr s else a_addr k) (if has_client s then client_port s else a_port k)
    (if has_client s then server_addr s else b_addr k) (if has_client s then server_port s else b_port k)
    (zlen (c2s s) + zlen (s2c s)) (c2s_packets s + s2c_packets s) (first_ms s) (last_ms s).

(** [std::sort] by descending last activity; the order among equal times is not
    fixed by the library, and here that of the keys. *)
Definition later (x y : stream_summary_t) : Prop := sum_last_ms y <= sum_last_ms x.
#[export] Instance later_dec : RelDecision later := fun x y => Z.le_dec (sum_last_ms y) (sum_last_ms x).

Definition streams (s : traffic_store_t) : list stream_summary_t :=
  merge_sort later (summary <$> items (streams_ s)).

Definition stream (id : Z) (s : traffic_store_t) : option stream_summary_t :=
  head (List.filter (fun x => sum_id x =? id) (streams s)).

(** The slice of one stream, client bytes first. *)
Definition slice (s : stream_rec_t) (offset len : Z) : list Z :=
  let total := zlen (c2s s) + zlen (s2c s) in
  if total <=? offset then []
  else
    let n := Z.min len (total - offset) in
    let '(first, offset) :=
      if offset <? zlen (c2s s)
      then (take (Z.to_nat (Z.min n (zlen (c2s s) - offset))) (drop (Z.to_nat offset) (c2s s)), 0)
      else ([], offset - zlen (c2s s)) in
    first ++ take (Z.to_nat (n - zlen first)) (drop (Z.to_nat offset) (s2c s)).

Definition stream_bytes (id offset len : Z) (s : traffic_store_t) : option (list Z) :=
  (fun e => slice e.2 offset len) <$> head (List.filter (fun e => st_id e.2 =? id) (items (streams_ s))).

(** ** Filters *)

Definition addr_prefix_match (addr needle : list Z) : bool := starts_with needle addr || contains needle addr.

Definition payload_contains_ascii (p needle : list Z) : bool :=
  bool_decide (needle = []) || contains needle p.

(** The terms between semicolons, the last one included. *)
Fixpoint terms (t : list Z) : list (list Z) :=
  match t with
  | [] => [[]]
  | c :: t' =>
      if c =? ch ";" then [] :: terms t'
      else match terms t' with x :: l => (c :: x) :: l | [] => [[c]] end
  end.

Fixpoint trim_left (t : list Z) : list Z :=
  match t with c :: t' => if c =? 32 then trim_left t' else t | [] => [] end.
Definition trim (t : list Z) : list Z := rev (trim_left (rev (trim_left t))).

Definition eval_term (p : packet_record_t) (t : list Z) : bool :=
  if starts_with (bs "port=") t then
    let port := u16 (strtoul10 (drop 5 t)) in
    (local_port p =? port) || (remote_port p =? port)
  else if starts_with (bs "host:") t then
    let h := drop 5 t in addr_prefix_match (local_addr p) h || addr_prefix_match (remote_addr p) h
  else if starts_with (bs "text:") t then payload_contains_ascii (payload p) (drop 5 t)
  else if starts_with (bs "pid:") t then pid p =? strtoul10 (drop 4 t)
  else if starts_with (bs "proto:") t then
    let pr := drop 6 t in
    if bool_decide (pr = bs "tcp") then protocol p =? 6
    else if bool_decide (pr = bs "udp") then protocol p =? 17
    else protocol p =? strtoul10 pr
  else false.

Fixpoint eval_terms (p : packet_record_t) (ts : list (list Z)) : bool :=
  match ts with
  | [] => true
  | t :: ts' =>
      let t := trim t in
      if bool_decide (t = []) then eval_terms p ts'
      else if negb (eval_term p t) then false else eval_terms p ts'
  end.

Definition eval_filter (p : packet_record_t) (expr : list Z) : bool := eval_terms p (terms expr).

Definition packets_filtered (from_id limit : Z) (expr : list Z) (s : traffic_store_t) : page_t :=
  page_loop (fun p => eval_filter p expr) from_id limit (pkts_ s) [].

(** ** pcap *)

(** [n] bytes of an integer as they lie in memory. *)
Fixpoint le_bytes (n : nat) (v : Z) : list Z :=
  match n with O => [] | S n' => v mod 256 :: le_bytes n' (v / 256) end.

Definition host_to_net16 (v : Z) : Z := u16 (Z.lor (Z.shiftl v 8) (Z.shiftr v 8)).

(** [sscanf(addr, "%u.%u.%u.%u")]; the four bytes are zero unless all four convert below 256. *)
Definition scan_dot (t : list Z) : option (Z * list Z) :=
  match scan_decimal t with
  | Some (neg, v, c :: rest) => if c =? ch "." then Some (u32 (if neg : bool then - v else v), rest) else None
  | _ => None
  end.

Definition ip_to_bytes (addr : list Z) : list Z :=
  let r :=
    '((a, t) : Z * list Z) ← scan_dot (c_str addr);
    '((b, t) : Z * list Z) ← scan_dot t;
    '((c, t) : Z * list Z) ← scan_dot t;
    '((neg, v, _) : bool * Z * list Z) ← scan_decimal t;
    Some (a, b, c, u32 (if neg : bool then - v else v)) in
  match r with
  | Some (a, b, c, d) =>
      if (a <? 256) && (b <? 256) && (c <? 256) && (d <? 256) then [a; b; c; d] else [0; 0; 0; 0]
  | None => [0; 0; 0; 0]
  end.

Definition eth_header : list Z := [2; 0; 0; 0; 0; 1] ++ [2; 0; 0; 0; 0; 2] ++ le_bytes 2 2048.

Definition ipv4_header (total_len proto : Z) (src dst : list Z) : list Z :=
  [69; 0] ++ le_bytes 2 total_len ++ le_bytes 2 0 ++ le_bytes 2 16384 ++ [64; proto] ++ le_bytes 2 0 ++ src ++ dst.

Definition udp_header (sport dport len : Z) : list Z :=
  le_bytes 2 sport ++ le_bytes 2 dport ++ le_bytes 2 len ++ le_bytes 2 0.

Definition tcp_header (sport dport : Z) : list Z :=
  le_bytes 2 sport ++ le_bytes 2 dport ++ le_bytes 4 0 ++ le_bytes 4 0 ++ [80; 24] ++ le_bytes 2 65535 ++
  le_bytes 2 0 ++ le_bytes 2 0.

Definition frame (p : packet_record_t) : list Z :=
  let udp := protocol p =? 17 in
  let sport := if direction p =? 0 then local_port p else remote_port p in
  let dport := if direction p =? 0 then remote_port p else local_port p in
  let l4 := if udp then 8 else 20 in
  let total := u16 (20 + l4 + zlen (payload p)) in
  eth_header ++
  ipv4_header (host_to_net16 total) (u8 (if protocol p =? 0 then 6 else protocol p))
    (ip_to_bytes (local_addr p)) (ip_to_bytes (remote_addr p)) ++
  (if udp
   then udp_header (host_to_net16 sport) (host_to_net16 dport) (host_to_net16 (u16 (8 + zlen (payload p))))
   else tcp_header (host_to_net16 sport) (host_to_net16 dport)) ++
  payload p.

Definition pcap_global : list Z :=
  le_bytes 4 2712847316 ++ le_bytes 2 2 ++ le_bytes 2 4 ++ le_bytes 4 0 ++ le_bytes 4 0 ++
  le_bytes 4 262144 ++ le_bytes 4 1.

(** [/] and [%] of C++ truncate toward zero. *)
Definition pcap_record (p : packet_record_t) : list Z :=
  let f := frame p in
  le_bytes 4 (u32 (Z.quot (at_ms p) 1000)) ++ le_bytes 4 (u32 (Z.rem (at_ms p) 1000 * 1000)) ++
  le_bytes 4 (u32 (zlen f)) ++ le_bytes 4 (u32 (zlen f)) ++ f.

(** The bytes of the file; [None] when it cannot be opened. *)
Definition write_pcap (can_open : bool) (pkts : list packet_record_t) : option (list Z) :=
  if can_open then Some (pcap_global ++ concat (pcap_record <$> pkts)) else None.

(** ** The store as a function of the packets added *)

Definition outbound (p : packet_record_t) : bool := direction p =? 0.
Definition inbound (p : packet_record_t) : bool := negb (direction p =? 0).

Definition conversation (k : stream_key_t) (h : list packet_record_t) : list packet_record_t :=
  List.filter (fun p => bool_decide (key_of p = k)) h.

Definition bytes_of (l : list packet_record_t) : list Z := concat (payload <$> l).

(** What the index holds for a conversation: per direction the first MiB and the
    number of packets, the first and the last time, and the initiator once an
    outbound packet was seen. *)
Definition stream_of (k : stream_key_t) (h : list packet_record_t) (r : stream_rec_t) : Prop :=
  let c := conversation k h in
  let out := List.filter outbound c in
  st_key r = k /\
  c2s r = take (Z.to_nat kMaxStreamPayloadBytes) (bytes_of out) /\
  s2c r = take (Z.to_nat kMaxStreamPayloadBytes) (bytes_of (List.filter inbound c)) /\
  c2s_packets r = zlen out /\ s2c_packets r = zlen (List.filter inbound c) /\
  Some (first_ms r) = at_ms <$> head c /\ Some (last_ms r) = at_ms <$> last c /\
  has_client r = match out with [] => false | _ :: _ => true end /\
  (forall p, head out = Some p ->
    client_addr r = local_addr p /\ client_port r = local_port p /\
    server_addr r = remote_addr p /\ server_port r = remote_port p).

Definition index_ok (s : traffic_store_t) (h : list packet_record_t) : Prop :=
  forall k, match streams_ s !! k with
            | Some r => stream_of k h r
            | None => conversation k h = []
            end.

Definition ids_ok (s : traffic_store_t) : Prop :=
  map_Forall (fun _ r => 1 <= st_id r < next_stream_id_ s) (streams_ s) /\
  (forall k k' r r', streams_ s !! k = Some r -> streams_ s !! k' = Some r' -> st_id r = st_id r' -> k = k').

(** The packets with the ids the store assigns. *)
Definition numbered (h : list packet_record_t) : list packet_record_t :=
  imap (fun i p => with_id p (Z.of_nat i + 1)) h.

Definition keys_of (h : list packet_record_t) : gset stream_key_t := list_to_set (key_of <$> h).

Lemma max_payload_pos : 0 < kMaxStreamPayloadBytes.
Proof. reflexivity. Qed.

Lemma append_capped_take a b :
  append_capped (take (Z.to_nat kMaxStreamPayloadBytes) a) b = take (Z.to_nat kMaxStreamPayloadBytes) (a ++ b).
Proof.
  unfold append_capped. pose proof max_payload_pos as Hp. revert Hp. generalize kMaxStreamPayloadBytes. intros m Hm.
  rewrite take_app. unfold zlen. rewrite length_take. destruct (Z.ltb_spec (Z.of_nat (Nat.min (Z.to_nat m) (length a))) m).
  - rewrite (take_ge a) by lia. f_equal.
    replace (Z.to_nat (Z.min (Z.of_nat (length b)) (m - Z.of_nat (Nat.min (Z.to_nat m) (length a)))))
      with (Nat.min (length b) (Z.to_nat m - length a)) by lia.
    rewrite Nat.min_comm, <- take_take. by rewrite (take_ge b) by lia.
  - replace (Z.to_nat m - length a)%nat with 0%nat by lia. by rewrite take_0, app_nil_r.
Qed.

Lemma bytes_of_app l k : bytes_of (l ++ k) = bytes_of l ++ bytes_of k.
Proof. unfold bytes_of. by rewrite fmap_app, concat_app. Qed.

Lemma bytes_of_one p : bytes_of [p] = payload p.
Proof. unfold bytes_of. cbn. by rewrite app_nil_r. Qed.

Lemma conversation_snoc k h p :
  conversation k (h ++ [p]) = conversation k h ++ (if decide (key_of p = k) then [p] else []).
Proof. unfold conversation. rewrite List.filter_app. cbn. case_bool_decide; by case_decide. Qed.

Lemma stream_of_other k h p r : key_of p <> k -> stream_of k h r -> stream_of k (h ++ [p]) r.
Proof. intros Hk. unfold stream_of. rewrite conversation_snoc. case_decide; [done |]. by rewrite app_nil_r. Qed.

Lemma filter_one (f : packet_record_t -> bool) p : List.filter f [p] = if f p then [p] else [].
Proof. done. Qed.

Lemma head_app_cons {A} (l : list A) x : head (l ++ [x]) = match l with [] => Some x | y :: _ => Some y end.
Proof. by destruct l. Qed.

(** One packet on the stream of its conversation. *)
Lemma feed_stream_of h p i r :
  stream_of (key_of p) h r -> conversation (key_of p) h <> [] ->
  stream_of (key_of p) (h ++ [p]) (feed (with_id p i) r).
Proof.
  intros (Hk & Hc & Hs & Hcp & Hsp & Hf & Hl & Hh & Ha) Hne. unfold stream_of.
  rewrite conversation_snoc. rewrite decide_True by done. set (c := conversation (key_of p) h) in *.
  rewrite !List.filter_app, !filter_one. unfold feed.
  cbn [st_key c2s s2c c2s_packets s2c_packets first_ms last_ms has_client client_addr client_port server_addr server_port
       with_id direction payload at_ms local_addr local_port remote_addr remote_port].
  change (outbound p) with (direction p =? 0). change (inbound p) with (negb (direction p =? 0)). rewrite Hc, Hs, Hcp, Hsp, Hh.
  rewrite head_app_cons, last_snoc.
  destruct (direction p =? 0) eqn:Ed; cbn [negb]; rewrite ?andb_true_r, ?andb_false_r, ?app_nil_r;
    rewrite ?bytes_of_app, ?bytes_of_one, ?append_capped_take, ?zlen_app;
    clear Hc Hs; generalize (Z.to_nat kMaxStreamPayloadBytes); intros cap.
  - split_and!; try done.
    + rewrite Hf. by destruct c.
    + destruct (List.filter outbound c); done.
    + intros q Hq. destruct (List.filter outbound c) as [|x l] eqn:Eo; cbn in Hq |- *; injection Hq as <-; [done |].
      by apply Ha.
  - split_and!; try done.
    + rewrite Hf. by destruct c.
    + by destruct (List.filter outbound c).
Qed.

Lemma append_capped_nil b : append_capped [] b = take (Z.to_nat kMaxStreamPayloadBytes) b.
Proof. pose proof (append_capped_take [] b) as H. by rewrite take_nil in H. Qed.

Lemma feed_new_stream h p i id :
  conversation (key_of p) h = [] ->
  stream_of (key_of p) (h ++ [p]) (feed (with_id p i) (new_stream (key_of p) id (at_ms p))).
Proof.
  intros Hc. unfold stream_of. rewrite conversation_snoc, Hc, decide_True by done. cbn [app].
  rewrite !filter_one. unfold feed, new_stream.
  cbn [st_key c2s s2c c2s_packets s2c_packets first_ms last_ms has_client client_addr client_port server_addr server_port
       with_id direction payload at_ms local_addr local_port remote_addr remote_port].
  change (outbound p) with (direction p =? 0). change (inbound p) with (negb (direction p =? 0)).
  destruct (direction p =? 0); cbn [negb]; rewrite ?append_capped_nil, ?bytes_of_one;
    generalize (Z.to_nat kMaxStreamPayloadBytes); intros cap;
    split_and!; try done; try (symmetry; apply take_nil).
  intros q Hq. by injection Hq as <-.
Qed.

Lemma index_dom s h : index_ok s h -> dom (streams_ s) = keys_of h.
Proof.
  intros Hi. apply set_eq. intros k. rewrite elem_of_dom. unfold keys_of.
  rewrite elem_of_list_to_set, list_elem_of_fmap. specialize (Hi k).
  assert (Hne : conversation k h <> [] <-> exists p, k = key_of p /\ p ∈ h).
  { unfold conversation. split.
    - intros Hn. destruct (List.filter _ h) as [|p l] eqn:E; [done |].
      assert (Hp : In p (List.filter (fun p => bool_decide (key_of p = k)) h)) by (rewrite E; by left).
      apply filter_In in Hp as [Hp Hk]. apply bool_decide_eq_true in Hk. exists p. split; [done |]. by apply list_elem_of_In.
    - intros (p & -> & Hp) E. apply list_elem_of_In in Hp.
      assert (Hin : In p (List.filter (fun q => bool_decide (key_of q = key_of p)) h))
        by (apply filter_In; split; [done | by apply bool_decide_eq_true]).
      rewrite E in Hin. done. }
  rewrite <- Hne. destruct (streams_ s !! k) as [r|].
  - split; [|by eexists]. intros _ E. destruct Hi as (_ & _ & _ & _ & _ & Hf & _). rewrite E in Hf. done.
  - split; [by intros [? ?] | done].
Qed.

Lemma keys_of_snoc h p : keys_of (h ++ [p]) = keys_of h ∪ {[ key_of p ]}.
Proof. unfold keys_of. rewrite fmap_app, list_to_set_app_L. cbn. by rewrite (right_id_L ∅ (∪)). Qed.

Lemma index_stream_ok s h p i :
  index_ok s h -> ids_ok s -> is_word 64 (next_stream_id_ s + 1) -> 1 <= next_stream_id_ s ->
  index_ok (index_stream (with_id p i) s) (h ++ [p]) /\ ids_ok (index_stream (with_id p i) s) /\
  next_stream_id_ s <= next_stream_id_ (index_stream (with_id p i) s) <= next_stream_id_ s + 1.
Proof.
  intros Hi [Hr Hu] Hw H1. unfold index_stream. change (key_of (with_id p i)) with (key_of p).
  change (at_ms (with_id p i)) with (at_ms p). pose proof (Hi (key_of p)) as Hp.
  assert (Hother : forall m' : gmap stream_key_t stream_rec_t, forall r',
    stream_of (key_of p) (h ++ [p]) r' -> m' = <[key_of p := r']> (streams_ s) ->
    forall k, match m' !! k with Some r => stream_of k (h ++ [p]) r | None => conversation k (h ++ [p]) = [] end).
  { intros m' r' Hr' -> k. destruct (decide (key_of p = k)) as [<-|Hne]; [by rewrite lookup_insert_eq |].
    rewrite lookup_insert_ne by done. specialize (Hi k). destruct (streams_ s !! k); [by apply stream_of_other |].
    rewrite conversation_snoc, decide_False, app_nil_r by done. exact Hi. }
  destruct (streams_ s !! key_of p) as [r|] eqn:E; cbn [streams_ next_stream_id_].
  - pose proof Hp as (_ & _ & _ & _ & _ & Hf & _). split; [|split; [|lia]].
    + intros k. cbn [streams_]. eapply Hother; [|reflexivity]. apply feed_stream_of; [exact Hp |].
      intros Ec. rewrite Ec in Hf. done.
    + split; cbn [streams_ next_stream_id_].
      * apply map_Forall_insert_2; [|exact Hr]. exact (Hr _ _ E).
      * intros k k' x x' Hx Hx' Hid.
        apply lookup_insert_Some in Hx as [[<- <-]|[Hk Hx]], Hx' as [[<- <-]|[Hk' Hx']]; [done | | |].
        -- cbn in Hid. exact (Hu _ _ _ _ E Hx' Hid).
        -- cbn in Hid. exact (Hu _ _ _ _ Hx E Hid).
        -- exact (Hu _ _ _ _ Hx Hx' Hid).
  - rewrite wrap_small by (unfold is_word in *; lia). split; [|split; [|lia]].
    + intros k. cbn [streams_]. eapply Hother; [|reflexivity]. by apply feed_new_stream.
    + split; cbn [streams_ next_stream_id_].
      * apply map_Forall_insert_2; [cbn; lia |]. eapply map_Forall_impl; [exact Hr |]. intros k x Hx. cbn in Hx. lia.
      * intros k k' x x' Hx Hx' Hid.
        apply lookup_insert_Some in Hx as [[<- <-]|[Hk Hx]], Hx' as [[<- <-]|[Hk' Hx']]; [done | | |].
        -- cbn in Hid. specialize (Hr _ _ Hx'). cbn in Hr. lia.
        -- cbn in Hid. specialize (Hr _ _ Hx). cbn in Hr. lia.
        -- exact (Hu _ _ _ _ Hx Hx' Hid).
Qed.

(** *** The ring *)

Lemma pop_front_drop l mx : 0 <= mx -> pop_front l mx = drop (length l - Z.to_nat mx) l.
Proof.
  intros Hm. induction l as [|p l IH]; [by rewrite drop_nil |]. cbn [pop_front].
  destruct (Z.ltb_spec mx (zlen (p :: l))) as [H|H].
  - rewrite IH. unfold zlen in H. cbn [length] in *.
    by replace (S (length l) - Z.to_nat mx)%nat with (S (length l - Z.to_nat mx)) by lia.
  - unfold zlen in H. by replace (length (p :: l) - Z.to_nat mx)%nat with 0%nat by lia.
Qed.

Lemma ring_snoc {A} (l : list A) x m :
  drop (length (drop (length l - m) l ++ [x]) - m) (drop (length l - m) l ++ [x]) =
    drop (length (l ++ [x]) - m) (l ++ [x]).
Proof.
  rewrite <- (drop_app_le l [x] (length l - m)) by lia. rewrite drop_drop. f_equal.
  rewrite length_drop, length_app. cbn. lia.
Qed.

Lemma numbered_snoc h p : numbered (h ++ [p]) = numbered h ++ [with_id p (zlen h + 1)].
Proof. unfold numbered, zlen. rewrite imap_app. cbn. by rewrite Nat.add_0_r. Qed.

Lemma numbered_length h : length (numbered h) = length h.
Proof. apply length_imap. Qed.

Definition store_after (max : Z) (h : list packet_record_t) : traffic_store_t :=
  foldl (fun s p => add p s) (init max) h.

Definition refines (max : Z) (s : traffic_store_t) (h : list packet_record_t) : Prop :=
  pkts_ s = drop (length h - Z.to_nat max) (numbered h) /\ next_id_ s = zlen h + 1 /\ max_packets_ s = max /\
  index_ok s h /\ ids_ok s /\ 1 <= next_stream_id_ s <= zlen h + 1.

Lemma add_refines max s h p :
  0 <= max -> zlen h + 2 < 2 ^ 64 -> Z.of_nat (size (keys_of (h ++ [p]))) <= kMaxStreams ->
  refines max s h -> refines max (add p s) (h ++ [p]).
Proof.
  intros Hm Hlen Hk (Hp & Hn & Hx & Hi & Hids & Hns). pose proof (zlen_nonneg h).
  assert (Hw : is_word 64 (next_stream_id_ s + 1)) by (unfold is_word; lia).
  unfold add. set (s0 := mk_store (pkts_ s) (u64 (next_id_ s + 1)) (max_packets_ s) (streams_ s) (next_stream_id_ s)).
  destruct (index_stream_ok s0 h p (next_id_ s) Hi Hids Hw ltac:(apply Hns)) as (Hi' & Hids' & Hns').
  assert (Hsame : pkts_ (index_stream (with_id p (next_id_ s)) s0) = pkts_ s /\
    next_id_ (index_stream (with_id p (next_id_ s)) s0) = u64 (next_id_ s + 1) /\
    max_packets_ (index_stream (with_id p (next_id_ s)) s0) = max).
  { unfold index_stream. by destruct (streams_ s0 !! _). }
  destruct Hsame as (E1 & E2 & E3).
  assert (Hev : evict (streams_ (index_stream (with_id p (next_id_ s)) s0)) =
                streams_ (index_stream (with_id p (next_id_ s)) s0)).
  { unfold evict. destruct (Z.ltb_spec kMaxStreams (Z.of_nat (size (streams_ (index_stream (with_id p (next_id_ s)) s0)))))
      as [Hlt|]; [|done].
    rewrite <- size_dom, (index_dom _ _ Hi') in Hlt. lia. }
  cbv zeta. rewrite E1, E2, E3, Hev. unfold refines. cbn [pkts_ next_id_ max_packets_ streams_ next_stream_id_].
  rewrite zlen_app. change (zlen [p]) with 1. split; [|split; [|split; [done | split; [exact Hi' | split; [exact Hids' |]]]]].
  - rewrite pop_front_drop by lia. rewrite Hp, Hn, numbered_snoc.
    rewrite <- (numbered_length h), ring_snoc. f_equal. by rewrite !length_app, numbered_length.
  - rewrite Hn, wrap_small by (unfold is_word; lia). lia.
  - cbn [next_stream_id_ s0] in Hns'. lia.
Qed.

(** *** Slices *)

Lemma slice_spec r off len :
  0 <= off -> 0 <= len -> slice r off len = take (Z.to_nat len) (drop (Z.to_nat off) (c2s r ++ s2c r)).
Proof.
  intros Ho Hl. unfold slice, zlen. set (a := c2s r). set (b := s2c r).
  destruct (Z.leb_spec (Z.of_nat (length a) + Z.of_nat (length b)) off) as [H|H].
  { rewrite drop_ge by (rewrite length_app; lia). by rewrite take_nil. }
  destruct (Z.ltb_spec off (Z.of_nat (length a))) as [H1|H1].
  - rewrite drop_app_le, take_app by lia. f_equal.
    + destruct (Z.le_gt_cases len (Z.of_nat (length a) - off)); [f_equal; lia |].
      rewrite !take_ge by (rewrite length_drop; lia). done.
    + rewrite drop_0, length_take, length_drop.
      destruct (Z.le_gt_cases (len + off) (Z.of_nat (length a) + Z.of_nat (length b))); [f_equal; lia |].
      rewrite !take_ge by lia. done.
  - rewrite drop_app_ge by lia. cbn [app length].
    replace (Z.to_nat (off - Z.of_nat (length a))) with (Z.to_nat off - length a)%nat by lia.
    destruct (Z.le_gt_cases (len + off) (Z.of_nat (length a) + Z.of_nat (length b))); [f_equal; lia |].
    rewrite !take_ge by (rewrite length_drop; lia). done.
Qed.

Lemma items_elem m e : e ∈ items m <-> m !! e.1 = Some e.2.
Proof.
  unfold items. rewrite (merge_sort_Permutation entry_le (map_to_list m)).
  destruct e. apply elem_of_map_to_list.
Qed.

Lemma stream_bytes_spec s k r off len :
  ids_ok s -> streams_ s !! k = Some r -> 0 <= off -> 0 <= len ->
  stream_bytes (st_id r) off len s = Some (take (Z.to_nat len) (drop (Z.to_nat off) (c2s r ++ s2c r))).
Proof.
  intros [_ Hu] Hr Ho Hl. unfold stream_bytes.
  destruct (List.filter (fun e => st_id e.2 =? st_id r) (items (streams_ s))) as [|[k' r'] l] eqn:E.
  - exfalso. assert (Hin : In (k, r) (List.filter (fun e => st_id e.2 =? st_id r) (items (streams_ s)))).
    { apply filter_In. split; [|apply Z.eqb_refl]. by apply list_elem_of_In, items_elem. }
    by rewrite E in Hin.
  - assert (Hin : In (k', r') (List.filter (fun e => st_id e.2 =? st_id r) (items (streams_ s)))) by (rewrite E; by left).
    apply filter_In in Hin as [Hin Hid]. apply list_elem_of_In, items_elem in Hin. apply Z.eqb_eq in Hid. cbn in Hin, Hid.
    assert (k' = k) as -> by exact (Hu _ _ _ _ Hin Hr Hid). rewrite Hr in Hin. injection Hin as <-.
    cbn. by rewrite slice_spec.
Qed.

(** C27: after any sequence of packets over at most 4096 conversations the store is
    a function of that sequence: the ring holds the last [max] packets with
    consecutive ids from 1; a conversation is indexed iff it had a packet, with
    the first MiB of each direction, the packet counts, the first and last time
    and the initiator; and a stream slice is that slice of the outbound bytes
    followed by the inbound ones. *)
Theorem store_refines_history (max : Z) (h : list packet_record_t) :
  0 <= max -> zlen h + 1 < 2 ^ 64 -> Z.of_nat (size (keys_of h)) <= kMaxStreams ->
  let s := store_after max h in
  pkts_ s = drop (length h - Z.to_nat max) (numbered h) /\ index_ok s h /\
  forall k r off len, streams_ s !! k = Some r -> 0 <= off -> 0 <= len ->
    stream_bytes (st_id r) off len s = Some (take (Z.to_nat len) (drop (Z.to_nat off) (c2s r ++ s2c r))).
Proof.
  intros Hm Hlen Hk s. assert (H : refines max s h).
  { unfold s, store_after. induction h as [|p h IH] using rev_ind.
    - unfold refines, zlen. cbn. split; [done |]. split; [done |]. split; [done |]. split; [done |]. split; [|lia].
      split; [apply map_Forall_empty |]. intros k k' r r' Hr. cbn in Hr. by rewrite lookup_empty in Hr.
    - rewrite foldl_app. cbn. rewrite zlen_app in Hlen. change (zlen [p]) with 1 in Hlen.
      apply add_refines; [done | lia | done |]. apply IH; [lia |].
      transitivity (Z.of_nat (size (keys_of (h ++ [p])))); [|done].
      apply Nat2Z.inj_le, subseteq_size. rewrite keys_of_snoc. apply union_subseteq_l. }
  destruct H as (H1 & _ & _ & H4 & H5 & _). split; [done |]. split; [done |].
  intros k r off len Hr Ho Hl. by eapply stream_bytes_spec.
Qed.

Definition demo_packet (dir : Z) (pay : list Z) : packet_record_t :=
  mk_packet 0 1500 42 6 dir (bs "10.0.0.9") 50000 (bs "10.0.0.1") 80 pay.

Definition demo_history : list packet_record_t :=
  [demo_packet 1 (bs "ab"); demo_packet 0 (bs "GET"); demo_packet 0 (bs " /")].

Lemma store_refines_history_witness :
  pkts_ (store_after 2 demo_history) = drop 1 (numbered demo_history) /\
  (forall r, streams_ (store_after 2 demo_history) !! key_of (demo_packet 0 []) = Some r ->
     stream_bytes (st_id r) 1 5 (store_after 2 demo_history) = Some (take 5 (drop 1 (c2s r ++ s2c r)))) /\
  stream_bytes 1 1 5 (store_after 2 demo_history) = Some (bs "ET /a").
Proof.
  destruct (store_refines_history 2 demo_history) as (H1 & _ & H2).
  - lia.
  - vm_compute. reflexivity.
  - vm_compute. discriminate.
  - split; [exact H1 |]. split; [|vm_compute; reflexivity]. intros r Hr. apply (H2 _ r 1 5 Hr); lia.
Defined.

(** Both directions of a conversation share its key. *)
Definition reversed (p : packet_record_t) : packet_record_t :=
  mk_packet (p_id p) (at_ms p) (pid p) (protocol p) (direction p) (remote_addr p) (remote_port p)
    (local_addr p) (local_port p) (payload p).

Lemma lex_leb_total a b : lex_leb a b = false -> lex_leb b a = true.
Proof.
  revert b. induction a as [|x a IH]; intros [|y b]; cbn; try done.
  destruct (Z.ltb_spec x y), (Z.ltb_spec y x); try done; try lia. apply IH.
Qed.

Lemma lex_leb_antisym a b : lex_leb a b = true -> lex_leb b a = true -> a = b.
Proof.
  revert b. induction a as [|x a IH]; intros [|y b]; cbn; try done.
  destruct (Z.ltb_spec x y), (Z.ltb_spec y x); try done; try lia.
  intros H1 H2. f_equal; [lia | by apply IH].
Qed.

Lemma key_of_reversed p : key_of (reversed p) = key_of p.
Proof.
  unfold key_of, local_is_a, addr_lt, reversed.
  cbn [local_addr remote_addr local_port remote_port protocol].
  destruct (decide (local_addr p = remote_addr p)) as [E|E].
  - rewrite E, !(bool_decide_eq_true_2 (remote_addr p = remote_addr p)) by done. rewrite !andb_false_r. cbn [orb andb].
    destruct (Z.leb_spec (remote_port p) (local_port p)), (Z.leb_spec (local_port p) (remote_port p)); try done; [|lia].
    by replace (remote_port p) with (local_port p) by lia.
  - rewrite !bool_decide_eq_false_2 by congruence. cbn [negb]. rewrite !andb_true_r. cbn [andb]. rewrite !orb_false_r.
    destruct (lex_leb (remote_addr p) (local_addr p)) eqn:E1, (lex_leb (local_addr p) (remote_addr p)) eqn:E2; try done.
    + by destruct E; apply lex_leb_antisym.
    + apply lex_leb_total in E1. congruence.
Qed.

(** ** The display filter *)

Lemma terms_nonempty t : terms t <> [].
Proof. destruct t as [|c t]; cbn; [done |]. destruct (c =? ch ";"); [done |]. by destruct (terms t). Qed.

Lemma terms_app a b : terms (a ++ bs ";" ++ b) = terms a ++ terms b.
Proof.
  induction a as [|c a IH]; [reflexivity |]. cbn [app terms]. rewrite IH. destruct (c =? ch ";"); [done |].
  destruct (terms a) as [|x l] eqn:E; [by destruct (terms_nonempty a) | done].
Qed.

Lemma eval_terms_app p l k : eval_terms p (l ++ k) = eval_terms p l && eval_terms p k.
Proof.
  induction l as [|t l IH]; cbn; [done |]. case_bool_decide; [exact IH |]. by destruct (eval_term p (trim t)).
Qed.

Lemma page_loop_spec keep from limit l acc :
  zlen acc <= limit ->
  page_loop keep from limit l acc =
    (let m := List.filter (fun p => (from <? p_id p) && keep p) l in
     mk_page (acc ++ take (Z.to_nat (limit - zlen acc)) m) (limit - zlen acc <? zlen m)).
Proof.
  revert acc. induction l as [|p l IH]; intros acc Hl; cbn [page_loop List.filter].
  { rewrite take_nil, app_nil_r. cbv zeta. f_equal. symmetry. apply Z.ltb_ge. unfold zlen in *. cbn. lia. }
  destruct (Z.leb_spec (p_id p) from).
  { rewrite (proj2 (Z.ltb_ge from (p_id p))) by lia. by apply IH. }
  rewrite (proj2 (Z.ltb_lt from (p_id p))) by lia. cbn [andb]. destruct (keep p); cbn [negb]; [|by apply IH].
  destruct (Z.leb_spec limit (zlen acc)).
  { replace (limit - zlen acc) with 0 by lia. rewrite take_0, app_nil_r. cbv zeta. f_equal. }
  rewrite IH by (rewrite zlen_app; change (zlen [p]) with 1; lia). rewrite zlen_app. change (zlen [p]) with 1. cbv zeta.
  rewrite <- app_assoc. f_equal.
  - f_equal. replace (Z.to_nat (limit - zlen acc)) with (S (Z.to_nat (limit - (zlen acc + 1)))) by lia. done.
  - unfold zlen. cbn [length]. zcase; (done || lia).
Qed.

(** A filtered page holds the first [limit] packets after [from_id] that
    satisfy the filter, marked truncated exactly when there are more; joining two
    filters with a semicolon selects the packets that satisfy both. *)
Lemma packets_filtered_spec (from_id limit : Z) (e1 e2 : list Z) (s : traffic_store_t) :
  0 <= limit ->
  let m := List.filter (fun p => (from_id <? p_id p) && (eval_filter p e1 && eval_filter p e2)) (pkts_ s) in
  packets_filtered from_id limit (e1 ++ bs ";" ++ e2) s = mk_page (take (Z.to_nat limit) m) (limit <? zlen m).
Proof.
  intros Hl m. unfold packets_filtered. rewrite page_loop_spec by (unfold zlen; cbn; lia).
  change (zlen []) with 0. rewrite Z.sub_0_r. cbn [app]. cbv zeta.
  assert (E : List.filter (fun p => (from_id <? p_id p) && eval_filter p (e1 ++ bs ";" ++ e2)) (pkts_ s) = m).
  { apply List.filter_ext. intros p. unfold eval_filter. by rewrite terms_app, eval_terms_app. }
  by rewrite E.
Qed.

Lemma packets_filtered_spec_witness :
  page_items (packets_filtered 0 1 (bs "port=80" ++ bs ";" ++ bs "text:GE") (store_after 5 demo_history))
    = [with_id (demo_packet 0 (bs "GET")) 2].
Proof.
  rewrite (packets_filtered_spec 0 1 (bs "port=80") (bs "text:GE") (store_after 5 demo_history)); [vm_compute; reflexivity | lia].
Defined.

(** The documented spelling [port==80] compares with port 0. *)
Lemma double_equals_is_port_zero p :
  eval_filter p (bs "port==80") = (local_port p =? 0) || (remote_port p =? 0).
Proof.
  unfold eval_filter. change (terms (bs "port==80")) with [bs "port==80"]. cbn [eval_terms].
  change (trim (bs "port==80")) with (bs "port==80"). rewrite bool_decide_eq_false_2 by done.
  unfold eval_term. change (starts_with (bs "port=") (bs "port==80")) with true. cbv iota.
  change (u16 (strtoul10 (drop 5 (bs "port==80")))) with 0. by destruct (_ || _).
Qed.

(** ** pcap *)

Lemma le_bytes_length n v : length (le_bytes n v) = n.
Proof. revert v. induction n as [|n IH]; intros v; cbn; [done |]. by rewrite IH. Qed.

Lemma load_bits_le_bytes n v rest : load_bits n (le_bytes n v ++ rest) = wrap (8 * Z.of_nat n) v.
Proof.
  revert v. induction n as [|n IH]; intros v; cbn [le_bytes app load_bits]; [unfold wrap; cbn; by rewrite Z.mod_1_r |].
  rewrite IH. unfold wrap. replace (8 * Z.of_nat (S n)) with (8 + 8 * Z.of_nat n) by lia.
  rewrite Z.pow_add_r by lia. change (2 ^ 8) with 256.
  rewrite Z.rem_mul_r by (try lia; apply Z.pow_pos_nonneg; lia). lia.
Qed.

(** A reader of the record list: header of 16 bytes, then [incl_len] bytes. *)
Fixpoint read_records (fuel : nat) (d : list Z) : list (list Z) :=
  match fuel with
  | O => []
  | S fuel' =>
      if zlen d <? 16 then []
      else
        let len := Z.to_nat (load_bits 4 (drop 8 d)) in
        take len (drop 16 d) :: read_records fuel' (drop (16 + len) d)
  end.

(** The payload of a frame: after Ethernet, IPv4 and the header its protocol byte says. *)
Definition frame_payload (f : list Z) : list Z :=
  drop (34 + match f !! 23%nat with Some pr => if (pr =? 17)%Z then 8 else 20 | None => 20 end)%nat f.

Lemma ip_to_bytes_length a : length (ip_to_bytes a) = 4%nat.
Proof. unfold ip_to_bytes. destruct (_ ≫= _) as [[[[? ?] ?] ?]|]; [|done]. by destruct (_ && _). Qed.

Lemma frame_split p :
  exists ip4, frame p = eth_header ++ [69; 0] ++ le_bytes 2 (host_to_net16 (u16 (20 + (if protocol p =? 17 then 8 else 20) + zlen (payload p)))) ++
    le_bytes 2 0 ++ le_bytes 2 16384 ++ [64; u8 (if protocol p =? 0 then 6 else protocol p)] ++ ip4 ++ payload p /\
    length ip4 = (10 + if (protocol p =? 17)%Z then 8 else 20)%nat.
Proof.
  unfold frame, ipv4_header. cbv zeta.
  set (l4 := if protocol p =? 17 then udp_header _ _ _ else _).
  assert (Hl4 : length l4 = if protocol p =? 17 then 8%nat else 20%nat).
  { unfold l4, udp_header, tcp_header. destruct (protocol p =? 17); by rewrite !length_app, !le_bytes_length. }
  exists (le_bytes 2 0 ++ ip_to_bytes (local_addr p) ++ ip_to_bytes (remote_addr p) ++ l4).
  split; [by rewrite <- !app_assoc |].
  rewrite !length_app, !ip_to_bytes_length, le_bytes_length, Hl4. by destruct (protocol p =? 17).
Qed.

Lemma frame_payload_frame p : 0 <= protocol p < 256 -> frame_payload (frame p) = payload p.
Proof.
  intros Hp. destruct (frame_split p) as (ip4 & -> & Hl). unfold frame_payload.
  assert (Hpr : (eth_header ++ [69; 0] ++ le_bytes 2 (host_to_net16 (u16 (20 + (if protocol p =? 17 then 8 else 20) + zlen (payload p)))) ++
    le_bytes 2 0 ++ le_bytes 2 16384 ++ [64; u8 (if protocol p =? 0 then 6 else protocol p)] ++ ip4 ++ payload p) !! 23%nat
    = Some (u8 (if protocol p =? 0 then 6 else protocol p))) by reflexivity.
  rewrite Hpr. rewrite wrap_small by (unfold is_word; destruct (protocol p =? 0); lia).
  assert (Hn : (34 + match Some (if (protocol p =? 0)%Z then 6 else protocol p)%Z with Some pr => if (pr =? 17)%Z then 8 else 20 | None => 20 end
    = 24 + length ip4)%nat).
  { rewrite Hl. destruct (Z.eqb_spec (protocol p) 0) as [->|]; [reflexivity |]. by destruct (protocol p =? 17). }
  rewrite Hn, <- drop_drop. rewrite !app_assoc. rewrite <- app_assoc.
  rewrite drop_app_length' by (rewrite !length_app, !le_bytes_length; reflexivity).
  by rewrite drop_app_length.
Qed.

Lemma pcap_record_length p : length (pcap_record p) = (16 + length (frame p))%nat.
Proof. unfold pcap_record. rewrite !length_app, !le_bytes_length. done. Qed.

Lemma read_records_concat fuel ps :
  Forall (fun p => zlen (frame p) < 2 ^ 32) ps -> (length ps <= fuel)%nat ->
  read_records fuel (concat (pcap_record <$> ps)) = frame <$> ps.
Proof.
  intros Hf. revert fuel. induction Hf as [|p ps Hp Hps IH]; intros fuel Hl.
  { destruct fuel; reflexivity. }
  destruct fuel as [|fuel]; [cbn in Hl; lia |]. cbn [read_records fmap list_fmap concat]. pose proof (zlen_nonneg (frame p)).
  destruct (Z.ltb_spec (zlen (pcap_record p ++ concat (pcap_record <$> ps))) 16) as [Hlt|_].
  { rewrite zlen_app in Hlt. unfold zlen in Hlt at 1. rewrite pcap_record_length in Hlt.
    pose proof (zlen_nonneg (concat (pcap_record <$> ps))). lia. }
  set (rest := concat (pcap_record <$> ps)).
  assert (Hlen : load_bits 4 (drop 8 (pcap_record p ++ rest)) = zlen (frame p)).
  { unfold pcap_record. cbv zeta. rewrite <- !app_assoc.
    rewrite (app_assoc (le_bytes 4 _) (le_bytes 4 _)), drop_app_length' by (by rewrite length_app, !le_bytes_length).
    rewrite load_bits_le_bytes. change (8 * Z.of_nat 4) with 32. by rewrite wrap_wrap, wrap_small by (unfold is_word; lia). }
  rewrite Hlen. unfold zlen at 1 2. rewrite Nat2Z.id.
  assert (Hbody : drop 16 (pcap_record p ++ rest) = frame p ++ rest).
  { unfold pcap_record. cbv zeta. rewrite <- !app_assoc.
    rewrite (app_assoc (le_bytes 4 _)), (app_assoc (_ ++ _)), (app_assoc ((_ ++ _) ++ _)).
    by rewrite drop_app_length' by (rewrite !length_app, !le_bytes_length; reflexivity). }
  rewrite <- drop_drop, Hbody, take_app_length, drop_app_length. f_equal. apply IH. cbn in Hl. lia.
Qed.

(** C32: the written capture file reads back: after the 24-byte global header a
    reader finds one record per packet, in order, whose captured length is the
    frame's and whose frame carries exactly the packet's payload. *)
Theorem pcap_roundtrip (ps : list packet_record_t) (d : list Z) :
  Forall (fun p => 0 <= protocol p < 256 /\ zlen (payload p) < 2 ^ 32 - 64) ps ->
  write_pcap true ps = Some d ->
  take 4 d = [212; 195; 178; 161] /\
  read_records (length ps) (drop 24 d) = frame <$> ps /\
  frame_payload <$> read_records (length ps) (drop 24 d) = payload <$> ps.
Proof.
  intros Hps. unfold write_pcap. intros E. apply (inj Some) in E. subst d.
  assert (Hr : read_records (length ps) (drop 24 (pcap_global ++ concat (pcap_record <$> ps))) = frame <$> ps).
  { rewrite drop_app_length' by reflexivity. apply read_records_concat; [|done].
    eapply Forall_impl; [exact Hps |]. intros p [_ Hp]. destruct (frame_split p) as (ip4 & -> & Hl).
    unfold zlen, eth_header in *. rewrite !length_app, !le_bytes_length, Hl. cbn [length].
    destruct (protocol p =? 17); lia. }
  split; [reflexivity |]. split; [exact Hr |]. rewrite Hr, <- list_fmap_compose. apply list_fmap_ext.
  intros i p Hp. apply frame_payload_frame. by apply (Forall_lookup_1 _ _ _ _ Hps Hp).
Qed.

Lemma pcap_roundtrip_witness :
  exists d, write_pcap true demo_history = Some d /\
    frame_payload <$> read_records (length demo_history) (drop 24 d) = payload <$> demo_history.
Proof.
  eexists. split; [reflexivity |]. apply (pcap_roundtrip demo_history); [|reflexivity].
  repeat constructor; vm_compute; (discriminate || reflexivity).
Defined.

(** Multi-byte header constants are written in host order: the frame type reads
    0x0008 and the fragment field 0x0040 on the wire. *)
Lemma ethertype_byte_order p : take 2 (drop 12 (frame p)) = [0; 8] /\ take 2 (drop 20 (frame p)) = [0; 64].
Proof. done. Qed.
