(* ===== verification/Pool.v ===== *)
(** * The worker pool: src/core/infra/work_queue.cpp

    The queue operations as functions on the pool state, and [parallel_for] as a
    step relation: the caller, the tasks it submits, the cancelling thread and a
    [stop] interleave at every access to a shared atomic.  A worker takes a queued
    task as soon as the scheduler likes; the caller asleep on the condition variable
    is woken by a notification or spuriously; [stop] drops the tasks still queued. *)

From S2P Require Import Prelude Reader.

#[local] Open Scope Z_scope.

(** ** The queue *)

Section Queue.
Context {Task : Type}.

Record pool_state_t := mk_pool {
  queue : list Task; stopping : bool; running_count : Z; completed_count : Z;
  rejected_count : Z; num_workers : Z
}.

Definition pool_queue_cap : Z := 4096.
Definition pool_max_workers : Z := 32.

(** [start]: the worker count; [hw] is what the hardware reports. *)
Definition start_workers (workers hw : Z) : Z :=
  Z.min (if workers =? 0 then Z.max 2 (if 1 <? hw then hw - 1 else 2) else workers) pool_max_workers.

Definition start (workers hw : Z) (p : pool_state_t) : pool_state_t :=
  mk_pool (queue p) false (running_count p) (completed_count p) (rejected_count p) (start_workers workers hw).

Definition submit (t : Task) (p : pool_state_t) : bool * pool_state_t :=
  let rejected := mk_pool (queue p) (stopping p) (running_count p) (completed_count p)
                    (u64 (rejected_count p + 1)) (num_workers p) in
  if stopping p then (false, rejected)
  else if pool_queue_cap <=? zlen (queue p) then (false, rejected)
  else (true, mk_pool (queue p ++ [t]) (stopping p) (running_count p) (completed_count p)
                (rejected_count p) (num_workers p)).

(** What a worker finds under the lock. *)
Inductive worker_wait := Blocked | Exit | Take (t : Task).

Definition worker_next (p : pool_state_t) : worker_wait * pool_state_t :=
  match queue p with
  | [] => (if stopping p then Exit else Blocked, p)
  | t :: q => (Take t, mk_pool q (stopping p) (running_count p) (completed_count p) (rejected_count p) (num_workers p))
  end.

Definition task_begin (p : pool_state_t) : pool_state_t :=
  mk_pool (queue p) (stopping p) (u32 (running_count p + 1)) (completed_count p) (rejected_count p) (num_workers p).
Definition task_end (p : pool_state_t) : pool_state_t :=
  mk_pool (queue p) (stopping p) (u32 (running_count p - 1)) (u64 (completed_count p + 1)) (rejected_count p) (num_workers p).

(** [stop]: the flag, then (after joining the workers) the queue is dropped. *)
Definition stop_begin (p : pool_state_t) : pool_state_t :=
  mk_pool (queue p) true (running_count p) (completed_count p) (rejected_count p) (num_workers p).
Definition stop_end (p : pool_state_t) : pool_state_t :=
  mk_pool [] (stopping p) (running_count p) (completed_count p) (rejected_count p) (num_workers p).

Record stats_t := mk_stats { workers : Z; queued : Z; running : Z; completed : Z; rejected : Z }.
Definition snapshot (p : pool_state_t) : stats_t :=
  mk_stats (num_workers p) (u32 (zlen (queue p))) (running_count p) (completed_count p) (rejected_count p).
End Queue.
Arguments pool_state_t : clear implicits.
Arguments worker_wait : clear implicits.

(** ** [parallel_for] *)

(** The serial fallback: the indices run, polling the token before each. *)
Fixpoint serial (n : nat) (i : Z) (tok : cancel_token_t) : list Z :=
  match n with
  | O => []
  | S n' => let '(stop, tok) := cancelled tok in if stop then [] else i :: serial n' (i + 1) tok
  end.

(** How a call runs: nothing, serially, or with that many tasks. *)
Inductive plan_t := Nothing | Serial | Spawn (n : Z).

Definition plan (count max_workers num_workers : Z) : plan_t :=
  if count =? 0 then Nothing
  else
    let n := if max_workers =? 0 then num_workers else Z.min max_workers num_workers in
    if (n <=? 1) || (count =? 1) then Serial else Spawn (Z.min n (u32 count)).

(** Program points of one task: queued, polling the token, claiming an index, running
    the body, counting itself done, notifying, gone; dropped by [stop] while queued. *)
Inductive pc_t := Queued | AtTok | AtFetch | AtBody (i : Z) | AtCount | AtNotify | Gone | Dropped.

#[export] Instance pc_eq_dec : EqDecision pc_t.
Proof. solve_decision. Defined.

(** The caller: submitting slot [s]; running slot [s] itself because the queue
    refused it; evaluating the predicate; found it false; blocked; returned.  The flag
    says whether a notification was sent since the predicate was found false. *)
Inductive waiter_t :=
  | Submitting (s : nat) | Inline (s : nat) | Testing | Falling (missed : bool) | Sleeping (missed : bool) | Returned.

(** [notify_one]: it wakes a caller that is blocked, and no other. *)
Definition notify (w : waiter_t) : waiter_t :=
  match w with Sleeping _ => Testing | Falling _ => Falling true | w => w end.

(** The clearing of the queue at the end of [stop]. *)
Definition drop_queued (pc : pc_t) : pc_t := match pc with Queued => Dropped | pc => pc end.

Record pf_state := mk_pf {
  next_index : Z; workers_done : Z; pcs : list pc_t; waiter : waiter_t;
  runs : list (Z * nat);  (** the body calls made, index and slot *)
  cancel : bool
}.

Definition pf_init : pf_state := mk_pf 0 0 [] (Submitting 0) [] false.

Section ParallelFor.
Variables (count : Z) (spawn : nat).

(** One step of the task in [slot]. *)
Definition task_step (slot : nat) (s : pf_state) : option pf_state :=
  let goto pc := <[slot := pc]> (pcs s) in
  match pcs s !! slot with
  | Some Queued =>
      Some (mk_pf (next_index s) (workers_done s) (goto AtTok) (waiter s) (runs s) (cancel s))
  | Some AtTok =>
      Some (mk_pf (next_index s) (workers_done s) (goto (if cancel s then AtCount else AtFetch)) (waiter s) (runs s) (cancel s))
  | Some AtFetch =>
      let idx := next_index s in
      Some (mk_pf (idx + 1) (workers_done s) (goto (if count <=? idx then AtCount else AtBody idx)) (waiter s) (runs s) (cancel s))
  | Some (AtBody i) =>
      Some (mk_pf (next_index s) (workers_done s) (goto AtTok) (waiter s) (runs s ++ [(i, slot)]) (cancel s))
  | Some AtCount =>
      Some (mk_pf (next_index s) (workers_done s + 1) (goto AtNotify) (waiter s) (runs s) (cancel s))
  | Some AtNotify =>
      Some (mk_pf (next_index s) (workers_done s) (goto Gone)
              (notify (waiter s)) (runs s) (cancel s))
  | Some Gone | Some Dropped | None => None
  end.

(** The caller's and the tasks' own steps. *)
Inductive work : pf_state -> pf_state -> Prop :=
| work_submit s n (refused : bool) :
    waiter s = Submitting n -> (n < spawn)%nat ->
    work s (mk_pf (next_index s) (workers_done s) (pcs s ++ [if refused then AtTok else Queued])
              (if refused then Inline n else Submitting (S n)) (runs s) (cancel s))
| work_inline_done s n :
    waiter s = Inline n -> pcs s !! n = Some Gone ->
    work s (mk_pf (next_index s) (workers_done s) (pcs s) (Submitting (S n)) (runs s) (cancel s))
| work_submitted s :
    waiter s = Submitting spawn ->
    work s (mk_pf (next_index s) (workers_done s) (pcs s) Testing (runs s) (cancel s))
| work_test s :
    waiter s = Testing ->
    work s (mk_pf (next_index s) (workers_done s) (pcs s)
              (if Z.of_nat spawn <=? workers_done s then Returned else Falling false) (runs s) (cancel s))
| work_block s missed :
    waiter s = Falling missed ->
    work s (mk_pf (next_index s) (workers_done s) (pcs s) (Sleeping missed) (runs s) (cancel s))
| work_task s slot s' : task_step slot s = Some s' -> work s s'.

(** Those of the threads around: a cancellation, the end of a [stop]. *)
Inductive env : pf_state -> pf_state -> Prop :=
| env_cancel s :
    env s (mk_pf (next_index s) (workers_done s) (pcs s) (waiter s) (runs s) true)
| env_stop s :
    env s (mk_pf (next_index s) (workers_done s) (drop_queued <$> pcs s) (waiter s) (runs s) (cancel s)).

(** A spurious wake-up of the caller. *)
Inductive wake : pf_state -> pf_state -> Prop :=
| wake_spurious s missed :
    waiter s = Sleeping missed ->
    wake s (mk_pf (next_index s) (workers_done s) (pcs s) Testing (runs s) (cancel s)).

Inductive step (s s' : pf_state) : Prop :=
| step_work : work s s' -> step s s'
| step_env : env s s' -> step s s'
| step_wake : wake s s' -> step s s'.

Definition reachable (s : pf_state) : Prop := rtc step pf_init s.
End ParallelFor.

(** ** Each index once *)

Definition body_of (pc : pc_t) : option Z := match pc with AtBody i => Some i | _ => None end.
Definition counted (pc : pc_t) : bool := match pc with AtNotify | Gone => true | _ => false end.
Definition leaving (pc : pc_t) : bool := match pc with AtCount | AtNotify | Gone => true | _ => false end.

(** The number of slots submitted when the caller is at [w]. *)
Definition submitted (spawn : nat) (w : waiter_t) : nat :=
  match w with Submitting n => n | Inline n => S n | _ => spawn end.

Record pf_inv (count : Z) (spawn : nat) (s : pf_state) : Prop := mk_inv {
  inv_next : 0 <= next_index s;
  inv_claimed : (fst <$> runs s) ++ omap body_of (pcs s) ≡ₚ seqZ 0 (Z.min (next_index s) count);
  inv_done : workers_done s = zlen (List.filter counted (pcs s));
  inv_leaving : forall i pc, pcs s !! i = Some pc -> leaving pc = true -> cancel s = true \/ count <= next_index s;
  inv_slots : length (pcs s) = submitted spawn (waiter s) /\ (length (pcs s) <= spawn)%nat;
  inv_returned : waiter s = Returned -> Z.of_nat spawn <= workers_done s;
  inv_runs : Forall (fun r => (r.2 < length (pcs s))%nat) (runs s);
  inv_inline : forall n pc, waiter s = Inline n -> pcs s !! n = Some pc -> pc <> Queued /\ pc <> Dropped;
  inv_asleep : waiter s = Falling false \/ waiter s = Sleeping false -> Exists (fun pc => pc <> Gone) (pcs s)
}.

Lemma pcs_split (pcs : list pc_t) i old :
  pcs !! i = Some old ->
  exists l k, pcs = l ++ old :: k /\ length l = i /\ forall new, <[i := new]> pcs = l ++ new :: k.
Proof.
  intros H. exists (take i pcs), (drop (S i) pcs).
  assert (Hi : (i < length pcs)%nat) by (eapply lookup_lt_Some; eauto). split_and!.
  - by rewrite take_drop_middle.
  - rewrite length_take. lia.
  - intros new. by apply insert_take_drop.
Qed.

Lemma counted_filter_app l (pc : pc_t) k :
  zlen (List.filter counted (l ++ pc :: k)) =
    zlen (List.filter counted l) + zlen (List.filter counted k) + (if counted pc then 1 else 0).
Proof.
  rewrite List.filter_app, zlen_app. cbn [List.filter]. unfold zlen. destruct (counted pc); cbn [length]; lia.
Qed.

Lemma seqZ_next i count :
  0 <= i < count -> seqZ 0 (Z.min (i + 1) count) = seqZ 0 (Z.min i count) ++ [i].
Proof.
  intros Hi. replace (Z.min (i + 1) count) with (Z.min i count + 1) by lia.
  rewrite seqZ_app by lia. rewrite Z.min_l by lia. done.
Qed.

Lemma task_inv count spawn slot s s' :
  0 <= count -> pf_inv count spawn s -> task_step count slot s = Some s' -> pf_inv count spawn s'.
Proof.
  intros Hc [H1 H2 H3 H4 H5 H6 H7 H8 H9]. unfold task_step. destruct (pcs s !! slot) as [pc|] eqn:Epc; [|done].
  destruct (pcs_split _ _ _ Epc) as (l & k & Ep & Hl & Hins).
  assert (Hlen : forall new, length (<[slot := new]> (pcs s)) = length (pcs s)) by (intros; apply length_insert).
  rewrite Ep, omap_app in H2. rewrite Ep, counted_filter_app in H3. cbn [omap list_omap] in H2.
  assert (Hleave : forall new s0, cancel s0 = cancel s -> next_index s <= next_index s0 ->
    (leaving new = true -> leaving pc = true \/ cancel s0 = true \/ count <= next_index s0) ->
    forall i p, <[slot := new]> (pcs s) !! i = Some p -> leaving p = true -> cancel s0 = true \/ count <= next_index s0).
  { intros new s0 Hcs Hn Hnew i p Hi Hp. apply list_lookup_insert_Some in Hi as [(_ & <- & _)|[_ Hi]].
    - destruct (Hnew Hp) as [Hpc|]; [|done]. rewrite Hcs. destruct (H4 slot pc Epc Hpc); [by left | right; lia].
    - rewrite Hcs. destruct (H4 i p Hi Hp); [by left | right; lia]. }
  assert (Hinl : forall new, new <> Queued -> new <> Dropped -> forall n p,
    waiter s = Inline n -> <[slot := new]> (pcs s) !! n = Some p -> p <> Queued /\ p <> Dropped).
  { intros new N1 N2 n p Hw Hp. apply list_lookup_insert_Some in Hp as [(_ & <- & _)|[_ Hp]]; [by split | by eapply H8]. }
  assert (Hasl : forall new (P : Prop), new <> Gone -> P -> Exists (fun pc => pc <> Gone) (<[slot := new]> (pcs s))).
  { intros new P N _. apply Exists_exists. exists new. split; [|done].
    apply (list_elem_of_lookup_2 _ slot), list_lookup_insert_eq. by eapply lookup_lt_Some. }
  destruct pc; intros E; try discriminate E; apply (inj Some) in E; subst s'; constructor;
    cbn [next_index workers_done pcs waiter runs cancel]; rewrite ?Hlen; try done; try lia;
    try (apply Hleave; cbn; try lia; try done; fail);
    try (apply Hinl; by repeat case_match); try (eapply Hasl; by repeat case_match).
  - rewrite Hins, omap_app. exact H2.
  - rewrite Hins, counted_filter_app, H3. done.
  - rewrite Hins, omap_app. cbn [omap list_omap body_of] in *. by destruct (cancel s).
  - rewrite Hins, counted_filter_app, H3. by destruct (cancel s).
  - intros i p. eapply (Hleave _ s); [done | done |]. destruct (cancel s); [by right; left | done].
  - rewrite Hins, omap_app. cbn [omap list_omap body_of] in *.
    destruct (Z.leb_spec count (next_index s)); cbn [body_of].
    + rewrite H2. by rewrite !Z.min_r by lia.
    + rewrite seqZ_next by lia. rewrite <- H2. solve_Permutation.
  - rewrite Hins, counted_filter_app, H3. by destruct (count <=? next_index s).
  - set (s0 := mk_pf (next_index s + 1) 0 [] Testing [] (cancel s)).
    intros i p. eapply (Hleave _ s0); [done | cbn; lia |]. cbn. destruct (Z.leb_spec count (next_index s)); [right; right; lia | done].
  - rewrite Hins, omap_app, fmap_app. cbn [omap list_omap body_of fmap list_fmap] in *. rewrite <- H2. solve_Permutation.
  - rewrite Hins, counted_filter_app, H3. done.
  - apply Forall_app. split; [done |]. constructor; [|constructor]. cbn. eapply lookup_lt_Some, Epc.
  - rewrite Hins, omap_app. exact H2.
  - rewrite Hins, counted_filter_app, H3. cbn. lia.
  - intros Hw. specialize (H6 Hw). lia.
  - rewrite Hins, omap_app. exact H2.
  - rewrite Hins, counted_filter_app, H3. done.
  - destruct (waiter s); exact H5.
  - destruct (waiter s); done.
  - intros n p Hw. apply Hinl; [done.. |]. by destruct (waiter s).
  - intros [Hw|Hw]; by destruct (waiter s).
Qed.

Lemma drop_omap (l : list pc_t) : omap body_of (drop_queued <$> l) = omap body_of l.
Proof. induction l as [|pc l IH]; [done |]. cbn. rewrite IH. by destruct pc. Qed.

Lemma drop_counted (l : list pc_t) : length (List.filter counted (drop_queued <$> l)) = length (List.filter counted l).
Proof. induction l as [|pc l IH]; [done |]. cbn. destruct pc; cbn; by rewrite ?IH. Qed.

(** A [stop] drops what no worker has begun. *)
Lemma stop_inv count spawn s :
  pf_inv count spawn s ->
  pf_inv count spawn (mk_pf (next_index s) (workers_done s) (drop_queued <$> pcs s) (waiter s) (runs s) (cancel s)).
Proof.
  intros [H1 H2 H3 H4 H5 H6 H7 H8 H9].
  assert (Hback : forall i p, (drop_queued <$> pcs s) !! i = Some p -> exists q, pcs s !! i = Some q /\ p = drop_queued q).
  { intros i p Hp. rewrite list_lookup_fmap in Hp. destruct (pcs s !! i) as [q|]; [|done]. injection Hp as <-. by exists q. }
  constructor; cbn [next_index workers_done pcs waiter runs cancel]; rewrite ?length_fmap; try done.
  - by rewrite drop_omap.
  - rewrite H3. unfold zlen. by rewrite drop_counted.
  - intros i p (q & Hq & ->)%Hback Hp. apply (H4 i q Hq). by destruct q.
  - intros n p Hw (q & Hq & ->)%Hback. destruct (H8 n q Hw Hq). by destruct q.
  - intros Hw. apply H9, Exists_exists in Hw as (q & Hq & Nq). apply Exists_exists. exists (drop_queued q).
    split; [by apply list_elem_of_fmap_2 | by destruct q].
Qed.

Lemma work_inv count spawn s s' :
  0 <= count -> pf_inv count spawn s -> work count spawn s s' -> pf_inv count spawn s'.
Proof.
  intros Hc Hinv Hwork. pose proof Hinv as [H1 H2 H3 H4 H5 H6 H7 H8 H9].
  destruct Hwork as [s n refused Hw Hn|s n Hw Hg|s Hw|s Hw|s m Hw|s slot s' E]; [| | | | |by eapply task_inv];
    constructor; cbn [next_index workers_done pcs waiter runs cancel]; try done;
    rewrite ?Hw in H5; cbn [submitted] in *; try (by rewrite Hw in H6); try done; try (by intros [?|?]).
  - rewrite omap_app. cbn. destruct refused; cbn; by rewrite app_nil_r.
  - rewrite List.filter_app. cbn. destruct refused; cbn; by rewrite app_nil_r.
  - intros i pc Hi Hp. apply lookup_app_Some in Hi as [Hi|[_ Hi]]; [by eapply H4 |].
    apply list_lookup_singleton_Some in Hi as [_ <-]. by destruct refused.
  - rewrite length_app. cbn. destruct refused; cbn; lia.
  - by destruct refused.
  - rewrite length_app. eapply Forall_impl; [exact H7 |]. intros r Hr. cbn in *. lia.
  - intros k pc. destruct refused; [|done]. intros [= ->] Hp. destruct H5 as [H5 _].
    apply lookup_app_Some in Hp as [Hp|[_ Hp]]; [apply lookup_lt_Some in Hp; lia |].
    apply list_lookup_singleton_Some in Hp as [_ <-]. done.
  - destruct refused; by intros [?|?].
  - destruct (Z.leb_spec (Z.of_nat spawn) (workers_done s)); exact H5.
  - destruct (Z.leb_spec (Z.of_nat spawn) (workers_done s)); done.
  - intros n pc. by destruct (_ <=? _).
  - intros Hs. destruct (Z.leb_spec (Z.of_nat spawn) (workers_done s)); [by destruct Hs |].
    apply not_Forall_Exists; [apply _ |]. intros Hall.
    assert (Hf : List.filter counted (pcs s) = pcs s).
    { clear -Hall. induction Hall as [|pc l -> Hl IH]; [done |]. cbn. by rewrite IH. }
    rewrite Hf in H3. unfold zlen in H3. lia.
  - intros [Hs|Hs]; [done |]. injection Hs as ->. apply H9. by left.
Qed.

Lemma step_inv count spawn s s' :
  0 <= count -> pf_inv count spawn s -> step count spawn s s' -> pf_inv count spawn s'.
Proof.
  intros Hc Hinv [Hw|He|Hk]; [by eapply work_inv | |].
  - destruct He as [s|s]; [|by apply stop_inv]. destruct Hinv as [H1 H2 H3 H4 H5 H6 H7 H8 H9]. constructor; try done. by left.
  - destruct Hk as [s m Hw]. destruct Hinv as [H1 H2 H3 H4 H5 H6 H7 H8 H9]. rewrite Hw in H5. constructor; try done.
    by intros [?|?].
Qed.

Lemma init_inv count spawn : 0 <= count -> pf_inv count spawn pf_init.
Proof.
  intros Hc. constructor; cbn; try done; try lia.
  - by rewrite Z.min_l by lia.
  - by intros [?|?].
Qed.

Lemma reachable_inv count spawn s : 0 <= count -> reachable count spawn s -> pf_inv count spawn s.
Proof.
  intros Hc Hr. assert (H : pf_inv count spawn pf_init) by by apply init_inv. revert H.
  induction Hr as [s|s1 s2 s3 Hs Hr IH]; [done |]. intros H. apply IH. by eapply step_inv.
Qed.

Lemma filter_full {A} (f : A -> bool) (l : list A) :
  (length l <= length (List.filter f l))%nat -> Forall (fun x => f x = true) l.
Proof.
  induction l as [|x l IH]; cbn; [by constructor |]. pose proof (filter_length_le f l).
  destruct (f x) eqn:E; cbn; intros Hl; [constructor; [done | apply IH; lia] | lia].
Qed.

(** C33: in every interleaving of the tasks, the caller, the canceller, the [stop]s of
    the pool and spurious wake-ups, for a count that spawns at least one task, the body
    runs at most once for an index, the indices run are below the count, each in
    the slot of a submitted task; and when [parallel_for] has returned, they are
    exactly a prefix [0..k-1], which is all of them unless the token was
    cancelled. *)
Theorem parallel_for_each_index_once (count : Z) (spawn : nat) (s : pf_state) :
  0 < count -> (0 < spawn)%nat -> reachable count spawn s ->
  NoDup (fst <$> runs s) /\ Forall (fun r => 0 <= r.1 < count /\ (r.2 < spawn)%nat) (runs s) /\
  (waiter s = Returned ->
   exists k, fst <$> runs s ≡ₚ seqZ 0 k /\ (cancel s = false -> k = count)).
Proof.
  intros Hc Hs Hr. destruct (reachable_inv count spawn s ltac:(lia) Hr) as [H1 H2 H3 H4 [H5 H5'] H6 H7 _ _].
  assert (Hnd : NoDup ((fst <$> runs s) ++ omap body_of (pcs s))) by (rewrite H2; apply NoDup_seqZ).
  split; [by apply NoDup_app in Hnd as [? _] |]. split.
  - apply Forall_forall. intros r Hrun. split.
    + assert (Hin : r.1 ∈ seqZ 0 (Z.min (next_index s) count)).
      { rewrite <- H2. apply elem_of_app. left. by apply list_elem_of_fmap_2. }
      apply elem_of_seqZ in Hin. lia.
    + rewrite Forall_forall in H7. specialize (H7 r Hrun). cbn in H7. lia.
  - intros Hw. rewrite Hw in H5. cbn in H5. specialize (H6 Hw). rewrite H3 in H6. unfold zlen in H6.
    assert (Hall : Forall (fun pc => counted pc = true) (pcs s)) by (apply filter_full; lia).
    assert (Hb : omap body_of (pcs s) = []).
    { clear -Hall. induction Hall as [|pc l Hpc Hl IH]; [done |]. cbn. destruct pc; done. }
    rewrite Hb, app_nil_r in H2. exists (Z.min (next_index s) count). split; [exact H2 |].
    intros Hcan. destruct (pcs s) as [|pc l] eqn:Ep; [cbn in H5; lia |].
    inversion Hall as [|? ? Hpc _]; subst. destruct (H4 0%nat pc eq_refl) as [|]; [by destruct pc | congruence | lia].
Qed.

(** ** Progress *)

(** Work left: every step of the caller and the tasks decreases it, a spurious
    wake-up adds two. *)
Definition pc_weight (pc : pc_t) : nat :=
  match pc with
  | Queued => 8 | AtTok => 7 | AtFetch => 6 | AtBody _ => 8 | AtCount => 5 | AtNotify => 4 | Gone | Dropped => 0
  end.
Definition waiter_weight (spawn : nat) (w : waiter_t) : nat :=
  match w with
  | Submitting n => 11 * (spawn - n) + 4
  | Inline n => 11 * (spawn - S n) + 5
  | Testing => 3 | Falling _ => 2 | Sleeping _ => 1 | Returned => 0
  end.
Definition weight (count : Z) (spawn : nat) (s : pf_state) : nat :=
  3 * Z.to_nat (count - next_index s) + sum_list_with pc_weight (pcs s) + waiter_weight spawn (waiter s).

Lemma weight_insert pcs i old new :
  pcs !! i = Some old ->
  (sum_list_with pc_weight (<[i := new]> pcs) + pc_weight old = sum_list_with pc_weight pcs + pc_weight new)%nat.
Proof.
  intros H. destruct (pcs_split _ _ _ H) as (l & k & E & _ & Hins). rewrite Hins, E.
  rewrite !sum_list_with_app. cbn [sum_list_with]. lia.
Qed.

Lemma task_weight count spawn slot s s' :
  task_step count slot s = Some s' -> (weight count spawn s' < weight count spawn s)%nat.
Proof.
  unfold task_step. intros E. destruct (pcs s !! slot) as [pc|] eqn:Epc; [|done].
  destruct pc; try discriminate E; apply (inj Some) in E; subst s'; unfold weight; cbn [next_index pcs waiter].
  - pose proof (weight_insert _ _ _ AtTok Epc) as Hw. cbn [pc_weight] in Hw. lia.
  - pose proof (weight_insert _ _ _ (if cancel s then AtCount else AtFetch) Epc) as Hw. cbn [pc_weight] in Hw.
    destruct (cancel s); cbn [pc_weight] in Hw; lia.
  - pose proof (weight_insert _ _ _ (if count <=? next_index s then AtCount else AtBody (next_index s)) Epc) as Hw.
    destruct (Z.leb_spec count (next_index s)); cbn [pc_weight] in Hw; lia.
  - pose proof (weight_insert _ _ _ AtTok Epc) as Hw. cbn [pc_weight] in Hw. lia.
  - pose proof (weight_insert _ _ _ AtNotify Epc) as Hw. cbn [pc_weight] in Hw. lia.
  - pose proof (weight_insert _ _ _ Gone Epc) as Hw. cbn [pc_weight] in Hw.
    destruct (waiter s); cbn [notify waiter_weight]; lia.
Qed.

Lemma work_weight count spawn s s' :
  work count spawn s s' -> (weight count spawn s' < weight count spawn s)%nat.
Proof.
  intros Hwork. destruct Hwork as [s n refused Hw Hn|s n Hw Hg|s Hw|s Hw|s m Hw|s slot s' E]; [| | | | |by eapply task_weight];
    unfold weight; cbn [next_index pcs waiter]; rewrite ?Hw.
  - rewrite sum_list_with_app. cbn [sum_list_with]. destruct refused; cbn [waiter_weight pc_weight]; lia.
  - cbn [waiter_weight]. lia.
  - cbn [waiter_weight]. lia.
  - destruct (_ <=? _); cbn [waiter_weight]; lia.
  - cbn [waiter_weight]. lia.
Qed.

Lemma env_weight count spawn s s' : env s s' -> (weight count spawn s' <= weight count spawn s)%nat.
Proof.
  intros [s1|s1]; unfold weight; cbn [next_index pcs waiter]; [lia |].
  assert (sum_list_with pc_weight (drop_queued <$> pcs s1) <= sum_list_with pc_weight (pcs s1))%nat; [|lia].
  induction (pcs s1) as [|pc l IH]; [done |]. cbn [fmap list_fmap sum_list_with].
  assert (pc_weight (drop_queued pc) <= pc_weight pc)%nat by (destruct pc; cbn; lia). unfold fmap in *. lia.
Qed.

(** An execution with [n] steps of the caller and the tasks, and [k] spurious
    wake-ups. *)
Inductive exec (count : Z) (spawn : nat) : nat -> nat -> pf_state -> Prop :=
| exec_init : exec count spawn 0 0 pf_init
| exec_work n k s s' : exec count spawn n k s -> work count spawn s s' -> exec count spawn (S n) k s'
| exec_env n k s s' : exec count spawn n k s -> env s s' -> exec count spawn n k s'
| exec_wake n k s s' : exec count spawn n k s -> wake s s' -> exec count spawn n (S k) s'.

Lemma exec_inv count spawn n k s : 0 <= count -> exec count spawn n k s -> pf_inv count spawn s.
Proof.
  intros Hc. induction 1 as [|n k s s' _ IH Hw|n k s s' _ IH He|n k s s' _ IH Hk]; [by apply init_inv | ..];
    eapply step_inv; eauto using step.
Qed.

Lemma exec_weight count spawn n k s :
  exec count spawn n k s -> (n + weight count spawn s <= weight count spawn pf_init + 2 * k)%nat.
Proof.
  induction 1 as [|n k s s' _ IH Hw|n k s s' _ IH He|n k s s' _ IH Hk]; [lia | ..].
  - apply work_weight in Hw. lia.
  - apply (env_weight count spawn) in He. lia.
  - destruct Hk as [s m Hw]. unfold weight in *. cbn [next_index pcs waiter waiter_weight] in *. rewrite Hw in IH.
    cbn [waiter_weight] in IH. lia.
Qed.

(** Every task has ended, and the last notification was sent between the caller's
    test of the predicate and its falling asleep. *)
Definition lost_wakeup (s : pf_state) : Prop :=
  waiter s = Sleeping true /\ Forall (fun pc => pc = Gone) (pcs s).

(** The caller sleeps and waits for a task that [stop] dropped. *)
Definition abandoned (s : pf_state) : Prop :=
  (exists m, waiter s = Sleeping m) /\ Dropped ∈ pcs s /\ Forall (fun pc => pc = Gone \/ pc = Dropped) (pcs s).

Lemma task_enabled count slot s pc :
  pcs s !! slot = Some pc -> pc <> Gone -> pc <> Dropped -> is_Some (task_step count slot s).
Proof. intros Hi N1 N2. unfold task_step. rewrite Hi. by destruct pc; eauto. Qed.

Lemma progress count spawn s :
  pf_inv count spawn s ->
  waiter s = Returned \/ lost_wakeup s \/ abandoned s \/ exists s', work count spawn s s'.
Proof.
  intros [_ _ _ _ [H5 H5'] _ _ H8 H9].
  destruct (decide (Forall (fun pc => pc = Gone \/ pc = Dropped) (pcs s))) as [Hg|Hg].
  - destruct (waiter s) as [n|n| |m|m|] eqn:Hw; cbn in H5; [| | | | |by left]; right.
    + do 2 right. destruct (decide (n = spawn)) as [->|]; eexists.
      * by apply work_submitted.
      * apply (work_submit _ _ s n false); [done | lia].
    + do 2 right. eexists. apply (work_inline_done _ _ s n Hw).
      destruct (lookup_lt_is_Some_2 (pcs s) n) as [pc Hpc]; [lia |]. rewrite Hpc. f_equal.
      destruct (H8 n pc eq_refl Hpc). by destruct (Forall_lookup_1 _ _ _ _ Hg Hpc).
    + do 2 right. eexists. by apply work_test.
    + do 2 right. eexists. by eapply work_block.
    + destruct (decide (Dropped ∈ pcs s)) as [Hd|Hd].
      { right. left. split; [by eexists |]. by split. }
      left. assert (Hall : Forall (fun pc => pc = Gone) (pcs s)).
      { apply Forall_forall. intros pc Hpc. destruct (proj1 (Forall_forall _ _) Hg pc Hpc) as [| ->]; done. }
      split; [|done]. destruct m; [done |]. specialize (H9 (or_intror eq_refl)).
      apply Exists_exists in H9 as (pc & Hpc & N). by apply (proj1 (Forall_forall _ _) Hall) in Hpc.
  - do 3 right. apply not_Forall_Exists in Hg; [|apply _]. apply Exists_exists in Hg as (pc & Hin & Hpc).
    apply list_elem_of_lookup in Hin as [i Hi].
    destruct (task_enabled count i s pc Hi) as [s' Hs]; [naive_solver.. |]. exists s'. by eapply work_task.
Qed.

(** C34: whatever the interleaving of the caller, the tasks, a cancellation, the
    [stop]s of the pool and [k] spurious wake-ups, [parallel_for] and its tasks make at
    most [3 count + 11 spawn + 4 + 2 k] steps, and one of them can make a step unless
    the caller has returned, or sleeps after a notification that was sent between its
    test of the predicate and its falling asleep, with every task ended, or sleeps
    waiting for a task that a [stop] dropped from the queue. *)
Theorem parallel_for_terminates (count : Z) (spawn n k : nat) (s : pf_state) :
  0 <= count -> exec count spawn n k s ->
  (n <= 3 * Z.to_nat count + 11 * spawn + 4 + 2 * k)%nat /\
  (waiter s = Returned \/ lost_wakeup s \/ abandoned s \/ exists s', work count spawn s s').
Proof.
  intros Hc Hn. split; [|by eapply progress, exec_inv].
  apply exec_weight in Hn. unfold weight at 2 in Hn. cbn in Hn. rewrite Z.sub_0_r in Hn. lia.
Qed.

(** ** The condition variable *)

(** Replaying a schedule: the task to step, or the caller. *)
Inductive act := Task (slot : nat) | Caller.

Definition caller_step (spawn : nat) (s : pf_state) : option pf_state :=
  let to w := Some (mk_pf (next_index s) (workers_done s) (pcs s) w (runs s) (cancel s)) in
  match waiter s with
  | Submitting n =>
      if (n <? spawn)%nat
      then Some (mk_pf (next_index s) (workers_done s) (pcs s ++ [Queued]) (Submitting (S n)) (runs s) (cancel s))
      else if (n =? spawn)%nat then to Testing else None
  | Inline n => None
  | Testing => to (if Z.of_nat spawn <=? workers_done s then Returned else Falling false)
  | Falling m => to (Sleeping m)
  | Sleeping _ | Returned => None
  end.

Definition run_act (count : Z) (spawn : nat) (s : pf_state) (a : act) : option pf_state :=
  match a with Task i => task_step count i s | Caller => caller_step spawn s end.

Fixpoint replay (count : Z) (spawn : nat) (s : pf_state) (l : list act) : option pf_state :=
  match l with [] => Some s | a :: l' => s' ← run_act count spawn s a; replay count spawn s' l' end.

Lemma run_act_step count spawn s a s' : run_act count spawn s a = Some s' -> step count spawn s s'.
Proof.
  intros E. apply step_work. revert E.
  destruct a as [i|]; cbn [run_act]; [by apply work_task |]. unfold caller_step.
  destruct (waiter s) as [n|n| |m|m|] eqn:Hw; try done.
  - destruct (Nat.ltb_spec n spawn).
    + intros E. apply (inj Some) in E. subst s'. by apply (work_submit _ _ s n false).
    + destruct (Nat.eqb_spec n spawn) as [->|]; [|done]. intros E. apply (inj Some) in E. subst s'. by apply work_submitted.
  - intros E. apply (inj Some) in E. subst s'. by apply work_test.
  - intros E. apply (inj Some) in E. subst s'. by apply work_block.
Qed.

Lemma replay_reachable count spawn l s s' :
  replay count spawn s l = Some s' -> rtc (step count spawn) s s'.
Proof.
  revert s. induction l as [|a l IH]; intros s; cbn.
  - intros E. apply (inj Some) in E. by subst s'.
  - destruct (run_act count spawn s a) as [s1|] eqn:E; [|done]. cbn. intros H.
    eapply rtc_l; [by eapply run_act_step | by apply IH].
Qed.

(** Two tasks over two indices: both are submitted, the caller finds the predicate
    false, both tasks run to the end, then the caller blocks. *)
Definition lost_schedule : list act :=
  replicate 4 Caller ++ replicate 11 (Task 0) ++ replicate 5 (Task 1) ++ [Caller].
(** The second task has counted itself when the caller tests. *)
Definition dangling_schedule : list act :=
  replicate 3 Caller ++ replicate 11 (Task 0) ++ replicate 4 (Task 1) ++ [Caller].

(** [workers_done] is incremented and the condition variable notified without
    the waiter's mutex: there is an interleaving that leaves the caller asleep
    although every task has finished, with nothing but a spurious wake-up to end its
    sleep, and one in which the caller has
    returned, ending the life of the condition variable, while a task is about to
    notify it. *)
Lemma parallel_for_lost_wakeup :
  (exists s, reachable 2 2 s /\ lost_wakeup s /\ workers_done s = 2 /\ length (runs s) = 2%nat /\
     forall s', work 2 2 s s' \/ env s s' -> lost_wakeup s') /\
  (exists s, reachable 2 2 s /\ waiter s = Returned /\ AtNotify ∈ pcs s).
Proof.
  split.
  - eexists. split; [apply (replay_reachable 2 2 lost_schedule); vm_compute; reflexivity |].
    split; [split; [reflexivity | repeat constructor] |]. split; [reflexivity |]. split; [reflexivity |].
    intros s' [Hs|Hs].
    + inversion Hs as [? n refused Hw|? n Hw|? Hw|? Hw|? m Hw|? slot ? E]; subst; try discriminate Hw.
      destruct slot as [|[|slot]]; discriminate E.
    + inversion Hs; subst; (split; [reflexivity | repeat constructor]).
  - eexists. split; [apply (replay_reachable 2 2 dangling_schedule); vm_compute; reflexivity |].
    split; [reflexivity |]. right. left.
Qed.

Lemma parallel_for_each_index_once_witness :
  exists s, replay 2 2 pf_init dangling_schedule = Some s /\ NoDup (fst <$> runs s) /\
    exists k, fst <$> runs s ≡ₚ seqZ 0 k /\ k = 2.
Proof.
  eexists. split; [vm_compute; reflexivity |].
  match goal with |- NoDup (fst <$> runs ?s) /\ _ =>
    destruct (parallel_for_each_index_once 2 2 s) as (H1 & _ & H3);
      [lia | lia | apply (replay_reachable 2 2 dangling_schedule); vm_compute; reflexivity |]
  end.
  split; [exact H1 |]. destruct (H3 eq_refl) as (k & Hk & Hc). exists k. split; [exact Hk | exact (Hc eq_refl)].
Defined.

Lemma parallel_for_terminates_witness :
  exists s, exec 2 2 1 0 s /\ (1 <= 3 * Z.to_nat 2 + 11 * 2 + 4 + 2 * 0)%nat /\ (exists s', work 2 2 s s').
Proof.
  assert (H : exec 2 2 1 0 (mk_pf 0 0 [Queued] (Submitting 1) [] false)).
  { eapply exec_work; [apply exec_init |]. apply (work_submit 2 2 pf_init 0 false); [reflexivity | lia]. }
  eexists. split; [exact H |]. destruct (parallel_for_terminates 2 2 1 0 _ ltac:(lia) H) as [Hn [Hr|[[Hl _]|[[[m Hm] _]|Hs]]]].
  - discriminate Hr.
  - discriminate Hl.
  - discriminate Hm.
  - split; [exact Hn | exact Hs].
Defined.

(** A [stop] whose deadline passes drops the tasks still queued, and the caller of
    [parallel_for] that submitted them is not told: it sleeps for ever. *)
Lemma stop_abandons_caller : exists s, exec 2 2 5 0 s /\ abandoned s /\ ~ (exists s', work 2 2 s s').
Proof.
  exists (mk_pf 0 0 [Dropped; Dropped] (Sleeping false) [] false). split; [|split].
  - eapply (exec_work _ _ _ _ (mk_pf 0 0 [Dropped; Dropped] (Falling false) [] false)); [|by apply work_block].
    eapply (exec_work _ _ _ _ (mk_pf 0 0 [Dropped; Dropped] Testing [] false)); [|by apply work_test].
    eapply exec_env; [|apply (env_stop (mk_pf 0 0 [Queued; Queued] Testing [] false))].
    eapply (exec_work _ _ _ _ (mk_pf 0 0 [Queued; Queued] (Submitting 2) [] false)); [|by apply work_submitted].
    eapply (exec_work _ _ _ _ (mk_pf 0 0 [Queued] (Submitting 1) [] false)); [|apply (work_submit 2 2 (mk_pf 0 0 [Queued] (Submitting 1) [] false) 1 false); [done | lia]].
    eapply exec_work; [apply exec_init |]. apply (work_submit 2 2 pf_init 0 false); [done | lia].
  - split; [by eexists |]. split; [left |]. repeat constructor; by right.
  - intros [s' Hs]. inversion Hs as [? n refused Hw|? n Hw|? Hw|? Hw|? m Hw|? slot ? E]; subst; try discriminate Hw.
    destruct slot as [|[|slot]]; discriminate E.
Qed.

(** ** The queue's counts *)

(** The queue with the accepted tasks and the tasks taken, under any sequence of
    submissions, workers and a stop. *)
Record q_state (Task : Type) := mk_q { q_pool : pool_state_t Task; q_accepted : list Task; q_taken : list Task }.
Arguments mk_q {Task} _ _ _.
Arguments q_pool {Task} _.
Arguments q_accepted {Task} _.
Arguments q_taken {Task} _.

Inductive qstep {Task} (x : q_state Task) : q_state Task -> Prop :=
| q_submit t :
    let r := submit t (q_pool x) in
    qstep x (mk_q r.2 (if r.1 then q_accepted x ++ [t] else q_accepted x) (q_taken x))
| q_take t p : worker_next (q_pool x) = (Take t, p) -> qstep x (mk_q p (q_accepted x) (q_taken x ++ [t]))
| q_begin : qstep x (mk_q (task_begin (q_pool x)) (q_accepted x) (q_taken x))
| q_end : qstep x (mk_q (task_end (q_pool x)) (q_accepted x) (q_taken x))
| q_stop : qstep x (mk_q (stop_begin (q_pool x)) (q_accepted x) (q_taken x)).

Definition q_ok {Task} (x : q_state Task) : Prop :=
  q_accepted x = q_taken x ++ queue (q_pool x) /\ zlen (queue (q_pool x)) <= pool_queue_cap.

Lemma qstep_ok {Task} (x y : q_state Task) : q_ok x -> qstep x y -> q_ok y.
Proof.
  intros [H1 H2] [t|t p E| | |]; [| |done..]; unfold q_ok.
  - subst r. unfold submit. destruct (stopping (q_pool x)); cbn; [done |].
    destruct (Z.leb_spec pool_queue_cap (zlen (queue (q_pool x)))); cbn; [done |].
    rewrite zlen_app, H1, app_assoc. change (zlen [t]) with 1. split; [done | lia].
  - unfold worker_next in E. destruct (queue (q_pool x)) as [|t' q] eqn:Eq; [by destruct (stopping (q_pool x)) |].
    injection E as <- <-. cbn. rewrite H1, <- app_assoc. split; [done |]. unfold zlen in *. cbn [length] in H2. lia.
Qed.

(** Whatever the order of submissions, workers and a stop, the pool hands out
    the accepted tasks in the order of their submission, each once; those not yet
    handed out are the queue, which never exceeds its cap. *)
Lemma queue_is_fifo {Task} (n : Z) (x : q_state Task) :
  rtc qstep (mk_q (mk_pool [] false 0 0 0 n) [] []) x ->
  q_accepted x = q_taken x ++ queue (q_pool x) /\ zlen (queue (q_pool x)) <= pool_queue_cap.
Proof.
  intros Hr. change (q_ok x). assert (H0 : q_ok (mk_q (mk_pool (Task:=Task) [] false 0 0 0 n) [] [])).
  { unfold q_ok, zlen, pool_queue_cap. cbn. split; [done | lia]. }
  revert H0. induction Hr as [x|x y z Hs Hr IH]; [done |]. intros H0. apply IH. by eapply qstep_ok.
Qed.

Lemma queue_is_fifo_witness :
  rtc qstep (mk_q (mk_pool [] false 0 0 0 2) [] []) (mk_q (mk_pool [] false 0 0 0 2) [7%nat] [7%nat]) /\
  [7%nat] = [7%nat] ++ [].
Proof.
  assert (H : rtc qstep (mk_q (mk_pool [] false 0 0 0 2) [] []) (mk_q (mk_pool [] false 0 0 0 2) [7%nat] [7%nat])).
  { eapply rtc_l; [apply (q_submit _ 7%nat) |]. eapply rtc_l; [apply q_take; reflexivity |]. apply rtc_refl. }
  split; [exact H |]. destruct (queue_is_fifo 2 _ H) as [E _]. exact E.
Defined.
