(* ===== verification/Jobs.v ===== *)
(** * Background jobs: src/core/infra/jobs.cpp

    Each job has its own thread; the coordinator's operations take [g_mu] and a
    job's fields are under its own [mu].  Short critical sections are single
    steps.  [reap] is modelled step by step, since it holds [g_mu] and a job's
    [mu] while it joins the job's thread. *)

From S2P Require Import Prelude.
From Corelib Require Import SpecFloat.

#[local] Open Scope Z_scope.

Inductive job_state_t := queued | running | succeeded | was_cancelled | failed.
#[export] Instance job_state_eq_dec : EqDecision job_state_t.
Proof. solve_decision. Defined.

(** The job's thread: not started, in the body, past the body, finished. *)
Inductive thread_t := T_begin | T_body | T_end | T_exit.
#[export] Instance thread_eq_dec : EqDecision thread_t.
Proof. solve_decision. Defined.

Record job_t := mk_job {
  id : Z; cancel_requested : bool; progress : spec_float; stage : list Z; error : list Z;
  state : job_state_t; started_ms : Z; finished_ms : Z; label : list Z; owner : list Z;
  cancellable : bool; joined : bool; thread : thread_t
}.

Record job_desc_t := mk_desc { d_label : list Z; d_owner : list Z; d_cancellable : bool }.

Record job_snapshot_t := mk_snap {
  s_id : Z; s_label : list Z; s_owner : list Z; s_stage : list Z; s_error : list Z;
  s_progress : spec_float; s_state : job_state_t; s_cancellable : bool; s_started_ms : Z; s_finished_ms : Z
}.

(** What [reap] is doing: nothing, about to look at job [i], joining job [i] with
    its mutex held, or [shutdown] joining the threads from [i]. *)
Inductive reaper_t := Idle | Looking (i : nat) (changed : bool) | Joining (i : nat) (changed : bool) | Closing (i : nat).

Record jobs_t := mk_jobs {
  g_jobs : list job_t; g_next_id : Z; g_published : list job_snapshot_t; g_shutting_down : bool;
  entering : list job_desc_t;  (* callers of [submit] past the flag, waiting for [g_mu] *)
  reaper : reaper_t
}.

Definition jobs0 : jobs_t := mk_jobs [] 1 [] false [] Idle.

(** ** The job's context *)

Definition with_state (j : job_t) (st : job_state_t) (th : thread_t) : job_t :=
  mk_job (id j) (cancel_requested j) (progress j) (stage j) (error j) st (started_ms j) (finished_ms j)
    (label j) (owner j) (cancellable j) (joined j) th.

Definition set_stage (s : list Z) (j : job_t) : job_t :=
  mk_job (id j) (cancel_requested j) (progress j) s (error j) (state j) (started_ms j) (finished_ms j)
    (label j) (owner j) (cancellable j) (joined j) (thread j).

Definition set_progress (p : spec_float) (j : job_t) : job_t :=
  mk_job (id j) (cancel_requested j) p (stage j) (error j) (state j) (started_ms j) (finished_ms j)
    (label j) (owner j) (cancellable j) (joined j) (thread j).

(** [static_cast<float>] of a 64-bit integer. *)
Definition to_float (n : Z) : spec_float := binary_normalize 24 128 n 0 false.

Definition set_progress_of (done total : Z) (j : job_t) : job_t :=
  if total =? 0 then j else set_progress (SFdiv 24 128 (to_float done) (to_float total)) j.

Definition fail (message : list Z) (j : job_t) : job_t :=
  mk_job (id j) (cancel_requested j) (progress j) (stage j) message failed (started_ms j) (finished_ms j)
    (label j) (owner j) (cancellable j) (joined j) (thread j).

(** The thread function around the body. *)
Definition thread_begin (now : Z) (j : job_t) : job_t :=
  mk_job (id j) (cancel_requested j) (progress j) (stage j) (error j) running now (finished_ms j)
    (label j) (owner j) (cancellable j) (joined j) T_body.

Definition thread_end (now : Z) (j : job_t) : job_t :=
  let st := if decide (state j = running)
            then (if cancel_requested j then was_cancelled else succeeded) else state j in
  mk_job (id j) (cancel_requested j) (progress j) (stage j) (error j) st (started_ms j) now
    (label j) (owner j) (cancellable j) (joined j) T_exit.

Definition request (j : job_t) : job_t :=
  mk_job (id j) true (progress j) (stage j) (error j) (state j) (started_ms j) (finished_ms j)
    (label j) (owner j) (cancellable j) (joined j) (thread j).

Definition mark_joined (j : job_t) : job_t :=
  mk_job (id j) (cancel_requested j) (progress j) (stage j) (error j) (state j) (started_ms j) (finished_ms j)
    (label j) (owner j) (cancellable j) true (thread j).

(** ** The coordinator *)

Definition live (j : job_t) : bool := bool_decide (state j = queued \/ state j = running).

Definition max_live_jobs : Z := 64.

Definition snap (j : job_t) : job_snapshot_t :=
  mk_snap (id j) (label j) (owner j) (stage j) (error j) (progress j) (state j) (cancellable j)
    (started_ms j) (finished_ms j).

Definition rebuild_snapshot (s : jobs_t) : jobs_t :=
  mk_jobs (g_jobs s) (g_next_id s) (snap <$> g_jobs s) (g_shutting_down s) (entering s) (reaper s).

Definition new_job (i : Z) (d : job_desc_t) : job_t :=
  mk_job i false (to_float (-1)) [] [] queued 0 0 (d_label d) (d_owner d) (d_cancellable d) false T_begin.

(** [submit] under the lock: 0 is a refusal. *)
Definition submit_locked (d : job_desc_t) (s : jobs_t) : Z * jobs_t :=
  if max_live_jobs <=? zlen (List.filter live (g_jobs s)) then (0, s)
  else
    (g_next_id s,
     rebuild_snapshot (mk_jobs (g_jobs s ++ [new_job (g_next_id s) d]) (u64 (g_next_id s + 1))
                         (g_published s) (g_shutting_down s) (entering s) (reaper s))).

(** A [submit] nobody interrupts: the flag is tested before the lock is taken. *)
Definition submit (d : job_desc_t) (s : jobs_t) : Z * jobs_t :=
  if g_shutting_down s then (0, s) else submit_locked d s.

(** The first job of that id that may be cancelled. *)
Fixpoint cancel_first (i : Z) (js : list job_t) : bool * list job_t :=
  match js with
  | [] => (false, [])
  | j :: js' =>
      if (id j =? i) && cancellable j then (true, request j :: js')
      else let '(b, js'') := cancel_first i js' in (b, j :: js'')
  end.

Definition cancel (i : Z) (s : jobs_t) : bool * jobs_t :=
  let '(b, js) := cancel_first i (g_jobs s) in
  (b, mk_jobs js (g_next_id s) (g_published s) (g_shutting_down s) (entering s) (reaper s)).

Definition alive (i : Z) (s : jobs_t) : bool :=
  match head (List.filter (fun j => id j =? i) (g_jobs s)) with Some j => live j | None => false end.

Fixpoint erase_joined (js : list job_t) : option (list job_t) :=
  match js with
  | [] => None
  | j :: js' => if joined j then Some js' else cons j <$> erase_joined js'
  end.

(** The end of [reap]: more than 32 jobs, the oldest joined ones go. *)
Fixpoint trim (fuel : nat) (js : list job_t) (changed : bool) : list job_t * bool :=
  match fuel with
  | O => (js, changed)
  | S fuel' =>
      if 32 <? zlen js then
        match erase_joined js with Some js' => trim fuel' js' true | None => (js, changed) end
      else (js, changed)
  end.

Definition set_flag (b : bool) (s : jobs_t) : jobs_t :=
  mk_jobs (g_jobs s) (g_next_id s) (g_published s) b (entering s) (reaper s).

Definition reset (s : jobs_t) : jobs_t := set_flag false s.

(** ** Interleavings *)

Definition set_jobs (js : list job_t) (s : jobs_t) : jobs_t :=
  mk_jobs js (g_next_id s) (g_published s) (g_shutting_down s) (entering s) (reaper s).

Definition set_job (i : nat) (j : job_t) (s : jobs_t) : jobs_t := set_jobs (<[i := j]> (g_jobs s)) s.

Definition set_entering (ds : list job_desc_t) (s : jobs_t) : jobs_t :=
  mk_jobs (g_jobs s) (g_next_id s) (g_published s) (g_shutting_down s) ds (reaper s).

Definition set_reaper (r : reaper_t) (s : jobs_t) : jobs_t :=
  mk_jobs (g_jobs s) (g_next_id s) (g_published s) (g_shutting_down s) (entering s) r.

(** The job's mutex is not held over a join. *)
Definition free (i : nat) (s : jobs_t) : Prop := forall c, reaper s <> Joining i c.

Definition reap_end (changed : bool) (s : jobs_t) : jobs_t :=
  let '(js, changed') := trim (length (g_jobs s)) (g_jobs s) changed in
  let s' := set_reaper Idle (set_jobs js s) in
  if changed' then rebuild_snapshot s' else s'.

Inductive step (s : jobs_t) : jobs_t -> Prop :=
(** callers; everything but the flag is under [g_mu] *)
| step_enter d : g_shutting_down s = false -> step s (set_entering (entering s ++ [d]) s)
| step_submit ds d ds' : entering s = ds ++ d :: ds' -> reaper s = Idle ->
    step s (submit_locked d (set_entering (ds ++ ds') s)).2
| step_cancel i : reaper s = Idle -> step s (cancel i s).2
| step_reset : step s (reset s)
(** a job's thread *)
| step_thread_begin i j now : g_jobs s !! i = Some j -> thread j = T_begin -> free i s -> step s (set_job i (thread_begin now j) s)
| step_stage i j x : g_jobs s !! i = Some j -> thread j = T_body -> free i s -> step s (set_job i (set_stage x j) s)
| step_progress i j p : g_jobs s !! i = Some j -> thread j = T_body -> step s (set_job i (set_progress p j) s)
| step_fail i j m : g_jobs s !! i = Some j -> thread j = T_body -> free i s -> step s (set_job i (fail m j) s)
| step_body_returns i j : g_jobs s !! i = Some j -> thread j = T_body -> step s (set_job i (with_state j (state j) T_end) s)
| step_thread_end i j now : g_jobs s !! i = Some j -> thread j = T_end -> free i s -> step s (set_job i (thread_end now j) s)
(** [reap] *)
| step_reap : reaper s = Idle -> step s (set_reaper (Looking 0 false) s)
| step_skip i j c : reaper s = Looking i c -> g_jobs s !! i = Some j -> joined j || live j = true ->
    step s (set_reaper (Looking (S i) c) s)
| step_lock i j c : reaper s = Looking i c -> g_jobs s !! i = Some j -> joined j || live j = false ->
    step s (set_reaper (Joining i c) s)
| step_join i j c : reaper s = Joining i c -> g_jobs s !! i = Some j -> thread j = T_exit ->
    step s (set_reaper (Looking (S i) true) (set_job i (mark_joined j) s))
| step_trim i c : reaper s = Looking i c -> (length (g_jobs s) <= i)%nat ->
    step s (reap_end c s)
(** [shutdown]: the flag, then the lock; it waits for each thread or, past the
    deadline, detaches it, and marks the job as joined in both cases *)
| step_flag : step s (set_flag true s)
| step_shutdown : reaper s = Idle ->
    step s (set_reaper (Closing 0) (set_jobs (request <$> g_jobs s) s))
| step_close_skip i j : reaper s = Closing i -> g_jobs s !! i = Some j -> joined j = true ->
    step s (set_reaper (Closing (S i)) s)
| step_close_join i j : reaper s = Closing i -> g_jobs s !! i = Some j -> joined j = false -> thread j = T_exit ->
    step s (set_reaper (Closing (S i)) (set_job i (mark_joined j) s))
| step_close_detach i j : reaper s = Closing i -> g_jobs s !! i = Some j -> joined j = false ->
    step s (set_reaper (Closing (S i)) (set_job i (mark_joined j) s))
| step_closed i : reaper s = Closing i -> (length (g_jobs s) <= i)%nat ->
    step s (set_reaper Idle (set_jobs [] s)).

Definition reachable (s : jobs_t) : Prop := rtc step jobs0 s.

(** ** The states of a job *)

(** The state and the thread agree; a job recorded as cancelled had its token
    requested. *)
Definition job_ok (j : job_t) : Prop :=
  match thread j with
  | T_begin => state j = queued
  | T_body | T_end => state j = running \/ state j = failed
  | T_exit => state j = succeeded \/ state j = was_cancelled \/ state j = failed
  end /\
  (state j = was_cancelled -> cancel_requested j = true).

(** A joined job's thread is done. *)
Definition joined_ok (j : job_t) : Prop := joined j = true -> thread j = T_exit.

Definition jobs_ok (s : jobs_t) : Prop :=
  Forall job_ok (g_jobs s) /\ zlen (List.filter live (g_jobs s)) <= max_live_jobs /\
  (forall i c, reaper s = Joining i c -> exists j, g_jobs s !! i = Some j /\ live j = false) /\
  ((forall i, reaper s <> Closing i) -> Forall joined_ok (g_jobs s)).

(** ** Steps on one job *)

Lemma live_count_insert (js : list job_t) i j j' :
  js !! i = Some j -> (live j' = true -> live j = true) ->
  zlen (List.filter live (<[i := j']> js)) <= zlen (List.filter live js).
Proof.
  intros E H. apply inj_le. revert i E; induction js as [|x js IH]; intros [|i] E; try discriminate; cbn in *.
  - apply (inj Some) in E; subst x. destruct (live j') eqn:L.
    + by rewrite (H eq_refl).
    + destruct (live j); cbn; lia.
  - specialize (IH i E). destruct (live x); cbn; [by apply le_n_S | exact IH].
Qed.

Lemma live_map_request js : zlen (List.filter live (request <$> js)) = zlen (List.filter live js).
Proof.
  unfold zlen. induction js as [|x js IH]; [done|]. cbn.
  change (live (request x)) with (live x). destruct (live x); cbn; lia.
Qed.

Lemma set_job_ok s i j j' :
  jobs_ok s -> g_jobs s !! i = Some j -> (job_ok j -> job_ok j') ->
  (joined_ok j -> joined_ok j') -> (live j' = true -> live j = true) ->
  (free i s \/ live j' = live j) -> jobs_ok (set_job i j' s).
Proof.
  intros (F & L & R & D) E Ok Jk Lv Fr. split_and!; cbn.
  - apply Forall_insert; [done|]. apply Ok. by eapply Forall_lookup_1.
  - pose proof (live_count_insert _ _ _ _ E Lv); lia.
  - intros k c Hk. destruct (R k c Hk) as (x & Ex & Lx).
    destruct (decide (i = k)) as [<-|N].
    + exists j'. rewrite list_lookup_insert_eq by (by eapply lookup_lt_Some). split; [done|].
      destruct Fr as [Fr|Fr]; [by destruct (Fr c)|]. by simplify_eq; rewrite Fr.
    + exists x. by rewrite list_lookup_insert_ne.
  - intros N. specialize (D N). apply Forall_insert; [done|]. apply Jk. by eapply Forall_lookup_1.
Qed.

Lemma live_false j : live j = false <-> state j = succeeded \/ state j = was_cancelled \/ state j = failed.
Proof. unfold live. rewrite bool_decide_eq_false. destruct (state j); intuition congruence. Qed.

Lemma live_true j : live j = true <-> state j = queued \/ state j = running.
Proof. unfold live. by rewrite bool_decide_eq_true. Qed.

(** ** The trim at the end of [reap] *)

(** The list without its first [k] joined jobs. *)
Fixpoint drop_joined (k : nat) (js : list job_t) : list job_t :=
  match js with
  | [] => []
  | j :: js' =>
      if joined j then match k with O => j :: js' | S k' => drop_joined k' js' end
      else j :: drop_joined k js'
  end.

Lemma drop_joined_0 js : drop_joined 0 js = js.
Proof. induction js as [|j js IH]; [done|]. cbn. rewrite IH. by destruct (joined j). Qed.

Lemma erase_joined_some js js' :
  erase_joined js = Some js' ->
  length js = S (length js') /\ forall k, drop_joined (S k) js = drop_joined k js'.
Proof.
  revert js'; induction js as [|j js IH]; intros js' E; [done|]. cbn in E. cbn [drop_joined].
  destruct (joined j) eqn:J; [by simplify_eq|].
  apply fmap_Some in E as (js2 & E & ->). destruct (IH js2 E) as [L D].
  split; [cbn; by rewrite L|]. intros k. cbn [drop_joined]. by rewrite J, D.
Qed.

Lemma erase_joined_none js k : erase_joined js = None -> drop_joined k js = js.
Proof.
  induction js as [|j js IH]; intros E; [done|]. cbn in *.
  destruct (joined j); [done|]. apply fmap_None in E. by rewrite IH.
Qed.

Lemma trim_drop n js c :
  (length js <= n)%nat -> (trim n js c).1 = drop_joined (length js - 32) js.
Proof.
  revert js c; induction n as [|n IH]; intros js c L; cbn [trim].
  - destruct js; [done|cbn in L; lia].
  - unfold zlen. zcase.
    + destruct (erase_joined js) as [js'|] eqn:E; cbn; [|by rewrite erase_joined_none].
      destruct (erase_joined_some _ _ E) as [E1 E2]. rewrite IH by lia.
      rewrite <-E2. f_equal. lia.
    + cbn. replace (length js - 32)%nat with 0%nat by lia. by rewrite drop_joined_0.
Qed.

Lemma trim_flag n js c : (trim n js c).2 = false -> (trim n js c).1 = js /\ c = false.
Proof.
  revert js c; induction n as [|n IH]; intros js c; cbn; [done|].
  destruct (32 <? zlen js); [|done].
  destruct (erase_joined js) as [js'|]; [|done]. intros E. by destruct (IH _ _ E).
Qed.

Lemma drop_joined_spec k js :
  drop_joined k js `sublist_of` js /\
  List.filter (fun j => negb (joined j)) (drop_joined k js) = List.filter (fun j => negb (joined j)) js /\
  List.filter joined (drop_joined k js) = drop k (List.filter joined js).
Proof.
  revert k; induction js as [|j js IH]; intros k; cbn; [by rewrite drop_nil|].
  destruct (joined j) eqn:J; cbn.
  - destruct k as [|k]; cbn; rewrite ?J; cbn; [done|].
    destruct (IH k) as (S & U & D). split_and!; [by constructor|done|done].
  - destruct (IH k) as (S & U & D). rewrite J; cbn. split_and!; [by constructor|by rewrite U|done].
Qed.

(** ** The invariant *)

Lemma live_sublist (js js' : list job_t) :
  js `sublist_of` js' -> zlen (List.filter live js) <= zlen (List.filter live js').
Proof.
  intros H. apply inj_le. induction H as [|x js js' _ IH|x js js' _ IH]; cbn; [done| |];
    destruct (live x); cbn; [by apply le_n_S|exact IH|by apply le_S|exact IH].
Qed.

Lemma cancel_first_spec i js :
  let '(b, js') := cancel_first i js in
  match List.find (fun j => (id j =? i) && cancellable j) js with
  | Some j => b = true /\ exists k, js !! k = Some j /\ js' = <[k := request j]> js
  | None => b = false /\ js' = js
  end.
Proof.
  induction js as [|j js IH]; [done|]. cbn.
  destruct ((id j =? i) && cancellable j); [split; [done|]; by exists 0%nat|].
  destruct (cancel_first i js) as [b js']. destruct (List.find _ js) as [x|].
  - destruct IH as (-> & k & Hk & ->). split; [done|]. by exists (S k).
  - by destruct IH as [-> ->].
Qed.

Lemma no_join_ok s s' :
  jobs_ok s -> (forall i c, reaper s' <> Joining i c) -> Forall job_ok (g_jobs s') ->
  zlen (List.filter live (g_jobs s')) <= zlen (List.filter live (g_jobs s)) ->
  ((forall i, reaper s' <> Closing i) -> Forall joined_ok (g_jobs s')) -> jobs_ok s'.
Proof.
  intros (F & L & R & _) NJ F' L' D. split_and!; [done|lia| |exact D]. intros i c E. by destruct (NJ i c).
Qed.

Lemma submit_locked_ok d s : jobs_ok s -> reaper s = Idle -> jobs_ok (submit_locked d s).2.
Proof.
  intros (F & L & R & D) I. unfold submit_locked, max_live_jobs in *. zcase; cbn; [done|].
  split_and!; cbn.
  - apply Forall_app_2; [done|]. apply Forall_singleton. by split_and!.
  - rewrite List.filter_app, zlen_app. change (zlen (List.filter live _)) with 1 at 2.
    unfold max_live_jobs. lia.
  - by rewrite I.
  - rewrite I. intros N. apply Forall_app_2; [apply D; by rewrite I|]. by apply Forall_singleton.
Qed.

Lemma reap_end_ok c s : jobs_ok s -> (forall i, reaper s <> Closing i) -> jobs_ok (reap_end c s).
Proof.
  intros Ok N. pose proof (trim_drop _ (g_jobs s) c (le_n _)) as E. unfold reap_end.
  destruct (trim _ _ _) as [js b]. cbn in E.
  destruct (drop_joined_spec (length (g_jobs s) - 32) (g_jobs s)) as (S & _). rewrite <-E in S.
  destruct Ok as (F & L & R & D). specialize (D N).
  assert (Sub : forall P : job_t -> Prop, Forall P (g_jobs s) -> Forall P js).
  { intros P H. apply Forall_forall. intros x Hx. rewrite Forall_forall in H. apply H. by eapply elem_of_sublist. }
  destruct b; apply (no_join_ok s); try done; cbn; try (by apply live_sublist); by auto.
Qed.

Ltac one_job Ok E := eapply (set_job_ok _ _ _ _ Ok E); [unfold job_ok; cbn|unfold joined_ok; cbn|unfold live; cbn|].

(** [shutdown] marks a job, whatever its thread does. *)
Lemma mark_closing_ok i j s :
  jobs_ok s -> g_jobs s !! i = Some j -> jobs_ok (set_reaper (Closing (S i)) (set_job i (mark_joined j) s)).
Proof.
  intros Ok E. apply (no_join_ok s); [done|done| | |intros N; by destruct (N (S i))].
  - cbn. apply Forall_insert; [apply Ok|]. exact (Forall_lookup_1 _ _ _ _ (proj1 Ok) E).
  - cbn. by eapply live_count_insert.
Qed.

Lemma step_ok s s' : jobs_ok s -> step s s' -> jobs_ok s'.
Proof.
  intros Ok St. destruct St as
    [d F|ds d ds' E I|i I| |i j now E T Fr|i j x E T Fr|i j p E T|i j m E T Fr|i j E T|i j now E T Fr
    |I|i j c R E J|i j c R E J|i j c R E T|i c R L| |I|i j R E J|i j R E J T|i j R E J|i R L].
  - done.
  - by apply submit_locked_ok.
  - pose proof (cancel_first_spec i (g_jobs s)) as C. unfold cancel. destruct (cancel_first i (g_jobs s)) as [b js].
    destruct (List.find _ _) as [x|]; destruct C as [-> C].
    + destruct C as (k & Hk & ->). apply (set_job_ok s k x); [done|done| |done|done|by right].
      unfold job_ok; cbn. naive_solver.
    + subst js. by destruct s.
  - done.
  - one_job Ok E; [rewrite T; naive_solver|rewrite T; intros J Hj; by specialize (J Hj)|rewrite !bool_decide_eq_true|by left].
    intros _. destruct Ok as (F & _). pose proof (Forall_lookup_1 _ _ _ _ F E) as [H _]. rewrite T in H. by left.
  - one_job Ok E; [done|done|done|by left].
  - one_job Ok E; [done|done|done|by right].
  - one_job Ok E; [rewrite T; naive_solver|done|rewrite !bool_decide_eq_true; naive_solver|by left].
  - one_job Ok E; [rewrite T; naive_solver|rewrite T; intros J Hj; by specialize (J Hj)|done|by right].
  - one_job Ok E; [rewrite T|done|rewrite !bool_decide_eq_true|by left];
      destruct (decide (state j = running)); destruct (cancel_requested j); naive_solver.
  - apply (no_join_ok s); [done|done|apply Ok|done|]. intros _. apply Ok. by rewrite I.
  - apply (no_join_ok s); [done|done|apply Ok|done|]. intros _. apply Ok. by rewrite R.
  - destruct Ok as (F & L & _ & D). split_and!; [done|done| |intros _; apply D; by rewrite R].
    intros k c' [= <- <-]. exists j. split; [done|]. apply orb_false_iff in J. apply J.
  - assert (M : jobs_ok (set_job i (mark_joined j) s)).
    { one_job Ok E; [naive_solver|done|done|by right]. }
    apply (no_join_ok _ _ M); [done|apply M|done|]. intros _. apply M. cbn. by rewrite R.
  - apply reap_end_ok; [done|]. by rewrite R.
  - done.
  - apply (no_join_ok s); [done|done| |cbn; by rewrite live_map_request|].
    + cbn. apply Forall_fmap. destruct Ok as (F & _). eapply Forall_impl; [exact F|].
      unfold job_ok; cbn. naive_solver.
    + intros N. by destruct (N 0%nat).
  - apply (no_join_ok s); [done|done|apply Ok|done|]. intros N. by destruct (N (S i)).
  - by eapply mark_closing_ok.
  - by eapply mark_closing_ok.
  - apply (no_join_ok s); [done|done|cbn; constructor| |cbn; constructor]. destruct s; cbn. apply zlen_nonneg.
Qed.

Definition one_job : job_desc_t := mk_desc (bs "scan") (bs "ui") true.

(** The state after one job was submitted and its thread started. *)
Definition started : jobs_t :=
  let s := (submit one_job jobs0).2 in
  match g_jobs s with j :: _ => set_job 0 (thread_begin 5 j) s | [] => s end.

Lemma started_reachable : reachable started.
Proof.
  eapply rtc_l; [by apply (step_enter _ one_job)|].
  eapply rtc_l; [by apply (step_submit _ [] one_job [])|].
  eapply rtc_l; [|apply rtc_refl]. by apply (step_thread_begin _ 0 (new_job 1 one_job) 5).
Qed.

(** C35: in every interleaving of callers, job threads, [reap] and [shutdown], a job's
    state and its thread agree (queued before the thread starts, running or failed
    during the body, a final state after it), a job ends as cancelled only if its token
    was requested, at most 64 jobs are alive, the job [reap] joins is a finished one,
    and, while no [shutdown] is in its loop over the jobs, a joined job's thread has
    ended. *)
Theorem jobs_invariant s : reachable s -> jobs_ok s.
Proof.
  intros R. assert (Ok : jobs_ok jobs0) by (split_and!; cbn; [constructor|done|done|constructor]).
  revert Ok. induction R as [s|s1 s2 s3 St _ IH]; intros Ok; [done|].
  apply IH. by eapply step_ok.
Qed.

Lemma jobs_invariant_witness :
  exists s, reachable s /\ state <$> g_jobs s = [was_cancelled] /\ jobs_ok s.
Proof.
  pose (s1 := (cancel 1 started).2).
  pose (j := request (thread_begin 5 (new_job 1 one_job))).
  pose (s2 := set_job 0 (with_state j running T_end) s1).
  pose (s3 := set_job 0 (thread_end 9 (with_state j running T_end)) s2).
  assert (R : rtc step jobs0 s3).
  { etrans; [exact started_reachable|].
    eapply rtc_l; [by apply (step_cancel _ 1)|].
    eapply rtc_l; [by apply (step_body_returns _ 0 j)|].
    eapply rtc_l; [by apply (step_thread_end _ 0 (with_state j running T_end) 9)|]. apply rtc_refl. }
  exists s3. split; [exact R|]. split; [reflexivity|]. exact (jobs_invariant s3 R).
Defined.

(** The end of [reap] removes the oldest joined jobs, as many as the list is
    longer than 32, and no job that is not joined; the order is kept, and the view is
    published again whenever a job was joined or removed. *)
Lemma reap_end_trims s changed :
  let js := g_jobs s in
  let s' := reap_end changed s in
  g_jobs s' `sublist_of` js /\
  List.filter (fun j => negb (joined j)) (g_jobs s') = List.filter (fun j => negb (joined j)) js /\
  List.filter joined (g_jobs s') = drop (length js - 32) (List.filter joined js) /\
  (changed = true \/ g_jobs s' <> js -> g_published s' = snap <$> g_jobs s') /\ reaper s' = Idle.
Proof.
  intros js s'. pose proof (trim_drop _ js changed (le_n _)) as E.
  pose proof (trim_flag (length js) js changed) as Fl.
  destruct (drop_joined_spec (length js - 32) js) as (S & U & D).
  subst s'. unfold reap_end. fold js. destruct (trim _ _ _) as [js' b]; cbn in E, Fl. subst js'.
  destruct b; cbn; split_and!; try done.
  destruct (Fl eq_refl) as [-> ->]. naive_solver.
Qed.

(** [reap], holding [g_mu], joins job [i], whose thread has not ended. *)
Definition stuck (i : nat) (c : bool) (s : jobs_t) : Prop :=
  reaper s = Joining i c /\ exists j, g_jobs s !! i = Some j /\ thread j <> T_exit.

(** The jobs and which of them were cancelled. *)
Definition requests (s : jobs_t) : list (Z * bool) := (fun j => (id j, cancel_requested j)) <$> g_jobs s.

Lemma set_job_requests i j j' s :
  g_jobs s !! i = Some j -> id j' = id j -> cancel_requested j' = cancel_requested j ->
  requests (set_job i j' s) = requests s.
Proof.
  intros E Hi Hc. unfold requests. cbn. rewrite list_fmap_insert, Hi, Hc.
  apply list_insert_id. by rewrite list_lookup_fmap, E.
Qed.

Lemma stuck_step i c s s' : stuck i c s -> step s s' -> stuck i c s' /\ requests s' = requests s.
Proof.
  intros (R & j & E & T) St. destruct St; try congruence; try (split; [split; [done|by exists j]|done]).
  all: split; [split; [done|]|by eapply set_job_requests].
  all: destruct (decide (i = i0)) as [<-|N];
    [try (by exfalso; unfold free in *; naive_solver)|exists j; cbn; by rewrite list_lookup_insert_ne].
  all: eexists; split; [cbn; apply list_lookup_insert_eq; by eapply lookup_lt_Some|cbn; congruence].
Qed.

Lemma stuck_rtc i c s s' : stuck i c s -> rtc step s s' -> stuck i c s' /\ requests s' = requests s.
Proof.
  intros St R. revert St. induction R as [x|x y z Hs _ IH]; intros St; [done|].
  destruct (stuck_step _ _ _ _ St Hs) as [Sy <-]. by apply IH.
Qed.

(** C36: when [reap] looks at a job that called [fail] and whose thread has not ended,
    the only way on for [reap] is to lock the job and join its thread, and if it does so
    before the thread has ended, it is past the join in no later state: the epilogue of
    the thread waits for the mutex that [reap] holds.  From then on no call of [submit] or
    [cancel] takes effect either. *)
Theorem reap_deadlocks s i c j :
  reaper s = Looking i c -> g_jobs s !! i = Some j -> joined j = false -> state j = failed -> thread j <> T_exit ->
  (forall s', step s s' -> reaper s' = Looking i c \/ s' = set_reaper (Joining i c) s) /\
  step s (set_reaper (Joining i c) s) /\
  forall s', rtc step (set_reaper (Joining i c) s) s' -> stuck i c s' /\ requests s' = requests s.
Proof.
  intros R E J F T. assert (L : live j = false) by (apply live_false; naive_solver). split_and!.
  - intros s' St. destruct St; try congruence; try (by left).
    + assert (j0 = j) as -> by congruence. by rewrite J, L in *.
    + right. congruence.
    + assert (length (g_jobs s) <= i)%nat by congruence. apply lookup_lt_Some in E. lia.
  - apply (step_lock s i j c); [done..|]. by rewrite J, L.
  - intros s' R'. apply (stuck_rtc i c (set_reaper (Joining i c) s) s'); [|exact R']. split; [done|]. by exists j.
Qed.

(** A job fails, [reap] looks at it before its body has returned, and blocks. *)
Lemma reap_deadlocks_witness :
  exists s, reachable s /\ state <$> g_jobs s = [failed] /\ reaper s = Joining 0 false /\
    forall s', rtc step s s' -> stuck 0 false s' /\ requests s' = [(1, false)].
Proof.
  pose (j := fail (bs "no target") (thread_begin 5 (new_job 1 one_job))).
  pose (s := set_reaper (Looking 0 false) (set_job 0 j started)).
  destruct (reap_deadlocks s 0 false j eq_refl eq_refl eq_refl eq_refl ltac:(discriminate)) as (_ & St & H).
  exists (set_reaper (Joining 0 false) s). split_and!; [|reflexivity|reflexivity|exact H].
  unfold reachable. etrans; [exact started_reachable|].
  eapply rtc_l; [by apply (step_fail _ 0 (thread_begin 5 (new_job 1 one_job)) (bs "no target"))|].
  eapply rtc_l; [by apply step_reap|]. eapply rtc_l; [exact St|apply rtc_refl].
Defined.
