(* ===== verification/Deferred.v ===== *)
(** * Deferred actions: src/core/infra/deferred.cpp

    The queue of named actions with its executors.  An executor changes a world of its
    own, the parameter [Env]; the mutex is held while it runs, so it cannot call the
    manager. *)

From S2P Require Import Prelude.

#[local] Open Scope Z_scope.

(** ** The manager *)

Inductive status_t := pending | done | failed | cancelled.
#[export] Instance status_eq_dec : EqDecision status_t.
Proof. solve_decision. Defined.

(** The time is always written as 0. *)
Record deferred_action_t := mk_action {
  id : Z; kind : list Z; params_json : list Z; status : status_t; result_json : list Z
}.

Section Manager.
Context {Env : Type}.

Definition executor_t : Type := list Z -> Env -> bool * list Z * Env.

Record deferred_manager_t := mk_manager {
  actions_ : list deferred_action_t; executors_ : gmap (list Z) executor_t; next_id_ : Z
}.

Definition manager0 : deferred_manager_t := mk_manager [] ∅ 1.

(** [emplace] leaves an executor that is there. *)
Definition bind_executor (k : list Z) (fn : executor_t) (m : deferred_manager_t) : bool * deferred_manager_t :=
  match executors_ m !! k with
  | Some _ => (false, m)
  | None => (true, mk_manager (actions_ m) (<[k := fn]> (executors_ m)) (next_id_ m))
  end.

Fixpoint trim (l : list deferred_action_t) : list deferred_action_t :=
  match l with
  | [] => []
  | _ :: l' => if 256 <? zlen l then trim l' else l
  end.

Definition submit (k params : list Z) (m : deferred_manager_t) : Z * deferred_manager_t :=
  let a := mk_action (next_id_ m) k params pending [] in
  let l := trim (actions_ m ++ [a]) in
  (from_option id 0 (last l), mk_manager l (executors_ m) (u64 (next_id_ m + 1))).

Definition list_actions (m : deferred_manager_t) : list deferred_action_t := actions_ m.
Definition get (i : Z) (m : deferred_manager_t) : option deferred_action_t := snd <$> list_find (fun a => id a = i) (actions_ m).
Definition size (m : deferred_manager_t) : Z := zlen (actions_ m).
Definition clear (m : deferred_manager_t) : deferred_manager_t := mk_manager [] (executors_ m) (next_id_ m).

(** The executor an action of the loop runs: [None] where the loop continues. *)
Definition runnable (ex : gmap (list Z) executor_t) (k : list Z) (a : deferred_action_t) : option executor_t :=
  if negb (bool_decide (status a = pending)) then None
  else if negb (bool_decide (k = [])) && negb (bool_decide (kind a = k)) then None
  else ex !! kind a.

Definition set_outcome (ok : bool) (result : list Z) (a : deferred_action_t) : deferred_action_t :=
  mk_action (id a) (kind a) (params_json a) (if ok then done else failed) result.

Fixpoint execute_loop (ex : gmap (list Z) executor_t) (k : list Z) (l : list deferred_action_t) (e : Env) (ran : Z) :
    list deferred_action_t * Env * Z :=
  match l with
  | [] => ([], e, ran)
  | a :: l' =>
      match runnable ex k a with
      | None => let '(r, e, ran) := execute_loop ex k l' e ran in (a :: r, e, ran)
      | Some fn =>
          let '(ok, result, e) := fn (params_json a) e in
          let '(r, e, ran) := execute_loop ex k l' e (ran + 1) in
          (set_outcome ok result a :: r, e, ran)
      end
  end.

Definition execute_pending (k : list Z) (m : deferred_manager_t) (e : Env) : Z * deferred_manager_t * Env :=
  let '(l, e, ran) := execute_loop (executors_ m) k (actions_ m) e 0 in
  (ran, mk_manager l (executors_ m) (next_id_ m), e).

Fixpoint cancel_loop (i : Z) (l : list deferred_action_t) : bool * list deferred_action_t :=
  match l with
  | [] => (false, [])
  | a :: l' =>
      if (id a =? i) && bool_decide (status a = pending) then
        (true, mk_action (id a) (kind a) (params_json a) cancelled (result_json a) :: l')
      else let '(b, r) := cancel_loop i l' in (b, a :: r)
  end.

Definition cancel (i : Z) (m : deferred_manager_t) : bool * deferred_manager_t :=
  let '(b, l) := cancel_loop i (actions_ m) in (b, mk_manager l (executors_ m) (next_id_ m)).

(** ** Histories *)

Inductive op_t :=
  | Submit (k params : list Z) | Execute (k : list Z) | Cancel (i : Z) | Clear | Bind (k : list Z) (fn : executor_t).

(** The ids an execution runs, in order. *)
Definition to_run (k : list Z) (m : deferred_manager_t) : list Z :=
  id <$> List.filter (fun a => bool_decide (is_Some (runnable (executors_ m) k a))) (actions_ m).

(** The manager and the world, with the ids that were submitted, run and cancelled. *)
Record history := mk_history { mgr : deferred_manager_t; world : Env; submitted : Z; ran : list Z; revoked : list Z }.

Definition do_op (h : history) (o : op_t) : history :=
  match o with
  | Submit k p => mk_history (submit k p (mgr h)).2 (world h) (submitted h + 1) (ran h) (revoked h)
  | Execute k => let r := execute_pending k (mgr h) (world h) in
      mk_history r.1.2 r.2 (submitted h) (ran h ++ to_run k (mgr h)) (revoked h)
  | Cancel i => let r := cancel i (mgr h) in
      mk_history r.2 (world h) (submitted h) (ran h) (if r.1 then revoked h ++ [i] else revoked h)
  | Clear => mk_history (clear (mgr h)) (world h) (submitted h) (ran h) (revoked h)
  | Bind k fn => mk_history (bind_executor k fn (mgr h)).2 (world h) (submitted h) (ran h) (revoked h)
  end.

Definition run_ops (ops : list op_t) (e : Env) : history := foldl do_op (mk_history manager0 e 0 [] []) ops.

(** *** What an execution does *)

(** The actions that run, each executor on the world the ones before left. *)
Definition run_all (ex : gmap (list Z) executor_t) (k : list Z) (l : list deferred_action_t) (e : Env) : Env :=
  foldl (fun e a => from_option (fun fn => (fn (params_json a) e).2) e (runnable ex k a)) e l.

Lemma execute_loop_spec ex k l e n :
  let r := execute_loop ex k l e n in
  r.1.2 = run_all ex k l e /\
  r.2 = n + zlen (List.filter (fun a => bool_decide (is_Some (runnable ex k a))) l) /\
  Forall2 (fun a b => id b = id a /\ kind b = kind a /\ params_json b = params_json a /\
    (runnable ex k a = None -> b = a) /\ (is_Some (runnable ex k a) -> status b = done \/ status b = failed)) l r.1.1.
Proof.
  revert e n. induction l as [|a l IH]; intros e n; cbn; [by split_and!; [|unfold zlen; cbn; lia|constructor]|].
  destruct (runnable ex k a) as [fn|] eqn:R; cbn.
  - destruct (fn (params_json a) e) as [[ok res] e1] eqn:F. specialize (IH e1 (n + 1)). cbn in IH.
    destruct (execute_loop ex k l e1 (n + 1)) as [[r e2] n2]. cbn in *. destruct IH as (-> & -> & IH).
    split_and!; [done|unfold zlen; cbn; lia|]. constructor; [|done]. cbn. rewrite R. destruct ok; naive_solver.
  - specialize (IH e n). cbn in IH. destruct (execute_loop ex k l e n) as [[r e2] n2]. cbn in *. destruct IH as (-> & -> & IH).
    split_and!; [done|done|]. constructor; [|done]. rewrite R. naive_solver.
Qed.

(** *** The invariant *)

(** The status of an action says what happened to its id. *)
Definition status_ok (rn rv : list Z) (a : deferred_action_t) : Prop :=
  match status a with
  | pending => id a ∉ rn /\ id a ∉ rv
  | done | failed => id a ∈ rn
  | cancelled => id a ∈ rv
  end.

Record ok (h : history) : Prop := mk_ok {
  ok_next : next_id_ (mgr h) = submitted h + 1;
  ok_count : 0 <= submitted h;
  ok_sorted : StronglySorted Z.lt (id <$> actions_ (mgr h));
  ok_ids : forall a, a ∈ actions_ (mgr h) -> 1 <= id a <= submitted h;
  ok_size : zlen (actions_ (mgr h)) <= 256;
  ok_once : NoDup (ran h ++ revoked h);
  ok_known : forall i, i ∈ ran h ++ revoked h -> 1 <= i <= submitted h;
  ok_status : forall a, a ∈ actions_ (mgr h) -> status_ok (ran h) (revoked h) a
}.

Lemma trim_suffix l : trim l `suffix_of` l.
Proof. induction l as [|a l IH]; [done|]. cbn [trim]. destruct (256 <? _); [by apply suffix_cons_r|done]. Qed.

Lemma trim_length l : zlen (trim l) <= 256.
Proof. induction l as [|a l IH]; [done|]. cbn [trim]. destruct (Z.ltb_spec 256 (zlen (a :: l))); [done|lia]. Qed.

Lemma sorted_suffix (l k : list Z) : l `suffix_of` k -> StronglySorted Z.lt k -> StronglySorted Z.lt l.
Proof. intros [j ->]. induction j as [|x j IH]; [done|]. cbn. intros H. by apply IH; inversion H. Qed.

Lemma sorted_snoc l x : StronglySorted Z.lt l -> (forall y, y ∈ l -> y < x) -> StronglySorted Z.lt (l ++ [x]).
Proof.
  induction 1 as [|y l S IH F]; intros B; cbn; [repeat constructor|]. constructor; [apply IH; intros z Hz; apply B; by right|].
  apply Forall_app. split; [done|]. apply Forall_singleton, B. left.
Qed.

Lemma sorted_NoDup l : StronglySorted Z.lt l -> NoDup l.
Proof.
  induction 1 as [|x l S IH F]; constructor; [|done]. intros H. rewrite Forall_forall in F. specialize (F x H). lia.
Qed.

Lemma same_id (l : list deferred_action_t) a b : NoDup (id <$> l) -> a ∈ l -> b ∈ l -> id a = id b -> a = b.
Proof.
  intros N [i Ha]%list_elem_of_lookup [j Hb]%list_elem_of_lookup E.
  assert (i = j) as ->; [|congruence]. eapply NoDup_lookup; [exact N|by rewrite list_lookup_fmap, Ha|]. rewrite list_lookup_fmap, Hb. cbn. by rewrite E.
Qed.

Lemma submit_ok h k p : ok h -> submitted h + 2 < 2 ^ 64 -> ok (do_op h (Submit k p)).
Proof.
  intros [N C So I Sz O K St] B. set (a := mk_action (next_id_ (mgr h)) k p pending []).
  pose proof (trim_suffix (actions_ (mgr h) ++ [a])) as Su.
  assert (El : forall b, b ∈ trim (actions_ (mgr h) ++ [a]) -> b ∈ actions_ (mgr h) \/ b = a).
  { intros b Hb. destruct Su as [j E]. assert (Hb' : b ∈ actions_ (mgr h) ++ [a]) by (rewrite E; set_solver). set_solver. }
  split; cbn.
  - rewrite N, wrap_small; [lia|]. split; lia.
  - lia.
  - eapply sorted_suffix; [destruct Su as [j E]; exists (id <$> j); rewrite <-fmap_app; by f_equal|]. rewrite fmap_app. cbn. rewrite N.
    apply sorted_snoc; [done|]. intros y (b & -> & Hb)%list_elem_of_fmap. specialize (I b Hb). lia.
  - intros b [Hb| ->]%El; [specialize (I b Hb); lia|]. cbn. lia.
  - apply trim_length.
  - done.
  - intros i Hi. specialize (K i Hi). lia.
  - intros b [Hb| ->]%El; [by apply St|]. cbn. rewrite N. split; intros Hi; [assert (H : submitted h + 1 <= submitted h) by (apply K, elem_of_app; by left)|assert (H : submitted h + 1 <= submitted h) by (apply K, elem_of_app; by right)]; lia.
Qed.

Lemma runnable_pending ex k a : is_Some (runnable ex k a) -> status a = pending.
Proof. unfold runnable. case_bool_decide; [done|]. by intros [? ?]. Qed.

Lemma elem_of_to_run k m i : i ∈ to_run k m <-> exists a, a ∈ actions_ m /\ id a = i /\ is_Some (runnable (executors_ m) k a).
Proof.
  unfold to_run. rewrite list_elem_of_fmap. setoid_rewrite list_elem_of_In. setoid_rewrite filter_In. setoid_rewrite bool_decide_eq_true. naive_solver.
Qed.

Lemma to_run_nodup k m : NoDup (id <$> actions_ m) -> NoDup (to_run k m).
Proof.
  unfold to_run. induction (actions_ m) as [|a l IH]; cbn; intros N; [constructor|]. apply NoDup_cons in N as [Na N].
  destruct (bool_decide _); cbn; [|by apply IH]. constructor; [|by apply IH]. intros (b & E & Hb)%list_elem_of_fmap.
  apply Na. rewrite E. apply list_elem_of_fmap. exists b. split; [done|]. apply list_elem_of_In, filter_In in Hb as [Hb _]. by apply list_elem_of_In.
Qed.

Lemma execute_ok h k : ok h -> ok (do_op h (Execute k)).
Proof.
  intros [N C So I Sz O K St]. set (m := mgr h) in *. pose proof (sorted_NoDup _ So) as Nd.
  pose proof (execute_loop_spec (executors_ m) k (actions_ m) (world h) 0) as (_ & _ & F).
  unfold do_op, execute_pending. fold m. destruct (execute_loop (executors_ m) k (actions_ m) (world h) 0) as [[l e] n]. cbn in *.
  assert (E : id <$> l = id <$> actions_ m).
  { symmetry. clear -F. induction F as [|a b l l' (E & _) _ IH]; [done|]. cbn. by rewrite IH, E. }
  assert (P : forall i, i ∈ to_run k m -> i ∉ ran h ++ revoked h /\ 1 <= i <= submitted h).
  { intros i (a & Ha & <- & R%runnable_pending)%elem_of_to_run. specialize (St a Ha). unfold status_ok in St. rewrite R in St.
    split; [set_solver|by apply I]. }
  split; cbn.
  - done.
  - done.
  - by rewrite E.
  - intros b Hb. apply list_elem_of_lookup in Hb as [j Hb]. destruct (Forall2_lookup_r _ _ _ _ _ F Hb) as (a & Ha & E1 & _).
    rewrite E1. apply I. by eapply list_elem_of_lookup_2.
  - unfold zlen. by rewrite <-(Forall2_length _ _ _ F).
  - apply NoDup_app in O as (O1 & O2 & O3). rewrite <-app_assoc. apply NoDup_app. split_and!; [done| |].
    + intros i Hi. rewrite elem_of_app. intros [H|H]; [apply P in H as [H _]; set_solver|by apply (O2 i)].
    + apply NoDup_app. split_and!; [by apply to_run_nodup| |done]. intros i Hi Hr. apply P in Hi as [Hi _]. set_solver.
  - intros i. rewrite !elem_of_app. intros [[Hi|Hi]|Hi]; [apply K; set_solver|by apply P|apply K; set_solver].
  - intros b Hb. apply list_elem_of_lookup in Hb as [j Hb]. destruct (Forall2_lookup_r _ _ _ _ _ F Hb) as (a & Ha & E1 & _ & _ & Hn & Hs).
    apply list_elem_of_lookup_2 in Ha. unfold status_ok. destruct (runnable (executors_ m) k a) as [fn|] eqn:R.
    + assert (Hi : id b ∈ to_run k m) by (apply elem_of_to_run; exists a; rewrite R; eauto).
      destruct (Hs ltac:(by eexists)) as [-> | ->]; set_solver.
    + rewrite Hn by done. specialize (St a Ha). unfold status_ok in St. destruct (status a); [|set_solver|set_solver|set_solver].
      split; [|set_solver]. rewrite elem_of_app. intros [Hi|(c & Hc & E2 & R')%elem_of_to_run]; [set_solver|].
      rewrite (same_id _ c a Nd Hc Ha E2), R in R'. by destruct R'.
Qed.

Lemma cancel_loop_spec i l :
  (cancel_loop i l = (false, l) /\ forall a, a ∈ l -> id a = i -> status a <> pending) \/
  exists l1 a l2, l = l1 ++ a :: l2 /\ id a = i /\ status a = pending /\
    cancel_loop i l = (true, l1 ++ mk_action (id a) (kind a) (params_json a) cancelled (result_json a) :: l2).
Proof.
  induction l as [|a l IH]; cbn; [left; split; [done|]; by intros a H%not_elem_of_nil|].
  destruct (Z.eqb_spec (id a) i) as [E|E]; cbn; [case_bool_decide as P|].
  - right. exists [], a, l. by split_and!.
  - destruct IH as [[-> H]|(l1 & b & l2 & -> & E1 & E2 & ->)]; [left; split; [done|]|right].
    + intros b [->|Hb]%elem_of_cons; [done|by apply H].
    + exists (a :: l1), b, l2. by split_and!.
  - destruct IH as [[-> H]|(l1 & b & l2 & -> & E1 & E2 & ->)]; [left; split; [done|]|right].
    + intros b [->|Hb]%elem_of_cons; [done|by apply H].
    + exists (a :: l1), b, l2. by split_and!.
Qed.

Lemma cancel_ok h i : ok h -> ok (do_op h (Cancel i)).
Proof.
  intros [N C So I Sz O K St]. unfold do_op, cancel.
  destruct (cancel_loop_spec i (actions_ (mgr h))) as [[-> _]|(l1 & a & l2 & E & Ei & P & ->)]; [by split|].
  cbn [fst snd]. set (a' := mk_action _ _ _ cancelled _).
  assert (Ha : a ∈ actions_ (mgr h)) by (rewrite E; set_solver).
  assert (Ids : id <$> l1 ++ a' :: l2 = id <$> actions_ (mgr h)) by (by rewrite E, !fmap_app).
  pose proof (St a Ha) as Sa. unfold status_ok in Sa. rewrite P in Sa. destruct Sa as [S1 S2].
  assert (El : forall b, b ∈ l1 ++ a' :: l2 -> b = a' \/ b ∈ actions_ (mgr h) /\ id b <> i).
  { intros b Hb. pose proof (sorted_NoDup _ So) as Nd. rewrite E, fmap_app, fmap_cons, NoDup_app, NoDup_cons in Nd.
    rewrite elem_of_app, elem_of_cons in Hb. destruct Hb as [Hb|[->|Hb]]; [right|by left|right]; (split; [rewrite E; set_solver|]); intros Eb.
    - destruct Nd as (_ & Nd & _). apply (Nd (id b)); [by apply list_elem_of_fmap_2|]. rewrite Eb, <-Ei. left.
    - destruct Nd as (_ & _ & Nd & _). apply Nd. rewrite Ei, <-Eb. by apply list_elem_of_fmap_2. }
  split; cbn.
  - done.
  - done.
  - by rewrite Ids.
  - intros b [->|[Hb _]]%El; [by apply (I a)|by apply I].
  - rewrite E, !zlen_app in Sz. rewrite zlen_app. exact Sz.
  - rewrite app_assoc. apply NoDup_app. split_and!; [done| |apply NoDup_singleton]. intros j Hj Hi%list_elem_of_singleton. subst j.
    rewrite Ei in S1, S2. set_solver.
  - intros j. rewrite app_assoc, elem_of_app, list_elem_of_singleton. intros [Hj| ->]; [by apply K|]. rewrite <-Ei. by apply I.
  - intros b [->|[Hb Nb]]%El; [cbn; rewrite Ei; set_solver|]. specialize (St b Hb). unfold status_ok in *.
    destruct (status b); [|done|done|set_solver]. split; [by apply St|]. rewrite elem_of_app, list_elem_of_singleton. naive_solver.
Qed.

Lemma do_op_ok h o : ok h -> submitted h + 2 < 2 ^ 64 -> ok (do_op h o).
Proof.
  intros H B. destruct o as [k p|k|i| |k fn]; [by apply submit_ok|by apply execute_ok|by apply cancel_ok| |].
  - destruct H. split; cbn; try done; try apply SSorted_nil; by intros a Ha%not_elem_of_nil.
  - destruct H. unfold do_op, bind_executor. destruct (executors_ (mgr h) !! k); by split.
Qed.

Lemma run_ops_ok ops e : zlen ops + 2 < 2 ^ 64 -> ok (run_ops ops e).
Proof.
  unfold run_ops. set (h0 := mk_history manager0 e 0 [] []).
  assert (H0 : ok h0). { split; cbn; try done; try apply SSorted_nil; try apply NoDup_nil_2; by intros ? ?%not_elem_of_nil. }
  assert (B0 : 0 <= submitted h0) by done. intros B. assert (B1 : submitted h0 + zlen ops + 2 < 2 ^ 64) by (cbn; lia). clear B.
  revert B1 H0. clear B0. generalize h0 as h. clear. induction ops as [|o ops IH]; intros h B H; [done|]. cbn.
  assert (E : submitted (do_op h o) <= submitted h + 1) by (destruct o; cbn; lia).
  assert (Ez : zlen (o :: ops) = zlen ops + 1) by (unfold zlen; cbn; lia). pose proof (zlen_nonneg ops). apply IH; [lia|]. apply do_op_ok; [done|lia].
Qed.

(** C39: in every sequence of operations each action runs at most once and never after
    it was cancelled, the retained actions are at most 256 in the order of their ids,
    and the status of each says what happened to it; an execution counts exactly the
    pending actions of the kind that have an executor and runs each executor once, in
    the order of submission, on what the ones before left. *)
Theorem deferred_runs_once (ops : list op_t) (e : Env) :
  zlen ops + 2 < 2 ^ 64 ->
  let h := run_ops ops e in
  NoDup (ran h ++ revoked h) /\ StronglySorted Z.lt (id <$> list_actions (mgr h)) /\ size (mgr h) <= 256 /\
  (forall i a, get i (mgr h) = Some a -> id a = i /\ 1 <= i <= submitted h /\ status_ok (ran h) (revoked h) a) /\
  (forall k, let r := execute_pending k (mgr h) (world h) in
     r.1.1 = zlen (to_run k (mgr h)) /\ r.2 = run_all (executors_ (mgr h)) k (actions_ (mgr h)) (world h)).
Proof.
  intros B h. pose proof (run_ops_ok ops e B) as [N C So I Sz O K St]. split; [exact O|]. split; [exact So|]. split; [exact Sz|]. split.
  - intros i a Ha. unfold get in Ha. apply fmap_Some in Ha as ([j b] & Ha & ->). apply list_find_Some in Ha as (Ha & <- & _).
    apply list_elem_of_lookup_2 in Ha. split; [done|]. split; [by apply I|by apply St].
  - intros k. pose proof (execute_loop_spec (executors_ (mgr h)) k (actions_ (mgr h)) (world h) 0) as (E1 & E2 & _).
    unfold execute_pending. destruct (execute_loop _ _ _ _ 0) as [[l e'] n]. cbn in *. split; [|done]. rewrite E2.
    unfold to_run, zlen. by rewrite length_fmap.
Qed.
End Manager.
Arguments deferred_manager_t : clear implicits.
Arguments executor_t : clear implicits.
Arguments op_t : clear implicits.
Arguments history : clear implicits.

(** An executor that counts its runs and fails on an empty parameter. *)
Definition counter (p : list Z) (n : Z) : bool * list Z * Z := (negb (bool_decide (p = [])), [n], n + 1).

Lemma deferred_runs_once_witness :
  let h := run_ops [Bind [1] counter; Submit [1] [7]; Submit [2] [7]; Submit [1] []; Cancel 1; Execute []; Execute []] 0 in
  (id <$> actions_ (mgr h)) = [1; 2; 3] /\ (status <$> actions_ (mgr h)) = [cancelled; pending; failed] /\
  ran h = [3] /\ revoked h = [1] /\ world h = 1 /\ NoDup (ran h ++ revoked h).
Proof.
  intros h. split; [by vm_compute|]. split; [by vm_compute|]. split; [by vm_compute|]. split; [by vm_compute|]. split; [by vm_compute|].
  exact (proj1 (deferred_runs_once [Bind [1] counter; Submit [1] [7]; Submit [2] [7]; Submit [1] []; Cancel 1; Execute []; Execute []] 0
    ltac:(by vm_compute))).
Defined.

(** The cap drops pending actions: the first of 257 is gone without having run. *)
Lemma cap_drops_pending :
  let h := run_ops (Bind [1] counter :: replicate 257 (Submit [1] [7]) ++ [Execute []]) 0 in
  get 1 (mgr h) = None /\ submitted h = 257 /\ world h = 256.
Proof. by vm_compute. Qed.
