(* ===== verification/Undo.v ===== *)
(** * Undo: src/hyperion/core/undo.h

    The two stacks of the undo manager.  An action changes a world, the parameter
    [World]. *)

From S2P Require Import Prelude.

#[local] Open Scope Z_scope.

Section Undo.
Context {World : Type}.

Record UndoAction := mk_undo { undo_fn : World -> World; redo_fn : World -> World; desc : list Z }.

(** The stacks grow at the end of the list. *)
Record UndoManager := mk_um { undo_stack_ : list UndoAction; redo_stack_ : list UndoAction }.

Definition push (act : UndoAction) (m : UndoManager) : UndoManager :=
  let l := undo_stack_ m ++ [act] in
  mk_um (if 4096 <? zlen l then drop 1 l else l) [].

Definition can_undo (m : UndoManager) : bool := negb (bool_decide (length (undo_stack_ m) = 0%nat)).
Definition can_redo (m : UndoManager) : bool := negb (bool_decide (length (redo_stack_ m) = 0%nat)).

(** The description of the action, the stacks and the world after it. *)
Definition undo (m : UndoManager) (w : World) : list Z * UndoManager * World :=
  match last (undo_stack_ m) with
  | None => ([], m, w)
  | Some act => (desc act, mk_um (removelast (undo_stack_ m)) (redo_stack_ m ++ [act]), undo_fn act w)
  end.

Definition redo (m : UndoManager) (w : World) : list Z * UndoManager * World :=
  match last (redo_stack_ m) with
  | None => ([], m, w)
  | Some act => (desc act, mk_um (undo_stack_ m ++ [act]) (removelast (redo_stack_ m)), redo_fn act w)
  end.

Definition clear (m : UndoManager) : UndoManager := mk_um [] [].

(** *** The specification: a line of worlds and a place on it *)

(** An edit performs the action and pushes it, as the callers do. *)
Inductive edit_t := Do (a : UndoAction) | Undo | Redo | Clear.

Definition edit (st : UndoManager * World) (o : edit_t) : UndoManager * World :=
  let '(m, w) := st in
  match o with
  | Do a => (push a m, redo_fn a w)
  | Undo => let r := undo m w in (r.1.2, r.2)
  | Redo => let r := redo m w in (r.1.2, r.2)
  | Clear => (clear m, w)
  end.

Record timeline := mk_line { past : list World; now : World; future : list World }.

Definition line_edit (t : timeline) (o : edit_t) : timeline :=
  match o with
  | Do a => let p := past t ++ [now t] in mk_line (if 4096 <? zlen p then drop 1 p else p) (redo_fn a (now t)) []
  | Undo => match last (past t) with Some w => mk_line (removelast (past t)) w (now t :: future t) | None => t end
  | Redo => match future t with w :: f => mk_line (past t ++ [now t]) w f | [] => t end
  | Clear => mk_line [] (now t) []
  end.

(** The actions, oldest first, lead from each world of the line to the next. *)
Definition leads (l : list UndoAction) (ws : list World) : Prop :=
  forall i a, l !! i = Some a -> exists w w', ws !! i = Some w /\ ws !! S i = Some w' /\ redo_fn a w = w' /\ undo_fn a w' = w.

Record on_line (st : UndoManager * World) (t : timeline) : Prop := mk_on_line {
  ol_world : st.2 = now t;
  ol_past : length (undo_stack_ st.1) = length (past t);
  ol_future : length (redo_stack_ st.1) = length (future t);
  ol_leads : leads (undo_stack_ st.1 ++ reverse (redo_stack_ st.1)) (past t ++ now t :: future t)
}.

Lemma stack_last {A} (l : list A) x : last l = Some x -> l = removelast l ++ [x].
Proof. intros [k ->]%last_Some. by rewrite removelast_last. Qed.

Lemma removelast_length {A} (l : list A) x : last l = Some x -> length l = S (length (removelast l)).
Proof. intros H. rewrite (stack_last l x H) at 1. rewrite length_app. cbn. lia. Qed.

Lemma last_at {A} (l : list A) x : last l = Some x -> l !! length (removelast l) = Some x.
Proof. intros [k ->]%last_Some. rewrite removelast_last, lookup_app_r, Nat.sub_diag by lia. done. Qed.

Lemma do_line m w t a :
  on_line (m, w) t -> (forall v, undo_fn a (redo_fn a v) = v) -> on_line (edit (m, w) (Do a)) (line_edit t (Do a)).
Proof.
  intros [E0 P F L] R. cbn in E0, P, F, L. subst w. assert (Z : zlen (undo_stack_ m ++ [a]) = zlen (past t ++ [now t])) by (unfold zlen; rewrite !length_app, P; done).
  assert (G : leads (undo_stack_ m ++ [a]) (past t ++ [now t; redo_fn a (now t)])).
  { intros i b Hb. apply lookup_app_Some in Hb as [Hb|[Hi Hb]].
    - destruct (L i b) as (v & v' & E1 & E2 & E3 & E4); [by apply lookup_app_l_Some|]. exists v, v'.
      pose proof (lookup_lt_Some _ _ _ Hb) as Lt. rewrite P in Lt.
      rewrite lookup_app_l in E1 by done. rewrite lookup_app_l by done. split_and!; [done| |done|done].
      destruct (decide (S i = length (past t))) as [E|E].
      + rewrite lookup_app_r in E2 |- * by lia. by rewrite E, Nat.sub_diag in *.
      + rewrite lookup_app_l in E2 |- * by lia. done.
    - apply list_lookup_singleton_Some in Hb as [Hi' <-]. assert (i = length (past t)) as -> by lia. exists (now t), (redo_fn a (now t)).
      split_and!; [by rewrite lookup_app_r, Nat.sub_diag by lia| |done|apply R].
      rewrite lookup_app_r by lia. by replace (S (length (past t)) - length (past t))%nat with 1%nat by lia. }
  cbn [edit line_edit]. unfold push. cbn zeta. rewrite Z. split; cbn [fst snd undo_stack_ redo_stack_ past now future]; [done| |done|].
  - destruct (4096 <? _); rewrite ?length_drop, !length_app, P; done.
  - rewrite reverse_nil, app_nil_r. destruct (4096 <? _); [|by rewrite <-app_assoc].
    intros i b Hb. rewrite lookup_drop in Hb. destruct (G _ _ Hb) as (v & v' & E1 & E2 & E3 & E4). exists v, v'.
    assert (Hd : forall x, drop 1 (past t ++ [now t]) ++ [x] = drop 1 (past t ++ [now t; x])) by (intros x; destruct (past t); cbn; by rewrite ?drop_0, <-?app_assoc).
    rewrite Hd, !lookup_drop. split_and!; [exact E1|exact E2|done|done].
Qed.

Lemma undo_line m w t : on_line (m, w) t -> on_line (edit (m, w) Undo) (line_edit t Undo).
Proof.
  intros [E P F L]. cbn in E, P, F, L. subst w. cbn [edit line_edit]. unfold undo. destruct (last (undo_stack_ m)) as [a|] eqn:Ea.
  - pose proof (removelast_length _ _ Ea) as Ln. pose proof (stack_last _ _ Ea) as Eu.
    destruct (last (past t)) as [v|] eqn:Ev; [|apply last_None in Ev; rewrite Ev in P; cbn in P; lia].
    pose proof (removelast_length _ _ Ev) as Lp. pose proof (stack_last _ _ Ev) as Ep. split; cbn [fst snd undo_stack_ redo_stack_ past now future].
    + destruct (L (length (removelast (undo_stack_ m))) a) as (x & x' & E1 & E2 & E3 & E4).
      { rewrite lookup_app_l by lia. by apply last_at. }
      rewrite <-Ln, P in E2. rewrite lookup_app_r, Nat.sub_diag in E2 by lia. injection E2 as E2.
      assert (E0 : length (removelast (undo_stack_ m)) = length (removelast (past t))) by lia.
      rewrite E0, lookup_app_l, (last_at _ _ Ev) in E1 by lia. injection E1 as E1. congruence.
    + lia.
    + rewrite length_app. cbn. lia.
    + rewrite reverse_snoc. replace (removelast (undo_stack_ m) ++ a :: reverse (redo_stack_ m)) with (undo_stack_ m ++ reverse (redo_stack_ m))
        by (rewrite Eu at 1; by rewrite <-app_assoc).
      replace (removelast (past t) ++ v :: now t :: future t) with (past t ++ now t :: future t) by (rewrite Ep at 1; by rewrite <-app_assoc). done.
  - apply last_None in Ea. rewrite Ea in P. cbn in P. symmetry in P. apply nil_length_inv in P. rewrite P. split; cbn; [done|by rewrite Ea, P|done|exact L].
Qed.

Lemma redo_line m w t : on_line (m, w) t -> on_line (edit (m, w) Redo) (line_edit t Redo).
Proof.
  intros [E P F L]. cbn in E, P, F, L. subst w. cbn [edit line_edit]. unfold redo. destruct (last (redo_stack_ m)) as [a|] eqn:Ea.
  - pose proof (removelast_length _ _ Ea) as Ln. pose proof (stack_last _ _ Ea) as Eu.
    destruct (future t) as [|v f] eqn:Ev; [cbn in F; lia|]. cbn in F.
    assert (Er : reverse (redo_stack_ m) = a :: reverse (removelast (redo_stack_ m))) by (rewrite Eu at 1; by rewrite reverse_snoc).
    split; cbn [fst snd undo_stack_ redo_stack_ past now future].
    + destruct (L (length (undo_stack_ m)) a) as (x & x' & E1 & E2 & E3 & E4); [by rewrite lookup_app_r, Nat.sub_diag, Er by lia|].
      rewrite P, lookup_app_r, Nat.sub_diag in E1 by lia. injection E1 as E1.
      rewrite P, lookup_app_r in E2 by lia. replace (S (length (past t)) - length (past t))%nat with 1%nat in E2 by lia. injection E2 as E2. congruence.
    + rewrite !length_app. cbn. lia.
    + lia.
    + rewrite <-!app_assoc. cbn. by rewrite <-Er.
  - apply last_None in Ea. rewrite Ea in F. cbn in F. symmetry in F. apply nil_length_inv in F. rewrite F. split; cbn; [done|done|by rewrite Ea, F|exact L].
Qed.

(** C40: the two stacks are a line of worlds: when each action's undo takes back its
    redo, any sequence of edits, undos, redos and clears leaves the world the line
    says, and there is something to undo or redo exactly when the line goes on there;
    the line keeps the last 4096 worlds. *)
Theorem undo_is_a_timeline (ops : list edit_t) (w : World) :
  (forall a v, Do a ∈ ops -> undo_fn a (redo_fn a v) = v) ->
  let st := foldl edit (mk_um [] [], w) ops in
  let t := foldl line_edit (mk_line [] w []) ops in
  st.2 = now t /\ can_undo st.1 = negb (bool_decide (length (past t) = 0%nat)) /\
  can_redo st.1 = negb (bool_decide (length (future t) = 0%nat)).
Proof.
  intros R st t.
  assert (G : forall st t, on_line st t -> on_line (foldl edit st ops) (foldl line_edit t ops)).
  { clear st t. induction ops as [|o ops IH]; intros [m v] t H; [done|]. apply IH; [intros a x Ha; apply R; by right|].
    destruct o as [a| | |]; [apply do_line; [done|intros x; apply R; left]|by apply undo_line|by apply redo_line|].
    destruct H as [H1 _ _ _]. split; [exact H1|done|done|]. by intros i b Hb. }
  destruct (G (mk_um [] [], w) (mk_line [] w [])) as [E1 E2 E3 _]; [split; [done|done|done|]; by intros i b Hb|].
  split; [exact E1|]. unfold can_undo, can_redo, st. by rewrite E2, E3.
Qed.
End Undo.
Arguments edit_t : clear implicits.

(** Adding to a number, and taking it back. *)
Definition add (n : Z) : UndoAction (World := Z) := mk_undo (fun w => w - n) (fun w => w + n) [].

Lemma undo_is_a_timeline_witness :
  let ops := [Do (add 1); Do (add 2); Undo; Undo; Redo; Do (add 5)] in
  (foldl edit (mk_um [] [], 10) ops).2 = now (foldl line_edit (mk_line [] 10 []) ops) /\ (foldl edit (mk_um [] [], 10) ops).2 = 16.
Proof.
  intros ops. split; [|by vm_compute].
  refine (proj1 (undo_is_a_timeline ops 10 _)). intros a v H.
  repeat (apply elem_of_cons in H as [E|H]; [first [discriminate E|injection E as ->; cbn; lia]|]). by apply not_elem_of_nil in H.
Defined.
