(* ===== verification/Watch.v ===== *)
(** * The watch list: src/core/memory/watch_service.cpp

    Entries with freeze writes and the values of the last pass.  Each section that the
    mutex guards is one function on [state_t]; a pass is made of the section that
    snapshots the entries, one access of the target per entry, the section that merges
    the samples and the publication after it, and [step] interleaves these with the other
    operations and with the target, which runs on its own.  The target and the published
    events are parameters of the world outside. *)

From S2P Require Import Prelude Values.
From Corelib Require Import SpecFloat.

#[local] Open Scope Z_scope.

(** ** State *)

Record entry_t := mk_entry { id : Z; addr : Z; width : value_width_t; label : list Z; freeze : bool; frozen_bits : Z }.
Record value_t := mk_value { v_id : Z; v_addr : Z; ok : bool; held : bool; bits : Z; text : list Z }.

(** The payloads of "watch.list" and "watch.values". *)
Inductive event :=
  | Watch_list (rows : list (Z * Z * list Z * list Z * bool * Z * list Z))
  | Watch_values (attached : bool) (rows : list value_t).

Record state_t := mk_state {
  entries : list entry_t; last : list value_t; next_id : Z; last_pass_ms : Z; events : list event
}.

Definition st : state_t := mk_state [] [] 1 0 [].

Definition kMaxLiveReads : Z := 64.
Definition kSampleIntervalMs : Z := 100.
Definition max_watch_entries : Z := 4096.

Definition width_name (w : value_width_t) : list Z :=
  match w with
  | w_i8 => bs "i8" | w_u8 => bs "u8" | w_i16 => bs "i16" | w_u16 => bs "u16" | w_i32 => bs "i32" | w_u32 => bs "u32"
  | w_i64 => bs "i64" | w_u64 => bs "u64" | w_f32 => bs "f32" | w_f64 => bs "f64"
  end.

Definition set_entries (es : list entry_t) (s : state_t) : state_t := mk_state es (last s) (next_id s) (last_pass_ms s) (events s).
Definition set_last (vs : list value_t) (s : state_t) : state_t := mk_state (entries s) vs (next_id s) (last_pass_ms s) (events s).
Definition publish (e : event) (s : state_t) : state_t := mk_state (entries s) (last s) (next_id s) (last_pass_ms s) (events s ++ [e]).

Definition set_hold (b : Z) (e : entry_t) : entry_t := mk_entry (id e) (addr e) (width e) (label e) (freeze e) b.
Definition set_frozen (on : bool) (e : entry_t) : entry_t := mk_entry (id e) (addr e) (width e) (label e) on (frozen_bits e).

Definition find (s : state_t) (i : Z) : option entry_t := snd <$> list_find (fun e => id e = i) (entries s).

(** Writing through the pointer that [find] returns: the first entry with the id. *)
Fixpoint update (i : Z) (g : entry_t -> entry_t) (l : list entry_t) : list entry_t :=
  match l with [] => [] | e :: l' => if id e =? i then g e :: l' else e :: update i g l' end.

(** The row of the last pass with an id. *)
Definition find_value (vs : list value_t) (i : Z) : option value_t := snd <$> list_find (fun v => v_id v = i) vs.

Section Watch.
Context {World : Type} (format_g : Z -> spec_float -> list Z).

(** The session: whether one is valid, and its reads and writes of [n] bytes. *)
Context (attached : World -> bool) (t_read : World -> Z -> Z -> option Z) (t_write : World -> Z -> Z -> Z -> bool * World).

Definition entry_json (e : entry_t) : Z * Z * list Z * list Z * bool * Z * list Z :=
  (id e, addr e, width_name (width e), label e, freeze e, frozen_bits e, format_value_text format_g (width e) (frozen_bits e)).

Definition publish_list_locked (s : state_t) : state_t := publish (Watch_list (entry_json <$> entries s)) s.

(** ** Operations *)

Definition add (a : Z) (w : value_width_t) (lbl : list Z) (s : state_t) : Z * state_t :=
  if max_watch_entries <=? zlen (entries s) then (0, s)
  else
    (next_id s,
     publish_list_locked (mk_state (entries s ++ [mk_entry (next_id s) a w lbl false 0]) (last s) (u64 (next_id s + 1)) (last_pass_ms s) (events s))).

Definition remove (i : Z) (s : state_t) : bool * state_t :=
  let es := List.filter (fun e => negb (id e =? i)) (entries s) in
  if zlen es =? zlen (entries s) then (false, set_entries es s)
  else (true, publish_list_locked (set_last (List.filter (fun v => negb (v_id v =? i)) (last s)) (set_entries es s))).

Definition clear (s : state_t) : state_t := publish_list_locked (set_last [] (set_entries [] s)).

(** Freezing latches the last sample. *)
Definition latch (on : bool) (vs : list value_t) (i : Z) (e : entry_t) : entry_t :=
  if on && negb (freeze e) then
    match find_value vs i with Some v => if ok v then set_hold (bits v) e else e | None => e end
  else e.

Definition set_freeze (i : Z) (on : bool) (s : state_t) : bool * state_t :=
  match find s i with
  | None => (false, s)
  | Some _ => (true, publish_list_locked (set_entries (update i (fun e => set_frozen on (latch on (last s) i e)) (entries s)) s))
  end.

Definition set_width (i : Z) (w : value_width_t) (s : state_t) : bool * state_t :=
  match find s i with
  | None => (false, s)
  | Some _ => (true, publish_list_locked (set_entries (update i (fun e => mk_entry (id e) (addr e) w (label e) (freeze e) (frozen_bits e)) (entries s)) s))
  end.

Definition set_label (i : Z) (lbl : list Z) (s : state_t) : bool * state_t :=
  match find s i with
  | None => (false, s)
  | Some _ => (true, publish_list_locked (set_entries (update i (fun e => mk_entry (id e) (addr e) (width e) lbl (freeze e) (frozen_bits e)) (entries s)) s))
  end.

(** The first section of [poke]: the address and the size to write. *)
Definition poke_latch (i b : Z) (s : state_t) : option (Z * Z) * state_t :=
  match find s i with
  | None => (None, s)
  | Some e => (Some (addr e, value_size (width e)), set_entries (update i (set_hold b) (entries s)) s)
  end.

(** The rest, outside the mutex: the error text, if any. *)
Definition poke_write (a n b : Z) (s : state_t) (w : World) : option (list Z) * state_t * World :=
  if negb (attached w) then (Some (bs "no target attached"), s, w)
  else let '(done, w) := t_write w a n b in if done then (None, publish_list_locked s, w) else (Some (bs "write failed"), s, w).

Definition poke (i b : Z) (s : state_t) (w : World) : option (list Z) * state_t * World :=
  match poke_latch i b s with
  | (None, s) => (Some (bs "no such watch entry"), s, w)
  | (Some (a, n), s) => poke_write a n b s w
  end.

Definition list_entries (s : state_t) : list entry_t := entries s.
Definition values (s : state_t) : list value_t := last s.
Definition size (s : state_t) : Z := zlen (entries s).

(** ** The pass *)

Definition tick_begin (now : Z) (s : state_t) : option (list entry_t) * state_t :=
  if bool_decide (entries s = []) then (None, set_last [] s)
  else if now - last_pass_ms s <? kSampleIntervalMs then (None, s)
  else (Some (entries s), mk_state (entries s) (last s) (next_id s) now (events s)).

Definition tick_detached (s : state_t) : state_t :=
  if bool_decide (last s = []) then s else publish (Watch_values false []) (set_last [] s).

(** The row of an entry, from what was read. *)
Definition row (e : entry_t) (got : option Z) : value_t :=
  let '(o, b) := match got with Some b => (true, b) | None => (false, 0) end in
  let '(o, b) := if freeze e then (true, frozen_bits e) else (o, b) in
  mk_value (id e) (addr e) o (freeze e) b (if o then format_value_text format_g (width e) b else bs "-").

Definition sample_entry (e : entry_t) (reads : Z) (w : World) : value_t * Z * World :=
  let n := value_size (width e) in
  let got := if reads <? kMaxLiveReads then t_read w (addr e) n else None in
  (row e got,
   match got with Some _ => reads + 1 | None => reads end,
   if freeze e then (t_write w (addr e) n (frozen_bits e)).2 else w).

Fixpoint sample (es : list entry_t) (reads : Z) (w : World) : list value_t * World :=
  match es with
  | [] => ([], w)
  | e :: es' =>
      let '(v, reads, w) := sample_entry e reads w in
      let '(vs, w) := sample es' reads w in (v :: vs, w)
  end.

(** Unfrozen entries follow the values. *)
Definition track (es : list entry_t) (vs : list value_t) : list entry_t :=
  foldl (fun es v => update (v_id v) (fun e => if negb (freeze e) && ok v then set_hold (bits v) e else e) es) es vs.

Definition same_row (a b : value_t) : bool := (v_id a =? v_id b) && Bool.eqb (ok a) (ok b) && (bits a =? bits b).

Fixpoint same_rows (l k : list value_t) : bool :=
  match l, k with a :: l', b :: k' => same_row a b && same_rows l' k' | [], [] => true | _, _ => false end.

(** The second section: whether anything moved. *)
Definition tick_merge (sampled : list value_t) (s : state_t) : bool * state_t :=
  (negb (same_rows (last s) sampled), set_last sampled (set_entries (track (entries s) sampled) s)).

Definition tick_publish (sampled : list value_t) (s : state_t) : state_t := publish (Watch_values true sampled) s.

Definition tick (now : Z) (s : state_t) (w : World) : state_t * World :=
  match tick_begin now s with
  | (None, s) => (s, w)
  | (Some snap, s) =>
      if negb (attached w) then (tick_detached s, w)
      else
        let '(sampled, w) := sample snap 0 w in
        let '(moved, s) := tick_merge sampled s in
        (if moved then tick_publish sampled s else s, w)
  end.

Definition shutdown (s : state_t) : state_t := mk_state [] [] (next_id s) 0 (events s).

(** ** Interleavings *)

Inductive op :=
  | Add (a : Z) (w : value_width_t) (lbl : list Z) | Remove (i : Z) | Clear | Set_freeze (i : Z) (on : bool)
  | Set_width (i : Z) (w : value_width_t) | Set_label (i : Z) (lbl : list Z) | Poke_latch (i b : Z).

Definition do_op (o : op) (s : state_t) : state_t :=
  match o with
  | Add a w lbl => (add a w lbl s).2
  | Remove i => (remove i s).2
  | Clear => clear s
  | Set_freeze i on => (set_freeze i on s).2
  | Set_width i w => (set_width i w s).2
  | Set_label i lbl => (set_label i lbl s).2
  | Poke_latch i b => (poke_latch i b s).2
  end.

(** Where the ticking thread is. *)
Inductive phase := Idle | Lost | Sampling (rest : list entry_t) (done : list value_t) (reads : Z) | Publishing (vs : list value_t).

Record sys := mk_sys { state : state_t; ph : phase; target : World }.

Inductive step : sys -> sys -> Prop :=
  | s_op o s p w : step (mk_sys s p w) (mk_sys (do_op o s) p w)
  | s_poke a n b s p w : step (mk_sys s p w) (mk_sys (poke_write a n b s w).1.2 p (poke_write a n b s w).2)
  | s_target s p w w' : step (mk_sys s p w) (mk_sys s p w')
  | s_skip now s s' w : tick_begin now s = (None, s') -> step (mk_sys s Idle w) (mk_sys s' Idle w)
  | s_begin now s s' snap w : tick_begin now s = (Some snap, s') ->
      step (mk_sys s Idle w) (mk_sys s' (if attached w then Sampling snap [] 0 else Lost) w)
  | s_lost s w : step (mk_sys s Lost w) (mk_sys (tick_detached s) Idle w)
  | s_sample s e rest vs reads w : step (mk_sys s (Sampling (e :: rest) vs reads) w)
      (mk_sys s (Sampling rest (vs ++ [(sample_entry e reads w).1.1]) (sample_entry e reads w).1.2) (sample_entry e reads w).2)
  | s_merge s vs reads w : step (mk_sys s (Sampling [] vs reads) w)
      (mk_sys (tick_merge vs s).2 (if (tick_merge vs s).1 then Publishing vs else Idle) w)
  | s_publish s vs w : step (mk_sys s (Publishing vs) w) (mk_sys (tick_publish vs s) Idle w).

(** *** What a subscriber knows *)

Definition last_values (es : list event) : list value_t :=
  foldl (fun r e => match e with Watch_values _ vs => vs | _ => r end) [] es.

(** The rows that are sent, or about to be. *)
Definition sent (s : sys) : list value_t :=
  match ph s with Publishing vs => vs | _ => last_values (events (state s)) end.

Definition core (v : value_t) : Z * bool * Z := (v_id v, ok v, bits v).

(** The rows of the entries that are listed. *)
Definition shown (es : list entry_t) (vs : list value_t) : list (Z * bool * Z) :=
  core <$> List.filter (fun v => bool_decide (v_id v ∈ id <$> es)) vs.

#[local] Arguments shown : simpl never.

(** What an entry is, without the value it holds. *)
Definition brief (r : Z * Z * list Z * list Z * bool * Z * list Z) : Z * Z * list Z * list Z * bool := r.1.1.

Definition last_list (es : list event) : list (Z * Z * list Z * list Z * bool * Z * list Z) :=
  foldl (fun r e => match e with Watch_list l => l | _ => r end) [] es.

Definition ids_below (n : Z) (l : list Z) : Prop := StronglySorted Z.lt l /\ Forall (fun i => 1 <= i < n) l.

Record watch_ok (s : sys) : Prop := mk_watch_ok {
  wo_next : 1 <= next_id (state s);
  wo_entries : ids_below (next_id (state s)) (id <$> entries (state s));
  wo_size : zlen (entries (state s)) <= max_watch_entries;
  wo_last : ids_below (next_id (state s)) (v_id <$> last (state s));
  wo_sent : ids_below (next_id (state s)) (v_id <$> sent s);
  wo_pass : match ph s with Sampling rest vs _ => ids_below (next_id (state s)) ((v_id <$> vs) ++ (id <$> rest)) | _ => True end;
  wo_view : shown (entries (state s)) (sent s) = shown (entries (state s)) (last (state s));
  wo_list : brief <$> last_list (events (state s)) = brief <$> (entry_json <$> entries (state s))
}.

(** *** Updates keep what they do not write *)

Lemma update_fmap {A} (h : entry_t -> A) i g l : (forall e, h (g e) = h e) -> h <$> update i g l = h <$> l.
Proof. intros H. induction l as [|e l IH]; [done|]. cbn. destruct (id e =? i); cbn; [by rewrite H|by rewrite IH]. Qed.

Lemma update_brief i g l :
  (forall e, id (g e) = id e /\ addr (g e) = addr e /\ width (g e) = width e /\ label (g e) = label e /\ freeze (g e) = freeze e) ->
  brief <$> (entry_json <$> update i g l) = brief <$> (entry_json <$> l).
Proof.
  intros H. rewrite <-!list_fmap_compose. apply update_fmap. intros e. cbn. unfold brief; cbn.
  by destruct (H e) as (-> & -> & -> & -> & ->).
Qed.

Lemma track_fmap {A} (h : entry_t -> A) es vs : (forall e b, h (set_hold b e) = h e) -> h <$> track es vs = h <$> es.
Proof.
  intros H. unfold track. revert es. induction vs as [|v vs IH]; intros es; [done|]. cbn. rewrite IH.
  apply update_fmap. intros e. by destruct (negb (freeze e) && ok v).
Qed.

Lemma zlen_fmap {A B} (h : A -> B) l : zlen (h <$> l) = zlen l.
Proof. unfold zlen. by rewrite length_fmap. Qed.

Lemma shown_ids es es' vs : id <$> es = id <$> es' -> shown es vs = shown es' vs.
Proof. intros E. unfold shown. by rewrite E. Qed.

Lemma shown_core es vs ws : core <$> vs = core <$> ws -> shown es vs = shown es ws.
Proof.
  unfold shown. revert ws. induction vs as [|v vs IH]; intros [|w ws] E; try done. cbn in E.
  injection E as E1 E2 E3 E4. cbn. rewrite E1. specialize (IH ws E4).
  destruct (bool_decide _); cbn; rewrite IH; [|done]. f_equal. unfold core. congruence.
Qed.

Lemma same_rows_core l k : same_rows l k = true -> core <$> l = core <$> k.
Proof.
  revert k. induction l as [|a l IH]; intros [|b k] H; try done. cbn in *. apply andb_prop in H as [H1 H2].
  unfold same_row in H1. apply andb_prop in H1 as [[H1%Z.eqb_eq Ho%eqb_prop]%andb_prop H3%Z.eqb_eq].
  rewrite (IH k H2). unfold core. by rewrite H1, Ho, H3.
Qed.

(** *** Ids *)

Lemma ids_below_sublist n l k : l `sublist_of` k -> ids_below n k -> ids_below n l.
Proof.
  intros Sub [So F]. split; [|apply Forall_forall; intros i Hi; rewrite Forall_forall in F; apply F; by eapply elem_of_sublist].
  clear F. induction Sub as [|x l k Sub IH|x l k Sub IH]; [done| |]; inversion So as [|? ? So' F]; subst; [|by apply IH].
  constructor; [by apply IH|]. rewrite Forall_forall in *. intros y Hy. apply F. by eapply elem_of_sublist.
Qed.

Lemma ids_below_mono n m l : n <= m -> ids_below n l -> ids_below m l.
Proof. intros H [So F]. split; [done|]. eapply Forall_impl; [exact F|]. cbn. lia. Qed.

Lemma ids_below_snoc n l : 1 <= n -> ids_below n l -> ids_below (n + 1) (l ++ [n]).
Proof.
  intros H [So F]. split; [|apply Forall_app; split; [eapply Forall_impl; [exact F|]; cbn; lia|by repeat constructor; lia]].
  induction So as [|x l So IH Fx]; cbn; [by repeat constructor|]. apply Forall_cons in F as [Hx F].
  constructor; [by apply IH|]. apply Forall_app. split; [done|]. repeat constructor. lia.
Qed.

Lemma ids_below_nil n : ids_below n [].
Proof. by repeat constructor. Qed.

Lemma filter_in_sublist {A} (q : A -> bool) l : List.filter q l `sublist_of` l.
Proof. induction l as [|x l IH]; [done|]. cbn. destruct (q x); by constructor. Qed.

Lemma filter_same_length {A} (q : A -> bool) l : zlen (List.filter q l) = zlen l -> List.filter q l = l.
Proof.
  unfold zlen. intros E. assert (L : length (List.filter q l) = length l) by lia. clear E. induction l as [|x l IH]; [done|].
  cbn in *. pose proof (sublist_length _ _ (filter_in_sublist q l)) as B. destruct (q x); cbn in *; [f_equal; apply IH; lia|lia].
Qed.

(** *** What is shown *)

Lemma shown_below n es vs a w lbl :
  ids_below n (v_id <$> vs) -> shown (es ++ [mk_entry n a w lbl false 0]) vs = shown es vs.
Proof.
  intros [_ F]. unfold shown. f_equal. induction vs as [|v vs IH]; [done|]. cbn in F |- *. apply Forall_cons in F as [Hv F].
  rewrite IH by done. replace (bool_decide (v_id v ∈ id <$> es ++ _)) with (bool_decide (v_id v ∈ id <$> es)); [done|].
  apply bool_decide_ext. rewrite fmap_app. cbn. set_solver by lia.
Qed.

Lemma shown_remove i es vs :
  shown (List.filter (fun e => negb (id e =? i)) es) vs = List.filter (fun c => negb (c.1.1 =? i)) (shown es vs).
Proof.
  unfold shown. induction vs as [|v vs IH]; [done|]. cbn.
  replace (bool_decide (v_id v ∈ id <$> List.filter _ es)) with (bool_decide (v_id v ∈ id <$> es) && negb (v_id v =? i)).
  - destruct (bool_decide (v_id v ∈ id <$> es)); cbn; [|done]. destruct (v_id v =? i); cbn; by rewrite IH.
  - apply eq_true_iff_eq. rewrite andb_true_iff, !bool_decide_eq_true, negb_true_iff, Z.eqb_neq, !list_elem_of_fmap. split.
    + intros [(e & E & He) N]. exists e. split; [done|]. apply list_elem_of_In, filter_In. split; [by apply list_elem_of_In|].
      apply negb_true_iff, Z.eqb_neq. congruence.
    + intros (e & E & He). apply list_elem_of_In, filter_In in He as [He N%negb_true_iff%Z.eqb_neq]. split; [|congruence].
      exists e. split; [done|]. by apply list_elem_of_In.
Qed.

Lemma shown_removed i es vs :
  shown es (List.filter (fun v => negb (v_id v =? i)) vs) = List.filter (fun c => negb (c.1.1 =? i)) (shown es vs).
Proof.
  unfold shown. induction vs as [|v vs IH]; [done|]. cbn.
  destruct (v_id v =? i) eqn:E, (bool_decide (v_id v ∈ id <$> es)) eqn:B; cbn; rewrite ?B, ?E; cbn; by rewrite IH.
Qed.

Lemma filter_idem {A} (q : A -> bool) l : List.filter q (List.filter q l) = List.filter q l.
Proof. induction l as [|x l IH]; [done|]. cbn. destruct (q x) eqn:E; cbn; rewrite ?E; by rewrite IH. Qed.

Lemma shown_none vs : shown [] vs = [].
Proof. unfold shown. induction vs as [|v vs IH]; [done|]. cbn. rewrite bool_decide_eq_false_2; [exact IH|]. apply not_elem_of_nil. Qed.

Lemma last_values_snoc es e : last_values (es ++ [e]) = match e with Watch_values _ vs => vs | _ => last_values es end.
Proof. unfold last_values. by rewrite foldl_app. Qed.

Lemma last_list_snoc es e : last_list (es ++ [e]) = match e with Watch_list l => l | _ => last_list es end.
Proof. unfold last_list. by rewrite foldl_app. Qed.

(** *** Every step keeps the invariant *)

(** A change of entries that keeps their ids, published unless the list looks the same. *)
Lemma edit_ok s p w w' es lp evs :
  watch_ok (mk_sys s p w) -> id <$> es = id <$> entries s ->
  (evs = events s /\ brief <$> (entry_json <$> es) = brief <$> (entry_json <$> entries s) \/ evs = events s ++ [Watch_list (entry_json <$> es)]) ->
  watch_ok (mk_sys (mk_state es (last s) (next_id s) lp evs) p w').
Proof.
  intros [N E Z L Se P V Li] I Ev. cbn in *.
  assert (Sn : sent (mk_sys (mk_state es (last s) (next_id s) lp evs) p w') = sent (mk_sys s p w)).
  { unfold sent. cbn. destruct p; [..|done]; (destruct Ev as [[-> _]| ->]; [done|apply last_values_snoc]). }
  split; rewrite ?Sn; cbn; try done.
  - by rewrite I.
  - by rewrite <-(zlen_fmap id), I, zlen_fmap.
  - by rewrite !(shown_ids es (entries s)).
  - destruct Ev as [[-> B]| ->]; [by rewrite B|]. by rewrite last_list_snoc.
Qed.

Lemma update_ids i g l : (forall e, id (g e) = id e) -> id <$> update i g l = id <$> l.
Proof. apply update_fmap. Qed.

Lemma latch_id on vs i : forall e, id (set_frozen on (latch on vs i e)) = id e.
Proof. intros e. unfold latch. destruct (on && _); [|done]. destruct (find_value vs i); [|done]. by destruct (ok _). Qed.

Lemma add_ok a wd lbl s p w :
  next_id s + 1 < 2 ^ 64 -> watch_ok (mk_sys s p w) -> watch_ok (mk_sys (add a wd lbl s).2 p w).
Proof.
  intros B H. unfold add. destruct (Z.leb_spec max_watch_entries (zlen (entries s))) as [|Sz]; [done|].
  destruct H as [N E Z L Se P V Li]. cbn in *. assert (U : u64 (next_id s + 1) = next_id s + 1) by (apply wrap_small; split; lia).
  set (s' := mk_sys _ p w). assert (Sn : sent s' = sent (mk_sys s p w)).
  { unfold sent, s'. cbn. destruct p; [..|done]; apply last_values_snoc. }
  split; rewrite ?Sn; cbn; rewrite ?U.
  - lia.
  - rewrite fmap_app. by apply ids_below_snoc.
  - unfold zlen in *. rewrite length_app. cbn. lia.
  - eapply ids_below_mono; [|exact L]. lia.
  - eapply ids_below_mono; [|exact Se]. lia.
  - destruct p; try done. eapply ids_below_mono; [|exact P]. lia.
  - rewrite !shown_below by done. exact V.
  - by rewrite last_list_snoc.
Qed.

Lemma remove_ok i s p w : watch_ok (mk_sys s p w) -> watch_ok (mk_sys (remove i s).2 p w).
Proof.
  intros H. unfold remove. destruct (Z.eqb_spec (zlen (List.filter (fun e => negb (id e =? i)) (entries s))) (zlen (entries s))) as [E|_].
  - cbn. apply (edit_ok s p w); [done|..]; rewrite filter_same_length by done; auto.
  - destruct H as [N E Z L Se P V Li]. cbn in *. set (s' := mk_sys _ p w).
    assert (Sn : sent s' = sent (mk_sys s p w)). { unfold sent, s'. cbn. destruct p; [..|done]; apply last_values_snoc. }
    split; rewrite ?Sn; cbn; try done.
    + eapply ids_below_sublist; [|exact E]. apply fmap_sublist, filter_in_sublist.
    + unfold zlen in *. pose proof (sublist_length _ _ (filter_in_sublist (fun e => negb (id e =? i)) (entries s))). lia.
    + eapply ids_below_sublist; [|exact L]. apply fmap_sublist, filter_in_sublist.
    + rewrite !shown_remove, shown_removed, V. by rewrite filter_idem.
    + by rewrite last_list_snoc.
Qed.

Lemma clear_ok s p w : watch_ok (mk_sys s p w) -> watch_ok (mk_sys (clear s) p w).
Proof.
  intros [N E Z L Se P V Li]. cbn in *. set (s' := mk_sys _ p w).
  assert (Sn : sent s' = sent (mk_sys s p w)). { unfold sent, s'. cbn. destruct p; [..|done]; apply last_values_snoc. }
  split; rewrite ?Sn; cbn; try done; try apply ids_below_nil; [by rewrite !shown_none|by rewrite last_list_snoc].
Qed.

Lemma set_freeze_ok i on s p w : watch_ok (mk_sys s p w) -> watch_ok (mk_sys (set_freeze i on s).2 p w).
Proof.
  intros H. unfold set_freeze. destruct (find s i); [|done]. apply (edit_ok s p w); [exact H| |by right].
  apply update_ids, latch_id.
Qed.

Lemma op_ok o s p w : next_id s + 1 < 2 ^ 64 -> watch_ok (mk_sys s p w) -> watch_ok (mk_sys (do_op o s) p w).
Proof.
  intros B H. destruct o; cbn [do_op].
  - by apply add_ok.
  - by apply remove_ok.
  - by apply clear_ok.
  - by apply set_freeze_ok.
  - unfold set_width. destruct (find s i); [|done]. apply (edit_ok s p w); [exact H|by apply update_ids|by right].
  - unfold set_label. destruct (find s i); [|done]. apply (edit_ok s p w); [exact H|by apply update_ids|by right].
  - unfold poke_latch. destruct (find s i); [|done]. apply (edit_ok s p w); [exact H|by apply update_ids|].
    left. split; [done|]. by apply update_brief.
Qed.

Lemma target_ok s p w w' : watch_ok (mk_sys s p w) -> watch_ok (mk_sys s p w').
Proof. intros [N E Z L Se P V Li]. by split. Qed.

Lemma poke_ok a n b s p w : watch_ok (mk_sys s p w) -> watch_ok (mk_sys (poke_write a n b s w).1.2 p (poke_write a n b s w).2).
Proof.
  intros H. unfold poke_write. destruct (attached w); cbn; [|done]. destruct (t_write w a n b) as [[] w']; cbn.
  - apply (edit_ok s p w); [exact H|done|by right].
  - by eapply target_ok.
Qed.

Lemma merge_ok s vs reads w :
  watch_ok (mk_sys s (Sampling [] vs reads) w) ->
  watch_ok (mk_sys (tick_merge vs s).2 (if (tick_merge vs s).1 then Publishing vs else Idle) w).
Proof.
  intros [N E Z L Se P V Li]. cbn in N, E, Z, L, Se, P, V, Li. rewrite app_nil_r in P.
  assert (I : id <$> track (entries s) vs = id <$> entries s) by (by apply track_fmap).
  assert (B : brief <$> (entry_json <$> track (entries s) vs) = brief <$> (entry_json <$> entries s))
    by (rewrite <-!list_fmap_compose; by apply track_fmap).
  set (p' := if (tick_merge vs s).1 then Publishing vs else Idle). assert (S' : sent (mk_sys (tick_merge vs s).2 p' w) = if negb (same_rows (last s) vs) then vs else last_values (events s)).
  { unfold sent, p'. cbn. by destruct (same_rows (last s) vs). }
  unfold sent in V, Se. cbn in V, Se. split; rewrite ?S'; cbn; rewrite ?I, ?B; try done.
  - by rewrite <-(zlen_fmap id), I, zlen_fmap.
  - by destruct (same_rows _ _).
  - unfold p'. cbn. by destruct (same_rows _ _).
  - rewrite !(shown_ids _ (entries s) _ I). destruct (same_rows (last s) vs) eqn:Eq; cbn; [|done]. rewrite V.
    by apply shown_core, same_rows_core.
Qed.

Lemma watch_step_ok s s' : step s s' -> next_id (state s) + 1 < 2 ^ 64 -> watch_ok s -> watch_ok s'.
Proof.
  intros St B H. destruct St as [o s p w|a n b s p w|s p w w'|now s s' w T|now s s' snap w T|s w|s e rest vs reads w|s vs reads w|s vs w]; cbn in B.
  - by apply op_ok.
  - by apply poke_ok.
  - by eapply target_ok.
  - unfold tick_begin in T. destruct (bool_decide_reflect (entries s = [])) as [Em|_]; [|destruct (_ <? _); by simplify_eq].
    injection T as <-. destruct H as [N E Z L Se P V Li]. cbn in *. split; cbn; try done; [apply ids_below_nil|]. rewrite Em in *. by rewrite !shown_none.
  - unfold tick_begin in T. destruct (bool_decide _); [done|]. destruct (_ <? _); [done|]. injection T as <- <-.
    destruct H as [N E Z L Se P V Li]. cbn in *. by destruct (attached w).
  - unfold tick_detached. destruct (bool_decide_reflect (last s = [])) as [Em|_]; destruct H as [N E Z L Se P V Li]; cbn in *; [done|].
    split; cbn; try done; unfold sent; cbn; rewrite ?last_values_snoc, ?last_list_snoc; cbn; try done; apply ids_below_nil.
  - destruct H as [N E Z L Se P V Li]. cbn in *. split; cbn; try done. rewrite fmap_app, <-app_assoc. cbn.
    unfold row. by destruct (if reads <? _ then _ else _), (freeze e).
  - by eapply merge_ok.
  - destruct H as [N E Z L Se P V Li]. cbn in *. unfold sent in *. cbn in *.
    split; cbn; unfold sent; cbn; rewrite ?last_values_snoc, ?last_list_snoc; done.
Qed.

Lemma step_next s s' : step s s' -> next_id (state s) + 1 < 2 ^ 64 -> 1 <= next_id (state s) -> 1 <= next_id (state s') <= next_id (state s) + 1.
Proof.
  intros St B N. assert (U : u64 (next_id (state s) + 1) = next_id (state s) + 1) by (apply wrap_small; split; lia).
  destruct St as [o s p w|a n b s p w|s p w w'|now s s' w T|now s s' snap w T|s w|s e rest vs reads w|s vs reads w|s vs w]; cbn in *; try lia.
  - destruct o; cbn; unfold add, remove, set_freeze, set_width, set_label, poke_latch;
      [destruct (_ <=? _)|destruct (_ =? _)| |destruct (find s i)..]; cbn; lia.
  - unfold poke_write. destruct (attached w); cbn; [|lia]. destruct (t_write w a n b) as [[] ?]; cbn; lia.
  - unfold tick_begin in T. destruct (bool_decide _); [|destruct (_ <? _)]; simplify_eq; cbn; lia.
  - unfold tick_begin in T. destruct (bool_decide _); [|destruct (_ <? _)]; simplify_eq; cbn; lia.
  - unfold tick_detached. destruct (bool_decide _); cbn; lia.
Qed.

Definition start (w : World) : sys := mk_sys st Idle w.

Lemma start_ok w : watch_ok (start w).
Proof. split; cbn; try done; apply ids_below_nil. Qed.

Lemma steps_ok n w s : nsteps step n (start w) s -> Z.of_nat n + 2 < 2 ^ 64 -> watch_ok s /\ next_id (state s) <= Z.of_nat n + 1.
Proof.
  revert s. induction n as [|n IH]; intros s St B.
  - inversion St. subst. split; [apply start_ok|done].
  - apply nsteps_inv_r in St as (s1 & St & H). destruct (IH s1 St) as [W N]; [lia|].
    split; [eapply watch_step_ok; [exact H|lia|done]|]. pose proof (step_next _ _ H). destruct W. lia.
Qed.

(** *** A pass that nothing interrupts *)

(** The documented behaviour of the session: a write that succeeds is read back, and
    bytes outside it stay. *)
Record session_laws := mk_laws {
  sl_own w a n b : 0 < n -> (t_write w a n b).1 = true -> t_read (t_write w a n b).2 a n = Some (b mod 2 ^ (8 * n));
  sl_other w a n b a' n' : 0 < n -> 0 < n' -> a + n <= a' \/ a' + n' <= a -> t_read (t_write w a n b).2 a' n' = t_read w a' n'
}.

Definition bytes_of (e : entry_t) : Z := value_size (width e).

Lemma bytes_pos e : 0 < bytes_of e.
Proof. unfold bytes_of. by destruct (width e). Qed.

(** [e] does not write into the [n] bytes at [a]. *)
Definition apart (a n : Z) (e : entry_t) : Prop := freeze e = false \/ addr e + bytes_of e <= a \/ a + n <= addr e.

Section Pass.
Context (Laws : session_laws).

Lemma entry_apart e r w a n : 0 < n -> apart a n e -> t_read (sample_entry e r w).2 a n = t_read w a n.
Proof using Laws.
  intros Hn. unfold sample_entry. cbn. destruct (freeze e) eqn:F; [|done]. intros [?|Ap]; [congruence|].
  apply (sl_other Laws); [apply (bytes_pos e)|done..].
Qed.

Lemma sample_apart es r w a n : 0 < n -> Forall (apart a n) es -> t_read (sample es r w).2 a n = t_read w a n.
Proof using Laws.
  intros Hn F. revert r w. induction F as [|e es Ap F IH]; intros r w; [done|]. cbn [sample].
  pose proof (entry_apart e r w a n Hn Ap) as E. destruct (sample_entry e r w) as [[v r'] w'].
  specialize (IH r' w'). destruct (sample es r' w') as [vs w'']. cbn in *. congruence.
Qed.

(** An entry that is held has its value in the target after the pass. *)
Lemma sample_hold l e k r w :
  freeze e = true -> (forall w, (t_write w (addr e) (bytes_of e) (frozen_bits e)).1 = true) -> Forall (apart (addr e) (bytes_of e)) k ->
  t_read (sample (l ++ e :: k) r w).2 (addr e) (bytes_of e) = Some (frozen_bits e mod 2 ^ (8 * bytes_of e)).
Proof using Laws.
  intros Fz W F. revert r w. induction l as [|x l IH]; intros r w; cbn [app sample].
  - destruct (sample_entry e r w) as [[v r'] w'] eqn:E. pose proof (sample_apart k r' w' _ _ (bytes_pos e) F) as A.
    destruct (sample k r' w') as [vs w'']. cbn in *. rewrite A. unfold sample_entry in E. rewrite Fz in E. injection E as _ _ <-.
    apply (sl_own Laws); [apply bytes_pos|done].
  - destruct (sample_entry x r w) as [[v r'] w']. specialize (IH r' w'). by destruct (sample (l ++ e :: k) r' w').
Qed.

(** The row of an entry that is not held is what the target had there. *)
Lemma sample_live l e k r w v :
  freeze e = false -> Forall (apart (addr e) (bytes_of e)) l ->
  (sample (l ++ e :: k) r w).1 !! length l = Some v -> ok v = true -> t_read w (addr e) (bytes_of e) = Some (bits v).
Proof using Laws.
  intros Fz F. revert r w. induction F as [|x l Ap F IH]; intros r w; cbn [app sample].
  - destruct (sample_entry e r w) as [[v' r'] w'] eqn:E. destruct (sample k r' w') as [vs w'']. cbn. intros [= ->].
    unfold sample_entry, row in E. rewrite Fz in E. injection E as <- _ _. unfold bytes_of.
    by destruct (r <? kMaxLiveReads), (t_read w (addr e) (value_size (width e))).
  - pose proof (entry_apart x r w _ _ (bytes_pos e) Ap) as E. destruct (sample_entry x r w) as [[v' r'] w']. specialize (IH r' w').
    destruct (sample (l ++ e :: k) r' w') as [vs w'']. cbn in *. rewrite <-E. exact IH.
Qed.

(** What a row shows of a read that was made. *)
Definition reads_as (got : option Z) (v : value_t) : Prop :=
  match got with Some b => ok v = true /\ bits v = b | None => ok v = false end.

(** Below the read cap the entry is read, and its row shows the outcome. *)
Lemma sample_reads l e k r w :
  freeze e = false -> Forall (apart (addr e) (bytes_of e)) l -> r + zlen l < kMaxLiveReads ->
  exists v, (sample (l ++ e :: k) r w).1 !! length l = Some v /\ reads_as (t_read w (addr e) (bytes_of e)) v.
Proof using Laws.
  intros Fz F. revert r w. induction F as [|x l Ap F IH]; intros r w B; cbn [app sample]; unfold zlen in B; cbn [length] in B.
  - destruct (sample_entry e r w) as [[v r'] w'] eqn:E. destruct (sample k r' w') as [vs w'']. exists v. split; [done|].
    unfold sample_entry, row in E. rewrite Fz, (proj2 (Z.ltb_lt r kMaxLiveReads)) in E by lia. injection E as <- _ _. unfold bytes_of.
    by destruct (t_read w (addr e) (value_size (width e))).
  - pose proof (entry_apart x r w _ _ (bytes_pos e) Ap) as E.
    assert (R : (sample_entry x r w).1.2 <= r + 1) by (unfold sample_entry; cbn; destruct (if r <? _ then _ else _); lia).
    destruct (sample_entry x r w) as [[v' r'] w']. cbn in R, E. destruct (IH r' w') as (v & V & A); [unfold zlen; lia|].
    exists v. rewrite <-E. split; [|exact A]. destruct (sample (l ++ e :: k) r' w') as [vs w'']. exact V.
Qed.
End Pass.

(** A row describes its entry, and an entry that is held shows what it holds. *)
Definition row_of (e : entry_t) (v : value_t) : Prop :=
  v_id v = id e /\ v_addr v = addr e /\ held v = freeze e /\ (freeze e = true -> ok v = true /\ bits v = frozen_bits e).

Lemma sample_rows es r w : Forall2 row_of es (sample es r w).1.
Proof.
  revert r w. induction es as [|e es IH]; intros r w; [constructor|]. cbn [sample].
  destruct (sample_entry e r w) as [[v r'] w'] eqn:E. specialize (IH r' w'). destruct (sample es r' w') as [vs w'']. cbn in *.
  constructor; [|done]. unfold sample_entry, row in E. injection E as <- _ _. unfold row_of.
  destruct (if r <? _ then _ else _), (freeze e); cbn; by split_and!.
Qed.

Definition follow (e : entry_t) (v : value_t) : entry_t := if negb (freeze e) && ok v then set_hold (bits v) e else e.

Lemma track_skip x es vs : id x ∉ v_id <$> vs -> track (x :: es) vs = x :: track es vs.
Proof.
  unfold track. revert es. induction vs as [|v vs IH]; intros es H; [done|]. cbn in *. apply not_elem_of_cons in H as [N H].
  rewrite (proj2 (Z.eqb_neq _ _)) by done. by apply IH.
Qed.

Lemma track_zip es vs : NoDup (id <$> es) -> Forall2 row_of es vs -> track es vs = zip_with follow es vs.
Proof.
  intros N F. induction F as [|e v es vs (E & _) F IH]; [done|]. cbn in N |- *. apply NoDup_cons in N as [Ni N]. rewrite E, Z.eqb_refl.
  fold (follow e v). assert (I : id (follow e v) = id e) by (unfold follow; by destruct (negb _ && _)). rewrite <-IH by done. apply track_skip. rewrite I.
  replace (v_id <$> vs) with (id <$> es); [done|]. clear -F. induction F as [|e v es vs (E & _) F IH]; [done|]. cbn. by rewrite E, IH.
Qed.
End Watch.

(** C19: Whatever operations, target changes and passes interleave, the ids of the entries
    are distinct and increasing and their number is bounded; a subscriber that keeps the
    last "watch.values" and "watch.list" payloads knows each listed entry's address, width,
    label and freeze flag, and of the rows of [values] that are listed the id, the flag and
    the bits (with the payload that a pass is about to send). *)
Theorem subscriber_knows_watch {World} format_g (attached : World -> bool) t_read t_write n w s :
  nsteps (step format_g attached t_read t_write) n (start w) s -> Z.of_nat n + 2 < 2 ^ 64 ->
  StronglySorted Z.lt (id <$> entries (state s)) /\ zlen (entries (state s)) <= max_watch_entries /\
  StronglySorted Z.lt (v_id <$> values (state s)) /\
  shown (entries (state s)) (sent s) = shown (entries (state s)) (values (state s)) /\
  brief <$> last_list (events (state s)) = brief <$> (entry_json format_g <$> list_entries (state s)).
Proof. intros St B. by destruct (steps_ok _ _ _ _ n w s St B) as [[N [E _] Z [L _] _ _ V Li] _]. Qed.


(** ** Examples: a target of eight-byte cells *)

Definition cells_read (m : gmap Z Z) (a n : Z) : option Z := (fun x => x mod 2 ^ (8 * n)) <$> m !! a.
Definition cells_write (m : gmap Z Z) (a n b : Z) : bool * gmap Z Z := (true, <[a := b]> m).
Definition no_float (k : Z) (f : spec_float) : list Z := [].

Definition watched : state_t := (add no_float 64 w_u32 (bs "hp") (add no_float 0 w_u32 (bs "ammo") st).2).2.
Definition memory : gmap Z Z := {[ 0 := 7; 64 := 100 ]}.

(** "frozen or not, this is now the held value": a value poked into an entry that is then
    frozen before the next pass is lost; the freeze holds the sample from before. *)
Lemma poke_then_freeze_holds_old :
  let '(s, w) := tick no_float (fun _ => true) cells_read cells_write 1000 watched memory in
  let '(err, s, w) := poke no_float (fun _ => true) cells_write 1 99 s w in
  let s := (set_freeze no_float 1 true s).2 in
  let '(s, w) := tick no_float (fun _ => true) cells_read cells_write 2000 s w in
  err = None /\ frozen_bits <$> find s 1 = Some 7 /\ w !! 0 = Some 7.
Proof. vm_compute. done. Qed.

(** The same bits shown under another width are not sent again. *)
Lemma width_change_not_sent :
  let '(s, w) := tick no_float (fun _ => true) cells_read cells_write 1000 (add no_float 0 w_i8 [] st).2 ({[0 := 255]} : gmap Z Z) in
  let s := (set_width no_float 1 w_u8 s).2 in
  let '(s, w) := tick no_float (fun _ => true) cells_read cells_write 2000 s w in
  text <$> values s = [bs "255"] /\ text <$> last_values (events s) = [bs "-1"].
Proof. vm_compute. done. Qed.

(** An entry removed during a pass is back in the values when it ends. *)
Lemma removed_entry_returns :
  let '(snap, s) := tick_begin 1000 watched in
  let vs := (sample no_float cells_read cells_write (default [] snap) 0 memory).1 in
  let s := (tick_merge vs (remove no_float 1 s).2).2 in
  v_id <$> values s = [1; 2] /\ id <$> list_entries s = [2].
Proof. vm_compute. done. Qed.

(** A read that fails is not counted: the limit on the reads of a pass does not hold. *)
Lemma failed_reads_not_counted {World} format_g (t_write : World -> Z -> Z -> Z -> bool * World) e reads w :
  reads < kMaxLiveReads -> (sample_entry format_g (fun _ _ _ => None) t_write e reads w).1.2 = reads.
Proof. intros H. unfold sample_entry. cbn. by destruct (reads <? _). Qed.

Lemma cells_laws : session_laws cells_read cells_write.
Proof.
  split; unfold cells_read, cells_write; cbn.
  - intros w a n b _ _. by rewrite lookup_insert_eq.
  - intros w a n b a' n' Hn Hn' D. rewrite lookup_insert_ne by lia. done.
Qed.

(** The first entry is held at 7 while the target changes it. *)
Definition holding : state_t :=
  (set_freeze no_float 1 true (tick no_float (fun _ => true) cells_read cells_write 1000 watched memory).1).2.


(** An entry is added, a pass samples it, and the rows are sent. *)
Lemma subscriber_knows_watch_witness :
  exists s, nsteps (step no_float (fun _ => true) cells_read cells_write) 6 (start memory) s /\
    shown (entries (state s)) (last_values (events (state s))) = [(1, true, 7)] /\
    shown (entries (state s)) (sent s) = shown (entries (state s)) (values (state s)).
Proof.
  assert (St : exists s, nsteps (step no_float (fun _ => true) cells_read cells_write) 6 (start memory) s /\
    shown (entries (state s)) (last_values (events (state s))) = [(1, true, 7)]).
  { eexists. split.
    { eapply nsteps_l; [apply (s_op _ _ _ _ (Add 0 w_u32 []))|].
    eapply nsteps_l; [apply (s_begin _ _ _ _ 1000); vm_compute; reflexivity|].
    eapply nsteps_l; [apply s_sample|]. eapply nsteps_l; [apply s_merge|].
    eapply nsteps_l; [apply s_publish|]. eapply nsteps_l; [apply (s_target _ _ _ _ _ _ _ ∅)|]. apply nsteps_O. }
    vm_compute. reflexivity. }
  destruct St as (s & St & Sh). exists s. split; [done|]. split; [done|].
  apply (subscriber_knows_watch no_float (fun _ => true) cells_read cells_write 6 memory s St). lia.
Defined.
