(* ===== verification/EventBus.v ===== *)
(** * The event bus: src/core/infra/event_bus.cpp

    The output ring, the subscribers' queues and the fan out, with each section that a
    mutex guards as one function.  A subscriber is the position of its queue in
    [impls]; a weak pointer in [g_subs] is that position, and [alive] says whether the
    subscriber object still holds the queue.  Encoding a payload is a parameter. *)

From S2P Require Import Prelude.

#[local] Open Scope Z_scope.

Section Bus.
Context {json : Type} (dump : json -> option (list Z)).

Record output_line_t := mk_line { seq : Z; ms : Z; text : list Z }.
Context (line_json : output_line_t -> json) (empty_object : json).

Definition kMaxOutput : Z := 4096.
Definition kMaxQueueFrames : Z := 512.

Record impl_t := mk_impl { q : list (list Z); dropped : Z; closed : bool; alive : bool }.

Record bus_t := mk_bus {
  g_out : list output_line_t; g_out_seq : Z; g_open : bool; g_last : gmap (list Z) (list Z);
  g_subs : list nat; impls : list impl_t
}.

Definition bus0 : bus_t := mk_bus [] 0 true ∅ [] [].

(** ** Queues *)

Definition push (f : list Z) (s : impl_t) : impl_t :=
  if closed s then s
  else if kMaxQueueFrames <=? zlen (q s) then mk_impl (drop 1 (q s) ++ [f]) (u64 (dropped s + 1)) (closed s) (alive s)
  else mk_impl (q s ++ [f]) (dropped s) (closed s) (alive s).

Definition close (s : impl_t) : impl_t := mk_impl (q s) (dropped s) true (alive s).

(** [wait], when it no longer blocks: the result, the text and the queue after it. *)
Definition wait (s : impl_t) : bool * list Z * impl_t :=
  (negb (bool_decide (q s = []) && closed s), mjoin (q s), mk_impl [] (dropped s) (closed s) (alive s)).

(** ** Fan out *)

Definition make_frame (ty encoded : list Z) : list Z :=
  bs "event: " ++ ty ++ [10] ++ bs "data: " ++ encoded ++ [10; 10].

Definition set_subs (subs : list nat) (ims : list impl_t) (b : bus_t) : bus_t :=
  mk_bus (g_out b) (g_out_seq b) (g_open b) (g_last b) subs ims.

Definition is_alive (b : bus_t) (i : nat) : bool := from_option alive false (impls b !! i).

(** The registry section drops dead subscribers; the pushes follow. *)
Definition fan_out (f : list Z) (b : bus_t) : bus_t :=
  let live := List.filter (is_alive b) (g_subs b) in
  set_subs live (foldl (fun ims i => alter (push f) i ims) (impls b) live) b.

Definition send (ty encoded : list Z) (b : bus_t) : bus_t :=
  if bool_decide (g_subs b = []) then b else fan_out (make_frame ty encoded) b.

Definition publish (ty : list Z) (d : json) (b : bus_t) : bus_t :=
  if negb (g_open b) then b else match dump d with Some e => send ty e b | None => b end.

(** The section of [g_last_mu]: whether the payload is new. *)
Definition note_payload (ty encoded : list Z) (b : bus_t) : bool * bus_t :=
  if bool_decide (g_last b !! ty = Some encoded) then (false, b)
  else (true, mk_bus (g_out b) (g_out_seq b) (g_open b) (<[ty := encoded]> (g_last b)) (g_subs b) (impls b)).

Definition publish_changed (ty : list Z) (d : json) (b : bus_t) : bus_t :=
  if negb (g_open b) then b
  else
    match dump d with
    | None => b
    | Some e => let '(changed, b) := note_payload ty e b in if changed then send ty e b else b
    end.

(** ** The output ring *)

Definition append (m : Z) (line : list Z) (b : bus_t) : output_line_t * bus_t :=
  let rec := mk_line (u64 (g_out_seq b + 1)) m line in
  (rec, mk_bus ((if kMaxOutput <=? zlen (g_out b) then drop 1 (g_out b) else g_out b) ++ [rec]) (u64 (g_out_seq b + 1))
          (g_open b) (g_last b) (g_subs b) (impls b)).

Definition output (m : Z) (line : list Z) (b : bus_t) : bus_t :=
  let '(rec, b) := append m line b in publish (bs "output") (line_json rec) b.

(** [std::upper_bound] on a ring in order of its numbers: the first line above. *)
Fixpoint upper_bound (since : Z) (l : list output_line_t) : list output_line_t :=
  match l with [] => [] | x :: l' => if since <? seq x then l else upper_bound since l' end.

Definition output_since (since : Z) (b : bus_t) : list output_line_t := upper_bound since (g_out b).
Definition output_revision (b : bus_t) : Z := g_out_seq b.
Definition output_visit (b : bus_t) : list output_line_t := g_out b.

Definition output_clear (b : bus_t) : bus_t :=
  publish (bs "output.cleared") empty_object (mk_bus [] (g_out_seq b) (g_open b) (g_last b) (g_subs b) (impls b)).

(** ** Subscribers *)

(** [subscribe] in its two steps: the queue, closed when the bus is, and the entry. *)
Definition new_impl (b : bus_t) : impl_t := mk_impl [] 0 (negb (g_open b)) true.
Definition enter (s : impl_t) (b : bus_t) : nat * bus_t :=
  (length (impls b), set_subs (g_subs b ++ [length (impls b)]) (impls b ++ [s]) b).
Definition subscribe (b : bus_t) : nat * bus_t := enter (new_impl b) b.

(** The destructor closes the queue and gives up the pointer. *)
Definition unsubscribe (i : nat) (b : bus_t) : bus_t :=
  set_subs (g_subs b) (alter (fun s => mk_impl (q s) (dropped s) true false) i (impls b)) b.

Definition subscriber_count (b : bus_t) : Z := zlen (List.filter (is_alive b) (g_subs b)).

Definition shutdown (b : bus_t) : bus_t :=
  let live := List.filter (is_alive b) (g_subs b) in
  mk_bus (g_out b) (g_out_seq b) false (g_last b) [] (foldl (fun ims i => alter close i ims) (impls b) live).

Definition reset (b : bus_t) : bus_t :=
  let b := shutdown b in mk_bus [] 0 true ∅ (g_subs b) (impls b).

(** ** Histories *)

Inductive op_t :=
  | Publish (ty : list Z) (d : json) | PublishChanged (ty : list Z) (d : json) | Output (m : Z) (line : list Z) | OutputClear
  | Subscribe | Unsubscribe (i : nat) | Wait (i : nat) | Shutdown | Reset.

(** The bus, and the text that each call of [wait] gave its subscriber. *)
Definition step (st : bus_t * list (nat * list Z)) (o : op_t) : bus_t * list (nat * list Z) :=
  let '(b, got) := st in
  match o with
  | Publish ty d => (publish ty d b, got)
  | PublishChanged ty d => (publish_changed ty d b, got)
  | Output m line => (output m line b, got)
  | OutputClear => (output_clear b, got)
  | Subscribe => ((subscribe b).2, got)
  | Unsubscribe i => (unsubscribe i b, got)
  | Wait i =>
      match impls b !! i with
      | Some s => let r := wait s in (set_subs (g_subs b) (<[i := r.2]> (impls b)) b, got ++ [(i, r.1.2)])
      | None => (b, got)
      end
  | Shutdown => (shutdown b, got)
  | Reset => (reset b, got)
  end.

Definition run (ops : list op_t) (b : bus_t) : bus_t * list (nat * list Z) := foldl step (b, []) ops.

(** *** The ring, as a function of the history *)

(** The lines output since the last clear, numbered, and the last number. *)
Definition spec_line (st : Z * list output_line_t) (o : op_t) : Z * list output_line_t :=
  match o with
  | Output m line => (st.1 + 1, st.2 ++ [mk_line (st.1 + 1) m line])
  | OutputClear => (st.1, [])
  | Reset => (0, [])
  | _ => st
  end.

Definition spec_lines (ops : list op_t) : Z * list output_line_t := foldl spec_line (0, []) ops.

Definition last_n {A} (n : Z) (l : list A) : list A := drop (length l - Z.to_nat n) l.

#[global] Arguments last_n : simpl never.

Lemma last_n_push {A} (n : Z) (l : list A) x :
  0 < n -> last_n n (l ++ [x]) = (if n <=? zlen (last_n n l) then drop 1 (last_n n l) else last_n n l) ++ [x].
Proof.
  intros Hn. unfold last_n, zlen. rewrite length_drop, length_app. cbn. destruct (Z.leb_spec n (Z.of_nat (length l - (length l - Z.to_nat n)))).
  - rewrite drop_drop, drop_app_le by lia. do 2 f_equal. lia.
  - replace (length l - Z.to_nat n)%nat with 0%nat by lia. replace (length l + 1 - Z.to_nat n)%nat with 0%nat by lia. done.
Qed.

Lemma publish_ring ty d b : g_out (publish ty d b) = g_out b /\ g_out_seq (publish ty d b) = g_out_seq b.
Proof. unfold publish, send. destruct (g_open b); [|done]. cbn. destruct (dump d); [|done]. by case_bool_decide. Qed.

Lemma publish_changed_ring ty d b : g_out (publish_changed ty d b) = g_out b /\ g_out_seq (publish_changed ty d b) = g_out_seq b.
Proof.
  unfold publish_changed, note_payload, send. destruct (g_open b); [|done]. cbn. destruct (dump d); [|done].
  case_bool_decide; [done|]. by case_bool_decide.
Qed.

Lemma step_ring b got o n l :
  0 <= n -> n + 1 < 2 ^ 64 -> g_out b = last_n kMaxOutput l -> g_out_seq b = n ->
  let st := spec_line (n, l) o in
  g_out (step (b, got) o).1 = last_n kMaxOutput st.2 /\ g_out_seq (step (b, got) o).1 = st.1.
Proof.
  intros Hn Bn E En. destruct o as [ty d|ty d|m line| | |i|i| |]; cbn; try by rewrite ?E, ?En.
  - by rewrite !(proj1 (publish_ring _ _ _)), (proj2 (publish_ring _ _ _)).
  - by rewrite !(proj1 (publish_changed_ring _ _ _)), (proj2 (publish_changed_ring _ _ _)).
  - unfold output. cbn. rewrite (proj1 (publish_ring _ _ _)), (proj2 (publish_ring _ _ _)). cbn. rewrite En, wrap_small by (split; lia).
    split; [|done]. rewrite E, last_n_push by done. done.
  - unfold output_clear. by rewrite (proj1 (publish_ring _ _ _)), (proj2 (publish_ring _ _ _)).
  - destruct (impls b !! i); by rewrite ?E, ?En.
Qed.

Lemma spec_line_bounds o st : 0 <= st.1 -> 0 <= (spec_line st o).1 <= st.1 + 1.
Proof. destruct o; cbn; lia. Qed.

Lemma run_ring ops b got n l :
  0 <= n -> n + zlen ops < 2 ^ 64 -> g_out b = last_n kMaxOutput l -> g_out_seq b = n ->
  let st := foldl spec_line (n, l) ops in
  g_out (foldl step (b, got) ops).1 = last_n kMaxOutput st.2 /\ g_out_seq (foldl step (b, got) ops).1 = st.1.
Proof.
  revert b got n l. induction ops as [|o ops IH]; intros b got n l Hn Bn E En; [done|]. cbn [foldl].
  assert (Ez : zlen (o :: ops) = zlen ops + 1) by (unfold zlen; cbn; lia). pose proof (zlen_nonneg ops).
  destruct (step_ring b got o n l Hn ltac:(lia) E En) as [E1 E2]. pose proof (spec_line_bounds o (n, l) Hn) as [L1 L2]. cbn [fst] in L1, L2.
  destruct (step (b, got) o) as [b1 got1], (spec_line (n, l) o) as [n1 l1]. cbn [fst snd] in *. apply IH; [done|lia|done|done].
Qed.

(** The lines since the last clear have consecutive numbers. *)
Lemma spec_lines_at ops n l :
  (forall j x, l !! j = Some x -> seq x = n - zlen l + Z.of_nat j + 1) ->
  let st := foldl spec_line (n, l) ops in forall j x, st.2 !! j = Some x -> seq x = st.1 - zlen st.2 + Z.of_nat j + 1.
Proof.
  revert n l. induction ops as [|o ops IH]; intros n l H; [done|]. cbn [foldl].
  assert (G : let st := spec_line (n, l) o in forall j x, st.2 !! j = Some x -> seq x = st.1 - zlen st.2 + Z.of_nat j + 1).
  { destruct o; cbn; try done. intros j x Hj. rewrite zlen_app. change (zlen [mk_line (n + 1) m line]) with 1.
    apply lookup_app_Some in Hj as [Hj|[Lj Hj]]; [rewrite (H j x Hj); lia|].
    apply list_lookup_singleton_Some in Hj as [Ej <-]. unfold zlen. cbn. lia. }
  destruct (spec_line (n, l) o) as [n1 l1]. by apply IH.
Qed.

Lemma upper_bound_filter since l :
  StronglySorted (fun x y => seq x < seq y) l -> upper_bound since l = List.filter (fun x => since <? seq x) l.
Proof.
  induction 1 as [|x l S IH F]; cbn; [done|]. destruct (Z.ltb_spec since (seq x)) as [L|L]; [|done].
  f_equal. symmetry. apply filter_all. intros y Hy. rewrite Forall_forall in F. specialize (F y Hy). lia.
Qed.

Lemma numbered_sorted (l : list output_line_t) a :
  (forall j x, l !! j = Some x -> seq x = a + Z.of_nat j) -> StronglySorted (fun x y => seq x < seq y) l.
Proof.
  revert a. induction l as [|x l IH]; intros a H; constructor.
  - apply (IH (a + 1)). intros j y Hy. rewrite (H (S j) y Hy). lia.
  - apply Forall_lookup. intros j y Hy. rewrite (H 0%nat x eq_refl), (H (S j) y Hy). lia.
Qed.

Lemma last_n_lookup {A} (n : Z) (l : list A) j : last_n n l !! j = l !! (length l - Z.to_nat n + j)%nat.
Proof. apply lookup_drop. Qed.

Lemma run_output_since ops since :
  zlen ops < 2 ^ 64 ->
  output_since since (run ops bus0).1 = List.filter (fun x => since <? seq x) (last_n kMaxOutput (spec_lines ops).2).
Proof.
  intros B. destruct (run_ring ops bus0 [] 0 [] ltac:(done) ltac:(lia) eq_refl eq_refl) as [E _].
  unfold output_since, run. rewrite E. apply upper_bound_filter.
  pose proof (spec_lines_at ops 0 [] ltac:(intros j x Hj; by destruct j)) as N. cbn in N. fold (spec_lines ops) in N |- *.
  set (l := (spec_lines ops).2) in *. eapply (numbered_sorted _ ((spec_lines ops).1 - zlen l + Z.of_nat (length l - Z.to_nat kMaxOutput) + 1)).
  intros j x Hj. rewrite last_n_lookup in Hj. rewrite (N _ _ Hj). lia.
Qed.

(** *** Catching up *)

Definition clears (o : op_t) : bool := match o with OutputClear | Reset => true | _ => false end.

Lemma spec_lines_more ops n l :
  forallb (fun o => negb (clears o)) ops = true ->
  exists new, foldl spec_line (n, l) ops = (n + zlen new, l ++ new) /\ forall j x, new !! j = Some x -> seq x = n + Z.of_nat j + 1.
Proof.
  revert n l. induction ops as [|o ops IH]; intros n l H; cbn in *; [exists []; by rewrite app_nil_r, Z.add_0_r|].
  apply andb_true_iff in H as [Ho H].
  assert (Same : spec_line (n, l) o = (n, l) \/ exists m t, spec_line (n, l) o = (n + 1, l ++ [mk_line (n + 1) m t])) by (destruct o; cbn; eauto; done).
  destruct Same as [-> |(m & t & ->)]; [by apply IH|]. destruct (IH (n + 1) (l ++ [mk_line (n + 1) m t]) H) as (new & -> & N).
  exists (mk_line (n + 1) m t :: new). split.
  - rewrite <-app_assoc. cbn. f_equal. unfold zlen. cbn. lia.
  - intros [|j] x Hj; [injection Hj as <-; cbn; lia|]. rewrite (N j x Hj). lia.
Qed.

(** For every history the ring is the last 4096 lines since the last clear, with
    consecutive numbers: asking for the lines after a number gives the retained lines
    with larger numbers, in order; and a reader who asks with the newest number of an
    earlier moment gets exactly the lines output since, none lost and none twice, as
    long as they are at most 4096 and nothing was cleared. *)
Lemma output_since_catches_up ops ops' :
  zlen (ops ++ ops') < 2 ^ 64 -> forallb (fun o => negb (clears o)) ops' = true ->
  let b := (run ops bus0).1 in
  let b' := (run (ops ++ ops') bus0).1 in
  (forall since, output_since since b' = List.filter (fun x => since <? seq x) (last_n kMaxOutput (spec_lines (ops ++ ops')).2)) /\
  exists new, (spec_lines (ops ++ ops')).2 = (spec_lines ops).2 ++ new /\ output_revision b' = output_revision b + zlen new /\
    (forall j x, new !! j = Some x -> seq x = output_revision b + Z.of_nat j + 1) /\
    (zlen new <= kMaxOutput -> output_since (output_revision b) b' = new).
Proof.
  intros B C b b'. assert (B1 : zlen ops < 2 ^ 64) by (rewrite zlen_app in B; pose proof (zlen_nonneg ops'); lia).
  destruct (run_ring ops bus0 [] 0 [] ltac:(done) ltac:(lia) eq_refl eq_refl) as [_ R]. fold (run ops bus0) in R. fold b in R.
  destruct (run_ring (ops ++ ops') bus0 [] 0 [] ltac:(done) ltac:(lia) eq_refl eq_refl) as [_ R']. fold (run (ops ++ ops') bus0) in R'. fold b' in R'.
  split; [intros since; by apply run_output_since|].
  pose proof (spec_lines_at ops 0 [] ltac:(intros j x Hj; by destruct j)) as N. cbn in N.
  unfold spec_lines. rewrite foldl_app in R' |- *. destruct (foldl spec_line (0, []) ops) as [n l] eqn:El. cbn [fst snd] in *.
  destruct (spec_lines_more ops' n l C) as (new & E & Nn). rewrite E in *. cbn [fst snd] in *. exists new. unfold output_revision. rewrite R.
  split; [done|]. split; [exact R'|]. split; [exact Nn|]. intros Ln. unfold b'. rewrite run_output_since by done.
  unfold spec_lines. rewrite foldl_app, El, E. cbn [snd].
  assert (Hl : last_n kMaxOutput (l ++ new) = drop (length (l ++ new) - Z.to_nat kMaxOutput) l ++ new).
  { unfold last_n. apply drop_app_le. rewrite length_app. unfold zlen in Ln. lia. }
  rewrite Hl, List.filter_app, (filter_none _ (drop _ _)), (filter_all _ new); [done|..].
  - intros x (j & Hj)%list_elem_of_lookup. rewrite (Nn j x Hj). apply Z.ltb_lt. lia.
  - intros x (j & Hj)%list_elem_of_lookup. rewrite lookup_drop in Hj. pose proof (lookup_lt_Some _ _ _ Hj). rewrite (N _ _ Hj). apply Z.ltb_ge. unfold zlen. lia.
Qed.

(** *** The frames, as a function of the history *)

(** What an operation sends, given the last payload of each type and the last line. *)
Definition sent_frame (st : gmap (list Z) (list Z) * Z) (o : op_t) : option (list Z) :=
  match o with
  | Publish ty d => make_frame ty <$> dump d
  | PublishChanged ty d => e ← dump d; if bool_decide (st.1 !! ty = Some e) then None else Some (make_frame ty e)
  | Output m line => make_frame (bs "output") <$> dump (line_json (mk_line (u64 (st.2 + 1)) m line))
  | OutputClear => make_frame (bs "output.cleared") <$> dump empty_object
  | _ => None
  end.

Definition sent_next (st : gmap (list Z) (list Z) * Z) (o : op_t) : gmap (list Z) (list Z) * Z :=
  match o with
  | PublishChanged ty d => (from_option (fun e => <[ty := e]> st.1) st.1 (dump d), st.2)
  | Output _ _ => (st.1, u64 (st.2 + 1))
  | _ => st
  end.

Fixpoint sent (st : gmap (list Z) (list Z) * Z) (ops : list op_t) : list (list Z) :=
  match ops with
  | [] => []
  | o :: ops' => option_list (sent_frame st o) ++ sent (sent_next st o) ops'
  end.

(** Operations that leave subscriber [i] and the bus open. *)
Definition keeps_open (i : nat) (o : op_t) : bool :=
  match o with Shutdown | Reset => false | Unsubscribe j => negb (bool_decide (j = i)) | _ => true end.

(** Subscriber [i] has been sent [acc], of which it was given [deliv]. *)
Record tuned (i : nat) (b : bus_t) (acc deliv : list (list Z)) : Prop := mk_tuned {
  tu_open : g_open b = true;
  tu_subs : NoDup (g_subs b);
  tu_in : i ∈ g_subs b;
  tu_range : forall j, j ∈ g_subs b -> (j < length (impls b))%nat;
  tu_impl : exists s, impls b !! i = Some s /\ alive s = true /\ closed s = false /\ (deliv ++ q s) `sublist_of` acc /\
    zlen (deliv ++ q s) + dropped s = zlen acc /\ zlen (q s) <= kMaxQueueFrames /\ 0 <= dropped s
}.

Lemma foldl_alter_lookup (g : impl_t -> impl_t) (l : list nat) (ims : list impl_t) (i : nat) :
  NoDup l -> foldl (fun ims j => alter g j ims) ims l !! i = if decide (i ∈ l) then g <$> ims !! i else ims !! i.
Proof.
  intros N. revert ims. induction N as [|j l Nj N IH]; intros ims; cbn [foldl]; [by rewrite decide_False by apply not_elem_of_nil|].
  rewrite IH. destruct (decide (i = j)) as [->|E].
  - rewrite decide_False, decide_True by (done || by left). apply list_lookup_alter_eq.
  - rewrite list_lookup_alter_ne by done. destruct (decide (i ∈ l)); [rewrite decide_True by (by right)|rewrite decide_False]; [done|done|].
    intros [?|?]%elem_of_cons; done.
Qed.

Lemma foldl_alter_length (g : impl_t -> impl_t) (l : list nat) (ims : list impl_t) : length (foldl (fun ims j => alter g j ims) ims l) = length ims.
Proof. revert ims. induction l as [|j l IH]; intros ims; [done|]. cbn. by rewrite IH, length_alter. Qed.

Lemma filter_NoDup (p : nat -> bool) l : NoDup l -> NoDup (List.filter p l).
Proof.
  induction 1 as [|x l Nx N IH]; cbn; [constructor|]. destruct (p x); [|done]. constructor; [|done].
  intros H. apply Nx. apply list_elem_of_In, filter_In in H as [H _]. by apply list_elem_of_In.
Qed.

Lemma tuned_send i b acc deliv f :
  tuned i b acc deliv -> zlen acc + 1 < 2 ^ 64 -> tuned i (fan_out f b) (acc ++ [f]) deliv.
Proof.
  intros [Op Ns In Rg (s & Es & Al & Cl & Su & Le & Qs & D0)] B.
  assert (Hin : i ∈ List.filter (is_alive b) (g_subs b)).
  { apply list_elem_of_In, filter_In. split; [by apply list_elem_of_In|]. unfold is_alive. by rewrite Es. }
  split; cbn; [done|by apply filter_NoDup|done| |].
  - intros j Hj. rewrite foldl_alter_length. apply Rg. apply list_elem_of_In, filter_In in Hj as [Hj _]. by apply list_elem_of_In.
  - rewrite foldl_alter_lookup by (by apply filter_NoDup). rewrite decide_True, Es by done. cbn. eexists. split; [done|].
    unfold push. rewrite Cl. pose proof (zlen_nonneg deliv). pose proof (zlen_nonneg (q s)). rewrite !zlen_app in Le. destruct (Z.leb_spec kMaxQueueFrames (zlen (q s))) as [L|L]; cbn.
    + destruct (q s) as [|x q'] eqn:Eq; [unfold kMaxQueueFrames, zlen in L; cbn in L; lia|]. rewrite (skipn_O q' : drop 1 (x :: q') = q').
      assert (Ez : zlen (x :: q') = zlen q' + 1) by (unfold zlen; cbn; lia). pose proof (zlen_nonneg q').
      split_and!; [done|done| | | |].
      * rewrite app_assoc. apply sublist_app; [|done]. etrans; [|exact Su]. apply sublist_app; [done|]. by constructor.
      * rewrite !zlen_app, wrap_small by (split; lia). change (zlen [f]) with 1. lia.
      * rewrite zlen_app. change (zlen [f]) with 1. lia.
      * rewrite wrap_small by (split; lia). lia.
    + split_and!; [done|done| | | |done].
      * rewrite app_assoc. by apply sublist_app.
      * rewrite !zlen_app. lia.
      * rewrite zlen_app. change (zlen [f]) with 1. lia.
Qed.

Lemma tuned_nonempty i b acc deliv : tuned i b acc deliv -> g_subs b <> [].
Proof. intros [_ _ In _ _] E. rewrite E in In. by apply not_elem_of_nil in In. Qed.

(** Changes outside the registry keep a subscriber tuned. *)
Lemma tuned_same i b b' acc deliv :
  tuned i b acc deliv -> g_open b' = true -> g_subs b' = g_subs b -> impls b' = impls b -> tuned i b' acc deliv.
Proof. intros [A B C D E] E1 E2 E3. split; rewrite ?E2, ?E3; done. Qed.

Lemma tuned_publish i b acc deliv ty d :
  tuned i b acc deliv -> zlen acc + 1 < 2 ^ 64 -> tuned i (publish ty d b) (acc ++ option_list (make_frame ty <$> dump d)) deliv.
Proof.
  intros T B. unfold publish, send. rewrite (tu_open _ _ _ _ T). cbn. destruct (dump d); cbn; [|by rewrite app_nil_r].
  rewrite bool_decide_false by exact (tuned_nonempty _ _ _ _ T). by apply tuned_send.
Qed.

Definition sent_state (b : bus_t) : gmap (list Z) (list Z) * Z := (g_last b, g_out_seq b).

Lemma publish_state ty d b : sent_state (publish ty d b) = sent_state b.
Proof. unfold publish, send, sent_state. destruct (g_open b); [|done]. cbn. destruct (dump d); [|done]. by case_bool_decide. Qed.

(** The text of subscriber [i]. *)
Definition text_of (i : nat) (got : list (nat * list Z)) : list Z := mjoin (snd <$> List.filter (fun p => bool_decide (p.1 = i)) got).

#[local] Arguments text_of : simpl never.

Lemma text_of_app i got x : text_of i (got ++ [x]) = text_of i got ++ (if bool_decide (x.1 = i) then x.2 else []).
Proof.
  unfold text_of. rewrite List.filter_app, fmap_app, join_app. f_equal. cbn. case_bool_decide; cbn; [by rewrite app_nil_r|done].
Qed.

Lemma tuned_step i b got o acc deliv :
  tuned i b acc deliv -> text_of i got = mjoin deliv -> zlen acc + 1 < 2 ^ 64 -> keeps_open i o = true ->
  let st := step (b, got) o in
  sent_state st.1 = sent_next (sent_state b) o /\
  exists deliv', tuned i st.1 (acc ++ option_list (sent_frame (sent_state b) o)) deliv' /\ text_of i st.2 = mjoin deliv'.
Proof.
  intros T Tx B K. destruct o as [ty d|ty d|m line| | |j|j| |]; try done; cbn [step fst snd].
  - split; [apply publish_state|]. exists deliv. split; [by apply tuned_publish|done].
  - unfold publish_changed, note_payload. rewrite (tu_open _ _ _ _ T). cbn. destruct (dump d) as [e|] eqn:Ed; cbn; [|rewrite app_nil_r; eauto].
    case_bool_decide as E; cbn.
    + rewrite app_nil_r. split; [|eauto]. unfold sent_state. by rewrite insert_id.
    + unfold send. rewrite bool_decide_false by exact (tuned_nonempty _ _ _ _ T). split; [done|].
      exists deliv. split; [|done]. apply tuned_send; [|done]. apply (tuned_same i b); [done|by try apply T|done|done].
  - unfold output. cbn. set (b1 := mk_bus _ _ _ _ _ _). split; [by rewrite publish_state|]. exists deliv. split; [|done].
    apply tuned_publish; [apply (tuned_same i b); [done|by try apply T|done|done]|done].
  - unfold output_clear. set (b1 := mk_bus _ _ _ _ _ _). split; [by rewrite publish_state|]. exists deliv. split; [|done].
    apply tuned_publish; [apply (tuned_same i b); [done|by try apply T|done|done]|done].
  - split; [done|]. exists deliv. cbn. rewrite app_nil_r. split; [|done]. destruct T as [Op Ns In Rg (s & Es & R)].
    split; cbn; [done| |set_solver| |].
    + apply NoDup_app. split_and!; [done| |apply NoDup_singleton]. intros k Hk%Rg ->%list_elem_of_singleton. lia.
    + intros k Hk. rewrite length_app. cbn. apply elem_of_app in Hk as [Hk%Rg|Hk%list_elem_of_singleton]; lia.
    + exists s. split; [by apply lookup_app_l_Some|done].
  - split; [done|]. exists deliv. cbn. rewrite app_nil_r. split; [|done]. cbn in K. apply negb_true_iff, bool_decide_eq_false in K.
    destruct T as [Op Ns In Rg (s & Es & R)]. split; cbn; [done|done|done| |].
    + intros k Hk. rewrite length_alter. by apply Rg.
    + exists s. rewrite list_lookup_alter_ne by done. done.
  - cbn. rewrite app_nil_r. destruct (impls b !! j) as [s'|] eqn:Ej; cbn; [|eauto]. split; [done|]. rewrite text_of_app. cbn.
    destruct T as [Op Ns In Rg (s & Es & Al & Cl & Su & Le & Qs & D0)].
    assert (Rg' : forall k, k ∈ g_subs b -> (k < length (<[j := mk_impl [] (dropped s') (closed s') (alive s')]> (impls b)))%nat)
      by (intros k Hk; rewrite length_insert; by apply Rg).
    case_bool_decide as E.
    + subst j. rewrite Es in Ej. injection Ej as <-. exists (deliv ++ q s). split; [|by rewrite Tx, join_app].
      split; cbn; [done|done|done|done|]. eexists. rewrite list_lookup_insert_eq by (by apply Rg). split; [done|].
      rewrite app_nil_r. split_and!; try done.
    + exists deliv. rewrite app_nil_r. split; [|done]. split; cbn; [done|done|done|done|]. exists s. by rewrite list_lookup_insert_ne.
Qed.

Lemma sublist_full {A} (l k : list A) : l `sublist_of` k -> length l = length k -> l = k.
Proof.
  induction 1 as [|x l k H IH|x l k H IH]; intros E; [done|f_equal; apply IH; by injection E|]. apply sublist_length in H. cbn in E. lia.
Qed.

Lemma sent_length st ops : zlen (sent st ops) <= zlen ops.
Proof.
  revert st. induction ops as [|o ops IH]; intros st; [done|]. cbn [sent]. rewrite zlen_app. specialize (IH (sent_next st o)).
  assert (zlen (option_list (sent_frame st o)) <= 1) by (by destruct (sent_frame st o)). unfold zlen in *. cbn [length]. lia.
Qed.

Lemma tuned_run i ops b got acc deliv :
  tuned i b acc deliv -> text_of i got = mjoin deliv -> zlen acc + zlen ops < 2 ^ 64 -> forallb (keeps_open i) ops = true ->
  exists deliv', tuned i (foldl step (b, got) ops).1 (acc ++ sent (sent_state b) ops) deliv' /\
    text_of i (foldl step (b, got) ops).2 = mjoin deliv'.
Proof.
  revert b got acc deliv. induction ops as [|o ops IH]; intros b got acc deliv T Tx B K; [exists deliv; by rewrite app_nil_r|].
  cbn in K. apply andb_true_iff in K as [Ko K]. assert (Ez : zlen (o :: ops) = zlen ops + 1) by (unfold zlen; cbn; lia).
  pose proof (zlen_nonneg ops). destruct (tuned_step i b got o acc deliv T Tx ltac:(lia) Ko) as (Es & deliv1 & T1 & Tx1).
  cbn [foldl sent]. destruct (step (b, got) o) as [b1 got1]. cbn [fst snd] in *. rewrite <-Es, app_assoc. apply (IH b1 got1 _ deliv1); try done.
  rewrite zlen_app. assert (zlen (option_list (sent_frame (sent_state b) o)) <= 1) by (by destruct (sent_frame _ o)). lia.
Qed.

(** The registry of every history. *)
Lemma step_registry b got o :
  NoDup (g_subs b) -> (forall j, j ∈ g_subs b -> (j < length (impls b))%nat) ->
  let b' := (step (b, got) o).1 in NoDup (g_subs b') /\ forall j, j ∈ g_subs b' -> (j < length (impls b'))%nat.
Proof.
  intros N R.
  assert (Fan : forall f b, NoDup (g_subs b) -> (forall j, j ∈ g_subs b -> (j < length (impls b))%nat) ->
    NoDup (g_subs (fan_out f b)) /\ forall j, j ∈ g_subs (fan_out f b) -> (j < length (impls (fan_out f b)))%nat).
  { clear. intros f b N R. cbn. split; [by apply filter_NoDup|]. intros j Hj. rewrite foldl_alter_length. apply R.
    apply list_elem_of_In, filter_In in Hj as [Hj _]. by apply list_elem_of_In. }
  assert (Pub : forall ty d b, NoDup (g_subs b) -> (forall j, j ∈ g_subs b -> (j < length (impls b))%nat) ->
    NoDup (g_subs (publish ty d b)) /\ forall j, j ∈ g_subs (publish ty d b) -> (j < length (impls (publish ty d b)))%nat).
  { clear -Fan. intros ty d b N R. unfold publish, send. destruct (g_open b); [|done]. cbn. destruct (dump d); [|done]. case_bool_decide; [done|by apply Fan]. }
  destruct o as [ty d|ty d|m line| | |j|j| |]; cbn [step fst snd]; try (by apply Pub).
  - unfold publish_changed, note_payload, send. destruct (g_open b); [|done]. cbn. destruct (dump d); [|done]. case_bool_decide; [done|].
    case_bool_decide; [done|]. by apply (Fan _ (mk_bus _ _ _ _ _ _)).
  - cbn. split.
    + apply NoDup_app. split_and!; [done| |apply NoDup_singleton]. intros k Hk%R ->%list_elem_of_singleton. lia.
    + intros k Hk. rewrite length_app. cbn. apply elem_of_app in Hk as [Hk%R|Hk%list_elem_of_singleton]; lia.
  - cbn. split; [done|]. intros k Hk. rewrite length_alter. by apply R.
  - destruct (impls b !! j); cbn; [|done]. split; [done|]. intros k Hk. rewrite length_insert. by apply R.
  - cbn. split; [constructor|]. by intros k Hk%not_elem_of_nil.
  - cbn. split; [constructor|]. by intros k Hk%not_elem_of_nil.
Qed.

Lemma run_registry ops b got :
  NoDup (g_subs b) -> (forall j, j ∈ g_subs b -> (j < length (impls b))%nat) ->
  let b' := (foldl step (b, got) ops).1 in NoDup (g_subs b') /\ forall j, j ∈ g_subs b' -> (j < length (impls b'))%nat.
Proof.
  revert b got. induction ops as [|o ops IH]; intros b got N R; [done|]. cbn [foldl]. pose proof (step_registry b got o N R) as [N1 R1].
  destruct (step (b, got) o) as [b1 got1]. by apply IH.
Qed.

(** C38: what a subscriber is given: after any history that leaves the bus open it
    subscribes, and as long as it and the bus stay open, whatever the others do, the
    text its waits return followed by its queue is the sequence of the frames sent
    since, every published payload and every changed one, in order, with [dropped]
    frames left out, none if it never fell 512 frames behind. *)
Theorem subscriber_gets_stream ops0 ops :
  let b0 := (run ops0 bus0).1 in
  let i := length (impls b0) in
  g_open b0 = true -> zlen ops < 2 ^ 64 -> forallb (keeps_open i) ops = true ->
  let r := run ops (subscribe b0).2 in
  exists s delivered, impls r.1 !! i = Some s /\ text_of i r.2 = mjoin delivered /\ zlen (q s) <= kMaxQueueFrames /\
    let frames := sent (g_last b0, g_out_seq b0) ops in
    (delivered ++ q s) `sublist_of` frames /\ zlen (delivered ++ q s) + dropped s = zlen frames /\
    (dropped s = 0 -> delivered ++ q s = frames).
Proof.
  intros b0 i Op B K r.
  destruct (run_registry ops0 bus0 []) as [N R]; [constructor|by intros j Hj%not_elem_of_nil|]. fold (run ops0 bus0) in N, R. fold b0 in N, R.
  assert (T : tuned i (subscribe b0).2 [] []).
  { split; cbn; [done| |set_solver| |].
    - apply NoDup_app. split_and!; [done| |apply NoDup_singleton]. intros k Hk%R ->%list_elem_of_singleton. lia.
    - intros k Hk. rewrite length_app. cbn. apply elem_of_app in Hk as [Hk%R|Hk%list_elem_of_singleton]; lia.
    - exists (new_impl b0). unfold i. rewrite list_lookup_middle by done. unfold new_impl. rewrite Op. by split_and!. }
  destruct (tuned_run i ops (subscribe b0).2 [] [] [] T eq_refl B K) as (deliv & [_ _ _ _ (s & Es & _ & _ & Su & Le & Qs & _)] & Tx).
  exists s, deliv. split; [exact Es|]. split; [exact Tx|]. split; [exact Qs|]. cbn zeta. split; [exact Su|]. split; [exact Le|].
  intros D. apply sublist_full; [exact Su|]. change ([] ++ sent (sent_state (subscribe b0).2) ops) with (sent (g_last b0, g_out_seq b0) ops) in Le.
  rewrite D in Le. unfold zlen in Le. lia.
Qed.
End Bus.
Arguments op_t : clear implicits.

(** ** Examples *)

(** Payloads that are their own text. *)
Definition plain (d : list Z) : option (list Z) := Some d.
Abbreviation run_plain := (run plain text []).

Lemma output_since_catches_up_witness :
  let ops := [Output 0 (bs "a"); OutputClear; Output 1 (bs "b")] in
  let ops' := [Publish (bs "x") []; Output 2 (bs "c"); Output 3 (bs "d")] in
  output_since 2 (run_plain (ops ++ ops') bus0).1 = [mk_line 3 2 (bs "c"); mk_line 4 3 (bs "d")] /\
  output_since 0 (run_plain (ops ++ ops') bus0).1 = List.filter (fun x => 0 <? seq x) (last_n kMaxOutput (spec_lines (ops ++ ops')).2).
Proof.
  intros ops ops'. split; [by vm_compute|].
  exact (proj1 (output_since_catches_up plain text [] ops ops' ltac:(by vm_compute) eq_refl) 0).
Defined.

Lemma subscriber_gets_stream_witness :
  let ops0 := [PublishChanged (bs "m") (bs "1"); Subscribe] in
  let ops := [PublishChanged (bs "m") (bs "1"); PublishChanged (bs "m") (bs "2"); Wait 1; Unsubscribe 0; Output 0 (bs "x")] in
  exists s, impls (run_plain ops (subscribe (run_plain ops0 bus0).1).2).1 !! 1%nat = Some s /\
    text_of 1 (run_plain ops (subscribe (run_plain ops0 bus0).1).2).2 = make_frame (bs "m") (bs "2") /\
    q s = [make_frame (bs "output") (bs "x")] /\ zlen (q s) <= kMaxQueueFrames.
Proof.
  intros ops0 ops. destruct (subscriber_gets_stream plain text [] ops0 ops eq_refl ltac:(by vm_compute) eq_refl) as (s & dl & E & Tx & Q & _).
  exists s. split; [exact E|]. split; [by vm_compute|]. split; [|exact Q].
  assert (E' : impls (run_plain ops (subscribe (run_plain ops0 bus0).1).2).1 !! 1%nat =
    Some (mk_impl [make_frame (bs "output") (bs "x")] 0 false true)) by (by vm_compute).
  assert (E2 : Some s = Some (mk_impl [make_frame (bs "output") (bs "x")] 0 false true)) by (rewrite <-E; exact E'). by injection E2 as ->.
Defined.

(** ** Interleavings of the sections *)

(** Two threads publish changes of one type: the one that is compared second sends
    first.  The last frame a subscriber gets is the older payload, and publishing the
    newer one again is silent. *)
Lemma changed_frames_reorder :
  let b := (subscribe (bus0)).2 in
  let b := (note_payload (bs "m") (bs "old") b).2 in
  let b := (note_payload (bs "m") (bs "new") b).2 in
  let b := send (bs "m") (bs "new") b in
  let b := send (bs "m") (bs "old") b in
  let b := publish_changed plain (bs "m") (bs "new") b in
  q <$> impls b !! 0%nat = Some [make_frame (bs "m") (bs "new"); make_frame (bs "m") (bs "old")].
Proof. by vm_compute. Qed.

(** A subscriber that reads the open bus and enters after the shutdown has swept the
    registry is never closed: its waits go on timing out. *)
Lemma subscribe_misses_shutdown :
  let s := new_impl bus0 in
  let b := (enter s (shutdown bus0)).2 in
  closed <$> impls b !! 0%nat = Some false /\ g_open b = false /\ (wait s).1.1 = true.
Proof. by vm_compute. Qed.

(** A change nobody listens to is noted as sent: a later subscriber does not get the
    payload when it is published again. *)
Lemma unheard_change_is_lost :
  let b := publish_changed plain (bs "m") (bs "1") bus0 in
  let b := publish_changed plain (bs "m") (bs "1") (subscribe b).2 in
  q <$> impls b !! 0%nat = Some [].
Proof. by vm_compute. Qed.
