(* ===== verification/Ir.v ===== *)
(** * The decompiler's intermediate form: src/hyperion/core/decompiler/ir.h, def_use.h

    Varnodes, p-code operations, blocks and functions; the use counts keyed by the
    full identity of a varnode.  The second half is a specification: what it means
    to run a path of blocks, for any interpretation of the operations, against which
    the passes of [Dce] and [Propagate] are proved. *)

From S2P Require Import Prelude.

#[local] Open Scope Z_scope.

Inductive PcodeOp :=
  | COPY | LOAD | STORE
  | ADD | SUB | AND | OR | XOR
  | INT_LESS | INT_SLESS | INT_EQUAL | INT_NEQUAL
  | BOOL_AND | BOOL_OR | BOOL_NOT
  | CALL | RETURN | BRANCH | CBRANCH
  | SHIFT_LEFT | SHIFT_RIGHT | SHIFT_ARIGHT | ROTATE_LEFT | ROTATE_RIGHT
  | INT_MULT | INT_DIV | INT_SDIV
  | INT_ZEXT | INT_SEXT
  | PIECE | SUBPIECE
  | INT_NEGATE | INT_NOT
  | INTRINSIC | NOP.
#[export] Instance PcodeOp_eq_dec : EqDecision PcodeOp.
Proof. solve_decision. Defined.

Inductive VarnodeKind := Reg | Temp | Const | Ram | Stack.
#[export] Instance VarnodeKind_eq_dec : EqDecision VarnodeKind.
Proof. solve_decision. Defined.

Record Varnode := mk_vn { kind : VarnodeKind; id : Z; size : Z; offset : Z; name : list Z }.
#[export] Instance Varnode_eq_dec : EqDecision Varnode.
Proof. solve_decision. Defined.

(** The default-constructed varnode: the output of an operation that has none. *)
Definition no_vn : Varnode := mk_vn Const (-1) 8 0 [].

Definition is_reg (v : Varnode) : bool := bool_decide (kind v = Reg).
Definition is_temp (v : Varnode) : bool := bool_decide (kind v = Temp).
Definition is_const (v : Varnode) : bool := bool_decide (kind v = Const).
Definition is_stack (v : Varnode) : bool := bool_decide (kind v = Stack).
Definition valid (v : Varnode) : bool := (0 <=? id v) || is_const v.

(** [operator==]: the name does not count. *)
Definition vn_eqb (a b : Varnode) : bool :=
  bool_decide (kind a = kind b) && (id a =? id b) && (size a =? size b) && (offset a =? offset b).

Record PcodeInsn := mk_insn { op : PcodeOp; output : Varnode; inputs : list Varnode; addr : Z; seq : Z }.

Definition make (o : PcodeOp) (out : Varnode) (ins : list Varnode) (a : Z) : PcodeInsn := mk_insn o out ins a 0.

Record PcodeBlock := mk_block {
  b_id : Z; b_addr : Z; ops : list PcodeInsn; succs : list Z; preds : list Z; has_return : bool
}.

Record PcodeFunc := mk_func {
  entry : Z; f_name : list Z; blocks : list PcodeBlock; next_temp : Z; next_ssa : Z;
  params : list Varnode; locals : list Varnode
}.

Definition vn_reg (i : Z) (n : list Z) (sz : Z) : Varnode := mk_vn Reg i sz 0 n.
Definition vn_temp (i sz : Z) : Varnode := mk_vn Temp i sz 0 [].
Definition vn_const (v sz : Z) : Varnode := mk_vn Const (-1) sz v [].
Definition vn_stack (i off sz : Z) : Varnode := mk_vn Stack i sz (u64 off) [].

(** The block whose address is the entry, or the first one. *)
Definition entry_block (f : PcodeFunc) : nat :=
  from_option fst 0%nat (list_find (fun b => b_addr b = entry f) (blocks f)).

(** Assignments to the fields a pass writes. *)
Definition set_op (o : PcodeOp) (i : PcodeInsn) : PcodeInsn := mk_insn o (output i) (inputs i) (addr i) (seq i).
Definition set_output (v : Varnode) (i : PcodeInsn) : PcodeInsn := mk_insn (op i) v (inputs i) (addr i) (seq i).
Definition set_inputs (ins : list Varnode) (i : PcodeInsn) : PcodeInsn := mk_insn (op i) (output i) ins (addr i) (seq i).
Definition set_offset (o : Z) (v : Varnode) : Varnode := mk_vn (kind v) (id v) (size v) o (name v).
Definition set_ops (os : list PcodeInsn) (b : PcodeBlock) : PcodeBlock :=
  mk_block (b_id b) (b_addr b) os (succs b) (preds b) (has_return b).
Definition set_blocks (bs : list PcodeBlock) (f : PcodeFunc) : PcodeFunc :=
  mk_func (entry f) (f_name f) bs (next_temp f) (next_ssa f) (params f) (locals f).

(** A pass that rewrites every block's list of operations. *)
Definition map_ops (g : list PcodeInsn -> list PcodeInsn) (f : PcodeFunc) : PcodeFunc :=
  set_blocks ((fun b => set_ops (g (ops b)) b) <$> blocks f) f.

Definition is_nop (i : PcodeInsn) : bool := bool_decide (op i = NOP).

(** [std::erase_if(blk.ops, is NOP)] *)
Definition erase_nops (os : list PcodeInsn) : list PcodeInsn := List.filter (fun i => negb (is_nop i)) os.

(** ** Use counts *)

Record VnKey := mk_key { k_kind : VarnodeKind; k_id : Z; k_offset : Z; k_size : Z }.
#[export] Instance VnKey_eq_dec : EqDecision VnKey.
Proof. solve_decision. Defined.

Definition kind_index (k : VarnodeKind) : nat :=
  match k with Reg => 0 | Temp => 1 | Const => 2 | Ram => 3 | Stack => 4 end.
Definition kind_of (n : nat) : VarnodeKind :=
  match n with 0 => Reg | 1 => Temp | 2 => Const | 3 => Ram | _ => Stack end%nat.
#[export] Instance VnKey_countable : Countable VnKey.
Proof.
  apply (inj_countable' (fun k => (kind_index (k_kind k), k_id k, k_offset k, k_size k))
           (fun '(n, i, o, s) => mk_key (kind_of n) i o s)).
  by intros [[] ? ? ?].
Defined.

Definition key (v : Varnode) : VnKey := mk_key (kind v) (id v) (offset v) (size v).

Abbreviation UseCountMap := (gmap VnKey Z).

Definition bump (k : VnKey) (m : UseCountMap) : UseCountMap := <[k := default 0 (m !! k) + 1]> m.

Definition count_insn (skipped : bool) (i : PcodeInsn) (m : UseCountMap) : UseCountMap :=
  if skipped || is_nop i then m else foldl (fun m v => bump (key v) m) m (inputs i).

(** [count_uses]; [skip_blk], [skip_idx] exclude one operation. *)
Definition count_uses (f : PcodeFunc) (skip_blk skip_idx : Z) : UseCountMap :=
  foldl (fun m bb =>
    foldl (fun m oo => count_insn ((Z.of_nat bb.1 =? skip_blk) && (Z.of_nat oo.1 =? skip_idx)) oo.2 m)
      m (imap pair (ops bb.2)))
    ∅ (imap pair (blocks f)).

Definition has_use (uses : UseCountMap) (v : Varnode) : bool :=
  match uses !! key v with Some n => 0 <? n | None => false end.

(** ** Running a path *)

(** Operations that do more than compute their output. *)
Definition effectful (o : PcodeOp) : bool :=
  match o with CALL | INTRINSIC | RETURN | CBRANCH | BRANCH | STORE => true | _ => false end.

Definition is_phi (i : PcodeInsn) : bool := bool_decide (op i = COPY) && (seq i =? -1).

Section Run.
Context {Mem : Type}.
(** What an operation does, given the width of its output and its input values. *)
Variable act : PcodeOp -> Z -> list Z -> Mem -> Mem * Z.

Record state := mk_state { mem : Mem; env : VnKey -> Z; trace : list (PcodeOp * Z * list Z) }.

Definition value (e : VnKey -> Z) (v : Varnode) : Z := if is_const v then offset v else e (key v).

Definition assign (v : Varnode) (x : Z) (e : VnKey -> Z) : VnKey -> Z :=
  if is_const v then e else fun k => if decide (k = key v) then x else e k.

Definition exec (i : PcodeInsn) (s : state) : state :=
  if is_nop i then s
  else
    let ins := value (env s) <$> inputs i in
    let r := act (op i) (size (output i)) ins (mem s) in
    mk_state r.1 (assign (output i) r.2 (env s))
      (if effectful (op i) then trace s ++ [(op i, addr i, ins)] else trace s).

(** The phis of a block read their inputs of predecessor [p] together. *)
Definition phi_value (p : nat) (e : VnKey -> Z) (i : PcodeInsn) : Z := from_option (value e) 0 (inputs i !! p).

Definition exec_phis (p : nat) (is_ : list PcodeInsn) (e : VnKey -> Z) : VnKey -> Z :=
  foldl (fun e' i => assign (output i) (phi_value p e i) e') e is_.

Definition exec_block (p : nat) (os : list PcodeInsn) (s : state) : state :=
  foldl (fun s i => exec i s)
    (mk_state (mem s) (exec_phis p (List.filter is_phi os) (env s)) (trace s))
    (List.filter (fun i => negb (is_phi i)) os).

(** A path: the blocks entered, each with the position of its predecessor. *)
Definition ops_at (f : PcodeFunc) (b : nat) : list PcodeInsn := from_option ops [] (blocks f !! b).

Definition run_path (f : PcodeFunc) (path : list (nat * nat)) (s : state) : state :=
  foldl (fun s bp => exec_block bp.2 (ops_at f bp.1) s) s path.

(** The same memory and effects, and the same values of the keys in [K]. *)
Definition agree (K : VnKey -> Prop) (s t : state) : Prop :=
  mem s = mem t /\ trace s = trace t /\ forall k, K k -> env s k = env t k.

(** Every path of [f] runs the same in [g]. *)
Definition preserves (K : VnKey -> Prop) (f g : PcodeFunc) : Prop :=
  forall path s, agree K (run_path f path s) (run_path g path s).
End Run.
Arguments state : clear implicits.
Arguments mk_state {Mem}.
Arguments mem {Mem}.
Arguments env {Mem}.
Arguments trace {Mem}.

(** ** The use counts count uses *)

Definition used_in (i : PcodeInsn) (k : VnKey) : Prop := is_nop i = false /\ k ∈ key <$> inputs i.
Definition used (f : PcodeFunc) (k : VnKey) : Prop :=
  exists b i, b ∈ blocks f /\ i ∈ ops b /\ used_in i k.

Definition counts (m : UseCountMap) (P : VnKey -> Prop) : Prop :=
  (forall k n, m !! k = Some n -> 0 < n) /\ (forall k, is_Some (m !! k) <-> P k).

Lemma counts_bump m P k : counts m P -> counts (bump k m) (fun k' => P k' \/ k' = k).
Proof.
  intros [Hpos Hdom]. unfold bump. split.
  - intros k' n. rewrite lookup_insert_Some. intros [[<- <-]|[_ H]]; [|by eapply Hpos].
    destruct (m !! k) as [x|] eqn:E; cbn; [|lia]. specialize (Hpos _ _ E). lia.
  - intros k'. rewrite lookup_insert_is_Some, <-Hdom. destruct (decide (k = k')); naive_solver.
Qed.

Lemma counts_ext m P Q : counts m P -> (forall k, P k <-> Q k) -> counts m Q.
Proof. intros [H1 H2] E. split; [done|]. intros k. by rewrite H2, E. Qed.

(** Folding an operation that adds the keys [Q x] over a list. *)
Lemma counts_fold {X} (g : UseCountMap -> X -> UseCountMap) (Q : X -> VnKey -> Prop) (l : list X) m P :
  (forall m P x, counts m P -> counts (g m x) (fun k => P k \/ Q x k)) ->
  counts m P -> counts (foldl g m l) (fun k => P k \/ exists x, x ∈ l /\ Q x k).
Proof.
  intros Hg. revert m P; induction l as [|x l IH]; intros m P H; cbn.
  - eapply counts_ext; [exact H|]. set_solver.
  - eapply counts_ext; [apply IH, Hg, H|]. set_solver.
Qed.

Lemma count_insn_counts m P i :
  counts m P -> counts (count_insn false i m) (fun k => P k \/ used_in i k).
Proof.
  intros H. unfold count_insn, used_in. destruct (is_nop i); cbn.
  - eapply counts_ext; [exact H|]. naive_solver.
  - eapply counts_ext; [apply (counts_fold _ (fun v k => k = key v))|].
    + intros m' P' v. apply counts_bump.
    + exact H.
    + intros k. rewrite list_elem_of_fmap. naive_solver.
Qed.

Lemma imap_pair_elem {A} (l : list A) x n :
  x ∈ imap pair l -> x.2 ∈ l /\ ((Z.of_nat x.1 =? - Z.of_nat (S n)) = false).
Proof.
  intros H. apply elem_of_lookup_imap in H as (i & y & -> & H). cbn.
  split; [by eapply list_elem_of_lookup_2|]. apply Z.eqb_neq. lia.
Qed.

Lemma elem_of_imap_pair {A} (l : list A) y : y ∈ l -> exists i, (i, y) ∈ imap pair l.
Proof.
  intros H. apply list_elem_of_lookup in H as [i H]. exists i.
  apply elem_of_lookup_imap. eauto.
Qed.

Lemma count_uses_counts f : counts (count_uses f (-1) (-1)) (used f).
Proof.
  unfold count_uses.
  assert (Hskip : forall bb : nat * PcodeBlock, (Z.of_nat bb.1 =? -1) = false) by (intros; apply Z.eqb_neq; lia).
  eapply counts_ext.
  - eapply (counts_fold _ (fun bb k => exists i, i ∈ ops bb.2 /\ used_in i k) _ ∅ (fun _ => False)).
    + intros m P bb H. eapply counts_ext.
      * eapply (counts_fold _ (fun oo k => used_in oo.2 k) _ m P); [|exact H].
        intros m' P' oo H'. rewrite Hskip. cbn. by apply count_insn_counts.
      * intros k. split.
        -- intros [?|([n i] & Hi & Hu)]; [by left|]. apply (imap_pair_elem _ _ 0) in Hi as [Hi _]. eauto.
        -- intros [?|(i & Hi & Hu)]; [by left|]. apply elem_of_imap_pair in Hi as [n Hi]. eauto.
    + split; [by intros k n|]. intros k. split; [by intros [? ?]|done].
  - intros k. unfold used. split.
    + intros [[]|([n b] & Hb & Hu)]. apply (imap_pair_elem _ _ 0) in Hb as [Hb _]. cbn in *. naive_solver.
    + intros (b & i & Hb & Hi & Hu). right. apply elem_of_imap_pair in Hb as [n Hb]. eauto.
Qed.

Lemma has_use_spec f v : has_use (count_uses f (-1) (-1)) v = true <-> used f (key v).
Proof.
  destruct (count_uses_counts f) as [Hpos Hdom]. rewrite <-Hdom. unfold has_use.
  destruct (_ !! key v) as [n|] eqn:E; [|by split; [|intros [? ?]]].
  specialize (Hpos _ _ E). rewrite Z.ltb_lt. split; [by eexists|done].
Qed.

(** ** Agreement *)

Section Agree.
Context {Mem : Type} (act : PcodeOp -> Z -> list Z -> Mem -> Mem * Z).
Implicit Types (s t : state Mem) (K L : VnKey -> Prop).

Lemma agree_refl K s : agree K s s.
Proof. by split_and!. Qed.

Lemma agree_trans K s t u : agree K s t -> agree K t u -> agree K s u.
Proof. intros (A & B & C) (A' & B' & C'). split_and!; [congruence..|]. intros k Hk. by rewrite C, C'. Qed.

Lemma agree_mono K L s t : (forall k, L k -> K k) -> agree K s t -> agree L s t.
Proof. intros H (A & B & C). split_and!; auto. Qed.

Lemma preserves_refl K f : preserves act K f f.
Proof. intros path s. apply agree_refl. Qed.

Lemma preserves_trans K f g h : preserves act K f g -> preserves act K g h -> preserves act K f h.
Proof. intros A B path s. eapply agree_trans; eauto. Qed.

Lemma preserves_mono K L f g : (forall k, L k -> K k) -> preserves act K f g -> preserves act L f g.
Proof. intros H A path s. eapply agree_mono; eauto. Qed.

(** Block by block. *)
Definition block_agrees K (os os' : list PcodeInsn) : Prop :=
  forall p s t, agree K s t -> agree K (exec_block act p os s) (exec_block act p os' t).

Lemma preserves_blocks K f g :
  Forall2 (fun b c => block_agrees K (ops b) (ops c)) (blocks f) (blocks g) -> preserves act K f g.
Proof.
  intros H path s. assert (A : agree K s s) by apply agree_refl. revert A. generalize s at 2 4. intros t.
  revert s t. induction path as [|[b p] path IH]; intros s t A; [done|]. cbn. apply IH.
  unfold ops_at. cbn. rewrite Forall2_lookup in H. destruct (H b) as [x y Hxy|]; cbn; [by apply Hxy|].
  by destruct A as (A1 & A2 & A3).
Qed.

(** [v] is read: a constant, or a variable that the states agree on. *)
Definition readable_in K (v : Varnode) : Prop := is_const v = true \/ K (key v).

Lemma value_agree K s t v : agree K s t -> readable_in K v -> value (env s) v = value (env t) v.
Proof. intros (_ & _ & E) [H|H]; unfold value; [by rewrite H|]. destruct (is_const v); auto. Qed.

Lemma values_agree K s t vs :
  agree K s t -> Forall (readable_in K) vs -> value (env s) <$> vs = value (env t) <$> vs.
Proof.
  intros A H. apply list_fmap_ext. intros i v Hi. eapply value_agree; [exact A|].
  by eapply Forall_lookup_1.
Qed.

Lemma assign_agree K (e e' : VnKey -> Z) v x k :
  (K k -> e k = e' k) -> K k -> assign v x e k = assign v x e' k.
Proof. intros H Hk. unfold assign. destruct (is_const v); [auto|]. destruct (decide _); auto. Qed.

Lemma assign_other v x (e : VnKey -> Z) k : is_const v = true \/ k <> key v -> assign v x e k = e k.
Proof. intros [H|H]; unfold assign; [by rewrite H|]. destruct (is_const v); [done|]. by rewrite decide_False. Qed.

Lemma exec_agree K s t i :
  agree K s t -> Forall (readable_in K) (inputs i) -> agree K (exec act i s) (exec act i t).
Proof.
  intros A H. unfold exec. destruct (is_nop i); [done|]. rewrite (values_agree K s t) by done.
  destruct A as (E & T & V). rewrite E, T. split_and!; cbn; [done|done|].
  intros k Hk. eapply assign_agree; [apply V|done].
Qed.

(** An operation whose removal nobody notices. *)
Definition droppable K (i : PcodeInsn) : Prop :=
  is_nop i = true \/ (effectful (op i) = false /\ (is_const (output i) = true \/ ~ K (key (output i)))).
End Agree.

(** The interpretation leaves memory alone where the operation has no effect. *)
Definition pure_ops {Mem} (act : PcodeOp -> Z -> list Z -> Mem -> Mem * Z) : Prop :=
  forall o sz ins m, effectful o = false -> (act o sz ins m).1 = m.

Section Prune.
Context {Mem : Type} (act : PcodeOp -> Z -> list Z -> Mem -> Mem * Z) (Hact : pure_ops act).
Context (K : VnKey -> Prop) (keep : PcodeInsn -> bool).

(** What is dropped is droppable; what is kept reads keys of [K]. *)
Definition prunes (os : list PcodeInsn) : Prop :=
  forall i, i ∈ os ->
    if keep i then Forall (readable_in K) (inputs i) else droppable K i.

Lemma droppable_neq i k : effectful (op i) = false /\ (is_const (output i) = true \/ ~ K (key (output i))) ->
  K k -> is_const (output i) = true \/ k <> key (output i).
Proof. intros [_ [?|H]] Hk; [by left|]. right. by intros ->. Qed.

Lemma drop_exec s t i : droppable K i -> agree K s t -> agree K (exec act i s) t.
Proof.
  intros [H|H] (A & B & C); unfold exec; [by rewrite H; split_and!|].
  destruct (is_nop i); [by split_and!|]. destruct H as [Hf Ho]. rewrite Hf, Hact by done.
  split_and!; cbn; [done|done|]. intros k Hk. rewrite assign_other; [auto|].
  by apply droppable_neq.
Qed.

Lemma prune_execs os s t :
  prunes os -> agree K s t ->
  agree K (foldl (fun s i => exec act i s) s os) (foldl (fun s i => exec act i s) t (List.filter keep os)).
Proof.
  revert s t; induction os as [|i os IH]; intros s t H A; [done|]. cbn.
  assert (Hi := H i (list_elem_of_here _ _)).
  assert (H' : prunes os) by (intros j Hj; apply H; by right).
  destruct (keep i); cbn; apply IH; try done; [by apply exec_agree|by apply drop_exec].
Qed.

Lemma prune_phis p os e e' f f' :
  prunes os -> (forall i, i ∈ os -> is_phi i = true) ->
  (forall k, K k -> e k = e' k) -> (forall k, K k -> f k = f' k) ->
  forall k, K k -> foldl (fun f i => assign (output i) (phi_value p e i) f) f os k =
    foldl (fun f i => assign (output i) (phi_value p e' i) f) f' (List.filter keep os) k.
Proof.
  intros H Hp He. revert f f'; induction os as [|i os IH]; intros f f' Hf; [done|]. cbn.
  assert (Hi := H i (list_elem_of_here _ _)). assert (Pi := Hp i (list_elem_of_here _ _)).
  assert (H' : prunes os) by (intros j Hj; apply H; by right).
  assert (Hp' : forall j, j ∈ os -> is_phi j = true) by (intros j Hj; apply Hp; by right).
  destruct (keep i); cbn; apply IH; try done; intros k Hk.
  - replace (phi_value p e i) with (phi_value p e' i); [by apply (assign_agree K); auto|].
    unfold phi_value. destruct (inputs i !! p) as [v|] eqn:E; [|done]. cbn.
    pose proof (Forall_lookup_1 _ _ _ _ Hi E) as R. unfold value.
    destruct R as [->|R]; [done|]. destruct (is_const v); [done|]. symmetry; auto.
  - rewrite assign_other; [auto|]. apply droppable_neq; [|done].
    destruct Hi as [Hi|Hi]; [|done]. unfold is_phi, is_nop in *.
    apply andb_prop in Pi as [Pi _]. by rewrite bool_decide_eq_true in Pi, Hi; rewrite Hi in Pi.
Qed.

Lemma filter_comm {A} (f g : A -> bool) (l : list A) : List.filter f (List.filter g l) = List.filter g (List.filter f l).
Proof.
  induction l as [|x l IH]; [done|]. cbn.
  destruct (g x) eqn:G, (f x) eqn:F; cbn; rewrite ?G, ?F, IH; done.
Qed.

Lemma prunes_filter (g : PcodeInsn -> bool) os : prunes os -> prunes (List.filter g os).
Proof. intros H i Hi. apply H. apply list_elem_of_In in Hi. apply filter_In in Hi as [Hi _]. by apply list_elem_of_In. Qed.

Lemma prune_block os : prunes os -> block_agrees act K os (List.filter keep os).
Proof.
  intros H p s t A. unfold exec_block. rewrite !(filter_comm _ keep).
  apply prune_execs; [by apply prunes_filter|]. destruct A as (A & B & C). split_and!; cbn; [done|done|].
  apply prune_phis; [by apply prunes_filter| |done|done].
  intros i Hi. apply list_elem_of_In, filter_In in Hi as [_ Hi]. done.
Qed.
End Prune.

(** ** Marking operations NOP and erasing them *)

Definition mark (dead : PcodeInsn -> bool) (i : PcodeInsn) : PcodeInsn := if dead i then set_op NOP i else i.

Lemma erase_mark dead os :
  erase_nops (mark dead <$> os) = List.filter (fun i => negb (is_nop i) && negb (dead i)) os.
Proof.
  unfold erase_nops. induction os as [|i os IH]; [done|]. cbn. rewrite IH. unfold mark.
  destruct (dead i); cbn; rewrite ?andb_true_r, ?andb_false_r; done.
Qed.

Lemma nop_not_phi i : is_nop i = true -> is_phi i = false.
Proof. unfold is_nop, is_phi. rewrite bool_decide_eq_true. by intros ->. Qed.

Lemma exec_block_erase {Mem} (act : _ -> _ -> _ -> Mem -> _) p os s :
  exec_block act p (erase_nops os) s = exec_block act p os s.
Proof.
  unfold exec_block, erase_nops.
  assert (P : List.filter is_phi (List.filter (fun i => negb (is_nop i)) os) = List.filter is_phi os).
  { induction os as [|i os IH]; [done|]. cbn. destruct (is_nop i) eqn:N; cbn; rewrite IH; [|done].
    by rewrite (nop_not_phi i N). }
  rewrite P, filter_comm. generalize (mk_state (mem s) (exec_phis p (List.filter is_phi os) (env s)) (trace s)).
  clear. generalize (List.filter (fun i => negb (is_phi i)) os). clear. intros os.
  induction os as [|i os IH]; intros s; [done|]. cbn. destruct (is_nop i) eqn:N; cbn; [|apply IH].
  rewrite IH. unfold exec. by rewrite N.
Qed.

Lemma run_path_ext {Mem} (act : _ -> _ -> _ -> Mem -> _) f g :
  (forall p b s, exec_block act p (ops_at f b) s = exec_block act p (ops_at g b) s) ->
  forall path s, run_path act f path s = run_path act g path s.
Proof. intros H path. induction path as [|[b p] path IH]; intros s; [done|].
  unfold run_path in *. cbn. by rewrite H, IH.
Qed.

Lemma ops_at_map g f b : g [] = [] -> ops_at (map_ops g f) b = g (ops_at f b).
Proof. intros E. unfold ops_at; cbn. rewrite list_lookup_fmap. by destruct (blocks f !! b). Qed.

Lemma erase_preserves {Mem} (act : _ -> _ -> _ -> Mem -> _) K f : preserves act K f (map_ops erase_nops f).
Proof.
  intros path s. assert (E : run_path act (map_ops erase_nops f) path s = run_path act f path s).
  { apply run_path_ext. intros p b s'. by rewrite ops_at_map, exec_block_erase. }
  rewrite E. apply agree_refl.
Qed.

Lemma mark_preserves {Mem} (act : _ -> _ -> _ -> Mem -> _) K f dead :
  pure_ops act ->
  (forall b i, b ∈ blocks f -> i ∈ ops b -> dead i = true -> droppable K i) ->
  (forall k, used f k -> K k) ->
  preserves act K f (map_ops (fmap (mark dead)) f).
Proof.
  intros Hact Hd Hu. apply preserves_blocks. cbn. apply Forall2_fmap_r, Forall_Forall2_diag, Forall_forall.
  intros b Hb p s t A.
  change (agree K (exec_block act p (ops b) s) (exec_block act p (mark dead <$> ops b) t)).
  rewrite <-(exec_block_erase act p (mark dead <$> ops b)), erase_mark.
  apply prune_block; [done| |done]. intros i Hi.
  destruct (is_nop i) eqn:N; cbn; [by left|]. destruct (dead i) eqn:D; cbn; [by eapply Hd|].
  apply Forall_forall. intros v Hv. right. apply Hu. exists b, i. split_and!; [done|done|].
  split; [done|]. by apply list_elem_of_fmap_2.
Qed.

Lemma elem_of_map_ops g f b :
  b ∈ blocks (map_ops g f) -> exists c, c ∈ blocks f /\ ops b = g (ops c).
Proof. cbn. intros (c & -> & H)%list_elem_of_fmap. eauto. Qed.

Lemma used_mark dead f k : used (map_ops (fmap (mark dead)) f) k -> used f k.
Proof.
  intros (b & i & Hb & Hi & N & Hk). apply elem_of_map_ops in Hb as (c & Hc & E). rewrite E in Hi.
  apply list_elem_of_fmap in Hi as (j & -> & Hj). exists c, j. split_and!; [done|done|].
  unfold mark in *. destruct (dead j); [done|]. by split.
Qed.

Lemma used_erase f k : used (map_ops erase_nops f) k <-> used f k.
Proof.
  split; intros (b & i & Hb & Hi & N & Hk).
  - apply elem_of_map_ops in Hb as (c & Hc & E). rewrite E in Hi. exists c, i.
    apply list_elem_of_In, filter_In in Hi as [Hi _]. split_and!; [done|by apply list_elem_of_In|by split].
  - exists (set_ops (erase_nops (ops b)) b), i. split_and!.
    + cbn. by apply (list_elem_of_fmap_2 (fun b => set_ops (erase_nops (ops b)) b)).
    + cbn. apply list_elem_of_In, filter_In. rewrite N. split; [by apply list_elem_of_In|done].
    + by split.
Qed.

(** ** Rewriting operations one by one *)

Lemma filter_map_swap {A} (g : A -> A) (q : A -> bool) l :
  (forall x, x ∈ l -> q (g x) = q x) -> List.filter q (g <$> l) = g <$> List.filter q l.
Proof.
  induction l as [|x l IH]; intros H; [done|]. cbn. rewrite H by left.
  rewrite IH by (intros y Hy; apply H; by right). by destruct (q x).
Qed.

Lemma filter_true {A} (l : list A) : List.filter (fun _ => true) l = l.
Proof. induction l as [|x l IH]; [done|]. cbn. by rewrite IH. Qed.

Lemma map_execs {Mem} (act : _ -> _ -> _ -> Mem -> _) K g l :
  (forall i s t, i ∈ l -> agree K s t -> agree K (exec act i s) (exec act (g i) t)) ->
  forall s t, agree K s t ->
    agree K (foldl (fun s i => exec act i s) s l) (foldl (fun s i => exec act i s) t (g <$> l)).
Proof.
  induction l as [|i l IH]; intros H s t A; [exact A|]. cbn. apply IH.
  - intros j u v Hj. apply H. by right.
  - apply H; [by left|done].
Qed.

Lemma map_preserves {Mem} (act : _ -> _ -> _ -> Mem -> _) K f g :
  (forall b i, b ∈ blocks f -> i ∈ ops b -> is_phi (g i) = is_phi i) ->
  (forall b i, b ∈ blocks f -> i ∈ ops b -> is_phi i = true -> g i = i /\ Forall (readable_in K) (inputs i)) ->
  (forall b i s t, b ∈ blocks f -> i ∈ ops b -> is_phi i = false ->
     agree K s t -> agree K (exec act i s) (exec act (g i) t)) ->
  preserves act K f (map_ops (fmap g) f).
Proof.
  intros Hp Hphi Hg. apply preserves_blocks. cbn. apply Forall2_fmap_r, Forall_Forall2_diag, Forall_forall.
  intros b Hb p s t A. cbn. unfold exec_block.
  assert (Hin : forall q i, i ∈ List.filter q (ops b) -> i ∈ ops b /\ q i = true).
  { intros q i H. apply list_elem_of_In, filter_In in H as [H ?]. split; [by apply list_elem_of_In|done]. }
  rewrite !filter_map_swap; [|intros i Hi; by rewrite (Hp b i)..].
  assert (P : g <$> List.filter is_phi (ops b) = List.filter is_phi (ops b)).
  { rewrite <-(list_fmap_id (List.filter is_phi (ops b))) at 2. apply list_fmap_ext.
    intros n i Hi. apply list_elem_of_lookup_2, Hin in Hi as [Hi Hq]. apply (Hphi b i Hb Hi Hq). }
  rewrite P. destruct A as (A1 & A2 & A3).
  assert (A' : agree K (mk_state (mem s) (exec_phis p (List.filter is_phi (ops b)) (env s)) (trace s))
                       (mk_state (mem t) (exec_phis p (List.filter is_phi (ops b)) (env t)) (trace t))).
  { split_and!; [done|done|]. cbn. intros k Hk.
    pose proof (prune_phis K (fun _ => true) p (List.filter is_phi (ops b)) (env s) (env t) (env s) (env t)) as Q.
    rewrite filter_true in Q. apply Q; [|intros i Hi; apply (Hin _ _ Hi)|done|done|done].
    intros i Hi. apply Hin in Hi as [Hi Hq]. apply (Hphi b i Hb Hi Hq). }
  apply map_execs; [|exact A']. intros i u v Hi. apply Hin in Hi as [Hi Hq].
  apply negb_true_iff in Hq. by apply (Hg b).
Qed.

(** Agreement on every key. *)
Definition all_keys (k : VnKey) : Prop := True.

Lemma readable_all vs : Forall (readable_in all_keys) vs.
Proof. apply Forall_forall. intros v _. by right. Qed.
