(* ===== verification/Dce.v ===== *)
(** * Dead code elimination: src/hyperion/core/decompiler/dce.cpp

    The passes of [DCE::run] and the proof that, whatever the operations mean, every
    path of the result has the effects of the original. *)

From S2P Require Import Prelude Ir.

#[local] Open Scope Z_scope.

Definition is_flag_reg (i : Z) : bool := (100 <=? i) && (i <=? 103).

Definition is_callee_saved (i : Z) : bool := bool_decide (i ∈ [3; 5; 6; 7; 12; 13; 14; 15]).

(** The two tests kept from an earlier version; the width is not compared. *)
Definition is_dead_flag (o : PcodeInsn) (f : PcodeFunc) : bool :=
  valid (output o) && is_flag_reg (id (output o)) &&
  negb (existsb (fun b => existsb (fun o' => negb (is_nop o') &&
    existsb (fun v => bool_decide (kind v = kind (output o)) && (id v =? id (output o)) &&
                      (offset v =? offset (output o))) (inputs o')) (ops b)) (blocks f)).

Definition is_dead_stack_op (o : PcodeInsn) : bool :=
  bool_decide (op o = STORE) &&
  match inputs o with v :: _ => is_reg v && (id v =? 4) | [] => false end.

(** The operations both passes leave alone; the second also leaves stores. *)
Definition kept_op (o : PcodeOp) : bool :=
  match o with NOP | CALL | INTRINSIC | RETURN | CBRANCH | BRANCH => true | _ => false end.

(** Pass 1: unused flags, and unused restores of callee-saved registers. *)
Definition dead1 (uses : UseCountMap) (o : PcodeInsn) : bool :=
  negb (kept_op (op o)) && valid (output o) && negb (has_use uses (output o)) &&
  (is_flag_reg (id (output o)) ||
   (bool_decide (op o = LOAD) && is_reg (output o) && is_callee_saved (id (output o)))).

(** Pass 2: any unused output except versions of RAX. *)
Definition dead2 (uses : UseCountMap) (o : PcodeInsn) : bool :=
  negb (kept_op (op o)) && negb (bool_decide (op o = STORE)) && valid (output o) &&
  negb (is_reg (output o) && (id (output o) =? 0)) && negb (has_use uses (output o)).

(** Rounds of marking until one changes nothing; the counts are those of its start. *)
Fixpoint sweep (n : nat) (f : PcodeFunc) : PcodeFunc :=
  match n with
  | O => f
  | S n' =>
      let uses := count_uses f (-1) (-1) in
      if existsb (fun b => existsb (dead2 uses) (ops b)) (blocks f)
      then sweep n' (map_ops (fmap (mark (dead2 uses))) f)
      else f
  end.

Definition run (f : PcodeFunc) : PcodeFunc :=
  let f1 := map_ops (fmap (mark (dead1 (count_uses f (-1) (-1))))) f in
  map_ops erase_nops (sweep 6 f1).

(** ** Correctness *)

(** The return value: every version and width of RAX. *)
Definition rax (k : VnKey) : Prop := k_kind k = Reg /\ k_id k = 0.

(** What must agree after running [f]: the keys it reads, and the return value. *)
Definition observed (f : PcodeFunc) (k : VnKey) : Prop := used f k \/ rax k.

(** A store has no output (the lifters give it a default one). *)
Definition stores_ok (f : PcodeFunc) : Prop :=
  forall b i, b ∈ blocks f -> i ∈ ops b -> op i = STORE -> is_flag_reg (id (output i)) = false.

Lemma kept_op_effect o : kept_op o = false -> o <> STORE -> effectful o = false.
Proof. by destruct o. Qed.

Lemma dead1_droppable f b i :
  stores_ok f -> b ∈ blocks f -> i ∈ ops b ->
  dead1 (count_uses f (-1) (-1)) i = true -> droppable (observed f) i.
Proof.
  intros Hs Hb Hi H. unfold dead1 in H. apply andb_prop in H as [H Hc]. apply andb_prop in H as [H Hu].
  apply andb_prop in H as [Hk Hv]. apply negb_true_iff in Hk, Hu. right. split.
  - apply kept_op_effect; [done|]. intros E. specialize (Hs b i Hb Hi E). rewrite Hs, E in Hc. done.
  - right. intros [Hused|[Hkind Hid]]; [apply has_use_spec in Hused; congruence|].
    cbn in Hid. rewrite Hid in Hc. change (is_callee_saved 0) with false in Hc.
    rewrite andb_false_r in Hc. done.
Qed.

Lemma dead2_droppable f i :
  dead2 (count_uses f (-1) (-1)) i = true -> droppable (observed f) i.
Proof.
  unfold dead2. rewrite !andb_true_iff, !negb_true_iff, bool_decide_eq_false.
  intros ((((Hk & Hs) & Hv) & Hr) & Hu). right. split; [by apply kept_op_effect|].
  right. intros [Hused|[Hkind Hid]]; [apply has_use_spec in Hused; congruence|].
  cbn in Hkind, Hid. unfold is_reg in Hr. by rewrite Hkind, Hid in Hr.
Qed.

Lemma observed_used f k : used f k -> observed f k.
Proof. by left. Qed.

Lemma observed_mark dead f k : observed (map_ops (fmap (mark dead)) f) k -> observed f k.
Proof. intros [H|H]; [left; by eapply used_mark|by right]. Qed.

Lemma observed_erase f k : observed (map_ops erase_nops f) k <-> observed f k.
Proof. unfold observed. by rewrite used_erase. Qed.

Lemma sweep_observed n f k : observed (sweep n f) k -> observed f k.
Proof.
  revert f; induction n as [|n IH]; intros f; cbn; [done|].
  destruct (existsb _ _); [|done]. intros H. by apply IH, observed_mark in H.
Qed.

Section Correct.
Context {Mem : Type} (act : PcodeOp -> Z -> list Z -> Mem -> Mem * Z) (Hact : pure_ops act).

Lemma sweep_preserves n f : preserves act (observed (sweep n f)) f (sweep n f).
Proof using Hact.
  revert f; induction n as [|n IH]; intros f; cbn; [apply preserves_refl|].
  destruct (existsb _ _); [|apply preserves_refl].
  eapply preserves_trans; [|apply IH].
  eapply preserves_mono; [|apply mark_preserves; [done| |apply observed_used]].
  - intros k H. by apply sweep_observed, observed_mark in H.
  - intros b i _ _. apply dead2_droppable.
Qed.

Lemma erase_sweep_preserves n f :
  preserves act (observed (map_ops erase_nops (sweep n f))) f (map_ops erase_nops (sweep n f)).
Proof using Hact.
  apply (preserves_mono _ (observed (sweep n f))); [intros k; apply observed_erase|].
  eapply preserves_trans; [apply sweep_preserves|apply erase_preserves].
Qed.

Lemma run_preserves f : stores_ok f -> preserves act (observed (run f)) f (run f).
Proof using Hact.
  intros Hs. unfold run. set (f1 := map_ops (fmap _) f).
  eapply preserves_trans; [|apply erase_sweep_preserves].
  eapply preserves_mono; [|apply mark_preserves; [done| |apply observed_used]].
  - intros k H. by apply observed_erase, sweep_observed, observed_mark in H.
  - intros b i Hb Hi. by eapply dead1_droppable.
Qed.

(** C12: dead code elimination keeps the meaning of the function: for any
    interpretation of the operations in which only stores, calls, intrinsics, returns
    and branches have effects, every path of blocks, from any state, ends with the
    same memory, the same calls, stores, returns and branches with the same operand
    values in the same order, and the same value of every variable the result still
    reads and of the return register. *)
Theorem dce_preserves f : stores_ok f -> preserves act (observed (run f)) f (run f).
Proof using Hact. intros Hs path s. by apply run_preserves. Qed.
End Correct.

(** A flag nobody reads, a dead copy, a call that reads a register. *)
Definition example : PcodeFunc :=
  let zf := vn_reg 100 [] 1 in
  let rcx := set_offset 1 (vn_reg 1 [] 8) in
  let t := vn_temp 0 8 in
  mk_func 0 [] [mk_block 0 0 [make COPY rcx [vn_const 5 8] 0; make INT_EQUAL zf [rcx; vn_const 0 8] 1;
                              make COPY t [zf] 2; make CALL no_vn [vn_const 4096 8; rcx] 3] [] [] false] 1 0 [] [].

Lemma dce_preserves_witness :
  (fun b => op <$> ops b) <$> blocks (run example) = [[COPY; CALL]] /\
  forall act : PcodeOp -> Z -> list Z -> unit -> unit * Z,
    preserves act (observed (run example)) example (run example).
Proof.
  split; [vm_compute; reflexivity|]. intros act. apply dce_preserves.
  - intros o sz ins [] _. by destruct (act o sz ins ()) as [[] ?].
  - intros b i Hb%list_elem_of_singleton Hi E. subst b. apply list_elem_of_In in Hi.
    destruct Hi as [<-|[<-|[<-|[<-|[]]]]]; discriminate E.
Defined.
