(* ===== verification/Propagate.v ===== *)
(** * Propagation: src/hyperion/core/decompiler/propagate.cpp

    Copy propagation, constant folding, flag and argument folding, and the order
    [Propagate::run] applies them in.  Passes that edit operations in place while
    they walk a block are folds over positions. *)

From S2P Require Import Prelude Ir.
From S2P Require Dce.

#[local] Open Scope Z_scope.

(** ** Positions *)

Definition op_at (f : PcodeFunc) (bi oi : nat) : option PcodeInsn := b ← blocks f !! bi; ops b !! oi.

Definition alter_op (g : PcodeInsn -> PcodeInsn) (bi oi : nat) (f : PcodeFunc) : PcodeFunc :=
  set_blocks (alter (fun b => set_ops (alter g oi (ops b)) b) bi (blocks f)) f.

Definition positions (f : PcodeFunc) : list (nat * nat) :=
  mjoin (imap (fun bi b => pair bi <$> List.seq 0 (length (ops b))) (blocks f)).

(** ** Copies *)

Definition replace_vn (old new v : Varnode) : Varnode := if bool_decide (key v = key old) then new else v.

Definition replace_uses (f : PcodeFunc) (old new : Varnode) (def_blk def_idx : nat) : PcodeFunc :=
  set_blocks (imap (fun bi b => set_ops (imap (fun oi o =>
    if (bi =? def_blk)%nat && (oi =? def_idx)%nat then o
    else set_inputs (replace_vn old new <$> inputs o) o) (ops b)) b) (blocks f)) f.

(** One copy: the function so far, and whether the round changed it. *)
Definition copy_step (uses : UseCountMap) (st : PcodeFunc * bool) (pos : nat * nat) : PcodeFunc * bool :=
  let '(f, changed) := st in
  match op_at f pos.1 pos.2 with
  | None => st
  | Some o =>
      if negb (bool_decide (op o = COPY)) || negb (valid (output o)) then st
      else match inputs o with
           | [] => st
           | src :: _ =>
               if (seq o =? -1) || negb (valid src) ||
                  (is_const src && is_reg (output o) && (id (output o) =? 4)) then st
               else
                 let f1 := replace_uses f (output o) src pos.1 pos.2 in
                 if has_use uses (output o) then (f1, changed)
                 else (alter_op (set_op NOP) pos.1 pos.2 f1, true)
           end
  end.

Definition copy_round (f : PcodeFunc) : PcodeFunc * bool :=
  foldl (copy_step (count_uses f (-1) (-1))) (f, false) (positions f).

Fixpoint copy_rounds (n : nat) (f : PcodeFunc) : PcodeFunc :=
  match n with
  | O => f
  | S n' => let '(f', changed) := copy_round f in if changed then copy_rounds n' f' else f'
  end.

Definition copy_propagation (f : PcodeFunc) : PcodeFunc := map_ops erase_nops (copy_rounds 8 f).

Definition eliminate_identity (f : PcodeFunc) : PcodeFunc :=
  map_ops (fun os => erase_nops (mark (fun o =>
    bool_decide (op o = COPY) && negb (seq o =? -1) &&
    match inputs o with src :: _ => vn_eqb (output o) src | [] => false end) <$> os)) f.

(** The same sweep as the second pass of [DCE], for twelve rounds. *)
Definition dead_copy_elim (f : PcodeFunc) : PcodeFunc := map_ops erase_nops (Dce.sweep 12 f).

(** ** Constants *)

Definition i64 (x : Z) : Z := signed_of 64 x.
Definition rotl (x : Z) (n : Z) : Z := u64 (Z.lor (Z.shiftl x n) (Z.shiftr x (64 - n))).
Definition rotr (x : Z) (n : Z) : Z := u64 (Z.lor (Z.shiftr x n) (Z.shiftl x (64 - n))).

Definition fold_value (o : PcodeOp) (l r : Z) : option Z :=
  match o with
  | ADD => Some (u64 (l + r))
  | SUB => Some (u64 (l - r))
  | AND => Some (Z.land l r)
  | OR => Some (Z.lor l r)
  | XOR => Some (Z.lxor l r)
  | SHIFT_LEFT => Some (if r <? 64 then u64 (Z.shiftl l r) else 0)
  | SHIFT_RIGHT => Some (if r <? 64 then Z.shiftr l r else 0)
  | SHIFT_ARIGHT => Some (if r <? 64 then u64 (Z.shiftr (i64 l) r) else if i64 l <? 0 then u64 (-1) else 0)
  | ROTATE_LEFT => Some (rotl l (Z.land r 63))
  | ROTATE_RIGHT => Some (rotr l (Z.land r 63))
  | INT_MULT => Some (u64 (l * r))
  | INT_EQUAL => Some (if l =? r then 1 else 0)
  | INT_LESS => Some (if l <? r then 1 else 0)
  | INT_SLESS => Some (if i64 l <? i64 r then 1 else 0)
  | _ => None
  end.

Definition fold_insn (o : PcodeInsn) : PcodeInsn :=
  match inputs o with
  | [l; r] =>
      if is_const l && is_const r then
        match fold_value (op o) (offset l) (offset r) with
        | Some v => set_inputs [vn_const v (size (output o))] (set_op COPY o)
        | None => o
        end
      else o
  | _ => o
  end.

Definition constant_fold (f : PcodeFunc) : PcodeFunc := map_ops (fmap fold_insn) f.

(** ** Flags *)

Definition same_var (a b : Varnode) : bool := (id a =? id b) && bool_decide (kind a = kind b).

(** The first operation from position [j] on that satisfies [p]. *)
Fixpoint find_from (n : nat) (p : PcodeInsn -> bool) (j : nat) (os : list PcodeInsn) : option nat :=
  match n with
  | O => None
  | S n' => match os !! j with
            | Some o => if p o then Some j else find_from n' p (S j) os
            | None => None
            end
  end.

(** A branch whose condition is that varnode, whatever its version. *)
Definition branches_on (v : Varnode) (o : PcodeInsn) : bool :=
  bool_decide (op o = CBRANCH) && match inputs o with _ :: c :: _ => same_var c v | _ => false end.

Definition negates (v : Varnode) (o : PcodeInsn) : bool :=
  bool_decide (op o = BOOL_NOT) && match inputs o with a :: _ => same_var a v | [] => false end.

(** [ZF = INT_EQUAL(a, b)] at [i]: the next negation of the flag or branch on it. *)
Definition fold_equal (i : nat) (o : PcodeInsn) (os : list PcodeInsn) : list PcodeInsn :=
  match find_from (length os) (fun o2 => negates (output o) o2 || branches_on (output o) o2) (S i) os with
  | None => os
  | Some j =>
      match os !! j with
      | None => os
      | Some o2 =>
          if negates (output o) o2 then
            match find_from (length os) (branches_on (output o2)) (S j) os with
            | None => os
            | Some _ => alter (set_op NOP) j (<[i := mk_insn INT_NEQUAL (output o2) (inputs o) (addr o) (seq o)]> os)
            end
          else alter (fun o2 => set_inputs (alter (fun _ => output o) 1%nat (inputs o2)) o2) j os
      end
  end.

(** [t = AND(x, x)]; the widths are not compared. *)
Definition fold_and (o : PcodeInsn) : PcodeInsn :=
  match inputs o with
  | [a; b] =>
      if bool_decide (op o = AND) && bool_decide (kind a = kind b) && (id a =? id b) && (offset a =? offset b)
      then set_inputs [a] (set_op COPY o) else o
  | _ => o
  end.

Definition fold_flags_at (os : list PcodeInsn) (i : nat) : list PcodeInsn :=
  match os !! i with
  | None => os
  | Some o =>
      let os1 := if bool_decide (op o = INT_EQUAL) && valid (output o) && (100 <=? id (output o))
                 then fold_equal i o os else os in
      alter fold_and i os1
  end.

Definition fold_flags (f : PcodeFunc) : PcodeFunc :=
  map_ops (fun os => erase_nops (foldl fold_flags_at os (List.seq 0 (length os - 1)))) f.

(** ** Arguments *)

Definition kArgRegs : list Z := [1; 2; 8; 9].

(** Scanning back from below [si] for the copy into that argument register. *)
Fixpoint find_setup (si : nat) (r : Z) (os : list PcodeInsn) : option nat :=
  match si with
  | O => None
  | S si' =>
      match os !! si' with
      | None => None
      | Some s =>
          let writes := is_reg (output s) && (id (output s) =? r) in
          if bool_decide (op s = CALL) then None
          else if is_nop s then find_setup si' r os
          else if bool_decide (op s = COPY) && writes && negb (bool_decide (inputs s = [])) then Some si'
          else if writes then None
          else find_setup si' r os
      end
  end.

(** One argument of the call at [ci]. *)
Definition fold_arg (ci : nat) (os : list PcodeInsn) (argi : nat) : list PcodeInsn :=
  match os !! ci with
  | None => os
  | Some c =>
      match inputs c !! S argi, kArgRegs !! argi with
      | Some v, Some r =>
          if negb (is_reg v) || negb (id v =? r) then os
          else match find_setup ci r os with
               | None => os
               | Some si =>
                   match s ← os !! si; head (inputs s) with
                   | None => os
                   | Some src =>
                       alter (set_op NOP) si
                         (alter (fun c => set_inputs (<[S argi := src]> (inputs c)) c) ci os)
                   end
               end
      | _, _ => os
      end
  end.

Definition fold_call (os : list PcodeInsn) (ci : nat) : list PcodeInsn :=
  match os !! ci with
  | Some c => if bool_decide (op c = CALL) then foldl (fold_arg ci) os (List.seq 0 4) else os
  | None => os
  end.

Definition kCallerSaved : list Z := [10; 11].

(** Whether the write of that register is dropped: a call comes before a read or
    another write. *)
Fixpoint call_follows (r : Z) (os : list PcodeInsn) : bool :=
  match os with
  | [] => false
  | o :: os' =>
      if is_nop o then call_follows r os'
      else if bool_decide (op o = CALL) then true
      else if existsb (fun v => is_reg v && (id v =? r)) (inputs o) then false
      else if is_reg (output o) && (id (output o) =? r) then false
      else call_follows r os'
  end.

Definition kill_clobbered (os : list PcodeInsn) (i : nat) : list PcodeInsn :=
  match os !! i with
  | None => os
  | Some o =>
      if is_nop o || bool_decide (op o = CALL) || negb (valid (output o)) || negb (is_reg (output o)) ||
         negb (bool_decide (id (output o) ∈ kCallerSaved)) then os
      else if call_follows (id (output o)) (drop (S i) os) then alter (set_op NOP) i os
      else os
  end.

Definition fold_arg_setup (f : PcodeFunc) : PcodeFunc :=
  let f1 := map_ops (fun os => erase_nops (foldl fold_call os (List.seq 0 (length os)))) f in
  map_ops (fun os => erase_nops (foldl kill_clobbered os (List.seq 0 (length os)))) f1.

(** [Propagate::run] *)
Definition run (f : PcodeFunc) : PcodeFunc :=
  dead_copy_elim (constant_fold (copy_propagation (dead_copy_elim (fold_flags
    (copy_propagation (constant_fold (copy_propagation (fold_arg_setup (eliminate_identity f))))))))).

(** ** What the operations mean *)

(** A copy yields its first input. *)
Definition copies {Mem} (act : PcodeOp -> Z -> list Z -> Mem -> Mem * Z) : Prop :=
  forall sz v vs m, act COPY sz (v :: vs) m = (m, v).

(** The 64-bit operations, as arithmetic. *)
Definition alu64 (o : PcodeOp) (l r : Z) : option Z :=
  match o with
  | ADD => Some ((l + r) mod 2 ^ 64)
  | SUB => Some ((l - r) mod 2 ^ 64)
  | INT_MULT => Some ((l * r) mod 2 ^ 64)
  | AND => Some (Z.land l r)
  | OR => Some (Z.lor l r)
  | XOR => Some (Z.lxor l r)
  | SHIFT_LEFT => Some ((l * 2 ^ r) mod 2 ^ 64)
  | SHIFT_RIGHT => Some (l / 2 ^ r)
  | SHIFT_ARIGHT => Some ((i64 l / 2 ^ r) mod 2 ^ 64)
  | ROTATE_LEFT => let n := r mod 64 in Some ((l * 2 ^ n) mod 2 ^ 64 + l / 2 ^ (64 - n))
  | ROTATE_RIGHT => let n := r mod 64 in Some (l / 2 ^ n + (l * 2 ^ (64 - n)) mod 2 ^ 64)
  | INT_EQUAL => Some (if l =? r then 1 else 0)
  | INT_LESS => Some (if l <? r then 1 else 0)
  | INT_SLESS => Some (if i64 l <? i64 r then 1 else 0)
  | _ => None
  end.

Definition computes64 {Mem} (act : PcodeOp -> Z -> list Z -> Mem -> Mem * Z) : Prop :=
  forall o sz l r m v, is_word 64 l -> is_word 64 r -> alu64 o l r = Some v -> act o sz [l; r] m = (m, v).

Lemma word_shift_out l n : is_word 64 l -> 64 <= n -> l / 2 ^ n = 0.
Proof.
  intros [H1 H2] Hn. apply Z.div_small. split; [done|].
  eapply Z.lt_le_trans; [exact H2|]. by apply Z.pow_le_mono_r.
Qed.

Lemma lor_disjoint a b n : 0 <= n -> 0 <= b < 2 ^ n -> Z.lor (a * 2 ^ n) b = a * 2 ^ n + b.
Proof.
  intros Hn Hb. rewrite <-Z.add_lor_land. enough (E : Z.land (a * 2 ^ n) b = 0) by lia.
  rewrite <-(Z.mod_small b (2 ^ n)) by done. apply Z.bits_inj'. intros i Hi.
  rewrite Z.land_spec, Z.bits_0. destruct (Z.lt_ge_cases i n).
  - by rewrite Z.mul_pow2_bits_low.
  - by rewrite Z.mod_pow2_bits_high, andb_false_r by lia.
Qed.

(** The two halves of a rotation do not overlap. *)
Lemma rotate_split x n : is_word 64 x -> 0 <= n <= 64 ->
  u64 (Z.lor (Z.shiftl x n) (Z.shiftr x (64 - n))) = (x * 2 ^ n) mod 2 ^ 64 + x / 2 ^ (64 - n).
Proof.
  intros Hx Hn. rewrite Z.shiftl_mul_pow2, Z.shiftr_div_pow2 by lia.
  assert (E : 2 ^ 64 = 2 ^ (64 - n) * 2 ^ n) by (rewrite <-Z.pow_add_r by lia; f_equal; lia).
  assert (P : 0 < 2 ^ n) by (apply Z.pow_pos_nonneg; lia).
  assert (Q : 0 < 2 ^ (64 - n)) by (apply Z.pow_pos_nonneg; lia).
  assert (Hy : 0 <= x / 2 ^ (64 - n) < 2 ^ n).
  { destruct Hx. split; [by apply Z.div_pos|]. apply Z.div_lt_upper_bound; [done|]. lia. }
  rewrite lor_disjoint by (done || lia). unfold u64, wrap. rewrite E.
  rewrite <-Zplus_mod_idemp_l, Z.mul_mod_distr_r by lia.
  assert (Hm := Z.mod_pos_bound x (2 ^ (64 - n)) Q).
  apply Z.mod_small. nia.
Qed.

Lemma sar_out x r : 64 <= r ->
  (i64 x / 2 ^ r) mod 2 ^ 64 = if i64 x <? 0 then u64 (-1) else 0.
Proof.
  intros Hr. pose proof (signed_of_range 64 x ltac:(lia)) as [H1 H2].
  change (signed_of 64 x) with (i64 x) in *. change (2 ^ (64 - 1)) with (2 ^ 63) in *.
  assert (2 ^ 64 <= 2 ^ r) by (apply Z.pow_le_mono_r; lia).
  change (2 ^ 64) with (2 ^ 63 + 2 ^ 63) in H. destruct (Z.ltb_spec (i64 x) 0).
  - by rewrite <-(Z.div_unique (i64 x) (2 ^ r) (-1) (i64 x + 2 ^ r)) by lia.
  - by rewrite Z.div_small by lia.
Qed.

Lemma fold_value_alu o l r :
  is_word 64 l -> is_word 64 r -> fold_value o l r = alu64 o l r.
Proof.
  intros Hl Hr. assert (M : Z.land r 63 = r mod 64) by (apply (Z.land_ones r 6); lia).
  assert (B : 0 <= r mod 64 < 64) by (apply Z.mod_pos_bound; lia).
  destruct Hr as [R0 R1]. destruct o; try done; cbn [fold_value alu64]; f_equal.
  - zcase; [by rewrite Z.shiftl_mul_pow2 by lia|].
    replace (2 ^ r) with (2 ^ (r - 64) * 2 ^ 64) by (rewrite <-Z.pow_add_r by lia; f_equal; lia).
    by rewrite Z.mul_assoc, Z.mod_mul.
  - zcase; [by rewrite Z.shiftr_div_pow2 by lia|]. by rewrite word_shift_out.
  - destruct (Z.ltb_spec r 64); [by rewrite Z.shiftr_div_pow2 by lia|]. by rewrite sar_out.
  - unfold rotl. rewrite M. apply rotate_split; [done|lia].
  - unfold rotr. rewrite M, Z.lor_comm.
    pose proof (rotate_split l (64 - r mod 64) Hl ltac:(lia)) as E.
    replace (64 - (64 - r mod 64)) with (r mod 64) in E by lia. rewrite E. lia.
Qed.

(** ** Passes that keep the meaning *)

(** The code marks a phi by its sequence number; nothing else carries it. *)
Definition phis_ok (f : PcodeFunc) : Prop :=
  forall b i, b ∈ blocks f -> i ∈ ops b -> seq i = -1 -> op i = COPY.

Definition consts_ok (f : PcodeFunc) : Prop :=
  forall b i v, b ∈ blocks f -> i ∈ ops b -> v ∈ inputs i -> is_const v = true -> is_word 64 (offset v).

Section Meaning.
Context {Mem : Type} (act : PcodeOp -> Z -> list Z -> Mem -> Mem * Z).
Context (Hpure : pure_ops act) (Hcopy : copies act).

Lemma is_phi_iff i : is_phi i = true <-> op i = COPY /\ seq i = -1.
Proof. unfold is_phi. by rewrite andb_true_iff, bool_decide_eq_true, Z.eqb_eq. Qed.

Lemma exec_fold s i :
  computes64 act -> (forall v, v ∈ inputs i -> is_const v = true -> is_word 64 (offset v)) ->
  exec act (fold_insn i) s = exec act i s.
Proof using Hcopy.
  intros Halu Hw. unfold fold_insn. destruct (inputs i) as [|l [|r [|? ?]]] eqn:Ei; try done.
  destruct (is_const l && is_const r) eqn:C; [|done]. apply andb_prop in C as [Cl Cr].
  destruct (fold_value _ _ _) as [v|] eqn:F; [|done].
  assert (Wl : is_word 64 (offset l)) by (apply Hw; [left|done]).
  assert (Wr : is_word 64 (offset r)) by (apply Hw; [right; left|done]).
  assert (N : is_nop i = false /\ effectful (op i) = false).
  { unfold is_nop. by destruct (op i). }
  destruct N as [N1 N2]. rewrite fold_value_alu in F by done.
  assert (Vl : value (env s) l = offset l) by (unfold value; by rewrite Cl).
  assert (Vr : value (env s) r = offset r) by (unfold value; by rewrite Cr).
  unfold exec. rewrite N1, N2, Ei. cbn [fmap list_fmap inputs set_inputs]. rewrite Vl, Vr.
  rewrite (Halu _ _ _ _ _ v) by done.
  unfold is_nop; cbn. by rewrite Hcopy.
Qed.

(** C13: constant folding keeps the meaning of the function, for every interpretation
    in which the arithmetic operations are those of 64-bit words: every path ends
    with the same memory, effects and variables.  Shifts by 64 and more, arithmetic
    shifts of negative words and rotations are included. *)
Theorem constant_fold_preserves f :
  computes64 act -> phis_ok f -> consts_ok f -> preserves act all_keys f (constant_fold f).
Proof using Hcopy.
  intros Halu Hp Hc. apply map_preserves.
  - intros b i Hb Hi. apply eq_true_iff_eq. rewrite !is_phi_iff. unfold fold_insn.
    destruct (inputs i) as [|l [|r [|? ?]]]; try done.
    destruct (is_const l && is_const r); [|done]. destruct (fold_value _ _ _) eqn:F; [|done]. cbn.
    split; [intros [_ Hs]; by rewrite (Hp b i Hb Hi Hs) in F|intros [E _]; by rewrite E in F].
  - intros b i Hb Hi [E _]%is_phi_iff. split; [|apply readable_all]. unfold fold_insn.
    destruct (inputs i) as [|l [|r [|? ?]]]; try done. rewrite E. by destruct (is_const l && is_const r).
  - intros b i s t Hb Hi _ A. rewrite exec_fold; [by apply exec_agree, readable_all|done|].
    intros v. by eapply Hc.
Qed.

Lemma exec_identity s i src vs :
  op i = COPY -> inputs i = src :: vs -> vn_eqb (output i) src = true -> agree all_keys (exec act i s) s.
Proof using Hcopy.
  intros Ho Hi E. unfold vn_eqb in E.
  rewrite !andb_true_iff, bool_decide_eq_true, !Z.eqb_eq in E. destruct E as (((Ek & Ei) & Es) & Eo).
  unfold exec. replace (is_nop i) with false by (unfold is_nop; by rewrite Ho).
  rewrite Ho, Hi. cbn. rewrite Hcopy. split_and!; cbn; [done|done|].
  intros k _. unfold assign, value, key, is_const. rewrite Ek, Ei, Es, Eo.
  destruct (bool_decide (kind src = Const)); [done|]. case_decide as E; [by rewrite E|done].
Qed.

(** Removing copies of a variable to itself keeps the meaning of the function. *)
Lemma eliminate_identity_preserves f : preserves act all_keys f (eliminate_identity f).
Proof using Hcopy.
  unfold eliminate_identity. set (dead := fun o => _ && _).
  change (map_ops _ f) with (map_ops (fun os => erase_nops (fmap (mark dead) os)) f).
  replace (map_ops (fun os => erase_nops (mark dead <$> os)) f) with (map_ops erase_nops (map_ops (fmap (mark dead)) f)).
  2: { unfold map_ops, set_blocks; cbn. f_equal. rewrite <-list_fmap_compose. done. }
  eapply preserves_trans; [|apply erase_preserves]. apply map_preserves.
  - intros b i _ _. unfold mark. destruct (dead i) eqn:D; [|done]. unfold dead in D.
    unfold is_phi; cbn. rewrite !andb_true_iff, negb_true_iff in D. destruct D as [[_ D] _]. by rewrite D, !andb_false_r.
  - intros b i _ _ P. split; [|apply readable_all]. unfold mark, dead. apply andb_prop in P as [_ P].
    by rewrite P, andb_false_r.
  - intros b i s t _ _ _ A. unfold mark. destruct (dead i) eqn:D; [|by apply exec_agree, readable_all].
    assert (E : exec act (set_op NOP i) t = t) by done. rewrite E.
    eapply agree_trans; [|exact A]. unfold dead in D. rewrite !andb_true_iff, bool_decide_eq_true in D.
    destruct D as [[Ho _] D]. destruct (inputs i) as [|src vs] eqn:Ei; [done|]. by eapply exec_identity.
Qed.

(** Removing unused outputs, for twelve rounds, keeps memory, effects, the return
    register and every variable the result still reads. *)
Lemma dead_copy_elim_preserves f :
  preserves act (Dce.observed (dead_copy_elim f)) f (dead_copy_elim f).
Proof using Hpure. by apply Dce.erase_sweep_preserves. Qed.
End Meaning.

(** ** A concrete interpretation *)

(** 64-bit arithmetic; any other operation yields its first input. *)
Definition act64 (o : PcodeOp) (sz : Z) (ins : list Z) (m : unit) : unit * Z :=
  (m, match o, ins with
      | INT_NEQUAL, [l; r] => if l =? r then 0 else 1
      | BOOL_NOT, [b] => 1 - b
      | _, [l; r] => default l (alu64 o l r)
      | _, v :: _ => v
      | _, [] => 0
      end).

Lemma act64_copies : copies act64.
Proof. intros sz v [|w [|x vs]] []; done. Qed.

Lemma act64_computes : computes64 act64.
Proof. intros o sz l r [] v _ _ H. unfold act64. destruct o; try done; by rewrite H. Qed.

(** 2^63 shifted right arithmetically by 63, and rotated left by one. *)
Definition shifts : PcodeFunc :=
  mk_func 0 [] [mk_block 0 0 [make SHIFT_ARIGHT (vn_temp 0 8) [vn_const (2 ^ 63) 8; vn_const 63 8] 0;
                              make ROTATE_LEFT (vn_temp 1 8) [vn_const (2 ^ 63) 8; vn_const 1 8] 1;
                              make RETURN no_vn [vn_temp 0 8; vn_temp 1 8] 2] [] [] true] 2 0 [] [].

Lemma constant_fold_preserves_witness :
  (fun b => (fun i => offset <$> inputs i) <$> ops b) <$> blocks (constant_fold shifts) =
    [[[2 ^ 64 - 1]; [1]; [0; 0]]] /\
  preserves act64 all_keys shifts (constant_fold shifts).
Proof.
  split; [vm_compute; reflexivity|].
  apply (constant_fold_preserves act64 act64_copies shifts act64_computes).
  - intros b i Hb%list_elem_of_singleton Hi E. subst b. apply list_elem_of_In in Hi.
    destruct Hi as [<-|[<-|[<-|[]]]]; discriminate E.
  - intros b i v Hb%list_elem_of_singleton Hi Hv C. subst b. apply list_elem_of_In in Hi, Hv.
    destruct Hi as [<-|[<-|[<-|[]]]]; destruct Hv as [<-|[<-|[]]]; (discriminate C || by split).
Defined.

(** ** Where the meaning is lost *)

(** The fold ignores the width of the output: a 32-bit sum keeps a 33rd bit. *)
Lemma fold_ignores_width :
  inputs (fold_insn (make ADD (vn_temp 0 4) [vn_const (2 ^ 32 - 1) 4; vn_const 1 4] 0)) = [vn_const (2 ^ 32) 4].
Proof. reflexivity. Qed.

Definition zf (version : Z) : Varnode := set_offset version (vn_reg 100 [] 1).

(** cmp a, b; sete t; cmp c, d; jne: the versions of ZF are told apart by no test. *)
Definition two_compares : PcodeFunc :=
  let n := vn_temp 4 1 in
  mk_func 0 [] [mk_block 0 0 [make INT_EQUAL (zf 1) [vn_temp 0 8; vn_temp 1 8] 0;
                              make STORE no_vn [vn_const 4096 8; zf 1] 1;
                              make INT_EQUAL (zf 2) [vn_temp 2 8; vn_temp 3 8] 2;
                              make BOOL_NOT n [zf 2] 3;
                              make CBRANCH no_vn [vn_const 64 8; n] 4] [] [] false] 5 2 [] [].

(** [fold_flags] makes the branch test the operands of the first comparison and drops
    the flag that is stored: with a = b = 1, c = 2 and d = 3 the original stores 1 and
    branches on 1, the result stores an undefined value and branches on 0. *)
Lemma fold_flags_confuses_versions :
  let s := mk_state () (fun k => match k_kind k, k_id k with Temp, 0 | Temp, 1 => 1 | Temp, i => i | _, _ => 77 end) [] in
  trace (run_path act64 two_compares [(0%nat, 0%nat)] s) = [(STORE, 1, [4096; 1]); (CBRANCH, 4, [64; 1])] /\
  trace (run_path act64 (fold_flags two_compares) [(0%nat, 0%nat)] s) = [(STORE, 1, [4096; 77]); (CBRANCH, 4, [64; 0])].
Proof. by vm_compute. Qed.

(** mov rcx, 5; lea t, [rcx + 1]; call; a use of t *)
Definition argument_read : PcodeFunc :=
  let rcx := set_offset 1 (vn_reg 1 [] 8) in
  mk_func 0 [] [mk_block 0 0 [make COPY rcx [vn_const 5 8] 0;
                              make ADD (vn_temp 0 8) [rcx; vn_const 1 8] 1;
                              make CALL (vn_reg 0 [] 8) [vn_const 4096 8; rcx] 2;
                              make STORE no_vn [vn_const 8192 8; vn_temp 0 8] 3] [] [] false] 1 1 [] [].

(** [fold_arg_setup] drops the copy into an argument register although an operation
    before the call reads the register. *)
Lemma fold_arg_drops_used_copy :
  let s := mk_state () (fun _ => 77) [] in
  trace (run_path act64 argument_read [(0%nat, 0%nat)] s) = [(CALL, 2, [4096; 5]); (STORE, 3, [8192; 6])] /\
  trace (run_path act64 (fold_arg_setup argument_read) [(0%nat, 0%nat)] s) = [(CALL, 2, [4096; 5]); (STORE, 3, [8192; 78])].
Proof. by vm_compute. Qed.
