(* ===== verification/CopyProp.v ===== *)
(** * Copy propagation is sound on SSA functions

    [Propagate.copy_propagation] against the meaning of [Ir]: a function is in SSA
    form when each variable has one definition and every path from the entry passes
    it before a use.  The proof follows the operations executed along a path. *)

From S2P Require Import Prelude Ir Propagate.

#[local] Open Scope Z_scope.

(** ** The operations along a path *)

(** What a block entered from position [p] executes: its phis together, then one
    operation after the other. *)
Inductive item := Phis (p : nat) (l : list PcodeInsn) | Op (i : PcodeInsn).

Definition items (os : list PcodeInsn) (p : nat) : list item :=
  Phis p (List.filter is_phi os) :: (Op <$> List.filter (fun i => negb (is_phi i)) os).

Definition flat (f : PcodeFunc) (path : list (nat * nat)) : list item :=
  mjoin ((fun bp => items (ops_at f bp.1) bp.2) <$> path).

(** The key an operation writes, if any. *)
Definition out_key (i : PcodeInsn) : option VnKey :=
  if is_nop i || is_const (output i) then None else Some (key (output i)).

Definition defines (x : item) (k : VnKey) : Prop :=
  match x with
  | Phis _ l => exists i, i ∈ l /\ out_key i = Some k
  | Op i => out_key i = Some k
  end.

(** A variable that an input names. *)
Definition names (v : Varnode) (k : VnKey) : Prop := is_const v = false /\ key v = k.

Definition reads (x : item) (k : VnKey) : Prop :=
  match x with
  | Phis p l => exists i v, i ∈ l /\ inputs i !! p = Some v /\ names v k
  | Op i => is_nop i = false /\ exists v, v ∈ inputs i /\ names v k
  end.

Definition edge (f : PcodeFunc) (b : nat) (bp : nat * nat) : Prop :=
  exists B, blocks f !! bp.1 = Some B /\ preds B !! bp.2 = Some (Z.of_nat b).

Fixpoint follows (f : PcodeFunc) (b : nat) (path : list (nat * nat)) : Prop :=
  match path with [] => True | bp :: path' => edge f b bp /\ follows f bp.1 path' end.

(** A path starts at the entry, from no predecessor. *)
Definition valid_path (f : PcodeFunc) (path : list (nat * nat)) : Prop :=
  match path with
  | [] => True
  | bp :: path' =>
      bp.1 = entry_block f /\ (exists B, blocks f !! bp.1 = Some B /\ (length (preds B) <= bp.2)%nat) /\
      follows f bp.1 path'
  end.

Definition defs (f : PcodeFunc) : list VnKey := mjoin ((fun b => omap out_key (ops b)) <$> blocks f).

(** Each variable is defined once; along every path a use comes after the definition. *)
Record ssa (f : PcodeFunc) : Prop := mk_ssa {
  ssa_unique : NoDup (defs f);
  ssa_strict : forall path A x B k, valid_path f path -> flat f path = A ++ x :: B ->
    reads x k -> k ∈ defs f -> exists y, y ∈ A /\ defines y k;
  ssa_copies : forall b i, b ∈ blocks f -> i ∈ ops b -> op i = COPY -> is_phi i = false ->
    is_const (output i) = false
}.

(** ** Functions with the same blocks and edges *)

Definition same_shape (f g : PcodeFunc) : Prop :=
  entry g = entry f /\ Forall2 (fun b c => b_addr c = b_addr b /\ preds c = preds b) (blocks f) (blocks g).

Section Shape.
Context (f g : PcodeFunc) (E : same_shape f g).

Lemma shape_entry : entry_block g = entry_block f.
Proof using E.
  destruct E as [Ee F]. unfold entry_block. rewrite Ee. clear -F.
  assert (H : fst <$> list_find (fun b => b_addr b = entry f) (blocks g) =
              fst <$> list_find (fun b => b_addr b = entry f) (blocks f)).
  { induction F as [|b c bs cs (H1 & _) _ IH]; [done|]. cbn. rewrite H1.
    case_decide; [done|]. revert IH.
    destruct (list_find _ cs) as [[? ?]|], (list_find _ bs) as [[? ?]|]; cbn; congruence. }
  revert H. destruct (list_find _ (blocks g)) as [[? ?]|], (list_find _ (blocks f)) as [[? ?]|]; cbn; congruence.
Qed.

Lemma shape_edge b bp : edge g b bp <-> edge f b bp.
Proof using E.
  destruct E as [_ F]. rewrite Forall2_lookup in F. unfold edge.
  destruct (F bp.1) as [B C (_ & P)|]; [|done]. split; intros (D & [= <-] & H); eexists; (split; [done|congruence]).
Qed.

Lemma shape_follows b path : follows g b path <-> follows f b path.
Proof using E. revert b; induction path as [|bp path IH]; intros b; cbn; [done|]. by rewrite shape_edge, IH. Qed.

Lemma shape_valid path : valid_path g path <-> valid_path f path.
Proof using E.
  destruct path as [|bp path]; [done|]. cbn. rewrite shape_entry, shape_follows.
  destruct E as [_ F]. rewrite Forall2_lookup in F.
  destruct (F bp.1) as [B C (_ & P)|]; [|naive_solver].
  assert (H : (exists B0, Some C = Some B0 /\ (length (preds B0) <= bp.2)%nat) <->
              (exists B0, Some B = Some B0 /\ (length (preds B0) <= bp.2)%nat)).
  { split; intros (D & [= <-] & H); eexists; (split; [done|congruence]). }
  tauto.
Qed.
End Shape.

(** ** Splitting paths *)

Lemma flat_app f p q : flat f (p ++ q) = flat f p ++ flat f q.
Proof. unfold flat. by rewrite fmap_app, join_app. Qed.

Lemma join_split {A} (ls : list (list A)) a x b :
  mjoin ls = a ++ x :: b ->
  exists ls1 l ls2 u v, ls = ls1 ++ l :: ls2 /\ l = u ++ x :: v /\ a = mjoin ls1 ++ u /\ b = v ++ mjoin ls2.
Proof.
  revert a; induction ls as [|l ls IH]; intros a E; cbn in E; [by destruct a|].
  apply app_eq_inv in E as [(k & E1 & E2)|(k & E1 & E2)].
  - destruct k as [|y k]; cbn in E2.
    + rewrite app_nil_r in E1. subst l. destruct (IH [] (eq_sym E2)) as (ls1 & l' & ls2 & u & v & -> & -> & E3 & ->).
      exists (a :: ls1), (u ++ x :: v), ls2, u, v. split_and!; [done|done| |done].
      symmetry in E3. apply app_nil in E3 as [M ->].
      change (mjoin (a :: ls1)) with (a ++ mjoin ls1). by rewrite M, !app_nil_r.
    + injection E2 as <- E2. exists [], l, ls, a, k. by split_and!.
  - destruct (IH k E2) as (ls1 & l' & ls2 & u & v & -> & -> & E3 & ->).
    exists (l :: ls1), (u ++ x :: v), ls2, u, v. split_and!; [done|done| |done]. change (mjoin (l :: ls1)) with (l ++ mjoin ls1). by rewrite E1, E3, app_assoc.
Qed.

Lemma flat_split f path a x b :
  flat f path = a ++ x :: b ->
  exists p1 bp p2 u v, path = p1 ++ bp :: p2 /\ items (ops_at f bp.1) bp.2 = u ++ x :: v /\
    a = flat f p1 ++ u /\ b = v ++ flat f p2.
Proof.
  intros E. apply join_split in E as (ls1 & l & ls2 & u & v & E1 & E2 & -> & ->).
  apply fmap_app_inv in E1 as (p1 & p2 & -> & E1 & ->). symmetry in E1.
  apply fmap_cons_inv in E1 as (bp & p3 & -> & -> & ->). by exists p1, bp, p3, u, v.
Qed.

Lemma follows_app f b p bp q :
  follows f b (p ++ bp :: q) <-> follows f b (p ++ [bp]) /\ follows f bp.1 q.
Proof.
  revert b; induction p as [|x p IH]; intros b; cbn; [naive_solver|].
  rewrite IH. naive_solver.
Qed.

Lemma valid_splice f p bp q p' bp' q' :
  valid_path f (p ++ bp :: q) -> valid_path f (p' ++ bp' :: q') -> bp.1 = bp'.1 ->
  valid_path f (p ++ bp :: q').
Proof.
  intros V V' E.
  assert (Q : follows f bp.1 q').
  { rewrite E. destruct p' as [|x p']; cbn in V'; [apply V'|]. destruct V' as (_ & _ & V').
    by apply follows_app in V' as [_ V']. }
  destruct p as [|x p]; cbn in *; [naive_solver|]. destruct V as (V1 & V2 & V).
  split_and!; [done|done|]. apply follows_app. split; [|done]. by apply follows_app in V as [V _].
Qed.

(** ** One definition *)

Lemma NoDup_join_same {A} (ls : list (list A)) i j l l' x :
  NoDup (mjoin ls) -> ls !! i = Some l -> ls !! j = Some l' -> x ∈ l -> x ∈ l' -> i = j.
Proof.
  revert i j; induction ls as [|m ls IH]; intros i j N Hi Hj X X'; [done|].
  change (mjoin (m :: ls)) with (m ++ mjoin ls) in N. apply NoDup_app in N as (N1 & N2 & N3).
  assert (D : forall n l0, ls !! n = Some l0 -> x ∈ l0 -> x ∈ m -> False).
  { intros n l0 H1 H2 H3. apply (N2 x H3), list_elem_of_join. exists l0. split; [done|].
    by eapply list_elem_of_lookup_2. }
  destruct i as [|i], j as [|j]; cbn in *; [done| | |f_equal; by eapply IH]; simplify_eq; exfalso; eauto.
Qed.

Lemma NoDup_join_elem {A} (ls : list (list A)) l : NoDup (mjoin ls) -> l ∈ ls -> NoDup l.
Proof.
  intros N H. induction H as [l ls|l m ls H IH]; change (mjoin (?a :: ls)) with (a ++ mjoin ls) in N;
    apply NoDup_app in N as (N1 & _ & N2); [done|by apply IH].
Qed.

Lemma omap_split_unique {A} (g : A -> option VnKey) l u x v u' x' v' k :
  NoDup (omap g l) -> l = u ++ x :: v -> l = u' ++ x' :: v' -> g x = Some k -> g x' = Some k ->
  x = x' /\ v = v'.
Proof.
  revert u u'; induction l as [|y l IH]; intros u u' N E E' G G'; [by destruct u|].
  assert (Hin : forall a b z, l = a ++ z :: b -> g z = Some k -> k ∈ omap g l).
  { intros a b z -> Gz. apply list_elem_of_omap. exists z. split; [|done]. apply elem_of_app. right. by left. }
  assert (N' : NoDup (omap g l)).
  { cbn in N. destruct (g y); [by apply NoDup_cons in N as [_ N]|done]. }
  assert (Ny : g y = Some k -> k ∈ omap g l -> False).
  { intros Gy. cbn in N. rewrite Gy in N. by apply NoDup_cons in N as [N _]. }
  destruct u as [|z u], u' as [|z' u']; cbn in E, E'; simplify_eq; [done| | |by eapply IH]; exfalso; eauto.
Qed.

Lemma items_split os p u x v :
  items os p = u ++ x :: v ->
  (u = [] /\ x = Phis p (List.filter is_phi os) /\ v = Op <$> List.filter (fun i => negb (is_phi i)) os) \/
  (exists r1 i r2, List.filter (fun i => negb (is_phi i)) os = r1 ++ i :: r2 /\ x = Op i /\ v = Op <$> r2).
Proof.
  unfold items. destruct u as [|y u]; intros E; cbn in E; [left; by simplify_eq|right].
  injection E as _ E. apply fmap_app_inv in E as (r1 & r2 & _ & E & ->). symmetry in E.
  apply fmap_cons_inv in E as (i & r3 & -> & -> & ->). by exists r1, i, r3.
Qed.

Lemma filter_Permutation {A} (q : A -> bool) l : List.filter q l ++ List.filter (fun x => negb (q x)) l ≡ₚ l.
Proof.
  induction l as [|x l IH]; [done|]. cbn. destruct (q x); cbn; [by rewrite IH|].
  by rewrite <-Permutation_middle, IH.
Qed.

Lemma block_keys os : NoDup (omap out_key os) ->
  NoDup (omap out_key (List.filter is_phi os) ++ omap out_key (List.filter (fun i => negb (is_phi i)) os)).
Proof. intros N. rewrite <-omap_app. by rewrite filter_Permutation. Qed.

Definition same_item (x y : item) : Prop :=
  match x, y with Phis _ l, Phis _ l' => l = l' | Op i, Op i' => i = i' | _, _ => False end.

Lemma defines_in_block os p u x v k :
  items os p = u ++ x :: v -> defines x k -> k ∈ omap out_key os.
Proof.
  intros E D. apply items_split in E as [(_ & -> & _)|(r1 & i & r2 & E & -> & _)]; cbn in D.
  - destruct D as (i & Hi & D). apply list_elem_of_omap. exists i. split; [|done].
    apply list_elem_of_In, filter_In in Hi as [Hi _]. by apply list_elem_of_In.
  - apply list_elem_of_omap. exists i. split; [|done].
    assert (Hi : i ∈ List.filter (fun i => negb (is_phi i)) os) by (rewrite E; apply elem_of_app; right; by left).
    apply list_elem_of_In, filter_In in Hi as [Hi _]. by apply list_elem_of_In.
Qed.

Lemma ops_at_keys f b k : k ∈ omap out_key (ops_at f b) ->
  ((fun b => omap out_key (ops b)) <$> blocks f) !! b = Some (omap out_key (ops_at f b)).
Proof.
  unfold ops_at. rewrite list_lookup_fmap. destruct (blocks f !! b); cbn; [done|]. by intros ?%not_elem_of_nil.
Qed.

Lemma definers_unique f b p u x v b' p' u' x' v' k :
  NoDup (defs f) -> items (ops_at f b) p = u ++ x :: v -> items (ops_at f b') p' = u' ++ x' :: v' ->
  defines x k -> defines x' k -> b = b' /\ v = v' /\ same_item x x'.
Proof.
  intros N E E' D D'. pose proof (defines_in_block _ _ _ _ _ _ E D) as K.
  pose proof (defines_in_block _ _ _ _ _ _ E' D') as K'.
  pose proof (ops_at_keys f b k K) as L. pose proof (ops_at_keys f b' k K') as L'.
  pose proof (NoDup_join_same _ _ _ _ _ _ N L L' K K') as <-. clear K' L'. split; [done|].
  assert (N1 : NoDup (omap out_key (ops_at f b))).
  { eapply NoDup_join_elem; [exact N|]. by eapply list_elem_of_lookup_2. }
  apply block_keys, NoDup_app in N1 as (_ & N2 & N3).
  assert (Hop : forall r1 i r2, List.filter (fun i => negb (is_phi i)) (ops_at f b) = r1 ++ i :: r2 ->
    out_key i = Some k -> k ∈ omap out_key (List.filter (fun i => negb (is_phi i)) (ops_at f b))).
  { intros r1 i r2 -> G. apply list_elem_of_omap. exists i. split; [|done]. apply elem_of_app. right. by left. }
  assert (Hphi : forall l : list PcodeInsn, (exists i, i ∈ l /\ out_key i = Some k) -> k ∈ omap out_key l).
  { intros l (i & Hi & G). apply list_elem_of_omap. eauto. }
  apply items_split in E as [(_ & -> & ->)|(r1 & i & r2 & E & -> & ->)];
    apply items_split in E' as [(_ & -> & ->)|(r1' & i' & r2' & E' & -> & ->)]; cbn in D, D'.
  - by split.
  - exfalso. apply (N2 k); [exact (Hphi _ D)|exact (Hop _ _ _ E' D')].
  - exfalso. apply (N2 k); [exact (Hphi _ D')|exact (Hop _ _ _ E D)].
  - destruct (omap_split_unique _ _ _ _ _ _ _ _ _ N3 E E' D D') as [-> ->]. by split.
Qed.

(** ** Executing items *)

Section Exec.
Context {Mem : Type} (act : PcodeOp -> Z -> list Z -> Mem -> Mem * Z).

Definition exec_item (s : state Mem) (x : item) : state Mem :=
  match x with
  | Phis p l => mk_state (mem s) (exec_phis p l (env s)) (trace s)
  | Op i => exec act i s
  end.

Lemma exec_block_items p os s : exec_block act p os s = foldl exec_item s (items os p).
Proof.
  unfold exec_block, items. cbn. generalize (mk_state (mem s) (exec_phis p (List.filter is_phi os) (env s)) (trace s)).
  induction (List.filter (fun i => negb (is_phi i)) os) as [|i l IH]; intros u; [done|]. cbn. apply IH.
Qed.

Lemma run_flat f path s : run_path act f path s = foldl exec_item s (flat f path).
Proof.
  revert s; induction path as [|bp path IH]; intros s; [done|].
  change (flat f (bp :: path)) with (items (ops_at f bp.1) bp.2 ++ flat f path).
  rewrite foldl_app, <-exec_block_items. apply IH.
Qed.

Lemma out_key_assign i x e k : is_nop i = false -> out_key i <> Some k -> assign (output i) x e k = e k.
Proof.
  unfold out_key. intros -> H. cbn in H. apply assign_other. destruct (is_const (output i)); [by left|right; congruence].
Qed.

Lemma phis_other p l e k :
  (forall i, i ∈ l -> is_nop i = false /\ out_key i <> Some k) -> exec_phis p l e k = e k.
Proof.
  intros H. unfold exec_phis. generalize (phi_value p e). intros g. revert e.
  induction l as [|i l IH]; intros e; [done|]. cbn. rewrite IH by (intros j Hj; apply H; by right).
  destruct (H i (list_elem_of_here _ _)). by apply out_key_assign.
Qed.
End Exec.

(** ** The first and the last definition *)

#[export] Instance defines_dec x k : Decision (defines x k).
Proof.
  destruct x as [p l|i]; cbn; [|apply _].
  destruct (decide (Exists (fun i => out_key i = Some k) l)) as [H|H]; [left|right];
    rewrite Exists_exists in H; naive_solver.
Defined.

Lemma first_split {A} (P : A -> Prop) `{forall x, Decision (P x)} (l : list A) :
  (exists x, x ∈ l /\ P x) -> exists a x b, l = a ++ x :: b /\ P x /\ forall y, y ∈ a -> ~ P y.
Proof.
  induction l as [|y l IH]; [by intros (x & ?%not_elem_of_nil & _)|]. intros (x & Hx & Px).
  destruct (decide (P y)) as [Py|Py]; [exists [], y, l; split_and!; [done|done|set_solver]|].
  destruct IH as (a & z & b & -> & Pz & Ha); [set_solver|]. exists (y :: a), z, b.
  split_and!; [done|done|set_solver].
Qed.

Lemma last_split {A} (P : A -> Prop) `{forall x, Decision (P x)} (l : list A) :
  (exists x, x ∈ l /\ P x) -> exists a x b, l = a ++ x :: b /\ P x /\ forall y, y ∈ b -> ~ P y.
Proof.
  induction l as [|y l IH] using rev_ind; [by intros (x & ?%not_elem_of_nil & _)|]. intros (x & Hx & Px).
  destruct (decide (P y)) as [Py|Py]; [exists l, y, []; split_and!; [done|done|set_solver]|].
  destruct IH as (a & z & b & -> & Pz & Ha); [set_solver|]. exists a, z, (b ++ [y]).
  split_and!; [by rewrite <-app_assoc|done|set_solver].
Qed.

(** ** Where a copy is read, its source still has the copied value *)

Section Copy.
Context (f : PcodeFunc) (Hssa : ssa f) (cb ci : nat) (c : PcodeInsn) (src : Varnode) (vs : list Varnode).
Context (Hc : op_at f cb ci = Some c) (Hop : op c = COPY) (Hphi : is_phi c = false) (Hin : inputs c = src :: vs).

Lemma c_in_block : exists b, b ∈ blocks f /\ c ∈ ops b.
Proof using Hc.
  unfold op_at in Hc. destruct (blocks f !! cb) as [b|] eqn:E; [|done]. cbn in Hc. exists b.
  split; by eapply list_elem_of_lookup_2.
Qed.

Lemma c_not_nop : is_nop c = false.
Proof using Hop. unfold is_nop. by rewrite Hop. Qed.

Lemma c_out : out_key c = Some (key (output c)).
Proof using Hssa Hc Hop Hphi.
  unfold out_key. rewrite c_not_nop. destruct c_in_block as (b & Hb & Hi).
  by rewrite (ssa_copies f Hssa b c Hb Hi Hop Hphi).
Qed.

Lemma c_item : exists u v, items (ops_at f cb) 0 = u ++ Op c :: v.
Proof using Hc Hphi.
  unfold op_at, ops_at in *. destruct (blocks f !! cb) as [b|]; [|done]. cbn in *.
  assert (Hi : c ∈ List.filter (fun i => negb (is_phi i)) (ops b)).
  { apply list_elem_of_In, filter_In. split; [|by rewrite Hphi].
    by apply list_elem_of_In, (list_elem_of_lookup_2 _ ci). }
  apply list_elem_of_split in Hi as (l1 & l2 & E). unfold items. rewrite E, fmap_app. cbn.
  by exists (Phis 0 (List.filter is_phi (ops b)) :: (Op <$> l1)), (Op <$> l2).
Qed.

Lemma def_is_c path A x B : flat f path = A ++ x :: B -> defines x (key (output c)) -> x = Op c.
Proof using Hssa Hc Hop Hphi.
  intros E D. apply flat_split in E as (p1 & [b p] & p2 & u & v & _ & E & _). destruct c_item as (u' & v' & E').
  destruct (definers_unique f b p u x v cb 0 u' (Op c) v' (key (output c)) (ssa_unique f Hssa) E E' D c_out)
    as (_ & _ & S). by destruct x; [|cbn in S; subst].
Qed.

Lemma c_reads : forall k, names src k -> reads (Op c) k.
Proof using Hop Hin. intros k Hk. cbn. split; [apply c_not_nop|]. exists src. split; [rewrite Hin; by left|done]. Qed.

Lemma def_in_defs path A x B k : flat f path = A ++ x :: B -> defines x k -> k ∈ defs f.
Proof.
  intros E D. apply flat_split in E as (p1 & [b p] & p2 & u & v & _ & E & _). cbn in E.
  pose proof (defines_in_block _ _ _ _ _ _ E D) as K. apply list_elem_of_join.
  exists (omap out_key (ops_at f b)). split; [done|].
  exact (list_elem_of_lookup_2 _ _ _ (ops_at_keys f b k K)).
Qed.

Lemma c_def_in_defs : key (output c) ∈ defs f.
Proof using Hssa Hc Hop Hphi.
  destruct c_in_block as (b & Hb & Hi). apply list_elem_of_join. exists (omap out_key (ops b)). split.
  - apply list_elem_of_omap. exists c. split; [done|apply c_out].
  - by apply (list_elem_of_fmap_2 (fun b => omap out_key (ops b))).
Qed.

(** Two definitions of a key on valid paths: the first path up to the first of them
    continues with what follows the second. *)
Lemma splice path A x B path' A' x' B' k :
  valid_path f path -> valid_path f path' ->
  flat f path = A ++ x :: B -> flat f path' = A' ++ x' :: B' -> defines x k -> defines x' k ->
  exists q, valid_path f q /\ flat f q = A ++ x :: B'.
Proof using Hssa.
  intros V V' E E' D D'.
  apply flat_split in E as (p1 & [b p] & p2 & u & v & -> & E & -> & ->).
  apply flat_split in E' as (p1' & [b' p'] & p2' & u' & v' & -> & E' & -> & ->). cbn in E, E'.
  destruct (definers_unique f _ _ _ _ _ _ _ _ _ _ _ (ssa_unique f Hssa) E E' D D') as (-> & -> & _).
  exists (p1 ++ (b', p) :: p2'). split; [by eapply (valid_splice f p1 (b', p) p2 p1' (b', p') p2')|].
  rewrite flat_app. change (flat f ((b', p) :: p2')) with (items (ops_at f b') p ++ flat f p2').
  rewrite E. by rewrite <-!app_assoc.
Qed.

(** *** What the splice rules out *)

(** No definition of the source comes after the last copy before a read of the copy. *)
Lemma source_kept path A y A2 x B k :
  valid_path f path -> flat f path = (A ++ y :: A2) ++ x :: B ->
  defines y (key (output c)) -> (forall z, z ∈ A2 -> ~ defines z (key (output c))) ->
  reads x (key (output c)) -> names src k -> forall z, z ∈ A2 -> ~ defines z k.
Proof using Hssa Hc Hop Hphi Hin.
  intros V E Dy Last Rx Nk z Hz Dz.
  assert (Ey : y = Op c) by (eapply def_is_c; [|exact Dy]; rewrite E, <-app_assoc; done).
  apply list_elem_of_split in Hz as (A3 & A4 & ->).
  assert (Ez : flat f path = (A ++ y :: A3) ++ z :: (A4 ++ x :: B)) by (rewrite E; rewrite <-!app_assoc; cbn; by rewrite <-!app_assoc).
  pose proof (def_in_defs _ _ _ _ _ Ez Dz) as Kd.
  assert (Strict : forall P Q, flat f path = P ++ Op c :: Q -> exists w, w ∈ P /\ defines w k).
  { intros P Q EP. eapply (ssa_strict f Hssa path P (Op c) Q k V EP); [by apply c_reads|done]. }
  assert (EA : flat f path = A ++ Op c :: (A3 ++ z :: A4 ++ x :: B)).
  { rewrite Ez, Ey, <-!app_assoc. done. }
  destruct (first_split (fun w => defines w k) A (Strict _ _ EA)) as (P & w & Q & -> & Dw & First).
  assert (Ew : flat f path = P ++ w :: (Q ++ Op c :: A3 ++ z :: A4 ++ x :: B)).
  { rewrite EA, <-!app_assoc. done. }
  destruct (splice path P w (Q ++ Op c :: A3 ++ z :: A4 ++ x :: B) path (P ++ w :: Q ++ y :: A3) z (A4 ++ x :: B) k) as (q & Vq & Eq); try done.
  { rewrite Ez, <-!app_assoc. cbn. by rewrite <-!app_assoc. }
  destruct (ssa_strict f Hssa q (P ++ w :: A4) x B (key (output c)) Vq) as (t & Ht & Dt);
    [by rewrite Eq, <-app_assoc|done|exact c_def_in_defs|].
  assert (Et : t = Op c).
  { apply list_elem_of_split in Ht as (t1 & t2 & Et). eapply (def_is_c q t1 t); [|exact Dt].
    rewrite Eq. change (w :: A4 ++ x :: B) with ((w :: A4) ++ x :: B). rewrite app_assoc, Et, <-app_assoc. done. }
  apply elem_of_app in Ht as [Ht|Ht]; [|apply elem_of_cons in Ht as [Ht|Ht]].
  - subst t. apply list_elem_of_split in Ht as (t1 & t2 & ->).
    destruct (Strict t1 (t2 ++ w :: Q ++ Op c :: A3 ++ z :: A4 ++ x :: B)) as (w' & Hw' & Dw').
    { rewrite Ew, <-app_assoc. done. }
    apply (First w'); [|done]. apply elem_of_app. by left.
  - rewrite Ht in Et.
    destruct (Strict P (Q ++ Op c :: A3 ++ z :: A4 ++ x :: B)) as (w' & Hw' & Dw'); [by rewrite Ew, Et|].
    by apply (First w').
  - apply (Last t); [|done]. apply elem_of_app. right. by right.
Qed.

Lemma exec_item_other {Mem} (act : _ -> _ -> _ -> Mem -> _) s x k :
  (forall p l i, x = Phis p l -> i ∈ l -> is_phi i = true) -> ~ defines x k -> env (exec_item act s x) k = env s k.
Proof.
  intros Hp D. destruct x as [p l|i]; cbn in *.
  - apply phis_other. intros i Hi. split; [|naive_solver].
    specialize (Hp p l i eq_refl Hi). destruct (is_nop i) eqn:N; [|done]. by rewrite (nop_not_phi i N) in Hp.
  - unfold exec. destruct (is_nop i) eqn:N; [done|]. cbn. by apply out_key_assign.
Qed.

Lemma flat_phis path x p l i : x ∈ flat f path -> x = Phis p l -> i ∈ l -> is_phi i = true.
Proof.
  intros Hx -> Hi. apply list_elem_of_join in Hx as (it & Hx & Hit).
  apply list_elem_of_fmap in Hit as ([b p'] & -> & _). unfold items in Hx.
  apply elem_of_cons in Hx as [Hx|Hx].
  - injection Hx as _ ->. by apply list_elem_of_In, filter_In in Hi as [_ Hi].
  - by apply list_elem_of_fmap in Hx as (? & ? & _).
Qed.

Lemma execs_other {Mem} (act : _ -> _ -> _ -> Mem -> _) l s k :
  (forall x p m i, x ∈ l -> x = Phis p m -> i ∈ m -> is_phi i = true) ->
  (forall x, x ∈ l -> ~ defines x k) -> env (foldl (exec_item act) s l) k = env s k.
Proof.
  revert s; induction l as [|x l IH]; intros s Hp D; [done|]. cbn. rewrite IH.
  - apply exec_item_other; [|apply D; by left]. intros p m i. apply Hp. by left.
  - intros y p m i Hy. apply Hp. by right.
  - intros y Hy. apply D. by right.
Qed.

Lemma copy_holds {Mem} (act : _ -> _ -> _ -> Mem -> _) path A x B s :
  copies act -> valid_path f path -> flat f path = A ++ x :: B -> reads x (key (output c)) ->
  env (foldl (exec_item act) s A) (key (output c)) = value (env (foldl (exec_item act) s A)) src.
Proof using Hssa Hc Hop Hphi Hin.
  intros Hcopy V E Rx.
  destruct (ssa_strict f Hssa path A x B _ V E Rx c_def_in_defs) as (y0 & Hy0 & Dy0).
  destruct (last_split (fun z => defines z (key (output c))) A) as (A1 & y & A2 & -> & Dy & Last); [eauto|].
  assert (Ey : y = Op c) by (eapply def_is_c; [|exact Dy]; by rewrite E, <-app_assoc).
  assert (Hp : forall x p m i, x ∈ A2 -> x = Phis p m -> i ∈ m -> is_phi i = true).
  { intros z p m i Hz. apply (flat_phis path). rewrite E. apply elem_of_app. left. apply elem_of_app. right. by right. }
  rewrite foldl_app. cbn [foldl]. rewrite execs_other by done. set (s1 := foldl (exec_item act) s A1).
  assert (Ec : exec_item act s1 y = mk_state (mem s1) (assign (output c) (value (env s1) src) (env s1)) (trace s1)).
  { subst y. cbn. unfold exec. rewrite c_not_nop, Hin. cbn [fmap list_fmap]. rewrite Hop, Hcopy. done. }
  assert (Eo : is_const (output c) = false).
  { destruct c_in_block as (b & Hb & Hi). by apply (ssa_copies f Hssa b c). }
  assert (Ed : env (exec_item act s1 y) (key (output c)) = value (env s1) src).
  { rewrite Ec. cbn. unfold assign. rewrite Eo. by rewrite decide_True. }
  rewrite Ed. destruct (is_const src) eqn:Cs; [unfold value; by rewrite Cs|].
  assert (Nk : names src (key src)) by done.
  assert (Same : env (foldl (exec_item act) (exec_item act s1 y) A2) (key src) = env s1 (key src)).
  { rewrite execs_other; [|done|].
    - rewrite Ec. cbn. apply assign_other. right. intros Eq.
      destruct (first_split (fun w => defines w (key (output c))) (A1 ++ y :: A2)) as (P & w & Q & EP & Dw & First); [eauto|].
      assert (Ew : w = Op c). { eapply (def_is_c path P w (Q ++ x :: B)); [|exact Dw]. by rewrite E, EP, <-app_assoc. }
      destruct (ssa_strict f Hssa path P w (Q ++ x :: B) (key src) V) as (t & Ht & Dt).
      + by rewrite E, EP, <-app_assoc.
      + rewrite Ew. by apply c_reads.
      + rewrite Eq. exact c_def_in_defs.
      + rewrite Eq in Dt. by apply (First t).
    - intros z Hz. eapply source_kept; eauto. }
  unfold value. by rewrite Cs, Same.
Qed.
End Copy.

(** ** Edits of single operations *)

(** [g] is [f] with each operation replaced by a related one. *)
Definition edited (R : PcodeInsn -> PcodeInsn -> Prop) (f g : PcodeFunc) : Prop :=
  entry g = entry f /\
  Forall2 (fun b c => b_addr c = b_addr b /\ preds c = preds b /\ Forall2 R (ops b) (ops c)) (blocks f) (blocks g).

Definition item_rel (R : PcodeInsn -> PcodeInsn -> Prop) (x y : item) : Prop :=
  match x, y with
  | Phis p l, Phis q m => p = q /\ Forall2 R l m
  | Op i, Op j => R i j
  | _, _ => False
  end.

Section Edited.
Context (R : PcodeInsn -> PcodeInsn -> Prop) (f g : PcodeFunc) (E : edited R f g).
Context (Rphi : forall i j, R i j -> is_phi j = is_phi i).

Lemma edited_block b B : blocks f !! b = Some B ->
  exists C, blocks g !! b = Some C /\ preds C = preds B /\ b_addr C = b_addr B /\ Forall2 R (ops B) (ops C).
Proof using E.
  intros H. destruct E as [_ F]. destruct (Forall2_lookup_l _ _ _ _ _ F H) as (C & HC & H1 & H2 & H3).
  by exists C.
Qed.

Lemma edited_ops b : Forall2 R (ops_at f b) (ops_at g b).
Proof using E.
  destruct E as [_ F]. rewrite Forall2_lookup in F. unfold ops_at.
  destruct (F b) as [B C (_ & _ & H)|]; [exact H|constructor].
Qed.

Lemma edited_shape : same_shape f g.
Proof using E. destruct E as [Ee F]. split; [done|]. eapply Forall2_impl; [exact F|]. intros B C (H1 & H2 & _). by split. Qed.

Lemma edited_valid path : valid_path g path <-> valid_path f path.
Proof using E. apply shape_valid, edited_shape. Qed.

Lemma filter_Forall2 (q : PcodeInsn -> bool) l m :
  (forall i j, R i j -> q j = q i) -> Forall2 R l m -> Forall2 R (List.filter q l) (List.filter q m).
Proof.
  intros Hq H. induction H as [|i j l m Hij _ IH]; [constructor|]. cbn. rewrite (Hq i j Hij).
  destruct (q i); [by constructor|done].
Qed.

Lemma edited_flat path : Forall2 (item_rel R) (flat f path) (flat g path).
Proof using E Rphi.
  induction path as [|[b p] path IH]; [constructor|].
  change (Forall2 (item_rel R) (items (ops_at f b) p ++ flat f path) (items (ops_at g b) p ++ flat g path)).
  apply Forall2_app; [|exact IH]. pose proof (edited_ops b) as H. constructor.
  - cbn. split; [done|]. by apply filter_Forall2.
  - apply Forall2_fmap, filter_Forall2; [|done]. intros i j Hij. by rewrite (Rphi i j Hij).
Qed.
End Edited.

Lemma Forall2_imap_self {A} (R : A -> A -> Prop) (g : nat -> A -> A) l :
  (forall i x, l !! i = Some x -> R x (g i x)) -> Forall2 R l (imap g l).
Proof.
  revert g; induction l as [|x l IH]; intros g H; cbn; [constructor|]. constructor; [by apply (H 0%nat)|].
  apply IH. intros i y Hy. by apply (H (S i)).
Qed.

Lemma Forall2_alter_self {A} (R : A -> A -> Prop) (g : A -> A) n l :
  (forall x, R x x) -> (forall x, l !! n = Some x -> R x (g x)) -> Forall2 R l (alter g n l).
Proof.
  intros Hr. revert n; induction l as [|x l IH]; intros n H; [constructor|].
  destruct n as [|n]; cbn; constructor; [by apply H| |done|by apply IH].
  clear -Hr. induction l; by constructor.
Qed.

(** Uses of [d] replaced by [src], here and there. *)
Definition repl_rel (d : VnKey) (src : Varnode) (i j : PcodeInsn) : Prop :=
  op j = op i /\ output j = output i /\ addr j = addr i /\ seq j = seq i /\
  Forall2 (fun v w => w = v \/ (key v = d /\ w = src)) (inputs i) (inputs j).

(** The operation [c] turned into a NOP. *)
Definition nop_rel (c i j : PcodeInsn) : Prop := j = i \/ (i = c /\ j = set_op NOP c).

Lemma replace_edited f old new bi oi : edited (repl_rel (key old) new) f (replace_uses f old new bi oi).
Proof.
  split; [done|]. cbn. apply Forall2_imap_self. intros b B _. cbn. split_and!; [done|done|].
  apply Forall2_imap_self. intros o i _. unfold repl_rel. destruct (_ && _).
  - split_and!; try done. apply Forall_Forall2_diag, Forall_forall. by left.
  - split_and!; try done. cbn. apply Forall2_fmap_r, Forall_Forall2_diag, Forall_forall. intros v _.
    cbn. unfold replace_vn. destruct (bool_decide (key v = key old)) eqn:Bd; [right|by left].
    by apply bool_decide_eq_true in Bd.
Qed.

Lemma replace_keeps f old new bi oi c :
  op_at f bi oi = Some c -> op_at (replace_uses f old new bi oi) bi oi = Some c.
Proof.
  unfold op_at. cbn. rewrite list_lookup_imap. destruct (blocks f !! bi) as [B|]; [|done]. cbn.
  rewrite list_lookup_imap. intros ->. cbn. by rewrite !Nat.eqb_refl.
Qed.

Lemma nop_edited f bi oi c : op_at f bi oi = Some c -> edited (nop_rel c) f (alter_op (set_op NOP) bi oi f).
Proof.
  intros H. split; [done|]. cbn. apply Forall2_alter_self.
  - intros B. split_and!; [done|done|]. apply Forall_Forall2_diag, Forall_forall. by left.
  - intros B HB. unfold op_at in H. rewrite HB in H. cbn in *. split_and!; [done|done|].
    apply Forall2_alter_self; [by left|]. intros x Hx. rewrite H in Hx. injection Hx as <-. by right.
Qed.

Lemma repl_phi d src i j : repl_rel d src i j -> is_phi j = is_phi i.
Proof. intros (E1 & _ & _ & E2 & _). unfold is_phi. by rewrite E1, E2. Qed.

Lemma repl_out d src i j : repl_rel d src i j -> out_key j = out_key i.
Proof. intros (E1 & E2 & _). unfold out_key, is_nop. by rewrite E1, E2. Qed.

Lemma nop_phi c i j : is_phi c = false -> nop_rel c i j -> is_phi j = is_phi i.
Proof. intros Hc [->|[-> ->]]; [done|]. by rewrite Hc. Qed.

Lemma repl_defines d src x y k : item_rel (repl_rel d src) x y -> defines y k <-> defines x k.
Proof.
  destruct x as [p l|i], y as [q m|j]; cbn; try done; [|intros H; by rewrite (repl_out _ _ _ _ H)].
  intros [_ H]. induction H as [|i j l m H _ IH].
  - split; intros (i & ?%not_elem_of_nil & _); done.
  - assert (Cons : forall (x : PcodeInsn) xs, (exists i, i ∈ x :: xs /\ out_key i = Some k) <->
      out_key x = Some k \/ exists i, i ∈ xs /\ out_key i = Some k).
    { intros x xs. split.
      - intros (z & Hz & D). apply elem_of_cons in Hz as [->|Hz]; [by left|right; eauto].
      - intros [D|(z & Hz & D)]; [exists x|exists z]; (split; [|done]); [by left|by right]. }
    rewrite !Cons, (repl_out _ _ _ _ H), IH. done.
Qed.

(** What the edited operation reads, the old one did, or it is the source where the
    copy was read. *)
Lemma repl_names d src (v w : Varnode) k :
  w = v \/ (key v = d /\ w = src) -> names w k -> names v k \/ (key v = d /\ names src k).
Proof. intros [->|[E ->]] H; [by left|by right]. Qed.

Lemma repl_reads d src x y k :
  k_kind d <> Const -> item_rel (repl_rel d src) x y -> reads y k -> reads x k \/ (names src k /\ reads x d).
Proof.
  intros Hd.
  assert (Nm : forall v, key v = d -> names v d).
  { intros v E. split; [|done]. unfold is_const. apply bool_decide_eq_false. by rewrite <-E in Hd. }
  destruct x as [p l|i], y as [q m|j]; cbn; try done.
  - intros [<- H] (j & w & Hj & Hw & N). apply list_elem_of_lookup in Hj as [n Hj].
    destruct (Forall2_lookup_r _ _ _ _ _ H Hj) as (i & Hi & (_ & _ & _ & _ & F)).
    destruct (Forall2_lookup_r _ _ _ _ _ F Hw) as (v & Hv & Rv). apply list_elem_of_lookup_2 in Hi.
    destruct (repl_names _ _ _ _ _ Rv N) as [N'|[Ev N']]; [left; exists i, v; done|].
    right. split; [done|]. exists i, v. split_and!; [done|done|by apply Nm].
  - intros (E1 & _ & _ & _ & F) (Hn & w & Hw & N). apply list_elem_of_lookup in Hw as [n Hw].
    destruct (Forall2_lookup_r _ _ _ _ _ F Hw) as (v & Hv & Rv). apply list_elem_of_lookup_2 in Hv.
    assert (Hi : is_nop i = false) by (unfold is_nop in *; by rewrite <-E1).
    destruct (repl_names _ _ _ _ _ Rv N) as [N'|[Ev N']]; [left; split; [done|]; by exists v|].
    right. split; [done|]. split; [done|]. exists v. split; [done|by apply Nm].
Qed.

(** ** Replacing the uses of a copy *)

Lemma mjoin_Forall2 {A B} (g : A -> list B) bs cs :
  Forall2 (fun b c => g b = g c) bs cs -> mjoin (g <$> bs) = mjoin (g <$> cs).
Proof.
  induction 1 as [|b c bs cs H _ IH]; [done|].
  change (mjoin (g <$> (b :: bs))) with (g b ++ mjoin (g <$> bs)).
  change (mjoin (g <$> (c :: cs))) with (g c ++ mjoin (g <$> cs)). by rewrite H, IH.
Qed.

Lemma repl_defs d src f g : edited (repl_rel d src) f g -> defs f = defs g.
Proof.
  intros [_ F]. apply mjoin_Forall2. eapply Forall2_impl; [exact F|]. intros b c (_ & _ & H).
  induction H as [|i j l m H _ IH]; [done|]. cbn. by rewrite (repl_out _ _ _ _ H), IH.
Qed.

Lemma related_defines d src A A' k :
  Forall2 (item_rel (repl_rel d src)) A A' -> (exists z, z ∈ A /\ defines z k) -> exists z, z ∈ A' /\ defines z k.
Proof.
  intros F (z & Hz & D). apply list_elem_of_lookup in Hz as [n Hn].
  destruct (Forall2_lookup_l _ _ _ _ _ F Hn) as (z' & Hz' & R). exists z'.
  split; [by eapply list_elem_of_lookup_2|]. by rewrite (repl_defines _ _ _ _ _ R).
Qed.

Lemma values_repl {Mem} d src vs ws (s t : state Mem) :
  agree all_keys s t -> Forall2 (fun v w => w = v \/ (key v = d /\ w = src)) vs ws ->
  (forall v, v ∈ vs -> key v = d -> value (env s) v = value (env s) src) ->
  value (env s) <$> vs = value (env t) <$> ws.
Proof.
  intros A F H. induction F as [|v w vs ws R _ IH]; [done|]. cbn.
  rewrite IH by (intros x Hx; apply H; by right). f_equal.
  destruct R as [->|[E ->]]; [|rewrite (H v) by (done || by left)]; apply (value_agree all_keys); (done || by right).
Qed.

Lemma exec_item_repl {Mem} (act : _ -> _ -> _ -> Mem -> _) d src x y s t :
  agree all_keys s t -> k_kind d <> Const -> (reads x d -> env s d = value (env s) src) ->
  item_rel (repl_rel d src) x y -> agree all_keys (exec_item act s x) (exec_item act t y).
Proof.
  intros A Hd Hr R.
  assert (Hv : forall v, key v = d -> names v d /\ value (env s) v = env s d).
  { intros v E. assert (C : is_const v = false) by (apply bool_decide_eq_false; by rewrite <-E in Hd).
    split; [done|]. unfold value. by rewrite C, E. }
  destruct x as [p l|i], y as [q m|j]; cbn in R; try done.
  - destruct R as [<- F]. destruct A as (A1 & A2 & A3). split_and!; cbn; [done|done|].
    intros k _. unfold exec_phis.
    assert (G : forall e e', (forall k, e k = e' k) -> forall k,
      foldl (fun e' i => assign (output i) (phi_value p (env s) i) e') e l k =
      foldl (fun e' i => assign (output i) (phi_value p (env t) i) e') e' m k); [|apply G; intros k'; by apply A3].
    assert (Hl : forall i v, i ∈ l -> inputs i !! p = Some v -> key v = d -> value (env s) v = value (env s) src).
    { intros i v Hi Hp E. destruct (Hv v E) as [N ->]. apply Hr. cbn. by exists i, v. }
    clear Hr. induction F as [|i j l m Rij F IH]; intros e e' He k'; [apply He|]. cbn. apply IH.
    { intros i' v Hi. apply Hl. by right. }
    intros k2. destruct Rij as (_ & -> & _ & _ & Fi).
    replace (phi_value p (env t) j) with (phi_value p (env s) i); [by apply (assign_agree all_keys)|].
    unfold phi_value. rewrite Forall2_lookup in Fi. specialize (Fi p).
    destruct (inputs i !! p) as [v|] eqn:Ev; inversion Fi as [? w Rv Ew|]; subst; [|done]. cbn.
    assert (Av : forall u, value (env s) u = value (env t) u).
    { intros u. apply (value_agree all_keys); [by split_and!|by right]. }
    destruct Rv as [->|[E ->]]; [apply Av|]. rewrite (Hl i v (list_elem_of_here _ _) Ev E). apply Av.
  - destruct R as (E1 & E2 & E3 & E4 & F). unfold exec_item, exec.
    assert (N : is_nop j = is_nop i) by (unfold is_nop; by rewrite E1). rewrite N.
    destruct (is_nop i) eqn:Ni; [done|].
    rewrite E1, E2, E3, (values_repl d src (inputs i) (inputs j) s t A F).
    2: { intros v Hin E. destruct (Hv v E) as [Nv ->]. apply Hr. cbn. split; [done|]. by exists v. }
    destruct A as (A1 & A2 & A3). rewrite A1, A2. split_and!; cbn; [done|done|].
    intros k _. by apply (assign_agree all_keys); [intros _; apply A3|].
Qed.

Section Replace.
Context (f g : PcodeFunc) (Hssa : ssa f) (cb ci : nat) (c : PcodeInsn) (src : Varnode) (vs : list Varnode).
Context (Hc : op_at f cb ci = Some c) (Hop : op c = COPY) (Hphi : is_phi c = false) (Hin : inputs c = src :: vs).
Context (E : edited (repl_rel (key (output c)) src) f g).

Lemma out_var : k_kind (key (output c)) <> Const.
Proof using Hssa Hc Hop Hphi.
  destruct (c_in_block f cb ci c Hc) as (b & Hb & Hi).
  pose proof (ssa_copies f Hssa b c Hb Hi Hop Hphi) as C. by apply bool_decide_eq_false in C.
Qed.

Lemma repl_ssa : ssa g.
Proof using All.
  pose proof (repl_defs _ _ _ _ E) as Ed. constructor.
  - rewrite <-Ed. apply Hssa.
  - intros path A y B k V Ef Ry Kd. rewrite <-Ed in Kd.
    apply (edited_valid _ _ _ E) in V.
    pose proof (edited_flat _ _ _ E (repl_phi _ _) path) as F. rewrite Ef in F.
    apply Forall2_app_inv_r in F as (A0 & X & FA & FX & E0).
    inversion FX as [|x ? B0 ? Rxy FB]; subst.
    destruct (repl_reads _ _ _ _ _ out_var Rxy Ry) as [Rx|[Ns Rx]].
    + eapply related_defines; [exact FA|]. by eapply (ssa_strict f Hssa path A0 x B0).
    + destruct (ssa_strict f Hssa path A0 x B0 _ V E0 Rx) as (z & Hz & Dz).
      { by apply (c_def_in_defs f Hssa cb ci). }
      apply list_elem_of_split in Hz as (P & Q & ->).
      assert (Ez : flat f path = P ++ z :: Q ++ x :: B0) by (by rewrite E0, <-app_assoc).
      pose proof (def_is_c f Hssa cb ci c Hc Hop Hphi _ _ _ _ Ez Dz) as ->.
      destruct (ssa_strict f Hssa path P (Op c) _ k V Ez) as (w & Hw & Dw); [by eapply c_reads|done|].
      eapply related_defines; [exact FA|]. exists w. split; [|done]. apply elem_of_app. by left.
  - intros b j Hb Hj. destruct E as [_ F]. apply list_elem_of_lookup in Hb as [n Hb].
    destruct (Forall2_lookup_r _ _ _ _ _ F Hb) as (b0 & Hb0 & (_ & _ & FO)).
    apply list_elem_of_lookup in Hj as [m Hj]. destruct (Forall2_lookup_r _ _ _ _ _ FO Hj) as (i & Hi & R).
    pose proof (repl_phi _ _ _ _ R) as Ep. destruct R as (E1 & E2 & _). rewrite E1, E2, Ep.
    apply (ssa_copies f Hssa b0); by eapply list_elem_of_lookup_2.
Qed.

Lemma repl_run {Mem} (act : _ -> _ -> _ -> Mem -> _) path s :
  copies act -> valid_path f path -> agree all_keys (run_path act f path s) (run_path act g path s).
Proof using All.
  intros Hcopy V. rewrite !run_flat.
  pose proof (edited_flat _ _ _ E (repl_phi _ _) path) as F.
  assert (G : forall A A' B, Forall2 (item_rel (repl_rel (key (output c)) src)) A A' -> flat f path = A ++ B ->
    agree all_keys (foldl (exec_item act) s A) (foldl (exec_item act) s A')).
  { intros A. induction A as [|x A IH] using rev_ind; intros A' B FA EB.
    - inversion FA; subst. apply agree_refl.
    - apply Forall2_app_inv_l in FA as (A1 & X & FA & FX & ->). inversion FX as [|? y ? ? Rxy F0]; subst.
      inversion F0; subst. rewrite !foldl_app. cbn [foldl].
      apply (exec_item_repl act (key (output c)) src); [|exact out_var| |exact Rxy].
      + apply (IH A1 (x :: B)); [done|]. by rewrite EB, <-app_assoc.
      + intros Rx. apply (copy_holds f Hssa cb ci c src vs Hc Hop Hphi Hin act path A x B); try done.
        by rewrite EB, <-app_assoc. }
  apply (G _ _ [] F). by rewrite app_nil_r.
Qed.
End Replace.

(** ** Dropping an unused copy *)

Lemma nop_out c i j k : nop_rel c i j -> out_key j = Some k -> out_key i = Some k.
Proof. intros [->|[-> ->]]; [done|]. by unfold out_key. Qed.

Lemma nop_out_inv c i j k : nop_rel c i j -> out_key i = Some k -> out_key j = Some k \/ i = c.
Proof. intros [->|[-> _]]; [by left|by right]. Qed.

Lemma nop_phis c l m : is_phi c = false -> (forall i, i ∈ l -> is_phi i = true) -> Forall2 (nop_rel c) l m -> l = m.
Proof.
  intros Hc Hl F. induction F as [|i j l m R _ IH]; [done|]. f_equal; [|apply IH; intros; apply Hl; by right].
  destruct R as [->|[-> _]]; [done|]. rewrite (Hl c) in Hc by left. done.
Qed.

Lemma sublist_join_Forall2 {A B} (g h : A -> list B) bs cs :
  Forall2 (fun b c => h c `sublist_of` g b) bs cs -> mjoin (h <$> cs) `sublist_of` mjoin (g <$> bs).
Proof.
  induction 1 as [|b c bs cs H _ IH]; [done|].
  change (mjoin (g <$> (b :: bs))) with (g b ++ mjoin (g <$> bs)).
  change (mjoin (h <$> (c :: cs))) with (h c ++ mjoin (h <$> cs)). by apply sublist_app.
Qed.

Lemma ops_at_block f b i : i ∈ ops_at f b -> exists B, B ∈ blocks f /\ i ∈ ops B.
Proof.
  unfold ops_at. destruct (blocks f !! b) as [B|] eqn:E; cbn; intros Hi; [|by apply not_elem_of_nil in Hi].
  exists B. split; [by eapply list_elem_of_lookup_2|done].
Qed.

Lemma reads_used f path x k : x ∈ flat f path -> reads x k -> used f k.
Proof.
  intros Hx Rx. apply list_elem_of_join in Hx as (it & Hx & Hit).
  apply list_elem_of_fmap in Hit as ([b p] & -> & _). unfold items in Hx.
  apply elem_of_cons in Hx as [->|Hx].
  - destruct Rx as (i & v & Hi & Hv & N1 & N2). apply list_elem_of_In, filter_In in Hi as [Hi Pi].
    apply list_elem_of_In, ops_at_block in Hi as (B & HB & Hi). exists B, i. split_and!; [done|done|].
    split; [by destruct (is_nop i) eqn:Ni; [rewrite (nop_not_phi i Ni) in Pi|]|].
    rewrite <-N2. apply list_elem_of_fmap_2. by eapply list_elem_of_lookup_2.
  - apply list_elem_of_fmap in Hx as (i & -> & Hi). destruct Rx as (N0 & v & Hv & N1 & N2).
    apply list_elem_of_In, filter_In in Hi as [Hi _]. apply list_elem_of_In, ops_at_block in Hi as (B & HB & Hi).
    exists B, i. split_and!; [done|done|]. split; [done|]. rewrite <-N2. by apply list_elem_of_fmap_2.
Qed.

Section Drop.
Context (f g : PcodeFunc) (Hssa : ssa f) (cb ci : nat) (c : PcodeInsn).
Context (Hc : op_at f cb ci = Some c) (Hop : op c = COPY) (Hphi : is_phi c = false).
Context (Hunused : ~ used f (key (output c))) (E : edited (nop_rel c) f g).

Lemma drop_defs : defs g `sublist_of` defs f.
Proof using E.
  destruct E as [_ F]. apply sublist_join_Forall2. eapply Forall2_impl; [exact F|].
  intros b d (_ & _ & H). induction H as [|i j l m R _ IH]; [done|]. cbn.
  destruct R as [->|[-> ->]]; [by destruct (out_key i); [apply sublist_skip|]|].
  replace (out_key (set_op NOP c)) with (@None VnKey) by done.
  destruct (out_key c); [by apply sublist_cons|done].
Qed.

Lemma drop_items path : Forall2 (item_rel (nop_rel c)) (flat f path) (flat g path).
Proof using E Hphi. apply edited_flat; [exact E|]. intros i j. by apply nop_phi. Qed.

Lemma drop_reads path x y k : x ∈ flat f path -> item_rel (nop_rel c) x y -> reads y k -> reads x k.
Proof using Hphi.
  intros Hx R. destruct x as [p l|i], y as [q m|j]; cbn in R; try done.
  - destruct R as [<- F]. rewrite (nop_phis c l m Hphi) by (done || exact (fun i => flat_phis f path (Phis p l) p l i Hx eq_refl)). done.
  - destruct R as [->|[-> ->]]; [done|]. by intros [N _].
Qed.

Lemma drop_ssa : ssa g.
Proof using All.
  constructor.
  - eapply sublist_NoDup; [apply Hssa|apply drop_defs].
  - intros path A y B k V Ef Ry Kd. apply (edited_valid _ _ _ E) in V.
    pose proof (drop_items path) as F. rewrite Ef in F.
    apply Forall2_app_inv_r in F as (A0 & X & FA & FX & E0).
    inversion FX as [|x ? B0 ? Rxy FB]; subst.
    assert (Kf : k ∈ defs f) by (eapply elem_of_sublist; [exact Kd|apply drop_defs]).
    destruct (ssa_strict f Hssa path A0 x B0 k V E0) as (z & Hz & Dz); [|done|].
    { eapply drop_reads; [|exact Rxy|exact Ry]. rewrite E0. apply elem_of_app. right. by left. }
    assert (Nk : k <> key (output c)).
    { intros ->. apply Hunused. assert (Rx : reads x (key (output c))).
      { eapply drop_reads; [|exact Rxy|exact Ry]. rewrite E0. apply elem_of_app. right. by left. }
      apply (reads_used f path x); [|exact Rx]. rewrite E0. apply elem_of_app. right. by left. }
    apply list_elem_of_lookup in Hz as [n Hn].
    destruct (Forall2_lookup_l _ _ _ _ _ FA Hn) as (z' & Hz' & R). exists z'.
    split; [by eapply list_elem_of_lookup_2|]. apply list_elem_of_lookup_2 in Hn.
    destruct z as [p l|i], z' as [q m|j]; cbn in R; try done.
    + destruct R as [<- FR]. rewrite <-(nop_phis c l m Hphi); [done| |done].
      intros i. apply (flat_phis f path (Phis p l) p l); [|done]. rewrite E0. apply elem_of_app. by left.
    + destruct (nop_out_inv _ _ _ _ R Dz) as [D| ->]; [done|]. exfalso. apply Nk.
      cbn in Dz. rewrite (c_out f Hssa cb ci c Hc Hop Hphi) in Dz. congruence.
  - intros b j Hb Hj Oj Pj. destruct E as [_ F]. apply list_elem_of_lookup in Hb as [n Hb].
    destruct (Forall2_lookup_r _ _ _ _ _ F Hb) as (b0 & Hb0 & (_ & _ & FO)).
    apply list_elem_of_lookup in Hj as [m Hj]. destruct (Forall2_lookup_r _ _ _ _ _ FO Hj) as (i & Hi & R).
    destruct R as [->|[_ ->]]; [|done]. apply (ssa_copies f Hssa b0); (done || by eapply list_elem_of_lookup_2).
Qed.

Lemma exec_item_same {Mem} (act : _ -> _ -> _ -> Mem -> _) K x s t :
  (forall k, reads x k -> K k) -> agree K s t -> agree K (exec_item act s x) (exec_item act t x).
Proof.
  intros HK A. destruct x as [p l|i].
  - destruct A as (A1 & A2 & A3). split_and!; cbn; [done|done|]. intros k Hk. unfold exec_phis.
    assert (G : forall i, i ∈ l -> phi_value p (env s) i = phi_value p (env t) i).
    { intros i Hi. unfold phi_value. destruct (inputs i !! p) as [v|] eqn:Ev; [|done]. cbn.
      apply (value_agree K); [by split_and!|]. destruct (is_const v) eqn:C; [by left|right].
      apply HK. cbn. exists i, v. split_and!; [done|done|by split]. }
    assert (He : env s k = env t k) by auto. revert He. generalize (env s k).
    assert (G2 : forall e e', (forall k, K k -> e k = e' k) -> forall k, K k ->
      foldl (fun e' i => assign (output i) (phi_value p (env s) i) e') e l k =
      foldl (fun e' i => assign (output i) (phi_value p (env t) i) e') e' l k).
    { clear k Hk HK. induction l as [|i l IH]; intros e e' He k Hk; [by apply He|]. cbn.
      apply IH; [intros j Hj; apply G; by right| |done]. intros k' Hk'.
      rewrite (G i (list_elem_of_here _ _)). by apply (assign_agree K); [apply He|]. }
    intros _ _. by apply G2.
  - cbn. unfold exec at 1 2. destruct (is_nop i) eqn:N; [done|].
    pose proof (exec_agree act K s t i A) as X. unfold exec in X. rewrite N in X. apply X.
    apply Forall_forall. intros v Hv. destruct (is_const v) eqn:C; [by left|right]. apply HK. cbn.
    split; [done|]. exists v. split; [done|by split].
Qed.

Lemma drop_run {Mem} (act : _ -> _ -> _ -> Mem -> _) path s :
  pure_ops act -> agree (used f) (run_path act f path s) (run_path act g path s).
Proof using All.
  intros Hpure. rewrite !run_flat. pose proof (drop_items path) as F.
  assert (Hr : forall x k, x ∈ flat f path -> reads x k -> used f k) by (intros x k; apply reads_used).
  assert (Hp : forall x p l i, x ∈ flat f path -> x = Phis p l -> i ∈ l -> is_phi i = true) by (intros x p l i; apply flat_phis).
  assert (A : agree (used f) s s) by apply agree_refl. revert A. generalize s at 2 4. intros t.
  revert Hr Hp s t. induction F as [|x y l m R F IH]; intros Hr Hp s t A; [done|]. cbn [foldl]. apply IH.
  - intros z k Hz. apply Hr. by right.
  - intros z p n i Hz. apply Hp. by right.
  - assert (Rx : forall k, reads x k -> used f k) by (intros k; apply Hr; by left).
    destruct x as [p n|i], y as [q n'|j]; cbn in R; try done.
    + destruct R as [<- FR]. rewrite <-(nop_phis c n n' Hphi); [by apply exec_item_same| |done].
      intros i Hi. by apply (Hp (Phis p n) p n); [left| |].
    + destruct R as [->|[-> ->]]; [by apply exec_item_same|].
      cbn [exec_item]. replace (exec act (set_op NOP c) t) with t by done.
      apply drop_exec; [done| |done]. right. split; [by rewrite Hop|]. right. exact Hunused.
Qed.
End Drop.

(** ** The pass *)

Section Pass.
Context {Mem : Type} (act : PcodeOp -> Z -> list Z -> Mem -> Mem * Z) (Hpure : pure_ops act) (Hcopy : copies act).

(** [g] is in SSA form, has the paths of [f], reads no more, and runs alike on them. *)
Record sound (f g : PcodeFunc) : Prop := mk_sound {
  sound_ssa : ssa g;
  sound_valid : forall path, valid_path g path <-> valid_path f path;
  sound_used : forall k, used g k -> used f k;
  sound_run : forall path s, valid_path f path -> agree (used g) (run_path act f path s) (run_path act g path s)
}.

Lemma sound_refl f : ssa f -> sound f f.
Proof. intros H. split; [done|done|done|]. intros. apply agree_refl. Qed.

Lemma sound_trans f g h : sound f g -> sound g h -> sound f h.
Proof.
  intros [S1 V1 U1 R1] [S2 V2 U2 R2]. split; [done| |auto|].
  - intros path. by rewrite V2.
  - intros path s V. eapply agree_trans; [eapply agree_mono; [|by apply R1]; auto|]. apply R2. by apply V1.
Qed.

Lemma repl_used d src f g k :
  edited (repl_rel d src) f g -> used f (key src) -> used g k -> used f k.
Proof.
  intros E Us (b & j & Hb & Hj & N & Hin). destruct E as [_ F].
  apply list_elem_of_lookup in Hb as [n Hb]. destruct (Forall2_lookup_r _ _ _ _ _ F Hb) as (b0 & Hb0 & (_ & _ & FO)).
  apply list_elem_of_lookup in Hj as [m Hj]. destruct (Forall2_lookup_r _ _ _ _ _ FO Hj) as (i & Hi & R).
  destruct R as (E1 & _ & _ & _ & FI). apply list_elem_of_fmap in Hin as (w & -> & Hw).
  apply list_elem_of_lookup in Hw as [q Hw]. destruct (Forall2_lookup_r _ _ _ _ _ FI Hw) as (v & Hv & [->|[_ ->]]).
  - exists b0, i. split_and!; [by eapply list_elem_of_lookup_2|by eapply list_elem_of_lookup_2|].
    split; [unfold is_nop in *; by rewrite <-E1|]. apply list_elem_of_fmap_2. by eapply list_elem_of_lookup_2.
  - exact Us.
Qed.

Lemma nop_used c f g k : edited (nop_rel c) f g -> used g k -> used f k.
Proof.
  intros [_ F] (b & j & Hb & Hj & N & Hin).
  apply list_elem_of_lookup in Hb as [n Hb]. destruct (Forall2_lookup_r _ _ _ _ _ F Hb) as (b0 & Hb0 & (_ & _ & FO)).
  apply list_elem_of_lookup in Hj as [m Hj]. destruct (Forall2_lookup_r _ _ _ _ _ FO Hj) as (i & Hi & R).
  destruct R as [->|[_ ->]]; [|done].
  exists b0, i. split_and!; [by eapply list_elem_of_lookup_2|by eapply list_elem_of_lookup_2|done].
Qed.

Lemma copy_step_sound uses f0 f changed pos :
  (forall v, has_use uses v = true <-> used f0 (key v)) -> (forall k, used f k -> used f0 k) -> ssa f ->
  sound f (copy_step uses (f, changed) pos).1.
Proof using Hpure Hcopy.
  intros Hu Hsub Hssa. unfold copy_step. destruct (op_at f pos.1 pos.2) as [c|] eqn:Hc; [|by apply sound_refl].
  destruct (negb (bool_decide (op c = COPY)) || negb (valid (output c))) eqn:G1; [by apply sound_refl|].
  apply orb_false_iff in G1 as [Hop _]. apply negb_false_iff, bool_decide_eq_true in Hop.
  destruct (inputs c) as [|src vs] eqn:Hin; [by apply sound_refl|].
  destruct (_ || _ || _) eqn:G2; [by apply sound_refl|].
  apply orb_false_iff in G2 as [G2 _]. apply orb_false_iff in G2 as [G2 _].
  assert (Hphi : is_phi c = false) by (unfold is_phi; by rewrite G2, andb_false_r).
  set (g := replace_uses f (output c) src pos.1 pos.2).
  assert (E : edited (repl_rel (key (output c)) src) f g) by apply replace_edited.
  assert (Us : used f (key src)).
  { destruct (c_in_block f _ _ c Hc) as (b & Hb & Hi). exists b, c. split_and!; [done|done|].
    split; [by apply c_not_nop|]. rewrite Hin. by left. }
  assert (Sg : ssa g) by (by eapply (repl_ssa f g Hssa _ _ c src vs Hc Hop Hphi Hin E)).
  assert (S1 : sound f g).
  { split; [done|apply edited_valid with (1 := E)|intros k; by eapply repl_used|].
    intros path s V. eapply agree_mono; [|by eapply (repl_run f g Hssa _ _ c src vs Hc Hop Hphi Hin E)]. done. }
  destruct (has_use uses (output c)) eqn:U; [exact S1|]. cbn. eapply sound_trans; [exact S1|].
  assert (Hcg : op_at g pos.1 pos.2 = Some c) by (by apply replace_keeps).
  assert (Nu : ~ used g (key (output c))).
  { intros Ug. apply (sound_used _ _ S1), Hsub, Hu in Ug. congruence. }
  pose proof (nop_edited g _ _ c Hcg) as E2. split.
  - exact (drop_ssa g _ Sg _ _ c Hcg Hop Hphi Nu E2).
  - apply edited_valid with (1 := E2).
  - intros k. by apply nop_used with (1 := E2).
  - intros path s _. eapply agree_mono; [|by apply (drop_run g _ Sg _ _ c Hcg Hop Hphi Nu E2)].
    intros k. by apply nop_used with (1 := E2).
Qed.

Lemma copy_round_sound f : ssa f -> sound f (copy_round f).1.
Proof using Hpure Hcopy.
  intros Hssa. unfold copy_round. set (uses := count_uses f (-1) (-1)).
  assert (G : forall l st, sound f st.1 -> sound f (foldl (copy_step uses) st l).1).
  { induction l as [|pos l IH]; intros [g changed] S; [exact S|]. cbn [foldl]. apply IH.
    eapply sound_trans; [exact S|]. apply (copy_step_sound uses f); [intros v; apply has_use_spec|apply S|apply S]. }
  apply G. by apply sound_refl.
Qed.

Lemma copy_rounds_sound n f : ssa f -> sound f (copy_rounds n f).
Proof using Hpure Hcopy.
  revert f; induction n as [|n IH]; intros f Hssa; cbn; [by apply sound_refl|].
  pose proof (copy_round_sound f Hssa) as S. destruct (copy_round f) as [g changed]. cbn in S.
  destruct changed; [|done]. eapply sound_trans; [exact S|]. apply IH, S.
Qed.

Lemma copy_propagation_sound f path s :
  ssa f -> valid_path f path ->
  agree (used (copy_propagation f)) (run_path act f path s) (run_path act (copy_propagation f) path s).
Proof using Hpure Hcopy.
  intros Hssa V. unfold copy_propagation. destruct (copy_rounds_sound 8 f Hssa) as [_ _ _ R].
  eapply agree_trans; [|apply erase_preserves]. eapply agree_mono; [|by apply R].
  intros k. apply used_erase.
Qed.

(** C11: on a function in SSA form (one definition of each variable, met before its
    uses on every path from the entry) copy propagation keeps the meaning: for every
    interpretation in which a copy yields its input and only stores, calls,
    intrinsics, returns and branches have effects, every path from the entry ends
    with the same memory, the same effects with the same operand values, and the same
    values of the variables the result still reads. *)
Theorem copy_propagation_preserves f path s :
  ssa f -> valid_path f path ->
  agree (used (copy_propagation f)) (run_path act f path s) (run_path act (copy_propagation f) path s).
Proof using Hpure Hcopy. intros Hssa V. by apply copy_propagation_sound. Qed.
End Pass.

(** ** A function in SSA form *)

(** Checking one path: the keys among [ks] read before they are defined. *)
Definition read_list (x : item) : list VnKey :=
  match x with
  | Phis p l => omap (fun i => v ← inputs i !! p; if is_const v then None else Some (key v)) l
  | Op i => if is_nop i then [] else omap (fun v => if is_const v then None else Some (key v)) (inputs i)
  end.

Definition def_list (x : item) : list VnKey :=
  match x with Phis _ l => omap out_key l | Op i => omap out_key [i] end.

Fixpoint strict_path (ks seen : list VnKey) (l : list item) : bool :=
  match l with
  | [] => true
  | x :: l' => forallb (fun k => negb (bool_decide (k ∈ ks)) || bool_decide (k ∈ seen)) (read_list x) &&
               strict_path ks (def_list x ++ seen) l'
  end.

Lemma reads_list x k : reads x k -> k ∈ read_list x.
Proof.
  destruct x as [p l|i]; cbn.
  - intros (i & v & Hi & Hv & C & <-). apply list_elem_of_omap. exists i. split; [done|].
    rewrite Hv. cbn. by rewrite C.
  - intros (N & v & Hv & C & <-). rewrite N. apply list_elem_of_omap. exists v. by rewrite C.
Qed.

Lemma def_list_defines x k : k ∈ def_list x -> defines x k.
Proof.
  destruct x as [p l|i]; cbn; [by rewrite list_elem_of_omap|].
  destruct (out_key i); [by intros ->%list_elem_of_singleton|by intros ?%not_elem_of_nil].
Qed.

Lemma strict_path_ok ks seen A x B k :
  strict_path ks seen (A ++ x :: B) = true -> reads x k -> k ∈ ks ->
  k ∈ seen \/ exists y, y ∈ A /\ defines y k.
Proof.
  revert seen; induction A as [|y A IH]; intros seen; cbn; rewrite andb_true_iff; intros [H1 H2] R K.
  - left. rewrite forallb_forall in H1. specialize (H1 k). rewrite <-list_elem_of_In in H1.
    specialize (H1 (reads_list x k R)). rewrite bool_decide_true in H1 by done. by apply bool_decide_eq_true in H1.
  - destruct (IH _ H2 R K) as [H|(z & Hz & D)]; [|right; exists z; split; [by right|done]].
    apply elem_of_app in H as [H|H]; [right|by left]. exists y. split; [by left|by apply def_list_defines].
Qed.

(** Two blocks, the second entered from the first; a copy is read in both. *)
Definition example : PcodeFunc :=
  let rcx := set_offset 1 (vn_reg 1 [] 8) in
  let rdx := set_offset 2 (vn_reg 2 [] 8) in
  let phi := mk_insn COPY (set_offset 3 (vn_reg 2 [] 8)) [rdx] 0 (-1) in
  mk_func 0 []
    [mk_block 0 0 [make LOAD rcx [vn_const 4096 8] 0; make COPY rdx [rcx] 1; make STORE no_vn [rdx; rcx] 2] [1] [] false;
     mk_block 1 16 [phi; make RETURN no_vn [set_offset 3 (vn_reg 2 [] 8)] 17] [] [0] true] 0 3 [] [].

Lemma example_paths path : valid_path example path ->
  path = [] \/ exists p, path = [(0%nat, p)] \/ path = [(0%nat, p); (1%nat, 0%nat)].
Proof.
  destruct path as [|[b p] path]; [by left|]. intros (E & _ & F). cbn in E, F. subst b. right. exists p.
  destruct path as [|[b q] path]; [by left|]. right. destruct F as [(B & EB & P) F].
  destruct b as [|[|b]]; cbn in EB; [injection EB as <-; by destruct q|injection EB as <-|by destruct b].
  destruct q as [|q]; [|by destruct q]. destruct path as [|[b q] path]; [done|].
  destruct F as [(B & EB & P') _]. destruct b as [|[|b]]; cbn in EB; [injection EB as <-|injection EB as <-|by destruct b].
  - by destruct q.
  - cbn in P'. destruct q as [|q]; [discriminate P'|by destruct q].
Qed.

Lemma example_ssa : ssa example.
Proof.
  split.
  - apply (bool_decide_unpack _). by vm_compute.
  - intros path A x B k V E R K. assert (S : strict_path (defs example) [] (flat example path) = true).
    { destruct (example_paths path V) as [->|(p & [->| ->])]; [done|..]; clear; reflexivity. }
    rewrite E in S. destruct (strict_path_ok _ _ _ _ _ _ S R K) as [H|H]; [by apply not_elem_of_nil in H|done].
  - intros b i Hb Hi. apply list_elem_of_In in Hb as [<-|[<-|[]]]; apply list_elem_of_In in Hi; cbn in Hi;
      destruct_or?; subst; done.
Qed.

Lemma copy_propagation_preserves_witness :
  (fun b => op <$> ops b) <$> blocks (copy_propagation example) = [[LOAD; COPY; STORE]; [COPY; RETURN]] /\
  let act (o : PcodeOp) (sz : Z) (ins : list Z) (m : unit) := (m, from_option (fun x => x) 7 (head ins)) in
  let path := [(0%nat, 0%nat); (1%nat, 0%nat)] in
  valid_path example path /\
  forall s, agree (used (copy_propagation example))
    (run_path act example path s) (run_path act (copy_propagation example) path s).
Proof.
  split; [vm_compute; reflexivity|]. intros act path.
  assert (V : valid_path example path).
  { split; [done|]. split; [by eexists; split; [done|cbn; lia]|]. split; [|done]. by eexists. }
  split; [exact V|]. intros s.
  apply (copy_propagation_preserves act (fun _ _ _ _ _ => eq_refl) (fun _ _ _ _ => eq_refl) example path s example_ssa V).
Defined.
