(* ===== verification/Ssa.v ===== *)
(** * SSA construction: src/hyperion/core/decompiler/ssa.cpp

    The reverse postorder of the blocks, variable keys, and the renaming of the
    operations of a block.  [Dom], [Phi], [Rename] and [Build] continue. *)

From S2P Require Import Prelude Ir.
From S2P Require Dce.

#[local] Open Scope Z_scope.

(** ** Reverse postorder *)

Section Rpo.
Variable f : PcodeFunc.

Definition num_blocks : Z := zlen (blocks f).

Definition succs_of (b : Z) : list Z := from_option succs [] (blocks f !! Z.to_nat b).

(** The visited flags and the postorder so far. *)
Definition visit_st : Type := list bool * list Z.

Definition skipped (b : Z) (st : visit_st) : bool :=
  (b <? 0) || (num_blocks <=? b) || default false (st.1 !! Z.to_nat b).

Fixpoint visit (fuel : nat) (b : Z) (st : visit_st) : option visit_st :=
  if skipped b st then Some st
  else
    match fuel with
    | O => None
    | S fuel' =>
        st' ← foldl (fun acc s => st ← acc; visit fuel' s st)
                (Some (<[Z.to_nat b := true]> st.1, st.2)) (succs_of b);
        Some (st'.1, st'.2 ++ [b])
    end.

(** [rpo_] and [rpo_index_]. *)
Definition compute_reverse_postorder : option (list Z * list Z) :=
  let n := length (blocks f) in
  st ← visit n (Z.of_nat (entry_block f)) (replicate n false, []);
  let rpo := reverse st.2 in
  Some (rpo, foldl (fun ix ib => <[Z.to_nat ib.2 := Z.of_nat ib.1]> ix) (replicate n (-1)) (imap pair rpo)).
End Rpo.

(** ** Renaming *)

(** [stack_slots_] and [stack_nodes_]. *)
Definition slot_map : Type := gmap Z Z * gmap Z Varnode.

(** The slots seen so far, the version stacks (newest first), the counter, and how
    many versions the block pushed per key. *)
Record rename_st := mk_rename {
  slots : slot_map; stacks : gmap Z (list Z); ssa_counter : Z; pushed : gmap Z Z
}.

Definition var_key (v : Varnode) (slots : slot_map) : Z * slot_map :=
  match kind v with
  | Reg => (id v, slots)
  | Temp => (1000 + id v, slots)
  | Stack =>
      let slot := Z.lxor (Z.shiftl (u32 (id v)) 32) (Z.land (offset v) 4294967295) in
      match slots.1 !! slot with
      | Some k => (k, slots)
      | None => let k := 2000 + Z.of_nat (base.size slots.1) in (k, (<[slot := k]> slots.1, <[k := v]> slots.2))
      end
  | _ => (-1, slots)
  end.

Definition rename_input (st : rename_st) (v : Varnode) : rename_st * Varnode :=
  let '(k, sl) := var_key v (slots st) in
  let st := mk_rename sl (stacks st) (ssa_counter st) (pushed st) in
  (st, if 0 <=? k then match stacks st !! k with Some (ver :: _) => set_offset ver v | _ => v end else v).

Fixpoint rename_inputs (st : rename_st) (vs : list Varnode) : rename_st * list Varnode :=
  match vs with
  | [] => (st, [])
  | v :: vs =>
      let '(st, v) := rename_input st v in
      let '(st, vs) := rename_inputs st vs in
      (st, v :: vs)
  end.

Definition rename_output (st : rename_st) (v : Varnode) : rename_st * Varnode :=
  let '(k, sl) := var_key v (slots st) in
  if 0 <=? k then
    let ver := ssa_counter st + 1 in
    (mk_rename sl (<[k := ver :: default [] (stacks st !! k)]> (stacks st)) ver
       (<[k := default 0 (pushed st !! k) + 1]> (pushed st)), set_offset ver v)
  else (mk_rename sl (stacks st) (ssa_counter st) (pushed st), v).

(** The loop of [rename_block] over the operations: the inputs (but for phis), then
    the output. *)
Fixpoint rename_ops (st : rename_st) (os : list PcodeInsn) : rename_st * list PcodeInsn :=
  match os with
  | [] => (st, [])
  | o :: os =>
      let '(st, ins) := if seq o =? -1 then (st, inputs o) else rename_inputs st (inputs o) in
      let '(st, out) := rename_output st (output o) in
      let '(st, os) := rename_ops st os in
      (st, set_output out (set_inputs ins o) :: os)
  end.

(** ** The order is that of the reachable blocks *)

Section RpoProofs.
Context (f : PcodeFunc).
Notation n := (num_blocks f).

Definition in_range (b : Z) : Prop := 0 <= b < n.

(** Reached from [a] along successors that are blocks. *)
Inductive reaches (a : Z) : Z -> Prop :=
| reaches_refl : in_range a -> reaches a a
| reaches_step b c : reaches a b -> c ∈ succs_of f b -> in_range c -> reaches a c.

Definition visited (st : visit_st) (b : Z) : Prop := in_range b /\ st.1 !! Z.to_nat b = Some true.

Lemma reaches_trans a b c : reaches a b -> reaches b c -> reaches a c.
Proof. intros H1 H2. induction H2 as [|c d _ IH]; [done|]. by eapply reaches_step. Qed.

Lemma reaches_range a b : reaches a b -> in_range b.
Proof. by destruct 1. Qed.

(** What a call that starts at blocks [P] adds: new blocks reached from [P], once
    each, listed in the postorder, with their successors visited. *)
Record extends (P : Z -> Prop) (st st' : visit_st) : Prop := mk_extends {
  ext_length : length st'.1 = length st.1;
  ext_old : forall b, visited st b -> visited st' b;
  ext_post : exists new, st'.2 = st.2 ++ new /\ NoDup new /\
    forall b, b ∈ new <-> visited st' b /\ ~ visited st b;
  ext_reach : forall b, visited st' b -> visited st b \/ exists a, P a /\ reaches a b;
  ext_start : forall a, P a -> in_range a -> visited st' a;
  ext_closed : forall b c, visited st' b -> ~ visited st b -> c ∈ succs_of f b -> in_range c -> visited st' c
}.

Definition unvisited (st : visit_st) : nat := length (List.filter negb st.1).

Lemma skipped_spec b st : length st.1 = length (blocks f) ->
  skipped f b st = false <-> in_range b /\ ~ visited st b.
Proof.
  intros L. unfold skipped, visited, in_range, num_blocks, zlen in *. rewrite !orb_false_iff, Z.ltb_ge, Z.leb_gt.
  split.
  - intros [[H1 H2] H3]. split; [done|]. intros [_ E]. by rewrite E in H3.
  - intros [[H1 H2] H3]. split; [done|].
    destruct (st.1 !! Z.to_nat b) as [[]|] eqn:E; [exfalso; apply H3; by split|done|done].
Qed.

Lemma extends_refl (P : Z -> Prop) st : (forall a, P a -> in_range a -> visited st a) -> extends P st st.
Proof.
  intros H. split; try done.
  - exists []. rewrite app_nil_r. split_and!; [done|constructor|]. intros b. split; [by intros ?%not_elem_of_nil|tauto].
  - by left.
Qed.

Lemma extends_trans (P Q : Z -> Prop) st1 st2 st3 :
  extends P st1 st2 -> extends Q st2 st3 -> extends (fun a => P a \/ Q a) st1 st3.
Proof.
  intros [L1 O1 (new1 & E1 & N1 & M1) R1 S1 C1] [L2 O2 (new2 & E2 & N2 & M2) R2 S2 C2].
  assert (Dec : forall b, visited st2 b \/ ~ visited st2 b).
  { intros b. unfold visited, in_range. destruct (decide (0 <= b < n /\ st2.1 !! Z.to_nat b = Some true)); tauto. }
  split; [congruence|auto| | | |].
  - exists (new1 ++ new2). split_and!; [by rewrite E2, E1, app_assoc| |].
    + apply NoDup_app. split_and!; [done| |done]. intros b H1%M1 H2%M2. tauto.
    + intros b. rewrite elem_of_app, M1, M2. destruct (Dec b); [|naive_solver]. split; [naive_solver|]. intros []. by left.
  - intros b H. destruct (R2 b H) as [H2|(a & Qa & Ra)]; [|right; eauto].
    destruct (R1 b H2) as [H1|(a & Pa & Ra)]; [by left|right; eauto].
  - intros a [Pa|Qa] Ra; auto.
  - intros b c H3 H1 Hs Hc. destruct (Dec b) as [H2|H2]; [|by eapply C2]. apply O2. by eapply C1.
Qed.

Lemma visited_mark st b x : in_range b -> length st.1 = length (blocks f) ->
  visited (<[Z.to_nat b := true]> st.1, st.2) x <-> visited st x \/ x = b.
Proof.
  unfold visited, in_range, num_blocks, zlen. intros Hb L. cbn.
  destruct (decide (x = b)) as [->|N].
  - rewrite list_lookup_insert_eq by lia. tauto.
  - split; [intros [Hx H]|intros [[Hx H]|H]; [|done]].
    + rewrite list_lookup_insert_ne in H by lia. tauto.
    + rewrite list_lookup_insert_ne by lia. tauto.
Qed.

Lemma unvisited_mark st b : in_range b -> ~ visited st b -> length st.1 = length (blocks f) ->
  unvisited st = S (unvisited (<[Z.to_nat b := true]> st.1, st.2)).
Proof.
  unfold visited, in_range, num_blocks, zlen, unvisited. intros Hb V L.
  destruct (st.1 !! Z.to_nat b) as [[]|] eqn:E; [exfalso; tauto| |apply lookup_ge_None in E; lia].
  cbn [fst]. rewrite (insert_take_drop _ _ _ ltac:(by eapply lookup_lt_Some)).
  rewrite <-(take_drop_middle _ _ _ E) at 1. rewrite !List.filter_app, !length_app. cbn. lia.
Qed.

Lemma reaches_start a b : reaches a b -> in_range a.
Proof. by induction 1. Qed.

Lemma extends_visit st st2 b :
  length st.1 = length (blocks f) -> in_range b -> ~ visited st b ->
  extends (fun a => a ∈ succs_of f b) (<[Z.to_nat b := true]> st.1, st.2) st2 ->
  extends (fun a => a = b) st (st2.1, st2.2 ++ [b]).
Proof.
  intros L Hb Nb [L1 O1 (new & E1 & N1 & M1) R1 S1 C1]. cbn in L1, E1. rewrite length_insert in L1.
  assert (Vb : visited st2 b) by (apply O1, visited_mark; tauto).
  split; [done| | | | |].
  - intros x Hx. apply O1, visited_mark; tauto.
  - exists (new ++ [b]). split_and!; [by rewrite E1, app_assoc| |].
    + apply NoDup_app. split_and!; [done| |by apply NoDup_singleton].
      intros x [_ Hx]%M1 ->%list_elem_of_singleton. apply Hx, visited_mark; tauto.
    + intros x. rewrite elem_of_app, list_elem_of_singleton, M1, visited_mark by done.
      destruct (decide (x = b)) as [->|]; [tauto|]. change (visited (st2.1, st2.2 ++ [b]) x) with (visited st2 x). tauto.
  - intros x Hx. destruct (R1 x Hx) as [H|(a & Ha & Ra)].
    + apply visited_mark in H as [H| ->]; [by left|right; exists b; split; [done|by apply reaches_refl]|done|done].
    + right. exists b. split; [done|]. eapply reaches_trans; [|exact Ra].
      eapply reaches_step; [by apply reaches_refl|done|by eapply reaches_start].
  - intros a -> _. exact Vb.
  - intros x c Hx Nx Hs Hc. change (visited st2 c). destruct (decide (x = b)) as [->|N]; [by apply S1|].
    apply (C1 x c Hx); [|done|done]. rewrite visited_mark by done. tauto.
Qed.

Lemma visit_spec fuel b st :
  length st.1 = length (blocks f) -> (unvisited st <= fuel)%nat ->
  exists st', visit f fuel b st = Some st' /\ extends (fun a => a = b) st st' /\ (unvisited st' <= unvisited st)%nat.
Proof.
  revert b st; induction fuel as [|fuel IH]; intros b st L U; cbn [visit];
    (destruct (skipped f b st) eqn:Sk;
     [exists st; split_and!; [done|apply extends_refl; intros a -> Ha|done];
      destruct (decide (visited st b)) as [|Nv]; [done|]; exfalso;
      assert (skipped f b st = false) by (by apply skipped_spec); congruence|]);
    apply skipped_spec in Sk as [Hb Nb]; try done;
    pose proof (unvisited_mark st b Hb Nb L) as U1; [lia|].
  set (st1 := (<[Z.to_nat b := true]> st.1, st.2)) in *.
  assert (G : forall l st, length st.1 = length (blocks f) -> (unvisited st <= fuel)%nat ->
    exists st', foldl (fun acc s => st ← acc; visit f fuel s st) (Some st) l = Some st' /\
      extends (fun a => a ∈ l) st st' /\ (unvisited st' <= unvisited st)%nat).
  { clear -IH. induction l as [|s l IHl]; intros st L U.
    - exists st. split_and!; [done|apply extends_refl; by intros a ?%not_elem_of_nil|done].
    - destruct (IH s st L U) as (st1 & E1 & X1 & U1). cbn [foldl]. cbn. rewrite E1.
      destruct (IHl st1) as (st2 & E2 & X2 & U2); [by rewrite (ext_length _ _ _ X1)|lia|].
      exists st2. split_and!; [done| |lia]. pose proof (extends_trans _ _ _ _ _ X1 X2) as X.
      destruct X as [A B C D E F]. split; try done.
      + intros x Hx. destruct (D x Hx) as [?|(a & [->|Ha] & Ra)]; [by left|right; exists s|right; exists a];
          (split; [|done]); [by left|by right].
      + intros a Ha. apply E. by apply elem_of_cons in Ha. }
  destruct (G (succs_of f b) st1) as (st2 & E2 & X2 & U2); [subst st1; cbn; by rewrite length_insert|lia|].
  rewrite E2. cbn. exists (st2.1, st2.2 ++ [b]). split_and!; [done|by apply extends_visit|].
  change (unvisited (st2.1, st2.2 ++ [b])) with (unvisited st2). lia.
Qed.

(** ** An edge against the order closes a cycle *)

(** The visited blocks not yet in the postorder are those being visited. *)
Definition pending (st : visit_st) (x : Z) : Prop := visited st x /\ x ∉ st.2.

(** From position [k] of the postorder on, a successor comes before its block or
    leads back to it. *)
Definition ordered (k : nat) (post : list Z) : Prop :=
  forall i x c, (k <= i)%nat -> post !! i = Some x -> c ∈ succs_of f x -> in_range c ->
    (exists j, (j < i)%nat /\ post !! j = Some c) \/ reaches c x.

Lemma extends_pending P st st' x : extends P st st' -> pending st' x -> pending st x.
Proof.
  intros [_ _ (new & E & _ & M) _ _ _] [V N]. rewrite E, elem_of_app in N. split; [|tauto].
  destruct (decide (0 <= x < num_blocks f /\ st.1 !! Z.to_nat x = Some true)); [done|]. exfalso. apply N. right. by apply M.
Qed.

Lemma extends_prefix P st st' : extends P st st' -> exists new, st'.2 = st.2 ++ new.
Proof. intros [_ _ (new & E & _) _ _ _]. eauto. Qed.

Lemma ordered_app k post new :
  ordered k post -> ordered (length post) (post ++ new) -> (k <= length post)%nat -> ordered k (post ++ new).
Proof.
  intros O1 O2 Hk i x c Hi Hx Hs Hc. destruct (decide (length post <= i)%nat) as [L|L]; [by eapply O2|].
  rewrite lookup_app_l in Hx by lia. destruct (O1 i x c Hi Hx Hs Hc) as [(j & Hj & Ej)|R]; [left|by right].
  exists j. split; [done|]. rewrite lookup_app_l by lia. done.
Qed.

Lemma visit_ordered fuel b st st' :
  length st.1 = length (blocks f) -> (unvisited st <= fuel)%nat ->
  (in_range b -> forall x, pending st x -> reaches x b) ->
  visit f fuel b st = Some st' -> ordered (length st.2) st'.2.
Proof.
  revert b st st'; induction fuel as [|fuel IH]; intros b st st' L U Pre; cbn [visit];
    (destruct (skipped f b st) eqn:Sk;
     [intros [= <-] i x c Hi Hx; apply lookup_lt_Some in Hx; lia|]);
    apply skipped_spec in Sk as [Hb Nb]; try done;
    pose proof (unvisited_mark st b Hb Nb L) as U1.
  set (st1 := (<[Z.to_nat b := true]> st.1, st.2)) in *.
  assert (Pre1 : forall x, pending st1 x -> reaches x b).
  { intros x [V N]. apply visited_mark in V as [V| ->]; [by apply Pre|by apply reaches_refl|done|done]. }
  assert (G : forall l st2 st3, length st2.1 = length (blocks f) -> (unvisited st2 <= fuel)%nat ->
    (forall s, s ∈ l -> s ∈ succs_of f b) -> (forall x, pending st2 x -> pending st1 x) ->
    foldl (fun acc s => st ← acc; visit f fuel s st) (Some st2) l = Some st3 ->
    ordered (length st2.2) st3.2 /\ extends (fun a => a ∈ l) st2 st3).
  { clear -IH Pre1 Hb. induction l as [|s l IHl]; intros st2 st3 L2 U2 Hl Pend E.
    - injection E as <-. split; [|apply extends_refl; by intros a ?%not_elem_of_nil].
      intros i x c Hi Hx. apply lookup_lt_Some in Hx. lia.
    - destruct (visit_spec fuel s st2 L2 U2) as (st4 & E4 & X4 & U4). cbn [foldl] in E. cbn in E. rewrite E4 in E.
      destruct (IHl st4 st3) as [O3 X3]; [by rewrite (ext_length _ _ _ X4)|lia|intros; apply Hl; by right| |done|].
      { intros x Hx. by apply Pend, (extends_pending _ _ _ _ X4). }
      assert (O4 : ordered (length st2.2) st4.2).
      { apply (IH s st2 st4 L2 U2); [|done]. intros Hs x Hx. eapply reaches_step; [by apply Pre1, Pend| |done].
        apply Hl. by left. }
      destruct (extends_prefix _ _ _ X3) as [new Enew]. destruct (extends_prefix _ _ _ X4) as [new4 Enew4].
      split.
      + rewrite Enew in *. apply ordered_app; [done|done|]. rewrite Enew4, length_app. lia.
      + pose proof (extends_trans _ _ _ _ _ X4 X3) as [A B C D F G]. split; try done.
        * intros x Hx. destruct (D x Hx) as [?|(a & [->|Ha] & Ra)]; [by left|right; exists s|right; exists a];
            (split; [|done]); [by left|by right].
        * intros a Ha. apply F. by apply elem_of_cons in Ha. }
  intros E. apply bind_Some in E as (st2 & E2 & [= <-]). destruct (G (succs_of f b) st1 st2) as [O2 X2]; try done; [subst st1; cbn; by rewrite length_insert|lia|].
  cbn. change (length st.2) with (length st1.2). destruct (extends_prefix _ _ _ X2) as [new Enew].
  apply ordered_app; [done| |rewrite Enew, length_app; lia].
  intros i x c Hi Hx Hs Hc. rewrite lookup_app_r in Hx by lia.
  destruct (i - length st2.2)%nat eqn:Ei; [|by destruct n]. injection Hx as <-.
  assert (Vc : visited st2 c) by (by apply (ext_start _ _ _ X2)).
  destruct (decide (c ∈ st2.2)) as [Hin|Hin].
  - left. apply list_elem_of_lookup in Hin as [j Hj]. exists j. pose proof (lookup_lt_Some _ _ _ Hj).
    split; [lia|]. by rewrite lookup_app_l.
  - right. apply Pre1. eapply extends_pending; [exact X2|]. by split.
Qed.

(** Each block listed after position [k] has a predecessor later in the postorder,
    but for the blocks [P] the calls started at. *)
Definition parented (P : Z -> Prop) (k : nat) (post : list Z) : Prop :=
  forall i x, (k <= i)%nat -> post !! i = Some x ->
    P x \/ exists j p, (i < j)%nat /\ post !! j = Some p /\ x ∈ succs_of f p.

Lemma parented_app (P Q : Z -> Prop) k post new :
  parented P k post -> parented Q (length post) (post ++ new) ->
  parented (fun x => P x \/ Q x) k (post ++ new).
Proof.
  intros H1 H2 i x Hi Hx. destruct (decide (length post <= i)%nat) as [L|L].
  - destruct (H2 i x L Hx) as [?|?]; [left; by right|by right].
  - rewrite lookup_app_l in Hx by lia. destruct (H1 i x Hi Hx) as [?|(j & p & Hj & Hp & Hs)]; [left; by left|right].
    exists j, p. split_and!; [done| |done]. by apply lookup_app_l_Some.
Qed.

Lemma visit_parent fuel b st st' :
  visit f fuel b st = Some st' ->
  (exists new, st'.2 = st.2 ++ new) /\ parented (eq b) (length st.2) st'.2.
Proof.
  assert (Refl : forall P st, parented P (length st) st).
  { intros P l i x Hi Hx. apply lookup_lt_Some in Hx. lia. }
  revert b st st'; induction fuel as [|fuel IH]; intros b st st'; cbn [visit];
    (destruct (skipped f b st);
     [intros [= <-]; split; [exists []; by rewrite app_nil_r|apply Refl]|]); [done|].
  assert (G : forall l st2 st3,
    foldl (fun acc s => st ← acc; visit f fuel s st) (Some st2) l = Some st3 ->
    (exists new, st3.2 = st2.2 ++ new) /\ parented (fun x => x ∈ l) (length st2.2) st3.2).
  { induction l as [|s l IHl]; intros st2 st3 E.
    - injection E as <-. split; [exists []; by rewrite app_nil_r|apply Refl].
    - cbn [foldl] in E. cbn in E. destruct (visit f fuel s st2) as [st4|] eqn:E4; [|by rewrite foldl_bind_none in E].
      destruct (IH _ _ _ E4) as [[new4 N4] P4]. destruct (IHl _ _ E) as [[new N] P3].
      split; [exists (new4 ++ new); by rewrite N, N4, app_assoc|]. rewrite N in P3 |- *.
      intros i x Hi Hx. destruct (parented_app _ _ _ _ _ P4 P3 i x Hi Hx) as [[<-|H]|H]; [left; by left|left; by right|by right]. }
  intros E. apply bind_Some in E as (st2 & E2 & [= <-]). apply G in E2 as [[new N] P]. cbn in N, P |- *.
  split; [exists (new ++ [b]); by rewrite N, app_assoc|]. intros i x Hi Hx.
  apply lookup_app_Some in Hx as [Hx|[Hj Hx]].
  - right. destruct (P i x Hi Hx) as [H|(j & p & Hj & Hp & Hs)].
    + exists (length st2.2), b. apply lookup_lt_Some in Hx. split_and!; [done| |done].
      by rewrite lookup_app_r, Nat.sub_diag.
    + exists j, p. split_and!; [done| |done]. by apply lookup_app_l_Some.
  - apply list_lookup_singleton_Some in Hx as [_ <-]. by left.
Qed.
End RpoProofs.

Lemma visit_last f fuel b st st' :
  skipped f b st = false -> visit f fuel b st = Some st' -> exists post, st'.2 = post ++ [b].
Proof.
  intros Sk. destruct fuel as [|fuel]; cbn [visit]; rewrite Sk; [done|].
  intros E. apply bind_Some in E as (st2 & _ & [= <-]). by exists st2.2.
Qed.

Lemma index_foldl (l : list Z) (ix : list Z) :
  NoDup l -> (forall b, b ∈ l -> 0 <= b < zlen ix) ->
  forall i b, l !! i = Some b ->
    foldl (fun ix ib => <[Z.to_nat ib.2 := Z.of_nat ib.1]> ix) ix (imap pair l) !! Z.to_nat b = Some (Z.of_nat i).
Proof.
  induction l as [|x l IH] using rev_ind; intros N R i b E; [done|].
  assert (Len : forall k ix, length (foldl (fun (ix : list Z) (ib : nat * Z) => <[Z.to_nat ib.2 := Z.of_nat ib.1]> ix) ix k) = length ix).
  { intros k. induction k as [|y k IHk]; intros ix'; [done|]. cbn. by rewrite IHk, length_insert. }
  apply NoDup_app in N as (N1 & N2 & _). rewrite imap_app, foldl_app. cbn. rewrite Nat.add_0_r.
  assert (Rx : 0 <= x < zlen ix) by (apply R, elem_of_app; right; by left). unfold zlen in Rx.
  apply lookup_app_Some in E as [E|[Hi E]].
  - rewrite list_lookup_insert_ne; [apply IH; [done| |done]; intros c Hc; apply R, elem_of_app; by left|].
    assert (Hb : b ∈ l) by (by eapply list_elem_of_lookup_2).
    assert (b <> x) by (intros ->; apply (N2 x Hb); by left).
    specialize (R b ltac:(apply elem_of_app; by left)). lia.
  - apply list_lookup_singleton_Some in E as [Ei <-]. rewrite list_lookup_insert_eq; [f_equal; lia|].
    rewrite Len. lia.
Qed.

Lemma unvisited_replicate n post : unvisited (replicate n false, post) = n.
Proof. unfold unvisited; cbn. induction n as [|n IH]; [done|]. cbn. by rewrite IH. Qed.

Lemma not_visited_replicate f n post b : ~ visited f (replicate n false, post) b.
Proof. intros [_ H]. cbn in H. by apply lookup_replicate in H as [? _]. Qed.

Lemma entry_block_lt f : blocks f <> [] -> (entry_block f < length (blocks f))%nat.
Proof.
  intros H. unfold entry_block. destruct (list_find _ _) as [[i b]|] eqn:E; cbn.
  - apply list_find_Some in E as (E & _). by eapply lookup_lt_Some.
  - destruct (blocks f); [done|cbn; lia].
Qed.

(** What the computed order and index arrays are. *)
Record rpo_ok (f : PcodeFunc) (rpo ix : list Z) : Prop := mk_rpo_ok {
  rpo_nodup : NoDup rpo;
  rpo_head : head rpo = Some (Z.of_nat (entry_block f));
  rpo_reach : forall b, b ∈ rpo <-> reaches f (Z.of_nat (entry_block f)) b;
  rpo_length : length ix = length (blocks f);
  rpo_index : forall i b, rpo !! i = Some b -> ix !! Z.to_nat b = Some (Z.of_nat i);
  rpo_edge : forall i j x c, rpo !! i = Some x -> rpo !! j = Some c -> c ∈ succs_of f x -> (i < j)%nat \/ reaches f c x;
  rpo_parent : forall i x, rpo !! i = Some x -> x <> Z.of_nat (entry_block f) ->
    exists j p, (j < i)%nat /\ rpo !! j = Some p /\ x ∈ succs_of f p
}.

Lemma index_length (l : list (nat * Z)) (ix : list Z) :
  length (foldl (fun ix ib => <[Z.to_nat ib.2 := Z.of_nat ib.1]> ix) ix l) = length ix.
Proof. revert ix. induction l as [|y l IH]; intros ix; [done|]. cbn. by rewrite IH, length_insert. Qed.

Lemma rpo_compute f :
  blocks f <> [] ->
  exists rpo ix, compute_reverse_postorder f = Some (rpo, ix) /\ rpo_ok f rpo ix.
Proof.
  intros Hne. pose proof (entry_block_lt f Hne) as He. set (e := Z.of_nat (entry_block f)).
  set (n := length (blocks f)). set (st0 := (replicate n false, []) : visit_st).
  assert (Re : in_range f e) by (unfold in_range, num_blocks, zlen; lia).
  assert (L : length st0.1 = length (blocks f)) by apply length_replicate.
  assert (U : (unvisited st0 <= n)%nat) by (unfold st0; rewrite unvisited_replicate; lia).
  destruct (visit_spec f n e st0 L U) as (st & E & X & _).
  assert (O : ordered f 0 st.2).
  { apply (visit_ordered f n e st0 st L U); [|exact E]. intros _ x [V _]. by apply not_visited_replicate in V. }
  assert (Sk : skipped f e st0 = false) by (apply skipped_spec; [done|split; [done|apply not_visited_replicate]]).
  destruct (visit_last f n e st0 st Sk E) as (post & Ep).
  destruct X as [Lx _ (new & En & Nn & Mn) Rx Sx Cx]. cbn in En. subst new.
  assert (M : forall b, b ∈ st.2 <-> visited f st b).
  { intros b. rewrite Mn. split; [tauto|]. intros V. split; [done|apply not_visited_replicate]. }
  assert (Reach : forall b, b ∈ st.2 <-> reaches f e b).
  { intros b. rewrite M. split.
    - intros V. destruct (Rx b V) as [V0|(a & -> & R)]; [by apply not_visited_replicate in V0|done].
    - intros R. induction R as [|b c _ IH Hs Hc]; [by apply Sx|]. apply (Cx b c IH); [apply not_visited_replicate|done|done]. }
  unfold compute_reverse_postorder. fold n e st0. rewrite E. cbn.
  eexists _, _. split; [done|]. split.
  - by rewrite reverse_Permutation.
  - by rewrite Ep, reverse_app.
  - intros b. rewrite elem_of_reverse. apply Reach.
  - by rewrite index_length, length_replicate.
  - apply index_foldl; [by rewrite reverse_Permutation|]. intros b Hb%elem_of_reverse%Reach%reaches_range.
    unfold zlen. rewrite length_replicate. exact Hb.
  - intros i j x c Hi Hj Hs. destruct (decide (i < j)%nat) as [|N]; [by left|right].
    pose proof (lookup_lt_Some _ _ _ Hi) as Li. pose proof (lookup_lt_Some _ _ _ Hj) as Lj.
    rewrite length_reverse in Li, Lj. rewrite reverse_lookup in Hi by done. rewrite reverse_lookup in Hj by done.
    assert (Hc : in_range f c). { apply (reaches_range f e), Reach. by eapply list_elem_of_lookup_2. }
    destruct (O _ x c (Nat.le_0_l _) Hi Hs Hc) as [(k & Hk & Ek)|R]; [|done].
    pose proof (NoDup_lookup _ _ _ _ Nn Ek Hj). lia.
  - intros i x Hi Hx. destruct (visit_parent f n e st0 st E) as [_ Par].
    pose proof (lookup_lt_Some _ _ _ Hi) as Li. rewrite length_reverse in Li. rewrite reverse_lookup in Hi by done.
    destruct (Par _ x (Nat.le_0_l _) Hi) as [<-|(j & p & Hj & Hp & Hs)]; [done|].
    pose proof (lookup_lt_Some _ _ _ Hp) as Lj. exists (length st.2 - S j)%nat, p. split_and!; [lia| |done].
    rewrite reverse_lookup by lia. rewrite <-Hp. f_equal. lia.
Qed.

(** For every function with a block, the reverse postorder is computed (the
    recursion ends) and lists exactly the blocks that the successor lists reach from
    the entry, each once, the entry first, with [rpo_index_] its inverse; an edge
    that does not go forward in the order closes a cycle, so the order is topological
    where the graph has none. *)
Lemma rpo_spec f :
  blocks f <> [] ->
  exists rpo ix, compute_reverse_postorder f = Some (rpo, ix) /\
    NoDup rpo /\ head rpo = Some (Z.of_nat (entry_block f)) /\
    (forall b, b ∈ rpo <-> reaches f (Z.of_nat (entry_block f)) b) /\
    (forall i b, rpo !! i = Some b -> ix !! Z.to_nat b = Some (Z.of_nat i)) /\
    (forall i j x c, rpo !! i = Some x -> rpo !! j = Some c -> c ∈ succs_of f x -> (i < j)%nat \/ reaches f c x).
Proof.
  intros H. destruct (rpo_compute f H) as (rpo & ix & E & O). exists rpo, ix. destruct O. by split_and!.
Qed.

(** ** Renaming gives fresh versions, and each use the last definition before it *)

(** The key of a varnode that is not a stack slot. *)
Definition vkey (v : Varnode) : Z := (var_key v (∅, ∅)).1.

Definition no_stack (v : Varnode) : Prop := is_stack v = false.

Lemma var_key_no_stack v sl : no_stack v -> var_key v sl = (vkey v, sl).
Proof. unfold no_stack, is_stack, vkey, var_key. by destruct (kind v). Qed.

Lemma vkey_offset o v : no_stack v -> vkey (set_offset o v) = vkey v.
Proof. unfold no_stack, is_stack, vkey, var_key. cbn. by destruct (kind v). Qed.

(** The version of key [k] after the renamed operations [pre]: that of the last one
    that writes it, or the top of the stack before them. *)
Definition reaching (st : rename_st) (k : Z) (pre : list PcodeInsn) : option Z :=
  foldl (fun acc o => if vkey (output o) =? k then Some (offset (output o)) else acc)
    (stacks st !! k ≫= head) pre.

(** A use with that version. *)
Definition versioned (ver : option Z) (v : Varnode) : Varnode :=
  match ver with Some x => set_offset x v | None => v end.

Definition renamed_input (st : rename_st) (v : Varnode) : Varnode :=
  if 0 <=? vkey v then versioned (stacks st !! vkey v ≫= head) v else v.

Lemma rename_inputs_spec st vs :
  Forall no_stack vs -> rename_inputs st vs = (st, renamed_input st <$> vs).
Proof.
  induction vs as [|v vs IH]; intros H; [done|]. apply Forall_cons in H as [Hv H]. cbn [rename_inputs].
  unfold rename_input. rewrite (var_key_no_stack v _ Hv). destruct st as [sl sk ct pu]. cbn in *.
  rewrite (IH H). cbn. f_equal. f_equal. unfold renamed_input; cbn.
  destruct (0 <=? vkey v); [|done]. by destruct (sk !! vkey v) as [[|ver l]|].
Qed.

Lemma reaching_step st st' o os k :
  (stacks st' !! k ≫= head) = (if vkey (output o) =? k then Some (offset (output o)) else stacks st !! k ≫= head) ->
  reaching st' k os = reaching st k (o :: os).
Proof. unfold reaching. cbn. by intros ->. Qed.

Lemma rename_output_spec st v :
  no_stack v -> (0 <= vkey v \/ vkey v = -1) ->
  let '(st', v') := rename_output st v in
  vkey v' = vkey v /\ no_stack v' /\
  ssa_counter st' = ssa_counter st + (if 0 <=? vkey v then 1 else 0) /\
  (0 <= vkey v -> offset v' = ssa_counter st') /\
  forall k, 0 <= k ->
    (stacks st' !! k ≫= head) = if vkey v' =? k then Some (offset v') else stacks st !! k ≫= head.
Proof.
  intros Hv Hk. unfold rename_output. rewrite (var_key_no_stack v _ Hv).
  destruct (Z.leb_spec 0 (vkey v)) as [L|L]; cbn.
  - split_and!; [by apply vkey_offset|done|lia|done|]. intros k _. rewrite vkey_offset by done.
    destruct (Z.eqb_spec (vkey v) k) as [->|N]; [by rewrite lookup_insert_eq|by rewrite lookup_insert_ne].
  - split_and!; [done|done|lia|lia|]. intros k Hk0. by destruct (Z.eqb_spec (vkey v) k); [lia|].
Qed.

(** An operation the lifters emit for registers and temporaries: ids are not negative. *)
Definition plain (o : PcodeInsn) : Prop :=
  Forall no_stack (output o :: inputs o) /\ (0 <= vkey (output o) \/ vkey (output o) = -1).

Definition keyed (o : PcodeInsn) : bool := 0 <=? vkey (output o).

(** Renaming the operations of a block gives its outputs the next versions in
    order, so no version is used twice, and each input of an operation that is not a
    phi the version of the last output before it with the same register or
    temporary, or else the one that reaches the block; everything else is unchanged. *)
Lemma rename_ops_spec st os :
  Forall plain os ->
  let '(st', os') := rename_ops st os in
  ssa_counter st' = ssa_counter st + zlen (List.filter keyed os) /\
  omap (fun o => if keyed o then Some (offset (output o)) else None) os' =
    seqZ (ssa_counter st + 1) (zlen (List.filter keyed os)) /\
  forall i o, os !! i = Some o -> exists o', os' !! i = Some o' /\
    op o' = op o /\ addr o' = addr o /\ seq o' = seq o /\ vkey (output o') = vkey (output o) /\
    inputs o' = if seq o =? -1 then inputs o
                else (fun v => if 0 <=? vkey v then versioned (reaching st (vkey v) (take i os')) v else v) <$> inputs o.
Proof.
  revert st; induction os as [|o os IH]; intros st H; [by split_and!; [apply Zplus_0_r_reverse|..]|].
  apply Forall_cons in H as [[Ho Hk] H].
  apply Forall_cons in Ho as [Hout Hin]. cbn [rename_ops].
  assert (E1 : (if seq o =? -1 then (st, inputs o) else rename_inputs st (inputs o)) =
               (st, if seq o =? -1 then inputs o else renamed_input st <$> inputs o)).
  { destruct (seq o =? -1); [done|by apply rename_inputs_spec]. }
  rewrite E1. pose proof (rename_output_spec st (output o) Hout Hk) as S.
  destruct (rename_output st (output o)) as [st1 out]. destruct S as (Ek & Ns & Ec & Eo & Et).
  specialize (IH st1 H). destruct (rename_ops st1 os) as [st2 os2]. destruct IH as (Ic & Iv & Ii).
  set (o1 := set_output out (set_inputs _ o)).
  assert (K1 : keyed o1 = keyed o) by (unfold keyed; cbn; by rewrite Ek).
  change (0 <=? vkey (output o)) with (keyed o) in Ec.
  cbn [List.filter omap list_omap]. rewrite K1. destruct (keyed o) eqn:Lk; unfold keyed in Lk;
    [apply Z.leb_le in Lk|apply Z.leb_gt in Lk]; change (output o1) with out.
  all: split_and!; [|try rewrite Iv|].
  - rewrite Ic, Ec. unfold zlen; cbn [length]. lia.
  - rewrite (Eo Lk), Ec. unfold zlen; cbn [length]. rewrite (seqZ_cons (ssa_counter st + 1)) by lia.
    f_equal. f_equal; lia.
  - intros [|i] o2; cbn; [intros [= <-]; eexists; split; [done|]; split_and!; try done|].
    + intros E. destruct (Ii i o2 E) as (o' & E' & A & B & C & D & F). exists o'. split_and!; try done.
      rewrite F. destruct (seq o2 =? -1); [done|]. apply list_fmap_ext. intros _ v _.
      destruct (Z.leb_spec 0 (vkey v)) as [Lv|]; [|done]. f_equal.
      exact (reaching_step st st1 o1 (take i os2) (vkey v) (Et _ Lv)).
  - rewrite Ic, Ec. lia.
  - by rewrite Ec, Z.add_0_r.
  - intros [|i] o2; cbn; [intros [= <-]; eexists; split; [done|]; split_and!; try done|].
    + intros E. destruct (Ii i o2 E) as (o' & E' & A & B & C & D & F). exists o'. split_and!; try done.
      rewrite F. destruct (seq o2 =? -1); [done|]. apply list_fmap_ext. intros _ v _.
      destruct (Z.leb_spec 0 (vkey v)) as [Lv|]; [|done]. f_equal.
      exact (reaching_step st st1 o1 (take i os2) (vkey v) (Et _ Lv)).
Qed.

(** ** Examples *)

Definition block_at (a : Z) (ss ps : list Z) : PcodeBlock := mk_block 0 a [] ss ps false.

(** The entry is block 2; blocks 0 and 1 join in 3, which loops back to 1; 4 is not
    reached. *)
Definition diamond : PcodeFunc :=
  mk_func 12288 [] [block_at 4096 [3] [2]; block_at 8192 [3] [2; 3]; block_at 12288 [0; 1] [];
                    block_at 16384 [1] [0; 1]; block_at 20480 [3] []] 0 0 [] [].

Lemma rpo_spec_witness :
  exists rpo ix, compute_reverse_postorder diamond = Some (rpo, ix) /\
    rpo = [2; 0; 3; 1] /\ ix = [1; 3; 0; 2; -1] /\ NoDup rpo /\
    (forall b, b ∈ rpo <-> reaches diamond 2 b).
Proof.
  destruct (rpo_spec diamond) as (rpo & ix & E & N & _ & R & _); [done|].
  assert (E' : compute_reverse_postorder diamond = Some ([2; 0; 3; 1], [1; 3; 0; 2; -1])) by (vm_compute; reflexivity).
  rewrite E' in E. injection E as <- <-. exists [2; 0; 3; 1], [1; 3; 0; 2; -1]. split_and!; try done.
Defined.

Definition start : rename_st := mk_rename (∅, ∅) {[0 := [0]; 1 := [0]; 1000 := [0]]} 0 ∅.

Lemma rename_ops_spec_witness :
  let os := [make COPY (vn_reg 1 [] 8) [vn_const 5 8] 0; make ADD (vn_temp 0 8) [vn_reg 1 [] 8; vn_reg 0 [] 8] 1] in
  Forall plain os /\
  (fun o => (offset (output o), offset <$> inputs o)) <$> (rename_ops start os).2 = [(1, [5]); (2, [1; 0])] /\
  ssa_counter (rename_ops start os).1 = 2.
Proof.
  intros os. assert (P : Forall plain os).
  { repeat constructor; cbn; lia. }
  split; [exact P|]. pose proof (rename_ops_spec start os P) as S. split; [vm_compute; reflexivity|].
  destruct (rename_ops start os) as [st' os']. destruct S as [C _]. exact C.
Defined.

(** ** What the keys lose *)

(** The code the lifter emits for [mov ecx, 5; mov \[rdi\], ecx]: a 32-bit write also
    writes the full register. *)
Definition narrow_write : list PcodeInsn :=
  [make COPY (vn_reg 1 [] 4) [vn_const 5 4] 0;
   make INT_ZEXT (vn_temp 0 8) [vn_const 5 4] 0;
   make COPY (vn_reg 1 [] 8) [vn_temp 0 8] 0;
   make STORE no_vn [vn_reg 7 [] 8; vn_reg 1 [] 4] 4].

(** Renaming does not look at the width, the use counts do: the store reads version 3
    of ecx, which only rcx has, and dead code elimination removes every write. *)
Lemma narrow_write_is_lost :
  let os := (rename_ops start narrow_write).2 in
  (fun o => offset (output o)) <$> os = [1; 2; 3; 0] /\
  (fun o => key <$> inputs o) <$> drop 3 os = [[mk_key Reg 7 0 8; mk_key Reg 1 3 4]] /\
  (fun b => op <$> ops b) <$> blocks (Dce.run (mk_func 0 [] [mk_block 0 0 os [] [] false] 1 3 [] [])) = [[STORE]].
Proof. by vm_compute. Qed.

(** Temporary 1000 and the first stack slot have the same key: the slot's offset is
    replaced by a version of the temporary. *)
Lemma temp_shadows_stack_slot :
  let st := mk_rename (∅, ∅) {[2000 := [0]]} 0 ∅ in
  (fun o => inputs o) <$> (rename_ops st
     [make COPY (vn_temp 1000 8) [vn_const 5 8] 0; make LOAD (vn_temp 1001 8) [vn_stack 5 (-16) 8] 1]).2 =
  [[vn_const 5 8]; [set_offset 1 (vn_stack 5 (-16) 8)]].
Proof. by vm_compute. Qed.
