(* ===== verification/Dom.v ===== *)
(** * Dominators: src/hyperion/core/decompiler/ssa.cpp

    The iteration of [compute_dominators] over the reverse postorder with the two
    finger [intersect], the children of the dominator tree and the dominance
    frontiers.  Reads of the index and parent arrays are checked, so a result also
    says that none is out of bounds.  The proof keeps, for every state of the parent
    array, the chains of ancestors that the pointers spell: they contain the true
    dominators, shrink with every change, and at the end are exactly them. *)

From S2P Require Import Prelude Ir Ssa.

#[local] Open Scope Z_scope.

(** ** The algorithm *)

(** [l\[i\]] with an index out of bounds as [None]. *)
Definition rd {A} (l : list A) (i : Z) : option A := if i <? 0 then None else l !! Z.to_nat i.

Section Dominators.
Variable f : PcodeFunc.
Variables rpo_ rpo_index_ : list Z.

Definition preds_of (b : Z) : list Z := from_option preds [] (blocks f !! Z.to_nat b).

Definition start_block : Z := Z.of_nat (entry_block f).

(** The inner loops of [intersect]: follow the parents of [first] until its index is
    not above that of [second]; [Some None] is the early [return -1]. *)
Fixpoint climb (fuel : nat) (idom_ : list Z) (first second : Z) : option (option Z) :=
  i1 ← rd rpo_index_ first;
  i2 ← rd rpo_index_ second;
  if i2 <? i1 then
    match fuel with
    | O => None
    | S fuel' =>
        first ← rd idom_ first;
        if first <? 0 then Some None else climb fuel' idom_ first second
    end
  else Some (Some first).

Fixpoint intersect_loop (guard : nat) (idom_ : list Z) (first second : Z) : option Z :=
  if first =? second then Some (match guard with O => -1 | S _ => first end)
  else
    match guard with
    | O => Some (-1)
    | S guard' =>
        if (first <? 0) || (second <? 0) || (num_blocks f <=? first) || (num_blocks f <=? second) then Some (-1)
        else
          i1 ← rd rpo_index_ first;
          i2 ← rd rpo_index_ second;
          if (i1 <? 0) || (i2 <? 0) then Some (-1)
          else
            r1 ← climb (length (blocks f)) idom_ first second;
            match r1 with
            | None => Some (-1)
            | Some first =>
                r2 ← climb (length (blocks f)) idom_ second first;
                match r2 with
                | None => Some (-1)
                | Some second => intersect_loop guard' idom_ first second
                end
            end
    end.

Definition intersect (idom_ : list Z) (first second : Z) : option Z :=
  intersect_loop (length (blocks f) * 2 + 8) idom_ first second.

(** The loop over the predecessors of a block. *)
Definition new_idom_step (idom_ : list Z) (new_idom pred : Z) : option Z :=
  if (pred <? 0) || (num_blocks f <=? pred) then Some new_idom
  else
    ip ← rd idom_ pred;
    if ip <? 0 then Some new_idom
    else if new_idom <? 0 then Some pred else intersect idom_ pred new_idom.

Definition new_idom (idom_ : list Z) (block : Z) : option Z :=
  foldM (new_idom_step idom_) (preds_of block) (-1).

(** One round over the order; the flag is [changed]. *)
Definition dom_step (st : list Z * bool) (block : Z) : option (list Z * bool) :=
  new ← new_idom st.1 block;
  old ← rd st.1 block;
  if (0 <=? new) && negb (old =? new) then Some (<[Z.to_nat block := new]> st.1, true) else Some st.

Definition dom_pass (idom_ : list Z) : option (list Z * bool) := foldM dom_step (tail rpo_) (idom_, false).

Fixpoint dom_loop (fuel : nat) (idom_ : list Z) : option (list Z) :=
  match fuel with
  | O => None
  | S fuel' =>
      '(idom_, changed) ← dom_pass idom_;
      if (changed : bool) then dom_loop fuel' idom_ else Some idom_
  end.

Definition compute_dominators : option (list Z) :=
  let n := length (blocks f) in
  dom_loop (S (n * n)) (<[Z.to_nat start_block := start_block]> (replicate n (-1))).

(** [dom_children_], in the order of the reverse postorder. *)
Definition child_step (idom_ : list Z) (children : list (list Z)) (block : Z) : option (list (list Z)) :=
  if block =? start_block then Some children
  else
    d ← rd idom_ block;
    if d <? 0 then Some children
    else l ← rd children d; Some (<[Z.to_nat d := l ++ [block]]> children).

Definition compute_children (idom_ : list Z) : option (list (list Z)) :=
  foldM (child_step idom_) rpo_ (replicate (length (blocks f)) []).

(** The walk of [runner] from a predecessor [p] of [b] up to the parent of [b]. *)
Fixpoint run_up (guard : nat) (idom_ : list Z) (b db runner : Z) (df : list (list Z)) : option (list (list Z)) :=
  if (0 <=? runner) && negb (runner =? db) then
    match guard with
    | O => Some df
    | S guard' =>
        l ← rd df runner;
        let df := <[Z.to_nat runner := l ++ [b]]> df in
        next ← (if runner <? num_blocks f then rd idom_ runner else Some (-1));
        if next =? runner then Some df else run_up guard' idom_ b db next df
    end
  else Some df.

Definition frontier_step (idom_ : list Z) (df : list (list Z)) (b : Z) : option (list (list Z)) :=
  db ← rd idom_ b;
  if (db <? 0) || (zlen (preds_of b) <? 2) then Some df
  else foldM (fun df p => run_up (S (length (blocks f))) idom_ b db p df) (preds_of b) df.

Definition compute_dom_frontiers (idom_ : list Z) : option (list (list Z)) :=
  (fun df : list (list Z) => sort_unique <$> df) <$>
    foldM (frontier_step idom_) (seqZ 0 (num_blocks f)) (replicate (length (blocks f)) []).
End Dominators.

(** The loop of the lifters that fills the predecessors. *)
Definition add_pred (i : Z) (bs : list PcodeBlock) (s : Z) : list PcodeBlock :=
  if (0 <=? s) && (s <? zlen bs) then
    alter (fun b => mk_block (b_id b) (b_addr b) (ops b) (succs b) (preds b ++ [i]) (has_return b)) (Z.to_nat s) bs
  else bs.

Definition build_preds (bs : list PcodeBlock) : list PcodeBlock :=
  foldl (fun acc i => foldl (add_pred (Z.of_nat i)) acc (from_option succs [] (acc !! i)))
    bs (List.seq 0 (length bs)).

(** ** What a dominator is *)

Section Spec.
Variable f : PcodeFunc.

(** The blocks on a walk from [a], the last one first. *)
Inductive walk (a : Z) : list Z -> Prop :=
| walk_start : in_range f a -> walk a [a]
| walk_edge l b c : walk a (b :: l) -> c ∈ succs_of f b -> in_range f c -> walk a (c :: b :: l).

(** Every walk from the entry to [b] goes through [x]. *)
Definition dominates (x b : Z) : Prop := forall l, walk (start_block f) (b :: l) -> x ∈ b :: l.

(** The successor and predecessor lists describe the same edges between blocks. *)
Record graph_ok : Prop := mk_graph_ok {
  g_edges : forall b c, in_range f b -> in_range f c -> c ∈ succs_of f b <-> b ∈ preds_of f c;
  g_preds : forall b p, in_range f b -> p ∈ preds_of f b -> in_range f p
}.
End Spec.

(** ** Chains of parent pointers *)

Section Chains.
Context (e : Z) (R : Z -> Prop) (rank : Z -> Z) (edge : Z -> Z -> Prop).
Context (e_pos : 0 <= e) (R_pos : forall b, R b -> 0 <= b) (rank_pos : forall b, R b -> 0 <= rank b)
  (rank_inj : forall a b, R a -> R b -> rank a = rank b -> a = b).

(** An edge that goes forward in the order. *)
Definition fwd (q b : Z) : Prop := edge q b /\ R q /\ R b /\ rank q < rank b.

(** [x] is on the chain of parents from [b]. *)
Inductive anc (d : Z -> Z) : Z -> Z -> Prop :=
| anc_refl b : anc d b b
| anc_up b x : b <> e -> anc d (d b) x -> anc d b x.

(** The parents form a tree under the entry in which each parent leads to its child
    along forward edges. *)
Record tree (d : Z -> Z) : Prop := mk_tree {
  t_root : d e = e;
  t_set : forall b, 0 <= d b -> R b;
  t_up : forall b, 0 <= d b -> b <> e -> 0 <= d (d b) /\ tc fwd (d b) b
}.

Lemma tc_fwd_rank q b : tc fwd q b -> rank q < rank b.
Proof. induction 1 as [q b (_ & _ & _ & H)|q c b (_ & _ & _ & H) _ IH]; lia. Qed.

Lemma rtc_fwd_rank q b : rtc fwd q b -> rank q <= rank b.
Proof. intros [->|H%tc_fwd_rank]%rtc_tc; lia. Qed.

Lemma anc_trans d b x y : anc d b x -> anc d x y -> anc d b y.
Proof. induction 1 as [|b x N _ IH]; [done|]. intros H. by apply anc_up, IH. Qed.

Section One.
Context (d : Z -> Z) (T : tree d).

Lemma anc_set b x : anc d b x -> 0 <= d b -> 0 <= d x /\ rtc fwd x b.
Proof.
  induction 1 as [|b x N _ IH]; intros S; [by split|]. destruct (t_up d T b S N) as [S' F].
  destruct (IH S') as [Sx Fx]. split; [done|]. etrans; [exact Fx|by apply tc_rtc].
Qed.

Lemma anc_rank b x : anc d b x -> 0 <= d b -> rank x <= rank b.
Proof. intros A S. by apply rtc_fwd_rank, anc_set. Qed.

Lemma up_rank b : 0 <= d b -> b <> e -> rank (d b) < rank b.
Proof. intros S N. by apply tc_fwd_rank, (t_up d T b S N). Qed.

Lemma anc_linear b x y : 0 <= d b -> anc d b y -> anc d b x -> rank x <= rank y -> anc d y x.
Proof.
  intros S A. revert x S. induction A as [|b y N A IH]; intros x S Ax L; [done|].
  destruct (t_up d T b S N) as [S' _]. inversion Ax as [|? ? N' Ax']; subst; [|by apply IH].
  pose proof (anc_rank _ _ A S'). pose proof (up_rank x S N). lia.
Qed.

Lemma set_ind (P : Z -> Prop) :
  P e -> (forall b, 0 <= d b -> b <> e -> P (d b) -> P b) -> forall b, 0 <= d b -> P b.
Proof.
  intros Pe Pu b. remember (Z.to_nat (rank b)) as k eqn:K. revert b K.
  induction k as [k IH] using lt_wf_ind. intros b -> S.
  destruct (decide (b = e)) as [->|N]; [done|]. apply Pu; [done|done|].
  destruct (t_up d T b S N) as [S' _]. pose proof (up_rank b S N). pose proof (rank_pos _ (t_set d T _ S')).
  apply (IH (Z.to_nat (rank (d b)))); [lia|done|done].
Qed.

Lemma anc_dec b x : 0 <= d b -> anc d b x \/ ~ anc d b x.
Proof.
  revert b. apply set_ind.
  - destruct (decide (x = e)) as [->|N]; [left; by apply anc_refl|right]. by inversion 1.
  - intros b S N [A|A]; [left; by apply anc_up|].
    destruct (decide (x = b)) as [->|Nx]; [left; by apply anc_refl|right]. by inversion 1.
Qed.

Lemma anc_antisym b x : 0 <= d b -> anc d b x -> rank b <= rank x -> x = b.
Proof.
  intros S A L. destruct (anc_set _ _ A S) as [Sx _]. pose proof (anc_rank _ _ A S).
  apply rank_inj; [by apply (t_set d T)..|lia].
Qed.
End One.

(** ** Changing one parent *)

Definition upd (d : Z -> Z) (p new b : Z) : Z := if b =? p then new else d b.

Section Update.
Context (d : Z -> Z) (T : tree d) (p new : Z).
Context (Np : p <> e) (Rp : R p) (Sn : 0 <= d new) (Fn : tc fwd new p).
Abbreviation d' := (upd d p new).

Lemma upd_same : d' p = new.
Proof. unfold upd. by rewrite Z.eqb_refl. Qed.

Lemma upd_other b : b <> p -> d' b = d b.
Proof. unfold upd. by intros ->%Z.eqb_neq. Qed.

Lemma new_rank : rank new < rank p.
Proof. by apply tc_fwd_rank. Qed.

Lemma upd_set b : 0 <= d' b <-> 0 <= d b \/ b = p.
Proof.
  destruct (decide (b = p)) as [->|N]; [rewrite upd_same|rewrite upd_other by done; tauto].
  split; [by right|intros _]. by apply R_pos, (t_set d T).
Qed.

(** The part of a chain below [p] stays. *)
Lemma anc_upd_low b x : 0 <= d b -> anc d b x -> rank p <= rank x -> anc d' b x.
Proof.
  intros S A L. induction A as [b|b x N A IH]; [by apply anc_refl|].
  destruct (t_up d T b S N) as [S' _]. pose proof (anc_rank d T _ _ A S'). pose proof (up_rank d T b S N).
  apply anc_up; [done|]. rewrite upd_other by (intros ->; lia). by apply IH.
Qed.

(** A chain without [p] stays. *)
Lemma anc_upd_off b x : 0 <= d b -> ~ anc d b p -> anc d' b x <-> anc d b x.
Proof.
  intros S A. revert b S A. apply (set_ind d T (fun b => ~ anc d b p -> anc d' b x <-> anc d b x)).
  - intros _. split; intros H; (inversion H; subst; [by apply anc_refl|done]).
  - intros b S N IH A. assert (Nb : b <> p) by (intros ->; apply A, anc_refl).
    assert (A' : ~ anc d (d b) p) by (intros A'; by apply A, anc_up).
    specialize (IH A'). split; intros H; (inversion H; subst; [by apply anc_refl|apply anc_up; [done|]]).
    + apply IH. by rewrite <-(upd_other b Nb).
    + rewrite (upd_other b Nb). by apply IH.
Qed.

Lemma anc_upd_early b x : 0 <= d b -> rank b < rank p -> anc d' b x <-> anc d b x.
Proof. intros S L. apply anc_upd_off; [done|]. intros A. pose proof (anc_rank d T _ _ A S). lia. Qed.

(** Above [p] the chain is now that of [new]. *)
Lemma anc_upd_new x : anc d new x -> anc d' p x.
Proof. intros A. apply anc_up; [done|]. rewrite upd_same. apply anc_upd_early; [done|apply new_rank|done]. Qed.

Lemma anc_upd_high b x : 0 <= d b -> anc d b p -> anc d new x -> anc d' b x.
Proof. intros S A1 A2. eapply anc_trans; [by apply anc_upd_low|by apply anc_upd_new]. Qed.

Lemma anc_upd_inv b x : 0 <= d b -> anc d' b x -> anc d b x \/ (anc d b p /\ anc d new x).
Proof.
  intros S A. destruct (anc_dec d T b p S) as [P|P]; [|left; by apply anc_upd_off].
  revert P. induction A as [b|b x N A IH]; intros P; [left; by apply anc_refl|].
  destruct (decide (b = p)) as [->|Nb].
  - right. split; [done|]. rewrite upd_same in A. apply anc_upd_early in A; [done|done|apply new_rank].
  - rewrite upd_other in IH by done. destruct (t_up d T b S N) as [S' _].
    assert (P' : anc d (d b) p) by (by inversion P).
    destruct (IH S' P') as [H|[_ H]]; [left; by apply anc_up|by right].
Qed.

Lemma tree_upd : tree d'.
Proof.
  split.
  - rewrite upd_other by done. apply (t_root d T).
  - intros b [H| ->]%upd_set; [by apply (t_set d T)|done].
  - intros b Sb N. rewrite upd_set. destruct (decide (b = p)) as [->|Nb].
    + rewrite upd_same. split; [by left|done].
    + rewrite upd_other by done. apply upd_set in Sb as [Sb|]; [|done]. destruct (t_up d T b Sb N). auto.
Qed.
End Update.

(** ** The invariant of the iteration *)

(** [dom x b]: [x] dominates [b].  All that the iteration needs: it dominates the
    predecessors of [b], unless it is [b]. *)
Context (dom : Z -> Z -> Prop).
Context (dom_edge : forall x q b, dom x b -> x <> b -> edge q b -> R q -> dom x q).
Context (fwd_parent : forall b, R b -> b <> e -> exists q, fwd q b).

(** Before the block with index [i] is looked at.  The chains contain the dominators
    ([inv_dom]); the parent of a block bounds what the chains of its predecessors
    share ([inv_sub]); the chains of a block and of its forward predecessors agree,
    but for the part this round has not come to yet ([inv_fwd]). *)
Record inv (i : Z) (d : Z -> Z) : Prop := mk_inv {
  inv_tree : tree d;
  inv_done : forall q, R q -> rank q < i -> 0 <= d q;
  inv_prefix : forall b q, 0 <= d b -> R q -> rank q <= rank b -> 0 <= d q;
  inv_sub : forall b x, 0 <= d b -> b <> e -> (forall q, edge q b -> 0 <= d q -> anc d q x) -> anc d (d b) x;
  inv_fwd : forall b q y, 0 <= d b -> b <> e -> fwd q b -> anc d (d b) y -> rank b < i \/ i <= rank y -> anc d q y;
  inv_dom : forall b x, 0 <= d b -> dom x b -> anc d b x
}.

Lemma dom_fwd x p b : dom x b -> rtc fwd p b -> rank x < rank p -> dom x p.
Proof.
  intros D F L. revert b F D. refine (rtc_ind_r (fun b => dom x b -> dom x p) p _ _); [done|].
  intros q b F (Ed & Rq & Rb & Lq) IH D. apply IH. pose proof (rtc_fwd_rank _ _ F). eapply dom_edge; [exact D| |done|done]. intros ->. lia.
Qed.

Section Step.
Context (i : Z) (d : Z -> Z) (I : inv i d) (p new : Z).
Context (Rp : R p) (Ip : rank p = i) (Np : p <> e) (Sn : 0 <= d new).
Context (glb : forall x, anc d new x <-> forall q, edge q p -> 0 <= d q -> anc d q x).
Abbreviation d' := (upd d p new).

Let T : tree d := inv_tree _ _ I.

Lemma step_fwd : tc fwd new p.
Proof.
  destruct (fwd_parent p Rp Np) as [q F]. pose proof F as (Ed & Rq & _ & L).
  assert (Sq : 0 <= d q) by (apply (inv_done _ _ I); [done|lia]).
  assert (A : anc d q new) by (apply glb; [apply anc_refl|done|done]).
  eapply tc_rtc_l; [by apply (anc_set d T q new)|by apply tc_once].
Qed.

Let Up := tree_upd d T p new Np Rp Sn step_fwd.

Lemma step_le x : 0 <= d p -> anc d new x -> anc d (d p) x.
Proof. intros Sp A. apply (inv_sub _ _ I p x Sp Np). by apply glb. Qed.

(** No chain gains a block. *)
Lemma step_mono b x : 0 <= d b -> anc d' b x -> anc d b x.
Proof.
  intros S A. destruct (anc_upd_inv d T p new Sn step_fwd b x S A) as [|[A1 A2]]; [done|].
  destruct (anc_set d T b p A1 S) as [Sp _]. eapply anc_trans; [exact A1|]. apply anc_up; [done|by apply step_le].
Qed.

(** The parent moves towards the entry. *)
Lemma step_measure : 0 <= d p -> d p <> new -> rank new < rank (d p).
Proof.
  intros Sp N. assert (A : anc d (d p) new) by (apply step_le; [done|apply anc_refl]).
  destruct (t_up d T p Sp Np) as [S' _]. pose proof (anc_rank d T _ _ A S').
  destruct (decide (rank (d p) <= rank new)) as [L|]; [|lia]. exfalso. apply N. symmetry. by apply (anc_antisym d T).
Qed.

Lemma step_done q : R q -> rank q < i + 1 -> 0 <= d' q.
Proof.
  intros Rq L. apply (upd_set d T); [done|]. destruct (decide (q = p)) as [|N]; [by right|left].
  apply (inv_done _ _ I q Rq). destruct (decide (rank q = i)) as [E|]; [|lia]. exfalso. apply N, rank_inj; congruence.
Qed.

Lemma step_sub b x :
  0 <= d' b -> b <> e -> (forall q, edge q b -> 0 <= d' q -> anc d' q x) -> anc d' (d' b) x.
Proof.
  intros S N H. pose proof step_fwd as Fn.
  assert (H' : forall q, edge q b -> 0 <= d q -> anc d q x).
  { intros q Ed Sq. apply step_mono; [done|]. apply H; [done|]. apply (upd_set d T); [done|by left]. }
  destruct (decide (b = p)) as [->|Nb].
  { rewrite upd_same. apply (anc_upd_early d T p new); [done|by apply tc_fwd_rank|]. by apply glb. }
  apply (upd_set d T) in S as [S|]; [|done|done]. rewrite (upd_other _ _ _ _ Nb).
  destruct (t_up d T b S N) as [S' _].
  assert (A : anc d (d b) x) by (by apply (inv_sub _ _ I b x S N)).
  destruct (anc_dec d T (d b) p S') as [P|P]; [|by apply (anc_upd_off d T)].
  destruct (decide (rank p <= rank x)) as [L|L]; [by apply (anc_upd_low d T)|].
  destruct (fwd_parent b (t_set d T b S) N) as [q F]. pose proof F as (Ed & Rq & _ & Lq).
  assert (Sq : 0 <= d q) by (apply (inv_prefix _ _ I b q S Rq); lia).
  assert (Aq : anc d q p) by (apply (inv_fwd _ _ I b q p S N F P); right; lia).
  assert (Sq' : 0 <= d' q) by (apply (upd_set d T); [done|by left]).
  apply (anc_trans _ _ p); [by apply (anc_upd_low d T)|].
  apply (anc_linear d' Up q x p Sq'); [by apply (anc_upd_low d T)|by apply H|lia].
Qed.

Lemma step_inv_fwd b q y :
  0 <= d' b -> b <> e -> fwd q b -> anc d' (d' b) y -> rank b < i + 1 \/ i + 1 <= rank y -> anc d' q y.
Proof.
  intros S N F A C. pose proof F as (Ed & Rq & Rb & Lq). pose proof step_fwd as Fn.
  destruct (decide (b = p)) as [->|Nb].
  { rewrite upd_same in A. apply (anc_upd_early d T p new) in A; [|done|by apply tc_fwd_rank].
    assert (Sq : 0 <= d q) by (apply (inv_done _ _ I); [done|lia]).
    apply (anc_upd_early d T p new); [done|lia|]. by apply glb. }
  apply (upd_set d T) in S as [S|]; [|done|done]. rewrite (upd_other _ _ _ _ Nb) in A.
  destruct (t_up d T b S N) as [S' _]. pose proof (up_rank d T b S N).
  assert (Sq : 0 <= d q) by (apply (inv_prefix _ _ I b q S Rq); lia).
  assert (rank b <> i) by (intros E; apply Nb, rank_inj; congruence).
  apply step_mono in A; [|done].
  assert (Aq : anc d q y) by (apply (inv_fwd _ _ I b q y S N F A); lia).
  destruct C as [C|C]; [apply (anc_upd_early d T p new); [done|lia|done]|].
  apply (anc_upd_low d T); [done|done|done|lia].
Qed.

Lemma step_dom_p x : dom x p -> x <> p -> anc d new x.
Proof. intros D N. apply glb. intros q Ed Sq. apply (inv_dom _ _ I q x Sq). apply (dom_edge x q p); [done|done|done|by apply (t_set d T)]. Qed.

Lemma step_inv_dom b x : 0 <= d' b -> dom x b -> anc d' b x.
Proof.
  intros S D. pose proof step_fwd as Fn. destruct (decide (b = p)) as [->|Nb].
  { destruct (decide (x = p)) as [->|Nx]; [apply anc_refl|]. apply (anc_upd_new d T p new); [done..|by apply step_dom_p]. }
  apply (upd_set d T) in S as [S|]; [|done|done]. pose proof (inv_dom _ _ I b x S D) as A.
  destruct (anc_dec d T b p S) as [P|P]; [|by apply (anc_upd_off d T)].
  destruct (decide (rank p <= rank x)) as [L|L]; [by apply (anc_upd_low d T)|].
  apply (anc_upd_high d T p new); [done..|]. apply step_dom_p; [|intros ->; lia].
  apply (dom_fwd x p b D); [by apply (anc_set d T b p)|lia].
Qed.

Lemma dom_step_inv : inv (i + 1) d'.
Proof.
  split; [exact Up|exact step_done| |exact step_sub|exact step_inv_fwd|exact step_inv_dom].
  intros b q S Rq L. apply (upd_set d T) in S as [S| ->]; [|apply step_done; [done|lia]|done].
  apply (upd_set d T); [done|]. left. by apply (inv_prefix _ _ I b q).
Qed.
End Step.

(** The next round starts over. *)
Lemma inv_restart i d : (forall b, R b -> rank b < i) -> inv i d -> inv 1 d.
Proof.
  intros All I. split; try apply I.
  - intros q Rq L. apply (inv_done _ _ I q Rq). by apply All.
  - intros b q y S N F A _. apply (inv_fwd _ _ I b q y S N F A). left. apply All, (t_set d (inv_tree _ _ I) b S).
Qed.
End Chains.

(** Parents that agree everywhere have the same chains. *)
Section Ext.
Context (e : Z) (R : Z -> Prop) (rank : Z -> Z) (edge dom : Z -> Z -> Prop).

#[local] Instance anc_proper : Proper (pointwise_relation Z eq ==> eq ==> eq ==> iff) (anc e).
Proof.
  assert (H : forall d1 d2, (forall b, d1 b = d2 b) -> forall b x, anc e d1 b x -> anc e d2 b x).
  { intros d1 d2 E b x A. induction A as [b|b x N A IH]; [apply anc_refl|]. apply anc_up; [done|]. by rewrite <-E. }
  intros d1 d2 E b ? <- x ? <-. split; apply H; [apply E|]. intros c. symmetry. apply E.
Qed.

#[local] Instance tree_proper : Proper (pointwise_relation Z eq ==> impl) (tree e R rank edge).
Proof.
  intros d1 d2 E [H1 H2 H3]. split; intros; rewrite <-?E in *; [done|by apply H2|by apply H3].
Qed.

Lemma inv_ext i d1 d2 : (forall b, d1 b = d2 b) -> inv e R rank edge dom i d1 -> inv e R rank edge dom i d2.
Proof.
  intros E. assert (A : forall b x, anc e d1 b x <-> anc e d2 b x) by (intros b x; by apply anc_proper).
  intros [H1 H2 H3 H4 H5 H6]. split.
  - by apply (tree_proper d1).
  - intros q. rewrite <-E. apply H2.
  - intros b q. rewrite <-!E. apply H3.
  - intros b x. rewrite <-E, <-A. intros S N H. apply H4; [done|done|]. intros q Ed Sq. apply A, H; [done|by rewrite <-E].
  - intros b q y. rewrite <-E, <-!A. apply H5.
  - intros b x. rewrite <-E, <-A. apply H6.
Qed.
End Ext.

(** ** The arrays hold such parents *)

Definition at_ (l : list Z) (b : Z) : Z := default (-1) (rd l b).

Lemma rd_at l b : 0 <= b < zlen l -> rd l b = Some (at_ l b).
Proof.
  intros H. unfold at_, rd. destruct (Z.ltb_spec b 0); [lia|].
  destruct (l !! Z.to_nat b) eqn:E; [done|]. apply lookup_ge_None in E. unfold zlen in H. lia.
Qed.

Lemma at_insert l p v b : 0 <= p < zlen l -> at_ (<[Z.to_nat p := v]> l) b = upd (at_ l) p v b.
Proof.
  unfold at_, rd, upd, zlen. intros H. destruct (Z.ltb_spec b 0); [by destruct (Z.eqb_spec b p); [lia|]|].
  destruct (Z.eqb_spec b p) as [->|N]; [by rewrite list_lookup_insert_eq by lia|].
  by rewrite list_lookup_insert_ne by lia.
Qed.

Lemma sum_list_lt {A} (g h : A -> nat) (l : list A) x :
  x ∈ l -> (forall y, y ∈ l -> (g y <= h y)%nat) -> (g x < h x)%nat -> (sum_list_with g l < sum_list_with h l)%nat.
Proof.
  intros Hx Le Lt. assert (L : forall l, (forall y, y ∈ l -> (g y <= h y)%nat) -> (sum_list_with g l <= sum_list_with h l)%nat).
  { clear. induction l as [|y l IH]; intros H; cbn; [done|]. pose proof (H y ltac:(left)).
    specialize (IH (fun z Hz => H z ltac:(by right))). lia. }
  apply list_elem_of_split in Hx as (l1 & l2 & ->). rewrite !sum_list_with_app. cbn.
  pose proof (L l1 (fun y Hy => Le y ltac:(apply elem_of_app; by left))).
  pose proof (L l2 (fun y Hy => Le y ltac:(apply elem_of_app; right; by right))). lia.
Qed.

Section Concrete.
Context (f : PcodeFunc) (rpo ix : list Z) (O : rpo_ok f rpo ix) (G : graph_ok f).
Abbreviation e := (start_block f).
Abbreviation R := (fun b => b ∈ rpo).
Abbreviation rank := (at_ ix).
Abbreviation edge := (fun q b => in_range f b /\ q ∈ preds_of f b).

Lemma R_range b : b ∈ rpo -> in_range f b.
Proof. intros H%(rpo_reach _ _ _ O). by eapply reaches_range. Qed.

Lemma rank_index i b : rpo !! i = Some b -> rank b = Z.of_nat i.
Proof.
  intros H. pose proof (R_range b ltac:(by eapply list_elem_of_lookup_2)) as [L _].
  unfold at_, rd. destruct (Z.ltb_spec b 0); [lia|]. by rewrite (rpo_index _ _ _ O i b H).
Qed.

Lemma rank_rd b : b ∈ rpo -> rd ix b = Some (rank b).
Proof. intros [H1 H2]%R_range. apply rd_at. unfold zlen. rewrite (rpo_length _ _ _ O). done. Qed.

Lemma rank_lookup b : b ∈ rpo -> exists i, rpo !! i = Some b /\ rank b = Z.of_nat i /\ (i < length rpo)%nat.
Proof.
  intros [i H]%list_elem_of_lookup. exists i. split_and!; [done|by apply rank_index|by eapply lookup_lt_Some].
Qed.

Lemma rpo_size : (length rpo <= length (blocks f))%nat.
Proof.
  assert (S : rpo ⊆+ seqZ 0 (num_blocks f)).
  { apply NoDup_submseteq; [apply O|]. intros b H%R_range. apply elem_of_seqZ. unfold in_range in H. lia. }
  apply submseteq_length in S. rewrite length_seqZ in S. unfold num_blocks, zlen in S. lia.
Qed.

Lemma rank_pos b : b ∈ rpo -> 0 <= rank b.
Proof. intros (i & _ & -> & _)%rank_lookup. lia. Qed.

Lemma rank_bound b : b ∈ rpo -> rank b < num_blocks f.
Proof. intros (i & _ & -> & L)%rank_lookup. pose proof rpo_size. unfold num_blocks, zlen. lia. Qed.

Lemma rank_inj a b : a ∈ rpo -> b ∈ rpo -> rank a = rank b -> a = b.
Proof. intros (i & Hi & -> & _)%rank_lookup (j & Hj & -> & _)%rank_lookup E. replace j with i in Hj by lia. congruence. Qed.

Lemma e_head : rpo !! 0%nat = Some e.
Proof. pose proof (rpo_head _ _ _ O). by destruct rpo. Qed.

Lemma e_in : e ∈ rpo.
Proof. eapply list_elem_of_lookup_2, e_head. Qed.

Lemma rank_e : rank e = 0.
Proof. by rewrite (rank_index 0 e e_head). Qed.

Lemma e_pos : 0 <= e.
Proof. unfold start_block. lia. Qed.

Lemma fwd_parent b : b ∈ rpo -> b <> e -> exists q, fwd R rank edge q b.
Proof.
  intros Hb N. pose proof Hb as (i & Hi & Ei & _)%rank_lookup.
  destruct (rpo_parent _ _ _ O i b Hi N) as (j & q & Hj & Hq & Hs).
  assert (Rq : q ∈ rpo) by (by eapply list_elem_of_lookup_2). exists q.
  split_and!; [by apply R_range|apply (g_edges _ G); [by apply R_range..|done]|done|done|]. rewrite (rank_index j q Hq). lia.
Qed.

(** *** Walks *)

Lemma walk_range a b l : walk f a (b :: l) -> in_range f b.
Proof. by inversion 1. Qed.

Lemma walk_reaches a l : walk f a l -> forall b l', l = b :: l' -> reaches f a b.
Proof.
  induction 1 as [R|l b c W IH S R]; intros b' l' [= <- <-]; [by apply reaches_refl|].
  eapply reaches_step; [by eapply IH|done|done].
Qed.

Lemma reaches_walk a b : reaches f a b -> exists l, walk f a (b :: l).
Proof.
  induction 1 as [R|b c _ [l IH] S R]; [exists []; by apply walk_start|]. exists (b :: l). by apply walk_edge.
Qed.

Lemma dominates_edge x q b : dominates f x b -> x <> b -> edge q b -> q ∈ rpo -> dominates f x q.
Proof.
  intros D N [Rb Ed] Rq l W. assert (W' : walk f e (b :: q :: l)).
  { apply walk_edge; [done| |done]. apply (g_edges _ G); [by apply R_range|done|done]. }
  specialize (D _ W'). by apply elem_of_cons in D as [->|D].
Qed.

Abbreviation Inv := (inv e R rank edge (dominates f)).
Abbreviation Tree := (tree e R rank edge).
Abbreviation Anc := (anc e).

(** *** The two fingers meet at the last common ancestor *)

Section Fingers.
Context (idom : list Z) (L : length idom = length (blocks f)) (T : Tree (at_ idom)).
Abbreviation d := (at_ idom).

Lemma d_rd b : b ∈ rpo -> rd idom b = Some (d b).
Proof. intros [H1 H2]%R_range. apply rd_at. unfold zlen. rewrite L. done. Qed.

Lemma climb_spec fuel first second :
  0 <= d first -> second ∈ rpo -> (Z.to_nat (rank first) <= fuel)%nat ->
  exists c, climb ix fuel idom first second = Some (Some c) /\ Anc d first c /\ 0 <= d c /\ rank c <= rank second /\
    forall x, Anc d first x -> rank x <= rank second -> Anc d c x.
Proof.
  revert first; induction fuel as [|fuel IH]; intros a Sa Rb F; cbn [climb];
    pose proof (t_set _ _ _ _ _ T a Sa) as Ra; pose proof (rank_pos a Ra); pose proof (rank_pos second Rb);
    rewrite (rank_rd a Ra), (rank_rd second Rb); cbn -[climb]; (destruct (Z.ltb_spec (rank second) (rank a)) as [Lt|Ge];
      [|by exists a; split_and!; [done|apply anc_refl|done|lia|]]); [lia|].
  assert (N : a <> e) by (intros ->; rewrite rank_e in Lt; lia).
  destruct (t_up _ _ _ _ _ T a Sa N) as [Sp _]. pose proof (up_rank _ _ _ _ _ T a Sa N).
  rewrite (d_rd a Ra). cbn -[climb]. destruct (Z.ltb_spec (d a) 0) as [|_]; [lia|].
  destruct (IH (d a) Sp Rb) as (c & E & A & Sc & Lc & H'); [lia|]. exists c.
  split_and!; [done|by apply anc_up|done|done|]. intros x Ax Lx. apply H'; [|done]. inversion Ax; subst; [lia|done].
Qed.

(** The last common ancestor. *)
Definition meet (a b c : Z) : Prop := 0 <= d c /\ forall x, Anc d c x <-> Anc d a x /\ Anc d b x.

Lemma climb_meet a b c x :
  0 <= d a -> 0 <= d b -> Anc d a c -> (forall x, Anc d a x -> rank x <= rank b -> Anc d c x) ->
  Anc d a x /\ Anc d b x <-> Anc d c x /\ Anc d b x.
Proof.
  intros Sa Sb A H. split; intros [H1 H2]; (split; [|done]).
  - apply H; [done|]. by apply (anc_rank _ _ _ _ _ T).
  - by eapply anc_trans.
Qed.

Lemma intersect_loop_spec guard a b :
  0 <= d a -> 0 <= d b -> (Z.to_nat (rank a) + Z.to_nat (rank b) < guard)%nat ->
  exists c, intersect_loop f ix guard idom a b = Some c /\ meet a b c.
Proof.
  revert a b; induction guard as [|guard IH]; intros a b Sa Sb Lg; [lia|]. cbn [intersect_loop].
  destruct (Z.eqb_spec a b) as [->|N]; [exists b; split; [done|split; [done|tauto]]|].
  pose proof (t_set _ _ _ _ _ T a Sa) as Ra. pose proof (t_set _ _ _ _ _ T b Sb) as Rb.
  pose proof (R_range a Ra) as Ia. pose proof (R_range b Rb) as Ib. unfold in_range in Ia, Ib.
  pose proof (rank_pos a Ra). pose proof (rank_pos b Rb). pose proof (rank_bound a Ra). pose proof (rank_bound b Rb).
  assert (rank a <> rank b) by (intros E; by apply N, rank_inj).
  replace ((a <? 0) || (b <? 0) || (num_blocks f <=? a) || (num_blocks f <=? b)) with false
    by (symmetry; rewrite !orb_false_iff, !Z.ltb_ge, !Z.leb_gt; lia).
  rewrite (rank_rd a Ra), (rank_rd b Rb). cbn -[climb intersect_loop].
  replace ((rank a <? 0) || (rank b <? 0)) with false by (symmetry; rewrite !orb_false_iff, !Z.ltb_ge; lia).
  destruct (climb_spec (length (blocks f)) a b Sa Rb) as (c & -> & A1 & Sc & L1 & M1);
    [unfold num_blocks, zlen in *; lia|]. cbn -[climb intersect_loop].
  pose proof (t_set _ _ _ _ _ T c Sc) as Rc. pose proof (rank_pos c Rc).
  destruct (climb_spec (length (blocks f)) b c Sb Rc) as (c2 & -> & A2 & Sc2 & L2 & M2);
    [unfold num_blocks, zlen in *; lia|]. cbn -[intersect_loop].
  pose proof (rank_pos c2 (t_set _ _ _ _ _ T c2 Sc2)).
  pose proof (anc_rank _ _ _ _ _ T _ _ A1 Sa). pose proof (anc_rank _ _ _ _ _ T _ _ A2 Sb).
  destruct (IH c c2 Sc Sc2) as (c3 & E & S3 & M); [lia|]. exists c3. split; [done|]. split; [done|].
  intros x. rewrite M. rewrite (climb_meet a b c x Sa Sb A1 M1).
  pose proof (climb_meet b c c2 x Sb Sc A2 M2). tauto.
Qed.

Lemma intersect_spec a b : 0 <= d a -> 0 <= d b -> exists c, intersect f ix idom a b = Some c /\ meet a b c.
Proof.
  intros Sa Sb. apply intersect_loop_spec; [done|done|].
  pose proof (rank_bound a (t_set _ _ _ _ _ T a Sa)). pose proof (rank_bound b (t_set _ _ _ _ _ T b Sb)).
  unfold num_blocks, zlen in *. lia.
Qed.

(** The predecessors looked at so far share exactly the chain of [new]. *)
Definition shares (qs : list Z) (new : Z) : Prop :=
  (new = -1 /\ forall q, q ∈ qs -> ~ (0 <= d q)) \/
  (0 <= d new /\ forall x, Anc d new x <-> forall q, q ∈ qs -> 0 <= d q -> Anc d q x).

Lemma at_out q : ~ in_range f q -> d q = -1.
Proof.
  unfold in_range, num_blocks, zlen, at_, rd. intros H. destruct (Z.ltb_spec q 0); [done|].
  by rewrite lookup_ge_None_2 by lia.
Qed.

Lemma new_idom_step_spec qs new q :
  shares qs new -> exists new', new_idom_step f ix idom new q = Some new' /\ shares (qs ++ [q]) new'.
Proof.
  intros H. unfold new_idom_step.
  assert (Skip : ~ (0 <= d q) -> shares (qs ++ [q]) new).
  { intros Sq. destruct H as [[-> H]|[Sn H]]; [left; split; [done|]|right; split; [done|intros x; rewrite H]].
    - intros q' [Hq| ->%list_elem_of_singleton]%elem_of_app; [by apply H|done].
    - split; intros A q' Hq; [|apply A, elem_of_app; by left].
      apply elem_of_app in Hq as [Hq| ->%list_elem_of_singleton]; [by apply A|]. intros Sq'. by destruct Sq. }
  destruct ((q <? 0) || (num_blocks f <=? q)) eqn:B.
  { exists new. split; [done|]. apply Skip. rewrite at_out; [lia|].
    intros [H1 H2]. rewrite orb_true_iff, Z.ltb_lt, Z.leb_le in B. lia. }
  rewrite orb_false_iff, Z.ltb_ge, Z.leb_gt in B. rewrite rd_at by (unfold zlen; rewrite L; exact B). cbn -[intersect].
  destruct (Z.ltb_spec (d q) 0) as [Lq|Sq]; [exists new; split; [done|apply Skip; lia]|].
  destruct H as [[-> H]|[Sn H]]; cbn -[intersect].
  - exists q. split; [done|]. right. split; [done|]. intros x. split.
    + intros A q' [Hq| ->%list_elem_of_singleton]%elem_of_app Sq'; [by apply H in Hq|done].
    + intros A. apply A; [apply elem_of_app; right; by left|done].
  - assert (0 <= new) by (apply (R_range new), (t_set _ _ _ _ _ T new Sn)).
    destruct (Z.ltb_spec new 0); [lia|]. destruct (intersect_spec q new Sq Sn) as (c & -> & Sc & M).
    exists c. split; [done|]. right. split; [done|]. intros x. rewrite M, H. split.
    + intros [A1 A2] q' [Hq| ->%list_elem_of_singleton]%elem_of_app; [by apply A2|done].
    + intros A. split; [apply A; [apply elem_of_app; right; by left|done]|].
      intros q' Hq. apply A, elem_of_app. by left.
Qed.

Lemma new_idom_spec b q :
  q ∈ preds_of f b -> 0 <= d q ->
  exists new, new_idom f ix idom b = Some new /\ 0 <= d new /\
    forall x, Anc d new x <-> forall q, q ∈ preds_of f b -> 0 <= d q -> Anc d q x.
Proof.
  intros Hq Sq. unfold new_idom.
  destruct (foldM_inv (new_idom_step f ix idom) (fun l new => exists qs, preds_of f b = qs ++ l /\ shares qs new)
    (preds_of f b) (-1)) as (new & E & qs & Eq & S).
  - intros q' l new (qs & Eq & S). destruct (new_idom_step_spec qs new q' S) as (new' & E & S').
    exists new'. split; [done|]. exists (qs ++ [q']). by rewrite <-app_assoc.
  - exists []. split; [done|]. left. split; [done|]. by intros ? ?%not_elem_of_nil.
  - exists new. split; [done|]. rewrite app_nil_r in Eq. rewrite Eq in *. destruct S as [[_ S]|S]; [by apply S in Hq|done].
Qed.
End Fingers.

(** *** A round keeps the invariant and moves parents up *)

(** A parent that has been found counts its index, another one more than any index. *)
Definition weight (idom : list Z) (b : Z) : nat :=
  if at_ idom b <? 0 then length (blocks f) else Z.to_nat (rank (at_ idom b)).

Definition mu (idom : list Z) : nat := sum_list_with (weight idom) rpo.

Lemma mu_bound idom : Tree (at_ idom) -> (mu idom <= length (blocks f) * length (blocks f))%nat.
Proof.
  intros T. assert (H : forall l, (forall b, b ∈ l -> b ∈ rpo) -> (sum_list_with (weight idom) l <= length l * length (blocks f))%nat).
  { induction l as [|b l IH]; intros Hl; cbn; [lia|]. specialize (IH (fun x Hx => Hl x ltac:(by right))).
    assert (weight idom b <= length (blocks f))%nat; [|lia]. unfold weight.
    destruct (Z.ltb_spec (at_ idom b) 0) as [|S]; [lia|].
    assert (Rd : at_ idom b ∈ rpo).
    { destruct (decide (b = e)) as [->|N]; [rewrite (t_root _ _ _ _ _ T); apply e_in|].
      apply (t_set _ _ _ _ _ T). by apply (t_up _ _ _ _ _ T b). }
    pose proof (rank_bound _ Rd). unfold num_blocks, zlen in *. lia. }
  specialize (H rpo (fun _ h => h)). fold (mu idom) in H. pose proof rpo_size. nia.
Qed.

(** The parent of [b] is what the loop over its predecessors gives. *)
Definition fixed (idom : list Z) (b : Z) : Prop :=
  0 <= at_ idom b /\
  forall x, Anc (at_ idom) (at_ idom b) x <->
            forall q, q ∈ preds_of f b -> 0 <= at_ idom q -> Anc (at_ idom) q x.

Definition pass_inv (idom0 : list Z) (k : nat) (done : list Z) (st : list Z * bool) : Prop :=
  length st.1 = length (blocks f) /\ Inv (Z.of_nat k) (at_ st.1) /\
  ((st = (idom0, false) /\ Forall (fixed idom0) done) \/ (st.2 = true /\ (mu st.1 < mu idom0)%nat)).

Lemma dom_step_spec idom0 k done st p :
  (1 <= k)%nat -> rpo !! k = Some p -> pass_inv idom0 k done st ->
  exists st', dom_step f ix st p = Some st' /\ pass_inv idom0 (S k) (done ++ [p]) st'.
Proof.
  intros Hk Hp (L & I & C). destruct st as [idom ch]. cbn [fst snd] in *.
  assert (Rp : p ∈ rpo) by (by eapply list_elem_of_lookup_2). pose proof (rank_index k p Hp) as Kp.
  pose proof (inv_tree _ _ _ _ _ _ _ I) as T. pose proof (R_range p Rp) as Ip.
  assert (Np : p <> e) by (intros ->; rewrite rank_e in Kp; lia).
  destruct (fwd_parent p Rp Np) as (q & [_ Ed] & Rq & _ & Lq).
  assert (Sq : 0 <= at_ idom q) by (apply (inv_done _ _ _ _ _ _ _ I q Rq); lia).
  destruct (new_idom_spec idom L T p q Ed Sq) as (new & En & Sn & glb).
  unfold dom_step. cbn [fst snd]. rewrite En. cbn [mbind option_bind].
  assert (Ip' : 0 <= p < zlen idom) by (unfold zlen; rewrite L; exact Ip). rewrite (rd_at idom p Ip').
  cbn [mbind option_bind]. pose proof (R_range new (t_set _ _ _ _ _ T new Sn)) as [Hnew _].
  destruct (Z.leb_spec 0 new); [|lia].
  assert (glb' : forall x, Anc (at_ idom) new x <-> forall q, edge q p -> 0 <= at_ idom q -> Anc (at_ idom) q x).
  { intros x. rewrite glb. split; intros H' q'; [intros [_ Hq']; by apply H'|intros Hq'; by apply H']. }
  pose proof (dom_step_inv e R rank edge (fun b Hb => proj1 (R_range b Hb)) rank_pos rank_inj (dominates f)
    dominates_edge fwd_parent _ _ I p new Rp Kp Np Sn glb') as I'.
  replace (Z.of_nat (S k)) with (Z.of_nat k + 1) in * by lia. unfold pass_inv. replace (Z.of_nat (S k)) with (Z.of_nat k + 1) by lia.
  destruct (Z.eqb_spec (at_ idom p) new) as [E|E]; cbn [negb andb].
  - exists (idom, ch). split; [done|]. split_and!; [done| |].
    + eapply inv_ext; [|exact I']. intros b. unfold upd. cbn [fst]. by destruct (Z.eqb_spec b p) as [->|].
    + destruct C as [[[= -> ->] F]|C]; [left|by right]. split; [done|]. apply Forall_app. split; [done|].
      apply Forall_singleton. split; [rewrite E; lia|by rewrite E].
  - eexists. split; [done|]. split_and!; [cbn; by rewrite length_insert| |right; split; [done|]].
    + eapply inv_ext; [|exact I']. intros b. symmetry. by apply at_insert.
    + cbn [fst]. assert (M : (mu (<[Z.to_nat p:=new]> idom) < mu idom)%nat).
      { assert (W : (weight (<[Z.to_nat p:=new]> idom) p < weight idom p)%nat).
        { unfold weight. rewrite !at_insert by done. unfold upd. rewrite Z.eqb_refl.
          destruct (Z.ltb_spec new 0); [lia|].
          pose proof (rank_bound new (t_set _ _ _ _ _ T new Sn)). unfold num_blocks, zlen in *.
          pose proof (rank_pos new (t_set _ _ _ _ _ T new Sn)).
          destruct (Z.ltb_spec (at_ idom p) 0) as [|Sp]; [lia|].
          pose proof (step_measure e R rank edge rank_inj (dominates f) _ _ I p new Np glb' Sp E). lia. }
        apply (sum_list_lt _ _ _ p Rp); [|done]. intros b _. destruct (decide (b = p)) as [->|N]; [lia|].
        unfold weight. rewrite !at_insert by done. by rewrite upd_other. }
      destruct C as [[[= -> ->] F]|[_ C]]; [done|lia].
Qed.

Lemma rank_last b : b ∈ rpo -> rank b < Z.of_nat (length rpo).
Proof. intros (i & _ & -> & H)%rank_lookup. lia. Qed.

Lemma rpo_cons : rpo = e :: tail rpo.
Proof. pose proof e_head. destruct rpo; [done|]. cbn in *. congruence. Qed.

Lemma dom_pass_spec idom :
  length idom = length (blocks f) -> Inv 1 (at_ idom) ->
  exists st, dom_pass f rpo ix idom = Some st /\ pass_inv idom (length rpo) (tail rpo) st.
Proof.
  intros L I. unfold dom_pass.
  destruct (foldM_inv (dom_step f ix) (fun l st => exists done, tail rpo = done ++ l /\ pass_inv idom (S (length done)) done st)
    (tail rpo) (idom, false)) as (st & E & done & Ed & H).
  - intros p l st (done & Ed & H). assert (Hp : rpo !! S (length done) = Some p).
    { rewrite rpo_cons, Ed. by apply list_lookup_middle. }
    destruct (dom_step_spec idom (S (length done)) done st p ltac:(lia) Hp H) as (st' & E & H').
    exists st'. split; [done|]. exists (done ++ [p]). rewrite <-app_assoc, length_app. split; [done|].
    cbn [length]. by rewrite Nat.add_1_r.
  - exists []. split; [done|]. split_and!; [done|done|]. left. by split.
  - exists st. split; [done|]. rewrite app_nil_r in Ed. subst done.
    replace (length rpo) with (S (length (tail rpo))) by (by rewrite rpo_cons). done.
Qed.

Lemma dom_loop_spec fuel idom :
  length idom = length (blocks f) -> Inv 1 (at_ idom) -> (mu idom < fuel)%nat ->
  exists idom', dom_loop f rpo ix fuel idom = Some idom' /\ length idom' = length (blocks f) /\
    Inv (Z.of_nat (length rpo)) (at_ idom') /\ Forall (fixed idom') (tail rpo).
Proof.
  revert idom; induction fuel as [|fuel IH]; intros idom L I M; [lia|]. cbn [dom_loop].
  destruct (dom_pass_spec idom L I) as ([idom1 ch] & -> & L1 & I1 & [[[= -> ->] F]|[C M1]]);
    cbn [mbind option_bind fst snd] in *; [|rewrite C].
  - by exists idom.
  - apply IH; [done| |lia]. by apply (inv_restart _ _ _ _ _ (Z.of_nat (length rpo)) _ rank_last).
Qed.

Definition init_idom : list Z := <[Z.to_nat e := e]> (replicate (length (blocks f)) (-1)).

Lemma init_at b : at_ init_idom b = if b =? e then e else -1.
Proof.
  unfold init_idom. pose proof (R_range e e_in) as Re. unfold in_range, num_blocks, zlen in Re.
  rewrite at_insert by (unfold zlen; rewrite length_replicate; exact Re). unfold upd.
  destruct (Z.eqb_spec b e) as [->|N]; [done|]. unfold at_, rd. destruct (b <? 0); [done|].
  destruct (replicate _ _ !! Z.to_nat b) as [x|] eqn:E; [|done]. by apply lookup_replicate in E as [-> _].
Qed.

Lemma init_set b : 0 <= at_ init_idom b -> b = e.
Proof. rewrite init_at. destruct (Z.eqb_spec b e); [done|lia]. Qed.

Lemma dom_init_inv : Inv 1 (at_ init_idom).
Proof.
  assert (Se : 0 <= at_ init_idom e) by (rewrite init_at, Z.eqb_refl; apply e_pos).
  assert (First : forall q, q ∈ rpo -> rank q <= 0 -> q = e).
  { intros q Rq Lq. apply rank_inj; [done|apply e_in|]. pose proof (rank_pos q Rq). rewrite rank_e. lia. }
  split.
  - split; [by rewrite init_at, Z.eqb_refl|intros b ->%init_set; apply e_in|by intros b ->%init_set].
  - intros q Rq Lq. by rewrite (First q Rq ltac:(lia)).
  - intros b q ->%init_set Rq Lq. rewrite rank_e in Lq. by rewrite (First q Rq Lq).
  - by intros b x ->%init_set.
  - by intros b q y ->%init_set.
  - intros b x ->%init_set D. specialize (D [] (walk_start f e (R_range e e_in))).
    apply list_elem_of_singleton in D as ->. apply anc_refl.
Qed.

(** *** At the end the chains are the dominators *)

Section Final.
Context (idom : list Z) (I : Inv (Z.of_nat (length rpo)) (at_ idom)) (F : Forall (fixed idom) (tail rpo)).
Abbreviation d := (at_ idom).

Lemma all_set b : b ∈ rpo -> 0 <= d b.
Proof. intros H. apply (inv_done _ _ _ _ _ _ _ I b H). by apply rank_last. Qed.

Lemma anc_dominates b x : b ∈ rpo -> Anc d b x -> dominates f x b.
Proof.
  intros _ A l W. remember (b :: l) as w eqn:E. revert b l E x A.
  induction W as [Re|l q c W IH Hs Rc]; intros b' l' [= <- <-] x A.
  - inversion A; subst; [by left|done].
  - inversion A as [|? ? N A']; subst; [by left|]. right. eapply IH; [done|].
    assert (Hq : q ∈ rpo) by (apply (rpo_reach _ _ _ O); by eapply walk_reaches).
    assert (Hc : c ∈ tail rpo).
    { assert (Hc : c ∈ rpo) by (apply (rpo_reach _ _ _ O); eapply reaches_step; [by eapply walk_reaches|done|done]).
      rewrite rpo_cons in Hc. by apply elem_of_cons in Hc as [|]. }
    apply (proj1 (Forall_forall _ _) F c Hc); [done| |by apply all_set]. apply (g_edges _ G); [by apply R_range|done|done].
Qed.

Lemma anc_dominates_iff b x : b ∈ rpo -> Anc d b x <-> dominates f x b.
Proof. intros H. split; [by apply anc_dominates|]. intros D. apply (inv_dom _ _ _ _ _ _ _ I); [by apply all_set|done]. Qed.
End Final.

(** What the parent array is at the end. *)
Record idom_ok (idom : list Z) : Prop := mk_idom_ok {
  idom_length : length idom = length (blocks f);
  idom_tree : Tree (at_ idom);
  idom_set : forall b, b ∈ rpo -> 0 <= at_ idom b;
  idom_anc : forall b x, b ∈ rpo -> Anc (at_ idom) b x <-> dominates f x b
}.

Lemma compute_dominators_ok : exists idom, compute_dominators f rpo ix = Some idom /\ idom_ok idom.
Proof.
  assert (L0 : length init_idom = length (blocks f)) by (unfold init_idom; by rewrite length_insert, length_replicate).
  pose proof (mu_bound _ (inv_tree _ _ _ _ _ _ _ dom_init_inv)) as M.
  destruct (dom_loop_spec (S (length (blocks f) * length (blocks f))) _ L0 dom_init_inv) as (idom & E & L & I & F); [lia|].
  exists idom. split; [exact E|]. split; [done|apply I|by apply all_set|by apply anc_dominates_iff].
Qed.

Section Immediate.
Context (idom : list Z) (OK : idom_ok idom).
Abbreviation d := (at_ idom).

Lemma idom_rd b : in_range f b -> rd idom b = Some (d b).
Proof. intros H. apply rd_at. unfold zlen. rewrite (idom_length _ OK). exact H. Qed.

Lemma idom_e : d e = e.
Proof. by rewrite (t_root _ _ _ _ _ (idom_tree _ OK)). Qed.

Lemma idom_unset b : b ∉ rpo -> d b < 0.
Proof. intros N. destruct (Z.ltb_spec (d b) 0); [done|]. exfalso. by apply N, (t_set _ _ _ _ _ (idom_tree _ OK)). Qed.

Lemma idom_in b : b ∈ rpo -> d b ∈ rpo.
Proof.
  intros Rb. destruct (decide (b = e)) as [->|N]; [rewrite idom_e; apply e_in|].
  apply (t_set _ _ _ _ _ (idom_tree _ OK)). by apply (t_up _ _ _ _ _ (idom_tree _ OK) b (idom_set _ OK b Rb)).
Qed.

Lemma idom_rank b : b ∈ rpo -> b <> e -> rank (d b) < rank b.
Proof. intros Rb N. by apply (up_rank _ _ _ _ _ (idom_tree _ OK) b (idom_set _ OK b Rb)). Qed.

Lemma idom_dominates b : b ∈ rpo -> b <> e -> dominates f (d b) b.
Proof. intros Rb N. apply (idom_anc _ OK); [done|]. apply anc_up; [done|apply anc_refl]. Qed.

Lemma idom_closest b x : b ∈ rpo -> b <> e -> dominates f x b -> x <> b -> dominates f x (d b).
Proof. intros Rb N D Nx. apply (idom_anc _ OK) in D; [|done]. apply (idom_anc _ OK); [by apply idom_in|]. by inversion D. Qed.

Lemma dominates_e b : b ∈ rpo -> dominates f e b.
Proof.
  intros Rb. apply (idom_anc _ OK); [done|].
  apply (set_ind e R rank edge rank_pos _ (idom_tree _ OK) (fun b => Anc d b e)); [apply anc_refl| |by apply (idom_set _ OK)].
  intros b' _ N A. by apply anc_up.
Qed.

(** *** The children of a block *)

Lemma compute_children_spec :
  exists ch, compute_children f rpo idom = Some ch /\
    ch = (fun a => List.filter (fun b => negb (b =? e) && (d b =? a)) rpo) <$> seqZ 0 (num_blocks f).
Proof.
  destruct (foldM_inv (child_step f idom)
    (fun l ch => exists done, rpo = done ++ l /\
       ch = (fun a => List.filter (fun b => negb (b =? e) && (d b =? a)) done) <$> seqZ 0 (num_blocks f))
    rpo (replicate (length (blocks f)) [])) as (ch & E & done & Ed & H).
  - intros b l ch (done & Ed & ->). assert (Rb : b ∈ rpo) by (rewrite Ed; apply elem_of_app; right; by left).
    unfold child_step. destruct (Z.eqb_spec b e) as [->|N].
    { eexists. split; [done|]. exists (done ++ [e]). rewrite <-app_assoc. split; [done|].
      apply list_fmap_ext. intros _ a _. rewrite List.filter_app. cbn. by rewrite Z.eqb_refl, app_nil_r. }
    rewrite (idom_rd b (R_range b Rb)). cbn [mbind option_bind]. pose proof (idom_set _ OK b Rb) as Sb.
    pose proof (R_range _ (idom_in b Rb)) as [Dl Dh]. destruct (Z.ltb_spec (d b) 0); [lia|].
    unfold rd. destruct (Z.ltb_spec (d b) 0); [lia|]. unfold num_blocks, zlen in *.
    rewrite list_lookup_fmap, (proj2 (lookup_seqZ _ _ (Z.to_nat (d b)) (d b))) by lia. cbn [fmap option_fmap option_map mbind option_bind].
    eexists. split; [done|]. exists (done ++ [b]). rewrite <-app_assoc. split; [done|].
    apply list_eq. intros k. rewrite list_lookup_fmap.
    destruct (decide (k = Z.to_nat (d b))) as [->|Nk].
    + rewrite list_lookup_insert_eq by (rewrite length_fmap, length_seqZ; lia).
      rewrite (proj2 (lookup_seqZ _ _ (Z.to_nat (d b)) (d b))) by lia. cbn. f_equal.
      rewrite List.filter_app. cbn. destruct (Z.eqb_spec b e); [done|]. by rewrite Z.eqb_refl.
    + rewrite list_lookup_insert_ne by done. rewrite list_lookup_fmap.
      destruct (seqZ 0 _ !! k) as [a|] eqn:Ea; [|done]. cbn. f_equal. apply lookup_seqZ in Ea as [-> _].
      rewrite List.filter_app. cbn. destruct (Z.eqb_spec (d b) (0 + Z.of_nat k)); [lia|]. by rewrite andb_false_r, app_nil_r.
  - exists []. split; [done|]. apply list_eq. intros k. rewrite list_lookup_fmap.
    destruct (decide (k < length (blocks f))%nat) as [Lk|Lk].
    + rewrite lookup_replicate_2 by done. rewrite (proj2 (lookup_seqZ _ _ k (Z.of_nat k))); [done|]. unfold num_blocks, zlen. lia.
    + rewrite (lookup_ge_None_2 (replicate _ _)) by (rewrite length_replicate; lia).
      rewrite (lookup_ge_None_2 (seqZ _ _)) by (rewrite length_seqZ; unfold num_blocks, zlen; lia). done.
  - exists ch. split; [exact E|]. rewrite app_nil_r in Ed. by subst done.
Qed.

(** *** The frontiers *)

Definition in_frontier (df : list (list Z)) (a x : Z) : Prop := exists l, rd df a = Some l /\ x ∈ l.

Lemma push_spec df r b l :
  length df = length (blocks f) -> rd df r = Some l ->
  let df' := <[Z.to_nat r := l ++ [b]]> df in
  length df' = length (blocks f) /\ forall a x, in_frontier df' a x <-> in_frontier df a x \/ (x = b /\ a = r).
Proof.
  intros L E. split; [by rewrite length_insert|]. intros a x. unfold in_frontier, rd in *.
  destruct (Z.ltb_spec r 0); [done|]. pose proof (lookup_lt_Some _ _ _ E).
  destruct (Z.ltb_spec a 0) as [|Ha]; [split; [by intros (? & ? & ?)|intros [(? & ? & ?)|[_ ->]]; [done|lia]]|].
  destruct (decide (a = r)) as [->|N].
  - rewrite list_lookup_insert_eq by done. rewrite E. split.
    + intros (? & [= <-] & [Hx| ->%list_elem_of_singleton]%elem_of_app); [left; eauto|by right].
    + intros [(? & [= <-] & Hx)|[-> _]]; eexists; (split; [done|]); apply elem_of_app; [by left|right; by left].
  - rewrite list_lookup_insert_ne by lia. naive_solver.
Qed.

Lemma rd_some {A} (df : list A) r : length df = length (blocks f) -> in_range f r -> exists l, rd df r = Some l.
Proof.
  intros L [H1 H2]. unfold rd. destruct (Z.ltb_spec r 0); [lia|]. apply lookup_lt_is_Some. unfold num_blocks, zlen in *. lia.
Qed.

Lemma run_up_spec guard b db r df :
  length df = length (blocks f) -> r ∈ rpo -> db ∈ rpo -> Anc d r db -> (Z.to_nat (rank r) < guard)%nat ->
  exists df', run_up f guard idom b db r df = Some df' /\ length df' = length (blocks f) /\
    forall a x, in_frontier df' a x <-> in_frontier df a x \/ (x = b /\ Anc d r a /\ ~ Anc d db a).
Proof.
  revert r df; induction guard as [|guard IH]; intros r df L Rr Rdb A Lg; [lia|]. cbn [run_up].
  pose proof (idom_tree _ OK) as T. pose proof (R_range r Rr) as Ir. pose proof (rank_pos r Rr).
  destruct (Z.leb_spec 0 r) as [_|]; [|unfold in_range in Ir; lia]. cbn [andb].
  destruct (Z.eqb_spec r db) as [->|N]; cbn [negb].
  { exists df. split_and!; [done|done|]. intros a x. tauto. }
  assert (Ne : r <> e) by (intros ->; inversion A; subst; by apply N).
  destruct (rd_some df r L Ir) as [l El]. rewrite El. cbn [mbind option_bind].
  destruct (Z.ltb_spec r (num_blocks f)) as [_|]; [|unfold in_range in Ir; lia].
  rewrite (idom_rd r Ir). cbn [mbind option_bind]. pose proof (idom_rank r Rr Ne) as Lr.
  destruct (Z.eqb_spec (d r) r) as [E|_]; [rewrite E in Lr; lia|].
  destruct (push_spec df r b l L El) as [L' P]. pose proof (rank_pos _ (idom_in r Rr)).
  destruct (IH (d r) _ L' (idom_in r Rr) Rdb) as (df' & -> & L2 & H'); [by inversion A|lia|].
  exists df'. split_and!; [done|done|]. intros a x. rewrite H', P.
  assert (Dn : ~ Anc d db r).
  { intros A2. pose proof (anc_rank _ _ _ _ _ T _ _ A2 (idom_set _ OK _ Rdb)).
    pose proof (anc_antisym _ _ _ _ rank_inj _ T r db (idom_set _ OK _ Rr) A). apply N. symmetry. auto. }
  split.
  - intros [[H1|[-> ->]]|(-> & A2 & Na)]; [by left|right; split_and!; [done|apply anc_refl|done]|].
    right. split_and!; [done|by apply anc_up|done].
  - intros [H1|(-> & A2 & Na)]; [left; by left|]. inversion A2; subst; [left; right; done|right; done].
Qed.

(** What a predecessor [p] of [b] adds to the frontiers. *)
Definition adds (b p a : Z) : Prop :=
  (p ∈ rpo /\ Anc d p a /\ ~ Anc d (d b) a) \/ (p ∉ rpo /\ a = p).

Lemma run_up_adds b p df :
  length df = length (blocks f) -> b ∈ rpo -> p ∈ preds_of f b ->
  exists df', run_up f (S (length (blocks f))) idom b (d b) p df = Some df' /\ length df' = length (blocks f) /\
    forall a x, in_frontier df' a x <-> in_frontier df a x \/ (x = b /\ adds b p a).
Proof.
  intros L Rb Hp. pose proof (g_preds _ G b p (R_range b Rb) Hp) as Ip. unfold adds.
  destruct (decide (p ∈ rpo)) as [Rp|Np].
  - assert (A : Anc d p (d b)).
    { apply (idom_anc _ OK); [done|]. destruct (decide (b = e)) as [->|N]; [rewrite idom_e; by apply dominates_e|].
      apply (dominates_edge _ _ b); [by apply idom_dominates| |by split; [apply R_range|]|done].
      intros E. pose proof (idom_rank b Rb N) as Lr. rewrite E in Lr. lia. }
    pose proof (rank_bound p Rp). pose proof (rank_pos p Rp). unfold num_blocks, zlen in *.
    destruct (run_up_spec (S (length (blocks f))) b (d b) p df L Rp (idom_in b Rb) A) as (df' & E & L' & H'); [lia|].
    exists df'. split_and!; [done|done|]. intros a x. rewrite H'. tauto.
  - cbn [run_up]. destruct (Z.leb_spec 0 p) as [_|]; [|unfold in_range in Ip; lia]. cbn [andb].
    destruct (Z.eqb_spec p (d b)) as [E|_]; [exfalso; apply Np; rewrite E; by apply idom_in|]. cbn [negb].
    destruct (rd_some df p L Ip) as [l El]. rewrite El. cbn [mbind option_bind].
    destruct (Z.ltb_spec p (num_blocks f)) as [_|]; [|unfold in_range in Ip; lia].
    rewrite (idom_rd p Ip). cbn [mbind option_bind]. pose proof (idom_unset p Np).
    destruct (Z.eqb_spec (d p) p) as [E|_]; [unfold in_range in Ip; lia|].
    destruct (push_spec df p b l L El) as [L' P]. eexists. split; [|split; [exact L'|]].
    + destruct (length (blocks f)); cbn [run_up]; (destruct (Z.leb_spec 0 (d p)); [lia|done]).
    + intros a x. rewrite P. tauto.
Qed.

Lemma frontier_step_spec b df :
  length df = length (blocks f) -> in_range f b ->
  exists df', frontier_step f idom df b = Some df' /\ length df' = length (blocks f) /\
    forall a x, in_frontier df' a x <-> in_frontier df a x \/
      (x = b /\ b ∈ rpo /\ 2 <= zlen (preds_of f b) /\ exists p, p ∈ preds_of f b /\ adds b p a).
Proof.
  intros L Ib. unfold frontier_step. rewrite (idom_rd b Ib). cbn [mbind option_bind].
  destruct ((d b <? 0) || (zlen (preds_of f b) <? 2)) eqn:C.
  - exists df. split_and!; [done|done|]. intros a x. split; [by left|]. intros [|(_ & Rb & L2 & _)]; [done|].
    pose proof (idom_set _ OK b Rb). apply orb_true_iff in C as [C%Z.ltb_lt|C%Z.ltb_lt]; lia.
  - apply orb_false_iff in C as [C1%Z.ltb_ge C2%Z.ltb_ge].
    assert (Rb : b ∈ rpo) by (by apply (t_set _ _ _ _ _ (idom_tree _ OK))).
    destruct (foldM_inv (fun df p => run_up f (S (length (blocks f))) idom b (d b) p df)
      (fun l df' => exists done, preds_of f b = done ++ l /\ length df' = length (blocks f) /\
         forall a x, in_frontier df' a x <-> in_frontier df a x \/ (x = b /\ exists p, p ∈ done /\ adds b p a))
      (preds_of f b) df) as (df' & E & done & Ed & L' & H').
    + intros p l df1 (done & Ed & L1 & H1).
      destruct (run_up_adds b p df1 L1 Rb) as (df2 & E & L2 & H2); [rewrite Ed; apply elem_of_app; right; by left|].
      exists df2. split; [done|]. exists (done ++ [p]). rewrite <-app_assoc. split_and!; [done|done|].
      intros a x. rewrite H2, H1. setoid_rewrite elem_of_app. setoid_rewrite list_elem_of_singleton. naive_solver.
    + exists []. split_and!; [done|done|]. intros a x. split; [by left|]. intros [|(_ & p & Hp & _)]; [done|]. by apply not_elem_of_nil in Hp.
    + exists df'. split_and!; [done|done|]. rewrite app_nil_r in Ed. subst done. intros a x. rewrite H'. naive_solver.
Qed.

Lemma compute_frontiers_spec :
  exists df, compute_dom_frontiers f idom = Some df /\ length df = length (blocks f) /\
    forall a l, rd df a = Some l -> StronglySorted Z.lt l /\
      forall x, x ∈ l <-> x ∈ rpo /\ 2 <= zlen (preds_of f x) /\
        exists p, p ∈ preds_of f x /\
          ((p ∈ rpo /\ dominates f a p /\ ~ dominates f a (d x)) \/ (p ∉ rpo /\ a = p)).
Proof.
  unfold compute_dom_frontiers.
  destruct (foldM_inv (frontier_step f idom)
    (fun l df => exists done, seqZ 0 (num_blocks f) = done ++ l /\ length df = length (blocks f) /\
       forall a x, in_frontier df a x <->
         x ∈ done /\ x ∈ rpo /\ 2 <= zlen (preds_of f x) /\ exists p, p ∈ preds_of f x /\ adds x p a)
    (seqZ 0 (num_blocks f)) (replicate (length (blocks f)) [])) as (df & E & done & Ed & L & H).
  - intros b l df1 (done & Ed & L1 & H1). assert (Ib : in_range f b).
    { assert (Hb : b ∈ seqZ 0 (num_blocks f)) by (rewrite Ed; apply elem_of_app; right; by left).
      apply elem_of_seqZ in Hb. unfold in_range. lia. }
    destruct (frontier_step_spec b df1 L1 Ib) as (df2 & E & L2 & H2).
    exists df2. split; [done|]. exists (done ++ [b]). rewrite <-app_assoc. split_and!; [done|done|].
    intros a x. rewrite H2, H1, elem_of_app, list_elem_of_singleton. naive_solver.
  - exists []. split_and!; [done|by rewrite length_replicate|]. intros a x. split; [|by intros (?%not_elem_of_nil & _)].
    intros (l & E & Hx). unfold rd in E. destruct (a <? 0); [done|]. apply lookup_replicate in E as [-> _]. by apply not_elem_of_nil in Hx.
  - rewrite E. cbn. eexists. split; [done|]. split; [by rewrite length_fmap|]. rewrite app_nil_r in Ed. subst done.
    intros a l El. unfold rd in El. destruct (Z.ltb_spec a 0) as [|Ha]; [done|].
    rewrite list_lookup_fmap in El. apply fmap_Some in El as (l0 & E0 & ->).
    split; [apply sort_unique_sorted|]. intros x. rewrite elem_of_sort_unique.
    specialize (H a x). unfold in_frontier, rd in H. destruct (Z.ltb_spec a 0); [lia|]. rewrite E0 in H.
    transitivity (exists l, Some l0 = Some l /\ x ∈ l); [naive_solver|]. rewrite H. unfold adds. split.
    + intros (_ & Rx & L2 & p & Hp & A). split_and!; [done|done|]. exists p. split; [done|].
      destruct A as [(Rp & A & N)|]; [left|by right]. rewrite <-!(idom_anc _ OK) by (by try apply idom_in). done.
    + intros (Rx & L2 & p & Hp & A). split_and!; [|done|done|].
      * apply elem_of_seqZ. pose proof (R_range x Rx). unfold in_range in *. lia.
      * exists p. split; [done|]. destruct A as [(Rp & A & N)|]; [left|by right].
        rewrite <-!(idom_anc _ OK) in * by (by try apply idom_in). done.
Qed.
End Immediate.
End Concrete.

(** ** The lifted graph *)

Section Preds.
Definition block_preds (bs : list PcodeBlock) (c : Z) : list Z := from_option preds [] (bs !! Z.to_nat c).
Definition block_succs (bs : list PcodeBlock) (c : nat) : list Z := from_option succs [] (bs !! c).

(** [bs'] has the blocks of [bs] with the predecessors [new p c] added. *)
Definition adds_preds (new : Z -> Z -> Prop) (bs bs' : list PcodeBlock) : Prop :=
  length bs' = length bs /\ (forall i, block_succs bs' i = block_succs bs i) /\
  forall c p, 0 <= c < zlen bs -> p ∈ block_preds bs' c <-> p ∈ block_preds bs c \/ new p c.

Lemma adds_preds_trans (new1 new2 : Z -> Z -> Prop) bs1 bs2 bs3 :
  adds_preds new1 bs1 bs2 -> adds_preds new2 bs2 bs3 -> adds_preds (fun p c => new1 p c \/ new2 p c) bs1 bs3.
Proof.
  intros (L1 & S1 & P1) (L2 & S2 & P2). split_and!; [congruence|intros; by rewrite S2|].
  intros c p Hc. rewrite P2 by (unfold zlen in *; lia). rewrite P1 by done. tauto.
Qed.

Lemma add_pred_spec i bs s : adds_preds (fun p c => p = i /\ c = s) bs (add_pred i bs s).
Proof.
  unfold add_pred. destruct ((0 <=? s) && (s <? zlen bs)) eqn:B.
  - apply andb_true_iff in B as [B1%Z.leb_le B2%Z.ltb_lt]. split_and!; [by rewrite length_alter| |].
    + intros k. unfold block_succs. destruct (decide (k = Z.to_nat s)) as [->|N].
      * rewrite list_lookup_alter_eq. by destruct (bs !! Z.to_nat s).
      * by rewrite list_lookup_alter_ne.
    + intros c p Hc. unfold block_preds. destruct (decide (c = s)) as [->|N].
      * rewrite list_lookup_alter_eq. destruct (lookup_lt_is_Some_2 bs (Z.to_nat s)) as [b ->]; [unfold zlen in *; lia|].
        cbn. rewrite elem_of_app, list_elem_of_singleton. naive_solver.
      * rewrite list_lookup_alter_ne by lia. naive_solver.
  - split_and!; [done|done|]. intros c p Hc. apply andb_false_iff in B. rewrite Z.leb_gt, Z.ltb_ge in B.
    split; [by left|]. intros [|[_ ->]]; [done|lia].
Qed.

Lemma add_preds_spec i l bs : adds_preds (fun p c => p = i /\ c ∈ l) bs (foldl (add_pred i) bs l).
Proof.
  revert bs; induction l as [|s l IH]; intros bs; cbn [foldl].
  - split_and!; [done|done|]. intros c p _. split; [by left|]. intros [|[_ []%not_elem_of_nil]]; done.
  - destruct (adds_preds_trans _ _ _ _ _ (add_pred_spec i bs s) (IH _)) as (L & S & P). split_and!; [done|done|].
    intros c p Hc. rewrite P by done. rewrite elem_of_cons. tauto.
Qed.

Lemma build_preds_spec bs :
  adds_preds (fun p c => exists i, p = Z.of_nat i /\ (i < length bs)%nat /\ c ∈ block_succs bs i) bs (build_preds bs).
Proof.
  unfold build_preds.
  assert (H : forall m k bs', (forall i, block_succs bs' i = block_succs bs i) ->
    adds_preds (fun p c => exists i, p = Z.of_nat i /\ (k <= i < k + m)%nat /\ c ∈ block_succs bs i) bs'
      (foldl (fun acc i => foldl (add_pred (Z.of_nat i)) acc (from_option succs [] (acc !! i))) bs' (List.seq k m))).
  { induction m as [|m IH]; intros k bs' S; cbn [List.seq foldl].
    - split_and!; [done|done|]. intros c p _. split; [by left|]. intros [|(i & _ & ? & _)]; [done|lia].
    - fold (block_succs bs' k). rewrite S. pose proof (add_preds_spec (Z.of_nat k) (block_succs bs k) bs') as A.
      specialize (IH (Datatypes.S k) (foldl (add_pred (Z.of_nat k)) bs' (block_succs bs k))).
      destruct (adds_preds_trans _ _ _ _ _ A (IH ltac:(intros i; etrans; [apply A|apply S]))) as (L' & S' & P').
      split_and!; [done|done|]. intros c p Hc. rewrite P' by done. split.
      + intros [?|[[-> ?]|(i & ? & ? & ?)]]; [by left|right; exists k; split_and!; [done|lia|lia|done]|].
        right. exists i. split_and!; [done|lia|lia|done].
      + intros [?|(i & -> & ? & ?)]; [by left|right]. destruct (decide (i = k)) as [->|]; [by left|right].
        exists i. split_and!; [done|lia|lia|done]. }
  destruct (H (length bs) 0%nat bs ltac:(done)) as (L & S & P). split_and!; [done|done|].
  intros c p Hc. rewrite P by done. setoid_rewrite Nat.add_0_l. naive_solver lia.
Qed.
End Preds.

(** The lists a lifter builds, from blocks without predecessors, describe one graph. *)
Lemma build_preds_ok f bs :
  blocks f = build_preds bs -> Forall (fun b => preds b = []) bs -> graph_ok f.
Proof.
  intros E N. pose proof (build_preds_spec bs) as (L & S & P).
  assert (Nil : forall c, block_preds bs c = []).
  { intros c. unfold block_preds. destruct (bs !! Z.to_nat c) as [b|] eqn:Eb; [|done]. by apply (proj1 (Forall_lookup _ _) N _ _ Eb). }
  assert (R : forall b, in_range f b <-> 0 <= b < zlen bs) by (intros b; unfold in_range, num_blocks, zlen; by rewrite E, L).
  assert (Pr : forall b c, in_range f c -> b ∈ preds_of f c <->
    exists i, b = Z.of_nat i /\ (i < length bs)%nat /\ c ∈ block_succs bs i).
  { intros b c Hc%R. unfold preds_of. rewrite E. change (from_option preds [] (build_preds bs !! Z.to_nat c)) with (block_preds (build_preds bs) c).
    rewrite P, Nil by done. set_solver. }
  split.
  - intros b c Hb%R Hc. rewrite (Pr b c Hc). unfold succs_of. rewrite E.
    change (from_option succs [] (build_preds bs !! Z.to_nat b)) with (block_succs (build_preds bs) (Z.to_nat b)).
    rewrite S. unfold zlen in Hb. split.
    + intros H. exists (Z.to_nat b). split_and!; [lia|lia|done].
    + intros (i & -> & _ & H). by rewrite Nat2Z.id.
  - intros b p Hb Hp. apply (Pr p b Hb) in Hp as (i & -> & Hi & _). apply R. unfold zlen. lia.
Qed.

(** ** The theorems *)

(** C10: for every function whose predecessor lists are those of its successor lists,
    the iteration ends, without reading out of bounds, with the immediate dominators:
    a block that the entry reaches has as its parent the dominator of it that all its
    other dominators dominate, the entry itself, and an unreached block none. *)
Theorem compute_dominators_spec f :
  blocks f <> [] -> graph_ok f ->
  exists rpo ix idom, compute_reverse_postorder f = Some (rpo, ix) /\
    compute_dominators f rpo ix = Some idom /\ length idom = length (blocks f) /\
    rd idom (start_block f) = Some (start_block f) /\
    forall b, in_range f b -> exists d, rd idom b = Some d /\
      (~ reaches f (start_block f) b -> d < 0) /\
      (reaches f (start_block f) b -> b <> start_block f ->
         d <> b /\ dominates f d b /\ forall x, dominates f x b -> x <> b -> dominates f x d).
Proof.
  intros Hne G. destruct (rpo_compute f Hne) as (rpo & ix & E & O).
  destruct (compute_dominators_ok f rpo ix O G) as (idom & Ed & OK). exists rpo, ix, idom.
  pose proof (idom_rd f rpo ix idom OK) as Rd.
  split_and!; [done|done|apply OK| |].
  - rewrite Rd by (apply (R_range f rpo ix O), (e_in f rpo ix O)). by rewrite (idom_e f rpo ix idom OK).
  - intros b Ib. exists (at_ idom b). rewrite <-(rpo_reach _ _ _ O). split_and!; [by apply Rd|by apply (idom_unset f rpo ix idom OK)|].
    intros Rb N. pose proof (idom_rank f rpo ix idom OK b Rb N). split_and!; [intros EE; rewrite EE in *; lia| |].
    + by apply (idom_dominates f rpo ix idom OK).
    + intros x. by apply (idom_closest f rpo ix O idom OK).
Qed.

(** The frontier of a block lists, in order and once each, the reached blocks
    with at least two predecessors of which one is dominated by the block while the
    parent is not; an unreached block has in its frontier just such successors. *)
Lemma compute_dom_frontiers_spec f :
  blocks f <> [] -> graph_ok f ->
  exists rpo ix idom df, compute_reverse_postorder f = Some (rpo, ix) /\
    compute_dominators f rpo ix = Some idom /\ compute_dom_frontiers f idom = Some df /\
    length df = length (blocks f) /\
    forall a l, rd df a = Some l -> StronglySorted Z.lt l /\
      forall x, x ∈ l <-> reaches f (start_block f) x /\ 2 <= zlen (preds_of f x) /\
        exists p d, p ∈ preds_of f x /\ rd idom x = Some d /\
          ((reaches f (start_block f) p /\ dominates f a p /\ ~ dominates f a d) \/
           (~ reaches f (start_block f) p /\ a = p)).
Proof.
  intros Hne G. destruct (rpo_compute f Hne) as (rpo & ix & E & O).
  destruct (compute_dominators_ok f rpo ix O G) as (idom & Ed & OK).
  destruct (compute_frontiers_spec f rpo ix O G idom OK) as (df & Ef & L & H).
  exists rpo, ix, idom, df. split_and!; [done..|]. intros a l El. destruct (H a l El) as [Hs Hx].
  split; [done|]. intros x. rewrite Hx. setoid_rewrite <-(rpo_reach _ _ _ O). split.
  - intros (Rx & L2 & p & Hp & C). split_and!; [done|done|]. exists p, (at_ idom x).
    split_and!; [done|apply (idom_rd f rpo ix idom OK), (R_range f rpo ix O x Rx)|done].
  - intros (Rx & L2 & p & d & Hp & Hd & C). split_and!; [done|done|]. exists p. split; [done|].
    rewrite (idom_rd f rpo ix idom OK x (R_range f rpo ix O x Rx)) in Hd. by injection Hd as <-.
Qed.

(** ** Examples *)

(** The entry 0 branches to 1 and 2, which join in 3; 3 loops back to 1; 4, which is
    not reached, jumps to 3. *)
Definition loop_blocks : list PcodeBlock :=
  [block_at 0 [1; 2] []; block_at 1 [3] []; block_at 2 [3] []; block_at 3 [1] []; block_at 4 [3] []].

Definition loop_func : PcodeFunc := mk_func 0 [] (build_preds loop_blocks) 0 0 [] [].

Lemma loop_graph_ok : graph_ok loop_func.
Proof. by apply (build_preds_ok loop_func loop_blocks); [|repeat constructor]. Qed.

Lemma compute_dominators_spec_witness :
  exists rpo ix idom, compute_reverse_postorder loop_func = Some (rpo, ix) /\
    compute_dominators loop_func rpo ix = Some idom /\ idom = [0; 0; 0; 0; -1] /\
    compute_children loop_func rpo idom = Some [[2; 1; 3]; []; []; []; []] /\
    exists d, rd idom 3 = Some d /\ d = 0.
Proof.
  destruct (compute_dominators_spec loop_func ltac:(done) loop_graph_ok) as (rpo & ix & idom & E1 & E2 & _ & _ & H).
  assert (E3 : compute_reverse_postorder loop_func = Some ([0; 2; 1; 3], [0; 2; 1; 3; -1])) by (vm_compute; reflexivity).
  rewrite E3 in E1. injection E1 as <- <-.
  assert (E4 : compute_dominators loop_func [0; 2; 1; 3] [0; 2; 1; 3; -1] = Some [0; 0; 0; 0; -1]) by (vm_compute; reflexivity).
  rewrite E4 in E2. injection E2 as <-. destruct (H 3) as (d & Hd & _); [by vm_compute|].
  eexists _, _, _. split_and!; [done|done|done|by vm_compute|]. exists d. split; [done|]. vm_compute in Hd. congruence.
Defined.

Lemma compute_dom_frontiers_spec_witness :
  exists idom df, compute_dom_frontiers loop_func idom = Some df /\ df = [[]; [3]; [3]; [1]; [3]] /\
    StronglySorted Z.lt (default [] (rd df 3)).
Proof.
  destruct (compute_dom_frontiers_spec loop_func ltac:(done) loop_graph_ok) as (rpo & ix & idom & df & E1 & E2 & E3 & _ & H).
  assert (E4 : compute_reverse_postorder loop_func = Some ([0; 2; 1; 3], [0; 2; 1; 3; -1])) by (vm_compute; reflexivity).
  rewrite E4 in E1. injection E1 as <- <-.
  assert (E5 : compute_dominators loop_func [0; 2; 1; 3] [0; 2; 1; 3; -1] = Some [0; 0; 0; 0; -1]) by (vm_compute; reflexivity).
  rewrite E5 in E2. injection E2 as <-.
  assert (E6 : compute_dom_frontiers loop_func [0; 0; 0; 0; -1] = Some [[]; [3]; [3]; [1]; [3]]) by (vm_compute; reflexivity).
  rewrite E6 in E3. injection E3 as <-. eexists _, _. split_and!; [exact E6|done|]. cbn. by apply (H 3).
Defined.

(** A loop whose header is the entry: the entry has one predecessor, so it is in no
    frontier, although a definition in the loop and the value at entry meet there. *)
Lemma entry_loop_has_no_frontier :
  let f := mk_func 0 [] (build_preds [block_at 0 [1] []; block_at 1 [0] []]) 0 0 [] [] in
  compute_dominators f [0; 1] [0; 1] = Some [0; 0] /\ compute_dom_frontiers f [0; 0] = Some [[]; []].
Proof. by vm_compute. Qed.
