(* ===== verification/Phi.v ===== *)
(** * Placement of phis: src/hyperion/core/decompiler/ssa.cpp, [insert_phis]

    The blocks that define a variable, and for each variable the worklist over the
    dominance frontiers.  The result is described by the variables [K b] that get a
    phi in block [b]; they are closed under frontiers. *)

From S2P Require Import Prelude Ir Ssa Dom.

#[local] Open Scope Z_scope.

(** ** The code *)

(** [def_blocks] and the slots seen so far; [all_vars_] are the keys. *)
Definition defs_st : Type := gmap Z (list Z) * slot_map.

Definition collect_op (b : Z) (st : defs_st) (o : PcodeInsn) : defs_st :=
  let '(k, sl) := var_key (output o) st.2 in
  (if 0 <=? k then <[k := default [] (st.1 !! k) ++ [b]]> st.1 else st.1, sl).

Definition collect_defs (bs : list PcodeBlock) : defs_st :=
  foldl (fun st ib => foldl (collect_op (Z.of_nat ib.1)) st (ops ib.2)) (∅, (∅, ∅)) (imap pair bs).

(** The output of a phi for key [v]. *)
Definition phi_output (nodes : gmap Z Varnode) (v : Z) : Varnode :=
  if 2000 <=? v then default no_vn (nodes !! v)
  else if v <? 1000 then mk_vn Reg v 8 0 [] else mk_vn Temp (v - 1000) 8 0 [].

Definition phi_insn (nodes : gmap Z Varnode) (v : Z) (num_preds : nat) : PcodeInsn :=
  mk_insn COPY (phi_output nodes v) (replicate num_preds (phi_output nodes v)) 0 (-1).

Definition add_phi (nodes : gmap Z Varnode) (v : Z) (bs : list PcodeBlock) (f : Z) : list PcodeBlock :=
  alter (fun blk => set_ops (phi_insn nodes v (length (preds blk)) :: ops blk) blk) (Z.to_nat f) bs.

(** The worklist, [has_phi] and the blocks. *)
Definition place_st : Type := list Z * gset Z * list PcodeBlock.

Definition place_step (nodes : gmap Z Varnode) (v : Z) (st : place_st) (f : Z) : place_st :=
  let '(worklist, has_phi, bs) := st in
  if decide (f ∈ has_phi) then st else (worklist ++ [f], {[f]} ∪ has_phi, add_phi nodes v bs f).

Fixpoint place (fuel : nat) (df : list (list Z)) (nodes : gmap Z Varnode) (v : Z)
    (st : place_st) (processed : gset Z) : option (list PcodeBlock) :=
  let '(worklist, has_phi, bs) := st in
  match worklist with
  | [] => Some bs
  | d :: worklist =>
      match fuel with
      | O => None
      | S fuel' =>
          if decide (d ∈ processed) then place fuel' df nodes v (worklist, has_phi, bs) processed
          else
            fs ← rd df d;
            place fuel' df nodes v (foldl (place_step nodes v) (worklist, has_phi, bs) fs) ({[d]} ∪ processed)
      end
  end.

(** The keys of an [unordered_map] come in an order the library chooses: [order]. *)
Definition insert_phis (order : gmap Z (list Z) -> list Z) (df : list (list Z)) (bs : list PcodeBlock) :
    option (defs_st * list PcodeBlock) :=
  let st := collect_defs bs in
  bs ← foldM (fun bs v =>
         let defs := default [] (st.1 !! v) in
         place (length defs + length bs) df st.2.2 v (defs, ∅, bs) ∅) (order st.1) bs;
  Some (st, bs).

(** ** The blocks that define a variable *)

(** A block operand without stack slots. *)
Definition no_stack_ops (bs : list PcodeBlock) : Prop :=
  forall b o, b ∈ bs -> o ∈ ops b -> no_stack (output o).

Definition defines_in (os : list PcodeInsn) (k : Z) : Prop := 0 <= k /\ exists o, o ∈ os /\ vkey (output o) = k.

Definition defs_ok (P : Z -> Z -> Prop) (st : defs_st) : Prop :=
  st.2 = (∅, ∅) /\ (forall k b, b ∈ default [] (st.1 !! k) <-> P k b) /\
  (forall k, is_Some (st.1 !! k) <-> exists b, P k b).

Lemma collect_op_spec P b st o :
  no_stack (output o) -> defs_ok P st ->
  defs_ok (fun k x => P k x \/ (x = b /\ 0 <= k /\ vkey (output o) = k)) (collect_op b st o).
Proof.
  intros N (E & H & D). unfold collect_op. rewrite (var_key_no_stack _ _ N). destruct st as [m sl]. cbn in *.
  destruct (Z.leb_spec 0 (vkey (output o))) as [L|L].
  - split_and!; [done| |].
    + intros k x. cbn. destruct (decide (k = vkey (output o))) as [->|Nk].
      * rewrite lookup_insert_eq. cbn. rewrite elem_of_app, list_elem_of_singleton, H. naive_solver.
      * rewrite lookup_insert_ne by done. rewrite H. naive_solver.
    + intros k. cbn. rewrite lookup_insert_is_Some, D. destruct (decide (vkey (output o) = k)); naive_solver.
  - split_and!; [done| |]; cbn.
    + intros k x. rewrite H. naive_solver lia.
    + intros k. rewrite D. naive_solver lia.
Qed.

Lemma defs_ok_ext P Q st : (forall k b, P k b <-> Q k b) -> defs_ok P st -> defs_ok Q st.
Proof. intros E (H1 & H2 & H3). split_and!; [done| |]; intros; by setoid_rewrite <-E. Qed.

Lemma collect_ops_spec P b st os :
  (forall o, o ∈ os -> no_stack (output o)) -> defs_ok P st ->
  defs_ok (fun k x => P k x \/ (x = b /\ defines_in os k)) (foldl (collect_op b) st os).
Proof.
  revert P st; induction os as [|o os IH]; intros P st N H; cbn.
  - eapply defs_ok_ext; [|exact H]. intros k x. unfold defines_in. set_solver.
  - eapply defs_ok_ext; [|apply IH; [set_solver|apply collect_op_spec; [set_solver|exact H]]].
    intros k x. unfold defines_in. set_solver.
Qed.

Definition ops_of (bs : list PcodeBlock) (b : Z) : list PcodeInsn := from_option ops [] (bs !! Z.to_nat b).

Lemma collect_defs_spec bs :
  no_stack_ops bs ->
  defs_ok (fun k b => 0 <= b < zlen bs /\ defines_in (ops_of bs b) k) (collect_defs bs).
Proof.
  intros N. unfold collect_defs.
  assert (G : forall l st P, (forall ib, ib ∈ l -> ib.2 ∈ bs) -> defs_ok P st ->
    defs_ok (fun k x => P k x \/ exists ib, ib ∈ l /\ x = Z.of_nat ib.1 /\ defines_in (ops ib.2) k)
      (foldl (fun st ib => foldl (collect_op (Z.of_nat ib.1)) st (ops ib.2)) st l)).
  { induction l as [|ib l IH]; intros st P Hl H; cbn.
    - eapply defs_ok_ext; [|exact H]. set_solver.
    - eapply defs_ok_ext; [|apply IH; [set_solver|apply collect_ops_spec; [|exact H]]].
      + intros k x. set_solver.
      + intros o Ho. eapply N; [|exact Ho]. apply Hl. by left. }
  eapply defs_ok_ext; [|apply (G _ _ (fun _ _ => False))].
  - intros k b. unfold ops_of, zlen. split.
    + intros [[]|([i blk] & Hi & -> & Hd)]. cbn in *. apply elem_of_lookup_imap in Hi as (j & y & [= -> ->] & E).
      rewrite Nat2Z.id, E. split; [apply lookup_lt_Some in E; lia|done].
    + intros [R Hd]. right. destruct (bs !! Z.to_nat b) as [blk|] eqn:E; [|by destruct Hd as (_ & o & []%not_elem_of_nil & _)].
      exists (Z.to_nat b, blk). split; [|split; [cbn; lia|done]]. apply elem_of_lookup_imap. eauto.
  - intros ib (i & y & -> & E)%elem_of_lookup_imap. by eapply list_elem_of_lookup_2.
  - split_and!; [done| |]; cbn; intros k.
    + intros b. rewrite lookup_empty. cbn. split; [by intros ?%not_elem_of_nil|done].
    + rewrite lookup_empty. split; [by intros [? ?]|by intros [? []]].
Qed.

(** ** The worklist *)

Section Place.
Context (df : list (list Z)) (nodes : gmap Z Varnode) (v : Z) (Q : list Z) (bs0 : list PcodeBlock).
Context (Len : length df = length bs0).

Definition front (d : Z) : list Z := default [] (rd df d).
Definition in_blocks (b : Z) : Prop := 0 <= b < zlen bs0.

Context (Fr : forall d x, x ∈ front d -> in_blocks x) (Qr : forall d, d ∈ Q -> in_blocks d).

(** The blocks [S] that got a phi so far, in the order they got it. *)
Record place_ok (S : list Z) (st : place_st) (P : gset Z) : Prop := mk_place_ok {
  p_nodup : NoDup S;
  p_has_phi : forall x, x ∈ st.1.2 <-> x ∈ S;
  p_blocks : st.2 = foldl (add_phi nodes v) bs0 S;
  p_todo : forall d, d ∈ Q \/ d ∈ S -> d ∈ st.1.1 \/ d ∈ P;
  p_from : forall d, d ∈ st.1.1 \/ d ∈ P -> d ∈ Q \/ d ∈ S;
  p_front : forall x, x ∈ S -> exists a, x ∈ front a
}.

(** The loop over one frontier. *)
Lemma place_steps_ok S st P fs :
  (forall x, x ∈ fs -> exists a, x ∈ front a) -> place_ok S st P ->
  exists S', place_ok (S ++ S') (foldl (place_step nodes v) st fs) P /\
    (forall x, x ∈ fs -> x ∈ S ++ S') /\
    length (foldl (place_step nodes v) st fs).1.1 = (length st.1.1 + length S')%nat.
Proof.
  revert S st; induction fs as [|f fs IH]; intros S st Hf H; cbn [foldl].
  { exists []. rewrite app_nil_r. split_and!; [done|by intros x ?%not_elem_of_nil|cbn; lia]. }
  destruct st as [[wl hp] bs]. destruct H as [H1 H2 H3 H4 H5 H6]. cbn in *.
  destruct (decide (f ∈ hp)) as [Hin|Hout].
  - destruct (IH S (wl, hp, bs)) as (S' & H & Hfs & L); [set_solver|by split|]. exists S'. split_and!; [done| |done].
    intros x [->|Hx]%elem_of_cons; [apply elem_of_app; left; by apply H2|by apply Hfs].
  - destruct (IH (S ++ [f]) (wl ++ [f], {[f]} ∪ hp, add_phi nodes v bs f)) as (S' & H & Hfs & L); [set_solver| |].
    { split; cbn.
      - apply NoDup_app. split_and!; [done| |by apply NoDup_singleton]. intros x Hx ->%list_elem_of_singleton. by apply Hout, H2.
      - intros x. rewrite elem_of_union, elem_of_singleton, H2, elem_of_app, list_elem_of_singleton. tauto.
      - by rewrite foldl_app, H3.
      - intros d. rewrite !elem_of_app. specialize (H4 d). tauto.
      - intros d. rewrite !elem_of_app. specialize (H5 d). tauto.
      - intros x [Hx| ->%list_elem_of_singleton]%elem_of_app; [by apply H6|]. apply Hf. by left. }
    exists (f :: S'). rewrite <-app_assoc in *. split_and!; [done| |cbn in L |- *; rewrite length_app in L; cbn in L; lia].
    intros x [->|Hx]%elem_of_cons; [set_solver|by apply Hfs].
Qed.

Lemma place_ok_size S st P : place_ok S st P -> (length S <= length bs0)%nat.
Proof.
  intros H. assert (Sub : S ⊆+ seqZ 0 (zlen bs0)).
  { apply NoDup_submseteq; [apply H|]. intros x Hx. destruct (p_front _ _ _ H x Hx) as [a Ha]. apply elem_of_seqZ.
    pose proof (Fr a x Ha). unfold in_blocks in *. lia. }
  apply submseteq_length in Sub. rewrite length_seqZ in Sub. unfold zlen in Sub. lia.
Qed.

Lemma place_spec fuel S st P :
  place_ok S st P -> (forall d x, d ∈ P -> x ∈ front d -> x ∈ S) ->
  (length st.1.1 + (length bs0 - length S) <= fuel)%nat ->
  exists S', place fuel df nodes v st P = Some (foldl (add_phi nodes v) bs0 S') /\ NoDup S' /\
    (forall x, x ∈ S' -> exists a, x ∈ front a) /\ (forall d x, d ∈ Q \/ d ∈ S' -> x ∈ front d -> x ∈ S').
Proof.
  revert S st P; induction fuel as [|fuel IH]; intros S [[[|d wl] hp] bs] P H Cl F; cbn in F; [| |clear IH|]; try lia.
  1,2: cbn; exists S; pose proof H as [H1 H2 H3 H4 H5 H6]; cbn in *; split_and!; [by rewrite H3|done|done|];
    intros d x Hd; apply Cl; by destruct (H4 d Hd) as [?%not_elem_of_nil|].
  cbn [place]. destruct (decide (d ∈ P)) as [Hd|Hd].
  - apply (IH S); [|done|cbn; lia]. destruct H as [H1 H2 H3 H4 H5 H6]; cbn in *. split; cbn; try done.
    + intros x Hx. destruct (H4 x Hx) as [[->|]%elem_of_cons|]; auto.
    + intros x Hx. apply H5. set_solver.
  - assert (Rd : in_blocks d).
    { destruct (p_from _ _ _ H d) as [Hq|Hs]; [left; by left|by apply Qr|]. destruct (p_front _ _ _ H d Hs) as [a Ha]. by eapply Fr. }
    assert (El : exists fs, rd df d = Some fs).
    { unfold rd, in_blocks, zlen in *. destruct (Z.ltb_spec d 0); [lia|]. apply lookup_lt_is_Some. lia. }
    destruct El as [fs El]. rewrite El. cbn [mbind option_bind].
    assert (Ef : front d = fs) by (unfold front; by rewrite El).
    destruct (place_steps_ok S (wl, hp, bs) ({[d]} ∪ P) fs) as (S' & H' & Hfs & L).
    { intros x Hx. exists d. by rewrite Ef. }
    { destruct H as [H1 H2 H3 H4 H5 H6]; cbn in *. split; cbn; try done.
      - intros x Hx. destruct (H4 x Hx) as [[->|]%elem_of_cons|]; set_solver.
      - intros x Hx. apply H5. set_solver. }
    apply (IH _ _ _ H').
    + intros d' x [->%elem_of_singleton|Hd']%elem_of_union Hx; [apply Hfs; by rewrite <-Ef|].
      apply elem_of_app. left. by eapply Cl.
    + rewrite L. cbn. pose proof (place_ok_size _ _ _ H'). rewrite length_app in *. lia.
Qed.
End Place.

(** ** The phis of every block *)

Definition phis (nodes : gmap Z Varnode) (ks : list Z) (num_preds : nat) : list PcodeInsn :=
  (fun k => phi_insn nodes k num_preds) <$> ks.

(** [bs] with a phi for each key of [K b] at the front of block [b]. *)
Definition with_phis (nodes : gmap Z Varnode) (K : Z -> list Z) (bs : list PcodeBlock) : list PcodeBlock :=
  imap (fun i blk => set_ops (phis nodes (K (Z.of_nat i)) (length (preds blk)) ++ ops blk) blk) bs.

Lemma with_phis_none nodes bs : with_phis nodes (fun _ => []) bs = bs.
Proof. unfold with_phis. apply list_eq. intros i. rewrite list_lookup_imap. destruct (bs !! i) as [[]|]; done. Qed.

Lemma with_phis_ext nodes K K' bs :
  (forall b, 0 <= b < zlen bs -> K b = K' b) -> with_phis nodes K bs = with_phis nodes K' bs.
Proof.
  intros H. apply imap_ext. intros i blk Hi. cbn. f_equal. f_equal. f_equal. apply H.
  apply lookup_lt_Some in Hi. unfold zlen. lia.
Qed.

Lemma with_phis_length nodes K bs : length (with_phis nodes K bs) = length bs.
Proof. apply length_imap. Qed.

Lemma add_phi_with nodes v K bs f :
  0 <= f < zlen bs ->
  add_phi nodes v (with_phis nodes K bs) f = with_phis nodes (fun b => if decide (b = f) then v :: K b else K b) bs.
Proof.
  intros Hf. apply list_eq. intros i. unfold add_phi, with_phis. rewrite list_lookup_imap.
  destruct (decide (i = Z.to_nat f)) as [->|N].
  - rewrite list_lookup_alter_eq, list_lookup_imap. destruct (bs !! Z.to_nat f) as [blk|]; [|done]. cbn.
    rewrite Z2Nat.id by lia. by rewrite decide_True.
  - rewrite list_lookup_alter_ne, list_lookup_imap by done. destruct (bs !! i); [|done]. cbn. rewrite decide_False; [done|lia].
Qed.

Lemma add_phis_with nodes v bs S K :
  NoDup S -> (forall f, f ∈ S -> 0 <= f < zlen bs) ->
  foldl (add_phi nodes v) (with_phis nodes K bs) S =
  with_phis nodes (fun b => if decide (b ∈ S) then v :: K b else K b) bs.
Proof.
  revert K; induction S as [|f S IH]; intros K N R; cbn [foldl].
  - apply with_phis_ext. intros b _. rewrite decide_False; [done|apply not_elem_of_nil].
  - apply NoDup_cons in N as [Nf N]. rewrite add_phi_with by (apply R; by left). rewrite IH by (try done; set_solver).
    apply with_phis_ext. intros b _. destruct (decide (b = f)) as [->|Nb].
    + rewrite (decide_False (P := f ∈ S)) by done. rewrite decide_True by (by left). done.
    + destruct (decide (b ∈ S)); [rewrite decide_True by (by right); done|]. rewrite decide_False; [done|set_solver].
Qed.

(** The order in which the keys come: each once. *)
Definition key_order (order : gmap Z (list Z) -> list Z) : Prop :=
  forall m, NoDup (order m) /\ forall k, k ∈ order m <-> is_Some (m !! k).

Section Insert.
Context (order : gmap Z (list Z) -> list Z) (Ord : key_order order).
Context (df : list (list Z)) (bs : list PcodeBlock).
Context (Len : length df = length bs) (Fr : forall d x, x ∈ front df d -> in_blocks bs x) (NS : no_stack_ops bs).

(** Where the phis are: a key has at most one phi in a block, only where a frontier
    says so, and in the frontier of every block that defines it or has its phi. *)
Record phis_ok (K : Z -> list Z) : Prop := mk_phis_ok {
  k_nodup : forall b, NoDup (K b);
  k_front : forall b k, k ∈ K b -> exists a, b ∈ front df a;
  k_pos : forall b k, k ∈ K b -> 0 <= k /\ exists d, in_blocks bs d /\ defines_in (ops_of bs d) k;
  k_closed : forall k d x, (in_blocks bs d /\ defines_in (ops_of bs d) k) \/ k ∈ K d -> x ∈ front df d -> k ∈ K x
}.

Lemma insert_phis_spec :
  exists K, insert_phis order df bs = Some (collect_defs bs, with_phis ∅ K bs) /\ phis_ok K.
Proof.
  pose proof (collect_defs_spec bs NS) as (E & HD & HK). destruct (Ord (collect_defs bs).1) as [No Mo].
  unfold insert_phis. rewrite E. cbn [snd].
  match goal with |- context [foldM ?g _ _] => set (step := g) end.
  destruct (foldM_inv step (fun l bs' => exists K done, order (collect_defs bs).1 = done ++ l /\ bs' = with_phis ∅ K bs /\
      (forall b, NoDup (K b)) /\ (forall b k, k ∈ K b -> k ∈ done /\ exists a, b ∈ front df a) /\
      forall k d x, k ∈ done -> (in_blocks bs d /\ defines_in (ops_of bs d) k) \/ k ∈ K d -> x ∈ front df d -> k ∈ K x)
    (order (collect_defs bs).1) bs) as (bs' & E' & K & done & Ed & -> & Kn & Kf & Kc).
  - intros v l bs' (K & done & Ed & -> & Kn & Kf & Kc). unfold step.
    assert (Hv : v ∉ done). { rewrite Ed in No. apply NoDup_app in No as (_ & D & _). intros Hv. apply (D v Hv). by left. }
    set (Q := default [] ((collect_defs bs).1 !! v)).
    assert (Qr : forall d, d ∈ Q <-> in_blocks bs d /\ defines_in (ops_of bs d) v) by (intros d; apply HD).
    assert (Fr' : forall d x, x ∈ front df d -> in_blocks (with_phis ∅ K bs) x).
    { intros d x Hx. pose proof (Fr d x Hx). unfold in_blocks, zlen in *. by rewrite with_phis_length. }
    destruct (place_spec df ∅ v Q (with_phis ∅ K bs)) with (fuel := (length Q + length (with_phis ∅ K bs))%nat)
      (S := @nil Z) (st := (Q, ∅ : gset Z, with_phis ∅ K bs)) (P := ∅ : gset Z) as (S & Es & NS' & Sf & Sc).
    + by rewrite with_phis_length.
    + done.
    + intros d Hd. unfold in_blocks, zlen in *. rewrite with_phis_length. by apply Qr.
    + split; cbn; [constructor|set_solver|done|set_solver|set_solver|set_solver].
    + set_solver.
    + cbn. lia.
    + eexists. split; [exact Es|].
      assert (Sr : forall f, f ∈ S -> 0 <= f < zlen bs). { intros f Hf. destruct (Sf f Hf) as [a Ha]. exact (Fr a f Ha). }
      exists (fun b => if decide (b ∈ S) then v :: K b else K b), (done ++ [v]). rewrite <-app_assoc.
      split_and!; [done|by apply add_phis_with| | |].
      * intros b. destruct (decide (b ∈ S)); [|done]. constructor; [|done]. intros Hk. by destruct (Kf b v Hk).
      * intros b k Hk. destruct (decide (b ∈ S)) as [Hb|Hb].
        -- apply elem_of_cons in Hk as [->|Hk]; [split; [set_solver|by apply Sf]|]. destruct (Kf b k Hk). set_solver.
        -- destruct (Kf b k Hk). set_solver.
      * intros k d x Hk Hd Hx. apply elem_of_app in Hk as [Hk| ->%list_elem_of_singleton].
        -- assert (Nk : k <> v) by (intros ->; done).
           assert (Hx' : k ∈ K x). { apply (Kc k d x Hk); [|done]. destruct Hd as [|Hd]; [by left|right]. destruct (decide (d ∈ S)); set_solver. }
           destruct (decide (x ∈ S)); set_solver.
        -- assert (Hx' : x ∈ S). { apply (Sc d x); [|done]. destruct Hd as [Hd|Hd]; [left; by apply Qr|right].
             destruct (decide (d ∈ S)); [done|]. exfalso. by destruct (Kf d v Hd). }
           rewrite decide_True by done. by left.
  - exists (fun _ => []), []. split_and!; [done|by rewrite with_phis_none|intros; constructor|set_solver|set_solver].
  - exists K. rewrite E'. split; [done|]. rewrite app_nil_r in Ed. subst done. split; [done| | |].
    + intros b k Hk. by apply (Kf b k Hk).
    + intros b k Hk. destruct (Kf b k Hk) as [Ho _]. apply Mo, HK in Ho as (d & Hd & Hk'). split; [apply Hk'|]. by exists d.
    + intros k d x Hd Hx. assert (Hk : is_Some ((collect_defs bs).1 !! k)).
      { destruct Hd as [Hd|Hd]; [apply HK; by exists d|]. apply Mo. by apply (Kf d k). }
      apply Mo in Hk. by apply (Kc k d x).
Qed.
End Insert.
