(* ===== verification/Rename.v ===== *)
(** * Renaming along the dominator tree: src/hyperion/core/decompiler/ssa.cpp

    [rename_block]: the operations of a block, the phi inputs of its successors, the
    children, and the pops.  The walk is described by what it leaves: the state each
    block was renamed in, and for each phi input the versions it was given. *)

From S2P Require Import Prelude Ir Ssa Dom Phi.

#[local] Open Scope Z_scope.

(** ** The code *)

(** The loop over the phis of a successor; [pred_idx] is the position of the block
    among its predecessors. *)
Fixpoint update_phis (pred_idx : nat) (st : rename_st) (os : list PcodeInsn) : rename_st * list PcodeInsn :=
  match os with
  | [] => (st, [])
  | o :: os' =>
      if seq o =? -1 then
        let '(st, o) :=
          match inputs o !! pred_idx with
          | Some v => let '(st, v) := rename_input st v in (st, set_inputs (<[pred_idx := v]> (inputs o)) o)
          | None => (st, o)
          end in
        let '(st, os') := update_phis pred_idx st os' in (st, o :: os')
      else (st, os)
  end.

Definition update_succ (blk_idx : Z) (acc : rename_st * list PcodeBlock) (s : Z) : rename_st * list PcodeBlock :=
  let '(st, bs) := acc in
  if (s <? 0) || (zlen bs <=? s) then acc
  else
    match bs !! Z.to_nat s with
    | None => acc
    | Some succ =>
        match list_find (fun p => p = blk_idx) (preds succ) with
        | None => acc
        | Some (pred_idx, _) =>
            let '(st, os) := update_phis pred_idx st (ops succ) in
            (st, <[Z.to_nat s := set_ops os succ]> bs)
        end
    end.

(** [stacks\[k\].pop_back()] as often as [k] was pushed. *)
Definition pop_pushed (pushed : gmap Z Z) (stacks : gmap Z (list Z)) : gmap Z (list Z) :=
  map_imap (fun k l => Some (drop (Z.to_nat (default 0 (pushed !! k))) l)) stacks.

Fixpoint rename_block (fuel : nat) (dom_children : list (list Z)) (blk_idx : Z) (st : rename_st)
    (bs : list PcodeBlock) : option (rename_st * list PcodeBlock) :=
  if (blk_idx <? 0) || (zlen bs <=? blk_idx) then Some (st, bs)
  else
    match fuel with
    | O => None
    | S fuel' =>
        blk ← bs !! Z.to_nat blk_idx;
        let '(st1, os) := rename_ops (mk_rename (slots st) (stacks st) (ssa_counter st) ∅) (ops blk) in
        let '(st2, bs) := foldl (update_succ blk_idx) (st1, <[Z.to_nat blk_idx := set_ops os blk]> bs) (succs blk) in
        cs ← rd dom_children blk_idx;
        r ← foldM (fun a c => rename_block fuel' dom_children c a.1 a.2) cs (st2, bs);
        Some (mk_rename (slots r.1) (pop_pushed (pushed st1) (stacks r.1)) (ssa_counter r.1) (pushed st), r.2)
    end.

(** Every variable starts with version 0. *)
Definition rename (dom_children : list (list Z)) (defs : defs_st) (entry : Z) (bs : list PcodeBlock) :
    option (rename_st * list PcodeBlock) :=
  rename_block (length bs) dom_children entry (mk_rename defs.2 ((fun _ => [0]) <$> defs.1) 0 ∅) bs.

(** ** The version stacks *)

Definition stk (st : rename_st) (k : Z) : list Z := default [] (stacks st !! k).
Definition top (st : rename_st) (k : Z) : option Z := head (stk st k).
Definition flat_slots (st : rename_st) : Prop := slots st = (∅, ∅).

Lemma top_head st k : (stacks st !! k ≫= head) = top st k.
Proof. unfold top, stk. by destruct (stacks st !! k). Qed.

(** A use with the versions [t]. *)
Definition renamed_in (t : Z -> option Z) (v : Varnode) : Varnode :=
  if 0 <=? vkey v then versioned (t (vkey v)) v else v.

Lemma rename_input_top st v : no_stack v -> rename_input st v = (st, renamed_in (top st) v).
Proof.
  intros N. pose proof (rename_inputs_spec st [v]) as E. cbn in E. destruct (rename_input st v) as [st' v'].
  specialize (E ltac:(by constructor)). injection E as -> ->. unfold renamed_input, renamed_in. by rewrite top_head.
Qed.

(** Which operations may be renamed: no stack slots. *)
Definition no_stack_insn (o : PcodeInsn) : Prop := Forall no_stack (output o :: inputs o).

(** What renaming one operation does to the stacks. *)
Definition write_top (o : PcodeInsn) (ver : Z) (t : Z -> option Z) (k : Z) : option Z :=
  if (0 <=? vkey (output o)) && (vkey (output o) =? k) then Some ver else t k.

Definition grown (st st' : rename_st) : Prop :=
  flat_slots st' /\ ssa_counter st <= ssa_counter st' /\
  forall k, exists vs, stk st' k = vs ++ stk st k /\
    default 0 (pushed st' !! k) = default 0 (pushed st !! k) + zlen vs.

Lemma rename_output_grown st v :
  no_stack v -> flat_slots st -> grown st (rename_output st v).1.
Proof.
  intros N F. unfold rename_output, grown, stk. rewrite (var_key_no_stack _ _ N). cbn.
  destruct (0 <=? vkey v); cbn; (split_and!; [done|lia|]); intros k.
  - destruct (decide (k = vkey v)) as [->|Nk].
    + exists [ssa_counter st + 1]. rewrite !lookup_insert_eq. split; [done|]. cbn. unfold zlen. cbn. lia.
    + exists []. rewrite !lookup_insert_ne by done. split; [done|]. unfold zlen. cbn. lia.
  - exists []. split; [done|]. unfold zlen. cbn. lia.
Qed.

Lemma grown_refl st : flat_slots st -> grown st st.
Proof. intros F. split_and!; [done|lia|]. intros k. exists []. split; [done|]. unfold zlen. cbn. lia. Qed.

Lemma grown_trans st1 st2 st3 : grown st1 st2 -> grown st2 st3 -> grown st1 st3.
Proof.
  intros (F1 & C1 & H1) (F2 & C2 & H2). split_and!; [done|lia|]. intros k.
  destruct (H1 k) as (vs1 & E1 & P1), (H2 k) as (vs2 & E2 & P2). exists (vs2 ++ vs1).
  rewrite E2, E1, P2, P1, app_assoc. split; [done|]. unfold zlen. rewrite length_app. lia.
Qed.

(** One operation at a time. *)
Lemma rename_ops_cons st o os :
  no_stack_insn o ->
  rename_ops st (o :: os) =
    (let ro := rename_output st (output o) in
     let r := rename_ops ro.1 os in
     (r.1, set_output ro.2 (set_inputs (if seq o =? -1 then inputs o else renamed_in (top st) <$> inputs o) o) :: r.2)).
Proof.
  intros [_ H]%Forall_cons. cbn [rename_ops].
  assert (E : (if seq o =? -1 then (st, inputs o) else rename_inputs st (inputs o)) =
              (st, if seq o =? -1 then inputs o else renamed_in (top st) <$> inputs o)).
  { destruct (seq o =? -1); [done|]. rewrite rename_inputs_spec by done. f_equal.
    apply list_fmap_ext. intros _ v _. unfold renamed_input, renamed_in. by rewrite top_head. }
  rewrite E. destruct (rename_output st (output o)) as [st1 out]. cbn. by destruct (rename_ops st1 os).
Qed.

Lemma rename_ops_grown st os :
  Forall no_stack_insn os -> flat_slots st -> grown st (rename_ops st os).1.
Proof.
  revert st; induction os as [|o os IH]; intros st H F; [by apply grown_refl|].
  apply Forall_cons in H as [Ho H]. rewrite rename_ops_cons by done. cbn.
  assert (No : no_stack (output o)) by (by apply Forall_cons in Ho as [? _]).
  eapply grown_trans; [by apply rename_output_grown|]. apply IH; [done|]. by apply rename_output_grown.
Qed.

Lemma pop_grown st st' st3 :
  grown (mk_rename (slots st) (stacks st) (ssa_counter st) ∅) st' -> (forall k, stk st3 k = stk st' k) ->
  forall k, default [] (pop_pushed (pushed st') (stacks st3) !! k) = stk st k.
Proof.
  intros (_ & _ & H) E k. unfold pop_pushed. rewrite map_lookup_imap. destruct (H k) as (vs & E1 & P).
  cbn in P. rewrite lookup_empty in P. cbn in P.
  specialize (E k). rewrite E1 in E. unfold stk in *. cbn in *. destruct (stacks st3 !! k) as [l|]; cbn in *.
  - rewrite P, E. unfold zlen. rewrite Z.add_0_l, Nat2Z.id. by rewrite drop_app_length.
  - destruct vs; [done|by destruct (default [] (stacks st !! k))].
Qed.

(** ** Phi inputs *)

(** The versions given to the inputs of the phis of a block, by position. *)
Abbreviation given := (nat -> option (Z -> option Z)).

Definition give (T : given) (j : nat) (v : Varnode) : Varnode :=
  match T j with Some t => renamed_in t v | None => v end.

Fixpoint apply_phis (T : given) (os : list PcodeInsn) : list PcodeInsn :=
  match os with
  | [] => []
  | o :: os' => if seq o =? -1 then set_inputs (imap (give T) (inputs o)) o :: apply_phis T os' else os
  end.

Lemma vkey_renamed t v : no_stack v -> vkey (renamed_in t v) = vkey v /\ no_stack (renamed_in t v).
Proof.
  intros N. unfold renamed_in, versioned. destruct (0 <=? vkey v), (t (vkey v)); try done.
  split; [by apply vkey_offset|done].
Qed.

Lemma renamed_twice t v : no_stack v -> renamed_in t (renamed_in t v) = renamed_in t v.
Proof.
  intros N. unfold renamed_in. destruct (0 <=? vkey v) eqn:E; [|by rewrite E].
  unfold versioned. destruct (t (vkey v)) as [x|] eqn:Et; [|by rewrite E, Et].
  rewrite vkey_offset, E, Et by done. done.
Qed.

Lemma give_no_stack T j v : no_stack v -> no_stack (give T j v).
Proof. intros N. unfold give. destruct (T j); [by apply vkey_renamed|done]. Qed.

Definition set_given (T : given) (j : nat) (t : Z -> option Z) : given := fun i => if decide (i = j) then Some t else T i.

Lemma apply_phis_ext T T' os : (forall j, T j = T' j) -> apply_phis T os = apply_phis T' os.
Proof.
  intros H. induction os as [|o os IH]; [done|]. cbn. destruct (seq o =? -1); [|done]. rewrite IH. f_equal. f_equal.
  apply imap_ext. intros i v _. unfold give. by rewrite H.
Qed.

Lemma apply_phis_none os : apply_phis (fun _ => None) os = os.
Proof.
  induction os as [|o os IH]; [done|]. cbn. destruct (seq o =? -1); [|done]. rewrite IH. f_equal. destruct o as [a b l c d].
  unfold set_inputs. cbn. f_equal. apply list_eq. intros i. rewrite list_lookup_imap. by destruct (l !! i).
Qed.

Lemma update_phis_spec j st T os :
  Forall no_stack_insn os -> T j = None \/ T j = Some (top st) ->
  update_phis j st (apply_phis T os) = (st, apply_phis (set_given T j (top st)) os).
Proof.
  intros H HT. induction os as [|o os IH]; [done|]. apply Forall_cons in H as [Ho H].
  cbn [apply_phis]. destruct (seq o =? -1) eqn:Es; [|cbn; by rewrite Es].
  cbn [update_phis]. cbn [seq set_inputs inputs]. rewrite Es, list_lookup_imap.
  assert (Hin : Forall no_stack (inputs o)) by (by apply Forall_cons in Ho as [_ ?]).
  assert (Ext : forall i v, i <> j -> give (set_given T j (top st)) i v = give T i v).
  { intros i v N. unfold give, set_given. by rewrite decide_False. }
  destruct (inputs o !! j) as [v|] eqn:Ev; cbn [fmap option_fmap option_map].
  - assert (Nv : no_stack v) by (by eapply Forall_lookup_1). rewrite rename_input_top by (by apply give_no_stack).
    rewrite IH by done. f_equal. f_equal. unfold set_inputs. cbn. f_equal. apply list_eq. intros i.
    rewrite list_lookup_imap. destruct (decide (i = j)) as [->|N].
    + rewrite list_lookup_insert_eq by (rewrite length_imap; by eapply lookup_lt_Some). rewrite Ev. cbn. f_equal.
      unfold give, set_given. rewrite decide_True by done. destruct HT as [-> | ->]; [done|by apply renamed_twice].
    + rewrite list_lookup_insert_ne, list_lookup_imap by done. destruct (inputs o !! i); [|done]. cbn. by rewrite Ext.
  - rewrite IH by done. f_equal. f_equal. unfold set_inputs. f_equal. apply list_eq. intros i. rewrite !list_lookup_imap.
    destruct (inputs o !! i) as [w|] eqn:Ew; [|done]. cbn. rewrite Ext; [done|]. intros ->. congruence.
Qed.

Lemma apply_no_phi T o os : (seq o =? -1) = false -> apply_phis T (o :: os) = o :: os.
Proof. intros E. cbn. by rewrite E. Qed.

(** Renaming a block leaves the inputs of its phis alone. *)
Lemma rename_ops_phis st T os :
  Forall no_stack_insn os ->
  rename_ops st (apply_phis T os) = ((rename_ops st os).1, apply_phis T (rename_ops st os).2).
Proof.
  revert st; induction os as [|o os IH]; intros st H; [done|]. pose proof H as [Ho Ht]%Forall_cons.
  cbn [apply_phis]. destruct (seq o =? -1) eqn:Es.
  - rewrite (rename_ops_cons st (set_inputs _ o)).
    + cbn [output set_inputs seq]. rewrite Es. rewrite IH by done. rewrite rename_ops_cons, Es by done. cbn. by rewrite Es.
    + apply Forall_cons in Ho as [Hout Hin]. constructor; [done|]. cbn. apply Forall_forall. intros w Hw.
      apply elem_of_lookup_imap in Hw as (i & v & -> & Hv). apply give_no_stack. by eapply Forall_lookup_1.
  - rewrite rename_ops_cons by done. cbn [fst snd]. rewrite apply_no_phi; [done|]. cbn. exact Es.
Qed.

(** ** What the walk leaves *)

Section Walk.
Context (f : PcodeFunc) (rpo ix : list Z) (O : rpo_ok f rpo ix) (G : graph_ok f).
Context (idom : list Z) (OK : idom_ok f rpo ix idom).
Context (bs0 : list PcodeBlock) (Len : length bs0 = length (blocks f)).
Context (Same : forall i, succs <$> bs0 !! i = succs <$> blocks f !! i /\ preds <$> bs0 !! i = preds <$> blocks f !! i).
Context (Clean : forall b, b ∈ bs0 -> Forall no_stack_insn (ops b)).

Abbreviation e := (start_block f).
Abbreviation d := (at_ idom).
Abbreviation rank := (at_ ix).
Abbreviation Anc := (anc e d).

(** The blocks below [a] in the dominator tree. *)
Definition sub (a c : Z) : Prop := c ∈ rpo /\ Anc c a.

(** Block [p] is the predecessor of [s] at the position whose inputs it gives. *)
Definition gives (p s : Z) (j : nat) : Prop :=
  in_range f s /\ s ∈ succs_of f p /\ exists q, list_find (fun q => q = p) (preds_of f s) = Some (j, q).

(** The state each block was renamed in, and what its phi inputs were given. *)
Abbreviation renamed_at := (Z -> option rename_st).
Abbreviation given_at := (Z -> given).

Definition after (c : Z) (st : rename_st) : rename_st := (rename_ops st (ops_of bs0 c)).1.

Definition block_now (R : renamed_at) (T : given_at) (i : nat) (blk : PcodeBlock) : PcodeBlock :=
  set_ops (apply_phis (T (Z.of_nat i))
    (match R (Z.of_nat i) with None => ops blk | Some st => (rename_ops st (ops blk)).2 end)) blk.

Definition blocks_now (R : renamed_at) (T : given_at) : list PcodeBlock := imap (block_now R T) bs0.

Lemma blocks_now_length R T : length (blocks_now R T) = length (blocks f).
Proof. unfold blocks_now. by rewrite length_imap. Qed.

Lemma blocks_now_ext R T R' T' :
  (forall b, in_range f b -> R b = R' b /\ forall j, T b j = T' b j) -> blocks_now R T = blocks_now R' T'.
Proof.
  intros H. apply imap_ext. intros i blk Hi. cbn. apply lookup_lt_Some in Hi.
  destruct (H (Z.of_nat i)) as [HR HT]; [unfold in_range, num_blocks, zlen; lia|].
  unfold block_now. rewrite HR. f_equal. by apply apply_phis_ext.
Qed.

Lemma block_at_some b : in_range f b -> exists blk, bs0 !! Z.to_nat b = Some blk /\ ops_of bs0 b = ops blk /\
  Forall no_stack_insn (ops blk) /\ succs blk = succs_of f b /\ preds blk = preds_of f b.
Proof.
  unfold in_range, num_blocks, zlen. intros Hb. destruct (lookup_lt_is_Some_2 bs0 (Z.to_nat b)) as [blk E]; [lia|].
  exists blk. split; [done|]. unfold ops_of. rewrite E. split; [done|].
  split; [apply Clean; by eapply list_elem_of_lookup_2|]. destruct (Same (Z.to_nat b)) as [S1 S2]. rewrite E in S1, S2.
  unfold succs_of, preds_of. destruct (blocks f !! Z.to_nat b); [|done]. cbn in *. split; congruence.
Qed.

Lemma lookup_now R T b blk :
  in_range f b -> bs0 !! Z.to_nat b = Some blk ->
  blocks_now R T !! Z.to_nat b = Some (set_ops (apply_phis (T b)
    (match R b with None => ops blk | Some st => (rename_ops st (ops blk)).2 end)) blk).
Proof.
  intros [H0 _] E. unfold blocks_now. rewrite list_lookup_imap, E. cbn. unfold block_now. by rewrite Z2Nat.id.
Qed.

Lemma insert_now R T R' T' b blk os :
  in_range f b -> bs0 !! Z.to_nat b = Some blk ->
  (forall c, c <> b -> R' c = R c /\ forall j, T' c j = T c j) ->
  os = apply_phis (T' b) (match R' b with None => ops blk | Some st => (rename_ops st (ops blk)).2 end) ->
  <[Z.to_nat b := set_ops os blk]> (blocks_now R T) = blocks_now R' T'.
Proof.
  intros Hb E Ext ->. apply list_eq. intros i. pose proof Hb as [H0 _].
  destruct (decide (i = Z.to_nat b)) as [->|N].
  - rewrite list_lookup_insert_eq by (rewrite blocks_now_length; unfold in_range, num_blocks, zlen in Hb; lia).
    by rewrite (lookup_now _ _ b blk).
  - rewrite list_lookup_insert_ne by done. unfold blocks_now. rewrite !list_lookup_imap.
    destruct (bs0 !! i); [|done]. cbn. unfold block_now. destruct (Ext (Z.of_nat i)) as [-> HT]; [lia|].
    f_equal. f_equal. apply apply_phis_ext. intros j. by rewrite HT.
Qed.

(** The successors [l] of [p] get the versions [t] for [p]. *)
Definition give_succs (p : Z) (t : Z -> option Z) (l : list Z) (T : given_at) : given_at := fun s j =>
  if decide (s ∈ l) then
    match list_find (fun q => q = p) (preds_of f s) with
    | Some (i, _) => if decide (j = i) then Some t else T s j
    | None => T s j
    end
  else T s j.

Definition may_give (p : Z) (t : Z -> option Z) (l : list Z) (T : given_at) : Prop :=
  forall s j q, s ∈ l -> in_range f s -> list_find (fun q => q = p) (preds_of f s) = Some (j, q) ->
    T s j = None \/ T s j = Some t.

Lemma update_succ_spec p st R T s :
  may_give p (top st) [s] T ->
  update_succ p (st, blocks_now R T) s = (st, blocks_now R (give_succs p (top st) [s] T)).
Proof.
  intros M. unfold update_succ. unfold zlen at 1. rewrite blocks_now_length.
  assert (Id : (forall c, in_range f c -> forall j, give_succs p (top st) [s] T c j = T c j) ->
    (st, blocks_now R T) = (st, blocks_now R (give_succs p (top st) [s] T))).
  { intros H. f_equal. apply blocks_now_ext. intros b Hb. split; [done|]. intros j. by rewrite H. }
  destruct ((s <? 0) || (Z.of_nat (length (blocks f)) <=? s)) eqn:B.
  { apply Id. intros c Hc j. unfold give_succs. rewrite decide_False; [done|]. intros ->%list_elem_of_singleton.
    unfold in_range, num_blocks, zlen in Hc. rewrite orb_true_iff, Z.ltb_lt, Z.leb_le in B. lia. }
  assert (Hs : in_range f s).
  { unfold in_range, num_blocks, zlen. rewrite orb_false_iff, Z.ltb_ge, Z.leb_gt in B. lia. }
  destruct (block_at_some s Hs) as (blk & Eb & _ & Cl & _ & Ep). rewrite (lookup_now R T s blk Hs Eb).
  cbn [preds set_ops]. rewrite Ep. destruct (list_find _ (preds_of f s)) as [[j q]|] eqn:El.
  - cbn [ops set_ops]. rewrite update_phis_spec.
    + f_equal. change (set_ops ?os (set_ops _ blk)) with (set_ops os blk). apply (insert_now R T R _ s blk); [done|done| |].
      * intros c Nc. split; [done|]. intros j'. unfold give_succs. rewrite decide_False; [done|]. by intros ?%list_elem_of_singleton.
      * apply apply_phis_ext. intros j'. unfold give_succs, set_given. rewrite (decide_True (P := s ∈ [s])) by (by left). by rewrite El.
    + destruct (R s) as [st'|]; [|done]. clear -Cl. revert st'. induction (ops blk) as [|o os IH]; intros st'; [done|].
      apply Forall_cons in Cl as [Ho Cl]. rewrite rename_ops_cons by done. cbn. constructor; [|by apply IH].
      apply Forall_cons in Ho as [Hout Hin]. constructor; cbn.
      * unfold rename_output. rewrite (var_key_no_stack _ _ Hout). by destruct (0 <=? vkey (output o)).
      * destruct (seq o =? -1); [done|]. apply Forall_fmap. eapply Forall_impl; [exact Hin|]. intros v Nv. by apply vkey_renamed.
    + apply (M s j q); [by left|done|done].
  - apply Id. intros c Hc j. unfold give_succs. destruct (decide (c ∈ [s])) as [->%list_elem_of_singleton|]; [|done]. by rewrite El.
Qed.

Lemma give_succs_cons p t s l T c j :
  give_succs p t l (give_succs p t [s] T) c j = give_succs p t (s :: l) T c j.
Proof.
  unfold give_succs. destruct (list_find _ _) as [[i q]|].
  - destruct (decide (c ∈ l)), (decide (c ∈ [s])), (decide (c ∈ s :: l)), (decide (j = i)); try done; set_solver.
  - by destruct (decide (c ∈ l)), (decide (c ∈ [s])), (decide (c ∈ s :: l)).
Qed.

Lemma update_succs_spec p st R T l :
  may_give p (top st) l T ->
  foldl (update_succ p) (st, blocks_now R T) l = (st, blocks_now R (give_succs p (top st) l T)).
Proof.
  revert T; induction l as [|s l IH]; intros T M; cbn [foldl].
  - done.
  - rewrite update_succ_spec by (intros s' j q ->%list_elem_of_singleton; apply M; by left). rewrite IH.
    + f_equal. apply blocks_now_ext. intros b _. split; [done|]. intros j. apply give_succs_cons.
    + intros s' j q Hs' Hr El. unfold give_succs. rewrite El. destruct (decide (s' ∈ [s])); [|apply (M s' j q); [by right|done|done]].
      destruct (decide (j = j)); [by right|done].
Qed.

(** *** The walk over a set of blocks [P] of which [root]s are entered with the
    versions [t0] *)
Record walked (P root : Z -> Prop) (t0 : Z -> option Z) (c0 c1 : Z) (R : renamed_at) (T : given_at)
    (R' : renamed_at) (T' : given_at) : Prop := mk_walked {
  w_kept : forall c, ~ P c -> R' c = R c;
  w_in : forall c, P c -> exists st, R' c = Some st /\ flat_slots st /\
    c0 <= ssa_counter st /\ ssa_counter (after c st) <= c1 /\
    ((root c /\ forall k, top st k = t0 k) \/
     (~ root c /\ c <> e /\ P (d c) /\ exists sd, R' (d c) = Some sd /\ forall k, top st k = top (after (d c) sd) k));
  w_apart : forall a c sa sc, P a -> P c -> a <> c -> R' a = Some sa -> R' c = Some sc ->
    ssa_counter (after a sa) <= ssa_counter sc \/ ssa_counter (after c sc) <= ssa_counter sa;
  w_given : forall p s j st, P p -> gives p s j -> R' p = Some st -> T' s j = Some (top (after p st));
  w_others : forall s j, in_range f s -> (forall p, P p -> ~ gives p s j) -> T' s j = T s j
}.

Lemma gives_same p q s j : gives p s j -> gives q s j -> p = q.
Proof.
  intros (_ & _ & x & E1) (_ & _ & y & E2). apply list_find_Some in E1 as (E1 & -> & _), E2 as (E2 & -> & _). congruence.
Qed.

Lemma walked_ext P P' root t0 c0 c1 R T R' T' :
  (forall c, P c <-> P' c) -> walked P root t0 c0 c1 R T R' T' -> walked P' root t0 c0 c1 R T R' T'.
Proof.
  intros E [H1 H2 H3 H4 H5]. split.
  - intros c N. apply H1. by rewrite E.
  - intros c Hc. apply E in Hc. destruct (H2 c Hc) as (st & A & B & C & D & F). exists st. rewrite <-(E (d c)). done.
  - intros a c sa sc Ha%E Hc%E. by apply H3.
  - intros p s j st Hp%E. by apply H4.
  - intros s j Hs N. apply H5; [done|]. intros p Hp%E. by apply N.
Qed.

(** Two walks over blocks apart, one after the other; [link] says what becomes of the
    roots of the second. *)
Lemma walked_join P1 P2 root1 root2 t1 t2 c0 c1 c2 R T R1 T1 R2 T2 (root : Z -> Prop) :
  walked P1 root1 t1 c0 c1 R T R1 T1 -> walked P2 root2 t2 c1 c2 R1 T1 R2 T2 ->
  c0 <= c1 -> c1 <= c2 -> (forall c, P1 c -> ~ P2 c) ->
  (forall c, P1 c -> root c <-> root1 c) ->
  (forall c, P2 c -> root2 c ->
     (root c /\ forall k, t2 k = t1 k) \/
     (~ root c /\ c <> e /\ P1 (d c) /\ exists sd, R1 (d c) = Some sd /\ forall k, t2 k = top (after (d c) sd) k)) ->
  (forall c, P2 c -> ~ root2 c -> ~ root c) ->
  walked (fun c => P1 c \/ P2 c) root t1 c0 c2 R T R2 T2.
Proof.
  intros [A1 A2 A3 A4 A5] [B1 B2 B3 B4 B5] L1 L2 Dj Ro1 Ro2 Ro3.
  assert (K : forall c, P1 c -> R2 c = R1 c) by (intros c Hc; by apply B1, Dj).
  assert (Or : forall a c sa sc, P1 a -> P2 c -> R2 a = Some sa -> R2 c = Some sc -> ssa_counter (after a sa) <= ssa_counter sc).
  { intros a c sa sc Ha Hc Ea Ec. rewrite (K a Ha) in Ea. destruct (A2 a Ha) as (sa' & Ea' & _ & _ & L & _).
    destruct (B2 c Hc) as (sc' & Ec' & _ & L' & _). replace sa' with sa in * by congruence. replace sc' with sc in * by congruence. lia. }
  split.
  - intros c N. rewrite B1, A1; [done|tauto|tauto].
  - intros c [Hc|Hc].
    + destruct (A2 c Hc) as (st & E1 & F1 & C1 & C2 & H). exists st. rewrite (K c Hc). split_and!; [done|done|done|lia|].
      destruct H as [[H1 H2]|(H1 & H2 & H3 & sd & H4 & H5)]; [left; split; [by apply Ro1|done]|right].
      rewrite (Ro1 c Hc). split_and!; [done|done|by left|]. exists sd. by rewrite (K _ H3).
    + destruct (B2 c Hc) as (st & E1 & F1 & C1 & C2 & H). exists st. split_and!; [done|done|lia|done|].
      destruct H as [[H1 H2]|(H1 & H2 & H3 & sd & H4 & H5)].
      * destruct (Ro2 c Hc H1) as [[H3 H4]|(H3 & H4 & H5 & sd & H6 & H7)]; [left|right].
        -- split; [done|]. intros k. by rewrite H2, H4.
        -- split_and!; [done|done|by left|]. exists sd. rewrite (K _ H5). split; [done|]. intros k. by rewrite H2, H7.
      * right. split_and!; [by apply Ro3|done|by right|]. by exists sd.
  - intros a c sa sc [Ha|Ha] [Hc|Hc] N Ea Ec.
    + rewrite K in Ea, Ec by done. by apply (A3 a c).
    + left. by apply (Or a c).
    + right. by apply (Or c a).
    + by apply (B3 a c).
  - intros p s j st [Hp|Hp] Hg Es; [|by apply (B4 p s j st)].
    rewrite K in Es by done. rewrite B5; [by apply (A4 p s j st)|apply Hg|].
    intros q Hq Hg'. apply (Dj p Hp). by rewrite (gives_same _ _ _ _ Hg Hg').
  - intros s j Hs N. rewrite B5, A5; [done|done| |done|]; intros p Hp; apply N; auto.
Qed.

(** *** Subtrees *)

Lemma sub_refl a : a ∈ rpo -> sub a a.
Proof. intros H. split; [done|apply anc_refl]. Qed.

Lemma sub_rank a c : sub a c -> rank a <= rank c.
Proof. intros [H A]. apply (anc_rank _ _ _ _ _ (idom_tree _ _ _ _ OK) _ _ A). by apply (idom_set _ _ _ _ OK). Qed.

Lemma sub_range a c : sub a c -> in_range f c.
Proof. intros [H _]. by apply (R_range f rpo ix O). Qed.

(** A child of [a]. *)
Definition child (a x : Z) : Prop := x ∈ rpo /\ x <> e /\ d x = a.

Lemma sub_child a c : sub a c <-> (c = a /\ a ∈ rpo) \/ exists x, child a x /\ sub x c.
Proof.
  split.
  - intros [Hc A]. revert Hc. induction A as [|c x N A IH]; intros Hc; [by left|right].
    pose proof (idom_in _ _ _ O _ OK c Hc) as Hd. destruct (IH Hd) as [[E Hx]|(y & Hy & Hs)].
    + exists c. split; [by split|]. by apply sub_refl.
    + exists y. split; [done|]. split; [done|]. apply anc_up; [done|apply Hs].
  - intros [[-> H]|(x & (Hx & N & <-) & Hs)]; [by apply sub_refl|]. split; [apply Hs|].
    eapply anc_trans; [apply Hs|]. apply anc_up; [done|apply anc_refl].
Qed.

Lemma child_rank a x : child a x -> rank a < rank x.
Proof. intros (H & N & <-). by apply (idom_rank _ _ _ _ OK). Qed.

Lemma children_apart a x y c : child a x -> child a y -> sub x c -> sub y c -> x = y.
Proof.
  assert (W : forall x y c, child a x -> child a y -> sub x c -> sub y c -> rank y <= rank x -> x = y).
  { clear x y c. intros x y c Cx Cy [Hc A1] [_ A2] L.
    pose proof (anc_linear _ _ _ _ _ (idom_tree _ _ _ _ OK) c y x (idom_set _ _ _ _ OK c Hc) A1 A2 L) as A.
    inversion A as [|? ? N A']; subst; [done|]. exfalso. destruct Cx as (Hx & _ & Ex). rewrite Ex in A'.
    pose proof (child_rank _ _ Cy). assert (Ha : a ∈ rpo) by (rewrite <-Ex; by apply (idom_in _ _ _ O _ OK)).
    pose proof (sub_rank y a ltac:(by split)). lia. }
  intros Cx Cy Sx Sy. destruct (decide (rank y <= rank x)) as [L|L]; [by eapply W|].
  symmetry. eapply W; [done|done|done|done|lia].
Qed.

(** *** One block *)

Definition set_renamed (R : renamed_at) (b : Z) (st : rename_st) : renamed_at := fun c => if decide (c = b) then Some st else R c.

Definition clear_pushed (st : rename_st) : rename_st := mk_rename (slots st) (stacks st) (ssa_counter st) ∅.

Lemma after_grown b st : in_range f b -> flat_slots st -> grown st (after b st).
Proof.
  intros Hb F. destruct (block_at_some b Hb) as (blk & _ & Eo & Cl & _). unfold after. rewrite Eo.
  by apply rename_ops_grown.
Qed.

Definition fresh (P : Z -> Prop) (R : renamed_at) (T : given_at) : Prop :=
  (forall c, P c -> R c = None) /\ forall p s j, P p -> gives p s j -> T s j = None.

Lemma walked_one b st R T :
  b ∈ rpo -> flat_slots st -> fresh (fun c => c = b) R T ->
  let st1 := after b (clear_pushed st) in
  walked (fun c => c = b) (fun c => c = b) (top st) (ssa_counter st) (ssa_counter st1) R T
    (set_renamed R b (clear_pushed st)) (give_succs b (top st1) (succs_of f b) T).
Proof.
  intros Hb F [FR FT] st1. unfold set_renamed. split.
  - intros c N. by rewrite decide_False.
  - intros c ->. rewrite decide_True by done. eexists. split; [done|]. split_and!; [done|cbn; lia|done|]. by left.
  - intros a c sa sc -> ->. done.
  - intros p s j st' -> (Hs & Hin & q & El). rewrite decide_True by done. intros [= <-].
    unfold give_succs. rewrite decide_True, El, decide_True by done. done.
  - intros s j Hs N. unfold give_succs. destruct (decide (s ∈ succs_of f b)) as [Hin|]; [|done].
    destruct (list_find _ (preds_of f s)) as [[i q]|] eqn:El; [|done]. destruct (decide (j = i)) as [->|]; [|done].
    exfalso. apply (N b eq_refl). split; [done|]. split; [done|]. by exists q.
Qed.

(** The first part of [rename_block]: the operations and the successors' phis. *)
Lemma rename_here b st R T blk :
  b ∈ rpo -> flat_slots st -> fresh (fun c => c = b) R T -> bs0 !! Z.to_nat b = Some blk ->
  let st1 := after b (clear_pushed st) in
  exists os, rename_ops (clear_pushed st) (apply_phis (T b) (ops blk)) = (st1, os) /\
    foldl (update_succ b) (st1, <[Z.to_nat b := set_ops os blk]> (blocks_now R T)) (succs blk) =
      (st1, blocks_now (set_renamed R b (clear_pushed st)) (give_succs b (top st1) (succs_of f b) T)).
Proof.
  intros Hb F [FR FT] Eb st1. pose proof (R_range f rpo ix O b Hb) as Rb.
  destruct (block_at_some b Rb) as (blk' & Eb' & Eo & Cl & Es & _). rewrite Eb in Eb'. injection Eb' as <-.
  rewrite rename_ops_phis by done. eexists. split; [unfold st1, after; by rewrite Eo|].
  rewrite (insert_now R T (set_renamed R b (clear_pushed st)) T b blk); [|done|done| |].
  - rewrite Es. apply update_succs_spec. intros s j q Hs Hr El. left. apply (FT b s j eq_refl).
    split; [done|]. split; [done|]. by exists q.
  - intros c N. unfold set_renamed. by rewrite decide_False.
  - unfold set_renamed. by rewrite decide_True.
Qed.

(** *** The whole walk *)

Context (ch : list (list Z)) (Ech : compute_children f rpo idom = Some ch).

Lemma children_of a : a ∈ rpo -> exists cs, rd ch a = Some cs /\ NoDup cs /\ forall x, x ∈ cs <-> child a x.
Proof.
  intros Ha. pose proof (R_range f rpo ix O a Ha) as [H0 H1].
  destruct (compute_children_spec f rpo ix O idom OK) as (ch' & E' & ->). rewrite Ech in E'. injection E' as ->.
  eexists. split; [unfold rd; destruct (Z.ltb_spec a 0); [lia|]|].
  - rewrite list_lookup_fmap. rewrite (proj2 (lookup_seqZ _ _ (Z.to_nat a) a)) by lia. done.
  - split; [apply NoDup_ListNoDup, List.NoDup_filter, NoDup_ListNoDup, O|]. intros x. rewrite list_elem_of_In, filter_In, <-list_elem_of_In.
    unfold child. rewrite andb_true_iff, negb_true_iff, Z.eqb_neq, Z.eqb_eq. tauto.
Qed.

(** What [rename_block] does to the blocks below [b]. *)
Definition renames (fuel : nat) (b : Z) : Prop :=
  forall st R T, b ∈ rpo -> flat_slots st -> fresh (sub b) R T ->
  exists st' R' T', rename_block fuel ch b st (blocks_now R T) = Some (st', blocks_now R' T') /\
    flat_slots st' /\ (forall k, stk st' k = stk st k) /\ ssa_counter st <= ssa_counter st' /\
    walked (sub b) (fun c => c = b) (top st) (ssa_counter st) (ssa_counter st') R T R' T'.

Lemma top_stk st st' : (forall k, stk st' k = stk st k) -> forall k, top st' k = top st k.
Proof. intros H k. unfold top. by rewrite H. Qed.

(** The loop over the children. *)
Lemma rename_children fuel a cs st R T :
  (forall x, child a x -> renames fuel x) -> NoDup cs -> (forall x, x ∈ cs -> child a x) ->
  flat_slots st -> fresh (fun c => exists x, x ∈ cs /\ sub x c) R T ->
  exists st' R' T', foldM (fun acc c => rename_block fuel ch c acc.1 acc.2) cs (st, blocks_now R T) = Some (st', blocks_now R' T') /\
    flat_slots st' /\ (forall k, stk st' k = stk st k) /\ ssa_counter st <= ssa_counter st' /\
    walked (fun c => exists x, x ∈ cs /\ sub x c) (fun c => c ∈ cs) (top st) (ssa_counter st) (ssa_counter st') R T R' T'.
Proof.
  intros IH. revert st R T. induction cs as [|x cs IHcs]; intros st R T N Hc F Fr; cbn [foldM fst snd].
  - exists st, R, T. split_and!; [done|done|done|lia|]. apply (walked_ext (fun _ => False)); [set_solver|].
    by split.
  - apply NoDup_cons in N as [Nx N]. pose proof (Hc x ltac:(by left)) as Cx. destruct Fr as [FR FT].
    destruct (IH x Cx st R T) as (st1 & R1 & T1 & -> & F1 & K1 & L1 & W1); [apply Cx|done| |].
    { split; [intros c Hs; apply FR; exists x; split; [by left|done]|].
      intros p s j Hs. apply FT. exists x. split; [by left|done]. }
    cbn [mbind option_bind fst snd].
    assert (Dj : forall c, sub x c -> ~ exists y, y ∈ cs /\ sub y c).
    { intros c Hs (y & Hy & Hs'). apply Nx. rewrite (children_apart a x y c); [done|done|apply Hc; by right|done|done]. }
    destruct (IHcs st1 R1 T1) as (st2 & R2 & T2 & -> & F2 & K2 & L2 & W2); [done|intros y Hy; apply Hc; by right|done| |].
    { split.
      - intros c Hs. rewrite (w_kept _ _ _ _ _ _ _ _ _ W1); [|intros H; by apply (Dj c)].
        apply FR. destruct Hs as (y & Hy & Hs). exists y. split; [by right|done].
      - intros p s j Hs Hg. rewrite (w_others _ _ _ _ _ _ _ _ _ W1); [|apply Hg|].
        + apply (FT p s j); [|done]. destruct Hs as (y & Hy & Hs). exists y. split; [by right|done].
        + intros q Hq Hg'. rewrite (gives_same _ _ _ _ Hg' Hg) in Hq. by apply (Dj p). }
    exists st2, R2, T2. split_and!; [done|done|intros k; by rewrite K2|lia|].
    eapply walked_ext; [|eapply (walked_join _ _ _ _ _ _ _ _ _ _ _ _ _ _ _ _ W1 W2)]; try done.
    + intros c. set_solver.
    + intros c Hs. split; [intros [->|Hin]%elem_of_cons; [done|]|intros ->; by left].
      exfalso. apply (Dj c Hs). exists c. split; [done|]. apply sub_refl, (Hc c). by right.
    + intros c Hs Hin. left. split; [by right|]. by apply top_stk.
    + intros c Hs Hin [->|]%elem_of_cons; [|done]. apply (Dj x); [|done]. apply sub_refl, Cx.
Qed.

Lemma rename_block_spec fuel b :
  (length rpo <= Z.to_nat (rank b) + fuel)%nat -> renames fuel b.
Proof.
  revert b; induction fuel as [|fuel IH]; intros b Lf st R T Hb F Fr.
  - pose proof (rank_lookup f rpo ix O b Hb) as (i & _ & E & L). lia.
  - pose proof (R_range f rpo ix O b Hb) as Rb. pose proof (rank_pos f rpo ix O b Hb).
    cbn [rename_block]. unfold zlen at 1. rewrite blocks_now_length.
    destruct ((b <? 0) || (Z.of_nat (length (blocks f)) <=? b)) eqn:B.
    { unfold in_range, num_blocks, zlen in Rb. rewrite orb_true_iff, Z.ltb_lt, Z.leb_le in B. lia. }
    destruct (block_at_some b Rb) as (blk & Eb & Eo & Cl & Es & _). rewrite (lookup_now R T b blk Rb Eb).
    destruct Fr as [FR FT]. rewrite FR by (by apply sub_refl). cbn [mbind option_bind].
    assert (F1 : fresh (fun c => c = b) R T).
    { split; [intros c ->; by apply FR, sub_refl|]. intros p s j ->. by apply FT, sub_refl. }
    destruct (rename_here b st R T blk Hb F F1 Eb) as (os & E1 & E2). set (st1 := after b (clear_pushed st)) in *.
    fold (clear_pushed st). change (ops (set_ops ?x blk)) with x. change (succs (set_ops ?x blk)) with (succs blk).
    change (set_ops ?x (set_ops ?y blk)) with (set_ops x blk).
    rewrite E1, E2. destruct (children_of b Hb) as (cs & Ec & Nc & Hc). rewrite Ec. cbn [mbind option_bind].
    pose proof (walked_one b st R T Hb F F1) as W1. cbn zeta in W1. fold st1 in W1.
    pose proof (after_grown b (clear_pushed st) Rb F) as Gr. fold st1 in Gr.
    assert (Below : forall c x, x ∈ cs -> sub x c -> c <> b).
    { intros c x Hx Hs ->. apply Hc, child_rank in Hx. apply sub_rank in Hs. lia. }
    destruct (rename_children fuel b cs st1 (set_renamed R b (clear_pushed st)) (give_succs b (top st1) (succs_of f b) T))
      as (st3 & R3 & T3 & E3 & F3 & K3 & L3 & W3).
    + intros x Cx. apply IH. pose proof (child_rank b x Cx). lia.
    + done.
    + intros x. apply Hc.
    + apply Gr.
    + split.
      * intros c (x & Hx & Hs). unfold set_renamed. rewrite decide_False by (by eapply Below). apply FR, sub_child. right.
        exists x. split; [by apply Hc|done].
      * intros p s j (x & Hx & Hs) Hg. rewrite (w_others _ _ _ _ _ _ _ _ _ W1); [|apply Hg|].
        -- apply (FT p s j); [|done]. apply sub_child. right. exists x. split; [by apply Hc|done].
        -- intros q -> Hg'. apply (Below p x Hx Hs). by apply (gives_same p b s j).
    + rewrite E3. cbn [mbind option_bind fst snd]. eexists _, R3, T3. split; [done|]. destruct Gr as (Fg & Lg & Hg).
      split_and!; [done| |cbn in *; lia|].
      * intros k. change (stk (mk_rename _ (pop_pushed (pushed st1) (stacks st3)) _ _) k)
          with (default [] (pop_pushed (pushed st1) (stacks st3) !! k)).
        apply (pop_grown st st1 st3); [by split_and!|done].
      * cbn [ssa_counter]. eapply walked_ext; [|eapply (walked_join _ _ _ _ _ _ _ _ _ _ _ _ _ _ _ _ W1 W3)]; try done.
        -- intros c. rewrite sub_child. setoid_rewrite <-Hc. split; [intros [->|H']; [left; done|by right]|intros [[-> _]|H']; [by left|by right]].
        -- intros c -> (x & Hx & Hs). by apply (Below b x).
        -- intros c (x & Hx & Hs) Hin. right. pose proof (proj1 (Hc c) Hin) as (Rc & Nc' & Ed). rewrite Ed.
           split_and!; [by apply (Below c x)|done|done|]. exists (clear_pushed st). unfold set_renamed. rewrite decide_True by done.
           split; [done|]. done.
        -- intros c (x & Hx & Hs) _. by apply (Below c x).
Qed.
End Walk.
