(* ===== verification/Build.v ===== *)
(** * SSA construction is sound: src/hyperion/core/decompiler/ssa.cpp, [build]

    The composition of the order, the dominators, the frontiers, the phis and the
    renaming, and its correctness: every path of the function does in SSA form what it
    did before.  The operands are registers and temporaries of one width, as the
    renaming assumes; the lemmas at the end show what happens otherwise. *)

From S2P Require Import Prelude Ir Ssa Dom Phi Rename CopyProp.

#[local] Open Scope Z_scope.

Definition build (order : gmap Z (list Z) -> list Z) (f : PcodeFunc) : option PcodeFunc :=
  if bool_decide (blocks f = []) then Some f
  else
    r ← compute_reverse_postorder f;
    idom ← compute_dominators f r.1 r.2;
    ch ← compute_children f r.1 idom;
    df ← compute_dom_frontiers f idom;
    p ← insert_phis order df (blocks f);
    r ← rename ch p.1 (start_block f) p.2;
    Some (mk_func (entry f) (f_name f) r.2 (next_temp f) (ssa_counter r.1) (params f) (locals f)).

(** ** The functions the renaming is made for *)

(** A constant, or a register or temporary without a version. *)
Definition plain_vn (v : Varnode) : Prop :=
  is_const v = true \/ ((is_reg v = true \/ is_temp v = true) /\ 0 <= id v < 1000 /\ offset v = 0).

Record plain_insn (o : PcodeInsn) : Prop := mk_plain_insn {
  pl_seq : (seq o =? -1) = false;
  pl_operands : Forall plain_vn (output o :: inputs o);
  pl_nop : is_nop o = true -> is_const (output o) = true;
  pl_copy : op o = COPY -> is_const (output o) = false
}.

Record liftable (f : PcodeFunc) : Prop := mk_liftable {
  l_blocks : blocks f <> [];
  l_graph : graph_ok f;
  l_entry : preds_of f (start_block f) = [];
  l_preds : forall b, in_range f b -> NoDup (preds_of f b);
  l_ops : forall b o, b ∈ blocks f -> o ∈ ops b -> plain_insn o
}.

(** The variables of [narrow] are local to a block: phis are 8 bytes wide, so they may be
    read only after the block has set them, in the width it set them; the others are 8
    bytes wide everywhere. *)
Definition may_read (narrow : Z -> bool) (seen : list (Z * Z)) (v : Varnode) : Prop :=
  is_const v = true \/ (size v = 8 /\ narrow (vkey v) = false) \/ (size v, vkey v) ∈ seen.

Definition may_write (narrow : Z -> bool) (v : Varnode) : Prop :=
  is_const v = true \/ narrow (vkey v) = true \/ size v = 8.

Definition seen_after (v : Varnode) (seen : list (Z * Z)) : list (Z * Z) :=
  if is_const v then seen else (size v, vkey v) :: filter (fun p => p.2 <> vkey v) seen.

Fixpoint local_from (narrow : Z -> bool) (seen : list (Z * Z)) (os : list PcodeInsn) : Prop :=
  match os with
  | [] => True
  | o :: os' =>
      Forall (may_read narrow seen) (inputs o) /\ may_write narrow (output o) /\ local_from narrow (seen_after (output o) seen) os'
  end.

#[export] Instance may_read_dec narrow seen v : Decision (may_read narrow seen v).
Proof. unfold may_read. apply _. Defined.

#[export] Instance may_write_dec narrow v : Decision (may_write narrow v).
Proof. unfold may_write. apply _. Defined.

#[export] Instance local_from_dec narrow seen os : Decision (local_from narrow seen os).
Proof. revert seen; induction os; intros seen; cbn; apply _. Defined.

Definition local_vars (narrow : Z -> bool) (f : PcodeFunc) : Prop := forall b, b ∈ blocks f -> local_from narrow [] (ops b).

Lemma plain_no_stack v : plain_vn v -> no_stack v.
Proof. unfold plain_vn, no_stack, is_const, is_reg, is_temp, is_stack. destruct (kind v); cbn; naive_solver. Qed.

Lemma plain_key v : plain_vn v ->
  (is_const v = true /\ vkey v = -1) \/
  (is_const v = false /\ 0 <= vkey v < 2000 /\ offset v = 0 /\
   forall n, key (set_offset n v) = mk_key (if vkey v <? 1000 then Reg else Temp) (if vkey v <? 1000 then vkey v else vkey v - 1000) n (size v)).
Proof.
  unfold plain_vn, is_const, is_reg, is_temp, vkey, var_key. destruct (kind v) eqn:E; cbn; intros [H|[[H|H] (H1 & H2)]]; try done.
  - right. split_and!; [done|lia|lia|done|]. intros n. unfold key. cbn. rewrite E.
    by destruct (Z.ltb_spec (id v) 1000); [|lia].
  - right. split_and!; [done|lia|lia|done|]. intros n. unfold key. cbn. rewrite E.
    destruct (Z.ltb_spec (1000 + id v) 1000); [lia|]. f_equal. lia.
  - by left.
Qed.

(** The variable of key [k] in version [n], [z] bytes wide. *)
Definition var_at (z k n : Z) : VnKey :=
  mk_key (if k <? 1000 then Reg else Temp) (if k <? 1000 then k else k - 1000) n z.

Lemma var_at_inj z k n z' k' n' : 0 <= k -> 0 <= k' -> var_at z k n = var_at z' k' n' -> z = z' /\ k = k' /\ n = n'.
Proof. unfold var_at. intros H H' [= E1 E2 -> ->]. destruct (Z.ltb_spec k 1000), (Z.ltb_spec k' 1000); try done; split_and!; try done; lia. Qed.

(** An item sets a version of a variable; the version an item of [A] set last, 0 when
    none did. *)
Definition writes (x : item) (k n : Z) : Prop := exists z, defines x (var_at z k n).

Definition latest (A : list item) (k n : Z) : Prop :=
  (n = 0 /\ forall y m, y ∈ A -> ~ writes y k m) \/
  exists A1 y A2, A = A1 ++ y :: A2 /\ writes y k n /\ forall y' m, y' ∈ A2 -> ~ writes y' k m.

(** Along every path from the entry, an operation reads a variable in the version that
    was defined last. *)
Definition reads_latest (g : PcodeFunc) : Prop :=
  forall path A x B v, valid_path g path -> flat g path = A ++ x :: B -> reads x v ->
  exists z k n, 0 <= k /\ v = var_at z k n /\ latest A k n.

Lemma latest_keep A x k n : latest A k n -> (forall m, ~ writes x k m) -> latest (A ++ [x]) k n.
Proof.
  intros La N. destruct La as [[-> F]|(A1 & y & A2 & -> & W & F)].
  - left. split; [done|]. intros y m [Hy| ->%list_elem_of_singleton]%elem_of_app; [by apply F|done].
  - right. exists A1, y, (A2 ++ [x]). split; [by rewrite <-app_assoc|]. split; [done|].
    intros y' m [Hy| ->%list_elem_of_singleton]%elem_of_app; [by apply F|done].
Qed.

Lemma latest_set A x k n : writes x k n -> latest (A ++ [x]) k n.
Proof. intros W. right. exists A, x, []. split; [done|]. split; [done|]. by intros y m ?%not_elem_of_nil. Qed.

Lemma plain_var v : plain_vn v -> is_const v = false -> 0 <= vkey v < 2000 /\ forall n, key (set_offset n v) = var_at (size v) (vkey v) n.
Proof. intros H N. destruct (plain_key v H) as [[H1 _]|(_ & H2 & _ & H3)]; [congruence|]. by split. Qed.

Lemma plain_self v : plain_vn v -> is_const v = false -> key v = var_at (size v) (vkey v) 0.
Proof.
  intros H N. destruct (plain_key v H) as [[H1 _]|(_ & H2 & H3 & H4)]; [congruence|].
  unfold var_at. rewrite <-(H4 0). unfold key. cbn. by rewrite H3.
Qed.

Lemma plain_const v : plain_vn v -> is_const v = true -> vkey v = -1.
Proof. intros H N. destruct (plain_key v H) as [[_ H1]|(H1 & _)]; [done|congruence]. Qed.

(** ** The version of each variable *)

Definition cur (st : rename_st) (k : Z) : Z := default 0 (top st k).

(** The key a use has after renaming. *)
Lemma renamed_key st v :
  plain_vn v -> is_const v = false -> key (renamed_in (top st) v) = var_at (size v) (vkey v) (cur st (vkey v)).
Proof.
  intros H N. destruct (plain_var v H N) as [R K]. unfold renamed_in, cur. destruct (Z.leb_spec 0 (vkey v)); [|lia].
  destruct (top st (vkey v)); cbn; [apply K|by apply plain_self].
Qed.

Lemma renamed_const st v : plain_vn v -> is_const v = true -> renamed_in (top st) v = v.
Proof. intros H N. unfold renamed_in. by rewrite (plain_const v H N). Qed.

Lemma is_const_renamed t v : is_const (renamed_in t v) = is_const v.
Proof. unfold renamed_in, versioned. by destruct (0 <=? vkey v), (t (vkey v)). Qed.

(** The output of an operation, and the versions after it. *)
Lemma rename_output_cur st v :
  plain_vn v ->
  let r := rename_output st v in
  (is_const v = true -> r.2 = v /\ forall k, 0 <= k -> cur r.1 k = cur st k) /\
  (is_const v = false -> r.2 = set_offset (ssa_counter st + 1) v /\ ssa_counter r.1 = ssa_counter st + 1 /\
     forall k, 0 <= k -> cur r.1 k = if decide (k = vkey v) then ssa_counter st + 1 else cur st k).
Proof.
  intros H. unfold rename_output. rewrite (var_key_no_stack _ _ (plain_no_stack v H)). cbn. split.
  - intros N. rewrite (plain_const v H N). cbn. done.
  - intros N. destruct (plain_var v H N) as [R _]. destruct (Z.leb_spec 0 (vkey v)); [|lia]. cbn.
    split_and!; [done|done|]. intros k Hk. unfold cur, top, stk. cbn. destruct (decide (k = vkey v)) as [->|Nk].
    + by rewrite lookup_insert_eq.
    + by rewrite lookup_insert_ne.
Qed.

(** ** The phis of a block *)

Lemma phi_output_plain k : 0 <= k < 2000 ->
  plain_vn (phi_output ∅ k) /\ is_const (phi_output ∅ k) = false /\ vkey (phi_output ∅ k) = k.
Proof.
  intros H. unfold phi_output. destruct (Z.leb_spec 2000 k); [lia|]. destruct (Z.ltb_spec k 1000).
  - split_and!; [right; split_and!; try done; [by left|cbn; lia]|done|done].
  - split_and!; [right; split_and!; try done; [by right|cbn; lia|cbn; lia]|done|unfold vkey; cbn; lia].
Qed.

Lemma phi_output_size k : size (phi_output ∅ k) = 8.
Proof. unfold phi_output. destruct (2000 <=? k); [done|]. by destruct (k <? 1000). Qed.

Lemma rename_ops_app st a b :
  rename_ops st (a ++ b) = (let r := rename_ops st a in let r' := rename_ops r.1 b in (r'.1, r.2 ++ r'.2)).
Proof.
  revert st; induction a as [|o a IH]; intros st; cbn [app rename_ops fst snd].
  - by destruct (rename_ops st b).
  - destruct (if seq o =? -1 then _ else _) as [st1 ins]. destruct (rename_output st1 (output o)) as [st2 out].
    rewrite IH. destruct (rename_ops st2 a) as [st3 a']. cbn. by destruct (rename_ops st3 b).
Qed.

Lemma phi_no_stack k n : 0 <= k < 2000 -> no_stack_insn (phi_insn ∅ k n).
Proof.
  intros H. destruct (phi_output_plain k H) as (P & _ & _). pose proof (plain_no_stack _ P).
  constructor; [done|]. cbn. by apply Forall_replicate.
Qed.

(** The renamed phis: a new version each. *)
Lemma rename_phis_cons st k ks n :
  0 <= k < 2000 ->
  rename_ops st (phis ∅ (k :: ks) n) =
    (let ro := rename_output st (phi_output ∅ k) in
     let r := rename_ops ro.1 (phis ∅ ks n) in
     (r.1, set_output ro.2 (phi_insn ∅ k n) :: r.2)).
Proof. intros H. unfold phis. cbn [fmap list_fmap]. by rewrite rename_ops_cons by (by apply phi_no_stack). Qed.

Lemma phis_app (T : given) st ks n os :
  (forall k, k ∈ ks -> 0 <= k < 2000) -> Forall plain_insn os ->
  apply_phis T (rename_ops st (phis ∅ ks n ++ os)).2 =
    apply_phis T (rename_ops st (phis ∅ ks n)).2 ++ (rename_ops (rename_ops st (phis ∅ ks n)).1 os).2.
Proof.
  intros Hk Ho. rewrite rename_ops_app. cbn zeta. cbn [fst snd].
  revert st Hk. induction ks as [|k ks IH]; intros st Hk.
  - cbn. destruct os as [|o os]; [done|]. apply Forall_cons in Ho as [Ho _].
    rewrite rename_ops_cons by (eapply Forall_impl; [apply Ho|]; apply plain_no_stack).
    cbn [snd]. apply apply_no_phi, Ho.
  - rewrite rename_phis_cons by (apply Hk; by left). cbn zeta. cbn [fst snd app apply_phis seq set_output phi_insn].
    cbn. f_equal. apply IH. intros k' Hk'. apply Hk. by right.
Qed.

Lemma is_phi_split (T : given) st ks n os :
  (forall k, k ∈ ks -> 0 <= k < 2000) -> Forall plain_insn os ->
  let P := apply_phis T (rename_ops st (phis ∅ ks n)).2 in
  let os' := (rename_ops (rename_ops st (phis ∅ ks n)).1 os).2 in
  List.filter is_phi (P ++ os') = P /\ List.filter (fun i => negb (is_phi i)) (P ++ os') = os'.
Proof.
  intros Hk Ho P os'. rewrite !List.filter_app.
  assert (A : forall i, i ∈ P -> is_phi i = true).
  { subst P. clear -Hk. revert st Hk. induction ks as [|k ks IH]; intros st Hk i; [by intros ?%not_elem_of_nil|].
    rewrite rename_phis_cons by (apply Hk; by left). cbn. intros [->|H]%elem_of_cons; [done|].
    eapply IH; [|exact H]. intros k' Hk'. apply Hk. by right. }
  assert (B : forall i, i ∈ os' -> is_phi i = false).
  { subst os' P. clear A. revert Ho. generalize (rename_ops st (phis ∅ ks n)).1. clear -os. induction os as [|o os IH]; intros st Ho i; [by intros ?%not_elem_of_nil|].
    apply Forall_cons in Ho as [Ho Hos]. rewrite rename_ops_cons by (eapply Forall_impl; [apply Ho|]; apply plain_no_stack).
    cbn. intros [->|H]%elem_of_cons; [|by eapply IH]. unfold is_phi. cbn. by rewrite (pl_seq _ Ho), andb_false_r. }
  split.
  - rewrite (filter_all _ P), (filter_none _ os'); [by rewrite app_nil_r|done|done].
  - rewrite (filter_none _ P), (filter_all _ os'); [done| |]; intros i Hi; [by rewrite B|by rewrite A].
Qed.

(** ** One block *)

Section Run.
Context {Mem : Type} (act : PcodeOp -> Z -> list Z -> Mem -> Mem * Z).
Implicit Types s t : state Mem.

Context (narrow : Z -> bool).

(** The states agree on the variables of [G], given by width and key, each of the second
    in version [V]. *)
Definition rel (G : Z -> Z -> Prop) (V : Z -> Z) (s t : state Mem) : Prop :=
  mem s = mem t /\ trace s = trace t /\
  forall z k, 0 <= k < 2000 -> G z k -> env s (var_at z k 0) = env t (var_at z k (V k)).

Lemma rel_ext (G H : Z -> Z -> Prop) V W s t :
  (forall z k, H z k -> G z k) -> (forall k, 0 <= k < 2000 -> V k = W k) -> rel G V s t -> rel H W s t.
Proof. intros M E (A & B & C). split_and!; [done|done|]. intros z k Hk Hh. rewrite <-E by done. by apply C; [|apply M]. Qed.

(** The variables that may be read. *)
Definition good (seen : list (Z * Z)) (z k : Z) : Prop := (z = 8 /\ narrow k = false) \/ (z, k) ∈ seen.

Lemma rel_value seen st s t v :
  plain_vn v -> may_read narrow seen v -> rel (good seen) (cur st) s t ->
  value (env s) v = value (env t) (renamed_in (top st) v).
Proof.
  intros H W (_ & _ & E). unfold value. rewrite is_const_renamed. destruct (is_const v) eqn:N.
  - by rewrite renamed_const.
  - destruct W as [|W]; [congruence|]. rewrite (plain_self v H N), (renamed_key st v H N). apply E; [by apply plain_var|exact W].
Qed.

Lemma exec_rel seen st o s t :
  plain_insn o -> Forall (may_read narrow seen) (inputs o) -> may_write narrow (output o) -> rel (good seen) (cur st) s t ->
  let ro := rename_output st (output o) in
  rel (good (seen_after (output o) seen)) (cur ro.1)
    (exec act o s) (exec act (set_output ro.2 (set_inputs (renamed_in (top st) <$> inputs o) o)) t).
Proof.
  intros [Hs Hf Hn _] Rf Wf Rl ro. apply Forall_cons in Hf as [Ho Hi].
  destruct (rename_output_cur st (output o) Ho) as [HC HV]. fold ro in HC, HV.
  unfold exec, seen_after. change (is_nop (set_output _ _)) with (is_nop o). destruct (is_nop o) eqn:Nop.
  { rewrite (Hn eq_refl). destruct (HC (Hn eq_refl)) as [_ E].
    apply (rel_ext (good seen) _ (cur st)); [done| |done]. intros k Hk. symmetry. apply E. lia. }
  cbn [inputs set_inputs set_output op addr output].
  assert (Ev : value (env s) <$> inputs o = value (env t) <$> (renamed_in (top st) <$> inputs o)).
  { rewrite <-list_fmap_compose. apply list_fmap_ext. intros i v Hv. cbn. apply (rel_value seen);
      [exact (Forall_lookup_1 _ _ _ _ Hi Hv)|exact (Forall_lookup_1 _ _ _ _ Rf Hv)|done]. }
  rewrite <-Ev. pose proof Rl as (Em & Et & Ee). rewrite Em, Et.
  assert (Es : size ro.2 = size (output o)) by (destruct (is_const (output o)) eqn:N; [by destruct (HC eq_refl) as [-> _]|by destruct (HV eq_refl) as [-> _]]).
  rewrite Es. split_and!; cbn [mem trace env]; [done|done|]. intros z k Hk Gk. unfold assign.
  destruct (is_const (output o)) eqn:N.
  - destruct (HC eq_refl) as [-> E]. rewrite N, E by lia. by apply Ee.
  - destruct (HV eq_refl) as (-> & _ & E). change (is_const (set_offset _ (output o))) with (is_const (output o)). rewrite N.
    destruct (plain_var _ Ho N) as [R K]. rewrite (plain_self _ Ho N), K, E by lia.
    destruct (decide (k = vkey (output o))) as [->|Nk].
    + assert (z = size (output o)) as ->; [|by rewrite !decide_True].
      destruct Gk as [[-> Nr]|[[= ->]|[Hp _]%list_elem_of_filter]%elem_of_cons]; [|done|done]. destruct Wf as [|[|]]; congruence.
    + assert (Nv : forall z' m m', var_at z k m <> var_at z' (vkey (output o)) m').
      { intros z' m m' E'. apply var_at_inj in E' as (_ & ? & _); [done|lia|lia]. }
      rewrite !decide_False by done. apply Ee; [done|].
      destruct Gk as [|[[= -> ?]|[_ Hp]%list_elem_of_filter]%elem_of_cons]; [by left|done|by right].
Qed.

Lemma exec_ops_rel seen st os s t :
  Forall plain_insn os -> local_from narrow seen os -> rel (good seen) (cur st) s t ->
  rel (good []) (cur (rename_ops st os).1) (foldl (fun s i => exec act i s) s os) (foldl (fun s i => exec act i s) t (rename_ops st os).2).
Proof.
  revert seen st s t; induction os as [|o os IH]; intros seen st s t H Lo Rl.
  - eapply rel_ext; [|done|exact Rl]. intros z k [|Hk]; [by left|by apply not_elem_of_nil in Hk].
  - apply Forall_cons in H as [Ho H]. destruct Lo as (Ri & Wo & Lo). rewrite rename_ops_cons.
    + cbn zeta. cbn [fst snd foldl]. rewrite (pl_seq _ Ho). apply (IH (seen_after (output o) seen)); [done|done|]. by apply exec_rel.
    + eapply Forall_impl; [apply Ho|]. apply plain_no_stack.
Qed.

(** The phis move each variable of 8 bytes from its version at the end of the
    predecessor, [tp], to the one of the phi. *)
Lemma exec_phis_rel (T : given) tp p n st ks e0 e' :
  (p < n)%nat -> (ks <> [] -> T p = Some (top tp)) -> NoDup ks -> (forall k, k ∈ ks -> 0 <= k < 2000) ->
  let r := rename_ops st (phis ∅ ks n) in
  forall k, 0 <= k < 2000 ->
    foldl (fun e' i => assign (output i) (phi_value p e0 i) e') e' (apply_phis T r.2) (var_at 8 k (cur r.1 k)) =
    if decide (k ∈ ks) then e0 (var_at 8 k (cur tp k)) else e' (var_at 8 k (cur st k)).
Proof.
  intros Hp HT. revert st e'. induction ks as [|k0 ks IH]; intros st e' N R r k Hk.
  { cbn. rewrite decide_False; [done|apply not_elem_of_nil]. }
  assert (R0 : 0 <= k0 < 2000) by (apply R; by left). apply NoDup_cons in N as [N0 N].
  destruct (phi_output_plain k0 R0) as (Pl & Nc & Ek). subst r. rewrite rename_phis_cons by done. cbn zeta. cbn [fst snd apply_phis].
  change (seq (set_output _ (phi_insn ∅ k0 n)) =? -1) with true. cbn iota. cbn [foldl]. cbn [output set_inputs set_output].
  destruct (rename_output_cur st (phi_output ∅ k0) Pl) as [_ HV]. destruct (HV Nc) as (Eo & _ & Ec). rewrite Ek in Ec.
  set (ro := rename_output st (phi_output ∅ k0)) in *. specialize (HT ltac:(done)).
  rewrite IH; [|by intros _|done|intros k' Hk'; apply R; by right|done].
  destruct (decide (k ∈ ks)) as [Hin|Hout]; [rewrite decide_True by (by right); done|].
  pose proof (phi_output_size k0) as Sz.
  assert (Ph : phi_value p e0 (set_inputs (imap (give T) (inputs (set_output ro.2 (phi_insn ∅ k0 n)))) (set_output ro.2 (phi_insn ∅ k0 n))) = e0 (var_at 8 k0 (cur tp k0))).
  { unfold phi_value. cbn [inputs set_inputs set_output phi_insn]. rewrite list_lookup_imap, lookup_replicate_2 by done. cbn.
    unfold give. rewrite HT. unfold value. rewrite is_const_renamed, Nc, renamed_key, Ek, Sz by done. done. }
  rewrite Ph, Eo. unfold assign. change (is_const (set_offset _ (phi_output ∅ k0))) with (is_const (phi_output ∅ k0)). rewrite Nc.
  destruct (plain_var _ Pl Nc) as [_ Kv]. rewrite Kv, Ek, Ec, Sz by lia. destruct (decide (k = k0)) as [->|Nk].
  - rewrite decide_True by done. rewrite decide_True by (by left). done.
  - rewrite decide_False; [|intros E'; apply var_at_inj in E' as (_ & ? & _); [done|lia|lia]].
    rewrite decide_False; [done|]. by intros [|]%elem_of_cons.
Qed.

(** A block entered from position [p]: the first state runs the operations as lifted,
    the second those renamed in [st], from the versions of [tp] for the variables with
    a phi and the same versions for the others. *)
Lemma exec_block_rel (T : given) tp p n st ks os s t :
  (ks <> [] -> (p < n)%nat /\ T p = Some (top tp)) -> NoDup ks -> (forall k, k ∈ ks -> 0 <= k < 2000) ->
  Forall plain_insn os -> local_from narrow [] os ->
  (forall k, 0 <= k < 2000 -> k ∉ ks -> cur st k = cur tp k) ->
  rel (good []) (cur tp) s t ->
  rel (good []) (cur (rename_ops st (phis ∅ ks n ++ os)).1)
    (exec_block act p os s) (exec_block act p (apply_phis T (rename_ops st (phis ∅ ks n ++ os)).2) t).
Proof.
  intros HT N R Ho Lo Hc Rl. destruct (is_phi_split T st ks n os R Ho) as [E1 E2]. cbn zeta in E1, E2.
  rewrite phis_app by done. unfold exec_block. rewrite E1, E2. rewrite (filter_none is_phi os), (filter_all _ os);
    [|intros i Hi; unfold is_phi; by rewrite (pl_seq i (proj1 (Forall_forall _ _) Ho i Hi)), andb_false_r..].
  rewrite rename_ops_app. cbn zeta. cbn [fst].
  apply (exec_ops_rel []); [done|done|]. destruct Rl as (Em & Et & Ee). split_and!; cbn; [done|done|]. intros z k Hk Gk.
  pose proof Gk as [[-> _]|Hn]; [|by apply not_elem_of_nil in Hn]. specialize (Ee 8 k Hk Gk).
  unfold exec_phis. destruct (decide (ks = [])) as [->|Ne].
  - cbn. rewrite Hc; [done|done|apply not_elem_of_nil].
  - destruct (HT Ne) as [Hp HTp]. rewrite (exec_phis_rel T tp p n st ks (env t) (env t) Hp ltac:(done) N R k Hk).
    destruct (decide (k ∈ ks)); [done|]. by rewrite Hc.
Qed.
End Run.

(** ** The whole function *)

Section Function.
Context (order : gmap Z (list Z) -> list Z) (Ord : key_order order) (f : PcodeFunc) (L : liftable f).

Lemma liftable_no_stack : no_stack_ops (blocks f).
Proof. intros b o Hb Ho. pose proof (pl_operands o (l_ops f L b o Hb Ho)) as [H _]%Forall_cons. by apply plain_no_stack. Qed.

(** The keys of the phis are those of registers and temporaries. *)
Lemma phis_range df K : phis_ok df (blocks f) K -> forall b k, k ∈ K b -> 0 <= k < 2000.
Proof.
  intros PK b k Hk. destruct (k_pos _ _ _ PK b k Hk) as [Hk0 (dd & _ & (_ & o & Ho & <-))]. split; [done|].
  unfold ops_of in Ho. destruct (blocks f !! Z.to_nat dd) as [blk|] eqn:Eb; [|by apply not_elem_of_nil in Ho].
  pose proof (pl_operands o (l_ops f L blk o ltac:(by eapply list_elem_of_lookup_2) Ho)) as [Pv _]%Forall_cons.
  destruct (plain_key _ Pv) as [[_ ->]|(_ & ? & _)]; lia.
Qed.

(** Everything [build] computes, and what is known of it. *)
Record built (g : PcodeFunc) (rpo ix idom : list Z) (df : list (list Z)) (K : Z -> list Z)
    (R : Z -> option rename_st) (T : Z -> given) (last : Z) : Prop := mk_built {
  bt_rpo : rpo_ok f rpo ix;
  bt_idom : idom_ok f rpo ix idom;
  bt_phis : phis_ok df (blocks f) K;
  bt_df : forall a l, rd df a = Some l -> forall x, x ∈ l <-> x ∈ rpo /\ 2 <= zlen (preds_of f x) /\
    exists p, p ∈ preds_of f x /\
      ((p ∈ rpo /\ dominates f a p /\ ~ dominates f a (at_ idom x)) \/ (p ∉ rpo /\ a = p));
  bt_len : length df = length (blocks f);
  bt_blocks : blocks g = blocks_now (with_phis ∅ K (blocks f)) R T;
  bt_entry : entry g = entry f;
  bt_walk : walked f idom (with_phis ∅ K (blocks f)) (fun c => c ∈ rpo) (fun c => c = start_block f)
    (fun k => head (default [] (((fun _ => [0]) <$> (collect_defs (blocks f)).1 : gmap Z (list Z)) !! k))) 0 last
    (fun _ => None) (fun _ _ => None) R T
}.

Lemma build_spec : exists g rpo ix idom df K R T last, build order f = Some g /\ built g rpo ix idom df K R T last.
Proof.
  destruct (rpo_compute f (l_blocks f L)) as (rpo & ix & E1 & O). pose proof (l_graph f L) as G.
  destruct (compute_dominators_ok f rpo ix O G) as (idom & E2 & OK).
  destruct (compute_children_spec f rpo ix O idom OK) as (ch & E3 & _).
  destruct (compute_frontiers_spec f rpo ix O G idom OK) as (df & E4 & Ldf & Hdf).
  assert (Fr : forall d x, x ∈ front df d -> in_blocks (blocks f) x).
  { intros d x Hx. unfold front in Hx. destruct (rd df d) as [l|] eqn:El; [|by apply not_elem_of_nil in Hx].
    destruct (Hdf d l El) as [_ H]. apply H in Hx as [Hx _]. apply (R_range f rpo ix O x Hx). }
  destruct (insert_phis_spec order Ord df (blocks f) Ldf Fr liftable_no_stack) as (K & E5 & PK).
  set (bs := with_phis ∅ K (blocks f)).
  assert (Len : length bs = length (blocks f)) by apply with_phis_length.
  pose proof (fun b k => phis_range df K PK b k) as Kr.
  assert (Same : forall i, succs <$> bs !! i = succs <$> blocks f !! i /\ preds <$> bs !! i = preds <$> blocks f !! i).
  { intros i. unfold bs, with_phis. rewrite list_lookup_imap. by destruct (blocks f !! i). }
  assert (Clean : forall b, b ∈ bs -> Forall no_stack_insn (ops b)).
  { intros b (i & blk & -> & Hb)%elem_of_lookup_imap. cbn. apply Forall_app. split.
    - apply Forall_fmap, Forall_forall. intros k Hk. apply phi_no_stack. by eapply Kr.
    - apply Forall_forall. intros o Ho. eapply Forall_impl; [apply (pl_operands o)|apply plain_no_stack].
      apply (l_ops f L blk o); [by eapply list_elem_of_lookup_2|done]. }
  set (defs := collect_defs (blocks f)).
  set (st0 := mk_rename defs.2 ((fun _ => [0]) <$> defs.1) 0 ∅).
  assert (E0 : bs = blocks_now bs (fun _ => None) (fun _ _ => None)).
  { unfold blocks_now. apply list_eq. intros i. rewrite list_lookup_imap. destruct (bs !! i) as [blk|]; [|done]. cbn.
    unfold block_now. rewrite apply_phis_none. by destruct blk. }
  destruct (rename_block_spec f rpo ix O G idom OK bs Len Same Clean ch E3 (length bs) (start_block f)) with
    (st := st0) (R := fun _ : Z => @None rename_st) (T := fun (_ : Z) (_ : nat) => @None (Z -> option Z)) as (st' & R' & T' & E6 & _ & _ & _ & W).
  - rewrite (rank_e f rpo ix O), Len. pose proof (rpo_size f rpo ix O). lia.
  - by apply (e_in f rpo ix).
  - unfold flat_slots, st0. cbn. apply collect_defs_spec, liftable_no_stack.
  - by split.
  - exists (mk_func (entry f) (f_name f) (blocks_now bs R' T') (next_temp f) (ssa_counter st') (params f) (locals f)).
    exists rpo, ix, idom, df, K, R', T', (ssa_counter st'). split.
    + unfold build. rewrite bool_decide_eq_false_2 by apply L. rewrite E1. cbn [mbind option_bind fst snd].
      rewrite E2. cbn [mbind option_bind]. rewrite E3. cbn [mbind option_bind]. rewrite E4. cbn [mbind option_bind].
      rewrite E5. cbn [mbind option_bind fst snd]. unfold rename. fold defs bs st0. rewrite <-E0 in E6. by rewrite E6.
    + split; try done.
      * intros a l El. by apply (Hdf a l El).
      * eapply walked_ext; [|exact W]. intros c. split; [by intros [? _]|]. intros Hc. split; [done|].
        apply (idom_anc f rpo ix idom OK); [done|]. by apply (dominates_e f rpo ix O idom OK).
Qed.

(** *** Versions along an edge *)

Section Built.
Context (g : PcodeFunc) (rpo ix idom : list Z) (df : list (list Z)) (K : Z -> list Z).
Context (R : Z -> option rename_st) (T : Z -> given) (cmax : Z) (B : built g rpo ix idom df K R T cmax).

Abbreviation e := (start_block f).
Abbreviation d := (at_ idom).
Abbreviation bs := (with_phis ∅ K (blocks f)).
Let O : rpo_ok f rpo ix := bt_rpo _ _ _ _ _ _ _ _ _ B.
Let OK : idom_ok f rpo ix idom := bt_idom _ _ _ _ _ _ _ _ _ B.
Let PK : phis_ok df (blocks f) K := bt_phis _ _ _ _ _ _ _ _ _ B.
Let G : graph_ok f := l_graph f L.

(** The state in which a block was renamed, and the one after it. *)
Definition st_in (c : Z) : rename_st := default (mk_rename (∅, ∅) ∅ 0 ∅) (R c).
Definition st_out (c : Z) : rename_st := after bs c (st_in c).

Lemma R_in c : c ∈ rpo -> R c = Some (st_in c).
Proof. intros Hc. destruct (w_in _ _ _ _ _ _ _ _ _ _ _ _ (bt_walk _ _ _ _ _ _ _ _ _ B) c Hc) as (st & E & _). unfold st_in. by rewrite E. Qed.

Lemma cur_entry k : cur (st_in e) k = 0.
Proof.
  destruct (w_in _ _ _ _ _ _ _ _ _ _ _ _ (bt_walk _ _ _ _ _ _ _ _ _ B) e (e_in f rpo ix O)) as (st & E & _ & _ & _ & H).
  unfold st_in. rewrite E. cbn. destruct H as [[_ H]|(H & _)]; [|done]. unfold cur. rewrite H, lookup_fmap.
  by destruct ((collect_defs (blocks f)).1 !! k).
Qed.

Lemma cur_parent c k : c ∈ rpo -> c <> e -> cur (st_in c) k = cur (st_out (d c)) k.
Proof.
  intros Hc N. destruct (w_in _ _ _ _ _ _ _ _ _ _ _ _ (bt_walk _ _ _ _ _ _ _ _ _ B) c Hc) as (st & E & _ & _ & _ & H).
  destruct H as [[H _]|(_ & _ & Hd & sd & Ed & H)]; [done|]. unfold st_out, st_in, cur. rewrite E, Ed. cbn. by rewrite H.
Qed.

Lemma K_range b k : k ∈ K b -> 0 <= k < 2000.
Proof. by apply (phis_range df). Qed.

Lemma ops_of_bs b : in_range f b -> ops_of bs b = phis ∅ (K b) (length (preds_of f b)) ++ ops_of (blocks f) b.
Proof.
  intros [H0 H1]. unfold ops_of, preds_of, with_phis. rewrite list_lookup_imap.
  destruct (blocks f !! Z.to_nat b) as [blk|] eqn:E; cbn; [by rewrite Z2Nat.id|].
  apply lookup_ge_None in E. unfold num_blocks, zlen in H1. lia.
Qed.

Lemma plain_ops b : Forall plain_insn (ops_of (blocks f) b).
Proof.
  apply Forall_forall. intros o Ho. unfold ops_of in Ho. destruct (blocks f !! Z.to_nat b) as [blk|] eqn:E; [|by apply not_elem_of_nil in Ho].
  apply (l_ops f L blk o); [by eapply list_elem_of_lookup_2|done].
Qed.

Lemma rename_ops_quiet st os k :
  Forall no_stack_insn os -> (forall o, o ∈ os -> vkey (output o) <> k) -> cur (rename_ops st os).1 k = cur st k.
Proof.
  revert st; induction os as [|o os IH]; intros st H N; [done|]. apply Forall_cons in H as [Ho H].
  rewrite rename_ops_cons by done. cbn zeta. cbn [fst]. rewrite IH; [|done|intros o' Ho'; apply N; by right].
  assert (No : no_stack (output o)) by (by apply Forall_cons in Ho as [? _]).
  unfold rename_output. rewrite (var_key_no_stack _ _ No). cbn. destruct (0 <=? vkey (output o)); [|done].
  unfold cur, top, stk. cbn. rewrite lookup_insert_ne; [done|]. apply N. by left.
Qed.

(** A block that neither defines a variable nor has its phi keeps its version. *)
Lemma quiet_block b k :
  in_range f b -> 0 <= k -> k ∉ K b -> ~ defines_in (ops_of (blocks f) b) k -> cur (st_out b) k = cur (st_in b) k.
Proof.
  intros Hb Hk Nk Nd. unfold st_out, after. rewrite ops_of_bs by done. apply rename_ops_quiet.
  - apply Forall_app. split.
    + apply Forall_fmap, Forall_forall. intros k' Hk'. apply phi_no_stack. by eapply K_range.
    + eapply Forall_impl; [apply plain_ops|]. intros o Ho. eapply Forall_impl; [apply Ho|]. apply plain_no_stack.
  - intros o [Ho|Ho]%elem_of_app.
    + apply list_elem_of_fmap in Ho as (k' & -> & Hk'). cbn. destruct (phi_output_plain k' (K_range _ _ Hk')) as (_ & _ & ->). by intros ->.
    + intros <-. apply Nd. split; [done|]. by exists o.
Qed.

Lemma single_pred b p : b ∈ rpo -> b <> e -> p ∈ preds_of f b -> zlen (preds_of f b) < 2 -> d b = p.
Proof.
  intros Hb N Hp Lp. assert (Ep : preds_of f b = [p]).
  { unfold zlen in Lp. destruct (preds_of f b) as [|q [|r l]]; [by apply not_elem_of_nil in Hp|by apply list_elem_of_singleton in Hp as ->|cbn in Lp; lia]. }
  pose proof (R_range f rpo ix O b Hb) as Rb.
  destruct (fwd_parent f rpo ix O G b Hb N) as (q & [_ Hq] & Rq & _ & Lq).
  rewrite Ep in Hq. apply list_elem_of_singleton in Hq as ->.
  assert (D : dominates f p b).
  { intros l W. inversion W as [|l' q b' W' Hs _]; subst; [done|].
    assert (Hq : q ∈ preds_of f b) by (apply (g_edges _ G); [by eapply walk_range|done|done]).
    rewrite Ep in Hq. apply list_elem_of_singleton in Hq as ->. right. by left. }
  assert (Nb : p <> b) by (intros ->; lia).
  pose proof (idom_closest f rpo ix O idom OK b p Hb N D Nb) as D1.
  assert (D2 : dominates f (d b) p).
  { apply (dominates_edge f rpo ix O G _ _ b); [by apply (idom_dominates f rpo ix idom OK)| |by split; [|rewrite Ep; left]|done].
    intros E. pose proof (idom_rank f rpo ix idom OK b Hb N) as Lr. rewrite E in Lr. lia. }
  apply (idom_anc _ _ _ _ OK) in D1; [|by apply (idom_in f rpo ix O idom OK)]. apply (idom_anc _ _ _ _ OK) in D2; [|done].
  pose proof (anc_rank _ _ _ _ _ (idom_tree _ _ _ _ OK) _ _ D1 (idom_set _ _ _ _ OK _ (idom_in f rpo ix O idom OK b Hb))).
  apply (anc_antisym _ _ _ _ (rank_inj f rpo ix O) _ (idom_tree _ _ _ _ OK) p (d b)); [by apply (idom_set _ _ _ _ OK)|done|done].
Qed.

Lemma in_front b p a :
  b ∈ rpo -> p ∈ preds_of f b -> p ∈ rpo -> 2 <= zlen (preds_of f b) -> a ∈ rpo ->
  dominates f a p -> ~ dominates f a (d b) -> b ∈ front df a.
Proof.
  intros Hb Hp Rp L2 Ra D N. pose proof (R_range f rpo ix O a Ra) as Ia.
  destruct (rd_some f df a (bt_len _ _ _ _ _ _ _ _ _ B) Ia) as [l El]. unfold front. rewrite El. cbn.
  apply (bt_df _ _ _ _ _ _ _ _ _ B a l El). split_and!; [done|done|]. exists p. split; [done|]. by left.
Qed.

(** A variable without a phi in a block has on every edge into the block the version
    with which the block was renamed. *)
Lemma edge_version b p k :
  b ∈ rpo -> p ∈ rpo -> p ∈ preds_of f b -> 0 <= k -> k ∉ K b -> cur (st_in b) k = cur (st_out p) k.
Proof.
  intros Hb Rp Hp Hk Nk. assert (N : b <> e).
  { intros ->. rewrite (l_entry f L) in Hp. by apply not_elem_of_nil in Hp. }
  rewrite cur_parent by done. pose proof (idom_in f rpo ix O idom OK b Hb) as Rd. pose proof (idom_tree _ _ _ _ OK) as Tr.
  destruct (decide (zlen (preds_of f b) < 2)) as [L2|L2]; [by rewrite (single_pred b p)|].
  assert (A : anc e d p (d b)).
  { apply (idom_anc _ _ _ _ OK); [done|]. apply (dominates_edge f rpo ix O G _ _ b);
      [by apply (idom_dominates f rpo ix idom OK)| |by split; [apply (R_range f rpo ix O)|]|done].
    intros E. pose proof (idom_rank f rpo ix idom OK b Hb N) as Lr. rewrite E in Lr. lia. }
  assert (Chain : forall x, anc e d x (d b) -> x ∈ rpo -> anc e d p x -> cur (st_out (d b)) k = cur (st_out x) k).
  { intros x Ax. remember (d b) as y eqn:Ey. induction Ax as [|x y Nx Ax IH]; intros Rx Ap; [done|].
    pose proof (idom_in f rpo ix O idom OK x Rx) as Rdx.
    assert (Nd : ~ dominates f x y).
    { intros D. apply (idom_anc _ _ _ _ OK) in D; [|done]. pose proof (anc_rank _ _ _ _ _ Tr _ _ D (idom_set _ _ _ _ OK _ Rd)).
      pose proof (anc_rank _ _ _ _ _ Tr _ _ Ax (idom_set _ _ _ _ OK _ Rdx)).
      pose proof (idom_rank f rpo ix idom OK x Rx Nx). lia. }
    assert (Fx : b ∈ front df x).
    { apply (in_front b p x); [done|done|done|lia|done| |by rewrite <-Ey]. by apply (idom_anc _ _ _ _ OK). }
    rewrite (quiet_block x k); [|by apply (R_range f rpo ix O)|done| |].
    - rewrite cur_parent by done. apply IH; try done. eapply anc_trans; [exact Ap|]. apply anc_up; [done|apply anc_refl].
    - intros Hx. apply Nk. apply (k_closed _ _ _ PK k x b); [by right|done].
    - intros Hx. apply Nk. apply (k_closed _ _ _ PK k x b); [left; split; [apply (R_range f rpo ix O x Rx)|done]|done]. }
  apply Chain; [done|done|apply anc_refl].
Qed.

(** *** Along a path *)

(** The operations of a block of the result. *)
Lemma ops_at_g b : in_range f (Z.of_nat b) -> Z.of_nat b ∈ rpo ->
  ops_at g b = apply_phis (T (Z.of_nat b))
    (rename_ops (st_in (Z.of_nat b)) (phis ∅ (K (Z.of_nat b)) (length (preds_of f (Z.of_nat b))) ++ ops_at f b)).2.
Proof.
  intros Rb Hb. unfold ops_at. rewrite (bt_blocks _ _ _ _ _ _ _ _ _ B). unfold blocks_now, with_phis, preds_of.
  rewrite !list_lookup_imap. unfold in_range, num_blocks, zlen in Rb. rewrite Nat2Z.id.
  destruct (blocks f !! b) as [blk|] eqn:E; [|apply lookup_ge_None in E; lia]. cbn. by rewrite (R_in _ Hb).
Qed.

Lemma st_out_ops b : in_range f (Z.of_nat b) ->
  st_out (Z.of_nat b) =
    (rename_ops (st_in (Z.of_nat b)) (phis ∅ (K (Z.of_nat b)) (length (preds_of f (Z.of_nat b))) ++ ops_at f b)).1.
Proof. intros Rb. unfold st_out, after. rewrite ops_of_bs by done. unfold ops_of, ops_at. by rewrite Nat2Z.id. Qed.

Lemma plain_ops_at b : Forall plain_insn (ops_at f b).
Proof. pose proof (plain_ops (Z.of_nat b)) as H. unfold ops_of in H. by rewrite Nat2Z.id in H. Qed.

(** An edge of a path: the position gives the phi inputs of the predecessor. *)
Lemma edge_facts a bp : edge f a bp -> Z.of_nat a ∈ rpo ->
  Z.of_nat bp.1 ∈ rpo /\ Z.of_nat a ∈ preds_of f (Z.of_nat bp.1) /\ (bp.2 < length (preds_of f (Z.of_nat bp.1)))%nat /\
  T (Z.of_nat bp.1) bp.2 = Some (top (st_out (Z.of_nat a))).
Proof.
  intros (blk & Eb & Ep) Ha. set (b := Z.of_nat bp.1).
  assert (Rb : in_range f b) by (apply lookup_lt_Some in Eb; unfold in_range, num_blocks, zlen; lia).
  assert (Epr : preds_of f b = preds blk) by (unfold preds_of, b; by rewrite Nat2Z.id, Eb).
  assert (Hin : Z.of_nat a ∈ preds_of f b) by (rewrite Epr; by eapply list_elem_of_lookup_2).
  pose proof (R_range f rpo ix O _ Ha) as Ra.
  assert (Hs : b ∈ succs_of f (Z.of_nat a)) by (by apply (g_edges _ G)).
  split_and!; [|done|rewrite Epr; by eapply lookup_lt_Some|].
  - apply (rpo_reach _ _ _ O). eapply reaches_step; [by apply (rpo_reach _ _ _ O)|done|done].
  - apply (w_given _ _ _ _ _ _ _ _ _ _ _ _ (bt_walk _ _ _ _ _ _ _ _ _ B) (Z.of_nat a)); [done| |by apply R_in].
    split; [done|]. split; [done|]. exists (Z.of_nat a). apply list_find_Some. rewrite Epr. split_and!; [done|done|].
    intros j y Ej Lj ->. pose proof (l_preds f L b Rb) as N. rewrite Epr in N.
    pose proof (NoDup_lookup _ _ _ _ N Ep Ej). lia.
Qed.

(** *** The result is in SSA form *)

Context (All : forall b, in_range f b -> b ∈ rpo).

(** The keys an operation list defines: one version each, after [lo] and up to [hi]. *)
Definition versions_between (lo hi : Z) (l : list VnKey) : Prop :=
  NoDup (k_offset <$> l) /\ forall x, x ∈ l -> exists z k n, x = var_at z k n /\ 0 <= k /\ lo < n <= hi.

Definition plain_out (o : PcodeInsn) : Prop := no_stack_insn o /\ plain_vn (output o) /\ (is_nop o = true -> is_const (output o) = true).

Lemma plain_insn_out o : plain_insn o -> plain_out o.
Proof.
  intros H. split; [eapply Forall_impl; [apply H|apply plain_no_stack]|]. split; [|apply H].
  by pose proof (pl_operands _ H) as [? _]%Forall_cons.
Qed.

Lemma phi_plain_out k n : 0 <= k < 2000 -> plain_out (phi_insn ∅ k n).
Proof. intros H. split; [by apply phi_no_stack|]. by split; [apply phi_output_plain|]. Qed.

Lemma rename_ops_versions st os :
  Forall plain_out os ->
  ssa_counter st <= ssa_counter (rename_ops st os).1 /\
  versions_between (ssa_counter st) (ssa_counter (rename_ops st os).1) (omap out_key (rename_ops st os).2).
Proof.
  revert st; induction os as [|o os IH]; intros st H.
  - cbn. split; [lia|]. split; [constructor|by intros x ?%not_elem_of_nil].
  - apply Forall_cons in H as [(Ho & Hp & Hn) H]. rewrite rename_ops_cons by done. cbn zeta. cbn [fst snd].
    set (ro := rename_output st (output o)). destruct (rename_output_cur st (output o) Hp) as [HC HV]. fold ro in HC, HV.
    destruct (IH ro.1 H) as (L1 & N & V). set (r := rename_ops ro.1 os) in *.
    cbn [omap list_omap]. unfold out_key at 1. change (is_nop (set_output _ _)) with (is_nop o). cbn [output set_output].
    destruct (is_const (output o)) eqn:C.
    + destruct (HC eq_refl) as [E _]. rewrite E, C, orb_true_r.
      assert (Ec : ssa_counter ro.1 = ssa_counter st).
      { unfold ro, rename_output. rewrite (var_key_no_stack _ _ (plain_no_stack _ Hp)), (plain_const _ Hp C). done. }
      rewrite Ec in *. by split.
    + destruct (HV eq_refl) as (E & Ec & _). destruct (is_nop o); [by specialize (Hn eq_refl)|]. rewrite E. cbn [orb].
      change (is_const (set_offset _ (output o))) with (is_const (output o)). rewrite C.
      destruct (plain_var _ Hp C) as [R0 Kv]. rewrite Kv, Ec in *. split; [lia|]. split.
      * cbn [fmap list_fmap]. constructor; [|done]. intros (x & Ex & Hx)%list_elem_of_fmap. destruct (V x Hx) as (z & k & n & -> & Hk & Hv). cbn in Ex. lia.
      * intros x [->|Hx]%elem_of_cons; [exists (size (output o)), (vkey (output o)), (ssa_counter st + 1); split_and!; [done|lia..]|].
        destruct (V x Hx) as (z & k & n & -> & Hk & Hv). exists z, k, n. split_and!; [done|lia..].
Qed.

Lemma out_key_phis (T' : given) os : omap out_key (apply_phis T' os) = omap out_key os.
Proof.
  induction os as [|o os IH]; [done|]. cbn [apply_phis]. destruct (seq o =? -1); [|done]. cbn [omap list_omap].
  change (out_key (set_inputs _ o)) with (out_key o). by rewrite IH.
Qed.

Lemma block_plain_out b : in_range f (Z.of_nat b) ->
  Forall plain_out (phis ∅ (K (Z.of_nat b)) (length (preds_of f (Z.of_nat b))) ++ ops_at f b).
Proof.
  intros Rb. apply Forall_app. split.
  - apply Forall_fmap, Forall_forall. intros k Hk. apply phi_plain_out. by eapply K_range.
  - eapply Forall_impl; [apply plain_ops_at|]. apply plain_insn_out.
Qed.

Lemma block_versions b : in_range f (Z.of_nat b) ->
  versions_between (ssa_counter (st_in (Z.of_nat b))) (ssa_counter (st_out (Z.of_nat b))) (omap out_key (ops_at g b)).
Proof.
  intros Rb. rewrite (ops_at_g b Rb (All _ Rb)), out_key_phis, (st_out_ops b Rb).
  apply rename_ops_versions. by apply block_plain_out.
Qed.

Lemma g_range b blk : blocks g !! b = Some blk -> in_range f (Z.of_nat b) /\ ops_at g b = ops blk.
Proof.
  intros E. unfold ops_at. rewrite E. split; [|done]. apply lookup_lt_Some in E.
  rewrite (bt_blocks _ _ _ _ _ _ _ _ _ B) in E. unfold blocks_now in E. rewrite length_imap, with_phis_length in E.
  unfold in_range, num_blocks, zlen. lia.
Qed.

Lemma NoDup_versions lo hi l : versions_between lo hi l -> NoDup l.
Proof. intros [N _]. by apply NoDup_fmap_1 in N. Qed.

(** Two blocks that define the same version are the same block. *)
Lemma version_block b1 b2 blk1 blk2 x y :
  blocks g !! b1 = Some blk1 -> blocks g !! b2 = Some blk2 -> x ∈ omap out_key (ops blk1) -> y ∈ omap out_key (ops blk2) ->
  k_offset x = k_offset y -> b1 = b2.
Proof.
  intros E1 E2 H1 H2 Eo. destruct (g_range b1 blk1 E1) as [Ri Eo1], (g_range b2 blk2 E2) as [Rj Eo2]. rewrite <-Eo1 in H1. rewrite <-Eo2 in H2.
  apply (block_versions b1 Ri) in H1 as (z1 & k1 & n1 & -> & P1 & V1). apply (block_versions b2 Rj) in H2 as (z2 & k2 & n2 & -> & P2 & V2).
  cbn in Eo. subst n2. destruct (decide (b1 = b2)) as [|N]; [done|]. exfalso.
  destruct (w_apart _ _ _ _ _ _ _ _ _ _ _ _ (bt_walk _ _ _ _ _ _ _ _ _ B) (Z.of_nat b1) (Z.of_nat b2)
    (st_in (Z.of_nat b1)) (st_in (Z.of_nat b2))) as [A|A]; [by apply All|by apply All|lia|by apply R_in, All|by apply R_in, All| |];
    unfold st_out in *; lia.
Qed.

Lemma defs_unique : NoDup (defs g).
Proof.
  apply NoDup_join.
  - intros i l (blk & -> & E)%list_lookup_fmap_Some. destruct (g_range i blk E) as [Ri <-]. eapply NoDup_versions. by apply block_versions.
  - intros i j l k x (b1 & -> & E1)%list_lookup_fmap_Some (b2 & -> & E2)%list_lookup_fmap_Some Lij H1 H2.
    pose proof (version_block i j b1 b2 x x E1 E2 H1 H2 eq_refl). lia.
Qed.

Lemma defs_in x : x ∈ defs g -> exists b blk, blocks g !! b = Some blk /\ x ∈ omap out_key (ops blk).
Proof.
  intros H. apply list_elem_of_join in H as (l & Hx & Hl). apply list_elem_of_fmap in Hl as (blk & -> & Hb).
  apply list_elem_of_lookup in Hb as [b E]. by exists b, blk.
Qed.

(** A version is defined once, in one width. *)
Lemma version_unique x y : x ∈ defs g -> y ∈ defs g -> k_offset x = k_offset y -> x = y.
Proof.
  intros (b1 & blk1 & E1 & H1)%defs_in (b2 & blk2 & E2 & H2)%defs_in Eo.
  pose proof (version_block b1 b2 blk1 blk2 x y E1 E2 H1 H2 Eo) as <-. rewrite E1 in E2. injection E2 as <-.
  destruct (g_range b1 blk1 E1) as [Ri Eq]. rewrite <-Eq in *. destruct (block_versions b1 Ri) as [N _].
  apply list_elem_of_lookup in H1 as [i Hi]. apply list_elem_of_lookup in H2 as [j Hj].
  assert (i = j) as <-.
  { apply (NoDup_lookup _ _ _ (k_offset x) N); rewrite list_lookup_fmap; [by rewrite Hi|by rewrite Hj, Eo]. }
  congruence.
Qed.

Lemma version_0_undefined z k : 0 <= k -> var_at z k 0 ∉ defs g.
Proof.
  intros Hk (b & blk & E & Hx)%defs_in. destruct (g_range b blk E) as [Rb Eo]. rewrite <-Eo in Hx.
  apply (block_versions b Rb) in Hx as (z' & k' & n & E' & P & V). apply var_at_inj in E' as (_ & _ & <-); [|done|done].
  destruct (w_in _ _ _ _ _ _ _ _ _ _ _ _ (bt_walk _ _ _ _ _ _ _ _ _ B) (Z.of_nat b) (All _ Rb)) as (st & E' & _ & L0 & _).
  unfold st_in in V. rewrite E' in V. cbn in V. lia.
Qed.

(** The variables are in the versions that were defined last. *)
Definition tracked (A : list item) (V : Z -> Z) : Prop := forall k, 0 <= k < 2000 -> latest A k (V k).

(** What an operation of [l] reads after [A] was defined last. *)
Fixpoint safe (A l : list item) : Prop :=
  match l with
  | [] => True
  | x :: l => (forall v, reads x v -> exists z k n, 0 <= k < 2000 /\ v = var_at z k n /\ latest A k n) /\ safe (A ++ [x]) l
  end.

Lemma safe_app A l1 l2 : safe A (l1 ++ l2) <-> safe A l1 /\ safe (A ++ l1) l2.
Proof.
  revert A; induction l1 as [|x l1 IH]; intros A; cbn; [rewrite app_nil_r; tauto|].
  rewrite IH, <-app_assoc. cbn. tauto.
Qed.

(** After an operation of the result that sets variable [k0] and no other. *)
Lemma tracked_set A V W x k0 z0 :
  tracked A V -> 0 <= k0 < 2000 -> defines x (var_at z0 k0 (W k0)) ->
  (forall k n, 0 <= k < 2000 -> k <> k0 -> ~ writes x k n) ->
  (forall k, 0 <= k < 2000 -> k <> k0 -> W k = V k) -> tracked (A ++ [x]) W.
Proof.
  intros C H0 D Ho E k Hk. destruct (decide (k = k0)) as [->|N].
  - apply latest_set. by exists z0.
  - rewrite E by done. apply latest_keep; [by apply C|]. intros n. by apply Ho.
Qed.

Lemma safe_ops A st os :
  Forall plain_insn os -> tracked A (cur st) ->
  safe A (Op <$> (rename_ops st os).2) /\ tracked (A ++ (Op <$> (rename_ops st os).2)) (cur (rename_ops st os).1).
Proof.
  revert A st; induction os as [|o os IH]; intros A st H C; [cbn; by rewrite app_nil_r|].
  apply Forall_cons in H as [Ho H]. pose proof (pl_operands o Ho) as [Po Pi]%Forall_cons.
  rewrite rename_ops_cons in * by (apply plain_insn_out; done). cbn zeta in *. cbn [fst snd] in *. rewrite (pl_seq o Ho) in *.
  set (ro := rename_output st (output o)) in *. set (o' := set_output _ _) in *.
  destruct (rename_output_cur st (output o) Po) as [HC HV]. fold ro in HC, HV.
  destruct (IH (A ++ [Op o']) ro.1 H) as [S1 C1].
  { destruct (is_const (output o)) eqn:N.
    - destruct (HC eq_refl) as [E1 E]. intros k Hk. rewrite E by lia. apply latest_keep; [by apply C|]. intros n [z D]. cbn in D.
      unfold out_key in D. unfold o' in D. cbn [output set_output] in D. rewrite E1, N, orb_true_r in D. discriminate D.
    - destruct (HV eq_refl) as (E & _ & Ec). destruct (plain_var _ Po N) as [R0 Kv].
      assert (Ok : out_key o' = Some (var_at (size (output o)) (vkey (output o)) (cur ro.1 (vkey (output o))))).
      { unfold out_key. change (is_nop o') with (is_nop o). destruct (is_nop o) eqn:Nop; [by pose proof (pl_nop o Ho Nop); congruence|].
        unfold o'. cbn [output set_output]. rewrite E, Ec, decide_True by lia.
        change (is_const (set_offset _ (output o))) with (is_const (output o)). rewrite N. cbn. f_equal. apply Kv. }
      eapply (tracked_set A (cur st) _ _ (vkey (output o))); [done|done|exact Ok| |].
      + intros k n Hk Nk [z D]. cbn in D. rewrite Ok in D. apply (inj Some) in D. symmetry in D. apply var_at_inj in D as (_ & ? & _); [done|lia|lia].
      + intros k Hk Nk. by rewrite Ec, decide_False by lia. }
  cbn [fmap list_fmap safe]. rewrite <-app_assoc in C1. split; [split; [|done]|done].
  intros k (Nop & v & Hv & Nv & <-). unfold o' in Hv. cbn [inputs set_output set_inputs] in Hv.
  apply list_elem_of_fmap in Hv as (w & -> & Hw). rewrite is_const_renamed in Nv.
  pose proof (proj1 (Forall_forall _ _) Pi w Hw) as Pw. rewrite (renamed_key st w Pw Nv).
  destruct (plain_var w Pw Nv) as [Rw _]. eexists _, _, _. split; [exact Rw|]. split; [done|]. by apply C.
Qed.

(** The inputs of the phis of a block, and what they set. *)
Lemma phis_read (T' : given) p n st ks i v :
  (forall k, k ∈ ks -> 0 <= k < 2000) -> i ∈ apply_phis T' (rename_ops st (phis ∅ ks n)).2 -> inputs i !! p = Some v ->
  exists k, k ∈ ks /\ v = give T' p (phi_output ∅ k).
Proof.
  revert st. induction ks as [|k ks IH]; intros st Rk; [by intros ?%not_elem_of_nil|].
  rewrite rename_phis_cons by (apply Rk; by left). cbn zeta. cbn [fst snd apply_phis].
  change (seq (set_output _ (phi_insn ∅ k n)) =? -1) with true. cbn iota. intros [->|Hi]%elem_of_cons Hv.
  - cbn [inputs set_inputs set_output phi_insn] in Hv. rewrite list_lookup_imap in Hv.
    destruct (replicate n _ !! p) as [w|] eqn:Ew; [|done]. apply lookup_replicate in Ew as [-> _].
    injection Hv as <-. exists k. split; [by left|done].
  - destruct (IH _ ltac:(intros; apply Rk; by right) Hi Hv) as (k' & Hk' & ->). exists k'. split; [by right|done].
Qed.

Lemma phis_write (T' : given) n st ks :
  (forall k, k ∈ ks -> 0 <= k < 2000) -> NoDup ks ->
  let r := rename_ops st (phis ∅ ks n) in
  (forall i x, i ∈ apply_phis T' r.2 -> out_key i = Some x -> exists k m, k ∈ ks /\ x = var_at 8 k m) /\
  forall k, 0 <= k < 2000 -> (k ∉ ks /\ cur r.1 k = cur st k) \/
    exists i, k ∈ ks /\ i ∈ apply_phis T' r.2 /\ out_key i = Some (var_at 8 k (cur r.1 k)).
Proof.
  revert st. induction ks as [|k0 ks IH]; intros st Rk N r.
  { split; [by intros i x ?%not_elem_of_nil|]. intros k Hk. left. split; [apply not_elem_of_nil|done]. }
  apply NoDup_cons in N as [N0 N]. pose proof (Rk k0 ltac:(by left)) as R0.
  destruct (phi_output_plain k0 R0) as (Pl & Nc & Ek).
  subst r. rewrite rename_phis_cons by done. cbn zeta. cbn [fst snd apply_phis].
  change (seq (set_output _ (phi_insn ∅ k0 n)) =? -1) with true. cbn iota.
  destruct (rename_output_cur st (phi_output ∅ k0) Pl) as [_ HV]. destruct (HV Nc) as (Eo & _ & Ec). rewrite Ek in Ec.
  match goal with |- context [set_inputs ?l (set_output ?o ?i)] => set (x0 := set_inputs l (set_output o i)) end.
  assert (O0 : out_key x0 = Some (var_at 8 k0 (ssa_counter st + 1))).
  { unfold x0, out_key. cbn [output set_inputs set_output]. rewrite Eo.
    change (is_nop _) with false. change (is_const (set_offset _ (phi_output ∅ k0))) with (is_const (phi_output ∅ k0)).
    rewrite Nc. cbn [orb]. f_equal. destruct (plain_var _ Pl Nc) as [_ Kv]. by rewrite Kv, Ek, phi_output_size. }
  destruct (IH (rename_output st (phi_output ∅ k0)).1 ltac:(intros; apply Rk; by right) N) as [I1 I2]. split.
  - intros i x [->|Hi]%elem_of_cons E.
    + exists k0, (ssa_counter st + 1). split; [by left|congruence].
    + destruct (I1 i x Hi E) as (k & m & Hk & ->). exists k, m. split; [by right|done].
  - intros k Hk. destruct (I2 k Hk) as [[Nk E]|(i & Hik & Hi & E)].
    + rewrite E, Ec by lia. destruct (decide (k = k0)) as [->|Nk0]; [right|left; split; [|done]].
      * exists x0. split; [by left|]. split; [by left|exact O0].
      * by intros [|]%elem_of_cons.
    + right. exists i. split; [by right|]. split; [by right|done].
Qed.

Lemma safe_phis A (T' : given) tp p n st ks :
  (ks <> [] -> (p < n)%nat /\ T' p = Some (top tp)) -> (forall k, k ∈ ks -> 0 <= k < 2000) -> NoDup ks ->
  (forall k, 0 <= k < 2000 -> k ∉ ks -> cur st k = cur tp k) ->
  let r := rename_ops st (phis ∅ ks n) in
  tracked A (cur tp) ->
  safe A [Phis p (apply_phis T' r.2)] /\ tracked (A ++ [Phis p (apply_phis T' r.2)]) (cur r.1).
Proof.
  intros HT Rk N Hc r C. destruct (phis_write T' n st ks Rk N) as [W1 W2]. fold r in W1, W2. split.
  - cbn. split; [|done]. intros k' (i & v & Hi & Hv & Nv & <-).
    destruct (phis_read T' p n st ks i v Rk Hi Hv) as (k & Hk & ->).
    destruct HT as [_ HT]; [intros ->; by apply not_elem_of_nil in Hk|].
    destruct (phi_output_plain k (Rk k Hk)) as (Pl & Nc & Ek). unfold give in *. rewrite HT in *.
    rewrite renamed_key, Ek in * by done. eexists _, _, _. split; [by apply Rk|]. split; [done|]. by apply C, Rk.
  - intros k Hk. destruct (W2 k Hk) as [[Nk E]|(i & _ & Hi & E)].
    + rewrite E, Hc by done. apply latest_keep; [by apply C|]. intros m [z (i & Hi & Ei)].
      destruct (W1 i _ Hi Ei) as (k' & m' & Hk' & Eq). pose proof (Rk k' Hk'). apply var_at_inj in Eq as (_ & -> & _); [done|lia|lia].
    + apply latest_set. exists 8, i. by split.
Qed.

Lemma K_entry : K e = [].
Proof.
  destruct (K e) as [|k ks] eqn:E; [done|]. exfalso. destruct (k_front _ _ _ PK e k) as [a Ha]; [rewrite E; by left|].
  unfold front in Ha. destruct (rd df a) as [l|] eqn:El; [|by apply not_elem_of_nil in Ha].
  apply (bt_df _ _ _ _ _ _ _ _ _ B a l El) in Ha as (_ & L2 & _). rewrite (l_entry f L) in L2. unfold zlen in L2. cbn in L2. lia.
Qed.

Lemma safe_block A tp p b :
  in_range f (Z.of_nat b) ->
  (K (Z.of_nat b) <> [] -> (p < length (preds_of f (Z.of_nat b)))%nat /\ T (Z.of_nat b) p = Some (top tp)) ->
  (forall k, 0 <= k < 2000 -> k ∉ K (Z.of_nat b) -> cur (st_in (Z.of_nat b)) k = cur tp k) ->
  tracked A (cur tp) ->
  safe A (items (ops_at g b) p) /\ tracked (A ++ items (ops_at g b) p) (cur (st_out (Z.of_nat b))).
Proof.
  intros Rb HT Hc C. rewrite (ops_at_g b Rb (All _ Rb)) in *. rewrite (st_out_ops b Rb).
  pose proof (fun k => K_range (Z.of_nat b) k) as Kr. pose proof (plain_ops_at b) as Po.
  set (st := st_in (Z.of_nat b)) in *. set (n := length (preds_of f (Z.of_nat b))) in *.
  destruct (is_phi_split (T (Z.of_nat b)) st (K (Z.of_nat b)) n (ops_at f b) Kr Po) as [E1 E2]. cbn zeta in E1, E2.
  rewrite phis_app in * by done. unfold items. rewrite E1, E2, rename_ops_app. cbn zeta. cbn [fst].
  destruct (safe_phis A (T (Z.of_nat b)) tp p n st (K (Z.of_nat b)) HT Kr (k_nodup _ _ _ PK _) Hc C) as [S1 C1].
  destruct (safe_ops _ _ (ops_at f b) Po C1) as [S2 C2].
  match goal with |- safe A (?x :: ?l) /\ _ => change (x :: l) with ([x] ++ l) end.
  rewrite app_assoc. split; [|done]. by apply safe_app.
Qed.

Lemma follow_safe A path b :
  follows f b path -> tracked A (cur (st_out (Z.of_nat b))) -> Z.of_nat b ∈ rpo -> safe A (flat g path).
Proof.
  revert A b; induction path as [|bp path IH]; intros A b Fo C Hb; [done|]. destruct Fo as [Ed Fo].
  destruct (edge_facts b bp Ed Hb) as (Hn & Hin & Lp & ET). pose proof (R_range f rpo ix O _ Hn) as Rn.
  change (flat g (bp :: path)) with (items (ops_at g bp.1) bp.2 ++ flat g path). apply safe_app.
  destruct (safe_block A (st_out (Z.of_nat b)) bp.2 bp.1 Rn) as [S1 C1]; [by intros _| |done|].
  - intros k Hk Nk. apply edge_version; [done|done|done|lia|done].
  - split; [done|]. by apply (IH _ bp.1).
Qed.

Lemma path_safe path : valid_path f path -> safe [] (flat g path).
Proof.
  destruct path as [|bp path]; intros V; [done|]. destruct V as (Eb & _ & Fo).
  pose proof (e_in f rpo ix O) as He. pose proof (R_range f rpo ix O _ He) as Re. unfold start_block in He, Re.
  change (flat g (bp :: path)) with (items (ops_at g bp.1) bp.2 ++ flat g path). apply safe_app. rewrite Eb in *.
  pose proof K_entry as KE. unfold start_block in KE.
  destruct (safe_block [] (st_in (Z.of_nat (entry_block f))) bp.2 (entry_block f) Re) as [S1 C1]; [by rewrite KE|done| |].
  - intros k Hk. rewrite cur_entry. left. split; [done|]. by intros y m ?%not_elem_of_nil.
  - split; [done|]. by apply (follow_safe _ _ (entry_block f)).
Qed.

Lemma safe_read A l P x Q v :
  safe A l -> l = P ++ x :: Q -> reads x v -> exists z k n, 0 <= k < 2000 /\ v = var_at z k n /\ latest (A ++ P) k n.
Proof. intros S -> Hr. apply safe_app in S as [_ S]. cbn in S. destruct S as [S _]. by apply S. Qed.

Lemma built_shape : same_shape f g.
Proof.
  split; [apply (bt_entry _ _ _ _ _ _ _ _ _ B)|]. rewrite (bt_blocks _ _ _ _ _ _ _ _ _ B). apply Forall2_lookup. intros i.
  unfold blocks_now, with_phis. rewrite !list_lookup_imap. destruct (blocks f !! i); by constructor.
Qed.

(** Renaming changes versions only. *)
Lemma rename_ops_from st os i :
  Forall no_stack_insn os -> i ∈ (rename_ops st os).2 ->
  exists o, o ∈ os /\ op i = op o /\ seq i = seq o /\ kind (output i) = kind (output o) /\ id (output i) = id (output o).
Proof.
  revert st; induction os as [|o os IH]; intros st H; [by intros ?%not_elem_of_nil|]. apply Forall_cons in H as [Ho H].
  rewrite rename_ops_cons by done. cbn zeta. cbn [snd]. intros [->|Hi]%elem_of_cons.
  - exists o. split; [by left|]. cbn [op seq output set_output set_inputs]. apply Forall_cons in Ho as [No _].
    unfold rename_output. rewrite (var_key_no_stack _ _ No). by destruct (0 <=? vkey (output o)).
  - destruct (IH _ H Hi) as (o' & Ho' & P). exists o'. split; [by right|done].
Qed.

(** The operations of the result are phis, or lifted ones in some version. *)
Lemma g_ops b i : in_range f (Z.of_nat b) -> i ∈ ops_at g b ->
  is_phi i = true \/ exists o, o ∈ ops_at f b /\ op i = op o /\ seq i = seq o /\
    kind (output i) = kind (output o) /\ id (output i) = id (output o).
Proof.
  intros Rb Hi. rewrite (ops_at_g b Rb (All _ Rb)), phis_app in Hi; [|by intros k; apply K_range|apply plain_ops_at].
  destruct (is_phi_split (T (Z.of_nat b)) (st_in (Z.of_nat b)) (K (Z.of_nat b)) (length (preds_of f (Z.of_nat b))) (ops_at f b)
    (fun k => K_range _ k) (plain_ops_at b)) as [E1 _]. cbn zeta in E1.
  apply elem_of_app in Hi as [Hi|Hi]; [left|right].
  - assert (Hf : i ∈ List.filter is_phi (apply_phis (T (Z.of_nat b))
      (rename_ops (st_in (Z.of_nat b)) (phis ∅ (K (Z.of_nat b)) (length (preds_of f (Z.of_nat b))))).2 ++
      (rename_ops (rename_ops (st_in (Z.of_nat b)) (phis ∅ (K (Z.of_nat b)) (length (preds_of f (Z.of_nat b))))).1 (ops_at f b)).2))
      by (by rewrite E1). by apply list_elem_of_In, filter_In in Hf as [_ Hf].
  - eapply rename_ops_from; [|exact Hi]. eapply Forall_impl; [apply plain_ops_at|]. apply plain_insn_out.
Qed.

Lemma built_latest : reads_latest g.
Proof.
  intros path A x Q v V E Hr. pose proof (path_safe path (proj1 (shape_valid f g built_shape path) V)) as S.
  destruct (safe_read [] _ A x Q v S E Hr) as (z & k & n & [Hk _] & -> & La). by exists z, k, n.
Qed.

Lemma built_ssa : ssa g.
Proof.
  split; [exact defs_unique| |].
  - intros path A x Q v V E Hr Hd. destruct (built_latest path A x Q v V E Hr) as (z & k & n & Hk & -> & [[-> _]|(A1 & y & A2 & -> & [z' Dy] & _)]).
    { by apply version_0_undefined in Hd. }
    exists y. split; [apply elem_of_app; right; by left|].
    rewrite <-app_assoc in E. cbn in E. pose proof (def_in_defs g path A1 y _ _ E Dy) as Hd'.
    by rewrite (version_unique _ _ Hd Hd' eq_refl).
  - intros blk i Hb Hi Ec Np. apply list_elem_of_lookup in Hb as [b E]. destruct (g_range b blk E) as [Rb Eo].
    rewrite <-Eo in Hi. destruct (g_ops b i Rb Hi) as [P|(o & Ho & E1 & _ & E2 & _)]; [congruence|].
    pose proof (proj1 (Forall_forall _ _) (plain_ops_at b) o Ho) as Po. unfold is_const. rewrite E2.
    apply (pl_copy o Po). congruence.
Qed.

Context {Mem : Type} (act : PcodeOp -> Z -> list Z -> Mem -> Mem * Z) (narrow : Z -> bool) (Wf : local_vars narrow f).

Lemma block_local b : local_from narrow [] (ops_at f b).
Proof using Wf. unfold ops_at. destruct (blocks f !! b) as [blk|] eqn:E; [|done]. apply Wf. by eapply list_elem_of_lookup_2. Qed.

Definition final_block (b : nat) (path : list (nat * nat)) : nat := from_option fst b (list.last path).

Lemma follow_rel path b s t :
  Z.of_nat b ∈ rpo -> follows f b path -> rel (good narrow []) (cur (st_out (Z.of_nat b))) s t ->
  Z.of_nat (final_block b path) ∈ rpo /\
  rel (good narrow []) (cur (st_out (Z.of_nat (final_block b path)))) (run_path act f path s) (run_path act g path t).
Proof.
  revert b s t; induction path as [|bp path IH]; intros b s t Hb Fo Rl; [done|]. destruct Fo as [Ed Fo].
  destruct (edge_facts b bp Ed Hb) as (Hn & Hin & Lp & ET). pose proof (R_range f rpo ix O _ Hn) as Rn.
  replace (final_block b (bp :: path)) with (final_block bp.1 path) by (by destruct path as [|q path] using rev_ind; [|unfold final_block; rewrite app_comm_cons, !last_snoc]).
  unfold run_path. cbn [foldl]. apply IH; [done|done|]. rewrite (ops_at_g bp.1 Rn Hn), (st_out_ops bp.1 Rn).
  apply (exec_block_rel act narrow _ (st_out (Z.of_nat b))); 
    [by intros _|apply PK|apply K_range|apply plain_ops_at|apply block_local| |done].
  intros k Hk Nk. apply edge_version; [done|done|done|lia|done].
Qed.

Lemma path_rel path s :
  valid_path f path ->
  rel (good narrow []) (fun k => if decide (path = []) then 0 else cur (st_out (Z.of_nat (final_block 0 path))) k)
    (run_path act f path s) (run_path act g path s).
Proof.
  destruct path as [|bp path]; intros V; [by split_and!|]. destruct V as (Eb & _ & Fo).
  pose proof (e_in f rpo ix O) as He. pose proof (R_range f rpo ix O _ He) as Re. unfold start_block in He, Re.
  replace (final_block 0 (bp :: path)) with (final_block bp.1 path) by (by destruct path as [|q path] using rev_ind; [|unfold final_block; rewrite app_comm_cons, !last_snoc]).
  apply (rel_ext (good narrow []) _ (cur (st_out (Z.of_nat (final_block bp.1 path))))); [done|done|].
  unfold run_path. cbn [foldl]. rewrite Eb in *. apply follow_rel; [done|done|].
  rewrite (ops_at_g _ Re He), (st_out_ops _ Re). pose proof K_entry as KE. unfold start_block in KE. rewrite KE.
  apply (exec_block_rel act narrow _ (st_in (Z.of_nat (entry_block f)))); [done|constructor|by intros k ?%not_elem_of_nil|apply plain_ops_at|apply block_local|done|].
  split_and!; [done|done|]. intros z k _ _. pose proof (cur_entry k) as E0. unfold start_block in E0. by rewrite E0.
Qed.
End Built.
End Function.

(** C7: SSA construction keeps the meaning of functions of the lifter's shape
    ([liftable]: one non-empty graph, an entry without predecessors, no block listed twice
    as a predecessor, operands that are constants, registers and temporaries with bounded
    ids in version 0, and no stack slots) whose variables are 8 bytes wide, except for
    narrow ones (the flags) that each block sets, in the width it reads them, before it
    reads them ([local_vars]).  For these it returns, whatever the order in which the
    variables come out of the map, and every path from the entry keeps its memory and its
    effects, and each 8-byte register and temporary is at the end of the path in the
    version the last block leaves it. *)
Theorem build_preserves order narrow f :
  key_order order -> liftable f -> local_vars narrow f ->
  exists g, build order f = Some g /\ exists version : nat -> Z -> Z,
    forall (Mem : Type) (act : PcodeOp -> Z -> list Z -> Mem -> Mem * Z) path (s : state Mem),
      valid_path f path -> path <> [] ->
      let s1 := run_path act f path s in
      let s2 := run_path act g path s in
      mem s1 = mem s2 /\ trace s1 = trace s2 /\
      forall k, 0 <= k < 2000 -> narrow k = false -> env s1 (var_at 8 k 0) = env s2 (var_at 8 k (version (final_block 0 path) k)).
Proof.
  intros Ord L Wf. destruct (build_spec order Ord f L) as (g & rpo & ix & idom & df & K & R & T & c & E & B).
  exists g. split; [done|]. exists (fun b k => cur (st_out f K R (Z.of_nat b)) k). intros Mem act path s V Ne.
  destruct (path_rel f L g rpo ix idom df K R T c B act narrow Wf path s V) as (H1 & H2 & H3). split_and!; [done|done|].
  intros k Hk Wk. rewrite (H3 8 k Hk ltac:(by left)). by rewrite decide_False.
Qed.

(** C8: for a function of the lifter's shape (the entry has no predecessor, no block is
    listed twice as a predecessor, operands are constants, registers and temporaries with
    bounded ids in version 0, and no stack slots) in which every block is reached, SSA
    construction returns a function in SSA form: each version of each variable has one
    definition, along every path from the entry it comes before the uses, and every use
    names the version of its variable that was defined last on the path, or version 0
    when the path has not defined the variable.  So copy propagation may be applied. *)
Theorem build_ssa order f :
  key_order order -> liftable f -> (forall b, in_range f b -> reaches f (start_block f) b) ->
  exists g, build order f = Some g /\ ssa g /\ reads_latest g.
Proof.
  intros Ord L All. destruct (build_spec order Ord f L) as (g & rpo & ix & idom & df & K & R & T & c & E & B).
  assert (All' : forall b, in_range f b -> b ∈ rpo) by (intros b Hb; by apply (rpo_reach _ _ _ (bt_rpo _ _ _ _ _ _ _ _ _ _ B)), All).
  exists g. split; [done|]. split; [by apply (built_ssa f L g rpo ix idom df K R T c B)|].
  by apply (built_latest f L g rpo ix idom df K R T c B).
Qed.

(** ** Examples *)

(** An order for the map. *)
Definition by_key (m : gmap Z (list Z)) : list Z := (map_to_list m).*1.

Lemma by_key_order : key_order by_key.
Proof.
  intros m. split; [apply NoDup_fst_map_to_list|]. intros k. unfold by_key. rewrite list_elem_of_fmap. split.
  - intros ([k' l] & -> & H%elem_of_map_to_list). by exists l.
  - intros [l H]. exists (k, l). split; [done|]. by apply elem_of_map_to_list.
Qed.

Definition reg8 (i : Z) : Varnode := vn_reg i [] 8.
Definition lifted (a : Z) (os : list PcodeInsn) (ss : list Z) : PcodeBlock := mk_block 0 a os ss [] false.

(** The zero flag, one byte wide. *)
Definition zf : Varnode := vn_reg 100 [] 1.
Definition is_zf (k : Z) : bool := k =? 100.

(** Register 1 is set on both sides of a branch on a comparison, and stored in a loop
    that adds to it. *)
Definition join_blocks : list PcodeBlock :=
  [lifted 0 [make INT_EQUAL zf [reg8 2; vn_const 0 8] 0; make CBRANCH no_vn [vn_const 2 8; zf] 0] [1; 2];
   lifted 1 [make COPY (reg8 1) [vn_const 5 8] 1] [3];
   lifted 2 [make COPY (reg8 1) [vn_const 7 8] 2] [3];
   lifted 3 [make STORE no_vn [reg8 7; reg8 1] 3; make ADD (reg8 1) [reg8 1; reg8 2] 4] [3; 4];
   lifted 4 [make RETURN no_vn [reg8 1] 5] []].

Definition join_func : PcodeFunc := mk_func 0 [] (build_preds join_blocks) 0 0 [] [].

Lemma join_liftable : liftable join_func.
Proof.
  split; [done|by apply (build_preds_ok join_func join_blocks); [|repeat constructor]|done| |].
  - intros b [H0 H1]. change (num_blocks join_func) with 5 in H1. assert (b = 0 \/ b = 1 \/ b = 2 \/ b = 3 \/ b = 4) as [-> |[-> |[-> |[-> | ->]]]] by lia;
      vm_compute; repeat constructor; set_solver.
  - assert (F : Forall (fun b => Forall plain_insn (ops b)) (blocks join_func)).
    { vm_compute. repeat (apply Forall_cons; split); try apply Forall_nil_2; repeat (apply Forall_cons; split); try apply Forall_nil_2; try done;
        (split; [done| |done|done]); repeat (apply Forall_cons; split); try apply Forall_nil_2; unfold plain_vn; cbn; naive_solver lia. }
    intros b o Hb Ho. exact (proj1 (Forall_forall _ _) (proj1 (Forall_forall _ _) F b Hb) o Ho).
Qed.

Lemma join_local : local_vars is_zf join_func.
Proof.
  assert (F : Forall (fun b => local_from is_zf [] (ops b)) (blocks join_func)) by (apply (bool_decide_unpack _); by vm_compute).
  intros b Hb. exact (proj1 (Forall_forall _ _) F b Hb).
Qed.

(** Operations that add their inputs. *)
Definition sums (_ : PcodeOp) (_ : Z) (ins : list Z) (m : list Z) : list Z * Z := (m, foldl Z.add 0 ins).

Definition start_state : state (list Z) := mk_state [] (fun k => if decide (k = var_at 8 2 0) then 1 else 0) [].

Lemma build_preserves_witness :
  exists g, build by_key join_func = Some g /\
    (fun b => (fun o => (op o, offset (output o), offset <$> inputs o)) <$> ops b) <$> blocks g =
      [[(INT_EQUAL, 1, [0; 0]); (CBRANCH, 0, [2; 1])]; [(COPY, 3, [5])]; [(COPY, 2, [7])];
       [(COPY, 4, [3; 2; 5]); (STORE, 0, [0; 4]); (ADD, 5, [4; 0])]; [(RETURN, 0, [5])]] /\
    trace (run_path sums g [(0, 0); (1, 0); (3, 0); (3, 2); (4, 0)]%nat start_state) =
      [(CBRANCH, 0, [2; 1]); (STORE, 3, [0; 5]); (STORE, 3, [0; 6]); (RETURN, 5, [7])].
Proof.
  destruct (build_preserves by_key is_zf join_func by_key_order join_liftable join_local) as (g & E & version & H). exists g.
  split; [done|].
  assert (E' : exists g', build by_key join_func = Some g' /\ (fun b => (fun o => (op o, offset (output o), offset <$> inputs o)) <$> ops b) <$> blocks g' =
      [[(INT_EQUAL, 1, [0; 0]); (CBRANCH, 0, [2; 1])]; [(COPY, 3, [5])]; [(COPY, 2, [7])];
       [(COPY, 4, [3; 2; 5]); (STORE, 0, [0; 4]); (ADD, 5, [4; 0])]; [(RETURN, 0, [5])]]).
  { eexists. split; vm_compute; reflexivity. }
  destruct E' as (g' & E2 & E3). rewrite E in E2. injection E2 as <-. split; [exact E3|].
  assert (V : valid_path join_func [(0, 0); (1, 0); (3, 0); (3, 2); (4, 0)]%nat).
  { vm_compute. repeat split; eexists; (split; [reflexivity|]); try reflexivity; apply le_n. }
  destruct (H _ sums _ start_state V) as (_ & Ht & _); [done|]. rewrite <-Ht. vm_compute. reflexivity.
Defined.

Lemma build_ssa_witness : exists g, build by_key join_func = Some g /\ ssa g /\ reads_latest g /\ length (defs g) = 5%nat.
Proof.
  assert (Step : forall a c, reaches join_func 0 a -> (c =? 1) || (c =? 2) || (c =? 3) || (c =? 4) = true ->
    c ∈ succs_of join_func a -> reaches join_func 0 c).
  { intros a c Ra Rc Hs. eapply reaches_step; [exact Ra|exact Hs|]. unfold in_range. change (num_blocks join_func) with 5. lia. }
  assert (R0 : reaches join_func 0 0) by (apply reaches_refl; by vm_compute).
  assert (R1 : reaches join_func 0 1) by (apply (Step 0); [done|done|vm_compute; set_solver]).
  assert (R2 : reaches join_func 0 2) by (apply (Step 0); [done|done|vm_compute; set_solver]).
  assert (R3 : reaches join_func 0 3) by (apply (Step 1); [done|done|vm_compute; set_solver]).
  assert (R4 : reaches join_func 0 4) by (apply (Step 3); [done|done|vm_compute; set_solver]).
  destruct (build_ssa by_key join_func by_key_order join_liftable) as (g & E & S & La).
  { intros b [H0 H1]. change (num_blocks join_func) with 5 in H1. change (start_block join_func) with 0.
    assert (b = 0 \/ b = 1 \/ b = 2 \/ b = 3 \/ b = 4) as [-> |[-> |[-> |[-> | ->]]]] by lia; done. }
  exists g. split; [done|]. split; [done|]. split; [done|].
  assert (E' : length <$> (defs <$> build by_key join_func) = Some 5%nat) by (vm_compute; reflexivity).
  rewrite E in E'. cbn in E'. congruence.
Defined.

(** ** What the construction gets wrong *)

(** The effects of a path before and after the construction. *)
Definition effects (f : PcodeFunc) (path : list (nat * nat)) : list (list Z) :=
  snd <$> trace (run_path sums f path (mk_state [] (fun _ => 0) [])).

(** The entry is a loop header with one edge back: it gets no phi, so every round
    stores the value register 1 had at the start. *)
Lemma entry_loop_is_lost :
  let f := mk_func 0 [] (build_preds
    [lifted 0 [make STORE no_vn [reg8 7; reg8 1] 0; make ADD (reg8 1) [reg8 1; vn_const 1 8] 1] [1];
     lifted 1 [] [0]]) 0 0 [] [] in
  let path := [(0, 1); (1, 0); (0, 0)]%nat in
  valid_path f path /\ effects f path = [[0; 0]; [0; 1]] /\
  (fun g => effects g path) <$> build by_key f = Some [[0; 0]; [0; 0]].
Proof. split; [vm_compute; repeat split; eexists; (split; [reflexivity|]); try reflexivity; apply le_n|by vm_compute]. Qed.

(** Two edges from one block to the next: only the phi input of the first is renamed. *)
Lemma second_edge_is_lost :
  let f := mk_func 0 [] (build_preds
    [lifted 0 [] [1];
     lifted 1 [make STORE no_vn [reg8 7; reg8 1] 0; make ADD (reg8 1) [reg8 1; vn_const 1 8] 1] [2];
     lifted 2 [] [1; 1]]) 0 0 [] [] in
  let path := [(0, 0); (1, 0); (2, 0); (1, 2)]%nat in
  valid_path f path /\ effects f path = [[0; 0]; [0; 1]] /\
  (fun g => effects g path) <$> build by_key f = Some [[0; 0]; [0; 0]].
Proof. split; [vm_compute; repeat split; eexists; (split; [reflexivity|]); try reflexivity; apply le_n|by vm_compute]. Qed.

(** A phi is 8 bytes wide whatever the variable: a 4-byte register set on both sides of
    a branch is read in a version that nothing of that width defines. *)
Lemma narrow_phi_is_lost :
  let r := vn_reg 1 [] 4 in
  let f := mk_func 0 [] (build_preds
    [lifted 0 [] [1; 2]; lifted 1 [make COPY r [vn_const 5 4] 0] [3]; lifted 2 [make COPY r [vn_const 7 4] 0] [3];
     lifted 3 [make STORE no_vn [reg8 7; r] 0] []]) 0 0 [] [] in
  let path := [(0, 0); (1, 0); (3, 0)]%nat in
  valid_path f path /\ effects f path = [[0; 5]] /\
  (fun g => effects g path) <$> build by_key f = Some [[0; 0]].
Proof. split; [vm_compute; repeat split; eexists; (split; [reflexivity|]); try reflexivity; apply le_n|by vm_compute]. Qed.
