(* ===== verification/MiddleEnd.v ===== *)
(** * The middle end: SSA construction, dead code elimination, copy propagation

    The passes that [decompiler.cpp] runs one after the other on a lifted function, and
    the facts that compose their theorems: dropping operations keeps SSA form, and the
    renaming leaves the outputs of stores alone. *)

From S2P Require Import Prelude Ir Ssa Dom Phi Rename CopyProp Build.
From S2P Require Dce Propagate.

#[local] Open Scope Z_scope.

(** ** Dropping operations keeps SSA form *)

Definition shrinks (f g : PcodeFunc) : Prop :=
  same_shape f g /\ Forall2 (fun b c => ops c `sublist_of` ops b) (blocks f) (blocks g).

Lemma shrinks_refl f : shrinks f f.
Proof.
  split; [split; [done|]|]; apply Forall2_lookup; intros i; destruct (blocks f !! i); constructor; done.
Qed.

Lemma filter_sublist (q : PcodeInsn -> bool) l l' :
  l' `sublist_of` l -> List.filter q l' `sublist_of` List.filter q l.
Proof. induction 1 as [|x l' l _ IH|x l' l _ IH]; cbn; [constructor|..]; destruct (q x); by repeat constructor. Qed.

Lemma omap_sublist {A B} (h : A -> option B) (l l' : list A) : l' `sublist_of` l -> omap h l' `sublist_of` omap h l.
Proof. induction 1 as [|x l' l _ IH|x l' l _ IH]; cbn; [constructor|..]; destruct (h x); by repeat constructor. Qed.

Lemma filter_is_sublist (q : PcodeInsn -> bool) l : List.filter q l `sublist_of` l.
Proof. induction l as [|x l IH]; cbn; [constructor|]. destruct (q x); by constructor. Qed.

Lemma sublist_split {A} (l l' u v : list A) x :
  l' `sublist_of` l -> l' = u ++ x :: v -> exists u' v', l = u' ++ x :: v' /\ u `sublist_of` u' /\ v `sublist_of` v'.
Proof.
  intros H. revert u. induction H as [|y l' l H IH|y l' l H IH]; intros u E; [by destruct u| |].
  - destruct u as [|z u]; cbn in E; injection E as -> ->; [by exists [], l|].
    destruct (IH u eq_refl) as (u' & v' & -> & H1 & H2). exists (z :: u'), v'. split_and!; [done|by constructor|done].
  - destruct (IH u E) as (u' & v' & -> & H1 & H2). exists (y :: u'), v'. split_and!; [done|by constructor|done].
Qed.

Section Shrink.
Context (f g : PcodeFunc) (E : shrinks f g) (Hssa : ssa f).

Lemma shrink_ops b : ops_at g b `sublist_of` ops_at f b.
Proof using E.
  destruct E as [_ F]. rewrite Forall2_lookup in F. unfold ops_at. destruct (F b) as [B C H|]; [exact H|constructor].
Qed.

Lemma shrink_defs : defs g `sublist_of` defs f.
Proof using E.
  destruct E as [_ F]. unfold defs. induction F as [|b c bs cs H _ IH]; [constructor|]. cbn.
  apply sublist_app; [by apply omap_sublist|exact IH].
Qed.

(** A definition that is left anywhere is left where it was. *)
Lemma still_defined b k : k ∈ defs g -> k ∈ omap out_key (ops_at f b) -> k ∈ omap out_key (ops_at g b).
Proof using E Hssa.
  intros Hg Hf. apply list_elem_of_join in Hg as (l & Hk & Hl). apply list_elem_of_fmap in Hl as (C & -> & HC).
  apply list_elem_of_lookup in HC as [c HC]. destruct E as [_ F]. pose proof F as F'. rewrite Forall2_lookup in F'.
  specialize (F' c). rewrite HC in F'. inversion F' as [B ? Hs EB|]; subst.
  assert (c = b) as ->.
  { unfold ops_at in Hf. destruct (blocks f !! b) as [B'|] eqn:EB'; [|by apply not_elem_of_nil in Hf].
    eapply (NoDup_join_same _ c b _ _ k (ssa_unique f Hssa)); [by rewrite list_lookup_fmap, <-EB|by rewrite list_lookup_fmap, EB'| |done].
    by eapply elem_of_sublist; [|by apply omap_sublist]. }
  unfold ops_at. by rewrite HC.
Qed.

Lemma flat_defines h path k :
  (exists y, y ∈ flat h path /\ defines y k) <-> exists bp, bp ∈ path /\ k ∈ omap out_key (ops_at h bp.1).
Proof.
  unfold flat. setoid_rewrite list_elem_of_join. setoid_rewrite list_elem_of_fmap. split.
  - intros (y & (l & Hy & bp & -> & Hbp) & D). exists bp. split; [done|]. unfold items in Hy.
    apply list_elem_of_omap. apply elem_of_cons in Hy as [->|Hy].
    + destruct D as (i & Hi & D). exists i. split; [|done]. apply list_elem_of_In, filter_In in Hi as [Hi _]. by apply list_elem_of_In.
    + apply list_elem_of_fmap in Hy as (i & -> & Hi). exists i. split; [|done].
      apply list_elem_of_In, filter_In in Hi as [Hi _]. by apply list_elem_of_In.
  - intros (bp & Hbp & (i & Hi & D)%list_elem_of_omap). apply list_elem_of_In in Hi.
    destruct (is_phi i) eqn:P.
    + exists (Phis bp.2 (List.filter is_phi (ops_at h bp.1))). split; [|exists i; split; [by apply list_elem_of_In, filter_In|done]].
      eexists. split; [by left|]. by exists bp.
    + exists (Op i). split; [|done]. eexists. split; [|by exists bp]. right. apply list_elem_of_fmap. exists i. split; [done|].
      apply list_elem_of_In, filter_In. by rewrite P.
Qed.

Lemma item_keys p P r k :
  (exists y, y ∈ Phis p P :: (Op <$> r) /\ defines y k) <-> k ∈ omap out_key (P ++ r).
Proof.
  rewrite omap_app, elem_of_app, !list_elem_of_omap. split.
  - intros (y & [->|Hy]%elem_of_cons & D); [left; exact D|right]. apply list_elem_of_fmap in Hy as (i & -> & Hi). by exists i.
  - intros [D|(i & Hi & D)]; [exists (Phis p P); split; [by left|exact D]|].
    exists (Op i). split; [|done]. right. apply list_elem_of_fmap. by exists i.
Qed.

(** Within a block: what precedes an operation still defines what it did. *)
Lemma still_before b k P P' r1 r1' i r2 r2' :
  P = List.filter is_phi (ops_at f b) -> P' = List.filter is_phi (ops_at g b) ->
  List.filter (fun i => negb (is_phi i)) (ops_at f b) = r1 ++ i :: r2 ->
  List.filter (fun i => negb (is_phi i)) (ops_at g b) = r1' ++ i :: r2' ->
  r1' `sublist_of` r1 -> r2' `sublist_of` r2 ->
  k ∈ defs g -> k ∈ omap out_key (P ++ r1) -> k ∈ omap out_key (P' ++ r1').
Proof using E Hssa.
  intros -> -> Ef Eg S1 S2 Hd Hk.
  assert (N : NoDup (omap out_key (ops_at f b))).
  { unfold ops_at. destruct (blocks f !! b) as [B|] eqn:EB; [|constructor]. cbn.
    apply (NoDup_join_elem _ _ (ssa_unique f Hssa)), list_elem_of_fmap. exists B. split; [done|]. by eapply list_elem_of_lookup_2. }
  assert (Hb : k ∈ omap out_key (ops_at f b)).
  { rewrite <-(filter_Permutation is_phi (ops_at f b)), Ef, omap_app, elem_of_app.
    rewrite !omap_app, !elem_of_app in Hk |- *. tauto. }
  apply (still_defined b k Hd) in Hb. rewrite <-(filter_Permutation is_phi (ops_at g b)), Eg in Hb.
  rewrite <-(filter_Permutation is_phi (ops_at f b)), Ef, app_assoc, omap_app in N.
  apply NoDup_app in N as (_ & N & _). specialize (N k Hk).
  rewrite app_assoc, omap_app, elem_of_app in Hb. destruct Hb as [Hb|Hb]; [done|]. exfalso. apply N.
  eapply elem_of_sublist; [exact Hb|]. apply omap_sublist. by constructor.
Qed.

Lemma shrink_ssa : ssa g.
Proof using E Hssa.
  split.
  - eapply sublist_NoDup; [apply Hssa|apply shrink_defs].
  - intros path A x B k V Efl Rx Hd. apply flat_split in Efl as (p1 & bp & p2 & u & v & -> & Ei & -> & ->).
    apply (shape_valid f g (proj1 E)) in V. pose proof (elem_of_sublist _ _ k Hd shrink_defs) as Hdf.
    assert (Before : forall y, y ∈ flat f p1 -> defines y k -> exists y, y ∈ flat g p1 ++ u /\ defines y k).
    { intros y Hy D. destruct (proj1 (flat_defines f p1 k)) as (bq & Hbq & Hk); [by exists y|].
      destruct (proj2 (flat_defines g p1 k)) as (y' & Hy' & D'); [exists bq; split; [done|by apply still_defined]|].
      exists y'. split; [apply elem_of_app; by left|done]. }
    pose proof (shrink_ops bp.1) as So.
    pose proof Ei as Eu. apply items_split in Ei as [(-> & -> & ->)|(r1' & i & r2' & Er & -> & ->)].
    + destruct (ssa_strict f Hssa (p1 ++ bp :: p2) (flat f p1) (Phis bp.2 (List.filter is_phi (ops_at f bp.1)))
        ((Op <$> List.filter (fun i => negb (is_phi i)) (ops_at f bp.1)) ++ flat f p2) k V) as (y & Hy & D).
      * rewrite flat_app. done.
      * destruct Rx as (i & w & Hi & Hw & Nw). exists i, w. split_and!; [|done|done]. eapply elem_of_sublist; [exact Hi|]. by apply filter_sublist.
      * done.
      * by eapply Before.
    + destruct (sublist_split _ _ _ _ _ (filter_sublist (fun i => negb (is_phi i)) _ _ So) Er) as (r1 & r2 & Ef & S1 & S2).
      destruct (ssa_strict f Hssa (p1 ++ bp :: p2) (flat f p1 ++ Phis bp.2 (List.filter is_phi (ops_at f bp.1)) :: (Op <$> r1))
        (Op i) ((Op <$> r2) ++ flat f p2) k V) as (y & Hy & D).
      * rewrite flat_app. change (flat f (bp :: p2)) with (items (ops_at f bp.1) bp.2 ++ flat f p2).
        unfold items. rewrite Ef, fmap_app. cbn. by rewrite <-!app_assoc.
      * done.
      * done.
      * assert (Eu' : u = Phis bp.2 (List.filter is_phi (ops_at g bp.1)) :: (Op <$> r1')).
        { unfold items in Eu. rewrite Er, fmap_app in Eu. cbn in Eu. by apply (app_inv_tail (Op i :: (Op <$> r2'))). }
        apply elem_of_app in Hy as [Hy|Hy]; [by eapply Before|].
        assert (Hk : k ∈ omap out_key (List.filter is_phi (ops_at f bp.1) ++ r1)) by (apply (item_keys bp.2); by exists y).
        apply (still_before bp.1 k _ _ r1 r1' i r2 r2' eq_refl eq_refl Ef Er S1 S2 Hd) in Hk.
        apply (item_keys bp.2) in Hk as (y' & Hy' & D'). exists y'. split; [|done]. apply elem_of_app. right. by rewrite Eu'.
  - intros b i Hb Hi. apply list_elem_of_lookup in Hb as [n Hb]. destruct E as [_ F]. rewrite Forall2_lookup in F.
    specialize (F n). rewrite Hb in F. inversion F as [B ? Hs EB|]; subst.
    apply (ssa_copies f Hssa B); [by eapply list_elem_of_lookup_2|by eapply elem_of_sublist].
Qed.
End Shrink.

(** ** Dead code elimination drops operations *)

(** [g] is [f] with operations marked NOP or erased. *)
Definition drops (f g : PcodeFunc) : Prop :=
  same_shape f g /\ Forall2 (fun b c => erase_nops (ops c) `sublist_of` erase_nops (ops b)) (blocks f) (blocks g).

Lemma map_ops_shape h f : same_shape f (map_ops h f).
Proof. split; [done|]. apply Forall2_fmap_r, Forall2_lookup. intros i. destruct (blocks f !! i); by constructor. Qed.

Lemma shape_trans f g h : same_shape f g -> same_shape g h -> same_shape f h.
Proof.
  intros [E1 F1] [E2 F2]. split; [congruence|]. rewrite Forall2_lookup in *. intros i. specialize (F1 i). specialize (F2 i).
  destruct F1 as [b c [A1 P1]|]; inversion F2 as [? d [A2 P2]|]; subst; constructor. split; congruence.
Qed.

Lemma drops_trans f g h : drops f g -> drops g h -> drops f h.
Proof.
  intros [S1 F1] [S2 F2]. split; [by eapply shape_trans|]. rewrite Forall2_lookup in *. intros i. specialize (F1 i). specialize (F2 i).
  destruct F1 as [b c H1|]; inversion F2 as [? d H2|]; subst; constructor. by etrans.
Qed.

Lemma drops_refl f : drops f f.
Proof. split; [split; [done|]|]; apply Forall2_lookup; intros i; destruct (blocks f !! i); by constructor. Qed.

Lemma mark_drops dead f : drops f (map_ops (fmap (mark dead)) f).
Proof.
  split; [apply map_ops_shape|]. apply Forall2_fmap_r, Forall2_lookup. intros i. destruct (blocks f !! i) as [b|]; constructor.
  cbn. rewrite erase_mark. unfold erase_nops. induction (ops b) as [|o os IH]; [constructor|]. cbn.
  destruct (is_nop o); cbn; [done|]. destruct (dead o); by constructor.
Qed.

Lemma sweep_drops n f : drops f (Dce.sweep n f).
Proof.
  revert f; induction n as [|n IH]; intros f; cbn; [apply drops_refl|]. destruct (existsb _ _); [|apply drops_refl].
  eapply drops_trans; [apply mark_drops|apply IH].
Qed.

Lemma dce_shrinks f : shrinks f (Dce.run f).
Proof.
  unfold Dce.run. set (f1 := map_ops _ f). assert (D : drops f (Dce.sweep 6 f1)) by (eapply drops_trans; [apply mark_drops|apply sweep_drops]).
  destruct D as [S F]. split; [by eapply shape_trans, map_ops_shape|].
  apply Forall2_fmap_r. eapply Forall2_impl; [exact F|]. intros b c H. cbn. etrans; [exact H|]. apply filter_is_sublist.
Qed.

(** ** The passes together *)

Lemma middle_end_runs order narrow f :
  key_order order -> liftable f -> local_vars narrow f -> (forall b, in_range f b -> reaches f (start_block f) b) -> Dce.stores_ok f ->
  exists g, build order f = Some g /\
    forall (Mem : Type) (act : PcodeOp -> Z -> list Z -> Mem -> Mem * Z) path (s : state Mem),
      pure_ops act -> Propagate.copies act -> valid_path f path ->
      forall h, h = Dce.run g \/ h = Propagate.copy_propagation (Dce.run g) ->
      mem (run_path act f path s) = mem (run_path act h path s) /\
      trace (run_path act f path s) = trace (run_path act h path s).
Proof.
  intros Ord L Wf All Hst. destruct (build_spec order Ord f L) as (g & rpo & ix & idom & df & K & R & T & c & E & B).
  assert (All' : forall b, in_range f b -> b ∈ rpo) by (intros b Hb; by apply (rpo_reach _ _ _ (bt_rpo _ _ _ _ _ _ _ _ _ _ B)), All).
  pose proof (built_ssa f L g rpo ix idom df K R T c B All') as Hssa. pose proof (built_shape f g rpo ix idom df K R T c B) as Sh.
  exists g. split; [done|]. intros Mem act path s Hpure Hcopy V h Hh.
  destruct (path_rel f L g rpo ix idom df K R T c B act narrow Wf path s V) as (M1 & T1 & _).
  assert (Hg : Dce.stores_ok g).
  { intros blk i Hb Hi Eo. apply list_elem_of_lookup in Hb as [b Eb].
    destruct (g_range f g rpo ix idom df K R T c B b blk Eb) as [Rb Eat]. rewrite <-Eat in Hi.
    destruct (g_ops f L g rpo ix idom df K R T c B All' b i Rb Hi) as [P|(o & Ho & E1 & _ & _ & E2)];
      [unfold is_phi in P; by rewrite Eo in P|]. rewrite E2. unfold ops_at in Ho.
    destruct (blocks f !! b) as [blk0|] eqn:Eb0; [|by apply not_elem_of_nil in Ho].
    apply (Hst blk0 o); [by eapply list_elem_of_lookup_2|done|congruence]. }
  destruct (Dce.run_preserves act Hpure g Hg path s) as (M2 & T2 & _).
  pose proof (dce_shrinks g) as Sg. pose proof (shrink_ssa g (Dce.run g) Sg Hssa) as Hs2.
  assert (V2 : valid_path (Dce.run g) path) by (apply (shape_valid _ _ (proj1 Sg)), (shape_valid _ _ Sh); done).
  destruct (copy_propagation_sound act Hpure Hcopy (Dce.run g) path s Hs2 V2) as (M3 & T3 & _).
  destruct Hh as [-> | ->]; (split; [rewrite M1, M2; by try exact M3|rewrite T1, T2; by try exact T3]).
Qed.

(** C9: SSA construction, dead code elimination and copy propagation one after the other
    (the other passes of [Propagate.run] are not included), for the functions of
    [build_preserves] ([liftable] and [local_vars]) in which every block is reached and no
    store has a flag as its output: SSA construction returns, and what dead code
    elimination and copy propagation make of its result ends every path from the entry
    with the memory and the effects of the lifted function, for every interpretation in
    which copies copy and only stores, calls, intrinsics, returns and branches have
    effects. *)
Theorem middle_end_preserves order narrow f :
  key_order order -> liftable f -> local_vars narrow f -> (forall b, in_range f b -> reaches f (start_block f) b) -> Dce.stores_ok f ->
  exists g, build order f = Some g /\
    forall (Mem : Type) (act : PcodeOp -> Z -> list Z -> Mem -> Mem * Z) path (s : state Mem),
      pure_ops act -> Propagate.copies act -> valid_path f path ->
      let h := Propagate.copy_propagation (Dce.run g) in
      mem (run_path act f path s) = mem (run_path act h path s) /\
      trace (run_path act f path s) = trace (run_path act h path s).
Proof.
  intros Ord L Wf All Hst. destruct (middle_end_runs order narrow f Ord L Wf All Hst) as (g & E & H).
  exists g. split; [exact E|]. intros Mem act path s Hp Hc V h. apply (H Mem act path s Hp Hc V). by right.
Qed.

(** The loop of [join_func], with a copy that is propagated and a flag nobody reads. *)
Definition middle_blocks : list PcodeBlock :=
  [lifted 0 [make INT_EQUAL zf [reg8 2; vn_const 0 8] 0; make CBRANCH no_vn [vn_const 2 8; zf] 0] [1; 2];
   lifted 1 [make COPY (reg8 1) [vn_const 5 8] 1] [3];
   lifted 2 [make COPY (reg8 1) [vn_const 7 8] 2] [3];
   lifted 3 [make STORE no_vn [reg8 7; reg8 1] 3; make ADD (reg8 1) [reg8 1; reg8 2] 4] [3; 4];
   lifted 4 [make COPY (vn_temp 0 8) [reg8 1] 5; make INT_EQUAL zf [reg8 1; reg8 2] 5; make RETURN no_vn [vn_temp 0 8] 6] []].

Definition middle_func : PcodeFunc := mk_func 0 [] (build_preds middle_blocks) 0 0 [] [].

Lemma middle_liftable : liftable middle_func.
Proof.
  split; [done|by apply (build_preds_ok middle_func middle_blocks); [|repeat constructor]|done| |].
  - intros b [H0 H1]. change (num_blocks middle_func) with 5 in H1. assert (b = 0 \/ b = 1 \/ b = 2 \/ b = 3 \/ b = 4) as [-> |[-> |[-> |[-> | ->]]]] by lia;
      vm_compute; repeat constructor; set_solver.
  - assert (F : Forall (fun b => Forall plain_insn (ops b)) (blocks middle_func)).
    { vm_compute. repeat (apply Forall_cons; split); try apply Forall_nil_2; repeat (apply Forall_cons; split); try apply Forall_nil_2; try done;
        (split; [done| |done|done]); repeat (apply Forall_cons; split); try apply Forall_nil_2; unfold plain_vn; cbn; naive_solver lia. }
    intros b o Hb Ho. exact (proj1 (Forall_forall _ _) (proj1 (Forall_forall _ _) F b Hb) o Ho).
Qed.

Lemma middle_local : local_vars is_zf middle_func.
Proof.
  assert (F : Forall (fun b => local_from is_zf [] (ops b)) (blocks middle_func)) by (apply (bool_decide_unpack _); by vm_compute).
  intros b Hb. exact (proj1 (Forall_forall _ _) F b Hb).
Qed.

Lemma middle_reached b : in_range middle_func b -> reaches middle_func (start_block middle_func) b.
Proof.
  assert (Step : forall a c, reaches middle_func 0 a -> (c =? 1) || (c =? 2) || (c =? 3) || (c =? 4) = true ->
    c ∈ succs_of middle_func a -> reaches middle_func 0 c).
  { intros a c Ra Rc Hs. eapply reaches_step; [exact Ra|exact Hs|]. unfold in_range. change (num_blocks middle_func) with 5. lia. }
  assert (R0 : reaches middle_func 0 0) by (apply reaches_refl; by vm_compute).
  assert (R1 : reaches middle_func 0 1) by (apply (Step 0); [done|done|vm_compute; set_solver]).
  assert (R2 : reaches middle_func 0 2) by (apply (Step 0); [done|done|vm_compute; set_solver]).
  assert (R3 : reaches middle_func 0 3) by (apply (Step 1); [done|done|vm_compute; set_solver]).
  assert (R4 : reaches middle_func 0 4) by (apply (Step 3); [done|done|vm_compute; set_solver]).
  intros [H0 H1]. change (num_blocks middle_func) with 5 in H1. change (start_block middle_func) with 0.
  assert (b = 0 \/ b = 1 \/ b = 2 \/ b = 3 \/ b = 4) as [-> |[-> |[-> |[-> | ->]]]] by lia; done.
Qed.

Lemma middle_stores : Dce.stores_ok middle_func.
Proof.
  assert (F : Forall (fun b => Forall (fun i => op i = STORE -> Dce.is_flag_reg (id (output i)) = false) (ops b)) (blocks middle_func)).
  { vm_compute. repeat (apply Forall_cons; split); try apply Forall_nil_2; repeat (apply Forall_cons; split); try apply Forall_nil_2; done. }
  intros b i Hb. exact (proj1 (Forall_forall _ _) (proj1 (Forall_forall _ _) F b Hb) i).
Qed.

(** Operations that give their first input, so copies copy. *)
Definition heads (_ : PcodeOp) (_ : Z) (ins : list Z) (m : unit) : unit * Z := (m, from_option (fun x => x) 0 (head ins)).

Lemma middle_path : valid_path middle_func [(0, 0); (2, 0); (3, 1); (4, 0)]%nat.
Proof. vm_compute. repeat split; eexists; (split; [reflexivity|]); try reflexivity; repeat constructor. Qed.

(** The codes and the offsets of the inputs of the last block. *)
Definition last_block (g : PcodeFunc) : list (PcodeOp * list Z) :=
  from_option (fun b => (fun o => (op o, offset <$> inputs o)) <$> ops b) [] (last (blocks g)).

Lemma middle_end_preserves_witness :
  exists g, build by_key middle_func = Some g /\
    last_block g = [(COPY, [5]); (INT_EQUAL, [5; 0]); (RETURN, [6])] /\
    last_block (Propagate.copy_propagation (Dce.run g)) = [(COPY, [5]); (RETURN, [5])] /\
    forall s : state unit, let path := [(0, 0); (2, 0); (3, 1); (4, 0)]%nat in
      trace (run_path heads middle_func path s) = trace (run_path heads (Propagate.copy_propagation (Dce.run g)) path s).
Proof.
  destruct (middle_end_preserves by_key is_zf middle_func by_key_order middle_liftable middle_local middle_reached middle_stores) as (g & E & H).
  exists g. split; [exact E|].
  assert (E2 : ((fun g => (last_block g, last_block (Propagate.copy_propagation (Dce.run g)))) <$> build by_key middle_func) =
    Some ([(COPY, [5]); (INT_EQUAL, [5; 0]); (RETURN, [6])], [(COPY, [5]); (RETURN, [5])])) by (vm_compute; reflexivity).
  rewrite E in E2. cbn in E2. injection E2 as E2 E3. split; [exact E2|]. split; [exact E3|]. intros s path.
  exact (proj2 (H unit heads path s (fun _ _ _ _ _ => eq_refl) (fun _ _ _ _ => eq_refl) middle_path)).
Defined.
