(* ===== verification/Lifter.v ===== *)
(** * The x86 lifter: src/hyperion/core/decompiler/lifter.cpp, core/disasm/disassembler.h

    Decoded instructions, their translation to p-code, and the assembly of the lifted
    function.  The numbers of Zydis' registers and mnemonics, the fmt library's
    hexadecimal format and the text of an instruction are parameters. *)

From S2P Require Import Prelude Ir.
From S2P Require Dom.

#[local] Open Scope Z_scope.

(** ** Decoded instructions: disassembler.h *)

Inductive InsnType :=
  | Unknown | Nop | Mov | Push | Pop | Call | Ret | Jmp | Jcc | Cmp | Test | Setcc
  | Add | Sub | Mul | Div | Imul | Idiv | Inc | Dec | And | Or | Xor | Not | Shl | Shr | Sar
  | Rol | Ror | Lea | Int | Syscall | Movsx | Movzx | Other.
#[export] Instance InsnType_eq_dec : EqDecision InsnType.
Proof. solve_decision. Defined.

(** [OpType]; the prefix tells [Reg] from the kind of varnode. *)
Inductive OpType := OpNone | OpReg | OpImm | OpMem.
#[export] Instance OpType_eq_dec : EqDecision OpType.
Proof. solve_decision. Defined.

Inductive Arch := X86 | X64 | ARM | ARM64 | MIPS | PPC.
#[export] Instance Arch_eq_dec : EqDecision Arch.
Proof. solve_decision. Defined.

Record MemRef := mk_mem { disp : Z; base : Z; index : Z; scale : Z }.
Record Operand := mk_operand { val : Z; mem : MemRef; reg : Z; op_size : Z; op_type : OpType }.
Definition no_operand : Operand := mk_operand 0 (mk_mem 0 0 0 0) 0 0 OpNone.

(** The five operands of the array; entries the decoder left alone are [no_operand]. *)
Record Insn := mk_insn {
  i_addr : Z; i_ops : list Operand; mnemonic : list Z; type : InsnType; op_count : Z; mnemonic_id : Z
}.
Definition operand (i : Insn) (n : nat) : Operand := default no_operand (i_ops i !! n).

Definition branch_target (i : Insn) : Z :=
  if (0 <? op_count i) && bool_decide (op_type (operand i 0) = OpImm) then val (operand i 0) else 0.

(** The parts of analysis_db.h the lifters read. *)
Record BasicBlock := mk_bb { bb_start : Z; insns : list Insn; bb_succs : list Z }.
Record Function := mk_function { fn_entry : Z; fn_name : list Z; fn_blocks : gmap Z BasicBlock }.
Record AnalysisDB := mk_db { arch : Arch; image_base : Z; names : gmap Z (list Z) }.

(** ** Registers *)

(** The registers and mnemonics of Zydis that the lifter names. *)
Inductive ZydisRegister :=
  | NONE | RIP | EIP
  | RAX | EAX | AX | AL | RCX | ECX | CX | CL | RDX | EDX | DX | DL | RBX | EBX | BX | BL
  | RSP | ESP | RBP | EBP | RSI | ESI | SIL | RDI | EDI | DIL
  | R8 | R8D | R8W | R8B | R9 | R9D | R9W | R9B | R10 | R10D | R11 | R11D
  | R12 | R12D | R13 | R13D | R14 | R14D | R15 | R15D.

Inductive ZydisMnemonic :=
  | JZ | SETZ | JNZ | SETNZ | JB | SETB | JNB | SETNB | JL | SETL | JNL | SETNL | JLE | SETLE
  | JNLE | SETNLE | JBE | SETBE | JNBE | SETNBE | JS | SETS | JNS | SETNS | JO | SETO | JNO | SETNO.

Definition kRegTable : list (ZydisRegister * (list Z * Z * Z)) :=
  [(RAX, (bs "rax", 0, 8)); (EAX, (bs "eax", 0, 4)); (AX, (bs "ax", 0, 2)); (AL, (bs "al", 0, 1));
   (RCX, (bs "rcx", 1, 8)); (ECX, (bs "ecx", 1, 4)); (CX, (bs "cx", 1, 2)); (CL, (bs "cl", 1, 1));
   (RDX, (bs "rdx", 2, 8)); (EDX, (bs "edx", 2, 4)); (DX, (bs "dx", 2, 2)); (DL, (bs "dl", 2, 1));
   (RBX, (bs "rbx", 3, 8)); (EBX, (bs "ebx", 3, 4)); (BX, (bs "bx", 3, 2)); (BL, (bs "bl", 3, 1));
   (RSP, (bs "rsp", 4, 8)); (ESP, (bs "esp", 4, 4));
   (RBP, (bs "rbp", 5, 8)); (EBP, (bs "ebp", 5, 4));
   (RSI, (bs "rsi", 6, 8)); (ESI, (bs "esi", 6, 4)); (SIL, (bs "sil", 6, 1));
   (RDI, (bs "rdi", 7, 8)); (EDI, (bs "edi", 7, 4)); (DIL, (bs "dil", 7, 1));
   (R8, (bs "r8", 8, 8)); (R8D, (bs "r8d", 8, 4)); (R8W, (bs "r8w", 8, 2)); (R8B, (bs "r8b", 8, 1));
   (R9, (bs "r9", 9, 8)); (R9D, (bs "r9d", 9, 4)); (R9W, (bs "r9w", 9, 2)); (R9B, (bs "r9b", 9, 1));
   (R10, (bs "r10", 10, 8)); (R10D, (bs "r10d", 10, 4));
   (R11, (bs "r11", 11, 8)); (R11D, (bs "r11d", 11, 4));
   (R12, (bs "r12", 12, 8)); (R12D, (bs "r12d", 12, 4));
   (R13, (bs "r13", 13, 8)); (R13D, (bs "r13d", 13, 4));
   (R14, (bs "r14", 14, 8)); (R14D, (bs "r14d", 14, 4));
   (R15, (bs "r15", 15, 8)); (R15D, (bs "r15d", 15, 4))].

Definition REG_RSP : Z := 4.
Definition REG_RBP : Z := 5.
Definition ZF : Varnode := vn_reg 100 (bs "ZF") 1.
Definition CF : Varnode := vn_reg 101 (bs "CF") 1.
Definition SF : Varnode := vn_reg 102 (bs "SF") 1.
Definition OF : Varnode := vn_reg 103 (bs "OF") 1.
Definition rax : Varnode := vn_reg 0 (bs "rax") 8.
Definition rsp : Varnode := vn_reg 4 (bs "rsp") 8.

(** ** Conditions *)

Inductive CondKind :=
  | C_ZF | C_NZF | C_CF | C_NCF | C_LT | C_GE | C_LE | C_GT | C_BE | C_A | C_SF | C_NSF | C_OF | C_NOF | C_UNKNOWN.
#[export] Instance CondKind_eq_dec : EqDecision CondKind.
Proof. solve_decision. Defined.

Definition mnemonic_kind (m : ZydisMnemonic) : CondKind :=
  match m with
  | JZ | SETZ => C_ZF | JNZ | SETNZ => C_NZF | JB | SETB => C_CF | JNB | SETNB => C_NCF
  | JL | SETL => C_LT | JNL | SETNL => C_GE | JLE | SETLE => C_LE | JNLE | SETNLE => C_GT
  | JBE | SETBE => C_BE | JNBE | SETNBE => C_A | JS | SETS => C_SF | JNS | SETNS => C_NSF
  | JO | SETO => C_OF | JNO | SETNO => C_NOF
  end.

Definition all_mnemonics : list ZydisMnemonic :=
  [JZ; SETZ; JNZ; SETNZ; JB; SETB; JNB; SETNB; JL; SETL; JNL; SETNL; JLE; SETLE;
   JNLE; SETNLE; JBE; SETBE; JNBE; SETNBE; JS; SETS; JNS; SETNS; JO; SETO; JNO; SETNO].

(** The mnemonic without its leading [j] or [set]; [c[1]] and [c[2]] of a short text
    are the terminating zero. *)
Definition cond_suffix (mn : list Z) : option (list Z) :=
  match mn with
  | c :: t =>
      if (c =? ch "j") || (c =? ch "J") then Some t
      else if starts_with (bs "set") mn then Some (drop 3 mn) else None
  | [] => None
  end.

Definition cond_names : list (list Z * CondKind) :=
  [(bs "e", C_ZF); (bs "z", C_ZF); (bs "ne", C_NZF); (bs "nz", C_NZF);
   (bs "b", C_CF); (bs "c", C_CF); (bs "nae", C_CF); (bs "ae", C_NCF); (bs "nb", C_NCF); (bs "nc", C_NCF);
   (bs "l", C_LT); (bs "nge", C_LT); (bs "ge", C_GE); (bs "nl", C_GE);
   (bs "le", C_LE); (bs "ng", C_LE); (bs "g", C_GT); (bs "nle", C_GT);
   (bs "be", C_BE); (bs "na", C_BE); (bs "a", C_A); (bs "nbe", C_A);
   (bs "s", C_SF); (bs "ns", C_NSF); (bs "o", C_OF); (bs "no", C_NOF)].

Definition cond_kind (mn : list Z) : CondKind :=
  match cond_suffix mn with
  | Some s => from_option (fun e => e.2.2) C_UNKNOWN (list_find (fun e => e.1 = s) cond_names)
  | None => C_UNKNOWN
  end.

(** ** The lifter's state *)

(** The members of [Lifter], and the operations and the return mark of the block. *)
Record lift_st := mk_lift {
  next_temp_ : Z; cur_addr_ : Z; cur_seq_ : Z; stack_vars_ : list Varnode;
  out_ops : list PcodeInsn; out_has_return : bool
}.

Definition M (A : Type) : Type := lift_st -> A * lift_st.
#[export] Instance M_ret : MRet M := fun A a st => (a, st).
#[export] Instance M_bind : MBind M := fun A B k m st => let '(a, st) := m st in k a st.

Definition alloc_temp (sz : Z) : M Varnode := fun st =>
  (vn_temp (next_temp_ st) sz,
   mk_lift (next_temp_ st + 1) (cur_addr_ st) (cur_seq_ st) (stack_vars_ st) (out_ops st) (out_has_return st)).

(** Every call but none passes an address of its own. *)
Definition emit (o : PcodeOp) (out : Varnode) (ins : list Varnode) : M unit := fun st =>
  (tt, mk_lift (next_temp_ st) (cur_addr_ st) (cur_seq_ st + 1) (stack_vars_ st)
         (out_ops st ++ [Ir.mk_insn o out ins (cur_addr_ st) (cur_seq_ st)]) (out_has_return st)).

Definition push_stack_var (v : Varnode) : M unit := fun st =>
  (tt, mk_lift (next_temp_ st) (cur_addr_ st) (cur_seq_ st) (stack_vars_ st ++ [v]) (out_ops st) (out_has_return st)).

Definition mark_return : M unit := fun st =>
  (tt, mk_lift (next_temp_ st) (cur_addr_ st) (cur_seq_ st) (stack_vars_ st) (out_ops st) true).

(** The start of [lift_insn]. *)
Definition start_insn (a : Z) : M unit := fun st =>
  (tt, mk_lift (next_temp_ st) a 0 (stack_vars_ st) (out_ops st) (out_has_return st)).

(** An operation into a new temporary. *)
Definition emit_temp (o : PcodeOp) (sz : Z) (ins : list Varnode) : M Varnode :=
  t ← alloc_temp sz; _ ← emit o t ins; mret t.

Section Lifter.
Context (zreg : ZydisRegister -> Z) (zmnemonic : ZydisMnemonic -> Z).
Context (fmt_X : Z -> list Z) (format_text : Insn -> Arch -> list Z).

(** [cond_kind_from_id]: the switch, as a search for the mnemonic with the number. *)
Definition cond_kind_from_id (n : Z) : CondKind :=
  from_option (fun m => mnemonic_kind m.2) C_UNKNOWN (list_find (fun m => zmnemonic m = n) all_mnemonics).

Definition reg_vn (z bits : Z) : Varnode :=
  match list_find (fun r => zreg r.1 = z) kRegTable with
  | Some (_, (_, (n, i, sz))) => vn_reg i n sz
  | None => vn_reg (50 + z mod 50) (bs "unk") (bits / 8)
  end.

Definition is_frame (z : Z) : bool :=
  (z =? zreg RBP) || (z =? zreg EBP) || (z =? zreg RSP) || (z =? zreg ESP).
Definition is_ip (z : Z) : bool := (z =? zreg RIP) || (z =? zreg EIP).
Definition no_register (z : Z) : bool := (z =? 0) || (z =? zreg NONE).

(** [base + index * scale]; [None] when the operand has neither. *)
Definition base_index (m : MemRef) : M (option Varnode) :=
  let address := if no_register (base m) then None else Some (reg_vn (base m) 64) in
  if no_register (index m) then mret address
  else
    ix ← (if 1 <? scale m then emit_temp INT_MULT 8 [reg_vn (index m) 64; vn_const (scale m) 8]
          else mret (reg_vn (index m) 64));
    match address with
    | Some a => sum ← emit_temp Ir.ADD 8 [a; ix]; mret (Some sum)
    | None => mret (Some ix)
    end.

Definition add_disp (d : Z) (address : option Varnode) : M (option Varnode) :=
  if d =? 0 then mret address
  else
    match address with
    | Some a => sum ← emit_temp Ir.ADD 8 [a; vn_const (u64 d) 8]; mret (Some sum)
    | None => mret (Some (vn_const (u64 d) 8))
    end.

Definition effective_address (o : Operand) (access_size : Z) : M Varnode :=
  let m := mem o in
  if is_frame (base m) && no_register (index m) then
    let sz := if 0 <? access_size then access_size / 8 else 8 in
    let v := vn_stack (if (base m =? zreg RBP) || (base m =? zreg EBP) then REG_RBP else REG_RSP)
               (disp m) (if sz <? 1 then 1 else sz) in
    _ ← push_stack_var v; mret v
  else if negb (val o =? 0) && is_ip (base m) then mret (vn_const (val o) 8)
  else
    a ← base_index m;
    a ← add_disp (disp m) a;
    mret (default (vn_const (val o) 8) a).

Definition operand_read (i : Insn) (idx : nat) : M Varnode :=
  if op_count i <=? Z.of_nat idx then mret (vn_const 0 8)
  else
    let o := operand i idx in
    match op_type o with
    | OpReg => mret (reg_vn (reg o) (op_size o))
    | OpImm => mret (vn_const (val o) (if op_size o / 8 =? 0 then 8 else op_size o / 8))
    | OpMem =>
        a ← effective_address o (op_size o);
        emit_temp LOAD (if op_size o / 8 <? 1 then 8 else op_size o / 8) [a]
    | OpNone => mret (vn_const 0 8)
    end.

Definition kFullNames : list (list Z) :=
  [bs "rax"; bs "rcx"; bs "rdx"; bs "rbx"; bs "rsp"; bs "rbp"; bs "rsi"; bs "rdi";
   bs "r8"; bs "r9"; bs "r10"; bs "r11"; bs "r12"; bs "r13"; bs "r14"; bs "r15"].

(** Writes to a part of a register also update the whole of it. *)
Definition operand_write (arch_ : Arch) (i : Insn) (idx : nat) (v : Varnode) : M unit :=
  if op_count i <=? Z.of_nat idx then mret tt
  else
    let o := operand i idx in
    match op_type o with
    | OpReg =>
        let dst := reg_vn (reg o) (op_size o) in
        if bool_decide (arch_ = X64) && (0 <? op_size o) && (op_size o <? 64) && (0 <=? id dst) && (id dst <? 16) then
          let full := vn_reg (id dst) (default [] (kFullNames !! Z.to_nat (id dst))) 8 in
          if op_size o =? 32 then
            _ ← emit COPY dst [v];
            extended ← emit_temp INT_ZEXT 8 [v];
            emit COPY full [extended]
          else
            upper ← emit_temp SUBPIECE (8 - size v) [full; vn_const (u64 (size v)) 8];
            _ ← emit COPY dst [v];
            combined ← emit_temp PIECE 8 [upper; v];
            emit COPY full [combined]
        else emit COPY dst [v]
    | OpMem => a ← effective_address o (op_size o); emit STORE no_vn [a; v]
    | _ => mret tt
    end.

Definition emit_flags (lhs rhs : Varnode) (is_test : bool) : M unit :=
  let sz := size lhs in
  if is_test then
    tmp ← emit_temp AND sz [lhs; rhs];
    _ ← emit INT_EQUAL ZF [tmp; vn_const 0 sz];
    _ ← emit INT_SLESS SF [tmp; vn_const 0 sz];
    _ ← emit COPY CF [vn_const 0 1];
    emit COPY OF [vn_const 0 1]
  else
    diff ← emit_temp SUB sz [lhs; rhs];
    _ ← emit INT_EQUAL ZF [diff; vn_const 0 sz];
    _ ← emit INT_SLESS SF [diff; vn_const 0 sz];
    _ ← emit INT_LESS CF [lhs; rhs];
    x1 ← emit_temp XOR sz [lhs; rhs];
    x2 ← emit_temp XOR sz [lhs; diff];
    both ← emit_temp AND sz [x1; x2];
    emit INT_SLESS OF [both; vn_const 0 sz].

Definition condition_of (i : Insn) : CondKind :=
  if mnemonic_id i =? 0 then cond_kind (mnemonic i) else cond_kind_from_id (mnemonic_id i).

Definition not_v (v : Varnode) : M Varnode := emit_temp BOOL_NOT 1 [v].
Definition or_v (a b : Varnode) : M Varnode := emit_temp BOOL_OR 1 [a; b].
Definition neq_v (a b : Varnode) : M Varnode := emit_temp INT_NEQUAL 1 [a; b].
Definition eq_v (a b : Varnode) : M Varnode := emit_temp INT_EQUAL 1 [a; b].

Definition emit_kind (c : CondKind) : M Varnode :=
  match c with
  | C_ZF => mret ZF
  | C_NZF => not_v ZF
  | C_CF => mret CF
  | C_NCF => not_v CF
  | C_LT => neq_v SF OF
  | C_GE => eq_v SF OF
  | C_LE => n ← neq_v SF OF; or_v ZF n
  | C_GT => n ← neq_v SF OF; o ← or_v ZF n; not_v o
  | C_BE => or_v CF ZF
  | C_A => o ← or_v CF ZF; not_v o
  | C_SF => mret SF
  | C_NSF => not_v SF
  | C_OF => mret OF
  | C_NOF => not_v OF
  | C_UNKNOWN => not_v ZF
  end.

Definition emit_condition (i : Insn) : M Varnode := emit_kind (condition_of i).

(** ** One instruction *)

(** The [Lea] case repeats [effective_address] without the frame test. *)
Definition lift_lea (i : Insn) : M unit :=
  let dst := operand i 0 in
  let src := operand i 1 in
  if bool_decide (op_type dst = OpReg) && bool_decide (op_type src = OpMem) then
    let m := mem src in
    if negb (val src =? 0) && negb (base m =? zreg NONE) && is_ip (base m) then
      emit COPY (reg_vn (reg dst) (op_size dst)) [vn_const (val src) 8]
    else
      a ← base_index m;
      a ← add_disp (disp m) a;
      emit COPY (reg_vn (reg dst) (op_size dst)) [default (vn_const 0 8) a]
  else mret tt.

Definition binary_op (t : InsnType) : PcodeOp :=
  match t with
  | Sub => SUB | And => AND | Or => OR | Xor => XOR | Shl => SHIFT_LEFT | Shr => SHIFT_RIGHT
  | Sar => SHIFT_ARIGHT | Rol => ROTATE_LEFT | Ror => ROTATE_RIGHT | _ => ADD
  end.

(** [xor r, r] *)
Definition zeroing (i : Insn) : bool :=
  bool_decide (type i = Xor) && (2 <=? op_count i) &&
  bool_decide (op_type (operand i 0) = OpReg) && bool_decide (op_type (operand i 1) = OpReg) &&
  (reg (operand i 0) =? reg (operand i 1)).

Definition lift_binary (arch_ : Arch) (i : Insn) : M unit :=
  lhs ← operand_read i 0;
  rhs ← operand_read i 1;
  if zeroing i then operand_write arch_ i 0 (vn_const 0 (op_size (operand i 0) / 8))
  else
    result ← emit_temp (binary_op (type i)) (size lhs) [lhs; rhs];
    operand_write arch_ i 0 result.

Definition lift_mul (arch_ : Arch) (i : Insn) : M unit :=
  result ← alloc_temp 8;
  if op_count i =? 1 then
    src ← operand_read i 0;
    _ ← emit INT_MULT result [rax; src];
    emit COPY rax [result]
  else if op_count i =? 2 then
    lhs ← operand_read i 0;
    rhs ← operand_read i 1;
    _ ← emit INT_MULT result [lhs; rhs];
    operand_write arch_ i 0 result
  else if op_count i =? 3 then
    lhs ← operand_read i 1;
    rhs ← operand_read i 2;
    _ ← emit INT_MULT result [lhs; rhs];
    operand_write arch_ i 0 result
  else mret tt.

Definition slot_size (db : AnalysisDB) : Z := if bool_decide (arch db = X86) then 4 else 8.

Definition lift_push (db : AnalysisDB) (i : Insn) : M unit :=
  src ← operand_read i 0;
  new_sp ← emit_temp SUB (slot_size db) [rsp; vn_const (slot_size db) 8];
  _ ← emit COPY rsp [new_sp];
  emit STORE no_vn [rsp; src].

Definition lift_pop (db : AnalysisDB) (i : Insn) : M unit :=
  loaded ← emit_temp LOAD (slot_size db) [rsp];
  _ ← operand_write (arch db) i 0 loaded;
  new_sp ← emit_temp ADD (slot_size db) [rsp; vn_const (slot_size db) 8];
  emit COPY rsp [new_sp].

(** The name of a function without one. *)
Definition sub_name (db : AnalysisDB) (a : Z) : list Z :=
  bs "sub_" ++ fmt_X (if negb (image_base db =? 0) && (image_base db <=? a) then a - image_base db else a).

Definition call_name (db : AnalysisDB) (i : Insn) : list Z :=
  let target := branch_target i in
  if target =? 0 then bs "indirect_" ++ fmt_X (i_addr i) else default (sub_name db target) (names db !! target).

Definition lift_call (db : AnalysisDB) (i : Insn) : M unit :=
  let fn_addr := mk_vn Const (-1) 8 (branch_target i) (call_name db i) in
  if bool_decide (arch db = X86) then emit CALL rax [fn_addr]
  else emit CALL rax [fn_addr; vn_reg 1 (bs "rcx") 8; vn_reg 2 (bs "rdx") 8; vn_reg 8 (bs "r8") 8; vn_reg 9 (bs "r9") 8].

(** Everything else stays visible as an intrinsic that names the text. *)
Definition lift_other (db : AnalysisDB) (i : Insn) : M unit :=
  t ← alloc_temp 8;
  _ ← emit_temp INTRINSIC 8 [mk_vn Temp (id t) 8 0 (bs "__asm { " ++ format_text i (arch db) ++ bs " }")];
  mret tt.

Definition lift_unary (arch_ : Arch) (i : Insn) (src : nat) (o : PcodeOp) (sz : Varnode -> Z)
    (more : Varnode -> list Varnode) : M unit :=
  v ← operand_read i src;
  result ← emit_temp o (sz v) (v :: more v);
  operand_write arch_ i 0 result.

(** [arch_] is the member, which [lift] sets to [db.arch]. *)
Definition lift_body (db : AnalysisDB) (i : Insn) : M unit :=
  let arch_ := arch db in
  match type i with
  | Mov => v ← operand_read i 1; operand_write arch_ i 0 v
  | Lea => lift_lea i
  | Add | Sub | And | Or | Xor | Shl | Shr | Sar | Rol | Ror => lift_binary arch_ i
  | Inc => lift_unary arch_ i 0 ADD size (fun v => [vn_const 1 (size v)])
  | Dec => lift_unary arch_ i 0 SUB size (fun v => [vn_const 1 (size v)])
  | Mul | Imul => lift_mul arch_ i
  | Div | Idiv =>
      src ← operand_read i 0;
      result ← emit_temp (if bool_decide (type i = Idiv) then INT_SDIV else INT_DIV) 8 [rax; src];
      emit COPY rax [result]
  | Movsx => lift_unary arch_ i 1 INT_SEXT (fun _ => op_size (operand i 0) / 8) (fun _ => [])
  | Movzx => lift_unary arch_ i 1 INT_ZEXT (fun _ => op_size (operand i 0) / 8) (fun _ => [])
  | Not => lift_unary arch_ i 0 INT_NEGATE size (fun _ => [])
  | Push => lift_push db i
  | Pop => lift_pop db i
  | Cmp => lhs ← operand_read i 0; rhs ← operand_read i 1; emit_flags lhs rhs false
  | Test => lhs ← operand_read i 0; rhs ← operand_read i 1; emit_flags lhs rhs true
  | Setcc =>
      result ← emit_condition i;
      final ← emit_temp INT_ZEXT 1 [result];
      operand_write arch_ i 0 final
  | Jcc => cond_val ← emit_condition i; emit CBRANCH no_vn [vn_const (branch_target i) 8; cond_val]
  | Jmp => emit BRANCH no_vn [vn_const (branch_target i) 8]
  | Call => lift_call db i
  | Ret => _ ← mark_return; emit RETURN no_vn [rax]
  | Nop => mret tt
  | _ => lift_other db i
  end.

Definition lift_insn (db : AnalysisDB) (i : Insn) : M unit := _ ← start_insn (i_addr i); lift_body db i.

(** ** Blocks and functions *)

Definition lift_insns (db : AnalysisDB) (l : list Insn) : M unit :=
  foldl (fun m i => _ ← m; lift_insn db i) (mret tt) l.

(** The state carried from block to block: the temporaries and the stack variables. *)
Definition lift_block (db : AnalysisDB) (bb : BasicBlock) (st : Z * list Varnode) : lift_st :=
  (lift_insns db (insns bb) (mk_lift st.1 0 0 st.2 [] false)).2.

(** The addresses of the blocks in increasing order, and the position of each. *)
Definition block_order (fn : Function) : list Z := merge_sort Z.le ((map_to_list (fn_blocks fn)).*1).
Definition addr_to_block (fn : Function) (a : Z) : option Z :=
  (fun p : nat * Z => Z.of_nat p.1) <$> list_find (fun b => b = a) (block_order fn).

Fixpoint lift_blocks (db : AnalysisDB) (fn : Function) (i : Z) (order : list Z) (st : Z * list Varnode) :
    list PcodeBlock * (Z * list Varnode) :=
  match order with
  | [] => ([], st)
  | a :: order' =>
      match fn_blocks fn !! a with
      | None => lift_blocks db fn (i + 1) order' st
      | Some bb =>
          let r := lift_block db bb st in
          let b := mk_block i (bb_start bb) (out_ops r) (omap (addr_to_block fn) (bb_succs bb)) [] (out_has_return r) in
          let '(bs', st') := lift_blocks db fn (i + 1) order' (next_temp_ r, stack_vars_ r) in
          (b :: bs', st')
      end
  end.

Definition lift (db : AnalysisDB) (fn : Function) : PcodeFunc :=
  let '(bs0, st) := lift_blocks db fn 0 (block_order fn) (256, []) in
  mk_func (fn_entry fn)
    (if bool_decide (fn_name fn = []) then sub_name db (fn_entry fn) else fn_name fn)
    (Dom.build_preds bs0) st.1 0
    [vn_reg 1 (bs "rcx") 8; vn_reg 2 (bs "rdx") 8; vn_reg 8 (bs "r8") 8; vn_reg 9 (bs "r9") 8] st.2.
End Lifter.
