(* ===== verification/LiftSem.v ===== *)
(** * The lifter is correct: src/hyperion/core/decompiler/lifter.cpp

    A machine with sixteen 64-bit registers, the operands of the last comparison and a
    memory is the specification of the instructions; the theorems show that the
    p-code of [Lifter] implements it.  The specification of an instruction is [None]
    where the lifter does not follow the processor. *)

From S2P Require Import Prelude Ir Lifter.
From S2P Require Propagate.

#[local] Open Scope Z_scope.

Abbreviation i64 := (signed_of 64).

(** ** What the operations mean *)

Record lift_ops {Mem} (act : PcodeOp -> Z -> list Z -> Mem -> Mem * Z) : Prop := mk_lift_ops {
  lo_pure : pure_ops act;
  lo_copies : Propagate.copies act;
  lo_alu : Propagate.computes64 act;
  lo_neq : forall sz l r m, act INT_NEQUAL sz [l; r] m = (m, if l =? r then 0 else 1);
  lo_not : forall sz b m, act BOOL_NOT sz [b] m = (m, 1 - b);
  lo_or : forall sz a b m, act BOOL_OR sz [a; b] m = (m, Z.max a b);
  lo_zext : forall sz v m, act INT_ZEXT sz [v] m = (m, v);
  lo_neg : forall sz v m, act INT_NEGATE sz [v] m = (m, 2 ^ 64 - 1 - v);
  lo_load : forall sz a m, is_word 64 (act LOAD sz [a] m).2
}.

(** ** The specification *)

(** What the flags were set by. *)
Inductive compared := Compared (l r : Z) | Tested (l r : Z).

(** The conditions of the processor, on numbers. *)
Definition cond_holds (c : CondKind) (f : compared) : option bool :=
  match f with
  | Compared l r =>
      match c with
      | C_ZF => Some (l =? r) | C_NZF => Some (negb (l =? r))
      | C_CF => Some (l <? r) | C_NCF => Some (r <=? l)
      | C_BE => Some (l <=? r) | C_A => Some (r <? l)
      | C_LT => Some (i64 l <? i64 r) | C_GE => Some (i64 r <=? i64 l)
      | C_LE => Some (i64 l <=? i64 r) | C_GT => Some (i64 r <? i64 l)
      | C_SF => Some (i64 (l - r) <? 0) | C_NSF => Some (0 <=? i64 (l - r))
      | C_OF => Some (negb (i64 l - i64 r =? i64 (l - r))) | C_NOF => Some (i64 l - i64 r =? i64 (l - r))
      | C_UNKNOWN => None
      end
  | Tested l r =>
      let v := Z.land l r in
      match c with
      | C_ZF | C_BE => Some (v =? 0) | C_NZF | C_A => Some (negb (v =? 0))
      | C_CF | C_OF => Some false | C_NCF | C_NOF => Some true
      | C_LT | C_SF => Some (i64 v <? 0) | C_GE | C_NSF => Some (0 <=? i64 v)
      | C_LE => Some (i64 v <=? 0) | C_GT => Some (0 <? i64 v)
      | C_UNKNOWN => None
      end
  end.

(** ** Comparisons *)

Lemma i64_sign x : is_word 64 x -> i64 x = if x <? 2 ^ 63 then x else x - 2 ^ 64.
Proof. intros H. unfold signed_of. by rewrite wrap_small. Qed.

Lemma i64_sub l r : is_word 64 l -> is_word 64 r ->
  i64 (l - r) = i64 ((l - r) mod 2 ^ 64).
Proof. intros Hl Hr. unfold signed_of. change ((l - r) mod 2 ^ 64) with (u64 (l - r)). by rewrite wrap_wrap. Qed.

Lemma word_mod x : is_word 64 (x mod 2 ^ 64).
Proof. apply wrap_range. lia. Qed.

Lemma sign_bit x : is_word 64 x -> Z.testbit x 63 = (i64 x <? 0).
Proof.
  intros H. pose proof (i64_sign x H) as E. destruct H as [H1 H2]. rewrite E, Z.testbit_odd, Z.shiftr_div_pow2 by lia.
  change (2 ^ 64) with (2 * 2 ^ 63) in *.
  destruct (Z.ltb_spec x (2 ^ 63)).
  - rewrite Z.div_small by lia. destruct (Z.ltb_spec x 0); [lia|done].
  - replace (x / 2 ^ 63) with 1; [destruct (Z.ltb_spec (x - 2 * 2 ^ 63) 0); [done|lia]|].
    apply (Z.div_unique x (2 ^ 63) 1 (x - 2 ^ 63)); lia.
Qed.

Lemma word_bits x : is_word 64 x <-> 0 <= x /\ forall i, 64 <= i -> Z.testbit x i = false.
Proof.
  split.
  - intros [H1 H2]. split; [done|]. intros i Hi. rewrite <-(Z.mod_small x (2 ^ 64)) by done. by apply Z.mod_pow2_bits_high.
  - intros [H1 H2]. destruct (Z.eq_dec x 0) as [->|]; [done|]. split; [done|]. apply Z.log2_lt_pow2; [lia|].
    destruct (Z.lt_ge_cases (Z.log2 x) 64) as [|Hl]; [done|]. pose proof (Z.bit_log2 x ltac:(lia)) as Hb. by rewrite H2 in Hb.
Qed.

Lemma word_lxor a b : is_word 64 a -> is_word 64 b -> is_word 64 (Z.lxor a b).
Proof.
  rewrite !word_bits. intros [A1 A2] [B1 B2]. split; [by apply Z.lxor_nonneg|].
  intros i Hi. by rewrite Z.lxor_spec, A2, B2.
Qed.

Lemma word_land a b : is_word 64 a -> is_word 64 b -> is_word 64 (Z.land a b).
Proof.
  rewrite !word_bits. intros [A1 A2] [B1 B2]. split; [apply Z.land_nonneg; by left|].
  intros i Hi. by rewrite Z.land_spec, A2.
Qed.

Lemma sub_borrow l r : is_word 64 l -> is_word 64 r ->
  (l - r) mod 2 ^ 64 = if l <? r then l - r + 2 ^ 64 else l - r.
Proof.
  intros [] []. destruct (Z.ltb_spec l r); symmetry; [apply (Z.mod_unique _ _ (-1))|apply (Z.mod_unique _ _ 0)]; lia.
Qed.

(** Decides statements about words by the halves of the range they are in. *)
Ltac by_halves :=
  repeat match goal with H : is_word 64 _ |- _ => destruct H end;
  change (2 ^ 64) with (2 ^ 63 + 2 ^ 63) in *; generalize dependent (2 ^ 63); intros;
  repeat match goal with |- context [if Z.ltb ?a ?b then _ else _] => destruct (Z.ltb_spec a b) end;
  zcase; cbn; first [done | lia].

(** The overflow flag of the lifter is signed overflow. *)
Lemma overflow_bit l r : is_word 64 l -> is_word 64 r ->
  (i64 (Z.land (Z.lxor l r) (Z.lxor l ((l - r) mod 2 ^ 64))) <? 0) = negb (i64 l - i64 r =? i64 (l - r)).
Proof.
  intros Hl Hr. pose proof (word_mod (l - r)) as Hd.
  rewrite <-sign_bit by (apply word_land; by apply word_lxor). rewrite Z.land_spec, !Z.lxor_spec, !sign_bit by done.
  rewrite (i64_sub l r), !i64_sign, sub_borrow by done. by_halves.
Qed.

(** Signed order from the sign and overflow flags. *)
Lemma signed_less l r : is_word 64 l -> is_word 64 r ->
  xorb (i64 (l - r) <? 0) (negb (i64 l - i64 r =? i64 (l - r))) = (i64 l <? i64 r).
Proof.
  intros Hl Hr. pose proof (word_mod (l - r)) as Hd. rewrite (i64_sub l r), !i64_sign, sub_borrow by done. by_halves.
Qed.

(** ** The machine *)

Section Machine.
Context (zreg : ZydisRegister -> Z) (zmnemonic : ZydisMnemonic -> Z).
Context {Mem : Type} (act : PcodeOp -> Z -> list Z -> Mem -> Mem * Z).

Record xstate := mk_x { x_regs : Z -> Z; x_flags : option compared; x_mem : Mem; x_trace : list (PcodeOp * Z * list Z) }.

Definition word (v : Z) : option Z := if (0 <=? v) && (v <? 2 ^ 64) then Some v else None.

(** The number of a 64-bit register. *)
Definition xreg (z : Z) : option Z :=
  r ← list_find (fun r => zreg r.1 = z) kRegTable;
  if r.2.2.2 =? 8 then Some r.2.2.1.2 else None.

Definition x_get (z : Z) (x : xstate) : option Z := r ← xreg z; word (x_regs x r).

Definition x_reg0 (z : Z) (x : xstate) : option Z := if no_register zreg z then Some 0 else x_get z x.

(** [base + index * scale + disp]; the scale is a byte. *)
Definition x_linear (m : MemRef) (x : xstate) : option Z :=
  b ← x_reg0 (base m) x;
  i ← x_reg0 (index m) x;
  if scale m <? 256 then Some ((b + i * Z.max 1 (scale m) + disp m) mod 2 ^ 64) else None.

(** The address of an operand; operands relative to the frame have none. *)
Definition x_address (o : Operand) (x : xstate) : option Z :=
  let m := mem o in
  if is_frame zreg (base m) && no_register zreg (index m) then None
  else if is_ip zreg (base m) then (if val o =? 0 then None else Some (val o))
  else if no_register zreg (base m) && no_register zreg (index m) && (disp m =? 0) then Some (val o)
  else x_linear m x.

Definition x_read (i : Insn) (idx : nat) (x : xstate) : option Z :=
  if op_count i <=? Z.of_nat idx then None
  else
    let o := operand i idx in
    match op_type o with
    | OpReg => x_get (reg o) x
    | OpImm => word (val o)
    | OpMem => a ← x_address o x; Some (act LOAD (if op_size o / 8 <? 1 then 8 else op_size o / 8) [a] (x_mem x)).2
    | OpNone => None
    end.

Definition x_set (r v : Z) (x : xstate) : xstate :=
  mk_x (fun q => if q =? r then v else x_regs x q) (x_flags x) (x_mem x) (x_trace x).

Definition x_effect (o : PcodeOp) (a : Z) (ins : list Z) (x : xstate) : xstate :=
  mk_x (x_regs x) (x_flags x) (act o 8 ins (x_mem x)).1 (x_trace x ++ [(o, a, ins)]).

Definition x_write (i : Insn) (idx : nat) (v : Z) (x : xstate) : option xstate :=
  if op_count i <=? Z.of_nat idx then None
  else
    let o := operand i idx in
    if op_size o =? 64 then
      match op_type o with
      | OpReg => r ← xreg (reg o); Some (x_set r v x)
      | OpMem => a ← x_address o x; Some (x_effect STORE (i_addr i) [a; v] x)
      | _ => None
      end
    else None.

Definition x_set_flags (f : option compared) (x : xstate) : xstate := mk_x (x_regs x) f (x_mem x) (x_trace x).

(** Arithmetic leaves flags the lifter does not follow. *)
Definition x_alu (o : PcodeOp) (l r : Z) : option Z :=
  match o with
  | SHIFT_LEFT | SHIFT_RIGHT | SHIFT_ARIGHT | ROTATE_LEFT | ROTATE_RIGHT => if r <? 64 then Propagate.alu64 o l r else None
  | _ => Propagate.alu64 o l r
  end.

Definition x_binary (o : PcodeOp) (i : Insn) (l r : Z) (x : xstate) : option xstate :=
  v ← x_alu o l r; x ← x_write i 0 v x; Some (x_set_flags None x).

(** The operands of a comparison are 8 bytes wide. *)
Definition wide_operand (o : Operand) : bool :=
  match op_type o with
  | OpReg => bool_decide (is_Some (xreg (reg o)))
  | OpImm => true
  | OpMem => op_size o =? 64
  | OpNone => false
  end.

Definition is_rsp (o : Operand) : bool := bool_decide (op_type o = OpReg) && bool_decide (xreg (reg o) = Some REG_RSP).

Definition xstep (i : Insn) (x : xstate) : option xstate :=
  match type i with
  | Nop => Some x
  | Mov => v ← x_read i 1 x; x_write i 0 v x
  | Lea =>
      let o := operand i 1 in
      if bool_decide (op_type (operand i 0) = OpReg) && bool_decide (op_type o = OpMem) && (op_size (operand i 0) =? 64)
         && (0 <? op_count i) then
        if is_ip zreg (base (mem o)) then (if val o =? 0 then None else x_write i 0 (val o) x)
        else a ← x_linear (mem o) x; x_write i 0 a x
      else None
  | Add | Sub | And | Or | Xor | Shl | Shr | Sar | Rol | Ror =>
      l ← x_read i 0 x; r ← x_read i 1 x; x_binary (binary_op (type i)) i l r x
  | Inc => l ← x_read i 0 x; x_binary ADD i l 1 x
  | Dec => l ← x_read i 0 x; x_binary SUB i l 1 x
  | Imul =>
      if op_count i =? 2 then l ← x_read i 0 x; r ← x_read i 1 x; x_binary INT_MULT i l r x
      else if op_count i =? 3 then l ← x_read i 1 x; r ← x_read i 2 x; x_binary INT_MULT i l r x
      else None
  | Movzx => v ← x_read i 1 x; x_write i 0 v x
  | Not => v ← x_read i 0 x; x_write i 0 (2 ^ 64 - 1 - v) x
  | Push =>
      if is_rsp (operand i 0) then None
      else
        v ← x_read i 0 x; sp ← word (x_regs x REG_RSP);
        Some (x_effect STORE (i_addr i) [(sp - 8) mod 2 ^ 64; v] (x_set REG_RSP ((sp - 8) mod 2 ^ 64) x))
  | Pop =>
      if is_rsp (operand i 0) || negb (bool_decide (op_type (operand i 0) = OpReg)) then None
      else
        sp ← word (x_regs x REG_RSP); x ← x_write i 0 (act LOAD 8 [sp] (x_mem x)).2 x;
        Some (x_set REG_RSP ((sp + 8) mod 2 ^ 64) x)
  | Cmp =>
      if wide_operand (operand i 0) && wide_operand (operand i 1) then
        l ← x_read i 0 x; r ← x_read i 1 x; Some (x_set_flags (Some (Compared l r)) x)
      else None
  | Test =>
      if wide_operand (operand i 0) && wide_operand (operand i 1) then
        l ← x_read i 0 x; r ← x_read i 1 x; Some (x_set_flags (Some (Tested l r)) x)
      else None
  | Jcc =>
      f ← x_flags x; b ← cond_holds (condition_of zmnemonic i) f;
      Some (x_effect CBRANCH (i_addr i) [branch_target i; Z.b2z b] x)
  | Jmp => Some (x_effect BRANCH (i_addr i) [branch_target i] x)
  | Call =>
      let ins := [branch_target i; x_regs x 1; x_regs x 2; x_regs x 8; x_regs x 9] in
      Some (x_set_flags None (x_set 0 (act CALL 8 ins (x_mem x)).2 (x_effect CALL (i_addr i) ins x)))
  | Ret => Some (x_effect RETURN (i_addr i) [x_regs x 0] x)
  | _ => None
  end.

Definition xsteps (l : list Insn) (x : xstate) : option xstate := foldM (fun x i => xstep i x) l x.

(** ** Running what an action of the lifter emits *)

Definition exec_all (os : list PcodeInsn) (s : state Mem) : state Mem := foldl (fun s i => exec act i s) s os.

Definition wp {A} (m : M A) (Q : A -> lift_st -> state Mem -> Prop) (st : lift_st) (s : state Mem) : Prop :=
  exists new, out_ops (m st).2 = out_ops st ++ new /\ Q (m st).1 (m st).2 (exec_all new s).

Lemma wp_ret {A} (a : A) Q st s : Q a st s -> wp (mret a) Q st s.
Proof. intros H. exists []. by rewrite app_nil_r. Qed.

Lemma wp_bind {A B} (m : M A) (k : A -> M B) Q st s :
  wp m (fun a st' s' => wp (k a) Q st' s') st s -> wp (m ≫= k) Q st s.
Proof.
  intros (n1 & E1 & n2 & E2 & H). exists (n1 ++ n2). unfold exec_all in *. rewrite foldl_app, app_assoc, <-E1.
  unfold mbind, M_bind. by destruct (m st) as [a st1].
Qed.

Definition bump_seq (st : lift_st) (i : PcodeInsn) : lift_st :=
  mk_lift (next_temp_ st) (cur_addr_ st) (cur_seq_ st + 1) (stack_vars_ st) (out_ops st ++ [i]) (out_has_return st).

Lemma wp_emit o out ins Q st s :
  (let i := Ir.mk_insn o out ins (cur_addr_ st) (cur_seq_ st) in Q tt (bump_seq st i) (exec act i s)) ->
  wp (emit o out ins) Q st s.
Proof. intros H. by eexists [_]. Qed.

(** What an action keeps of the lifter's state. *)
Definition later (st st' : lift_st) : Prop := next_temp_ st <= next_temp_ st' /\ cur_addr_ st' = cur_addr_ st.

Lemma later_refl st : later st st.
Proof. by split. Qed.

Lemma later_trans a b c : later a b -> later b c -> later a c.
Proof. intros [] []. split; [by etrans|congruence]. Qed.

(** Only temporaries from [n] on may differ. *)
Definition fresh_key (n : Z) (k : VnKey) : Prop := k_kind k = Temp /\ n <= k_id k.

Definition keeps (n : Z) (s t : state Mem) : Prop :=
  Ir.mem s = Ir.mem t /\ trace s = trace t /\ forall k, ~ fresh_key n k -> env t k = env s k.

Definition below (n : Z) (v : Varnode) : Prop := is_const v = true \/ ~ fresh_key n (key v).

Lemma keeps_refl n s : keeps n s s.
Proof. done. Qed.

Lemma keeps_weaken n m s t : n <= m -> keeps m s t -> keeps n s t.
Proof. intros L (A & B & C). split_and!; [done|done|]. intros k H. apply C. intros [? ?]. apply H. split; [done|lia]. Qed.

Lemma keeps_trans n s t u : keeps n s t -> keeps n t u -> keeps n s u.
Proof. intros (A & B & C) (A' & B' & C'). split_and!; [congruence|congruence|]. intros k H. by rewrite C', C. Qed.

Lemma keeps_later st st' s t u :
  later st st' -> keeps (next_temp_ st) s t -> keeps (next_temp_ st') t u -> keeps (next_temp_ st) s u.
Proof. intros [L _] K K'. eapply keeps_trans; [done|]. by eapply keeps_weaken. Qed.

Lemma below_weaken n m v : n <= m -> below n v -> below m v.
Proof. intros L [H|H]; [by left|right]. intros [? ?]. apply H. split; [done|lia]. Qed.

Lemma keeps_value n s t v : keeps n s t -> below n v -> value (env t) v = value (env s) v.
Proof. intros (_ & _ & C) B. unfold value. destruct (is_const v) eqn:E; [done|]. apply C. destruct B; [congruence|done]. Qed.

Lemma keeps_values n s t vs : keeps n s t -> Forall (below n) vs -> value (env t) <$> vs = value (env s) <$> vs.
Proof. intros K H. apply list_fmap_ext. intros i v Hv. eapply keeps_value; [done|]. by eapply Forall_lookup_1. Qed.

Lemma below_const n v : is_const v = true -> below n v.
Proof. by left. Qed.

Lemma below_reg n i nm sz : below n (vn_reg i nm sz).
Proof. right. by intros [? _]. Qed.

Lemma below_temp n i sz : i < n -> below n (vn_temp i sz).
Proof. intros H. right. intros [_ ?]. cbn in *. lia. Qed.

Lemma wp_mono {A} (m : M A) (Q Q' : A -> lift_st -> state Mem -> Prop) st s :
  (forall a st' s', Q a st' s' -> Q' a st' s') -> wp m Q st s -> wp m Q' st s.
Proof. intros H (n & E & HQ). exists n. split; [done|]. by apply H. Qed.

Context (Ops : lift_ops act).

Lemma exec_pure i s :
  effectful (op i) = false -> is_nop i = false ->
  exec act i s = mk_state (Ir.mem s) (assign (output i) (act (op i) (size (output i)) (value (env s) <$> inputs i) (Ir.mem s)).2 (env s)) (trace s).
Proof using Ops.
  intros P N. unfold exec. rewrite N, P. by rewrite (lo_pure act Ops).
Qed.

Lemma assign_eq v x e : is_const v = false -> assign v x e (key v) = x.
Proof. intros N. unfold assign. rewrite N. by rewrite decide_True. Qed.

(** An operation into a new temporary. *)
Lemma wp_emit_temp o sz ins (Q : Varnode -> lift_st -> state Mem -> Prop) st s :
  effectful o = false -> o <> NOP ->
  (forall st' s', later st st' -> below (next_temp_ st') (vn_temp (next_temp_ st) sz) -> keeps (next_temp_ st) s s' ->
     value (env s') (vn_temp (next_temp_ st) sz) = (act o sz (value (env s) <$> ins) (Ir.mem s)).2 ->
     Q (vn_temp (next_temp_ st) sz) st' s') ->
  wp (emit_temp o sz ins) Q st s.
Proof using Ops.
  intros P N H. set (t := vn_temp (next_temp_ st) sz). set (i := Ir.mk_insn o t ins (cur_addr_ st) (cur_seq_ st)).
  set (st1 := mk_lift (next_temp_ st + 1) (cur_addr_ st) (cur_seq_ st + 1) (stack_vars_ st) (out_ops st ++ [i]) (out_has_return st)).
  assert (E : emit_temp o sz ins st = (t, st1)) by done. exists [i]. rewrite E. split; [done|]. cbn [fst snd exec_all foldl].
  rewrite exec_pure; [|done|by apply bool_decide_eq_false_2]. apply H.
  - split; [cbn; lia|done].
  - apply below_temp. cbn. lia.
  - split_and!; [done|done|]. intros k Hk. apply assign_other. right. intros ->. apply Hk. split; [done|cbn; lia].
  - by apply (assign_eq t).
Qed.

(** An effect without an output. *)
Lemma wp_emit_effect o ins (Q : unit -> lift_st -> state Mem -> Prop) st s :
  effectful o = true ->
  (forall st', later st st' ->
     Q tt st' (mk_state (act o 8 (value (env s) <$> ins) (Ir.mem s)).1 (env s)
                 (trace s ++ [(o, cur_addr_ st, value (env s) <$> ins)]))) ->
  wp (emit o no_vn ins) Q st s.
Proof using.
  intros E H. apply wp_emit. cbn zeta. unfold exec. replace (is_nop _) with false by (by destruct o). cbn. rewrite E.
  apply H. split; [cbn; lia|done].
Qed.

(** ** States that match the machine *)

Definition gpr (r : Z) : VnKey := mk_key Reg r 0 8.

Definition flags_of (f : compared) : bool * bool * bool * bool :=
  match f with
  | Compared l r => (l =? r, l <? r, i64 (l - r) <? 0, negb (i64 l - i64 r =? i64 (l - r)))
  | Tested l r => let v := Z.land l r in (v =? 0, false, i64 v <? 0, false)
  end.

Definition words_of (f : compared) : Prop := match f with Compared l r | Tested l r => is_word 64 l /\ is_word 64 r end.

Definition flags_set (f : compared) (s : state Mem) : Prop :=
  let '(z, c, n, o) := flags_of f in
  words_of f /\ env s (key ZF) = Z.b2z z /\ env s (key CF) = Z.b2z c /\ env s (key SF) = Z.b2z n /\ env s (key OF) = Z.b2z o.

Record matches (x : xstate) (s : state Mem) : Prop := mk_matches {
  ma_mem : Ir.mem s = x_mem x;
  ma_trace : trace s = x_trace x;
  ma_regs : forall r, env s (gpr r) = x_regs x r;
  ma_flags : forall f, x_flags x = Some f -> flags_set f s
}.

Lemma matches_keeps n x s t : matches x s -> keeps n s t -> matches x t.
Proof.
  intros [A B C D] (A' & B' & C'). split; [congruence|congruence| |].
  - intros r. rewrite C'; [done|]. by intros [? _].
  - intros f Hf. specialize (D f Hf). unfold flags_set in *. destruct (flags_of f) as [[[z c] n'] o].
    rewrite !C'; [done|by intros [? _]..].
Qed.

(** *** Conditions *)

(** The conditions in terms of the flags. *)
Definition flag_cond (k : CondKind) (fl : bool * bool * bool * bool) : bool :=
  let '(z, c, n, o) := fl in
  match k with
  | C_ZF => z | C_NZF => negb z | C_CF => c | C_NCF => negb c
  | C_LT => xorb n o | C_GE => negb (xorb n o) | C_LE => z || xorb n o | C_GT => negb (z || xorb n o)
  | C_BE => c || z | C_A => negb (c || z) | C_SF => n | C_NSF => negb n | C_OF => o | C_NOF => negb o
  | C_UNKNOWN => negb z
  end.

Lemma flag_cond_holds k f b : words_of f -> cond_holds k f = Some b -> flag_cond k (flags_of f) = b.
Proof.
  destruct f as [l r|l r]; intros [Hl Hr] E.
  - pose proof (signed_less l r Hl Hr) as SL. unfold flags_of, flag_cond.
    destruct k; cbn in E; try discriminate E; injection E as <-; rewrite ?SL, ?negb_involutive; try done;
      rewrite ?i64_sign by done; by_halves.
  - unfold flags_of, flag_cond. destruct k; cbn in E; try discriminate E; injection E as <-; rewrite ?xorb_false_r; try done;
      pose proof (word_land l r Hl Hr); rewrite ?i64_sign by done; by_halves.
Qed.

(** An operation on booleans into a new temporary. *)
Lemma wp_bool o ins b (Q : Varnode -> lift_st -> state Mem -> Prop) st s :
  effectful o = false -> o <> NOP ->
  (act o 1 (value (env s) <$> ins) (Ir.mem s)).2 = Z.b2z b ->
  (forall v st' s', later st st' -> keeps (next_temp_ st) s s' -> below (next_temp_ st') v -> value (env s') v = Z.b2z b -> Q v st' s') ->
  wp (emit_temp o 1 ins) Q st s.
Proof using Ops. intros P N E H. apply wp_emit_temp; [done|done|]. intros st' s' L B K V. apply H; [done|done|done|congruence]. Qed.

Lemma b2z_word b : is_word 64 (Z.b2z b).
Proof. by destruct b. Qed.

Lemma wp_not v a (Q : Varnode -> lift_st -> state Mem -> Prop) st s :
  value (env s) v = Z.b2z a ->
  (forall v st' s', later st st' -> keeps (next_temp_ st) s s' -> below (next_temp_ st') v -> value (env s') v = Z.b2z (negb a) -> Q v st' s') ->
  wp (not_v v) Q st s.
Proof using Ops. intros E. apply wp_bool; [done|done|]. cbn. rewrite E, (lo_not act Ops). by destruct a. Qed.

Lemma wp_or v w a b (Q : Varnode -> lift_st -> state Mem -> Prop) st s :
  value (env s) v = Z.b2z a -> value (env s) w = Z.b2z b ->
  (forall v st' s', later st st' -> keeps (next_temp_ st) s s' -> below (next_temp_ st') v -> value (env s') v = Z.b2z (a || b) -> Q v st' s') ->
  wp (or_v v w) Q st s.
Proof using Ops. intros E F. apply wp_bool; [done|done|]. cbn. rewrite E, F, (lo_or act Ops). by destruct a, b. Qed.

Lemma wp_neq v w a b (Q : Varnode -> lift_st -> state Mem -> Prop) st s :
  value (env s) v = Z.b2z a -> value (env s) w = Z.b2z b ->
  (forall v st' s', later st st' -> keeps (next_temp_ st) s s' -> below (next_temp_ st') v -> value (env s') v = Z.b2z (xorb a b) -> Q v st' s') ->
  wp (neq_v v w) Q st s.
Proof using Ops. intros E F. apply wp_bool; [done|done|]. cbn. rewrite E, F, (lo_neq act Ops). by destruct a, b. Qed.

Lemma wp_eq v w a b (Q : Varnode -> lift_st -> state Mem -> Prop) st s :
  value (env s) v = Z.b2z a -> value (env s) w = Z.b2z b ->
  (forall v st' s', later st st' -> keeps (next_temp_ st) s s' -> below (next_temp_ st') v -> value (env s') v = Z.b2z (negb (xorb a b)) -> Q v st' s') ->
  wp (eq_v v w) Q st s.
Proof using Ops.
  intros E F. apply wp_bool; [done|done|]. cbn. rewrite E, F.
  rewrite (lo_alu act Ops INT_EQUAL 1 _ _ _ (if Z.b2z a =? Z.b2z b then 1 else 0)) by (try apply b2z_word; done). by destruct a, b.
Qed.

Lemma flag_keeps n s t v : keeps n s t -> is_reg v = true -> value (env t) v = value (env s) v.
Proof.
  intros K R. eapply keeps_value; [done|]. right. intros [E _]. apply bool_decide_eq_true in R. unfold key in E. cbn in E. congruence.
Qed.

(** A condition computed from the flags is the one the processor tests. *)
Lemma wp_condition c f b (Q : Varnode -> lift_st -> state Mem -> Prop) st s :
  flags_set f s -> cond_holds c f = Some b ->
  (forall v st' s', later st st' -> keeps (next_temp_ st) s s' -> value (env s') v = Z.b2z b -> Q v st' s') ->
  wp (emit_kind c) Q st s.
Proof using Ops.
  unfold flags_set. intros F E H. pose proof (flag_cond_holds c f b) as FC.
  destruct (flags_of f) as [[[z cc] n] o]. destruct F as (W & Ez & Ec & En & Eo). specialize (FC W E).
  change (env s (key ZF)) with (value (env s) ZF) in Ez. change (env s (key CF)) with (value (env s) CF) in Ec.
  change (env s (key SF)) with (value (env s) SF) in En. change (env s (key OF)) with (value (env s) OF) in Eo.
  assert (Hr : forall v, value (env s) v = Z.b2z b -> wp (mret v) Q st s) by (intros v Ev; apply wp_ret, H; [apply later_refl|done|done]).
  destruct c; cbn [flag_cond emit_kind] in *; subst b; try (by apply Hr).
  - apply (wp_not ZF z); [done..|]. intros. by apply H.
  - apply (wp_not CF cc); [done..|]. intros. by apply H.
  - apply (wp_neq SF OF n o); [done..|]. intros. by apply H.
  - apply (wp_eq SF OF n o); [done..|]. intros. by apply H.
  - apply wp_bind, (wp_neq SF OF n o); [done|done|]. intros v st1 s1 L K B V.
    apply (wp_or ZF v z (xorb n o)); [by rewrite (flag_keeps _ _ _ _ K)|done|]. intros. eapply H; [by eapply later_trans|by eapply keeps_later|done].
  - apply wp_bind, (wp_neq SF OF n o); [done|done|]. intros v st1 s1 L K B V. apply wp_bind.
    apply (wp_or ZF v z (xorb n o)); [by rewrite (flag_keeps _ _ _ _ K)|done|]. intros v2 st2 s2 L2 K2 B2 V2.
    apply (wp_not v2 (z || xorb n o)); [done|]. intros. eapply H; [by do 2 (eapply later_trans; [done|])|by do 2 (eapply keeps_later; [done|done|])|done].
  - apply (wp_or CF ZF cc z); [done..|]. intros. by apply H.
  - apply wp_bind, (wp_or CF ZF cc z); [done|done|]. intros v st1 s1 L K B V.
    apply (wp_not v (cc || z)); [done|]. intros. eapply H; [by eapply later_trans|by eapply keeps_later|done].
  - apply (wp_not SF n); [done..|]. intros. by apply H.
  - apply (wp_not OF o); [done..|]. intros. by apply H.
  - apply (wp_not ZF z); [done..|]. intros. by apply H.
Qed.

(** *** Comparisons *)

(** An operation into a variable. *)
Lemma wp_set o v ins (Q : unit -> lift_st -> state Mem -> Prop) st s :
  effectful o = false -> o <> NOP ->
  (forall st', later st st' ->
     Q tt st' (mk_state (Ir.mem s) (assign v (act o (size v) (value (env s) <$> ins) (Ir.mem s)).2 (env s)) (trace s))) ->
  wp (emit o v ins) Q st s.
Proof using Ops.
  intros P N H. apply wp_emit. cbn zeta. rewrite exec_pure; [|done|by apply bool_decide_eq_false_2].
  apply H. split; [cbn; lia|done].
Qed.

(** A state with one variable set. *)
Definition set_var (v : Varnode) (x : Z) (s : state Mem) : state Mem := mk_state (Ir.mem s) (assign v x (env s)) (trace s).

Definition is_flag (v : Varnode) : bool := bool_decide (v ∈ [ZF; CF; SF; OF]).
Definition no_flag (v : Varnode) : Prop := is_const v = true \/ Forall (fun f => key v <> key f) [ZF; CF; SF; OF].

Lemma matches_flag x v n s : x_flags x = None -> is_flag v = true -> matches x s -> matches x (set_var v n s).
Proof.
  intros N F [A B C D]. apply bool_decide_eq_true in F. split; [done|done| |by rewrite N].
  intros r. cbn. rewrite assign_other; [done|]. right. intros E. repeat (apply elem_of_cons in F as [->|F]; [done|]). by apply not_elem_of_nil in F.
Qed.

Lemma value_set_eq v n s : is_const v = false -> value (env (set_var v n s)) v = n.
Proof. intros C. unfold value. rewrite C. by apply assign_eq. Qed.

Lemma value_set_ne v w n s : is_const w = true \/ key w <> key v -> value (env (set_var v n s)) w = value (env s) w.
Proof. intros H. unfold value. destruct (is_const w) eqn:C; [done|]. apply assign_other. right. by destruct H. Qed.

Lemma no_flag_ne v f : no_flag v -> f ∈ [ZF; CF; SF; OF] -> is_const v = true \/ key v <> key f.
Proof. intros [H|H] F; [by left|right]. by apply (proj1 (Forall_forall _ _) H). Qed.

Lemma no_flag_temp i sz : no_flag (vn_temp i sz).
Proof. right. repeat constructor; by intros [=]. Qed.

(** Temporaries from [n] on and flags may differ. *)
Definition quiet (n : Z) (s t : state Mem) : Prop :=
  forall v, below n v -> no_flag v -> value (env t) v = value (env s) v.

Lemma quiet_keeps n m s t : n <= m -> keeps m s t -> quiet n s t.
Proof. intros L K v B _. eapply keeps_value; [done|]. by eapply below_weaken. Qed.

Lemma quiet_set n f x s : is_flag f = true -> quiet n s (set_var f x s).
Proof. intros F v _ N. apply value_set_ne. apply no_flag_ne; [done|]. by apply bool_decide_eq_true in F. Qed.

Lemma quiet_trans n s t u : quiet n s t -> quiet n t u -> quiet n s u.
Proof. intros A B v Bv N. by rewrite B, A. Qed.

Lemma alu_value o sz v w l r x m (s : state Mem) :
  value (env s) v = l -> value (env s) w = r -> is_word 64 l -> is_word 64 r -> Propagate.alu64 o l r = Some x ->
  (act o sz (value (env s) <$> [v; w]) m).2 = x.
Proof using Ops. intros <- <- Hl Hr E. cbn. by rewrite (lo_alu act Ops o sz _ _ m x Hl Hr E). Qed.

(** A temporary computed by a binary operation. *)
Lemma wp_alu o sz v w l r x (Q : Varnode -> lift_st -> state Mem -> Prop) st s :
  effectful o = false -> o <> NOP ->
  value (env s) v = l -> value (env s) w = r -> is_word 64 l -> is_word 64 r -> Propagate.alu64 o l r = Some x ->
  (forall t st' s', later st st' -> keeps (next_temp_ st) s s' -> below (next_temp_ st') t -> no_flag t -> value (env s') t = x -> Q t st' s') ->
  wp (emit_temp o sz [v; w]) Q st s.
Proof using Ops.
  intros P N Ev Ew Hl Hr E H. apply wp_emit_temp; [done|done|]. intros st' s' L B K V. apply H; [done|done|done|apply no_flag_temp|].
  rewrite V. by apply (alu_value o sz v w l r).
Qed.

(** A flag computed by a binary operation. *)
Lemma wp_flag o f v w l r x (Q : unit -> lift_st -> state Mem -> Prop) st s :
  effectful o = false -> o <> NOP ->
  value (env s) v = l -> value (env s) w = r -> is_word 64 l -> is_word 64 r -> Propagate.alu64 o l r = Some x ->
  (forall st', later st st' -> Q tt st' (set_var f x s)) ->
  wp (emit o f [v; w]) Q st s.
Proof using Ops.
  intros P N Ev Ew Hl Hr E H. apply wp_set; [done|done|]. intros st' L. rewrite (alu_value o (size f) v w l r x); [by apply H|done..].
Qed.

Lemma b2z_if (b : bool) : (if b then 1 else 0) = Z.b2z b.
Proof. by destruct b. Qed.

Lemma matches_clear x s : matches x s -> matches (x_set_flags None x) s.
Proof. intros [A B C D]. by split. Qed.

Lemma sub_zero l r : is_word 64 l -> is_word 64 r -> ((l - r) mod 2 ^ 64 =? 0) = (l =? r).
Proof. intros Hl Hr. rewrite sub_borrow by done. by_halves. Qed.

(** The flags of a comparison set, whatever else they were. *)
Lemma matches_compared f x s : words_of f -> matches (x_set_flags None x) s ->
  (let '(z, c, n, o) := flags_of f in
   value (env s) ZF = Z.b2z z /\ value (env s) CF = Z.b2z c /\ value (env s) SF = Z.b2z n /\ value (env s) OF = Z.b2z o) ->
  matches (x_set_flags (Some f) x) s.
Proof.
  intros W [A B C _] H. split; [done|done|done|]. intros f' [= <-]. unfold flags_set. destruct (flags_of f) as [[[z c] n] o].
  by destruct H as (? & ? & ? & ?).
Qed.

Lemma word_0 : is_word 64 0.
Proof. done. Qed.

Lemma wp_cmp_flags lhs rhs l r x (Q : unit -> lift_st -> state Mem -> Prop) st s :
  matches x s -> below (next_temp_ st) lhs -> below (next_temp_ st) rhs -> no_flag lhs -> no_flag rhs ->
  value (env s) lhs = l -> value (env s) rhs = r -> is_word 64 l -> is_word 64 r ->
  (forall st' s', later st st' -> matches (x_set_flags (Some (Compared l r)) x) s' -> Q tt st' s') ->
  wp (emit_flags lhs rhs false) Q st s.
Proof using Ops.
  intros Ma Bl Br Fl Fr El Er Wl Wr H. unfold emit_flags. set (d := (l - r) mod 2 ^ 64). pose proof (word_mod (l - r)) as Wd. fold d in Wd.
  apply wp_bind, (wp_alu SUB _ _ _ l r d); [done..|]. intros diff st1 s1 L1 K1 B1 F1 V1. cbv beta.
  apply wp_bind, (wp_flag INT_EQUAL ZF _ _ d 0 (Z.b2z (d =? 0))); [done..|cbn; by rewrite b2z_if|]. intros st2 L2. cbv beta.
  apply wp_bind, (wp_flag INT_SLESS SF _ _ d 0 (Z.b2z (i64 d <? 0))); [done|done|by rewrite (quiet_set (next_temp_ st1) ZF)|done..|cbn; by rewrite b2z_if|]. intros st3 L3. cbv beta.
  set (s3 := set_var SF _ _).
  assert (Q3 : quiet (next_temp_ st1) s1 s3) by (eapply quiet_trans; by apply quiet_set).
  assert (Q3' : quiet (next_temp_ st) s s3) by (eapply quiet_trans; [eapply (quiet_keeps _ (next_temp_ st)); done|eapply quiet_trans; by apply quiet_set]).
  apply wp_bind, (wp_flag INT_LESS CF _ _ l r (Z.b2z (l <? r))); [done|done|by rewrite Q3'|by rewrite Q3'|done..|cbn; by rewrite b2z_if|]. intros st4 L4. cbv beta.
  set (s4 := set_var CF _ s3).
  assert (Q4 : quiet (next_temp_ st1) s1 s4) by (eapply quiet_trans; [done|by apply quiet_set]).
  assert (Q4' : quiet (next_temp_ st) s s4) by (eapply quiet_trans; [done|by apply quiet_set]).
  assert (L14 : later st1 st4) by (by do 2 (eapply later_trans; [done|])).
  apply wp_bind, (wp_alu XOR _ _ _ l r (Z.lxor l r)); [done|done|by rewrite Q4'|by rewrite Q4'|done..|]. intros x1 st5 s5 L5 K5 B5 F5 V5. cbv beta.
  assert (Q5 : quiet (next_temp_ st1) s1 s5) by (eapply quiet_trans; [done|eapply quiet_keeps; [|done]; apply L14]).
  assert (Q5' : quiet (next_temp_ st) s s5) by (eapply quiet_trans; [done|eapply quiet_keeps; [|done]; etrans; [apply L1|apply L14]]).
  apply wp_bind, (wp_alu XOR _ _ _ l d (Z.lxor l d)); [done|done|by rewrite Q5'|by rewrite Q5|done..|]. intros x2 st6 s6 L6 K6 B6 F6 V6. cbv beta.
  apply wp_bind, (wp_alu AND _ _ _ (Z.lxor l r) (Z.lxor l d) (Z.land (Z.lxor l r) (Z.lxor l d)));
    [done|done|by rewrite (keeps_value _ s5 s6 x1 K6 B5)|done|by apply word_lxor|by apply word_lxor|done|]. intros both st7 s7 L7 K7 B7 F7 V7. cbv beta.
  apply (wp_flag INT_SLESS OF _ _ (Z.land (Z.lxor l r) (Z.lxor l d)) 0 (Z.b2z (i64 (Z.land (Z.lxor l r) (Z.lxor l d)) <? 0)));
    [done|done|exact V7|done|by apply word_land; apply word_lxor|done|cbn; by rewrite b2z_if|]. intros st8 L8.
  apply H; [by do 7 (eapply later_trans; [done|])|].
  pose proof (sub_zero l r Wl Wr) as Ez. pose proof (i64_sub l r Wl Wr) as En. pose proof (overflow_bit l r Wl Wr) as Eo. fold d in Ez, En, Eo.
  assert (K47 : keeps (next_temp_ st4) s4 s7) by (eapply keeps_later; [done|done|]; by eapply keeps_later).
  apply matches_compared; [by split| |cbn [flags_of]; split_and!].
  - apply matches_flag; [done..|]. eapply matches_keeps; [|done]. do 3 (apply matches_flag; [done..|]).
    eapply matches_keeps; [|done]. by apply matches_clear.
  - rewrite value_set_ne, (flag_keeps _ _ _ _ K47) by first [done | by right]. unfold s4, s3.
    rewrite !value_set_ne by by right. by rewrite value_set_eq, Ez.
  - rewrite value_set_ne, (flag_keeps _ _ _ _ K47) by first [done | by right]. unfold s4. by rewrite value_set_eq.
  - rewrite value_set_ne, (flag_keeps _ _ _ _ K47) by first [done | by right]. unfold s4, s3.
    rewrite value_set_ne by by right. by rewrite value_set_eq, En.
  - by rewrite value_set_eq, Eo.
Qed.

(** A flag cleared. *)
Lemma wp_clear f (Q : unit -> lift_st -> state Mem -> Prop) st s :
  (forall st', later st st' -> Q tt st' (set_var f 0 s)) -> wp (emit COPY f [vn_const 0 1]) Q st s.
Proof using Ops.
  intros H. apply wp_set; [done|done|]. intros st' L. cbn [fmap list_fmap]. rewrite (lo_copies act Ops). by apply H.
Qed.

Lemma wp_test_flags lhs rhs l r x (Q : unit -> lift_st -> state Mem -> Prop) st s :
  matches x s -> value (env s) lhs = l -> value (env s) rhs = r -> is_word 64 l -> is_word 64 r ->
  (forall st' s', later st st' -> matches (x_set_flags (Some (Tested l r)) x) s' -> Q tt st' s') ->
  wp (emit_flags lhs rhs true) Q st s.
Proof using Ops.
  intros Ma El Er Wl Wr H. unfold emit_flags. set (v := Z.land l r). pose proof (word_land l r Wl Wr) as Wv. fold v in Wv.
  apply wp_bind, (wp_alu AND _ _ _ l r v); [done..|]. intros t st1 s1 L1 K1 B1 F1 V1. cbv beta.
  apply wp_bind, (wp_flag INT_EQUAL ZF _ _ v 0 (Z.b2z (v =? 0))); [done..|cbn; by rewrite b2z_if|]. intros st2 L2. cbv beta.
  apply wp_bind, (wp_flag INT_SLESS SF _ _ v 0 (Z.b2z (i64 v <? 0)));
    [done|done|by rewrite (quiet_set (next_temp_ st1) ZF)|done..|cbn; by rewrite b2z_if|]. intros st3 L3. cbv beta.
  apply wp_bind, wp_clear. intros st4 L4. cbv beta. apply wp_clear. intros st5 L5.
  apply H; [by do 4 (eapply later_trans; [done|])|]. apply matches_compared; [by split| |cbn [flags_of]; fold v; split_and!].
  - do 4 (apply matches_flag; [done..|]). eapply matches_keeps; [|done]. by apply matches_clear.
  - rewrite !value_set_ne by by right. by rewrite value_set_eq.
  - rewrite value_set_ne by by right. by rewrite value_set_eq.
  - rewrite !value_set_ne by by right. by rewrite value_set_eq.
  - by rewrite value_set_eq.
Qed.

(** *** Operands *)

Lemma xreg_vn z r bits : xreg z = Some r -> exists n, reg_vn zreg z bits = vn_reg r n 8 /\ 0 <= r < 16.
Proof.
  unfold xreg, reg_vn. destruct (list_find _ kRegTable) as [[i [zr [[n q] sz]]]|] eqn:E; [|done]. cbn.
  destruct (Z.eqb_spec sz 8) as [->|]; [|done]. intros [= ->]. exists n. split; [done|].
  apply list_find_Some in E as (E & _). apply list_elem_of_lookup_2 in E.
  assert (F : Forall (fun t : ZydisRegister * (list Z * Z * Z) => 0 <= t.2.1.2 < 16) kRegTable) by (apply (bool_decide_unpack _); by vm_compute).
  exact (proj1 (Forall_forall _ _) F _ E).
Qed.

Lemma x_get_value z v x s bits : x_get z x = Some v -> matches x s ->
  value (env s) (reg_vn zreg z bits) = v /\ is_word 64 v /\ exists r n, reg_vn zreg z bits = vn_reg r n 8 /\ 0 <= r < 16.
Proof.
  unfold x_get. intros E Ma. destruct (xreg z) as [r|] eqn:Er; [|done]. cbn in E. unfold word in E.
  destruct (Z.leb_spec 0 (x_regs x r)), (Z.ltb_spec (x_regs x r) (2 ^ 64)); try done. injection E as <-.
  destruct (xreg_vn z r bits Er) as (n & -> & Hr). split_and!; [|done|by exists r, n].
  rewrite <-(ma_regs x s Ma r). done.
Qed.

(** What [base_index] and [add_disp] yield: a varnode with the sum, or nothing. *)
Definition sums_to (none : Prop) (e : Z) (a : option Varnode) (st : lift_st) (s : state Mem) : Prop :=
  match a with
  | Some v => below (next_temp_ st) v /\ no_flag v /\ value (env s) v = e mod 2 ^ 64
  | None => none /\ e = 0
  end.

Lemma no_flag_gpr r n : 0 <= r < 16 -> no_flag (vn_reg r n 8).
Proof. intros H. right. repeat constructor; by intros [=]. Qed.

Lemma word_mod_id v : is_word 64 v -> v mod 2 ^ 64 = v.
Proof. apply Z.mod_small. Qed.

(** A register operand of an address. *)
Lemma x_reg0_spec z x s v : x_reg0 z x = Some v -> matches x s -> no_register zreg z = false ->
  (forall n, below n (reg_vn zreg z 64)) /\ no_flag (reg_vn zreg z 64) /\ value (env s) (reg_vn zreg z 64) = v /\ is_word 64 v.
Proof.
  unfold x_reg0. intros E Ma N. rewrite N in E. destruct (x_get_value z v x s 64 E Ma) as (V & W & r & n & E2 & Hr). rewrite E2 in *.
  split_and!; [intros; apply below_reg|by apply no_flag_gpr|done|done].
Qed.

Lemma wp_scaled m x i (Q : Varnode -> lift_st -> state Mem -> Prop) st s :
  matches x s -> x_reg0 (index m) x = Some i -> no_register zreg (index m) = false -> scale m < 256 ->
  (forall v st' s', later st st' -> keeps (next_temp_ st) s s' -> below (next_temp_ st') v -> no_flag v ->
     value (env s') v = (i * Z.max 1 (scale m)) mod 2 ^ 64 -> Q v st' s') ->
  wp (if 1 <? scale m then emit_temp INT_MULT 8 [reg_vn zreg (index m) 64; vn_const (scale m) 8] else mret (reg_vn zreg (index m) 64)) Q st s.
Proof using Ops.
  intros Ma Ei N Sc H. destruct (x_reg0_spec _ _ _ _ Ei Ma N) as (B & F & V & W). destruct (Z.ltb_spec 1 (scale m)).
  - apply (wp_alu INT_MULT _ _ _ i (scale m) ((i * scale m) mod 2 ^ 64)); [done..|split; lia|done|].
    intros t st1 s1 L1 K1 B1 F1 V1. apply H; [done..|]. by rewrite V1, Z.max_r by lia.
  - apply wp_ret, H; [apply later_refl|done|done|done|]. by rewrite V, Z.max_l, Z.mul_1_r, word_mod_id by first [done | lia].
Qed.

Lemma wp_base_index m x b i (Q : option Varnode -> lift_st -> state Mem -> Prop) st s :
  matches x s -> x_reg0 (base m) x = Some b -> x_reg0 (index m) x = Some i -> scale m < 256 ->
  (forall a st' s', later st st' -> keeps (next_temp_ st) s s' ->
     sums_to (no_register zreg (base m) = true /\ no_register zreg (index m) = true) (b + i * Z.max 1 (scale m)) a st' s' -> Q a st' s') ->
  wp (base_index zreg m) Q st s.
Proof using Ops.
  intros Ma Eb Ei Sc H. unfold base_index. destruct (no_register zreg (index m)) eqn:Ni.
  - apply wp_ret, H; [apply later_refl|done|]. unfold x_reg0 in Ei. rewrite Ni in Ei. injection Ei as <-.
    rewrite Z.mul_0_l, Z.add_0_r. destruct (no_register zreg (base m)) eqn:Nb; cbn.
    + unfold x_reg0 in Eb. rewrite Nb in Eb. by injection Eb as <-.
    + destruct (x_reg0_spec _ _ _ _ Eb Ma Nb) as (B & F & V & W). by rewrite word_mod_id.
  - apply wp_bind, (wp_scaled m x i); [done..|]. intros ix st1 s1 L1 K1 B1 F1 V1. destruct (no_register zreg (base m)) eqn:Nb.
    + apply wp_ret, H; [done|done|]. unfold x_reg0 in Eb. rewrite Nb in Eb. by injection Eb as <-.
    + destruct (x_reg0_spec _ _ _ _ Eb Ma Nb) as (B & F & V & W). apply wp_bind.
      apply (wp_alu Ir.ADD _ _ _ b ((i * Z.max 1 (scale m)) mod 2 ^ 64) ((b + (i * Z.max 1 (scale m)) mod 2 ^ 64) mod 2 ^ 64));
        [done|done|by rewrite (keeps_value _ _ _ _ K1)|done|done|apply word_mod|done|].
      intros t st2 s2 L2 K2 B2 F2 V2. apply wp_ret, H; [by eapply later_trans|by eapply keeps_later|].
      split_and!; [done|done|]. by rewrite V2, Zplus_mod_idemp_r.
Qed.

Lemma wp_add_disp d none e a (Q : option Varnode -> lift_st -> state Mem -> Prop) st s :
  sums_to none e a st s ->
  (forall a st' s', later st st' -> keeps (next_temp_ st) s s' -> sums_to (none /\ d = 0) (e + d) a st' s' -> Q a st' s') ->
  wp (add_disp d a) Q st s.
Proof using Ops.
  intros S H. unfold add_disp. destruct (Z.eqb_spec d 0) as [->|N].
  - apply wp_ret, H; [apply later_refl|done|]. rewrite Z.add_0_r. destruct a; [done|]. by destruct S.
  - destruct a as [v|].
    + destruct S as (B & F & V). apply wp_bind.
      apply (wp_alu Ir.ADD _ _ _ (e mod 2 ^ 64) (u64 d) ((e mod 2 ^ 64 + u64 d) mod 2 ^ 64)); [done..|apply word_mod|apply word_mod|done|].
      intros t st1 s1 L1 K1 B1 F1 V1. apply wp_ret, H; [done|done|]. split_and!; [done|done|].
      rewrite V1. unfold wrap. by rewrite <-Z.add_mod.
    + destruct S as [_ ->]. apply wp_ret, H; [apply later_refl|done|]. split_and!; [by left|by left|done].
Qed.

(** A varnode that holds [v], and the state of the machine unchanged. *)
Definition holds (v : Z) (a : Varnode) (st0 : lift_st) (s0 : state Mem) (st : lift_st) (s : state Mem) : Prop :=
  later st0 st /\ keeps (next_temp_ st0) s0 s /\ below (next_temp_ st) a /\ no_flag a /\ value (env s) a = v.

Lemma wp_linear {B} m x e dflt (k : Varnode -> M B) Q st s :
  matches x s -> x_linear m x = Some e ->
  (no_register zreg (base m) = true -> no_register zreg (index m) = true -> disp m = 0 -> dflt = e) ->
  (forall a st' s', holds e a st s st' s' -> wp (k a) Q st' s') ->
  wp (a ← base_index zreg m; a ← add_disp (disp m) a; k (default (vn_const dflt 8) a)) Q st s.
Proof using Ops.
  intros Ma E D H. unfold x_linear in E. destruct (x_reg0 (base m) x) as [b|] eqn:Eb; [|done].
  destruct (x_reg0 (index m) x) as [i|] eqn:Ei; [|done]. cbn in E. destruct (Z.ltb_spec (scale m) 256) as [Sc|]; [|done]. injection E as <-.
  apply wp_bind, (wp_base_index m x b i); [done..|]. intros a1 st1 s1 L1 K1 S1.
  apply wp_bind. eapply wp_add_disp; [done|]. intros a2 st2 s2 L2 K2 S2. apply H.
  split_and!; [by eapply later_trans|by eapply keeps_later|..]; destruct a2 as [v|]; cbn in *; destruct_and?; try done; try by left.
  unfold value. cbn. by apply D.
Qed.

Lemma wp_address o sz x e (Q : Varnode -> lift_st -> state Mem -> Prop) st s :
  matches x s -> x_address o x = Some e ->
  (forall a st' s', holds e a st s st' s' -> Q a st' s') ->
  wp (effective_address zreg o sz) Q st s.
Proof using Ops.
  intros Ma E H. unfold x_address in E. unfold effective_address.
  destruct (is_frame zreg (base (mem o)) && no_register zreg (index (mem o))) eqn:F; [done|].
  assert (Hc : forall v, wp (mret (vn_const v 8)) Q st s \/ e <> v).
  { intros v. destruct (decide (e = v)) as [->|]; [left|by right]. apply wp_ret, H. split_and!; [apply later_refl|done|by left|by left|done]. }
  destruct (is_ip zreg (base (mem o))) eqn:Ip; [destruct (Z.eqb_spec (val o) 0); [done|]; injection E as <-; by destruct (Hc (val o))|].
  rewrite andb_false_r. destruct (no_register zreg (base (mem o)) && no_register zreg (index (mem o)) && (disp (mem o) =? 0)) eqn:N.
  - injection E as <-. rewrite !andb_true_iff in N. destruct N as [[Nb Ni] Nd]. unfold base_index, add_disp. rewrite Nb, Ni, Nd.
    destruct (Hc (val o)) as [(n & En & HQ)|]; [|done]. by exists n.
  - apply (wp_linear _ x e); [done..| |intros; by apply wp_ret, H]. intros Nb Ni Nd. by rewrite Nb, Ni, Nd in N.
Qed.

Lemma word_some v w : word v = Some w -> w = v /\ is_word 64 v.
Proof. unfold word. destruct (Z.leb_spec 0 v), (Z.ltb_spec v (2 ^ 64)); intros [= <-]; done. Qed.

Lemma wp_read i idx x v (Q : Varnode -> lift_st -> state Mem -> Prop) st s :
  matches x s -> x_read i idx x = Some v ->
  (forall a st' s', holds v a st s st' s' -> is_word 64 v ->
     (is_rsp (operand i idx) = false -> is_const a = true \/ key a <> key rsp) -> Q a st' s') ->
  wp (operand_read zreg i idx) Q st s.
Proof using Ops.
  intros Ma E H. unfold x_read in E. unfold operand_read. destruct (op_count i <=? Z.of_nat idx); [done|].
  destruct (op_type (operand i idx)) eqn:Ety; [done|..].
  - destruct (x_get_value _ _ _ _ (op_size (operand i idx)) E Ma) as (V & W & r & n & E2 & Hr). rewrite E2 in *.
    apply wp_ret, H; [split_and!; [apply later_refl|done|apply below_reg|by apply no_flag_gpr|done]|done|].
    intros N. right. unfold is_rsp in N. intros [= ->]. rewrite Ety in N.
    unfold x_get in E. destruct (xreg (reg (operand i idx))) as [q|] eqn:Eq; [|done].
    destruct (xreg_vn _ q (op_size (operand i idx)) Eq) as (nm & E3 & _). rewrite E2 in E3. by injection E3 as <- <-.
  - apply word_some in E as [-> W]. apply wp_ret, H; [|done|by left]. split_and!; [apply later_refl|done|by left|by left|done].
  - destruct (x_address (operand i idx) x) as [e|] eqn:Ea; [|done]. injection E as <-.
    apply wp_bind, (wp_address _ _ x e); [done..|]. intros a st1 s1 (L1 & K1 & B1 & F1 & V1).
    apply wp_emit_temp; [done|done|]. intros st2 s2 L2 B2 K2 V2. pose proof (ma_mem _ _ Ma) as Em.
    assert (E1 : (act LOAD (if op_size (operand i idx) / 8 <? 1 then 8 else op_size (operand i idx) / 8) (value (env s1) <$> [a]) (Ir.mem s1)).2 =
      (act LOAD (if op_size (operand i idx) / 8 <? 1 then 8 else op_size (operand i idx) / 8) [e] (x_mem x)).2).
    { cbn [fmap list_fmap]. rewrite V1. destruct K1 as (<- & _). by rewrite Em. }
    apply H; [|apply (lo_load act Ops)|by right; intros [=]]. split_and!; [by eapply later_trans|by eapply keeps_later|done|apply no_flag_temp|by rewrite V2].
Qed.

(** *** Writes and effects *)

Lemma matches_set r n v x s : matches x s -> matches (x_set r v x) (set_var (vn_reg r n 8) v s).
Proof.
  intros [A B C D]. split; [done|done| |].
  - intros q. cbn. destruct (Z.eqb_spec q r) as [->|N]; [by apply (assign_eq (vn_reg r n 8))|].
    rewrite assign_other; [done|]. right. by intros [=].
  - intros f Hf. specialize (D f Hf). unfold flags_set in *. destruct (flags_of f) as [[[z c] n'] o]. cbn [env set_var].
    rewrite !assign_other; [done|right; by intros [=]..].
Qed.

Lemma matches_effect o a ins x s : matches x s ->
  matches (x_effect o a ins x) (mk_state (act o 8 ins (Ir.mem s)).1 (env s) (trace s ++ [(o, a, ins)])).
Proof. intros [A B C D]. split; cbn; [by rewrite A|by rewrite B|done|done]. Qed.

Lemma wp_copy r n a v x (Q : unit -> lift_st -> state Mem -> Prop) st s :
  matches x s -> value (env s) a = v ->
  (forall st' s', later st st' -> matches (x_set r v x) s' -> Q tt st' s') ->
  wp (emit COPY (vn_reg r n 8) [a]) Q st s.
Proof using Ops.
  intros Ma E H. apply wp_set; [done|done|]. intros st' L. cbn [fmap list_fmap]. rewrite (lo_copies act Ops), E.
  apply H; [done|]. by apply matches_set.
Qed.

Lemma wp_effect o ins vals x (Q : unit -> lift_st -> state Mem -> Prop) st s :
  effectful o = true -> matches x s -> value (env s) <$> ins = vals ->
  (forall st' s', later st st' -> matches (x_effect o (cur_addr_ st) vals x) s' -> Q tt st' s') ->
  wp (emit o no_vn ins) Q st s.
Proof using.
  intros P Ma E H. apply wp_emit_effect; [done|]. intros st' L. rewrite E. apply H; [done|]. by apply matches_effect.
Qed.

Lemma wp_write ar i idx x x' a v (Q : unit -> lift_st -> state Mem -> Prop) st s :
  matches x s -> x_write i idx v x = Some x' -> i_addr i = cur_addr_ st -> below (next_temp_ st) a -> value (env s) a = v ->
  (forall st' s', later st st' -> matches x' s' -> Q tt st' s') ->
  wp (operand_write zreg ar i idx a) Q st s.
Proof using Ops.
  intros Ma E Ad B V H. unfold x_write in E. unfold operand_write. destruct (op_count i <=? Z.of_nat idx); [done|].
  destruct (Z.eqb_spec (op_size (operand i idx)) 64) as [E64|]; [|done].
  destruct (op_type (operand i idx)); [done| |done|].
  - destruct (xreg (reg (operand i idx))) as [r|] eqn:Er; [|done]. injection E as <-.
    destruct (xreg_vn _ r (op_size (operand i idx)) Er) as (n & -> & Hr). rewrite E64, andb_false_r. cbn [andb].
    by apply (wp_copy _ _ _ v x).
  - destruct (x_address (operand i idx) x) as [e|] eqn:Ea; [|done]. injection E as <-.
    apply wp_bind, (wp_address _ _ x e); [done..|]. intros b st1 s1 (L1 & K1 & B1 & F1 & V1).
    apply (wp_effect _ _ [e; v] x); [done|by eapply matches_keeps| |].
    + cbn [fmap list_fmap]. by rewrite V1, (keeps_value _ _ _ _ K1 B), V.
    + intros st2 s2 L2 M2. apply H; [by eapply later_trans|]. rewrite Ad. destruct L1 as [_ <-]. done.
Qed.

(** *** Instructions *)

(** A binary operation on two values, written to the first operand. *)
Lemma wp_binary ar o sz i a b l r x x' (Q : unit -> lift_st -> state Mem -> Prop) st s :
  matches x s -> x_binary o i l r x = Some x' -> i_addr i = cur_addr_ st ->
  value (env s) a = l -> value (env s) b = r -> is_word 64 l -> is_word 64 r ->
  (forall st' s', matches x' s' -> Q tt st' s') ->
  wp (t ← emit_temp o sz [a; b]; operand_write zreg ar i 0 t) Q st s.
Proof using Ops.
  unfold x_binary. intros Ma E Ad Va Vb Wl Wr H. destruct (x_alu o l r) as [v|] eqn:Ev; [|done]. cbn in E.
  destruct (x_write i 0 v x) as [x1|] eqn:Ew; [|done]. injection E as <-.
  assert (Ea : Propagate.alu64 o l r = Some v) by (unfold x_alu in Ev; destruct o; try done; by destruct (r <? 64)).
  assert (P : effectful o = false /\ o <> NOP) by (by destruct o). destruct P as [P N].
  apply wp_bind, (wp_alu o sz a b l r v); [done..|]. intros t st1 s1 L1 K1 B1 F1 V1. destruct L1 as [L1 A1].
  eapply (wp_write _ i 0 x x1 t v); [by eapply matches_keeps|done|by rewrite A1|done|done|].
  intros st2 s2 L2 M2. apply H. by apply matches_clear.
Qed.

Lemma wp_lift_binary ar i l r x x' (Q : unit -> lift_st -> state Mem -> Prop) st s :
  matches x s -> x_read i 0 x = Some l -> x_read i 1 x = Some r -> x_binary (binary_op (type i)) i l r x = Some x' ->
  i_addr i = cur_addr_ st -> (forall st' s', matches x' s' -> Q tt st' s') ->
  wp (lift_binary zreg ar i) Q st s.
Proof using Ops.
  intros Ma El Er E Ad H. unfold lift_binary.
  apply wp_bind, (wp_read _ _ x l); [done..|]. intros a st1 s1 (L1 & K1 & B1 & F1 & V1) W1 _.
  apply wp_bind, (wp_read _ _ x r); [by eapply matches_keeps|done|]. intros b st2 s2 (L2 & K2 & B2 & F2 & V2) W2 _.
  assert (Ma2 : matches x s2) by (by do 2 (eapply matches_keeps; [|done])).
  assert (Ad2 : i_addr i = cur_addr_ st2) by (destruct L1, L2; congruence).
  destruct (zeroing i) eqn:Z.
  - unfold zeroing in Z. rewrite !andb_true_iff, !bool_decide_eq_true, Z.eqb_eq in Z. destruct Z as ((((Ty & _) & O0) & O1) & Rg).
    assert (l = r) as <-.
    { unfold x_read in El, Er. destruct (_ <=? _) in El; [done|]. destruct (_ <=? _) in Er; [done|].
      rewrite O0 in El. rewrite O1, <-Rg in Er. congruence. }
    unfold x_binary in E. rewrite Ty in E. cbn in E. rewrite Z.lxor_nilpotent in E.
    destruct (x_write i 0 0 x) as [x1|] eqn:Ew; [|done]. injection E as <-.
    eapply (wp_write _ i 0 x x1 _ 0); [done|done|done|by left|done|]. intros st3 s3 L3 M3. apply H. by apply matches_clear.
  - apply (wp_binary _ _ _ _ _ _ l r x x'); [done|done|done| |done..]. by rewrite (keeps_value _ _ _ _ K2).
Qed.

Lemma cur_addr_later i st st' : i_addr i = cur_addr_ st -> later st st' -> i_addr i = cur_addr_ st'.
Proof. intros E [_ A]. by rewrite A. Qed.

(** Two operands read one after the other. *)
Lemma wp_read2 i n m x l r st s {B} (k : Varnode -> Varnode -> M B) Q' :
  matches x s -> x_read i n x = Some l -> x_read i m x = Some r ->
  (forall a b st' s', later st st' -> keeps (next_temp_ st) s s' -> holds r b st s st' s' ->
     below (next_temp_ st') a -> no_flag a -> value (env s') a = l -> is_word 64 l -> is_word 64 r -> wp (k a b) Q' st' s') ->
  wp (a ← operand_read zreg i n; b ← operand_read zreg i m; k a b) Q' st s.
Proof using Ops.
  intros Ma El Er H.
  apply wp_bind, (wp_read _ _ x l); [done..|]. intros a st1 s1 (L1 & K1 & B1 & F1 & V1) W1 _.
  apply wp_bind, (wp_read _ _ x r); [by eapply matches_keeps|done|]. intros b st2 s2 (L2 & K2 & B2 & F2 & V2) W2 _.
  apply H; [by eapply later_trans|by eapply keeps_later| |by eapply below_weaken; [apply L2|]|done|by rewrite (keeps_value _ _ _ _ K2)|done|done].
  split_and!; [by eapply later_trans|by eapply keeps_later|done..].
Qed.

(** An operation on one operand, written to the first. *)
Lemma wp_unary ar i n o sz more v w x x' (Q : unit -> lift_st -> state Mem -> Prop) st s :
  matches x s -> x_read i n x = Some v -> x_write i 0 w x = Some x' -> i_addr i = cur_addr_ st ->
  effectful o = false -> o <> NOP ->
  (forall a (t : state Mem) m, value (env t) a = v -> is_word 64 v -> (act o (sz a) (value (env t) <$> (a :: more a)) m).2 = w) ->
  (forall st' s', matches x' s' -> Q tt st' s') ->
  wp (lift_unary zreg ar i n o sz more) Q st s.
Proof using Ops.
  intros Ma Ev Ew Ad P N Hw H. unfold lift_unary.
  apply wp_bind, (wp_read _ _ x v); [done..|]. intros a st1 s1 (L1 & K1 & B1 & F1 & V1) W1 _.
  apply wp_bind, wp_emit_temp; [done|done|]. intros st2 s2 L2 B2 K2 V2. rewrite Hw in V2 by done.
  eapply (wp_write _ i 0 x x'); [by do 2 (eapply matches_keeps; [|done])|done| |done|done|by intros; apply H].
  by do 2 (eapply cur_addr_later; [|done]).
Qed.

Lemma wp_inc_dec ar i o v x x' (Q : unit -> lift_st -> state Mem -> Prop) st s :
  o = Ir.ADD \/ o = SUB -> matches x s -> x_read i 0 x = Some v -> x_binary o i v 1 x = Some x' -> i_addr i = cur_addr_ st ->
  (forall st' s', matches x' s' -> Q tt st' s') ->
  wp (lift_unary zreg ar i 0 o size (fun a => [vn_const 1 (size a)])) Q st s.
Proof using Ops.
  intros Ho Ma Ev E Ad H. unfold x_binary in E. destruct (x_alu o v 1) as [w|] eqn:Ea; [|done]. cbn in E.
  destruct (x_write i 0 w x) as [x1|] eqn:Ew; [|done]. injection E as <-.
  assert (Ea' : Propagate.alu64 o v 1 = Some w) by (by destruct Ho as [-> | ->]).
  eapply (wp_unary _ i 0 o _ _ v w x x1); [done..|by destruct Ho as [-> | ->]|by destruct Ho as [-> | ->]| |].
  - intros a t m Va Wv. by apply (alu_value o _ a (vn_const 1 (size a)) v 1).
  - intros st' s' M'. apply H. by apply matches_clear.
Qed.

Lemma keeps_temp n i sz v s : n <= i -> keeps n s (set_var (vn_temp i sz) v s).
Proof. intros L. split_and!; [done|done|]. intros k Hk. apply assign_other. right. intros ->. apply Hk. by split. Qed.

(** The temporary of a product is allocated before the operands are read. *)
Lemma wp_mul ar i n m l r x x' (Q : unit -> lift_st -> state Mem -> Prop) st s :
  matches x s -> x_read i n x = Some l -> x_read i m x = Some r -> x_binary INT_MULT i l r x = Some x' -> i_addr i = cur_addr_ st ->
  (forall st' s', matches x' s' -> Q tt st' s') ->
  wp (t ← alloc_temp 8; a ← operand_read zreg i n; b ← operand_read zreg i m; _ ← emit INT_MULT t [a; b]; operand_write zreg ar i 0 t) Q st s.
Proof using Ops.
  intros Ma El Er E Ad H. unfold x_binary in E. cbn in E. destruct (x_write i 0 _ x) as [x1|] eqn:Ew; [|done]. injection E as <-.
  apply wp_bind. exists []. rewrite app_nil_r. split; [done|]. cbn [alloc_temp fst snd exec_all foldl].
  set (st1 := mk_lift (next_temp_ st + 1) _ _ _ _ _). set (t := vn_temp (next_temp_ st) 8).
  apply (wp_read2 i n m x l r); [done..|]. intros a b st2 s2 L2 K2 (_ & _ & B2 & F2 & V2) Ba Fa Va Wl Wr.
  apply wp_bind, wp_set; [done|done|]. intros st3 L3. rewrite (alu_value INT_MULT _ a b l r ((l * r) mod 2 ^ 64)) by done.
  set (s3 := mk_state _ _ _).
  assert (K3 : keeps (next_temp_ st) s s3).
  { eapply keeps_trans; [eapply keeps_weaken; [|done]; cbn; lia|]. change s3 with (set_var t ((l * r) mod 2 ^ 64) s2). by apply keeps_temp. }
  eapply (wp_write _ i 0 x x1); [by eapply matches_keeps|done| | |by apply (value_set_eq t)|].
  - by do 2 (eapply cur_addr_later; [|done]).
  - eapply below_temp. destruct L2, L3. cbn in *. lia.
  - intros st4 s4 _ M4. apply H. by apply matches_clear.
Qed.

(** The stack pointer moved by a slot. *)
Lemma wp_move_sp o n sp e x st s (Q : Varnode -> lift_st -> state Mem -> Prop) :
  matches x s -> x_regs x REG_RSP = sp -> is_word 64 sp -> effectful o = false -> o <> NOP -> Propagate.alu64 o sp 8 = Some e ->
  (forall t st' s', holds e t st s st' s' -> Q t st' s') ->
  wp (emit_temp o n [rsp; vn_const 8 8]) Q st s.
Proof using Ops.
  intros Ma E W P N A H. apply (wp_alu o n _ _ sp 8 e); [done|done| |done|done|done|done|].
  - change (value (env s) rsp) with (env s (gpr 4)). by rewrite (ma_regs x s Ma).
  - intros t st' s' L K B F V. by apply H.
Qed.

Lemma slot_8 db : arch db = X64 -> slot_size db = 8.
Proof. intros E. unfold slot_size. by rewrite E. Qed.

Lemma wp_push db i x x' (Q : unit -> lift_st -> state Mem -> Prop) st s :
  arch db = X64 -> type i = Push -> matches x s -> xstep i x = Some x' -> i_addr i = cur_addr_ st ->
  (forall st' s', matches x' s' -> Q tt st' s') -> wp (lift_push zreg db i) Q st s.
Proof using Ops.
  intros Ar Ty Ma E Ad H. unfold xstep in E. rewrite Ty in E. destruct (is_rsp (operand i 0)) eqn:Sp; [done|].
  destruct (x_read i 0 x) as [v|] eqn:Ev; [|done]. cbn in E. destruct (word (x_regs x REG_RSP)) as [sp|] eqn:Es; [|done].
  apply word_some in Es as [-> Ws]. injection E as <-. unfold lift_push. rewrite (slot_8 db Ar).
  set (sp := x_regs x REG_RSP) in *. apply wp_bind, (wp_read _ _ x v); [done..|]. intros a st1 s1 (L1 & K1 & B1 & F1 & V1) W1 Na.
  apply wp_bind, (wp_move_sp SUB _ sp ((sp - 8) mod 2 ^ 64) x); [by eapply matches_keeps|done..|].
  intros t st2 s2 (L2 & K2 & B2 & F2 & V2). assert (M2 : matches x s2) by (by do 2 (eapply matches_keeps; [|done])).
  apply wp_bind, wp_set; [done|done|]. intros st3 L3. cbn [fmap list_fmap]. rewrite (lo_copies act Ops), V2.
  change (mk_state _ _ _) with (set_var rsp ((sp - 8) mod 2 ^ 64) s2).
  apply (wp_effect _ _ [(sp - 8) mod 2 ^ 64; v] (x_set REG_RSP ((sp - 8) mod 2 ^ 64) x)); [done|by apply matches_set| |].
  - cbn [fmap list_fmap]. rewrite value_set_eq by done. rewrite value_set_ne by by apply Na.
    by rewrite (keeps_value _ _ _ _ K2 B1), V1.
  - intros st4 s4 L4 M4. apply H. rewrite Ad. destruct L1 as [_ <-], L2 as [_ <-], L3 as [_ <-]. done.
Qed.

Lemma wp_pop db i x x' (Q : unit -> lift_st -> state Mem -> Prop) st s :
  arch db = X64 -> type i = Pop -> matches x s -> xstep i x = Some x' -> i_addr i = cur_addr_ st ->
  (forall st' s', matches x' s' -> Q tt st' s') -> wp (lift_pop zreg db i) Q st s.
Proof using Ops.
  intros Ar Ty Ma E Ad H. unfold xstep in E. rewrite Ty in E. destruct (is_rsp (operand i 0)) eqn:Sp; [done|].
  destruct (negb (bool_decide (op_type (operand i 0) = OpReg))) eqn:Or; [done|]. cbn [orb] in E.
  apply negb_false_iff, bool_decide_eq_true in Or.
  destruct (word (x_regs x REG_RSP)) as [sp|] eqn:Es; [|done]. apply word_some in Es as [-> Ws]. cbn in E.
  destruct (x_write i 0 _ x) as [x1|] eqn:Ew; [|done]. injection E as <-. unfold lift_pop. rewrite (slot_8 db Ar).
  set (sp := x_regs x REG_RSP) in *. assert (Esp : x_regs x1 REG_RSP = sp).
  { unfold x_write in Ew. rewrite Or in Ew. destruct (_ <=? _); [done|]. destruct (_ =? 64); [|done]. unfold is_rsp in Sp. rewrite Or in Sp.
    destruct (xreg (reg (operand i 0))) as [r|]; [|done]. injection Ew as <-. cbn [x_set x_regs].
    destruct (Z.eqb_spec REG_RSP r) as [<-|]; [done|done]. }
  apply wp_bind, wp_emit_temp; [done|done|]. intros st1 s1 L1 B1 K1 V1.
  assert (E1 : (act LOAD 8 (value (env s) <$> [rsp]) (Ir.mem s)).2 = (act LOAD 8 [sp] (x_mem x)).2).
  { cbn [fmap list_fmap]. change (value (env s) rsp) with (env s (gpr 4)). by rewrite (ma_regs x s Ma), (ma_mem x s Ma). }
  rewrite E1 in V1. apply wp_bind. eapply (wp_write _ i 0 x x1); [by eapply matches_keeps|done|by eapply cur_addr_later|done|done|].
  intros st2 s2 L2 M2. apply wp_bind, (wp_move_sp Ir.ADD _ sp ((sp + 8) mod 2 ^ 64) x1); [done..|].
  intros t st3 s3 (L3 & K3 & B3 & F3 & V3). eapply (wp_copy 4 _ t _ x1); [by eapply matches_keeps|done|]. intros st4 s4 _ M4. by apply H.
Qed.

Lemma wp_compare i t x x' (Q : unit -> lift_st -> state Mem -> Prop) st s :
  type i = (if t : bool then Test else Cmp) -> matches x s -> xstep i x = Some x' ->
  (forall st' s', matches x' s' -> Q tt st' s') ->
  wp (a ← operand_read zreg i 0; b ← operand_read zreg i 1; emit_flags a b t) Q st s.
Proof using Ops.
  intros Ty Ma E H. unfold xstep in E. rewrite Ty in E.
  assert (E' : exists l r, x_read i 0 x = Some l /\ x_read i 1 x = Some r /\
    x' = x_set_flags (Some (if t then Tested l r else Compared l r)) x).
  { destruct t; (destruct (_ && _) in E; [|done]); destruct (x_read i 0 x) as [l|]; try done; destruct (x_read i 1 x) as [r|]; try done;
      exists l, r; by injection E as <-. }
  destruct E' as (l & r & El & Er & ->). apply (wp_read2 i 0 1 x l r); [done..|].
  intros a b st1 s1 L1 K1 (_ & _ & B1 & F1 & V1) Ba Fa Va Wl Wr. assert (M1 : matches x s1) by (by eapply matches_keeps).
  destruct t; [apply (wp_test_flags a b l r x)|apply (wp_cmp_flags a b l r x)]; try done; intros st2 s2 _ M2; by apply H.
Qed.

Lemma wp_call db i x (Q : unit -> lift_st -> state Mem -> Prop) st s fmt_X :
  arch db = X64 -> matches x s -> i_addr i = cur_addr_ st ->
  (let ins := [branch_target i; x_regs x 1; x_regs x 2; x_regs x 8; x_regs x 9] in
   forall st' s', matches (x_set_flags None (x_set 0 (act CALL 8 ins (x_mem x)).2 (x_effect CALL (i_addr i) ins x))) s' -> Q tt st' s') ->
  wp (lift_call fmt_X db i) Q st s.
Proof using.
  intros Ar Ma Ad H. unfold lift_call. rewrite Ar. apply wp_emit. cbn zeta.
  set (ins := [branch_target i; _; _; _; _]) in H. unfold exec. cbn [is_nop op inputs output addr size effectful].
  match goal with |- context [value (env s) <$> ?vs] => assert (Ei : value (env s) <$> vs = ins) end.
  { unfold ins. rewrite <-!(ma_regs x s Ma). done. }
  rewrite Ei. apply H, matches_clear. rewrite <-(ma_mem x s Ma), <-Ad.
  exact (matches_set 0 (bs "rax") _ _ _ (matches_effect CALL (i_addr i) ins x s Ma)).
Qed.

Context (Zinj : Inj (=) (=) zreg).

Lemma wp_lea i x x' (Q : unit -> lift_st -> state Mem -> Prop) st s :
  type i = Lea -> matches x s -> xstep i x = Some x' ->
  (forall st' s', matches x' s' -> Q tt st' s') -> wp (lift_lea zreg i) Q st s.
Proof using Ops Zinj.
  intros Ty Ma E H. unfold xstep in E. rewrite Ty in E. unfold lift_lea.
  destruct (bool_decide (op_type (operand i 0) = OpReg)) eqn:O0; [|done]. destruct (bool_decide (op_type (operand i 1) = OpMem)); [|done].
  cbn [andb] in *. destruct ((op_size (operand i 0) =? 64) && (0 <? op_count i)) eqn:G; [|done].
  set (o := operand i 1) in *. apply bool_decide_eq_true in O0.
  assert (W : forall v a, x_write i 0 v x = Some x' -> forall st1 s1, matches x s1 -> value (env s1) a = v ->
    wp (emit COPY (reg_vn zreg (reg (operand i 0)) (op_size (operand i 0))) [a]) Q st1 s1).
  { intros v a Ew st1 s1 M1 V1. unfold x_write in Ew. rewrite O0 in Ew. destruct (_ <=? _); [done|]. destruct (_ =? 64); [|done].
    destruct (xreg (reg (operand i 0))) as [r|] eqn:Er; [|done]. injection Ew as <-.
    destruct (xreg_vn _ r (op_size (operand i 0)) Er) as (n & -> & _). apply (wp_copy r n a v x); [done..|]. intros; by apply H. }
  destruct (is_ip zreg (base (mem o))) eqn:Ip.
  - destruct (Z.eqb_spec (val o) 0); [done|]. replace (base (mem o) =? zreg NONE) with false; [by apply (W (val o))|].
    symmetry. apply Z.eqb_neq. intros En. unfold is_ip in Ip. rewrite En in Ip. apply orb_prop in Ip as [I|I]; apply Z.eqb_eq, Zinj in I; done.
  - rewrite andb_false_r. destruct (x_linear (mem o) x) as [e|] eqn:El; [|done]. cbn in E.
    apply (wp_linear (mem o) x e 0 (fun a => emit COPY (reg_vn zreg (reg (operand i 0)) (op_size (operand i 0))) [a])); [done|done| |].
    + intros Nb Ni Nd. unfold x_linear, x_reg0 in El. rewrite Nb, Ni, Nd in El. cbn in El. destruct (scale (mem o) <? 256); [|done].
      by injection El as <-.
    + intros a st1 s1 (L1 & K1 & B1 & F1 & V1). apply (W e); [done| |done]. by eapply matches_keeps.
Qed.

Context (fmt_X : Z -> list Z) (format_text : Insn -> Arch -> list Z) (db : AnalysisDB) (Ar : arch db = X64).

Lemma wp_binary_step i x x' (Q : unit -> lift_st -> state Mem -> Prop) st s :
  matches x s -> (l ← x_read i 0 x; r ← x_read i 1 x; x_binary (binary_op (type i)) i l r x) = Some x' ->
  i_addr i = cur_addr_ st -> (forall st' s', matches x' s' -> Q tt st' s') ->
  wp (lift_binary zreg (arch db) i) Q st s.
Proof using Ops.
  intros Ma E Ad H. destruct (x_read i 0 x) as [l|] eqn:El; [|done]. destruct (x_read i 1 x) as [r|] eqn:Er; [|done].
  by apply (wp_lift_binary _ i l r x x').
Qed.

Lemma wp_branch i x f b (Q : unit -> lift_st -> state Mem -> Prop) st s :
  matches x s -> x_flags x = Some f -> cond_holds (condition_of zmnemonic i) f = Some b -> i_addr i = cur_addr_ st ->
  (forall st' s', matches (x_effect CBRANCH (i_addr i) [branch_target i; Z.b2z b] x) s' -> Q tt st' s') ->
  wp (c ← emit_condition zmnemonic i; emit CBRANCH no_vn [vn_const (branch_target i) 8; c]) Q st s.
Proof using Ops.
  intros Ma Ef Ec Ad H. apply wp_bind, (wp_condition _ f b); [by apply (ma_flags x)|done|]. intros c st1 s1 L1 K1 V1.
  apply (wp_effect _ _ [branch_target i; Z.b2z b] x); [done|by eapply matches_keeps|cbn [fmap list_fmap]; by rewrite V1|].
  intros st2 s2 _ M2. apply H. rewrite Ad. destruct L1 as [_ <-]. done.
Qed.

Lemma wp_imul i x x' (Q : unit -> lift_st -> state Mem -> Prop) st s :
  type i = Imul -> matches x s -> xstep i x = Some x' -> i_addr i = cur_addr_ st ->
  (forall st' s', matches x' s' -> Q tt st' s') -> wp (lift_mul zreg (arch db) i) Q st s.
Proof using Ops.
  intros Ty Ma E Ad H. unfold xstep in E. rewrite Ty in E.
  assert (E' : exists n m l r, x_read i n x = Some l /\ x_read i m x = Some r /\ x_binary INT_MULT i l r x = Some x' /\
    lift_mul zreg (arch db) i = (t ← alloc_temp 8; a ← operand_read zreg i n; b ← operand_read zreg i m; _ ← emit INT_MULT t [a; b]; operand_write zreg (arch db) i 0 t)).
  { unfold lift_mul. destruct (Z.eqb_spec (op_count i) 2) as [E2|_]; [|destruct (Z.eqb_spec (op_count i) 3) as [E3|]; [|done]].
    - destruct (x_read i 0 x) as [l|] eqn:El; [|done]. destruct (x_read i 1 x) as [r|] eqn:Er; [|done].
      exists 0%nat, 1%nat, l, r. by rewrite E2.
    - destruct (x_read i 1 x) as [l|] eqn:El; [|done]. destruct (x_read i 2 x) as [r|] eqn:Er; [|done].
      exists 1%nat, 2%nat, l, r. by rewrite E3. }
  destruct E' as (n & m & l & r & El & Er & Eb & ->). by apply (wp_mul _ i n m l r x x').
Qed.

(** What is emitted for an instruction takes a state that matches the machine to one
    that matches it after the instruction. *)
Lemma wp_body i x x' (Q : unit -> lift_st -> state Mem -> Prop) st s :
  matches x s -> xstep i x = Some x' -> i_addr i = cur_addr_ st ->
  (forall st' s', matches x' s' -> Q tt st' s') ->
  wp (lift_body zreg zmnemonic fmt_X format_text db i) Q st s.
Proof using Ops Zinj Ar.
  intros Ma E Ad H. unfold lift_body. pose proof E as E0. unfold xstep in E. destruct (type i) eqn:Ty; try done.
  - apply wp_ret, H. by injection E as <-.
  - destruct (x_read i 1 x) as [v|] eqn:Ev; [|done]. apply wp_bind, (wp_read _ _ x v); [done..|].
    intros a st1 s1 (L1 & K1 & B1 & F1 & V1) W1 _. eapply wp_write; [by eapply matches_keeps|done|by eapply cur_addr_later|done|done|].
    intros; by apply H.
  - by apply (wp_push db i x x').
  - by apply (wp_pop db i x x').
  - injection E as <-. by apply (wp_call db i x).
  - injection E as <-. apply wp_bind. exists []. rewrite app_nil_r. split; [done|].
    apply (wp_effect _ _ [x_regs x 0] x); [done|done|by rewrite <-(ma_regs x s Ma)|]. intros st1 s1 _ M1. apply H. by rewrite Ad.
  - injection E as <-. apply (wp_effect _ _ [branch_target i] x); [done..|]. intros st1 s1 _ M1. apply H. by rewrite Ad.
  - destruct (x_flags x) as [f|] eqn:Ef; [|done]. cbn in E. destruct (cond_holds _ f) as [b|] eqn:Ec; [|done]. injection E as <-.
    by apply (wp_branch i x f b).
  - by apply (wp_compare i false x x').
  - by apply (wp_compare i true x x').
  - apply (wp_binary_step i x x'); [done|by rewrite Ty|done..].
  - apply (wp_binary_step i x x'); [done|by rewrite Ty|done..].
  - by apply (wp_imul i x x').
  - destruct (x_read i 0 x) as [v|] eqn:Ev; [|done]. eapply (wp_inc_dec _ i _ v x x'); try done. by left.
  - destruct (x_read i 0 x) as [v|] eqn:Ev; [|done]. eapply (wp_inc_dec _ i _ v x x'); try done. by right.
  - apply (wp_binary_step i x x'); [done|by rewrite Ty|done..].
  - apply (wp_binary_step i x x'); [done|by rewrite Ty|done..].
  - apply (wp_binary_step i x x'); [done|by rewrite Ty|done..].
  - destruct (x_read i 0 x) as [v|] eqn:Ev; [|done]. eapply (wp_unary _ i 0 _ _ _ v _ x x'); try done.
    intros a t m Va Wv. cbn [fmap list_fmap]. by rewrite (lo_neg act Ops), Va.
  - apply (wp_binary_step i x x'); [done|by rewrite Ty|done..].
  - apply (wp_binary_step i x x'); [done|by rewrite Ty|done..].
  - apply (wp_binary_step i x x'); [done|by rewrite Ty|done..].
  - apply (wp_binary_step i x x'); [done|by rewrite Ty|done..].
  - apply (wp_binary_step i x x'); [done|by rewrite Ty|done..].
  - by apply (wp_lea i x x').
  - destruct (x_read i 1 x) as [v|] eqn:Ev; [|done]. eapply (wp_unary _ i 1 _ _ _ v _ x x'); try done.
    intros a t m Va Wv. cbn [fmap list_fmap]. by rewrite (lo_zext act Ops), Va.
Qed.
Lemma wp_insn i x x' (Q : unit -> lift_st -> state Mem -> Prop) st s :
  matches x s -> xstep i x = Some x' -> (forall st' s', matches x' s' -> Q tt st' s') ->
  wp (lift_insn zreg zmnemonic fmt_X format_text db i) Q st s.
Proof using Ops Zinj Ar.
  intros Ma E H. apply wp_bind. exists []. rewrite app_nil_r. split; [done|]. by apply (wp_body i x x').
Qed.

Lemma wp_insns l m x x' st s :
  wp m (fun _ _ s' => matches x s') st s -> xsteps l x = Some x' ->
  wp (foldl (fun m i => _ ← m; lift_insn zreg zmnemonic fmt_X format_text db i) m l) (fun _ _ s' => matches x' s') st s.
Proof using Ops Zinj Ar.
  revert m x. induction l as [|i l IH]; intros m x Hm E; [by injection E as <-|]. cbn in E.
  destruct (xstep i x) as [x1|] eqn:E1; [|done]. apply (IH _ x1); [|done]. apply wp_bind.
  eapply wp_mono; [|exact Hm]. intros [] st1 s1 M1. by apply (wp_insn i x x1).
Qed.

Lemma lift_block_runs bb st0 x x' s :
  matches x s -> xsteps (insns bb) x = Some x' ->
  matches x' (exec_all (out_ops (lift_block zreg zmnemonic fmt_X format_text db bb st0)) s).
Proof using Ops Zinj Ar.
  intros Ma E. unfold lift_block, lift_insns.
  destruct (wp_insns (insns bb) (mret tt) x x' (mk_lift st0.1 0 0 st0.2 [] false) s) as (new & -> & M); [by apply wp_ret|done|done].
Qed.
End Machine.
Arguments mk_x {Mem}.
Arguments x_regs {Mem}.
Arguments x_flags {Mem}.
Arguments x_mem {Mem}.
Arguments x_trace {Mem}.

(** C2: the p-code of a block of x86-64 instructions does what the processor does:
    when the machine of the specification runs the instructions to a state, the lifted
    operations, run from any state that matches its start, end in one that matches it:
    the same sixteen registers, memory and effects, each conditional branch on the
    condition the processor evaluates for the last comparison. *)
Theorem lift_block_correct {Mem} (act : PcodeOp -> Z -> list Z -> Mem -> Mem * Z) zreg zmnemonic fmt_X format_text db bb st0 x x' s :
  lift_ops act -> Inj (=) (=) zreg -> arch db = X64 ->
  matches x s -> xsteps zreg zmnemonic act (insns bb) x = Some x' ->
  matches x' (exec_all act (out_ops (lift_block zreg zmnemonic fmt_X format_text db bb st0)) s).
Proof.
  intros Ops Zinj Ar Ma E. exact (lift_block_runs zreg zmnemonic act Ops Zinj fmt_X format_text db Ar bb st0 x x' s Ma E).
Qed.

(** ** Examples *)

(** Numbers for the registers: their position in the type. *)
Definition zydis_index (r : ZydisRegister) : Z :=
  match r with
  | NONE => 0 | RIP => 1 | EIP => 2 | RAX => 3 | EAX => 4 | AX => 5 | AL => 6 | RCX => 7 | ECX => 8 | CX => 9 | CL => 10
  | RDX => 11 | EDX => 12 | DX => 13 | DL => 14 | RBX => 15 | EBX => 16 | BX => 17 | BL => 18 | RSP => 19 | ESP => 20
  | RBP => 21 | EBP => 22 | RSI => 23 | ESI => 24 | SIL => 25 | RDI => 26 | EDI => 27 | DIL => 28 | R8 => 29 | R8D => 30
  | R8W => 31 | R8B => 32 | R9 => 33 | R9D => 34 | R9W => 35 | R9B => 36 | R10 => 37 | R10D => 38 | R11 => 39 | R11D => 40
  | R12 => 41 | R12D => 42 | R13 => 43 | R13D => 44 | R14 => 45 | R14D => 46 | R15 => 47 | R15D => 48
  end.

#[export] Instance zydis_index_inj : Inj (=) (=) zydis_index.
Proof. intros [] []; done. Qed.

Definition no_mnemonic (_ : ZydisMnemonic) : Z := 0.

(** A memory without contents. *)
Definition act_x (o : PcodeOp) (sz : Z) (ins : list Z) (m : unit) : unit * Z :=
  (m, match o, ins with
      | LOAD, _ => 0
      | INT_NEQUAL, [l; r] => if l =? r then 0 else 1
      | BOOL_NOT, [b] => 1 - b
      | BOOL_OR, [a; b] => Z.max a b
      | INT_NEGATE, [v] => 2 ^ 64 - 1 - v
      | _, [l; r] => default l (Propagate.alu64 o l r)
      | _, v :: _ => v
      | _, [] => 0
      end).

Lemma act_x_ops : lift_ops act_x.
Proof.
  split; try done.
  - intros sz v [|w [|? ?]] []; done.
  - intros o sz l r [] v _ _ H. unfold act_x. destruct o; try done; by rewrite H.
Qed.

Definition reg_op (r : ZydisRegister) (bits : Z) : Operand := mk_operand 0 (mk_mem 0 0 0 0) (zydis_index r) bits OpReg.
Definition imm_op (v : Z) : Operand := mk_operand v (mk_mem 0 0 0 0) 0 64 OpImm.
Definition mem_op (b x : ZydisRegister) (sc d bits : Z) : Operand :=
  mk_operand 0 (mk_mem d (zydis_index b) (zydis_index x) sc) 0 bits OpMem.
Definition insn_at (a : Z) (t : InsnType) (mn : list Z) (os : list Operand) : Insn := mk_insn a os mn t (zlen os) 0.

(** [lea rax, \[rcx + 4*rdx - 8\]; mov \[rax + rbx\], rcx; cmp rcx, rdx; jl 0x40] *)
Definition sample : list Insn :=
  [insn_at 0 Lea (bs "lea") [reg_op RAX 64; mem_op RCX RDX 4 (-8) 64];
   insn_at 4 Mov (bs "mov") [mem_op RAX RBX 1 0 64; reg_op RCX 64];
   insn_at 8 Cmp (bs "cmp") [reg_op RCX 64; reg_op RDX 64];
   insn_at 11 Jcc (bs "jl") [imm_op 64]].

Definition sample_db : AnalysisDB := mk_db X64 0 ∅.
Definition sample_bb : BasicBlock := mk_bb 0 sample [].

(** RCX is -1, RDX is 1 and RBX is 16: RAX becomes -5, and the branch is taken. *)
Definition sample_regs (r : Z) : Z := if r =? 1 then 2 ^ 64 - 1 else if r =? 2 then 1 else 16.

Lemma lift_block_correct_witness :
  let x := mk_x sample_regs None tt [] in
  let s := mk_state tt (fun k => if bool_decide (k_kind k = Reg) then sample_regs (k_id k) else 0) [] in
  exists x', xsteps zydis_index no_mnemonic act_x sample x = Some x' /\
    x_trace x' = [(STORE, 4, [11; 2 ^ 64 - 1]); (CBRANCH, 11, [64; 1])] /\
    matches x' (exec_all act_x (out_ops (lift_block zydis_index no_mnemonic (fun _ => []) (fun _ _ => []) sample_db sample_bb (256, []))) s).
Proof.
  intros x s. destruct (xsteps zydis_index no_mnemonic act_x sample x) as [x'|] eqn:E; [|by vm_compute in E].
  exists x'. split; [done|].
  assert (E2 : x_trace <$> xsteps zydis_index no_mnemonic act_x sample x =
    Some [(STORE, 4, [11; 2 ^ 64 - 1]); (CBRANCH, 11, [64; 1])]) by (vm_compute; reflexivity).
  rewrite E in E2. split; [by injection E2|].
  apply (lift_block_correct act_x zydis_index no_mnemonic (fun _ => []) (fun _ _ => []) sample_db sample_bb (256, []) x x' s
    act_x_ops zydis_index_inj eq_refl); [|exact E]. by split.
Defined.

(** ** Where the lifter leaves the processor *)

Definition run_sample (l : list Insn) (e : VnKey -> Z) : state unit :=
  exec_all act_x (out_ops (lift_block zydis_index no_mnemonic (fun _ => []) (fun _ _ => []) sample_db (mk_bb 0 l []) (256, [])))
    (mk_state tt e []).

(** [push rsp] stores the stack pointer after the decrement; the processor stores the
    one before. *)
Lemma push_rsp_stores_new : trace (run_sample [insn_at 0 Push [] [reg_op RSP 64]] (fun _ => 64)) = [(STORE, 0, [56; 56])].
Proof. by vm_compute. Qed.

(** [pop rsp] adds the slot to the loaded value. *)
Lemma pop_rsp_adds_slot : env (run_sample [insn_at 0 Pop [] [reg_op RSP 64]] (fun _ => 64)) (gpr 4) = 8.
Proof. by vm_compute. Qed.

(** [lea eax, \[rcx\]] does not update RAX, as the other 32-bit writes do. *)
Lemma lea_keeps_full_register :
  env (run_sample [insn_at 0 Lea [] [reg_op EAX 32; mem_op RCX NONE 1 0 64]] (fun k => k_id k)) (gpr 0) = 0 /\
  env (run_sample [insn_at 0 Mov [] [reg_op EAX 32; reg_op ECX 32]] (fun k => k_id k)) (gpr 0) = 1.
Proof. by vm_compute. Qed.

(** Arithmetic does not set the flags: after [dec rcx] with RCX 2 the branch [jnz] still
    looks at the flag of an earlier comparison. *)
Lemma arithmetic_leaves_flags :
  trace (run_sample [insn_at 0 Dec (bs "dec") [reg_op RCX 64]; insn_at 3 Jcc (bs "jnz") [imm_op 64]]
    (fun k => if bool_decide (k = key ZF) then 1 else 2)) = [(CBRANCH, 3, [64; 0])].
Proof. by vm_compute. Qed.

(** Registers the table leaves out (SI, DI, SP, BP, R10W and others) get an id from their
    number modulo 50: two of them can be the same variable. *)
Lemma unlisted_registers_share zreg z bits :
  (forall r, zreg r <> z) -> (forall r, zreg r <> z + 50) -> reg_vn zreg z bits = reg_vn zreg (z + 50) bits.
Proof.
  intros H1 H2. assert (N : forall z', (forall r, zreg r <> z') -> list_find (fun r : ZydisRegister * (list Z * Z * Z) => zreg r.1 = z') kRegTable = None).
  { intros z' H. apply list_find_None, Forall_forall. intros r _. apply H. }
  unfold reg_vn. rewrite !N by done. do 2 f_equal. by rewrite <-(Z.mod_add z 1 50) by lia.
Qed.
