(* ===== verification/Lifted.v ===== *)
(** * Lifted functions are fit for SSA construction

    What [Lifter.lift] produces for functions of 64-bit instructions without operands
    relative to the frame satisfies what [Build] assumes, so the theorems compose from
    the machine code to the result of the middle end. *)

From S2P Require Import Prelude Ir Ssa Dom Phi CopyProp Build Lifter.

#[local] Open Scope Z_scope.

(** ** The functions covered *)

Section Fragment.
Context (zreg : ZydisRegister -> Z).

(** A register of 8 bytes, or none. *)
Definition wide_reg (z : Z) : bool := size (reg_vn zreg z 64) =? 8.

Definition simple_operand (o : Operand) : bool :=
  match op_type o with
  | OpReg => size (reg_vn zreg (reg o) (op_size o)) =? 8
  | OpMem =>
      negb (is_frame zreg (base (mem o)) && no_register zreg (index (mem o))) &&
      wide_reg (base (mem o)) && wide_reg (index (mem o))
  | _ => true
  end.

(** The instructions that are not kept as text. *)
Definition supported (t : InsnType) : bool :=
  match t with Unknown | Int | Syscall | Other => false | _ => true end.

Definition simple_insn (i : Insn) : bool :=
  supported (type i) && simple_operand (operand i 0) && simple_operand (operand i 1) && simple_operand (operand i 2).

(** Conditions follow a comparison of the same block. *)
Fixpoint flags_local (seen : bool) (l : list Insn) : bool :=
  match l with
  | [] => true
  | i :: l' =>
      match type i with
      | Cmp | Test => flags_local true l'
      | Jcc | Setcc => seen && flags_local seen l'
      | _ => flags_local seen l'
      end
  end.
End Fragment.

(** Flags and temporaries live within a block. *)
Definition lift_narrow (k : Z) : bool := ((100 <=? k) && (k <=? 103)) || (1000 <=? k).

(** ** The operations of a block so far *)

Definition seen_of (os : list PcodeInsn) : list (Z * Z) := foldl (fun seen o => seen_after (output o) seen) [] os.

Lemma local_from_snoc narrow seen os o :
  local_from narrow seen (os ++ [o]) <->
  local_from narrow seen os /\
  Forall (may_read narrow (foldl (fun seen o => seen_after (output o) seen) seen os)) (inputs o) /\ may_write narrow (output o).
Proof. revert seen; induction os as [|p os IH]; intros seen; cbn; [tauto|]. rewrite IH. tauto. Qed.

Lemma seen_of_snoc os o : seen_of (os ++ [o]) = seen_after (output o) (seen_of os).
Proof. unfold seen_of. by rewrite foldl_app. Qed.

Lemma elem_of_seen_after v seen p :
  p ∈ seen_after v seen <-> (is_const v = false /\ p = (size v, vkey v)) \/ (p ∈ seen /\ (is_const v = true \/ p.2 <> vkey v)).
Proof.
  unfold seen_after. destruct (is_const v); [naive_solver|]. rewrite elem_of_cons, list_elem_of_filter. naive_solver.
Qed.

(** The width of a variable by its key. *)
Definition width_ok (n : Z) (p : Z * Z) : Prop :=
  (p.2 < 100 /\ p.1 = 8) \/ (100 <= p.2 <= 103 /\ p.1 = 1) \/ (1000 <= p.2 < 1000 + n).

Record inv (st : lift_st) : Prop := mk_inv {
  in_plain : Forall plain_insn (out_ops st);
  in_local : local_from lift_narrow [] (out_ops st);
  in_stores : Forall (fun o => op o = STORE -> output o = no_vn) (out_ops st);
  in_seq : 0 <= cur_seq_ st;
  in_next : 0 <= next_temp_ st;
  in_seen : forall p, p ∈ seen_of (out_ops st) -> width_ok (next_temp_ st) p
}.

(** Later operations leave what may be read, and set temporaries from [n] on. *)
Record ext (n : Z) (st st' : lift_st) : Prop := mk_ext {
  ex_seen : forall p, p ∈ seen_of (out_ops st) -> p ∈ seen_of (out_ops st');
  ex_new : forall p, p ∈ seen_of (out_ops st') -> p ∈ seen_of (out_ops st) \/ p.2 < 1000 \/ 1000 + n <= p.2
}.

Definition usable (v : Varnode) (st : lift_st) : Prop := plain_vn v /\ may_read lift_narrow (seen_of (out_ops st)) v.

Definition mono {A} (m : M A) : Prop := forall st, next_temp_ st <= next_temp_ (m st).2.

(** [m] keeps the operations in order as long as the temporaries stay below 1000. *)
Definition swp {A} (n : Z) (m : M A) (Q : A -> lift_st -> Prop) (st : lift_st) : Prop :=
  next_temp_ (m st).2 <= 1000 -> inv st -> inv (m st).2 /\ ext n st (m st).2 /\ Q (m st).1 (m st).2.

Lemma ext_refl n st : ext n st st.
Proof. split; [done|by left]. Qed.

Lemma ext_trans n a b c : ext n a b -> ext n b c -> ext n a c.
Proof.
  intros [A1 A2] [B1 B2]. split; [by intros p Hp; apply B1, A1|].
  intros p [Hp|Hp]%B2; [by apply A2|by right].
Qed.

Lemma ext_weaken n m a b : n <= m -> ext m a b -> ext n a b.
Proof. intros L [A1 A2]. split; [done|]. intros p [Hp|[Hp|Hp]]%A2; [by left|by right; left|right; right; lia]. Qed.

Lemma usable_ext n v st st' : usable v st -> ext n st st' -> usable v st'.
Proof. intros [P [H|[H|H]]] [E _]; split; try done; [by left|by right; left|right; right; by apply E]. Qed.

Lemma mono_ret {A} (a : A) : mono (mret a).
Proof. by intros st. Qed.

Lemma mono_bind {A B} (m : M A) (k : A -> M B) : mono m -> (forall a, mono (k a)) -> mono (m ≫= k).
Proof. intros Hm Hk st. unfold mbind, M_bind. pose proof (Hm st) as H1. destruct (m st) as [a st1]. etrans; [exact H1|apply Hk]. Qed.

Lemma mono_emit o v ins : mono (emit o v ins).
Proof. intros st. cbn. lia. Qed.

Lemma mono_alloc sz : mono (alloc_temp sz).
Proof. intros st. cbn. lia. Qed.

Lemma mono_temp o sz ins : mono (emit_temp o sz ins).
Proof. apply mono_bind; [apply mono_alloc|]. intros t. apply mono_bind; [apply mono_emit|]. intros _. apply mono_ret. Qed.

Create HintDb mono discriminated.
#[export] Hint Resolve mono_ret mono_emit mono_alloc mono_temp : mono.

(** Actions built from others, by their structure. *)
Ltac mono :=
  repeat first
    [ progress intros
    | solve [auto with mono]
    | apply mono_bind
    | match goal with
      | |- mono (if ?b then _ else _) => destruct b
      | |- mono (match ?x with _ => _ end) => destruct x
      end ].

Lemma swp_ret {A} n (a : A) Q st : Q a st -> swp n (mret a) Q st.
Proof. intros H _ I. split_and!; [done|apply ext_refl|done]. Qed.

Lemma swp_bind {A B} n (m : M A) (k : A -> M B) Q st :
  mono m -> (forall a, mono (k a)) ->
  swp n m (fun a st1 => swp n (k a) Q st1) st -> swp n (m ≫= k) Q st.
Proof.
  intros Hm Mo H L I. unfold mbind, M_bind in *. unfold swp in H. destruct (m st) as [a st1]. cbn [fst snd] in *.
  destruct (H ltac:(etrans; [apply (Mo a)|exact L]) I) as (I1 & E1 & H1).
  destruct (H1 L I1) as (I2 & E2 & H2). split_and!; [done|by eapply ext_trans|done].
Qed.

(** A varnode an operation may write: of the width of its key, and if a temporary one
    that has not been set. *)
Definition target (n : Z) (v : Varnode) (st : lift_st) : Prop :=
  plain_vn v /\ (is_const v = true \/
    (width_ok (next_temp_ st) (size v, vkey v) /\ (1000 <= vkey v -> 1000 + n <= vkey v /\ forall z, (z, vkey v) ∉ seen_of (out_ops st)))).

Lemma width_narrow n z k : width_ok n (z, k) -> lift_narrow k = true \/ z = 8.
Proof.
  unfold width_ok, lift_narrow. cbn. intros [[? ->]|[[? ->]|?]]; [by right|left..];
    destruct (Z.leb_spec 100 k), (Z.leb_spec k 103), (Z.leb_spec 1000 k); cbn; try done; lia.
Qed.

Lemma swp_emit n o v ins (Q : unit -> lift_st -> Prop) st :
  Forall (fun x => usable x st) ins -> o <> NOP -> (o = COPY -> is_const v = false) -> (o = STORE -> v = no_vn) -> target n v st ->
  (forall st', next_temp_ st' = next_temp_ st -> ext n st st' -> (is_const v = false -> usable v st') -> Q tt st') ->
  swp n (emit o v ins) Q st.
Proof.
  intros Hi No Co So (Pv & T) H _ I. unfold emit. cbn [fst snd]. set (st' := mk_lift _ _ _ _ _ _).
  set (i := Ir.mk_insn o v ins (cur_addr_ st) (cur_seq_ st)) in *.
  assert (Es : seen_of (out_ops st') = seen_after v (seen_of (out_ops st))) by apply seen_of_snoc.
  assert (E : ext n st st').
  { split; rewrite Es; intros p; rewrite elem_of_seen_after.
    - intros Hp. destruct T as [C|[W F]]; [right; split; [done|by left]|]. destruct (is_const v) eqn:C; [right; split; [done|by left]|].
      destruct (decide (p.2 = vkey v)) as [Ek|]; [left|right; split; [done|by right]]. split; [done|].
      pose proof (in_seen _ I p Hp) as Wp. destruct p as [z k]. cbn in Ek. subst k. destruct (decide (1000 <= vkey v)) as [Lk|Lk].
      + by destruct (F Lk) as [_ N]; apply N in Hp.
      + unfold width_ok in *. cbn in *. f_equal. lia.
    - intros [[C ->]|[Hp _]]; [right|by left]. cbn. destruct T as [|[W F]]; [congruence|].
      destruct (decide (1000 <= vkey v)) as [Lk|Lk]; [right; by apply F|left; lia]. }
  assert (I' : inv st').
  { destruct I as [I1 I2 I6 I3 I4 I5]. split.
    - cbn. apply Forall_app. split; [done|]. constructor; [|constructor]. split; cbn.
      + by apply Z.eqb_neq; lia.
      + constructor; [done|]. eapply Forall_impl; [exact Hi|]. by intros x [Px _].
      + intros Nn. by apply bool_decide_eq_true in Nn.
      + done.
    - cbn. apply local_from_snoc. split_and!; [done| |].
      + cbn. eapply Forall_impl; [exact Hi|]. by intros x [_ Rx].
      + cbn. destruct T as [C|[W _]]; [by left|right]. by eapply width_narrow.
    - cbn. apply Forall_app. split; [done|]. by repeat constructor.
    - cbn. lia.
    - done.
    - rewrite Es. cbn [next_temp_ st']. intros p [[C ->]|[Hp _]]%elem_of_seen_after; [|by apply I5]. destruct T as [|[W _]]; [congruence|done]. }
  split_and!; [done|done|]. apply H; [done|done|]. intros C. split; [done|]. right; right. rewrite Es. apply elem_of_seen_after. by left.
Qed.

Lemma swp_alloc n sz (Q : Varnode -> lift_st -> Prop) st :
  (forall st', next_temp_ st' = next_temp_ st + 1 -> out_ops st' = out_ops st -> ext n st st' -> Q (vn_temp (next_temp_ st) sz) st') ->
  swp n (alloc_temp sz) Q st.
Proof.
  intros H L I. cbn [alloc_temp fst snd] in *. set (st' := mk_lift _ _ _ _ _ _) in *. destruct I as [I1 I2 I6 I3 I4 I5].
  assert (E : ext n st st') by (split; [done|by left]). split_and!; [|done|by apply H]. split; try done.
  - cbn. lia.
  - cbn. intros p Hp. specialize (I5 p Hp). unfold width_ok in *. cbn in *. lia.
Qed.

Lemma plain_temp i sz : 0 <= i < 1000 -> plain_vn (vn_temp i sz) /\ vkey (vn_temp i sz) = 1000 + i.
Proof. intros H. split; [|done]. right. split_and!; try done; [by right|cbn; lia|cbn; lia]. Qed.

(** An operation into a new temporary. *)
Lemma swp_temp n o sz ins (Q : Varnode -> lift_st -> Prop) st :
  n <= next_temp_ st -> Forall (fun x => usable x st) ins -> o <> NOP -> o <> STORE ->
  (forall v st', next_temp_ st <= next_temp_ st' -> ext (next_temp_ st) st st' -> usable v st' -> Q v st') ->
  swp n (emit_temp o sz ins) Q st.
Proof.
  intros Ln Hi No Ns H L I. pose proof (in_next _ I) as N0.
  assert (L1 : next_temp_ st + 1 <= 1000) by exact L. destruct (plain_temp (next_temp_ st) sz ltac:(lia)) as [Pt Kt].
  assert (W : swp (next_temp_ st) (emit_temp o sz ins) Q st).
  { apply swp_bind; [apply mono_alloc|intros; mono|]. apply swp_alloc. intros st1 E1 O1 X1. apply swp_bind; [apply mono_emit|intros; mono|].
    apply swp_emit; [|done|done|done| |].
    - eapply Forall_impl; [exact Hi|]. intros x Hx. eapply usable_ext; [exact Hx|exact X1].
    - split; [done|right]. rewrite Kt, E1, O1. split; [right; right; cbn; lia|]. intros _. split; [done|]. intros z Hz.
      pose proof (in_seen _ I _ Hz) as W. unfold width_ok in W. cbn in W. lia.
    - intros st2 E2 X2 U2. apply swp_ret, H; [lia|by eapply ext_trans|by apply U2]. }
  destruct (W L I) as (I' & E' & HQ). split_and!; [done|by eapply ext_weaken|done].
Qed.

(** ** Varnodes that may be read *)

Definition wide (v : Varnode) : Prop := is_reg v = true /\ 0 <= id v < 100 /\ size v = 8 /\ offset v = 0.

Lemma wide_plain v : wide v -> plain_vn v /\ is_const v = false /\ vkey v = id v.
Proof.
  intros (R & I & S & O). split_and!.
  - right. split_and!; [by left|lia|lia|done].
  - unfold is_reg, is_const in *. apply bool_decide_eq_true in R. by rewrite R.
  - destruct v as [kd i s o nm]. apply bool_decide_eq_true in R. cbn in R. by subst kd.
Qed.

Lemma wide_usable v st : wide v -> usable v st.
Proof.
  intros W. destruct (wide_plain v W) as (P & _ & K). destruct W as (_ & I & S & _). split; [done|right; left]. split; [done|].
  unfold lift_narrow. rewrite K. destruct (Z.leb_spec 100 (id v)), (Z.leb_spec 1000 (id v)); try done; lia.
Qed.

Lemma wide_target n v st : wide v -> target n v st.
Proof.
  intros W. destruct (wide_plain v W) as (P & _ & K). destruct W as (_ & I & S & _). split; [done|right]. rewrite K, S.
  split; [left; cbn; lia|lia].
Qed.

Lemma const_usable v st : is_const v = true -> usable v st.
Proof. intros C. split; by left. Qed.

Lemma const_target n v st : is_const v = true -> target n v st.
Proof. intros C. split; by left. Qed.

Lemma gpr_wide r nm : 0 <= r < 100 -> wide (vn_reg r nm 8).
Proof. done. Qed.

Definition is_flag_vn (v : Varnode) : Prop := v ∈ [ZF; CF; SF; OF].

Lemma flag_target n v st : is_flag_vn v -> target n v st.
Proof.
  intros F. repeat (apply elem_of_cons in F as [->|F]; [split; [right; by split_and!; [left| | |]|right; split; [by right; left|done]]|]).
  by apply not_elem_of_nil in F.
Qed.

(** The flags have been set. *)
Definition flags_ready (st : lift_st) : Prop := forall v, is_flag_vn v -> usable v st.

Lemma flags_ready_ext n st st' : flags_ready st -> ext n st st' -> flags_ready st'.
Proof. intros F E v Hv. eapply usable_ext; [by apply F|exact E]. Qed.

Lemma usables_ext n vs st st' : Forall (fun v => usable v st) vs -> ext n st st' -> Forall (fun v => usable v st') vs.
Proof. intros H E. eapply Forall_impl; [exact H|]. intros v Hv. eapply usable_ext; [exact Hv|exact E]. Qed.

Lemma usables_1 a st : usable a st -> Forall (fun v => usable v st) [a].
Proof. intros A. by apply Forall_singleton. Qed.

Lemma usables_2 a b st : usable a st -> usable b st -> Forall (fun v => usable v st) [a; b].
Proof. intros A B. apply Forall_cons. split; [done|]. by apply Forall_singleton. Qed.

(** What an earlier state may read, later ones may. *)
Ltac keep := first [done | by apply const_usable | by apply wide_usable | eapply usable_ext; [|eassumption]; keep].

Section Actions.
Context (zreg : ZydisRegister -> Z).

Lemma reg_vn_wide z bits : size (reg_vn zreg z bits) = 8 -> wide (reg_vn zreg z bits).
Proof.
  unfold reg_vn. destruct (list_find _ kRegTable) as [[i [zr [[n q] sz]]]|] eqn:E; cbn; intros S.
  - apply list_find_Some in E as (E & _). apply list_elem_of_lookup_2 in E.
    assert (F : Forall (fun t : ZydisRegister * (list Z * Z * Z) => 0 <= t.2.1.2 < 100) kRegTable) by (apply (bool_decide_unpack _); by vm_compute).
    pose proof (proj1 (Forall_forall _ _) F _ E) as H. cbn in H. unfold wide. cbn. split_and!; [done|lia|lia|done|done].
  - pose proof (Z.mod_pos_bound z 50 ltac:(lia)). unfold wide. cbn. split_and!; [done|lia|lia|done|done].
Qed.

Lemma mono_base_index m : mono (base_index zreg m).
Proof. unfold base_index. mono. Qed.
Lemma mono_add_disp d a : mono (add_disp d a).
Proof. unfold add_disp. mono. Qed.
Hint Resolve mono_base_index mono_add_disp : mono.
Lemma mono_push v : mono (push_stack_var v).
Proof. intros st. cbn. lia. Qed.
Hint Resolve mono_push : mono.
Lemma mono_address o sz : mono (effective_address zreg o sz).
Proof. unfold effective_address. mono. Qed.
Hint Resolve mono_address : mono.
Lemma mono_read i n : mono (operand_read zreg i n).
Proof. unfold operand_read. mono. Qed.
Lemma mono_write ar i n v : mono (operand_write zreg ar i n v).
Proof. unfold operand_write. mono. Qed.
Lemma mono_flags a b t : mono (emit_flags a b t).
Proof. unfold emit_flags. mono. Qed.
Lemma mono_kind c : mono (emit_kind c).
Proof. unfold emit_kind, not_v, or_v, neq_v, eq_v. mono. Qed.
Hint Resolve mono_read mono_write mono_flags mono_kind : mono.

(** ** Operands *)

Definition opt_usable (a : option Varnode) (st : lift_st) : Prop := match a with Some v => usable v st | None => True end.

Lemma swp_base_index n m (Q : option Varnode -> lift_st -> Prop) st :
  n <= next_temp_ st -> wide_reg zreg (base m) = true -> wide_reg zreg (index m) = true ->
  (forall a st', next_temp_ st <= next_temp_ st' -> ext (next_temp_ st) st st' -> opt_usable a st' -> Q a st') ->
  swp n (base_index zreg m) Q st.
Proof.
  intros Ln Wb Wi H. apply Z.eqb_eq in Wb, Wi. pose proof (reg_vn_wide _ _ Wb) as Ub. pose proof (reg_vn_wide _ _ Wi) as Ui.
  unfold base_index. destruct (no_register zreg (index m)).
  { apply swp_ret, H; [lia|apply ext_refl|]. destruct (no_register zreg (base m)); [done|]. by apply wide_usable. }
  apply swp_bind; [mono|intros; mono|].
  assert (K : forall ix st', next_temp_ st <= next_temp_ st' -> ext (next_temp_ st) st st' -> usable ix st' ->
    swp n (match (if no_register zreg (base m) then None else Some (reg_vn zreg (base m) 64)) with
      | Some a => sum ← emit_temp Ir.ADD 8 [a; ix]; mret (Some sum) | None => mret (Some ix) end) Q st').
  { intros ix st' L E U. destruct (no_register zreg (base m)); [by apply swp_ret, H|]. apply swp_bind; [mono|intros; mono|].
    apply swp_temp; [lia|apply usables_2; [by apply wide_usable|done]|done|done|]. intros v st2 L2 E2 U2.
    apply swp_ret, H; [lia|eapply ext_trans; [exact E|by eapply ext_weaken]|done]. }
  destruct (1 <? scale m).
  - apply swp_temp; [done|apply usables_2; [by apply wide_usable|by apply const_usable]|done|done|]. intros v st' L E U. by apply K.
  - apply swp_ret, K; [lia|apply ext_refl|by apply wide_usable].
Qed.

Lemma swp_add_disp n d a (Q : option Varnode -> lift_st -> Prop) st :
  n <= next_temp_ st -> opt_usable a st ->
  (forall a st', next_temp_ st <= next_temp_ st' -> ext (next_temp_ st) st st' -> opt_usable a st' -> Q a st') ->
  swp n (add_disp d a) Q st.
Proof.
  intros Ln U H. unfold add_disp. destruct (d =? 0); [by apply swp_ret, H; [lia|apply ext_refl|]|]. destruct a as [v|].
  - apply swp_bind; [mono|intros; mono|]. apply swp_temp; [done|apply usables_2; [done|by apply const_usable]|done|done|].
    intros w st' L E U'. by apply swp_ret, H.
  - apply swp_ret, H; [lia|apply ext_refl|by apply const_usable].
Qed.

(** The address of an operand, then [k]. *)
Lemma swp_linear {B} n m d (k : Varnode -> M B) Q st :
  n <= next_temp_ st -> wide_reg zreg (base m) = true -> wide_reg zreg (index m) = true -> (forall a, mono (k a)) ->
  (forall a st', next_temp_ st <= next_temp_ st' -> ext (next_temp_ st) st st' -> usable a st' -> swp n (k a) Q st') ->
  swp n (a ← base_index zreg m; a ← add_disp (disp m) a; k (default (vn_const d 8) a)) Q st.
Proof.
  intros Ln Wb Wi Mk H. apply swp_bind; [mono|intros; mono|]. apply swp_base_index; [done..|]. intros a st1 L1 E1 U1.
  apply swp_bind; [mono|intros; mono|]. apply swp_add_disp; [lia|done|]. intros b st2 L2 E2 U2.
  apply H; [lia|eapply ext_trans; [exact E1|by eapply ext_weaken]|]. destruct b; [done|by apply const_usable].
Qed.

Lemma swp_address n o sz (Q : Varnode -> lift_st -> Prop) st :
  n <= next_temp_ st -> simple_operand zreg o = true -> op_type o = OpMem ->
  (forall a st', next_temp_ st <= next_temp_ st' -> ext (next_temp_ st) st st' -> usable a st' -> Q a st') ->
  swp n (effective_address zreg o sz) Q st.
Proof.
  intros Ln S T H. unfold simple_operand in S. rewrite T, !andb_true_iff, negb_true_iff in S. destruct S as [[F Wb] Wi].
  unfold effective_address. rewrite F. destruct (negb (val o =? 0) && is_ip zreg (base (mem o))).
  - apply swp_ret, H; [lia|apply ext_refl|by apply const_usable].
  - apply (swp_linear n (mem o) (val o) mret); [done..|intros; mono|]. intros a st' L E U. by apply swp_ret, H.
Qed.

Lemma swp_read n i idx (Q : Varnode -> lift_st -> Prop) st :
  n <= next_temp_ st -> simple_operand zreg (operand i idx) = true ->
  (forall a st', next_temp_ st <= next_temp_ st' -> ext (next_temp_ st) st st' -> usable a st' -> Q a st') ->
  swp n (operand_read zreg i idx) Q st.
Proof.
  intros Ln S H. assert (Hc : forall v, is_const v = true -> swp n (mret v) Q st) by (intros v C; apply swp_ret, H; [lia|apply ext_refl|by apply const_usable]).
  unfold operand_read. destruct (op_count i <=? Z.of_nat idx); [by apply Hc|]. destruct (op_type (operand i idx)) eqn:T; [by apply Hc| |by apply Hc|].
  - apply swp_ret, H; [lia|apply ext_refl|]. apply wide_usable, reg_vn_wide. unfold simple_operand in S. rewrite T in S. by apply Z.eqb_eq.
  - apply swp_bind; [mono; apply mono_address|intros; mono|]. apply swp_address; [done..|]. intros a st1 L1 E1 U1.
    apply swp_temp; [lia|by apply usables_1|done|done|]. intros v st2 L2 E2 U2.
    apply H; [lia|eapply ext_trans; [exact E1|by eapply ext_weaken]|done].
Qed.

(** A write to a register or to memory. *)
Lemma swp_out n o v ins (Q : unit -> lift_st -> Prop) st :
  Forall (fun x => usable x st) ins -> o <> NOP -> wide v /\ o <> STORE \/ v = no_vn /\ o <> COPY ->
  (forall st', next_temp_ st' = next_temp_ st -> ext n st st' -> Q tt st') ->
  swp n (emit o v ins) Q st.
Proof.
  intros Hi No Hv H. apply swp_emit; [done|done|..].
  - intros ->. destruct Hv as [[W _]|[_ ?]]; [by destruct (wide_plain v W) as (_ & ? & _)|done].
  - intros ->. destruct Hv as [[_ ?]|[-> _]]; done.
  - destruct Hv as [[W _]|[-> _]]; [by apply wide_target|by apply const_target].
  - intros st' E X _. by apply H.
Qed.

Lemma swp_write n ar i idx v (Q : unit -> lift_st -> Prop) st :
  n <= next_temp_ st -> simple_operand zreg (operand i idx) = true -> usable v st ->
  (forall st', next_temp_ st <= next_temp_ st' -> ext n st st' -> Q tt st') ->
  swp n (operand_write zreg ar i idx v) Q st.
Proof.
  intros Ln S U H. unfold operand_write. assert (Hr : swp n (mret tt) Q st) by (apply swp_ret, H; [lia|apply ext_refl]).
  destruct (op_count i <=? Z.of_nat idx); [done|]. destruct (op_type (operand i idx)) eqn:T; [done| |done|].
  - unfold simple_operand in S. rewrite T in S. apply Z.eqb_eq, reg_vn_wide in S. set (dst := reg_vn zreg _ _) in *.
    destruct (_ && (id dst <? 16)) eqn:G; [|apply swp_out; [by apply usables_1|done|by left|]; intros st' E X; apply H; [lia|done]].
    rewrite !andb_true_iff, Z.leb_le, Z.ltb_lt in G. destruct G as [[_ G0] G1].
    set (full := vn_reg (id dst) _ 8). assert (Wf : wide full) by (unfold wide; cbn; split_and!; [done|lia|lia|done|done]).
    destruct (op_size (operand i idx) =? 32).
    + apply swp_bind; [mono|intros; mono|]. apply swp_out; [by apply usables_1|done|by left|]. intros st1 L1 E1.
      apply swp_bind; [mono|intros; mono|]. apply swp_temp; [lia|apply usables_1; by eapply usable_ext|done|done|]. intros t st2 L2 E2 U2.
      apply swp_out; [by apply usables_1|done|by left|]. intros st3 L3 E3.
      apply H; [lia|]. eapply ext_trans; [exact E1|]. eapply ext_trans; [eapply ext_weaken; [|exact E2]; lia|done].
    + apply swp_bind; [mono|intros; mono|]. apply swp_temp; [done|apply usables_2; [by apply wide_usable|by apply const_usable]|done|done|].
      intros u st1 L1 E1 U1. apply swp_bind; [mono|intros; mono|].
      apply swp_out; [apply usables_1; by eapply usable_ext|done|by left|]. intros st2 L2 E2.
      apply swp_bind; [mono|intros; mono|].
      apply swp_temp; [lia|apply usables_2; (eapply usable_ext; [|exact E2]); [done|by eapply usable_ext]|done|done|]. intros c st3 L3 E3 U3.
      apply swp_out; [by apply usables_1|done|by left|]. intros st4 L4 E4. apply H; [lia|].
      eapply ext_trans; [eapply ext_weaken; [|exact E1]; lia|]. eapply ext_trans; [exact E2|].
      eapply ext_trans; [eapply ext_weaken; [|exact E3]; lia|done].
  - apply swp_bind; [apply mono_address|intros; mono|]. apply swp_address; [done..|]. intros a st1 L1 E1 U1.
    apply swp_out; [apply usables_2; [done|by eapply usable_ext]|done|by right|]. intros st2 L2 E2.
    apply H; [lia|]. eapply ext_trans; [eapply ext_weaken; [|exact E1]; lia|done].
Qed.

(** ** Comparisons and conditions *)

Lemma swp_flag n o f ins (Q : unit -> lift_st -> Prop) st :
  Forall (fun x => usable x st) ins -> is_flag_vn f -> o <> NOP -> o <> STORE ->
  (forall st', next_temp_ st' = next_temp_ st -> ext n st st' -> usable f st' -> Q tt st') ->
  swp n (emit o f ins) Q st.
Proof.
  intros Hi F No Ns H. assert (C : is_const f = false).
  { repeat (apply elem_of_cons in F as [->|F]; [done|]). by apply not_elem_of_nil in F. }
  apply swp_emit; [done|done|done|done|by apply flag_target|]. intros st' E X U. by apply H, U.
Qed.

Lemma flags_four st : usable ZF st -> usable CF st -> usable SF st -> usable OF st -> flags_ready st.
Proof. intros A B C D v F. repeat (apply elem_of_cons in F as [->|F]; [done|]). by apply not_elem_of_nil in F. Qed.

Lemma is_flag_ZF : is_flag_vn ZF. Proof. left. Qed.
Lemma is_flag_CF : is_flag_vn CF. Proof. right; left. Qed.
Lemma is_flag_SF : is_flag_vn SF. Proof. right; right; left. Qed.
Lemma is_flag_OF : is_flag_vn OF. Proof. right; right; right; left. Qed.

Lemma swp_flags n a b t (Q : unit -> lift_st -> Prop) st :
  n <= next_temp_ st -> usable a st -> usable b st ->
  (forall st', next_temp_ st <= next_temp_ st' -> ext n st st' -> flags_ready st' -> Q tt st') ->
  swp n (emit_flags a b t) Q st.
Proof.
  intros Ln Ua Ub H. unfold emit_flags. destruct t.
  - apply swp_bind; [mono|intros; mono|]. apply swp_temp; [done|by apply usables_2|done|done|]. intros tmp s1 L1 E1 U1.
    apply swp_bind; [mono|intros; mono|]. apply swp_flag; [apply usables_2; keep|apply is_flag_ZF|done|done|]. intros s2 L2 E2 U2.
    apply swp_bind; [mono|intros; mono|]. apply swp_flag; [apply usables_2; keep|apply is_flag_SF|done|done|]. intros s3 L3 E3 U3.
    apply swp_bind; [mono|intros; mono|]. apply swp_flag; [apply usables_1; keep|apply is_flag_CF|done|done|]. intros s4 L4 E4 U4.
    apply swp_flag; [apply usables_1; keep|apply is_flag_OF|done|done|]. intros s5 L5 E5 U5.
    apply H; [lia| |apply flags_four; keep].
    apply (ext_weaken n) in E1; [|lia]. repeat (eapply ext_trans; [eassumption|]). apply ext_refl.
  - apply swp_bind; [mono|intros; mono|]. apply swp_temp; [done|by apply usables_2|done|done|]. intros d s1 L1 E1 U1.
    apply swp_bind; [mono|intros; mono|]. apply swp_flag; [apply usables_2; keep|apply is_flag_ZF|done|done|]. intros s2 L2 E2 U2.
    apply swp_bind; [mono|intros; mono|]. apply swp_flag; [apply usables_2; keep|apply is_flag_SF|done|done|]. intros s3 L3 E3 U3.
    apply swp_bind; [mono|intros; mono|]. apply swp_flag; [apply usables_2; keep|apply is_flag_CF|done|done|]. intros s4 L4 E4 U4.
    apply swp_bind; [mono|intros; mono|]. apply swp_temp; [lia|apply usables_2; keep|done|done|]. intros x1 s5 L5 E5 U5.
    apply swp_bind; [mono|intros; mono|]. apply swp_temp; [lia|apply usables_2; keep|done|done|]. intros x2 s6 L6 E6 U6.
    apply swp_bind; [mono|intros; mono|]. apply swp_temp; [lia|apply usables_2; keep|done|done|]. intros x3 s7 L7 E7 U7.
    apply swp_flag; [apply usables_2; keep|apply is_flag_OF|done|done|]. intros s8 L8 E8 U8.
    apply H; [lia| |apply flags_four; keep].
    apply (ext_weaken n) in E1, E5, E6, E7; [|lia..]. repeat (eapply ext_trans; [eassumption|]). apply ext_refl.
Qed.

Lemma swp_kind n c (Q : Varnode -> lift_st -> Prop) st :
  n <= next_temp_ st -> flags_ready st ->
  (forall v st', next_temp_ st <= next_temp_ st' -> ext (next_temp_ st) st st' -> usable v st' -> Q v st') ->
  swp n (emit_kind c) Q st.
Proof.
  intros Ln F H. pose proof (F _ is_flag_ZF) as FZ. pose proof (F _ is_flag_CF) as FC. pose proof (F _ is_flag_SF) as FS. pose proof (F _ is_flag_OF) as FO.
  assert (H0 : forall v, usable v st -> swp n (mret v) Q st) by (intros v U; apply swp_ret, H; [lia|apply ext_refl|done]).
  assert (H1 : forall o v, o <> NOP -> o <> STORE -> usable v st -> swp n (emit_temp o 1 [v]) Q st)
    by (intros o v N1 N2 U; apply swp_temp; [done|by apply usables_1|done|done|done]).
  assert (H2 : forall o v w, o <> NOP -> o <> STORE -> usable v st -> usable w st -> swp n (emit_temp o 1 [v; w]) Q st)
    by (intros o v w N1 N2 U W; apply swp_temp; [done|by apply usables_2|done|done|done]).
  destruct c; unfold emit_kind, not_v, or_v, neq_v, eq_v; try (by apply H0); try (by apply H1); try (by apply H2).
  - apply swp_bind; [mono|intros; mono|]. apply swp_temp; [done|by apply usables_2|done|done|]. intros v s1 L1 E1 U1.
    apply swp_temp; [lia|apply usables_2; keep|done|done|]. intros w s2 L2 E2 U2. apply H; [lia| |done].
    eapply ext_trans; [exact E1|]. eapply ext_weaken; [|exact E2]; lia.
  - apply swp_bind; [mono|intros; mono|]. apply swp_temp; [done|by apply usables_2|done|done|]. intros v s1 L1 E1 U1.
    apply swp_bind; [mono|intros; mono|]. apply swp_temp; [lia|apply usables_2; keep|done|done|]. intros w s2 L2 E2 U2.
    apply swp_temp; [lia|apply usables_1; keep|done|done|]. intros u s3 L3 E3 U3. apply H; [lia| |done].
    eapply ext_trans; [exact E1|]. eapply ext_trans; (eapply ext_weaken; [|eassumption]; lia).
  - apply swp_bind; [mono|intros; mono|]. apply swp_temp; [done|by apply usables_2|done|done|]. intros v s1 L1 E1 U1.
    apply swp_temp; [lia|apply usables_1; keep|done|done|]. intros u s3 L3 E3 U3. apply H; [lia| |done].
    eapply ext_trans; [exact E1|]. eapply ext_weaken; [|eassumption]; lia.
Qed.
End Actions.
#[export] Hint Resolve mono_base_index mono_add_disp mono_push mono_address mono_read mono_write mono_flags mono_kind : mono.
