(* ===== verification/LiftFn.v ===== *)
(** * Lifted functions satisfy the assumptions of SSA construction: lifter.cpp, [lift]

    Instruction by instruction, then block by block with the temporaries numbered on,
    then for the graph of the blocks. *)

From S2P Require Import Prelude Ir Ssa Dom Phi CopyProp Build Lifter Lifted.
From S2P Require Dce.

#[local] Open Scope Z_scope.

Section Lift.
Context (zreg : ZydisRegister -> Z).
(** ** Instructions *)

Context (zmnemonic : ZydisMnemonic -> Z) (fmt_X : Z -> list Z) (format_text : Insn -> Arch -> list Z).

#[local] Abbreviation done_ := (fun _ _ => True).

Lemma rax_wide : wide rax. Proof. done. Qed.
Lemma rsp_wide : wide rsp. Proof. done. Qed.

Lemma const_usables l st : Forall (fun v => is_const v = true) l -> Forall (fun v => usable v st) l.
Proof. intros H. eapply Forall_impl; [exact H|]. intros v. apply const_usable. Qed.

Lemma swp_copy_wide n v w st : wide v -> usable w st -> swp n (emit COPY v [w]) done_ st.
Proof. intros W U. apply swp_out; [by apply usables_1|done|by left|done]. Qed.

Lemma swp_effect n o ins st : Forall (fun x => usable x st) ins -> o <> NOP -> o <> COPY -> swp n (emit o no_vn ins) done_ st.
Proof. intros U N C. apply swp_out; [done|done|by right|done]. Qed.

Lemma swp_write_last n ar i idx v st :
  n <= next_temp_ st -> simple_operand zreg (operand i idx) = true -> usable v st -> swp n (operand_write zreg ar i idx v) done_ st.
Proof. intros L S U. by apply swp_write. Qed.

Lemma swp_unary n ar i src o sz more st :
  n <= next_temp_ st -> simple_operand zreg (operand i src) = true -> simple_operand zreg (operand i 0) = true ->
  o <> NOP -> o <> STORE -> (forall v, Forall (fun w => is_const w = true) (more v)) ->
  swp n (lift_unary zreg ar i src o sz more) done_ st.
Proof.
  intros Ln Ss S0 No Ns C. apply swp_bind; [mono|intros; mono|]. apply swp_read; [done|done|]. intros v s1 L1 E1 U1.
  apply swp_bind; [mono|intros; mono|]. apply swp_temp; [lia|constructor; [done|by apply const_usables]|done|done|]. intros r s2 L2 E2 U2.
  apply swp_write_last; [lia|done|done].
Qed.

Lemma swp_lea n i st :
  n <= next_temp_ st -> simple_operand zreg (operand i 0) = true -> simple_operand zreg (operand i 1) = true ->
  swp n (lift_lea zreg i) done_ st.
Proof.
  intros Ln S0 S1. unfold lift_lea. destruct (bool_decide (op_type (operand i 0) = OpReg)) eqn:T0; [|by apply swp_ret].
  destruct (bool_decide (op_type (operand i 1) = OpMem)) eqn:T1; [|by apply swp_ret]. apply bool_decide_eq_true in T0, T1. cbn.
  unfold simple_operand in S0, S1. rewrite T0 in S0. rewrite T1, !andb_true_iff in S1. destruct S1 as [[_ Wb] Wi].
  apply Z.eqb_eq, reg_vn_wide in S0. destruct (_ && is_ip _ _); [by apply swp_copy_wide; [|apply const_usable]|].
  apply swp_bind; [mono|intros; mono|]. apply swp_base_index; [done..|]. intros a s1 L1 E1 U1.
  apply swp_bind; [mono|intros; mono|]. apply swp_add_disp; [lia|done|]. intros b s2 L2 E2 U2.
  apply swp_copy_wide; [done|]. destruct b; [done|by apply const_usable].
Qed.

Lemma swp_binary n ar i st :
  n <= next_temp_ st -> simple_operand zreg (operand i 0) = true -> simple_operand zreg (operand i 1) = true ->
  swp n (lift_binary zreg ar i) done_ st.
Proof.
  intros Ln S0 S1. apply swp_bind; [mono|intros; destruct (zeroing i); mono|]. apply swp_read; [done|done|]. intros a s1 L1 E1 U1.
  apply swp_bind; [mono|intros; destruct (zeroing i); mono|]. apply swp_read; [lia|done|]. intros b s2 L2 E2 U2.
  destruct (zeroing i); [apply swp_write_last; [lia|done|by apply const_usable]|].
  apply swp_bind; [mono|intros; mono|].
  apply swp_temp; [lia|apply usables_2; keep|by destruct (type i)|by destruct (type i)|]. intros r s3 L3 E3 U3.
  apply swp_write_last; [lia|done|done].
Qed.

(** A product goes to a temporary allocated before its operands are read. *)
Lemma swp_product n s0 v ins (Q : unit -> lift_st -> Prop) st :
  v = vn_temp (next_temp_ s0) 8 -> n <= next_temp_ s0 -> 0 <= next_temp_ s0 -> next_temp_ s0 + 1 <= next_temp_ st ->
  (forall z, (z, vkey v) ∉ seen_of (out_ops st)) -> Forall (fun x => usable x st) ins ->
  (forall st', next_temp_ st' = next_temp_ st -> usable v st' -> Q tt st') ->
  swp n (emit INT_MULT v ins) Q st.
Proof.
  intros -> Ln N0 L F Hi H Lm I. revert Lm I. cbn [emit next_temp_ snd]. intros Lm I.
  destruct (plain_temp (next_temp_ s0) 8 ltac:(cbn in Lm; lia)) as [P K].
  apply (swp_emit n); [done|done|done|done| |intros st' E X U; by apply H, U|exact Lm|exact I].
  split; [done|right]. rewrite K. split; [right; right; cbn; lia|]. intros _. rewrite K in F. split; [lia|exact F].
Qed.

Lemma swp_inv {A} n (m : M A) Q st : (inv st -> swp n m Q st) -> swp n m Q st.
Proof. intros H L I. by apply H. Qed.

Lemma still_fresh s0 s1 s2 :
  inv s0 -> out_ops s1 = out_ops s0 -> ext (next_temp_ s0 + 1) s1 s2 ->
  forall z, (z, vkey (vn_temp (next_temp_ s0) 8)) ∉ seen_of (out_ops s2).
Proof.
  intros I O [_ E] z Hz. change (vkey (vn_temp (next_temp_ s0) 8)) with (1000 + next_temp_ s0) in Hz. pose proof (in_next _ I).
  apply E in Hz as [Hz|Hz]; cbn in *; [|lia]. rewrite O in Hz. apply (in_seen _ I) in Hz. unfold width_ok in Hz. cbn in Hz. lia.
Qed.

Lemma mono_mul ar i : mono (lift_mul zreg ar i).
Proof. unfold lift_mul. mono. Qed.

Lemma swp_mul n ar i st :
  n <= next_temp_ st -> simple_operand zreg (operand i 0) = true -> simple_operand zreg (operand i 1) = true ->
  simple_operand zreg (operand i 2) = true -> swp n (lift_mul zreg ar i) done_ st.
Proof.
  intros Ln S0 S1 S2. apply swp_inv. intros I. apply swp_bind; [mono|intros; mono|]. apply swp_alloc. intros s1 L1 O1 _.
  pose proof (in_next _ I) as N0.
  destruct (op_count i =? 1); [|assert (Two : forall a b, simple_operand zreg (operand i a) = true -> simple_operand zreg (operand i b) = true ->
      swp n (lhs ← operand_read zreg i a; rhs ← operand_read zreg i b;
             _ ← emit INT_MULT (vn_temp (next_temp_ st) 8) [lhs; rhs]; operand_write zreg ar i 0 (vn_temp (next_temp_ st) 8)) done_ s1)].
  - apply swp_bind; [mono|intros; mono|]. apply swp_read; [lia|done|]. intros v s2 L2 E2 U2. rewrite L1 in E2.
    apply swp_bind; [mono|intros; mono|]. apply (swp_product n st); [done|done|done|lia|by eapply still_fresh| |].
    + apply usables_2; [by apply wide_usable|done].
    + intros s3 L3 U3. by apply swp_copy_wide.
  - intros a b Sa Sb. apply swp_bind; [mono|intros; mono|]. apply swp_read; [lia|done|]. intros v s2 L2 E2 U2. rewrite L1 in E2.
    apply swp_bind; [mono|intros; mono|]. apply swp_read; [lia|done|]. intros w s3 L3 E3 U3.
    assert (U : Forall (fun x => usable x s3) [v; w]) by (apply usables_2; keep).
    assert (E : ext (next_temp_ st + 1) s1 s3) by (eapply ext_trans; [exact E2|]; eapply ext_weaken; [|exact E3]; lia).
    apply swp_bind; [mono|intros; mono|]. apply (swp_product n st); [done|done|done|lia|by eapply still_fresh|done|].
    + intros s4 L4 U4. apply swp_write_last; [lia|done|done].
  - destruct (op_count i =? 2); [by apply Two|]. destruct (op_count i =? 3); [by apply Two|]. by apply swp_ret.
Qed.

Lemma swp_push db n i st :
  n <= next_temp_ st -> simple_operand zreg (operand i 0) = true -> swp n (lift_push zreg db i) done_ st.
Proof.
  intros Ln S0. apply swp_bind; [mono|intros; mono|]. apply swp_read; [done|done|]. intros v s1 L1 E1 U1.
  apply swp_bind; [mono|intros; mono|]. apply swp_temp; [lia|apply usables_2; keep|done|done|]. intros p s2 L2 E2 U2.
  apply swp_bind; [mono|intros; mono|]. apply swp_out; [by apply usables_1|done|by left|]. intros s3 L3 E3.
  apply swp_effect; [apply usables_2; keep|done|done].
Qed.

Lemma swp_pop db n i st :
  n <= next_temp_ st -> simple_operand zreg (operand i 0) = true -> swp n (lift_pop zreg db i) done_ st.
Proof.
  intros Ln S0. apply swp_bind; [mono|intros; mono|]. apply swp_temp; [done|apply usables_1; keep|done|done|]. intros v s1 L1 E1 U1.
  apply swp_bind; [mono|intros; mono|]. apply swp_write; [lia|done|done|]. intros s2 L2 E2.
  apply swp_bind; [mono|intros; mono|]. apply swp_temp; [lia|apply usables_2; keep|done|done|]. intros p s3 L3 E3 U3.
  by apply swp_copy_wide.
Qed.

Lemma swp_call db n i st : swp n (lift_call fmt_X db i) done_ st.
Proof.
  unfold lift_call. destruct (bool_decide _); (apply swp_out; [|done|by left|done]);
    repeat (apply Forall_cons; split); try apply Forall_nil_2; first [by apply const_usable|by apply wide_usable].
Qed.

Lemma swp_mark n (Q : unit -> lift_st -> Prop) st : (forall st', next_temp_ st' = next_temp_ st -> Q tt st') -> swp n mark_return Q st.
Proof.
  intros H L [I1 I2 I3 I4 I5 I6]. cbn [mark_return fst snd]. split_and!; [by split|split; [done|by left]|by apply H].
Qed.

Lemma mono_mark : mono mark_return.
Proof. intros st. cbn. lia. Qed.

Lemma mono_unary ar i src o sz more : mono (lift_unary zreg ar i src o sz more).
Proof. unfold lift_unary. mono. Qed.
Lemma mono_lea i : mono (lift_lea zreg i).
Proof. unfold lift_lea. mono. Qed.
Lemma mono_binary ar i : mono (lift_binary zreg ar i).
Proof. unfold lift_binary. apply mono_bind; [mono|]. intros a. apply mono_bind; [mono|]. intros b. destruct (zeroing i); mono. Qed.
Lemma mono_lift_push db i : mono (lift_push zreg db i).
Proof. unfold lift_push. mono. Qed.
Lemma mono_pop db i : mono (lift_pop zreg db i).
Proof. unfold lift_pop. mono. Qed.
Lemma mono_call db i : mono (lift_call fmt_X db i).
Proof. unfold lift_call. mono. Qed.
Lemma mono_other db i : mono (lift_other format_text db i).
Proof. unfold lift_other. mono. Qed.
#[local] Hint Resolve mono_mark mono_mul mono_unary mono_lea mono_binary mono_lift_push mono_pop mono_call mono_other : mono.

Lemma mono_body db i : mono (lift_body zreg zmnemonic fmt_X format_text db i).
Proof. unfold lift_body, emit_condition. destruct (type i); mono. Qed.

Lemma swp_weaken {A} n k (m : M A) Q (Q' : A -> lift_st -> Prop) st :
  n <= k -> (forall a st', Q a st' -> Q' a st') -> swp k m Q st -> swp n m Q' st.
Proof. intros L H W Lm I. destruct (W Lm I) as (I' & E & HQ). split_and!; [done|by eapply ext_weaken|by apply H]. Qed.

(** Instructions that read the flags, and that set them. *)
Definition reads_flags (t : InsnType) : bool := match t with Jcc | Setcc => true | _ => false end.
Definition sets_flags (t : InsnType) : bool := match t with Cmp | Test => true | _ => false end.

Lemma swp_mov n ar i st :
  n <= next_temp_ st -> simple_operand zreg (operand i 0) = true -> simple_operand zreg (operand i 1) = true ->
  swp n (v ← operand_read zreg i 1; operand_write zreg ar i 0 v) done_ st.
Proof.
  intros Ln S0 S1. apply swp_bind; [mono|intros; mono|]. apply swp_read; [lia|done|]. intros v s1 L1 E1 U1.
  apply swp_write_last; [lia|done|done].
Qed.

Lemma swp_div n i o st :
  n <= next_temp_ st -> simple_operand zreg (operand i 0) = true -> o <> NOP -> o <> STORE ->
  swp n (src ← operand_read zreg i 0; result ← emit_temp o 8 [rax; src]; emit COPY rax [result]) done_ st.
Proof.
  intros Ln S0 N1 N2. apply swp_bind; [mono|intros; mono|]. apply swp_read; [lia|done|]. intros v s1 L1 E1 U1.
  apply swp_bind; [mono|intros; mono|]. apply swp_temp; [lia|apply usables_2; keep|done|done|]. intros w s2 L2 E2 U2.
  by apply swp_copy_wide.
Qed.

Lemma swp_setcc n ar i st :
  n <= next_temp_ st -> flags_ready st -> simple_operand zreg (operand i 0) = true ->
  swp n (result ← emit_condition zmnemonic i; final ← emit_temp INT_ZEXT 1 [result]; operand_write zreg ar i 0 final) done_ st.
Proof.
  intros Ln F S0. unfold emit_condition. apply swp_bind; [mono|intros; mono|]. apply swp_kind; [lia|done|]. intros v s1 L1 E1 U1.
  apply swp_bind; [mono|intros; mono|]. apply swp_temp; [lia|apply usables_1; keep|done|done|]. intros w s2 L2 E2 U2.
  apply swp_write_last; [lia|done|done].
Qed.

Lemma swp_jcc n i st :
  n <= next_temp_ st -> flags_ready st ->
  swp n (cond_val ← emit_condition zmnemonic i; emit CBRANCH no_vn [vn_const (branch_target i) 8; cond_val]) done_ st.
Proof.
  intros Ln F. unfold emit_condition. apply swp_bind; [mono|intros; mono|]. apply swp_kind; [lia|done|]. intros v s1 L1 E1 U1.
  apply swp_effect; [apply usables_2; keep|done|done].
Qed.

Lemma swp_return n st : swp n (_ ← mark_return; emit RETURN no_vn [rax]) done_ st.
Proof.
  apply swp_bind; [apply mono_mark|intros; mono|]. apply swp_mark. intros s1 L1. apply swp_effect; [apply usables_1; keep|done|done].
Qed.

Lemma swp_compare n i t st :
  n <= next_temp_ st -> simple_operand zreg (operand i 0) = true -> simple_operand zreg (operand i 1) = true ->
  swp n (lhs ← operand_read zreg i 0; rhs ← operand_read zreg i 1; emit_flags lhs rhs t) (fun _ st' => flags_ready st') st.
Proof.
  intros Ln S0 S1. apply swp_bind; [mono|intros; mono|]. apply swp_read; [lia|done|]. intros a s1 L1 E1 U1.
  apply swp_bind; [mono|intros; mono|]. apply swp_read; [lia|done|]. intros b s2 L2 E2 U2. apply swp_flags; [lia|keep|done|done].
Qed.

Lemma swp_body db i st :
  simple_insn zreg i = true -> (reads_flags (type i) = true -> flags_ready st) ->
  swp (next_temp_ st) (lift_body zreg zmnemonic fmt_X format_text db i) (fun _ st' => sets_flags (type i) = true -> flags_ready st') st.
Proof.
  unfold simple_insn. rewrite !andb_true_iff. intros [[[Sp S0] S1] S2] F. set (n := next_temp_ st).
  assert (Ln : n <= next_temp_ st) by (unfold n; lia).
  assert (W : forall m : M unit, sets_flags (type i) = false -> swp n m done_ st ->
    swp n m (fun _ st' => sets_flags (type i) = true -> flags_ready st') st).
  { intros m N H. eapply swp_weaken; [| |exact H]; [lia|]. intros a st' _. by rewrite N. }
  assert (C : forall t, swp n (lhs ← operand_read zreg i 0; rhs ← operand_read zreg i 1; emit_flags lhs rhs t)
    (fun _ st' => sets_flags (type i) = true -> flags_ready st') st).
  { intros t. eapply swp_weaken; [| |by apply (swp_compare n i t)]; [lia|done]. }
  assert (U : forall src o sz more, simple_operand zreg (operand i src) = true -> o <> NOP -> o <> STORE ->
    (forall v, Forall (fun w => is_const w = true) (more v)) -> swp n (lift_unary zreg (arch db) i src o sz more) done_ st)
    by (intros; by apply swp_unary).
  unfold lift_body. destruct (type i) eqn:T; try discriminate Sp;
    lazymatch goal with
    | |- swp _ (_ ← _; _ ← _; emit_flags _ _ ?t) _ _ => exact (C t)
    | |- _ => apply W; [done|]
    end;
    lazymatch goal with
    | |- swp _ (lift_binary _ _ _) _ _ => by apply swp_binary
    | |- swp _ (lift_mul _ _ _) _ _ => by apply swp_mul
    | |- swp _ (lift_lea _ _) _ _ => by apply swp_lea
    | |- swp _ (lift_push _ _ _) _ _ => by apply swp_push
    | |- swp _ (lift_pop _ _ _) _ _ => by apply swp_pop
    | |- swp _ (lift_call _ _ _) _ _ => apply swp_call
    | |- swp _ (lift_unary _ _ _ _ _ _ _) _ _ => apply U; [done|done|done|]; intros v; repeat constructor
    | |- swp _ (mret _) _ _ => by apply swp_ret
    | |- swp _ (emit _ _ _) _ _ => apply swp_effect; [apply usables_1; keep|done|done]
    | |- swp _ (_ ← mark_return; _) _ _ => apply swp_return
    | |- swp _ (_ ← emit_condition _ _; _ ← _; _) _ _ => apply swp_setcc; [done|by apply F|done]
    | |- swp _ (_ ← emit_condition _ _; _) _ _ => apply swp_jcc; [done|by apply F]
    | |- swp _ (_ ← _; _ ← _; _) _ _ => apply swp_div; [done|done|by case_bool_decide|by case_bool_decide]
    | |- _ => by apply swp_mov
    end.
Qed.

Lemma flags_local_cons seen i l :
  flags_local seen (i :: l) = (negb (reads_flags (type i)) || seen) && flags_local (sets_flags (type i) || seen) l.
Proof. cbn. destruct (type i); cbn; by try rewrite andb_false_r; try destruct seen. Qed.

Lemma swp_insn db i st :
  simple_insn zreg i = true -> (reads_flags (type i) = true -> flags_ready st) ->
  swp (next_temp_ st) (lift_insn zreg zmnemonic fmt_X format_text db i) (fun _ st' => sets_flags (type i) = true -> flags_ready st') st.
Proof.
  intros S F L [I1 I2 I3 I4 I5 I6].
  set (s1 := (start_insn (i_addr i) st).2). assert (I' : inv s1) by (split; try done; cbn; lia).
  destruct (swp_body db i s1 S F L I') as (A & [B1 B2] & C). split_and!; [exact A|by split|exact C].
Qed.

Lemma swp_insns db l m seen st :
  mono m -> swp 0 m (fun _ st' => seen = true -> flags_ready st') st ->
  forallb (simple_insn zreg) l = true -> flags_local seen l = true ->
  swp 0 (foldl (fun m i => _ ← m; lift_insn zreg zmnemonic fmt_X format_text db i) m l) done_ st /\  mono (foldl (fun m i => _ ← m; lift_insn zreg zmnemonic fmt_X format_text db i) m l).
Proof.
  revert m seen. induction l as [|i l IH]; intros m seen Mo H S F.
  { split; [by eapply swp_weaken; [| |exact H]|exact Mo]. }
  cbn in S. apply andb_true_iff in S as [S Sl]. rewrite flags_local_cons in F. apply andb_true_iff in F as [Fi Fl].
  assert (Mi : mono (lift_insn zreg zmnemonic fmt_X format_text db i)).
  { intros s. unfold lift_insn. etrans; [|apply (mono_body db i)]. cbn. lia. }
  apply (IH _ (sets_flags (type i) || seen)); [by apply mono_bind| |done|done].
  apply swp_bind; [done|done|]. eapply swp_weaken; [| |exact H]; [lia|]. cbn. intros _ s1 F1. apply swp_inv. intros I1.
  assert (F2 : reads_flags (type i) = true -> flags_ready s1) by (intros R; apply F1; by destruct (reads_flags (type i))).
  intros Lm I. destruct (swp_insn db i s1 S F2 Lm I) as (A & B & C).
  split_and!; [exact A|eapply ext_weaken; [|exact B]; apply I|]. intros [X|X]%orb_true_iff; [by apply C|].
  eapply flags_ready_ext; [by apply F1|exact B].
Qed.

Lemma lift_block_inv db bb n sv :
  0 <= n -> forallb (simple_insn zreg) (insns bb) = true -> flags_local false (insns bb) = true ->
  let r := lift_block zreg zmnemonic fmt_X format_text db bb (n, sv) in
  n <= next_temp_ r /\ (next_temp_ r <= 1000 -> inv r).
Proof.
  intros N S F r. set (s0 := mk_lift n 0 0 sv [] false).
  assert (I0 : inv s0) by (split; try done; intros p Hp; by apply not_elem_of_nil in Hp).
  destruct (swp_insns db (insns bb) (mret tt) false s0) as [W Mo]; [mono|by apply swp_ret|done|done|].
  split; [exact (Mo s0)|]. intros L. exact (proj1 (W L I0)).
Qed.
End Lift.

(** ** The graph of the blocks *)

Definition but_preds (b : PcodeBlock) : Z * list PcodeInsn * list Z := (b_addr b, ops b, succs b).

Lemma add_pred_keeps i bs s : but_preds <$> add_pred i bs s = but_preds <$> bs.
Proof.
  unfold add_pred. destruct (_ && _); [|done]. rewrite (list_fmap_alter _ _ (fun t => t)); [|by apply Forall_forall].
  apply list_eq. intros k. rewrite list_lookup_alter. case_decide as E; [|done]. rewrite E. by destruct (_ !! k).
Qed.

Lemma add_preds_keeps i l bs : but_preds <$> foldl (add_pred i) bs l = but_preds <$> bs.
Proof. revert bs; induction l as [|s l IH]; intros bs; [done|]. cbn. by rewrite IH, add_pred_keeps. Qed.

Lemma build_preds_keeps bs : but_preds <$> build_preds bs = but_preds <$> bs.
Proof.
  unfold build_preds. generalize (List.seq 0 (length bs)) as l. intros l. revert bs. induction l as [|k l IH]; intros bs; [done|].
  cbn. by rewrite IH, add_preds_keeps.
Qed.

Lemma add_pred_same i bs s c : 0 <= c < zlen bs -> block_preds (add_pred i bs s) c = block_preds bs c ++ (if decide (c = s) then [i] else []).
Proof.
  intros Hc. unfold add_pred, block_preds. destruct ((0 <=? s) && (s <? zlen bs)) eqn:B.
  - rewrite list_lookup_alter. case_decide as E; case_decide as E'; [|lia|lia|by rewrite app_nil_r].
    rewrite E. destruct (lookup_lt_is_Some_2 bs (Z.to_nat c)) as [b ->]; [unfold zlen in *; lia|done].
  - apply andb_false_iff in B. rewrite Z.leb_gt, Z.ltb_ge in B. case_decide; [lia|by rewrite app_nil_r].
Qed.

Lemma length_keeps (bs bs' : list PcodeBlock) : but_preds <$> bs = but_preds <$> bs' -> zlen bs = zlen bs'.
Proof. intros H. apply (f_equal length) in H. rewrite !length_fmap in H. unfold zlen. by rewrite H. Qed.

Lemma add_preds_same i l bs c : NoDup l -> 0 <= c < zlen bs ->
  block_preds (foldl (add_pred i) bs l) c = block_preds bs c ++ (if decide (c ∈ l) then [i] else []).
Proof.
  intros N. revert bs. induction N as [|s l Ns N IH]; intros bs Hc; cbn [foldl].
  - destruct (decide (c ∈ [])) as [H|]; [by apply not_elem_of_nil in H|by rewrite app_nil_r].
  - rewrite IH, add_pred_same by (by rewrite ?(length_keeps _ bs (add_pred_keeps i bs s))).
    rewrite <-app_assoc. f_equal. destruct (decide (c = s)) as [->|E].
    + by rewrite (decide_False (P := s ∈ l)), decide_True by (done || by left).
    + cbn. destruct (decide (c ∈ l)) as [H|H]; [by rewrite decide_True by by right|].
      rewrite decide_False; [done|]. by intros [?|?]%elem_of_cons.
Qed.

(** A block comes once among the predecessors when successors are not repeated. *)
Lemma build_preds_nodup bs c :
  0 <= c < zlen bs -> Forall (fun b => preds b = [] /\ NoDup (succs b)) bs -> NoDup (block_preds (build_preds bs) c).
Proof.
  intros Hc F. unfold build_preds.
  assert (H : forall m k acc, but_preds <$> acc = but_preds <$> bs -> NoDup (block_preds acc c) -> (forall p, p ∈ block_preds acc c -> p < Z.of_nat k) ->
    NoDup (block_preds (foldl (fun acc i => foldl (add_pred (Z.of_nat i)) acc (from_option succs [] (acc !! i))) acc (List.seq k m)) c)).
  { induction m as [|m IH]; intros k acc K N B; [done|]. cbn [List.seq foldl].
    assert (Ns : NoDup (from_option succs [] (acc !! k))).
    { assert (E : but_preds <$> acc !! k = but_preds <$> bs !! k) by (by rewrite <-!list_lookup_fmap, K).
      destruct (acc !! k) as [b|]; [|constructor]. cbn in *. destruct (bs !! k) as [b'|] eqn:Eb; [|done]. injection E as _ _ ->.
      by apply (proj1 (Forall_lookup _ _) F _ _ Eb). }
    assert (E : block_preds (foldl (add_pred (Z.of_nat k)) acc (from_option succs [] (acc !! k))) c =
      block_preds acc c ++ (if decide (c ∈ from_option succs [] (acc !! k)) then [Z.of_nat k] else []))
      by (apply add_preds_same; [done|by rewrite (length_keeps acc bs K)]).
    apply IH; [by rewrite add_preds_keeps| |].
    - rewrite E. apply NoDup_app. split_and!; [done| |case_decide; [apply NoDup_singleton|constructor]].
      intros p Hp Hq. specialize (B p Hp). case_decide; [|by apply not_elem_of_nil in Hq]. apply list_elem_of_singleton in Hq. lia.
    - intros p. rewrite E, elem_of_app. intros [Hp|Hp]; [specialize (B p Hp); lia|].
      case_decide; [|by apply not_elem_of_nil in Hp]. apply list_elem_of_singleton in Hp. lia. }
  assert (N0 : block_preds bs c = []).
  { unfold block_preds. destruct (bs !! Z.to_nat c) as [b|] eqn:Eb; [|done]. by apply (proj1 (Forall_lookup _ _) F _ _ Eb). }
  apply H; [done|rewrite N0; constructor|]. rewrite N0. intros p Hp. by apply not_elem_of_nil in Hp.
Qed.

(** ** The lifted function *)

(** Functions whose blocks are simple: each starts at its key, is entered by at most one
    edge from another, and the entry block by none. *)
Record simple_function (zreg : ZydisRegister -> Z) (fn : Function) : Prop := mk_simple_function {
  sf_entry : is_Some (fn_blocks fn !! fn_entry fn);
  sf_blocks : forall a bb, fn_blocks fn !! a = Some bb ->
    bb_start bb = a /\ forallb (simple_insn zreg) (insns bb) = true /\ flags_local false (insns bb) = true /\
    NoDup (bb_succs bb) /\ fn_entry fn ∉ bb_succs bb
}.

Section Function.
Context (zreg : ZydisRegister -> Z) (zmnemonic : ZydisMnemonic -> Z) (fmt_X : Z -> list Z) (format_text : Insn -> Arch -> list Z).
Context (db : AnalysisDB) (fn : Function).

#[local] Abbreviation lift_block := (Lifter.lift_block zreg zmnemonic fmt_X format_text db).
#[local] Abbreviation lift_blocks := (Lifter.lift_blocks zreg zmnemonic fmt_X format_text db fn).
#[local] Abbreviation lifted := (lift zreg zmnemonic fmt_X format_text db fn).

(** [b] is the block at [a], lifted from some temporary on, up to [N]. *)
Definition lifted_from (N a : Z) (b : PcodeBlock) : Prop :=
  exists bb n sv, fn_blocks fn !! a = Some bb /\ 0 <= n /\ next_temp_ (lift_block bb (n, sv)) <= N /\
    but_preds b = (bb_start bb, out_ops (lift_block bb (n, sv)), omap (addr_to_block fn) (bb_succs bb)) /\ preds b = [].

Lemma mono_insns l m : mono m -> mono (foldl (fun m i => _ ← m; lift_insn zreg zmnemonic fmt_X format_text db i) m l).
Proof.
  revert m. induction l as [|i l IH]; intros m Mo; [done|]. cbn. apply IH, mono_bind; [done|]. intros _ s. unfold lift_insn.
  etrans; [|apply (mono_body zreg zmnemonic fmt_X format_text db i)]. cbn. lia.
Qed.

Lemma lift_block_mono bb n sv : n <= next_temp_ (lift_block bb (n, sv)).
Proof. apply (mono_insns (insns bb) (mret tt) (mono_ret tt) (mk_lift n 0 0 sv [] false)). Qed.

Lemma lift_blocks_spec order i n sv :
  0 <= n -> (forall a, a ∈ order -> is_Some (fn_blocks fn !! a)) ->
  let r := lift_blocks i order (n, sv) in n <= r.2.1 /\ Forall2 (lifted_from r.2.1) order r.1.
Proof.
  revert i n sv. induction order as [|a order IH]; intros i n sv Hn Ho; [by split; [cbn; lia|constructor]|].
  destruct (Ho a ltac:(by left)) as [bb Eb]. pose proof (lift_block_mono bb n sv) as L.
  cbn [Lifter.lift_blocks]. rewrite Eb. cbn zeta. set (r := lift_block bb (n, sv)) in *.
  destruct (IH (i + 1) (next_temp_ r) (stack_vars_ r) ltac:(lia) ltac:(intros c Hc; apply Ho; by right)) as [L2 F].
  destruct (lift_blocks (i + 1) order (next_temp_ r, stack_vars_ r)) as [bs0 st0]. cbn in *. split; [lia|].
  constructor; [|done]. exists bb, n, sv. split_and!; [done|done|done|done|done].
Qed.

Lemma elem_of_block_order a : a ∈ block_order fn <-> is_Some (fn_blocks fn !! a).
Proof.
  unfold block_order. rewrite merge_sort_Permutation, list_elem_of_fmap. split.
  - intros ([b bb] & -> & H%elem_of_map_to_list). by exists bb.
  - intros [bb H]. exists (a, bb). split; [done|]. by apply elem_of_map_to_list.
Qed.

Lemma addr_to_block_at a i : addr_to_block fn a = Some i -> block_order fn !! Z.to_nat i = Some a.
Proof.
  unfold addr_to_block. destruct (list_find _ _) as [[k b]|] eqn:E; [|done]. intros [= <-]. cbn. rewrite Nat2Z.id.
  by apply list_find_Some in E as (E & -> & _).
Qed.

Lemma omap_addr_nodup l : NoDup l -> NoDup (omap (addr_to_block fn) l).
Proof.
  induction 1 as [|a l Na N IH]; [constructor|]. cbn. destruct (addr_to_block fn a) as [i|] eqn:E; [|done].
  constructor; [|done]. intros (b & Hb & Eb)%list_elem_of_omap. apply addr_to_block_at in E, Eb. congruence.
Qed.

Definition raw_blocks : list PcodeBlock := (lift_blocks 0 (block_order fn) (256, [])).1.
Definition last_temp : Z := (lift_blocks 0 (block_order fn) (256, [])).2.1.

Lemma lifted_blocks : blocks lifted = build_preds raw_blocks /\ entry lifted = fn_entry fn /\ next_temp lifted = last_temp.
Proof. unfold lift, raw_blocks, last_temp. by destruct (lift_blocks 0 _ _) as [bs0 st0]. Qed.

Lemma raw_blocks_spec : Forall2 (lifted_from last_temp) (block_order fn) raw_blocks.
Proof. apply lift_blocks_spec; [lia|]. intros a. apply elem_of_block_order. Qed.

(** A block of the function, by its position. *)
Lemma lifted_at i b :
  blocks lifted !! i = Some b -> exists a c, block_order fn !! i = Some a /\ lifted_from last_temp a c /\ but_preds b = but_preds c.
Proof.
  intros Hb. destruct lifted_blocks as (E & _). assert (K : but_preds <$> blocks lifted !! i = but_preds <$> raw_blocks !! i).
  { by rewrite <-!list_lookup_fmap, E, build_preds_keeps. }
  rewrite Hb in K. destruct (raw_blocks !! i) as [c|] eqn:Ec; [|done]. injection K as K.
  destruct (Forall2_lookup_r _ _ _ _ _ raw_blocks_spec Ec) as (a & Ha & L). exists a, c. split_and!; [done|done|].
  unfold but_preds. congruence.
Qed.

Lemma raw_length : length raw_blocks = length (block_order fn).
Proof. symmetry. apply (Forall2_length _ _ _ raw_blocks_spec). Qed.

Context (S : simple_function zreg fn) (T : last_temp <= 1000).

Lemma lifted_ops b : b ∈ blocks lifted -> exists st, inv st /\ ops b = out_ops st.
Proof using S T.
  intros [i Hb]%list_elem_of_lookup. apply lifted_at in Hb as (a & c & _ & (bb & n & sv & Ebb & Hn & Ln & Ec & _) & K).
  rewrite Ec in K. injection K as _ K _. destruct (sf_blocks _ _ S a bb Ebb) as (_ & Si & Fl & _).
  destruct (lift_block_inv zreg zmnemonic fmt_X format_text db bb n sv Hn Si Fl) as [_ I].
  eexists. split; [apply I; lia|exact K].
Qed.

Lemma lifted_succs i b : blocks lifted !! i = Some b ->
  exists a bb, block_order fn !! i = Some a /\ fn_blocks fn !! a = Some bb /\ b_addr b = a /\ succs b = omap (addr_to_block fn) (bb_succs bb).
Proof using S.
  intros (a & c & Ha & (bb & n & sv & Ebb & _ & _ & Ec & _) & K)%lifted_at. rewrite Ec in K. injection K as K1 _ K2.
  exists a, bb. split_and!; [done|done| |done]. rewrite K1. by apply (sf_blocks _ _ S a bb Ebb).
Qed.

Lemma lifted_length : length (blocks lifted) = length (block_order fn).
Proof.
  destruct lifted_blocks as (E & _). rewrite E, <-raw_length.
  pose proof (f_equal length (build_preds_keeps raw_blocks)) as L. by rewrite !length_fmap in L.
Qed.

(** The entry block is the one of the entry address. *)
Lemma entry_at : block_order fn !! entry_block lifted = Some (fn_entry fn).
Proof using S.
  destruct lifted_blocks as (_ & Ee & _). pose proof (proj2 (elem_of_block_order _) (sf_entry _ _ S)) as [k Hk]%list_elem_of_lookup.
  unfold entry_block. rewrite Ee. destruct (list_find _ _) as [[i b]|] eqn:F.
  - apply list_find_Some in F as (Hb & Eb & _). destruct (lifted_succs _ _ Hb) as (a & bb & Ha & _ & E & _). cbn. rewrite Ha. congruence.
  - destruct (lookup_lt_is_Some_2 (blocks lifted) k) as [b Hb]; [rewrite lifted_length; by eapply lookup_lt_Some|].
    apply list_find_None in F. rewrite Forall_lookup in F. destruct (lifted_succs _ _ Hb) as (a & bb & Ha & _ & E & _).
    destruct (F _ _ Hb). congruence.
Qed.

Lemma raw_plain : Forall (fun b => preds b = [] /\ NoDup (succs b)) raw_blocks.
Proof using S.
  apply Forall_lookup. intros i b Hb. destruct (Forall2_lookup_r _ _ _ _ _ raw_blocks_spec Hb) as (a & _ & (bb & n & sv & Ebb & _ & _ & K & P)).
  split; [done|]. injection K as _ _ ->. by apply omap_addr_nodup, (sf_blocks _ _ S a bb Ebb).
Qed.

Lemma lifted_graph : graph_ok lifted.
Proof using S.
  destruct lifted_blocks as (E & _). apply (build_preds_ok _ raw_blocks); [done|]. eapply Forall_impl; [apply raw_plain|]. by intros b [].
Qed.

Lemma lifted_liftable : liftable lifted.
Proof using S T.
  pose proof entry_at as En. pose proof (lookup_lt_Some _ _ _ En) as Lt. rewrite <-lifted_length in Lt.
  split.
  - intros E. rewrite E in Lt. cbn in Lt. lia.
  - apply lifted_graph.
  - destruct (preds_of lifted (start_block lifted)) as [|p l] eqn:E; [done|exfalso].
    assert (R : in_range lifted (start_block lifted)) by (unfold in_range, num_blocks, start_block, zlen; lia).
    assert (Hp : p ∈ preds_of lifted (start_block lifted)) by (rewrite E; left).
    pose proof (g_preds _ lifted_graph _ p R Hp) as Rp. apply (g_edges _ lifted_graph p _ Rp R) in Hp. unfold succs_of in Hp.
    destruct (blocks lifted !! Z.to_nat p) as [b|] eqn:Eb; [|by apply not_elem_of_nil in Hp].
    destruct (lifted_succs _ _ Eb) as (a & bb & _ & Ebb & _ & Es). cbn in Hp. rewrite Es in Hp. apply list_elem_of_omap in Hp as (x & Hx & Ex).
    apply addr_to_block_at in Ex. unfold start_block in Ex. rewrite Nat2Z.id, En in Ex. injection Ex as <-.
    by apply (sf_blocks _ _ S a bb Ebb).
  - intros b [H0 H1]. destruct lifted_blocks as (E & _). unfold preds_of. rewrite E. apply build_preds_nodup; [|apply raw_plain].
    unfold num_blocks, zlen in H1. rewrite lifted_length in H1. unfold zlen. rewrite raw_length. lia.
  - intros b o Hb Ho. destruct (lifted_ops b Hb) as (st & I & Eo). rewrite Eo in Ho. exact (proj1 (Forall_forall _ _) (in_plain _ I) o Ho).
Qed.

Lemma lifted_local : local_vars lift_narrow lifted.
Proof using S T. intros b Hb. destruct (lifted_ops b Hb) as (st & I & ->). apply (in_local _ I). Qed.

Lemma lifted_stores : Dce.stores_ok lifted.
Proof using S T.
  intros b o Hb Ho Eo. destruct (lifted_ops b Hb) as (st & I & E). rewrite E in Ho.
  by rewrite (proj1 (Forall_forall _ _) (in_stores _ I) o Ho Eo).
Qed.
End Function.
