(* ===== verification/Decompile.v ===== *)
(** * From machine code to the result of the middle end: decompiler.cpp, [decompile]

    The lifter, SSA construction, dead code elimination and copy propagation one after
    the other, and their correctness on the paths of a lifted function.  The passes of
    [Propagate.run] around copy propagation are not composed: [Propagate] shows where
    two of them go wrong. *)

From S2P Require Import Prelude Ir Ssa Dom Phi CopyProp Build MiddleEnd Lifter LiftSem Lifted LiftFn.
From S2P Require Dce Propagate.

#[local] Open Scope Z_scope.

(** ** Paths of machine code *)

(** The instructions of the block at a position of the order. *)
Definition block_insns (fn : Function) (i : nat) : list Insn :=
  from_option insns [] (a ← block_order fn !! i; fn_blocks fn !! a).

Definition path_insns (fn : Function) (path : list (nat * nat)) : list Insn := mjoin ((fun bp => block_insns fn bp.1) <$> path).

(** The lifter, SSA construction and dead code elimination, for an order in which the
    phis are inserted. *)
Definition decompile_ir zreg zmnemonic fmt_X format_text (order : gmap Z (list Z) -> list Z) (db : AnalysisDB) (fn : Function) : option PcodeFunc :=
  Dce.run <$> build order (lift zreg zmnemonic fmt_X format_text db fn).

Section Paths.
Context (zreg : ZydisRegister -> Z) (zmnemonic : ZydisMnemonic -> Z) {Mem : Type} (act : PcodeOp -> Z -> list Z -> Mem -> Mem * Z).
Context (Ops : lift_ops act) (Zinj : Inj (=) (=) zreg) (fmt_X : Z -> list Z) (format_text : Insn -> Arch -> list Z).
Context (db : AnalysisDB) (Ar : arch db = X64) (fn : Function).

#[local] Abbreviation lifted := (lift zreg zmnemonic fmt_X format_text db fn).

Lemma exec_block_flat p os (s : state Mem) : (forall o, o ∈ os -> is_phi o = false) -> exec_block act p os s = exec_all act os s.
Proof using.
  intros F. unfold exec_block. rewrite (filter_none is_phi os), (filter_all _ os); [by destruct s|intros o Ho; by rewrite F|done].
Qed.

Lemma xsteps_app l1 l2 (x x' : xstate (Mem := Mem)) :
  xsteps zreg zmnemonic act (l1 ++ l2) x = Some x' ->
  exists y, xsteps zreg zmnemonic act l1 x = Some y /\ xsteps zreg zmnemonic act l2 y = Some x'.
Proof using.
  revert x. induction l1 as [|i l1 IH]; intros x H; [by exists x|]. cbn in *. destruct (xstep _ _ _ i x) as [y|]; [|done]. by apply IH.
Qed.

Context (S : simple_function zreg fn) (T : last_temp zreg zmnemonic fmt_X format_text db fn <= 1000).

(** A block of the lifted function runs the instructions of its machine code. *)
Lemma lifted_block_runs i p x x' (s : state Mem) :
  matches x s -> xsteps zreg zmnemonic act (block_insns fn i) x = Some x' -> matches x' (exec_block act p (ops_at lifted i) s).
Proof using Ops Zinj Ar S T.
  intros Ma E. pose proof (lifted_length zreg zmnemonic fmt_X format_text db fn) as Len.
  unfold ops_at. destruct (blocks lifted !! i) as [b|] eqn:Eb; cbn [from_option].
  - rewrite exec_block_flat.
    + apply lifted_at in Eb as (a & c & Ha & (bb & n & sv & Ebb & _ & _ & Ec & _) & K). rewrite Ec in K. injection K as _ -> _.
      unfold block_insns in E. rewrite Ha in E. cbn in E. rewrite Ebb in E. cbn in E. by eapply lift_block_runs.
    + intros o Ho. pose proof (lifted_liftable zreg zmnemonic fmt_X format_text db fn S T) as L.
      unfold is_phi. rewrite (pl_seq o), andb_false_r; [done|]. apply (l_ops _ L b); [by eapply list_elem_of_lookup_2|done].
  - apply lookup_ge_None in Eb. rewrite Len in Eb. unfold block_insns in E. rewrite (proj2 (lookup_ge_None _ _)) in E by done.
    cbn in E. injection E as <-. by destruct s.
Qed.

Lemma lifted_path_runs path x x' (s : state Mem) :
  matches x s -> xsteps zreg zmnemonic act (path_insns fn path) x = Some x' -> matches x' (run_path act lifted path s).
Proof using Ops Zinj Ar S T.
  revert x s. induction path as [|bp path IH]; intros x s Ma E; [by injection E as <-|].
  apply xsteps_app in E as (y & E1 & E2). unfold run_path. cbn. eapply IH; [|exact E2]. by eapply lifted_block_runs.
Qed.
End Paths.

(** ** The theorems *)

(** C1: decompilation is correct up to the middle end, for simple functions of x64: each block
    starts at its key and is made of supported instructions on 64-bit registers (memory
    operands are addressed with 64-bit registers and not relative to the frame alone,
    which makes a stack variable), no edge enters the entry block, no block lists a successor twice,
    conditions follow a comparison of the same block; at most 1000 temporaries are used
    and every block is reached.  For these, for an injective numbering of the registers
    and every order in which the phis are inserted, the lifter, SSA construction and dead
    code elimination return, and for every interpretation of the operations that agrees
    with the processor ([lift_ops]) and every path from the entry on which the processor of
    the specification runs, the function that results, and what copy propagation makes of
    it, end with the memory of the processor and with its stores, calls, branches on the
    conditions it evaluated, and returns, in order. *)
Theorem decompile_ir_correct zreg zmnemonic fmt_X format_text order db fn :
  key_order order -> Inj (=) (=) zreg -> arch db = X64 -> simple_function zreg fn ->
  next_temp (lift zreg zmnemonic fmt_X format_text db fn) <= 1000 ->
  (forall b, let f := lift zreg zmnemonic fmt_X format_text db fn in in_range f b -> reaches f (start_block f) b) ->
  exists g, decompile_ir zreg zmnemonic fmt_X format_text order db fn = Some g /\
    forall (Mem : Type) (act : PcodeOp -> Z -> list Z -> Mem -> Mem * Z) path x x' (s : state Mem),
      lift_ops act -> valid_path (lift zreg zmnemonic fmt_X format_text db fn) path ->
      matches x s -> xsteps zreg zmnemonic act (path_insns fn path) x = Some x' ->
      forall h, h = g \/ h = Propagate.copy_propagation g ->
      Ir.mem (run_path act h path s) = x_mem x' /\ trace (run_path act h path s) = x_trace x'.
Proof.
  intros Ord Zinj Ar S T All. pose proof (lifted_blocks zreg zmnemonic fmt_X format_text db fn) as (_ & _ & Et). rewrite Et in T.
  destruct (middle_end_runs order lift_narrow _ Ord (lifted_liftable _ _ _ _ _ _ S T) (lifted_local _ _ _ _ _ _ S T) All
    (lifted_stores _ _ _ _ _ _ S T)) as (g & E & H).
  eexists. split; [unfold decompile_ir; by rewrite E|]. intros Mem act path x x' s Ops V Ma Ex h Hh.
  destruct (H Mem act path s (lo_pure _ Ops) (lo_copies _ Ops) V h Hh) as [<- <-].
  destruct (lifted_path_runs zreg zmnemonic act Ops Zinj fmt_X format_text db Ar fn S T path x x' s Ma Ex) as [M1 M2 _ _]. by split.
Qed.

(** The function lifted from blocks of simple instructions is well formed: its
    graph is one graph, its entry has no predecessor, no block is listed twice as a
    predecessor, its operands have the shape SSA construction assumes, flags and
    temporaries are read after their block has set them in the width it set, and no
    store has a flag as its output. *)
Lemma lift_liftable zreg zmnemonic fmt_X format_text db fn :
  simple_function zreg fn -> next_temp (lift zreg zmnemonic fmt_X format_text db fn) <= 1000 ->
  let f := lift zreg zmnemonic fmt_X format_text db fn in
  liftable f /\ local_vars lift_narrow f /\ Dce.stores_ok f.
Proof.
  intros S T. pose proof (lifted_blocks zreg zmnemonic fmt_X format_text db fn) as (_ & _ & Et). rewrite Et in T. cbn.
  split; [by apply lifted_liftable|]. split; [by apply lifted_local|by apply lifted_stores].
Qed.

(** ** Examples *)

(** [mov rax, rcx; cmp rcx, rdx; jl 0x10], [add rax, rdx], [mov \[rbx + rax\], rdx; ret]. *)
Definition max_blocks : gmap Z BasicBlock :=
  list_to_map
    [(0, mk_bb 0 [insn_at 0 Mov (bs "mov") [reg_op RAX 64; reg_op RCX 64]; insn_at 3 Cmp (bs "cmp") [reg_op RCX 64; reg_op RDX 64];
                  insn_at 6 Jcc (bs "jl") [imm_op 16]] [8; 16]);
     (8, mk_bb 8 [insn_at 8 Add (bs "add") [reg_op RAX 64; reg_op RDX 64]] [16]);
     (16, mk_bb 16 [insn_at 16 Mov (bs "mov") [mem_op RBX RAX 1 0 64; reg_op RDX 64]; insn_at 20 Ret (bs "ret") []] [])].
Definition max_fn : Function := mk_function 0 (bs "max") max_blocks.

Abbreviation max_lifted := (lift zydis_index no_mnemonic (fun _ => []) (fun _ _ => []) sample_db max_fn).

Lemma max_simple : simple_function zydis_index max_fn.
Proof.
  split; [by eexists|].
  assert (F : map_Forall (fun a bb => bb_start bb = a /\ forallb (simple_insn zydis_index) (insns bb) = true /\ flags_local false (insns bb) = true /\
    NoDup (bb_succs bb) /\ fn_entry max_fn ∉ bb_succs bb) (fn_blocks max_fn)) by (apply (bool_decide_unpack _); by vm_compute).
  exact F.
Qed.

Lemma max_reached b : in_range max_lifted b -> reaches max_lifted (start_block max_lifted) b.
Proof.
  assert (N : num_blocks max_lifted = 3) by (vm_compute; reflexivity).
  assert (Z0 : start_block max_lifted = 0) by (vm_compute; reflexivity).
  assert (S0 : succs_of max_lifted 0 = [1; 2]) by (vm_compute; reflexivity).
  assert (R0 : reaches max_lifted 0 0) by (apply reaches_refl; unfold in_range; rewrite N; lia).
  unfold in_range. rewrite N, Z0. intros H. assert (b = 0 \/ b = 1 \/ b = 2) as [-> |B] by lia; [exact R0|].
  eapply reaches_step; [exact R0|rewrite S0; set_solver|unfold in_range; rewrite N; lia].
Qed.

Lemma max_path : valid_path max_lifted [(0, 0); (2, 0)]%nat.
Proof.
  assert (E : entry_block max_lifted = 0%nat) by (vm_compute; reflexivity).
  assert (P : preds <$> blocks max_lifted = [[]; [0]; [0; 1]]) by (vm_compute; reflexivity).
  assert (L : forall i, preds <$> blocks max_lifted !! i = [[]; [0]; [0; 1]] !! i) by (intros i; by rewrite <-list_lookup_fmap, P).
  unfold valid_path. cbn [fst snd follows edge]. rewrite E. split; [done|]. split.
  - specialize (L 0%nat). destruct (blocks max_lifted !! 0%nat) as [B|]; [|done]. injection L as L. exists B. split; [done|]. rewrite L. cbn. lia.
  - split; [|done]. specialize (L 2%nat). unfold edge. cbn [fst snd]. destruct (blocks max_lifted !! 2%nat) as [B|]; [|done]. injection L as L.
    exists B. split; [done|]. by rewrite L.
Qed.

Lemma decompile_ir_correct_witness :
  let x := mk_x sample_regs None tt [] in
  let s := mk_state tt (fun k => if bool_decide (k_kind k = Reg) then sample_regs (k_id k) else 0) [] in
  exists g, decompile_ir zydis_index no_mnemonic (fun _ => []) (fun _ _ => []) by_key sample_db max_fn = Some g /\
    trace (run_path act_x (Propagate.copy_propagation g) [(0, 0); (2, 0)]%nat s) = [(CBRANCH, 6, [16; 1]); (STORE, 16, [15; 1]); (RETURN, 20, [2 ^ 64 - 1])].
Proof.
  intros x s.
  destruct (decompile_ir_correct zydis_index no_mnemonic (fun _ => []) (fun _ _ => []) by_key sample_db max_fn by_key_order zydis_index_inj eq_refl
    max_simple ltac:(apply Z.leb_le; vm_compute; reflexivity) max_reached) as (g & E & H).
  exists g. split; [exact E|].
  assert (X : x_trace <$> xsteps zydis_index no_mnemonic act_x (path_insns max_fn [(0, 0); (2, 0)]%nat) x =
    Some [(CBRANCH, 6, [16; 1]); (STORE, 16, [15; 1]); (RETURN, 20, [2 ^ 64 - 1])]) by (vm_compute; reflexivity).
  destruct (xsteps zydis_index no_mnemonic act_x (path_insns max_fn [(0, 0); (2, 0)]%nat) x) as [x'|] eqn:Ex; [|discriminate X].
  assert (X' : x_trace x' = [(CBRANCH, 6, [16; 1]); (STORE, 16, [15; 1]); (RETURN, 20, [2 ^ 64 - 1])]) by (injection X; done).
  rewrite <-X'. refine (proj2 (H unit act_x [(0, 0); (2, 0)]%nat x x' s act_x_ops max_path _ Ex _ (or_intror eq_refl))). by split.
Defined.

Lemma lift_liftable_witness :
  (op <$> mjoin (ops <$> blocks max_lifted)) =
    [COPY; SUB; INT_EQUAL; INT_SLESS; INT_LESS; XOR; XOR; AND; INT_SLESS; INT_NEQUAL; CBRANCH; ADD; COPY; ADD; STORE; RETURN] /\
  liftable max_lifted.
Proof.
  split; [vm_compute; reflexivity|].
  exact (proj1 (lift_liftable zydis_index no_mnemonic (fun _ => []) (fun _ _ => []) sample_db max_fn max_simple
    ltac:(apply Z.leb_le; vm_compute; reflexivity))).
Defined.
