(* ===== verification/CfStruct.v ===== *)
(** * Control-flow structuring: src/hyperion/core/decompiler/cf_struct.cpp

    [structure] prints every block behind a label and every edge as a goto.  The
    statements have a semantics here, an environment of variables and a position in the
    body, and the theorem is that they simulate the graph.  [structure_region],
    [try_for_loop] and what only they use are called by nothing and are not modelled;
    nor are the fields of a statement that only they set. *)

From S2P Require Import Prelude Ir.
From S2P Require Propagate.

#[local] Open Scope Z_scope.
#[local] Set Warnings "-register-all".

(** ** Statements: cf_struct.h *)

Inductive StmtKind := Expr | Assign | If | IfElse | While | DoWhile | For | Label | Goto | Return | Block | Switch.
#[export] Instance StmtKind_eq_dec : EqDecision StmtKind.
Proof. solve_decision. Defined.

Inductive CExpr := mk_expr (e_op : PcodeOp) (vn : Varnode) (call_name : list Z) (args : list CExpr) (negated : bool).

Definition e_opcode (e : CExpr) : PcodeOp := match e with mk_expr o _ _ _ _ => o end.

Definition no_expr : CExpr := mk_expr NOP no_vn [] [] false.
Definition var (v : Varnode) : CExpr := mk_expr COPY v [] [] false.
Definition imm (val sz : Z) : CExpr := mk_expr COPY (vn_const val sz) [] [] false.
Definition binop (p : PcodeOp) (l r : CExpr) : CExpr := mk_expr p no_vn [] [l; r] false.
Definition call (n : list Z) (a : list CExpr) : CExpr := mk_expr CALL no_vn n a false.
Definition deref (a : CExpr) : CExpr := mk_expr LOAD no_vn [] [a] false.

Inductive CStmt :=
  mk_stmt (s_kind : StmtKind) (s_expr s_cond : CExpr) (dst : Varnode) (body else_body : list CStmt) (s_addr goto_target : Z).

Record CFunc := mk_cfunc { c_name : list Z; c_entry : Z; c_params : list Varnode; c_locals : list Varnode; c_body : list CStmt }.

Definition varnode_expr (v : Varnode) : CExpr := var v.

Definition build_expr (o : PcodeInsn) : CExpr :=
  match op o with
  | CALL | INTRINSIC =>
      match inputs o with
      | f :: rest => call (if bool_decide (name f = []) then bs "func" else name f) (varnode_expr <$> rest)
      | [] => call [] []
      end
  | LOAD => match inputs o with a :: _ => deref (varnode_expr a) | [] => imm 0 8 end
  | ADD | SUB | AND | OR | XOR | SHIFT_LEFT | SHIFT_RIGHT | SHIFT_ARIGHT | ROTATE_LEFT | ROTATE_RIGHT
  | INT_MULT | INT_DIV | INT_SDIV | INT_EQUAL | INT_NEQUAL | INT_LESS | INT_SLESS | BOOL_AND | BOOL_OR =>
      match inputs o with l :: r :: _ => binop (op o) (varnode_expr l) (varnode_expr r) | _ => imm 0 8 end
  | PIECE =>
      match inputs o with
      | h :: l :: _ => binop OR (binop SHIFT_LEFT (varnode_expr h) (imm (u64 (u64 (size l) * 8)) (size h))) (varnode_expr l)
      | _ => imm 0 8
      end
  | SUBPIECE =>
      match inputs o with
      | v :: rest =>
          let bytes := match rest with n :: _ => if is_const n then offset n else 0 | [] => 0 end in
          binop SHIFT_RIGHT (varnode_expr v) (imm (u64 (bytes * 8)) (size v))
      | [] => imm 0 8
      end
  | INT_ZEXT | INT_SEXT => match inputs o with v :: _ => mk_expr (op o) (output o) [] [varnode_expr v] false | [] => imm 0 8 end
  | INT_NEGATE | INT_NOT | BOOL_NOT => match inputs o with v :: _ => mk_expr (op o) no_vn [] [varnode_expr v] false | [] => imm 0 8 end
  | _ => match inputs o with v :: _ => varnode_expr v | [] => imm 0 8 end
  end.

Definition stmt (k : StmtKind) (e c : CExpr) (d : Varnode) (a t : Z) : CStmt := mk_stmt k e c d [] [] a t.

(** The statements of a block, up to its first return. *)
Fixpoint emit_block_stmts (os : list PcodeInsn) : list CStmt :=
  match os with
  | [] => []
  | o :: os' =>
      match op o with
      | NOP | CBRANCH | BRANCH => emit_block_stmts os'
      | STORE =>
          match inputs o with
          | a :: v :: _ => stmt Expr (mk_expr STORE no_vn [] [varnode_expr a; varnode_expr v] false) (varnode_expr v) no_vn (addr o) 0
          | _ => stmt Assign no_expr no_expr no_vn (addr o) 0
          end :: emit_block_stmts os'
      | RETURN => [stmt Return (match inputs o with v :: _ => varnode_expr v | [] => no_expr end) no_expr no_vn (addr o) 0]
      | CALL | INTRINSIC => stmt Assign (build_expr o) no_expr (output o) (addr o) 0 :: emit_block_stmts os'
      | _ =>
          if valid (output o) then stmt Assign (build_expr o) no_expr (output o) (addr o) 0 :: emit_block_stmts os'
          else emit_block_stmts os'
      end
  end.

(** The last branch of either kind. *)
Definition is_branch (o : PcodeInsn) : bool := bool_decide (op o = CBRANCH) || bool_decide (op o = BRANCH).
Definition last_branch (os : list PcodeInsn) : option PcodeInsn := snd <$> list_find is_branch (reverse os).

Definition goto (a t : Z) : CStmt := stmt Goto no_expr no_expr no_vn a t.

(** The addresses of the successors that are blocks. *)
Definition succ_addrs (f : PcodeFunc) (b : PcodeBlock) : list Z :=
  omap (fun s => if (s <? 0) || (zlen (blocks f) <=? s) then None else b_addr <$> blocks f !! Z.to_nat s) (succs b).

Definition edge_stmts (f : PcodeFunc) (b : PcodeBlock) : list CStmt :=
  let otherwise := if has_return b then [] else goto (b_addr b) <$> succ_addrs f b in
  match last_branch (ops b) with
  | None => otherwise
  | Some br =>
      match op br, inputs br with
      | CBRANCH, t :: c :: _ =>
          mk_stmt If no_expr (varnode_expr c) no_vn [goto (addr br) (offset t)] [] (addr br) 0
            :: (goto (addr br) <$> List.filter (fun a => negb (a =? offset t)) (succ_addrs f b))
      | BRANCH, t :: _ => [goto (addr br) (offset t)]
      | _, _ => otherwise
      end
  end.

Definition chunk (f : PcodeFunc) (b : PcodeBlock) : list CStmt :=
  stmt Label no_expr no_expr no_vn (b_addr b) (b_addr b) :: emit_block_stmts (ops b) ++ edge_stmts f b.

Definition structure (f : PcodeFunc) : CFunc :=
  mk_cfunc (f_name f) (entry f) (params f) (locals f) (mjoin (chunk f <$> blocks f)).

(** ** What the statements mean *)

Section Machine.
Context {Mem : Type} (act : PcodeOp -> Z -> list Z -> Mem -> Mem * Z) (resolve : list Z -> Z).

(** An expression in a context of [sz] bytes; calls are statements. *)
Fixpoint eval (sz : Z) (s : state Mem) (e : CExpr) : Z :=
  match e with
  | mk_expr o v _ [] _ => value (env s) v
  | mk_expr o _ _ es _ => (act o sz (eval sz s <$> es) (mem s)).2
  end.

Definition effect (o : PcodeOp) (sz a : Z) (ins : list Z) (d : Varnode) (s : state Mem) : state Mem :=
  let r := act o sz ins (mem s) in mk_state r.1 (assign d r.2 (env s)) (trace s ++ [(o, a, ins)]).

Definition exec_stmt (c : CStmt) (s : state Mem) : state Mem :=
  match c with
  | mk_stmt Assign (mk_expr CALL _ n es _) _ d _ _ a _ => effect CALL (size d) a (resolve n :: (eval 8 s <$> es)) d s
  | mk_stmt Assign e _ d _ _ _ _ => mk_state (mem s) (assign d (eval (size d) s e) (env s)) (trace s)
  | mk_stmt Expr (mk_expr STORE _ _ es _) _ _ _ _ a _ => effect STORE 8 a (eval 8 s <$> es) no_vn s
  | mk_stmt Return e _ _ _ _ a _ => effect RETURN 8 a [eval 8 s e] no_vn s
  | _ => s
  end.

Definition is_label (t : Z) (c : CStmt) : bool :=
  match c with mk_stmt Label _ _ _ _ _ _ g => g =? t | _ => false end.

Definition label_index (l : list CStmt) (t : Z) : option nat := fst <$> list_find (is_label t) l.

(** Where a run is: at a statement, returned, past the end, or at a missing label. *)
Inductive conf := At (pc : nat) (s : state Mem) | Returned (s : state Mem) | Ended (s : state Mem) | Lost (t : Z) (s : state Mem).

Definition jump (l : list CStmt) (t : Z) (s : state Mem) : conf := match label_index l t with Some n => At n s | None => Lost t s end.

Definition cstep (l : list CStmt) (c : conf) : conf :=
  match c with
  | At pc s =>
      match l !! pc with
      | None => Ended s
      | Some (mk_stmt Goto _ _ _ _ _ _ t) => jump l t s
      | Some (mk_stmt If _ e _ [mk_stmt Goto _ _ _ _ _ _ t] _ _ _) => if eval 8 s e =? 0 then At (S pc) s else jump l t s
      | Some (mk_stmt Return _ _ _ _ _ _ _ as c) => Returned (exec_stmt c s)
      | Some c => At (S pc) (exec_stmt c s)
      end
  | _ => c
  end.

Definition csteps (l : list CStmt) (n : nat) (c : conf) : conf := Nat.iter n (cstep l) c.

(** ** The graph, as a machine *)

Definition block_at (f : PcodeFunc) (t : Z) : option nat := fst <$> list_find (fun b => b_addr b = t) (blocks f).

(** The successors that are blocks, and those a condition that fails leaves. *)
Definition succ_blocks (f : PcodeFunc) (b : PcodeBlock) : list nat :=
  Z.to_nat <$> List.filter (fun s => negb ((s <? 0) || (zlen (blocks f) <=? s))) (succs b).
Definition other_blocks (f : PcodeFunc) (b : PcodeBlock) (t : Z) : list nat :=
  List.filter (fun i => negb (bool_decide (block_at f t = Some i))) (succ_blocks f b).

(** Where a block goes: the target of its branch, or its first other successor. *)
Definition next_block (f : PcodeFunc) (b : PcodeBlock) (s : state Mem) : option nat :=
  match last (ops b) with
  | Some o =>
      match op o, inputs o with
      | RETURN, _ => None
      | CBRANCH, t :: c :: _ => if value (env s) c =? 0 then head (other_blocks f b (offset t)) else block_at f (offset t)
      | BRANCH, t :: _ => block_at f (offset t)
      | _, _ => head (succ_blocks f b)
      end
  | None => head (succ_blocks f b)
  end.

(** A block runs; the graph goes on at a block or has returned. *)
Definition gstep (f : PcodeFunc) (c : nat * state Mem) : option nat * state Mem :=
  match blocks f !! c.1 with
  | None => (None, c.2)
  | Some b => let s := exec_block act 0 (ops b) c.2 in (next_block f b s, s)
  end.

Fixpoint gsteps (f : PcodeFunc) (n : nat) (c : nat * state Mem) : option nat * state Mem :=
  match n with
  | O => (Some c.1, c.2)
  | S n => match gstep f c with (Some i, s) => gsteps f n (i, s) | r => r end
  end.
End Machine.
Arguments At {Mem}.
Arguments Returned {Mem}.
Arguments Ended {Mem}.
Arguments Lost {Mem}.
Arguments conf : clear implicits.

(** ** The graphs covered *)

(** Events that are seen: a branch is control flow, not an effect. *)
Definition seen (e : PcodeOp * Z * list Z) : bool := negb (bool_decide (e.1.1 = CBRANCH) || bool_decide (e.1.1 = BRANCH)).

(** The shape of an operation that a statement expresses. *)
Definition straight (resolve : list Z -> Z) (o : PcodeInsn) : Prop :=
  is_phi o = false /\ valid (output o) = true /\
  match op o with
  | RETURN | BRANCH | CBRANCH | PIECE | SUBPIECE | INTRINSIC => False
  | NOP => True
  | STORE => length (inputs o) = 2%nat /\ output o = no_vn
  | CALL => exists f rest, inputs o = f :: rest /\ is_const f = true /\ resolve (if bool_decide (name f = []) then bs "func" else name f) = offset f
  | COPY | LOAD | INT_ZEXT | INT_SEXT | INT_NEGATE | INT_NOT | BOOL_NOT => length (inputs o) = 1%nat
  | _ => length (inputs o) = 2%nat
  end.

(** How a block ends: with a return, a branch to a block, a condition between two, or
    into its one successor. *)
Definition ends_ok (f : PcodeFunc) (b : PcodeBlock) (tail : list PcodeInsn) : Prop :=
  match tail with
  | [] => has_return b = false /\ exists i, succ_blocks f b = [i]
  | [o] =>
      output o = no_vn /\ is_phi o = false /\
      match op o, inputs o with
      | RETURN, [v] => True
      | BRANCH, [t] => is_Some (block_at f (offset t))
      | CBRANCH, [t; c] => is_Some (block_at f (offset t)) /\ other_blocks f b (offset t) <> []
      | _, _ => False
      end
  | _ => False
  end.

Definition block_ok (resolve : list Z -> Z) (f : PcodeFunc) (b : PcodeBlock) : Prop :=
  exists l tail, ops b = l ++ tail /\ Forall (straight resolve) l /\ ends_ok f b tail.

Record graph_shape (resolve : list Z -> Z) (f : PcodeFunc) : Prop := mk_shape {
  sh_addrs : NoDup (b_addr <$> blocks f);
  sh_blocks : forall b, b ∈ blocks f -> block_ok resolve f b
}.

Record graph_ops {Mem} (act : PcodeOp -> Z -> list Z -> Mem -> Mem * Z) : Prop := mk_graph_ops {
  go_pure : pure_ops act;
  go_copies : Propagate.copies act;
  go_branch : forall o sz ins m, o = BRANCH \/ o = CBRANCH -> (act o sz ins m).1 = m
}.

Section Simulation.
Context {Mem : Type} (act : PcodeOp -> Z -> list Z -> Mem -> Mem * Z) (resolve : list Z -> Z) (Ops : graph_ops act).

(** The same memory and variables, and the effects that are seen. *)
Record same (s t : state Mem) : Prop := mk_same {
  sa_mem : mem t = mem s;
  sa_env : forall k, env t k = env s k;
  sa_trace : trace t = List.filter seen (trace s)
}.

Lemma same_value s t v : same s t -> value (env t) v = value (env s) v.
Proof. intros [_ E _]. unfold value. by destruct (is_const v). Qed.

Lemma same_values s t (vs : list Varnode) :
  same s t -> eval act 8 t <$> (varnode_expr <$> vs) = value (env s) <$> vs.
Proof. intros H. rewrite <-list_fmap_compose. apply list_fmap_ext. intros i v _. cbn. by apply same_value. Qed.

Lemma same_assign s t m d x :
  same s t -> same (mk_state m (assign d x (env s)) (trace s)) (mk_state m (assign d x (env t)) (trace t)).
Proof. intros [A B C]. split; cbn; [done| |done]. intros k. unfold assign. destruct (is_const d); [done|]. by destruct (decide _). Qed.

(** An effect that is seen. *)
Lemma same_effect s t o sz a ins d :
  same s t -> seen (o, a, ins) = true ->
  same (mk_state (act o sz ins (mem s)).1 (assign d (act o sz ins (mem s)).2 (env s)) (trace s ++ [(o, a, ins)])) (effect act o sz a ins d t).
Proof.
  intros [A B C] N. unfold effect. split; cbn.
  - by rewrite A.
  - intros k. unfold assign. rewrite A. destruct (is_const d); [done|]. by destruct (decide _).
  - rewrite List.filter_app, C. cbn. by rewrite N.
Qed.

(** Statements after which comes the next one. *)
Definition plain (c : CStmt) : bool := match c with mk_stmt (Assign | Expr | Label) _ _ _ _ _ _ _ => true | _ => false end.

Definition run_stmts (l : list CStmt) (t : state Mem) : state Mem := foldl (fun t c => exec_stmt act resolve c t) t l.

(** The value of the expression built for an operation without effects. *)
Lemma eval_build o s t :
  straight resolve o -> op o <> NOP -> effectful (op o) = false -> same s t ->
  eval act (size (output o)) t (build_expr o) = (act (op o) (size (output o)) (value (env s) <$> inputs o) (mem s)).2
  /\ e_opcode (build_expr o) <> CALL.
Proof using Ops.
  intros (Ph & V & H) N Ef Sa. pose proof (same_value s t) as SV. pose proof (sa_mem s t Sa) as SM.
  unfold build_expr. destruct (op o); try done;
    (destruct (inputs o) as [|v [|w [|? ?]]]; [done|try done..]); split; try done.
  all: cbn; rewrite ?(SV _ Sa), ?SM; try done. by rewrite (go_copies _ Ops).
Qed.

Lemma straight_emit o os : straight resolve o -> emit_block_stmts (o :: os) = emit_block_stmts [o] ++ emit_block_stmts os.
Proof. intros (_ & _ & H). cbn. destruct (op o); try done; by destruct (valid (output o)). Qed.

Lemma straight_ok o s t :
  straight resolve o -> same s t ->
  same (exec act o s) (run_stmts (emit_block_stmts [o]) t) /\ Forall (fun c => plain c = true) (emit_block_stmts [o]).
Proof using Ops.
  intros St Sa. pose proof St as (Ph & V & H).
  assert (P : op o <> NOP -> effectful (op o) = false -> emit_block_stmts [o] = [stmt Assign (build_expr o) no_expr (output o) (addr o) 0]).
  { intros N Ef. cbn. rewrite V. by destruct (op o). }
  destruct (effectful (op o)) eqn:Ef.
  - destruct (op o) eqn:E; try done; cbn [emit_block_stmts]; rewrite E.
    + destruct H as [L O]. destruct (inputs o) as [|a [|v [|? ?]]] eqn:I; try done. split; [|by repeat constructor].
      unfold exec, is_nop. rewrite E, I, O. cbn. rewrite <-!(same_value s t) by done. by apply same_effect.
    + destruct H as (f & rest & I & C & R). split; [|by repeat constructor].
      unfold exec, is_nop, build_expr. rewrite E, I. cbn -[bs effect]. rewrite R. unfold value at 1 3 5. rewrite C.
      rewrite bool_decide_eq_false_2, (same_values s t rest) by done. by apply same_effect.
  - destruct (decide (op o = NOP)) as [E|N].
    { cbn. unfold exec, is_nop. rewrite E. split; [done|constructor]. }
    rewrite P by done. split; [|by repeat constructor]. destruct (eval_build o s t St N Ef Sa) as [Ev Nc].
    unfold exec, is_nop. rewrite bool_decide_eq_false_2, Ef, (go_pure _ Ops) by done. rewrite <-Ev.
    cbn. destruct (build_expr o) as [eo vn n es ng] eqn:B. cbn in Nc.
    replace (match eo with CALL => _ | _ => _ end) with
      (mk_state (mem t) (assign (output o) (eval act (size (output o)) t (mk_expr eo vn n es ng)) (env t)) (trace t)) by (by destruct eo).
    rewrite <-(sa_mem s t Sa). by apply same_assign.
Qed.

Lemma straights_ok l os s t :
  Forall (straight resolve) l -> same s t ->
  emit_block_stmts (l ++ os) = emit_block_stmts l ++ emit_block_stmts os /\
  same (foldl (fun s i => exec act i s) s l) (run_stmts (emit_block_stmts l) t) /\
  Forall (fun c => plain c = true) (emit_block_stmts l).
Proof using Ops.
  intros F. revert s t. induction F as [|o l So F IH]; intros s t Sa; [done|]. cbn [app foldl].
  rewrite (straight_emit o (l ++ os)), (straight_emit o l) by done. destruct (straight_ok o s t So Sa) as [So' P].
  destruct (IH _ _ So') as (E & S' & P'). rewrite E, app_assoc. split_and!; [done| |by apply Forall_app].
  unfold run_stmts. by rewrite foldl_app.
Qed.

(** ** Runs of the body *)

Lemma csteps_add l m n c : csteps act resolve l (m + n) c = csteps act resolve l m (csteps act resolve l n c).
Proof. apply Nat.iter_add. Qed.

(** Statements that go on with the next one run in their order. *)
Lemma plain_run pre seg post t :
  Forall (fun c => plain c = true) seg ->
  csteps act resolve (pre ++ seg ++ post) (length seg) (At (length pre) t) = At (length pre + length seg) (run_stmts seg t).
Proof.
  revert pre t. induction seg as [|c seg IH]; intros pre t F; [by rewrite Nat.add_0_r|].
  apply Forall_cons in F as [Pc F]. cbn [length]. rewrite <-Nat.add_1_r, csteps_add.
  change (csteps act resolve ?l 1 ?c) with (cstep act resolve l c).
  replace (cstep act resolve (pre ++ (c :: seg) ++ post) (At (length pre) t)) with (At (length (pre ++ [c])) (exec_stmt act resolve c t)).
  - replace (pre ++ (c :: seg) ++ post) with ((pre ++ [c]) ++ seg ++ post) by (by rewrite <-app_assoc).
    rewrite IH by done. f_equal. rewrite length_app. cbn. lia.
  - cbn. rewrite list_lookup_middle by done. rewrite length_app, Nat.add_1_r. destruct c as [k e cc d b eb a g]. by destruct k.
Qed.
(** ** Labels *)

Lemma label_index_skip l k t :
  Forall (fun c => is_label t c = false) l -> label_index (l ++ k) t = (fun n => (length l + n)%nat) <$> label_index k t.
Proof.
  unfold label_index. induction 1 as [|c l Hc _ IH]; cbn.
  - by destruct (list_find _ k) as [[? ?]|].
  - rewrite decide_False by (rewrite Hc; by intros []). destruct (list_find _ (l ++ k)) as [[? ?]|], (list_find _ k) as [[? ?]|];
      cbn in *; simplify_eq; done.
Qed.

Lemma emit_no_label t os : Forall (fun c => is_label t c = false) (emit_block_stmts os).
Proof.
  induction os as [|o os IH]; [constructor|]. cbn.
  destruct (op o), (valid (output o)); try exact IH; repeat constructor; try exact IH;
    by destruct (inputs o) as [|? [|? ?]].
Qed.

Lemma gotos_no_label t a l : Forall (fun c => is_label t c = false) (goto a <$> l).
Proof. apply Forall_fmap, Forall_forall. done. Qed.

Lemma edges_no_label t f b : Forall (fun c => is_label t c = false) (edge_stmts f b).
Proof.
  assert (O : Forall (fun c => is_label t c = false) (if has_return b then [] else goto (b_addr b) <$> succ_addrs f b))
    by (destruct (has_return b); [constructor|apply gotos_no_label]).
  unfold edge_stmts. destruct (last_branch (ops b)) as [o|]; [|done].
  destruct (op o); try done; destruct (inputs o) as [|v [|c l]]; try done; repeat constructor. apply gotos_no_label.
Qed.

(** Where the label of a block is. *)
Definition pos (f : PcodeFunc) (bs : list PcodeBlock) (i : nat) : nat := length (mjoin (chunk f <$> take i bs)).

Lemma label_of_block f bs t :
  label_index (mjoin (chunk f <$> bs)) t = pos f bs <$> (fst <$> list_find (fun b => b_addr b = t) bs).
Proof.
  induction bs as [|b bs IH]; [done|]. cbn [list_find].
  change (mjoin (chunk f <$> (b :: bs))) with (chunk f b ++ mjoin (chunk f <$> bs)).
  destruct (decide (b_addr b = t)) as [E|N].
  - unfold label_index. cbn. rewrite decide_True; [done|]. by apply Is_true_true, Z.eqb_eq.
  - rewrite label_index_skip, IH.
    + destruct (list_find _ bs) as [[n x]|]; cbn -[chunk]; [|done]. unfold pos. by rewrite <-length_app.
    + unfold chunk. constructor; [by apply Z.eqb_neq|]. apply Forall_app. split; [apply emit_no_label|apply edges_no_label].
Qed.

Section Graph.
Context (f : PcodeFunc) (Shape : graph_shape resolve f).

Abbreviation body := (c_body (structure f)).
Abbreviation posn := (pos f (blocks f)).
Definition addr_of (i : nat) : Z := from_option b_addr 0 (blocks f !! i).

Lemma block_at_addr i : (i < length (blocks f))%nat -> block_at f (addr_of i) = Some i.
Proof using Shape.
  intros Hi. destruct (lookup_lt_is_Some_2 (blocks f) i Hi) as [b Hb]. unfold addr_of, block_at. rewrite Hb. cbn.
  replace (list_find _ (blocks f)) with (Some (i, b)); [done|]. symmetry. apply list_find_Some. split_and!; [done..|].
  intros j c Hc Hj Eq. assert (i = j); [|lia]. eapply (NoDup_lookup (b_addr <$> blocks f)); [apply (sh_addrs _ _ Shape)|..].
  - by rewrite list_lookup_fmap, Hb.
  - by rewrite list_lookup_fmap, Hc, <-Eq.
Qed.

Lemma block_at_range t i : block_at f t = Some i -> (i < length (blocks f))%nat /\ addr_of i = t.
Proof.
  unfold block_at, addr_of. destruct (list_find _ (blocks f)) as [[j b]|] eqn:E; [|done]. intros [= <-].
  apply list_find_Some in E as (Hb & A & _). split; [by eapply lookup_lt_Some|]. cbn. by rewrite Hb.
Qed.

Lemma succ_range b i : i ∈ succ_blocks f b -> (i < length (blocks f))%nat.
Proof.
  intros (z & -> & H)%list_elem_of_fmap. apply list_elem_of_In, filter_In in H as [_ H].
  apply negb_true_iff, orb_false_iff in H as [?%Z.ltb_ge ?%Z.leb_gt]. unfold zlen in *. lia.
Qed.

Lemma succ_addrs_blocks b : succ_addrs f b = addr_of <$> succ_blocks f b.
Proof.
  unfold succ_addrs, succ_blocks. induction (succs b) as [|z l IH]; [done|]. cbn.
  destruct ((z <? 0) || (zlen (blocks f) <=? z)) eqn:R; cbn; [done|]. unfold addr_of at 1.
  apply orb_false_iff in R as [?%Z.ltb_ge ?%Z.leb_gt]. unfold zlen in *.
  destruct (lookup_lt_is_Some_2 (blocks f) (Z.to_nat z)) as [c ->]; [lia|]. cbn. by rewrite <-IH.
Qed.

Lemma other_addrs b t :
  List.filter (fun a => negb (a =? t)) (succ_addrs f b) = addr_of <$> other_blocks f b t.
Proof using Shape.
  rewrite succ_addrs_blocks. unfold other_blocks. pose proof (succ_range b) as R.
  induction (succ_blocks f b) as [|i l IH]; [done|]. cbn. rewrite IH by (intros j Hj; apply R; by right).
  replace (addr_of i =? t) with (bool_decide (block_at f t = Some i)); [by destruct (bool_decide _)|].
  apply eq_true_iff_eq. rewrite bool_decide_eq_true, Z.eqb_eq. split; [by intros [_ ?]%block_at_range|].
  intros <-. apply block_at_addr, R. by left.
Qed.

Lemma jump_block t i (s : state Mem) : block_at f t = Some i -> jump body t s = At (posn i) s.
Proof.
  intros H. unfold jump. cbn [structure c_body]. rewrite label_of_block. unfold block_at in H.
  destruct (list_find _ _) as [[j b]|]; [|done]. cbn in H. injection H as ->. done.
Qed.

Lemma body_at i b :
  blocks f !! i = Some b -> exists pre post, body = pre ++ chunk f b ++ post /\ length pre = posn i.
Proof.
  intros H. exists (mjoin (chunk f <$> take i (blocks f))), (mjoin (chunk f <$> drop (S i) (blocks f))). split; [|done].
  cbn [structure c_body]. rewrite <-(take_drop_middle _ _ _ H) at 1. by rewrite fmap_app, join_app.
Qed.

(** The statement at a position of the body. *)
Lemma cstep_at pre c post (s : state Mem) :
  body = pre ++ c :: post ->
  cstep act resolve body (At (length pre) s) =
    match c with
    | mk_stmt Goto _ _ _ _ _ _ t => jump body t s
    | mk_stmt If _ e _ [mk_stmt Goto _ _ _ _ _ _ t] _ _ _ => if eval act 8 s e =? 0 then At (S (length pre)) s else jump body t s
    | mk_stmt Return _ _ _ _ _ _ _ as c => Returned (exec_stmt act resolve c s)
    | c => At (S (length pre)) (exec_stmt act resolve c s)
    end.
Proof. intros E. cbn [cstep]. by rewrite E, list_lookup_middle. Qed.

Lemma last_branch_snoc l o : is_branch o = true -> last_branch (l ++ [o]) = Some o.
Proof. intros H. unfold last_branch. rewrite reverse_snoc. cbn. by rewrite decide_True by (by rewrite H). Qed.

Lemma last_branch_straight l : Forall (straight resolve) l -> last_branch l = None.
Proof.
  intros H. unfold last_branch. replace (list_find _ _) with (@None (nat * PcodeInsn)); [done|]. symmetry.
  apply list_find_None, Forall_reverse. eapply Forall_impl; [exact H|]. intros o (_ & _ & S). unfold is_branch.
  destruct (op o); try done; by intros [].
Qed.

Lemma next_fallthrough b (s : state Mem) : Forall (straight resolve) (ops b) -> next_block f b s = head (succ_blocks f b).
Proof.
  intros H. unfold next_block. destruct (last (ops b)) as [o|] eqn:L; [|done].
  apply last_Some_elem_of in L. rewrite Forall_forall in H. destruct (H o L) as (_ & _ & S). by destruct (op o).
Qed.

(** A branch is no effect that is seen. *)
Lemma same_branch o s t : op o = BRANCH \/ op o = CBRANCH -> output o = no_vn -> same s t -> same (exec act o s) t.
Proof using Ops.
  intros B O [M E T]. unfold exec, is_nop. rewrite bool_decide_eq_false_2 by (by destruct B as [-> | ->]). rewrite O.
  split; cbn; [by rewrite (go_branch _ Ops)|done|]. rewrite T.
  destruct B as [-> | ->]; cbn; by rewrite List.filter_app, app_nil_r.
Qed.

Lemma goto_run pre a t i post (s : state Mem) :
  body = pre ++ goto a t :: post -> block_at f t = Some i -> csteps act resolve body 1 (At (length pre) s) = At (posn i) s.
Proof. intros E B. change (csteps act resolve ?l 1 ?c) with (cstep act resolve l c). rewrite (cstep_at _ _ _ _ E). by apply jump_block. Qed.

(** From the end of the statements of a block. *)
Lemma tail_run b l tl pre post s t :
  ops b = l ++ tl -> Forall (straight resolve) l -> ends_ok f b tl -> same s t ->
  body = pre ++ (emit_block_stmts tl ++ edge_stmts f b) ++ post ->
  exists n t', (0 < n)%nat /\ same (foldl (fun s i => exec act i s) s tl) t' /\
    csteps act resolve body n (At (length pre) t) =
      match next_block f b (foldl (fun s i => exec act i s) s tl) with Some j => At (posn j) t' | None => Returned t' end.
Proof using Ops Shape.
  intros O St En Sa B. destruct tl as [|o [|? ?]]; [| |done].
  - destruct En as [R (i & I)]. rewrite app_nil_r in O. rewrite <-O in St. exists 1%nat, t. split_and!; [lia|done|]. cbn [foldl].
    rewrite next_fallthrough, I by done. eapply goto_run.
    + rewrite B. cbn [emit_block_stmts app]. unfold edge_stmts. rewrite last_branch_straight, R, succ_addrs_blocks, I by done. done.
    + apply block_at_addr, (succ_range b). rewrite I. by left.
  - destruct En as (On & Ph & En). cbn [foldl]. unfold next_block. rewrite O, last_snoc.
    destruct (op o) eqn:E; try done.
    + destruct (inputs o) as [|v [|? ?]] eqn:I; try done. exists 1%nat.
      exists (effect act RETURN 8 (addr o) [value (env t) v] no_vn t). split_and!; [lia| |].
      * unfold exec, is_nop. rewrite E, I, On, (same_value s t) by done. cbn. by apply same_effect.
      * change (csteps act resolve ?l 1 ?c) with (cstep act resolve l c).
        rewrite (cstep_at pre (stmt Return (varnode_expr v) no_expr no_vn (addr o) 0) (edge_stmts f b ++ post)); [done|].
        rewrite B. cbn [emit_block_stmts]. by rewrite E, I.
    + destruct (inputs o) as [|v [|? ?]] eqn:I; try done. exists 1%nat, t. destruct En as [i Bi]. rewrite Bi.
      split_and!; [lia|apply same_branch; auto|]. eapply goto_run; [|exact Bi]. rewrite B. cbn [emit_block_stmts]. rewrite E.
      unfold edge_stmts. rewrite O, last_branch_snoc by (unfold is_branch; by rewrite E). rewrite E, I. done.
    + destruct (inputs o) as [|v [|c [|? ?]]] eqn:I; try done. destruct En as [[i Bi] Oth].
      assert (S' : same (exec act o s) t) by (apply same_branch; auto).
      destruct (other_blocks f b (offset v)) as [|j js] eqn:OB; [done|].
      assert (Ed : edge_stmts f b = mk_stmt If no_expr (varnode_expr c) no_vn [goto (addr o) (offset v)] [] (addr o) 0
                     :: goto (addr o) (addr_of j) :: (goto (addr o) <$> (addr_of <$> js))).
      { unfold edge_stmts. rewrite O, last_branch_snoc by (unfold is_branch; by rewrite E).
        by rewrite E, I, other_addrs, OB. }
      rewrite Ed in B. cbn [emit_block_stmts] in B. rewrite E in B. cbn [app] in B.
      pose proof (same_value _ _ c S') as V. rewrite <-V. pose proof (cstep_at _ _ _ t B) as C1. cbn [goto stmt varnode_expr eval var] in C1.
      destruct (value (env t) c =? 0) eqn:Z0.
      * exists 2%nat, t. split_and!; [lia|done|]. change (csteps act resolve ?l 2 ?c) with (csteps act resolve l 1 (cstep act resolve l c)).
        rewrite C1. replace (S (length pre)) with (length (pre ++ [mk_stmt If no_expr (varnode_expr c) no_vn [goto (addr o) (offset v)] [] (addr o) 0])) by (rewrite length_app; cbn; lia).
        cbn [head]. eapply goto_run; [by rewrite B, <-app_assoc|]. apply block_at_addr, (succ_range b).
        assert (J : j ∈ other_blocks f b (offset v)) by (rewrite OB; left). by apply list_elem_of_In, filter_In in J as [J%list_elem_of_In _].
      * exists 1%nat, t. rewrite Bi. split_and!; [lia|done|]. change (csteps act resolve ?l 1 ?c) with (cstep act resolve l c).
        rewrite C1. by apply jump_block.
Qed.

Lemma exec_block_straight os (s : state Mem) :
  Forall (fun o => is_phi o = false) os -> exec_block act 0 os s = foldl (fun s i => exec act i s) s os.
Proof.
  intros H. unfold exec_block. replace (List.filter is_phi os) with (@nil PcodeInsn).
  - cbn. replace (List.filter _ os) with os; [by destruct s|]. induction H as [|o os P _ IH]; [done|]. cbn. by rewrite P, <-IH.
  - induction H as [|o os P _ IH]; [done|]. cbn. by rewrite P.
Qed.

Lemma gstep_range i s j s' :
  (i < length (blocks f))%nat -> gstep act f (i, s) = (Some j, s') -> (j < length (blocks f))%nat.
Proof.
  intros Hi. destruct (lookup_lt_is_Some_2 _ _ Hi) as [b Hb]. unfold gstep. cbn. rewrite Hb. intros [= N _]. revert N.
  assert (H : forall l : list nat, (forall k, k ∈ l -> (k < length (blocks f))%nat) -> head l = Some j -> (j < length (blocks f))%nat).
  { intros [|k l] R [= ->]. apply R. by left. }
  assert (S : head (succ_blocks f b) = Some j -> (j < length (blocks f))%nat) by (apply H; intros k; apply succ_range).
  unfold next_block. destruct (last (ops b)) as [o|]; [|done]. destruct (op o); try done; destruct (inputs o) as [|v [|c l]]; try done.
  1-2: by intros [? _]%block_at_range.
  - destruct (_ =? 0); [|by intros [? _]%block_at_range]. apply H. intros k K.
    apply list_elem_of_In, filter_In in K as [K%list_elem_of_In _]. by eapply succ_range.
Qed.

(** A block of the graph is a run of the body from its label. *)
Lemma block_run i s t :
  (i < length (blocks f))%nat -> same s t ->
  exists n t', (0 < n)%nat /\ same (gstep act f (i, s)).2 t' /\
    csteps act resolve body n (At (posn i) t) = match (gstep act f (i, s)).1 with Some j => At (posn j) t' | None => Returned t' end.
Proof using Ops Shape.
  intros Hi Sa. destruct (lookup_lt_is_Some_2 _ _ Hi) as [b Hb]. unfold gstep. cbn. rewrite Hb. cbn.
  destruct (sh_blocks _ _ Shape b) as (l & tl & O & St & En); [by eapply list_elem_of_lookup_2|].
  rewrite exec_block_straight.
  2: { rewrite O. apply Forall_app. split; [eapply Forall_impl; [exact St|by intros o (? & _)]|].
    destruct tl as [|o [|? ?]]; [done| |done]. destruct En as (_ & P & _). by repeat constructor. }
  destruct (body_at i b Hb) as (pre & post & B & L). destruct (straights_ok l tl s t St Sa) as (Em & S1 & Pl).
  unfold chunk in B. rewrite O, Em in B. set (seg := stmt Label no_expr no_expr no_vn (b_addr b) (b_addr b) :: emit_block_stmts l).
  assert (B1 : body = pre ++ seg ++ (emit_block_stmts tl ++ edge_stmts f b) ++ post) by (rewrite B; unfold seg; cbn; by rewrite <-!app_assoc).
  assert (B2 : body = (pre ++ seg) ++ (emit_block_stmts tl ++ edge_stmts f b) ++ post) by (rewrite B1; by rewrite <-!app_assoc).
  destruct (tail_run b l tl _ _ _ _ O St En S1 B2) as (n & t' & N & S2 & C).
  exists (n + length seg)%nat, t'. rewrite O, foldl_app. split_and!; [lia|done|]. rewrite csteps_add, <-L.
  assert (P : csteps act resolve body (length seg) (At (length pre) t) = At (length (pre ++ seg)) (run_stmts (emit_block_stmts l) t)).
  { rewrite B1, plain_run by (by constructor). by rewrite length_app. }
  exact (eq_trans (f_equal (csteps act resolve body n) P) C).
Qed.
End Graph.

(** Once returned, a run stays there. *)
Lemma csteps_returned l n (s : state Mem) : csteps act resolve l n (Returned s) = Returned s.
Proof. induction n as [|n IH]; [done|]. change (csteps act resolve l (S n) ?c) with (cstep act resolve l (csteps act resolve l n c)). by rewrite IH. Qed.
End Simulation.

(** C3: The body that [structure] builds, a label per block and a goto per edge, does what
    the graph does, for graphs of expressible blocks ([graph_shape]): block addresses are
    distinct, a block has no phi, PIECE, SUBPIECE or intrinsic, and ends with one RETURN,
    one branch to a block, a condition between two blocks, or falls into its only
    successor; operations have an output and as many inputs as their statement takes, and
    calls are to constants whose name resolves to them.  Copies copy, only stores, calls
    and returns have effects that are seen, and branches leave the memory alone
    ([graph_ops]).  The body is started at the label of a block: the start block's is not its
    first statement in general ([body_ignores_entry]).  For every number of blocks run
    from block [i], the body run from the label of [i] reaches the label of the block the
    graph is at, or returns when the graph has returned, with the same memory, variables
    and effects (stores, calls and the return); it takes at least one statement per block,
    so it runs on when the graph does. *)
Theorem structure_simulates {Mem} (act : PcodeOp -> Z -> list Z -> Mem -> Mem * Z) resolve f (n i : nat) s t :
  graph_ops act -> graph_shape resolve f -> (i < length (blocks f))%nat -> same s t ->
  exists m t', same (gsteps act f n (i, s)).2 t' /\
    match (gsteps act f n (i, s)).1 with
    | Some j => (n <= m)%nat /\ csteps act resolve (c_body (structure f)) m (At (pos f (blocks f) i) t) = At (pos f (blocks f) j) t'
    | None => forall k, csteps act resolve (c_body (structure f)) (k + m) (At (pos f (blocks f) i) t) = Returned t'
    end.
Proof.
  intros Ops Sh. revert i s t. induction n as [|n IH]; intros i s t Hi Sa; [by exists 0%nat, t|].
  destruct (block_run act resolve Ops f Sh i s t Hi Sa) as (m & t' & Hm & S' & C). cbn [gsteps].
  destruct (gstep act f (i, s)) as [[j|] s'] eqn:G; cbn [fst snd] in S', C.
  - assert (Hj : (j < length (blocks f))%nat) by (by eapply gstep_range).
    destruct (IH j s' t' Hj S') as (m' & u & Su & D). exists (m' + m)%nat, u. split; [done|].
    destruct (gsteps act f n (j, s')).1.
    + destruct D as [Hn D]. split; [lia|]. by rewrite csteps_add, C.
    + intros k. by rewrite Nat.add_assoc, csteps_add, C.
  - exists m, t'. split; [done|]. intros k. by rewrite csteps_add, C, csteps_returned.
Qed.

(** ** A loop, and what the printed body does not do *)

(** [x = 3; while (x != 0) { *x = x; x = x - 1; } return x], blocks at 10, 20, 30, 40. *)
Definition rx : Varnode := vn_reg 0 [] 8.
Definition rz : Varnode := vn_temp 7 8.
Definition countdown : PcodeFunc :=
  mk_func 10 [] [mk_block 0 10 [make COPY rx [vn_const 3 8] 10] [1] [] false;
                 mk_block 1 20 [make INT_EQUAL rz [rx; vn_const 0 8] 20; make CBRANCH no_vn [vn_const 40 8; rz] 21] [3; 2] [0; 2] false;
                 mk_block 2 30 [make STORE no_vn [rx; rx] 30; make SUB rx [rx; vn_const 1 8] 31; make BRANCH no_vn [vn_const 20 8] 32] [1] [1] false;
                 mk_block 3 40 [make RETURN no_vn [rx] 40] [] [1] true] 8 0 [] [].

Definition start : state unit := mk_state tt (fun _ => 0) [].

Lemma countdown_shape : graph_shape (fun _ => 0) countdown.
Proof.
  split; [by apply (bool_decide_unpack _); vm_compute|].
  intros b Hb. apply list_elem_of_In in Hb. destruct Hb as [<- |[<- |[<- |[<- |[]]]]].
  - exists (ops (mk_block 0 10 [make COPY rx [vn_const 3 8] 10] [1] [] false)), []. split; [done|]. split; [by repeat constructor|].
    split; [done|]. by exists 1%nat.
  - exists [make INT_EQUAL rz [rx; vn_const 0 8] 20], [make CBRANCH no_vn [vn_const 40 8; rz] 21]. split; [done|]. split; [by repeat constructor|].
    split; [done|]. split; [done|]. split; [by exists 3%nat|done].
  - exists [make STORE no_vn [rx; rx] 30; make SUB rx [rx; vn_const 1 8] 31], [make BRANCH no_vn [vn_const 20 8] 32].
    split; [done|]. split; [by repeat constructor|]. split; [done|]. split; [done|]. by exists 1%nat.
  - exists [], [make RETURN no_vn [rx] 40]. split; [done|]. split; [constructor|]. by split_and!.
Qed.

Lemma act64_graph : graph_ops Propagate.act64.
Proof. split; [by intros o sz ins []|exact Propagate.act64_copies|by intros o sz ins []]. Qed.

Lemma structure_simulates_witness :
  (exists m t', same (gsteps Propagate.act64 countdown 3 (0%nat, start)).2 t' /\ (3 <= m)%nat /\
     csteps Propagate.act64 (fun _ => 0) (c_body (structure countdown)) m (At 0 start) = At 3 t') /\
  (exists m t', same (gsteps Propagate.act64 countdown 20 (0%nat, start)).2 t' /\
     forall k, csteps Propagate.act64 (fun _ => 0) (c_body (structure countdown)) (k + m) (At 0 start) = Returned t') /\
  trace (gsteps Propagate.act64 countdown 3 (0%nat, start)).2 = [(CBRANCH, 21, [40; 0]); (STORE, 30, [3; 3]); (BRANCH, 32, [20])].
Proof.
  assert (R : same start start) by done. assert (L : (0 < length (blocks countdown))%nat) by (cbn; lia).
  split_and!; [| |vm_compute; reflexivity].
  - exact (structure_simulates Propagate.act64 (fun _ => 0) countdown 3 0 start start act64_graph countdown_shape L R).
  - exact (structure_simulates Propagate.act64 (fun _ => 0) countdown 20 0 start start act64_graph countdown_shape L R).
Defined.

(** A phi is printed as a copy of its first input, whatever block came before. *)
Lemma phi_is_first_copy d v w a :
  valid d = true -> emit_block_stmts [mk_insn COPY d [v; w] a (-1)] = [stmt Assign (var v) no_expr d a 0].
Proof. intros H. cbn. by rewrite H. Qed.

(** A block that neither returns nor has a successor, one that ends in a call that does
    not return, falls into the next label. *)
Lemma no_successor_falls_through f b os :
  ops b = os -> last_branch os = None -> succs b = [] -> edge_stmts f b = [].
Proof. intros <- L S. unfold edge_stmts, succ_addrs. rewrite L, S. by destruct (has_return b). Qed.

(** The body starts with the first block, not with the entry. *)
Lemma body_ignores_entry f e :
  c_body (structure (mk_func e (f_name f) (blocks f) (next_temp f) (next_ssa f) (params f) (locals f))) = c_body (structure f).
Proof. cbn. f_equal. Qed.
